(* ===== verification/_CoqProject ===== *)
-Q . S2P
Prelude.v
Counting.v
Net.v
Sockets.v
Wire.v
Text.v
ProxyProtocol.v
NetText.v
SockText.v
Guard.v
Http.v
Config.v
Environment.v
Limits.v
Dial.v
Channel.v
Registry.v
Pex.v
DhtView.v
Stun.v
F64.v
Map.v
Tls.v
Server.v
ServerInv.v
Dashboard.v
ServerProps.v
Mailbox.v
Refinement.v
Delivery.v
Teardown.v
Interleaving.v
InterleavingInv.v
InterleavingPex.v
InterleavingSends.v
InterleavingDelivery.v
Progress.v
Schedules.v
Pages.v
ServerRuns.v
Service.v
ServiceProps.v
Main.v
