(* ===== verification/Prelude.v ===== *)
(** * dig-relay: a verification development

    dig-relay is a public rendezvous server: nodes behind NATs keep a WebSocket to it, register an
    id and a network ([RLY-001]), exchange messages through it, learn each other's dialable
    addresses, and speak a peer-exchange protocol (PEX) with it; beside that it answers STUN
    Binding Requests over UDP and publishes a view of the DHT records its peers report. It is
    exposed to anyone, so what matters is that a client cannot speak for another one, cannot take
    over or outlive a registration, cannot make the relay point traffic at a third party, and
    cannot use more than its share.

    ** Program and model

    - [Prelude.v]: results, machine-integer helpers, sorting, the iteration order of hash maps.
    - [Counting.v]: counting the elements of a list by key, for the statistics and the map.
    - [Net.v]: the part of [std::net] the program uses (addresses, canonical form, ranges, display).
    - [Sockets.v] (net.rs): the calls that open a dual-stack listener.
    - [Wire.v] (src/src/wire.rs): [RelayMessage], [RelayPeerInfo], [DhtRecordEntry].
    - [Text.v]: UTF-8, decimal and hexadecimal text, and the [str] operations the parsers use.
    - [ProxyProtocol.v] (proxy_protocol.rs): the PROXY v2 header, CIDR blocks, the trusted-proxy
      test, [read_source_addr] and the prefixed stream it hands on.
    - [NetText.v], [SockText.v]: the textual addresses of [std::net] and, from proxy_protocol.rs,
      [cidr_parse] and [trusted_parse].
    - [Http.v] (http_serve.rs): the request-head reader and parser, the response writer and the
      replaying stream.
    - [Guard.v] (continuation_guard.rs): the test that reads the crate's source for torn strings.
    - [Config.v] (config.rs): the configuration, its defaults and [validate].
    - [Environment.v] (service.rs, main.rs): what [install] stores in a service's environment,
      [config_from_env], and the command line's overrides.
    - [Limits.v] (limits.rs): token and byte buckets, source keys, per-IP connection and
      registration slots, strikes and bans, the per-connection limiter.
    - [Dial.v] (dial.rs): which addresses of a peer are handed to other peers.
    - [Channel.v]: the store of outbound channels and the ways the server sends.
    - [Registry.v] (registry.rs): the peer table and its queries.
    - [Pex.v] (pex.rs): the bridge from registrations to one PEX engine per network.
    - [DhtView.v] (dht_view.rs): the aggregation behind [/dht].
    - [Stun.v] (stun.rs): the response limiter and the datagram loop.
    - [F64.v], [Map.v] (map.rs, geoip.rs): binary64 arithmetic on coordinates; locating a peer and
      aggregating the peers by map cell.
    - [Tls.v] (tls.rs, the end of [run] in server.rs): the relay's TLS identity, the demand for a
      client certificate and the identity a connection carries.
    - [Server.v] (server.rs): the shared state [RelayState], the per-connection state [Conn], the
      handlers ([dispatch], [pex_dispatch], [register_peer], [forward_to], [broadcast],
      [deregister], [sweep_once], [handle_pex_frame], [handle_frame], ...) and the events that
      compose them: acceptance, upgrade, inbound frames, the end of the read loop, the writer
      task's steps, the end of a task, and the background loops.
    - [ServerInv.v]: the invariant of the reachable states, handler by handler.
    - [ServerProps.v]: the properties of the server.
    - [Mailbox.v], [Refinement.v]: the relay as a service of mailboxes, and the server's refinement
      of it; [Delivery.v]: what becomes of a message once it is queued.
    - [Teardown.v]: the end of a connection: the writer's last turns, and what is held until then.
    - [Interleaving.v]: the handlers taken apart into steps, one for each touch of shared state, mixed
      in any order; [InterleavingInv.v], [InterleavingPex.v]: the invariants of all mixtures, and of
      those where the handlers of one id take turns; [InterleavingSends.v]: who speaks to whom in all
      of them; [InterleavingDelivery.v]: what becomes of a message; [Progress.v]: that what is in
      progress comes to its end; [Schedules.v]: the events of [Server.v] as runs of those steps.
    - [ServerRuns.v]: concrete instances of the parameters, the witnesses of the server's
      properties, and the runs behind the recorded divergences.
    - [Dashboard.v] (dashboard.rs, health.rs): the snapshot of the server's state, what each path
      and virtual host answers, and the plain-HTTP redirect listener.
    - [Pages.v]: the scripts of the embedded pages in dashboard.rs: the texts, cards and tables they
      build from the JSON they fetch, what peers sent included.
    - [Service.v] (service.rs): scopes, the probes of a registration, the removal and migration
      policies over a [ServiceBackend], and [install], [uninstall], [start], [stop], [status].
    - [ServiceProps.v]: their properties against the table of registrations of a machine.
    - [Main.v] (lib.rs, main.rs, win_service.rs): the startup sequence, the Windows service body,
      and the commands of the binary with their output and exit codes.

    The server's state is [World]: the shared [RelayState], the two stores of outbound channels
    (relay and PEX messages), the activity clocks and the live connections. A connection's id names
    its channels and its clock, as the [Arc]s and [Sender]s the tasks share do. [event_step] is the
    transition function and [reachable] its closure from the initial state; connections may
    interleave their events in any order.

    Around it: [Main.startup] validates a [RelayServerConfig] (built by [Environment.config_from])
    and loads the TLS server whose handshakes give [Tls.connection_identity], the verified identity
    the server's acceptance event takes; the dashboard reads the same [RelayState]. The service
    operations are functions on the machine's state, a parameter.

    ** Properties

    - The contract: [server_refines_mailboxes] (with [service_guarantees] of the service),
      [message_delivered], and [teardown_completes]; through any interleaving,
      [interleaved_delivery] and [handlers_finish].
    - Identity and isolation: [frames_cannot_spoof], [certificate_binds_identity],
      [tls_never_silently_off], [tls_connections_identified], [unregistered_frames_inert],
      [live_peer_keeps_record], [routing_exact].
    - Bookkeeping over all reachable states: [reachable_counts], [registered_peers_coherent]; over
      interleaved handlers: [events_are_schedules], [interleaved_bounds], [interleaved_identity],
      [interleaved_no_spoofing], [orderly_pex_coherent].
    - Handlers in detail: [register_peer_exact], [sweep_prunes_exactly], [register_outcome],
      [peers_exact], [dead_or_stale_exact].
    - No reflection: [resolve_dialable_safe] and [resolve_dialable_complete]; [stun_global_bound],
      [stun_per_ip_bound], [stun_allow_exact], [stun_answers_only_requests].
    - Fair shares: [per_conn_limiter_exact], [registration_rate_exact], [conn_slots_exact],
      [reg_slots_exact], [ban_after_threshold], [spaced_strikes_never_ban], [abuse_maps_bounded].
    - Source addresses: [trusts_spec], [read_source_addr_roundtrip], [read_source_addr_payload],
      [resolve_source_exact], [trusted_list_roundtrip], [trusted_parse_sound].
    - HTTP: [read_request_head_exact], [request_roundtrip], [peeked_head_replayed],
      [response_framed].
    - Public views: [stats_private], [live_stats_exact], [map_snapshot_exact], [dht_view_exact],
      [esc_shown], [page_inert], [map_page_inert], [dht_page_inert], [duration_shown],
      [bytes_shown], [maxCount_spec].
    - Configuration and startup: [validate_coherent], [config_default_valid], [config_typed],
      [startup_exact], [listeners_dual_stack].
    - The source text: [guard_passes_exactly].
    - Service and command line: [installed_config_exact], [install_exact], [uninstall_honest],
      [exit_code_honest], [json_contract], [service_reports].

    ** Conventions

    Machine integers are [Z] with the source's saturation and wrap-around written out; a count that
    would underflow is [None] where Rust would panic, and the invariants show it does not happen.
    Durations are nanoseconds. Strings are byte strings, compared as Rust compares UTF-8. A
    [HashMap] is a [gmap] whose iteration order is the parameter [HashOrder]. Clock readings are
    inputs of the events, so nothing assumes that the wall clock is monotone unless a theorem says
    so. In [Server.v] a frame is handled at one reading of each clock; in [Interleaving.v] a handler
    that goes on reads the wall clock anew wherever the code does.

    Code outside the repository is a parameter: the address family ranking ([DigIp]), the PEX
    engine ([DigPex], of which nothing is assumed), the STUN codec
    ([DigStun]), the JSON codec ([Serde]) and tokio's channels ([Mpsc], [MpscLaws]). Each has a
    concrete instance, used by the witnesses. So are the geolocation database ([Reader]), the
    certificate, hash and handshake libraries ([TlsLib], [TlsLibLaws]), the service manager, the
    probe tools and the process's privileges ([Machine], [MachineLaws]), the connection of the
    health probe ([Network]), and the file system, the runtime and the listeners' end ([Process]).

    In [Server.v] an event is atomic: handling one frame, accepting one connection, one sweep.
    [Interleaving.v] has a step for each touch of shared state instead: an atomic counter read or
    changed, a lock taken and released, a message put into a queue, a slot given back. What is left
    of a handler waits in [pending], and any pending handler may go on. [events_are_schedules] shows
    that an event is the run of its steps with nothing in between while the clock stands still.
    Conversely not every mixture is a sequence of events: the caps hold in all of them, but the one
    on open connections only up to the number of threads less one, an id is the certificate's in all
    of them, and in all of them a message reaches another queue only under an id its sender has been
    registered as; PEX agrees with the registry where the handlers of one id take turns, and
    [ServerRuns.v] has runs in which they do not and it does not. A PEX tick stays one step, as the
    engine sends under the lock. There is no deadlock: some pending handler can always
    go on, each step brings it nearer to its end in a well-founded order, and so all of them finish
    ([handlers_finish]).

    The writer task of a connection may end at any time in [Server.v], since a write can fail.
    [Teardown.v] says when it must: [relay_turn] is what the writer finds, [writer_drain] the writer
    left to itself, for as many turns as its queue is long and one more.

    What an engine of PEX advertises is its own affair: it ages entries and leaves out its own id. What
    the relay answers for is what it tells the engine. [Pex.Engine] keeps, beside the engine's state,
    the calls made of it; no operation reads them, and [replays] says that the state is what they lead
    to. [mirrored] is who the engine was told of and not told to forget since, and the statements about
    PEX ([registered_peers_coherent], [sweep_prunes_exactly], [orderly_pex_coherent]) are about that.

    ** Bounds and fuel

    Fuel is used by the printing of a number, where it exceeds the number of digits of the type (5
    decimal digits of an octet, a port or a status, 4 hexadecimal digits of a segment, 20 decimal
    digits of a 64-bit number); by [writer_drain], which needs one turn more than its queue is long
    ([teardown_completes]); and by the two loops of [Guard.v], which need the length of the line and
    the number of directories ([guard_passes_exactly]). The per-IP tables keep at most
    [MAX_TRACKED_IPS] = 65536 sources; the exact per-source statements assume that many sources at
    most are in play, beyond which the oldest entry is recycled. The STUN buffer is 1500 bytes, so a
    longer datagram is parsed by its first 1500.

    ** Not modelled, and why

    What a socket does after its listener is opened and opening the geolocation database are I/O;
    the argument parser is clap's and the handshake's signature checks are rustls's. A page is an
    identifier with its host, a JSON answer its value: the fixed markup and styles of the pages, the
    globe the map page draws with the vendored WebGL library, and the JSON encoding have no
    behaviour of the relay's own. The scripts compute with integers, exact up to 2^53.
    [Interleaving.v] has the handlers of the connections and the background loops; the dashboard
    only reads, under the same locks, and the STUN responder shares nothing with them but a counter,
    so neither takes part in the mixtures. The refinement of the mailbox service is stated for
    events; for any mixture of steps [interleaved_no_spoofing] and [interleaved_delivery] give the
    parts of it that survive. *)

From stdpp Require Export base tactics option list gmap strings sorting numbers relations.
From Stdlib Require Export ZArith Lia.

Declare Scope relay_scope.
Delimit Scope relay_scope with relay.
Global Open Scope relay_scope.
Global Open Scope Z_scope.

(** ** Results *)

(** Rust's [Result]. *)
Inductive result (A E : Type) : Type :=
| Ok (a : A)
| Err (e : E).
Arguments Ok {A E} a.
Arguments Err {A E} e.

Global Instance result_eq_dec `{EqDecision A, EqDecision E} : EqDecision (result A E).
Proof. solve_decision. Defined.

(** Sequencing of fallible computations (Rust's [?]). *)
Definition result_bind {A B E} (r : result A E) (k : A → result B E) : result B E :=
  match r with Ok a => k a | Err e => Err e end.

Notation "x <-? r ; k" := (result_bind r (λ x, k))
  (at level 60, r at next level, right associativity) : relay_scope.

Definition is_ok {A E} (r : result A E) : bool :=
  match r with Ok _ => true | Err _ => false end.

(** A guard that returns early with an error. *)
Lemma guard_Ok {A E} (b : bool) (e : E) (k : result A E) a :
  (if b then Err e else k) = Ok a ↔ b = false ∧ k = Ok a.
Proof. destruct b; naive_solver. Qed.

(** ** Machine integers *)

Definition u8_max : Z := 255.
Definition u16_max : Z := 65535.
Definition u32_max : Z := 4294967295.
Definition u64_max : Z := 18446744073709551615.

(** [uN::saturating_sub], independent of the width. *)
Definition sat_sub (a b : Z) : Z := Z.max 0 (a - b).

(** [uN::saturating_add] at the width whose maximum is [m]. *)
Definition sat_add (m a b : Z) : Z := Z.min m (a + b).

(** [AtomicU64::fetch_add] and [fetch_sub] wrap around. *)
Definition wrap64 (a : Z) : Z := a mod 18446744073709551616.

Definition is_u8 (z : Z) : Prop := 0 ≤ z ≤ u8_max.
Definition is_u16 (z : Z) : Prop := 0 ≤ z ≤ u16_max.
Definition is_u32 (z : Z) : Prop := 0 ≤ z ≤ u32_max.
Definition is_u64 (z : Z) : Prop := 0 ≤ z ≤ u64_max.

Global Instance is_u8_dec z : Decision (is_u8 z).
Proof. unfold is_u8; apply _. Defined.
Global Instance is_u16_dec z : Decision (is_u16 z).
Proof. unfold is_u16; apply _. Defined.
Global Instance is_u32_dec z : Decision (is_u32 z).
Proof. unfold is_u32; apply _. Defined.
Global Instance is_u64_dec z : Decision (is_u64 z).
Proof. unfold is_u64; apply _. Defined.

Create HintDb relay discriminated.
Create Rewrite HintDb relay_rw.

(** Turns the boolean tests of the code into propositions. *)
Ltac propify :=
  repeat match goal with
  | H : (_ <? _) = true |- _ => apply Z.ltb_lt in H
  | H : (_ <? _) = false |- _ => apply Z.ltb_ge in H
  | H : (_ <=? _) = true |- _ => apply Z.leb_le in H
  | H : (_ <=? _) = false |- _ => apply Z.leb_gt in H
  | H : (_ =? _) = true |- _ => apply Z.eqb_eq in H
  | H : (_ =? _) = false |- _ => apply Z.eqb_neq in H
  | H : bool_decide _ = true |- _ => apply bool_decide_eq_true in H
  | H : bool_decide _ = false |- _ => apply bool_decide_eq_false in H
  | H : (_ && _)%bool = true |- _ => apply andb_true_iff in H as [? ?]
  | H : (_ || _)%bool = false |- _ => apply orb_false_iff in H as [? ?]
  | H : negb _ = true |- _ => apply negb_true_iff in H
  | H : negb _ = false |- _ => apply negb_false_iff in H
  end.

(** Splits on the next test of the goal. *)
Ltac case_test :=
  match goal with
  | |- context [if ?b then _ else _] =>
      lazymatch type of b with
      | bool => destruct b eqn:?
      | _ => destruct b
      end
  end.

Lemma wrap64_small a : is_u64 a → wrap64 a = a.
Proof. unfold is_u64, u64_max, wrap64. intros. apply Z.mod_small. lia. Qed.

(** ** Stable sorting

    [slice::sort_by] and [sort_by_key] are stable sorts: among the elements the comparison does not
    separate, the original order is kept. That makes the result unique, so the insertion sort below
    computes it. *)

Lemma StronglySorted_weaken {A} (R S : A → A → Prop) l :
  (∀ x y, R x y → S x y) → StronglySorted R l → StronglySorted S l.
Proof.
  intros HRS. induction 1 as [|x l Hl IH Hx]; constructor; [done|].
  eapply Forall_impl; [exact Hx|]. auto.
Qed.

Section sort_by.
Context {A : Type} (leb : A → A → bool).

Fixpoint insert_by (x : A) (l : list A) : list A :=
  match l with
  | [] => [x]
  | y :: l' => if leb x y then x :: y :: l' else y :: insert_by x l'
  end.

Fixpoint sort_by (l : list A) : list A :=
  match l with
  | [] => []
  | x :: l' => insert_by x (sort_by l')
  end.

Lemma insert_by_perm x l : insert_by x l ≡ₚ x :: l.
Proof.
  induction l as [|y l IH]; simpl; [done|].
  destruct (leb x y); [done|]. rewrite IH. by constructor.
Qed.

Lemma sort_by_perm l : sort_by l ≡ₚ l.
Proof. induction l as [|x l IH]; simpl; [done|]. by rewrite insert_by_perm, IH. Qed.

Lemma elem_of_sort_by x l : x ∈ sort_by l ↔ x ∈ l.
Proof. by rewrite sort_by_perm. Qed.

Lemma length_sort_by l : length (sort_by l) = length l.
Proof. by rewrite sort_by_perm. Qed.

Lemma NoDup_sort_by l : NoDup (sort_by l) ↔ NoDup l.
Proof. by rewrite sort_by_perm. Qed.

(** The sortedness results need the comparison to be total and transitive. *)
Context (leb_total : ∀ x y, leb x y = true ∨ leb y x = true).
Context (leb_trans : ∀ x y z, leb x y = true → leb y z = true → leb x z = true).

Lemma insert_by_sorted x l :
  StronglySorted (λ a b, leb a b = true) l →
  StronglySorted (λ a b, leb a b = true) (insert_by x l).
Proof.
  induction 1 as [|y l Hl IH Hy]; simpl; [repeat constructor|].
  destruct (leb x y) eqn:E.
  - constructor; [by constructor|]. constructor; [done|].
    eapply Forall_impl; [exact Hy|]. eauto.
  - constructor; [done|]. rewrite insert_by_perm.
    constructor; [|done]. destruct (leb_total x y); congruence.
Qed.

Lemma sort_by_sorted l : StronglySorted (λ a b, leb a b = true) (sort_by l).
Proof. induction l; simpl; [constructor|]. by apply insert_by_sorted. Qed.

(** Stability: the elements selected by a test that does not separate equals keep their order. *)
Lemma insert_by_filter (P : A → Prop) `{∀ x, Decision (P x)} x l :
  (∀ a b, P a → P b → leb a b = true) →
  filter P (insert_by x l) = filter P (x :: l).
Proof.
  intros HP. induction l as [|y l IH]; simpl; [done|].
  destruct (leb x y) eqn:E; [done|].
  rewrite (filter_cons P y). rewrite IH. rewrite !filter_cons.
  destruct (decide (P x)), (decide (P y)); try done.
  exfalso. rewrite HP in E; done.
Qed.

Lemma sort_by_stable (P : A → Prop) `{∀ x, Decision (P x)} l :
  (∀ a b, P a → P b → leb a b = true) →
  filter P (sort_by l) = filter P l.
Proof.
  intros HP. induction l as [|x l IH]; simpl; [done|].
  rewrite insert_by_filter by done. by rewrite !filter_cons, IH.
Qed.
End sort_by.

(** ** String order

    A Rust [String] is its UTF-8 byte sequence and [cmp] is lexicographic on bytes; [string] is a
    list of bytes and [String.leb] the same order. *)

Lemma string_leb_le s t : String.leb s t = true ↔ String.le s t.
Proof. unfold String.le. by destruct (String.leb s t). Qed.

Lemma string_leb_total s t : String.leb s t = true ∨ String.leb t s = true.
Proof. apply String.leb_total. Qed.

Lemma string_leb_trans s t u :
  String.leb s t = true → String.leb t u = true → String.leb s u = true.
Proof. rewrite !string_leb_le. apply transitivity. Qed.

(** A sorted list without repeated keys is determined by its elements. *)
Lemma sorted_by_key_unique {A K} (f : A → K) (leb : K → K → bool) (l l' : list A) :
  (∀ x y, leb x y = true → leb y x = true → x = y) →
  StronglySorted (λ a b, leb (f a) (f b) = true) l →
  StronglySorted (λ a b, leb (f a) (f b) = true) l' →
  NoDup (f <$> l) → l ≡ₚ l' → l = l'.
Proof.
  intros Hanti Hl. revert l'. induction Hl as [|x l Hl IH Hx]; intros l' Hl' Hnd Hp.
  { by apply Permutation_nil_l in Hp. }
  destruct Hl' as [|y l' Hl' Hy].
  { by apply Permutation_nil_r in Hp. }
  apply NoDup_cons in Hnd as [Hnin Hnd].
  assert (x = y) as <-.
  { assert (y ∈ x :: l) as [->|Hyl]%elem_of_cons by (rewrite Hp; by left); [done|].
    assert (x ∈ y :: l') as [->|Hxl]%elem_of_cons by (rewrite <- Hp; by left); [done|].
    rewrite Forall_forall in Hx, Hy. destruct Hnin.
    rewrite (Hanti (f x) (f y)); [|by apply Hx|by apply Hy]. by apply list_elem_of_fmap_2. }
  f_equal. apply IH; try done. by apply Permutation_cons_inv in Hp.
Qed.

(** ** Hash maps

    A [HashMap] is a [gmap]. The one thing a [gmap] fixes and a [HashMap] does not is the order in
    which [iter], [values] and the like enumerate the entries: it depends on the hasher's random
    keys. The development never relies on it: every definition that iterates takes the enumeration
    from [HashOrder], and every theorem holds for all instances. *)

Class HashOrder := {
  hash_iter : ∀ {K V : Type} {HE : EqDecision K} {HC : Countable K}, gmap K V → list (K * V);
  hash_iter_perm : ∀ {K V : Type} {HE : EqDecision K} {HC : Countable K} (m : gmap K V),
    hash_iter m ≡ₚ map_to_list m
}.

(** One possible enumeration, used by the concrete evaluations. *)
Definition gmap_order : HashOrder := {|
  hash_iter := λ K V HE HC m, map_to_list m;
  hash_iter_perm := λ K V HE HC m, Permutation_refl (map_to_list m)
|}.

(** Another one: the reverse enumeration. *)
Definition gmap_order_rev : HashOrder := {|
  hash_iter := λ K V HE HC m, reverse (map_to_list m);
  hash_iter_perm := λ K V HE HC m, reverse_Permutation (map_to_list m)
|}.

Section hash_iter.
Context `{HashOrder} {K V : Type} `{Countable K}.
Implicit Types (m : gmap K V) (k : K) (v : V).

Lemma elem_of_hash_iter m k v : (k, v) ∈ hash_iter m ↔ m !! k = Some v.
Proof. by rewrite hash_iter_perm, elem_of_map_to_list. Qed.

Lemma NoDup_fst_hash_iter m : NoDup (hash_iter m).*1.
Proof. rewrite hash_iter_perm. apply NoDup_fst_map_to_list. Qed.

Lemma NoDup_hash_iter m : NoDup (hash_iter m).
Proof. rewrite hash_iter_perm. apply NoDup_map_to_list. Qed.

Lemma length_hash_iter m : length (hash_iter m) = size m.
Proof. rewrite hash_iter_perm. apply length_map_to_list. Qed.
End hash_iter.

(** [Iterator::min_by_key]: the first of the least elements. *)
Fixpoint min_by_key {A} (f : A → Z) (l : list A) : option A :=
  match l with
  | [] => None
  | x :: l' =>
      match min_by_key f l' with
      | Some y => if f y <? f x then Some y else Some x
      | None => Some x
      end
  end.

Lemma min_by_key_None {A} (f : A → Z) l : min_by_key f l = None ↔ l = [].
Proof.
  destruct l as [|x l]; simpl; [done|].
  destruct (min_by_key f l); [case_test|]; naive_solver.
Qed.

Lemma min_by_key_Some {A} (f : A → Z) l x :
  min_by_key f l = Some x → x ∈ l ∧ ∀ y, y ∈ l → f x ≤ f y.
Proof.
  revert x. induction l as [|y l IH]; simpl; intros x Hx; [done|].
  destruct (min_by_key f l) as [z|] eqn:E.
  - destruct (IH z eq_refl) as [Hz Hmin].
    destruct (f z <? f y) eqn:Hlt; simplify_eq; propify.
    + split; [by right|]. intros y' [->|?]%elem_of_cons; [lia|auto].
    + split; [by left|]. intros y' [->|Hin]%elem_of_cons; [lia|].
      specialize (Hmin _ Hin). lia.
  - simplify_eq. apply min_by_key_None in E as ->.
    split; [by left|]. intros y' [->|?]%elem_of_cons; [lia|set_solver].
Qed.

(** ** Filtering and mapping entries *)

Lemma elem_of_fmap_filter {A C : Type} (P : A → Prop) `{∀ x, Decision (P x)}
    (g : A → C) (l : list A) c :
  c ∈ g <$> filter P l ↔ ∃ x, x ∈ l ∧ P x ∧ c = g x.
Proof.
  rewrite list_elem_of_fmap. setoid_rewrite list_elem_of_filter.
  split; [intros (x & -> & ? & ?)|intros (x & ? & ? & ->)]; eauto.
Qed.

Lemma existsb_Exists {A} (f : A → bool) l : existsb f l = true ↔ Exists (λ x, f x = true) l.
Proof.
  induction l as [|x l IH]; simpl; [by rewrite Exists_nil|].
  by rewrite orb_true_iff, IH, Exists_cons.
Qed.
