(* ===== verification/Counting.v ===== *)
(** * Counting in ordered maps

    The [*map.entry(key).or_insert(0) += 1] loops of the views, their enumeration in key order, and
    what they count. *)

From S2P Require Import Prelude.

Definition zsum : list Z → Z := foldr Z.add 0.

Lemma zsum_perm l l' : l ≡ₚ l' → zsum l = zsum l'.
Proof. induction 1; simpl in *; lia. Qed.

Lemma StronglySorted_map {A B} (f : A → B) (R : B → B → Prop) l :
  StronglySorted (λ a b, R (f a) (f b)) l → StronglySorted R (map f l).
Proof.
  induction 1 as [|a l Hl IH Ha]; simpl; constructor; [done|]. by apply Forall_fmap.
Qed.

Section counting.
Context {K : Type} `{Countable K}.

Definition bump (m : gmap K Z) (k : K) : gmap K Z := <[k := default 0 (m !! k) + 1]> m.

(** How often [k] occurs. *)
Definition occ (k : K) (ks : list K) : Z := Z.of_nat (length (filter (λ x, x = k) ks)).

Lemma occ_cons k x ks : occ k (x :: ks) = (if bool_decide (x = k) then 1 else 0) + occ k ks.
Proof.
  unfold occ. rewrite filter_cons. case_bool_decide; [rewrite decide_True by done|
    rewrite decide_False by done]; simpl; lia.
Qed.

Lemma occ_pos k ks : 0 < occ k ks ↔ k ∈ ks.
Proof.
  unfold occ. split.
  - intros Hp. destruct (filter _ ks) as [|x l] eqn:E; [simpl in Hp; lia|].
    assert (x ∈ filter (λ x, x = k) ks) as [-> ?]%list_elem_of_filter by (rewrite E; left). done.
  - intros Hk. assert (k ∈ filter (λ x, x = k) ks) as Hin by (by apply list_elem_of_filter).
    destruct (filter _ ks); [by apply not_elem_of_nil in Hin|simpl; lia].
Qed.

Lemma occ_fmap {A} (f : A → K) k l :
  occ k (f <$> l) = Z.of_nat (length (filter (λ x, f x = k) l)).
Proof.
  induction l as [|x l IH]; [done|]. rewrite fmap_cons, occ_cons, filter_cons, IH.
  case_bool_decide; [rewrite decide_True by done|rewrite decide_False by done]; cbn [length]; lia.
Qed.

Lemma foldl_bump ks m k :
  map_Forall (λ _ n, 0 < n) m →
  default 0 (foldl bump m ks !! k) = default 0 (m !! k) + occ k ks ∧
  map_Forall (λ _ n, 0 < n) (foldl bump m ks).
Proof.
  revert m. induction ks as [|x ks IH]; intros m Hm; cbn [foldl].
  { split; [|done]. unfold occ. simpl. lia. }
  assert (map_Forall (λ _ n, 0 < n) (bump m x)) as Hm1.
  { unfold bump. apply map_Forall_insert_2; [|done].
    destruct (m !! x) eqn:E; simpl; [|lia]. apply Hm in E. simpl in E. lia. }
  destruct (IH _ Hm1) as [E1 E2]. split; [|done].
  rewrite E1, occ_cons. unfold bump. case_bool_decide as E.
  - rewrite <- E, lookup_insert_eq. simpl. lia.
  - rewrite lookup_insert_ne by done. lia.
Qed.

(** The entries are the keys that occur, each with its number of occurrences. *)
Lemma counts_exact ks k n : foldl bump ∅ ks !! k = Some n ↔ n = occ k ks ∧ k ∈ ks.
Proof.
  destruct (foldl_bump ks ∅ k) as [E Hpos]; [by intros ? ?|].
  rewrite lookup_empty in E. rewrite <- occ_pos. split.
  - intros Hk. rewrite Hk in E. simpl in E. specialize (Hpos _ _ Hk).
    rewrite Z.add_0_l in E. cbn [default] in E. by rewrite <- E.
  - intros [-> Hp]. destruct (foldl bump ∅ ks !! k); simpl in E; [by f_equal|lia].
Qed.

Lemma sum_bump m k : zsum (snd <$> map_to_list (bump m k)) = zsum (snd <$> map_to_list m) + 1.
Proof.
  unfold bump. destruct (m !! k) as [n|] eqn:E; cbn [default].
  - rewrite <- (insert_delete_id m k n E) at 2. rewrite <- insert_delete_eq.
    rewrite (zsum_perm _ _ (fmap_Permutation _ _ _ (map_to_list_insert _ k _ (lookup_delete_eq m k)))).
    rewrite (zsum_perm _ _ (fmap_Permutation _ _ _ (map_to_list_insert _ k n (lookup_delete_eq m k)))).
    simpl. lia.
  - rewrite (zsum_perm _ _ (fmap_Permutation _ _ _ (map_to_list_insert _ k _ E))).
    rewrite fmap_cons. cbn [zsum foldr fst snd default]. unfold zsum. simpl default. lia.
Qed.

Lemma counts_sum ks :
  zsum (snd <$> map_to_list (foldl bump (∅ : gmap K Z) ks)) = Z.of_nat (length ks).
Proof.
  cut (∀ m : gmap K Z, zsum (snd <$> map_to_list (foldl bump m ks)) =
    zsum (snd <$> map_to_list m) + Z.of_nat (length ks)).
  { intros Hc. rewrite Hc, map_to_list_empty. done. }
  induction ks as [|k ks IH]; intros m; cbn [foldl]; [simpl; lia|].
  rewrite IH, sum_bump. simpl. lia.
Qed.
End counting.
