(* ===== verification/Net.v ===== *)
(** * std::net addresses

    The part of Rust's [std::net] the relay uses: IPv4 and IPv6 addresses, their octet and segment
    views, IPv4-mapped canonicalisation, the range predicates, and socket addresses. Octets and
    segments are integers; [wf_ip] says that they are in range. *)

From S2P Require Import Prelude.

Record Ipv4Addr := MkV4 { v4_a : Z; v4_b : Z; v4_c : Z; v4_d : Z }.

(** An IPv6 address as its eight 16-bit segments. *)
Record Ipv6Addr := MkV6 {
  v6_0 : Z; v6_1 : Z; v6_2 : Z; v6_3 : Z; v6_4 : Z; v6_5 : Z; v6_6 : Z; v6_7 : Z }.

Inductive IpAddr : Type :=
| IpV4 (ip : Ipv4Addr)
| IpV6 (ip : Ipv6Addr).

(** A V6 socket address carries a flow label and a scope id beside the port; both take part in
    equality. *)
Inductive SocketAddr : Type :=
| SaV4 (ip : Ipv4Addr) (port : Z)
| SaV6 (ip : Ipv6Addr) (port flowinfo scope_id : Z).

Global Instance Ipv4Addr_eq_dec : EqDecision Ipv4Addr.
Proof. solve_decision. Defined.
Global Instance Ipv6Addr_eq_dec : EqDecision Ipv6Addr.
Proof. solve_decision. Defined.
Global Instance IpAddr_eq_dec : EqDecision IpAddr.
Proof. solve_decision. Defined.
Global Instance SocketAddr_eq_dec : EqDecision SocketAddr.
Proof. solve_decision. Defined.

Global Instance Ipv4Addr_countable : Countable Ipv4Addr.
Proof.
  refine (inj_countable' (λ a, (v4_a a, v4_b a, v4_c a, v4_d a))
    (λ '(a, b, c, d), MkV4 a b c d) _); by intros [].
Defined.
Global Instance Ipv6Addr_countable : Countable Ipv6Addr.
Proof.
  refine (inj_countable'
    (λ a, (v6_0 a, v6_1 a, v6_2 a, v6_3 a, (v6_4 a, v6_5 a, v6_6 a, v6_7 a)))
    (λ '(a, b, c, d, (e, f, g, h)), MkV6 a b c d e f g h) _); by intros [].
Defined.
Global Instance IpAddr_countable : Countable IpAddr.
Proof.
  refine (inj_countable' (λ i, match i with IpV4 a => inl a | IpV6 a => inr a end)
    (λ s, match s with inl a => IpV4 a | inr a => IpV6 a end) _); by intros [].
Defined.

(** ** Octets and segments *)

Definition v4_octets (a : Ipv4Addr) : list Z := [v4_a a; v4_b a; v4_c a; v4_d a].

Definition v6_segments (a : Ipv6Addr) : list Z :=
  [v6_0 a; v6_1 a; v6_2 a; v6_3 a; v6_4 a; v6_5 a; v6_6 a; v6_7 a].

Definition be_hi (s : Z) : Z := s / 256.
Definition be_lo (s : Z) : Z := s mod 256.
Definition be16 (hi lo : Z) : Z := 256 * hi + lo.

Definition v6_octets (a : Ipv6Addr) : list Z :=
  concat (map (λ s, [be_hi s; be_lo s]) (v6_segments a)).

(** [Ipv6Addr::from([u8; 16])]; the argument of the Rust function has exactly 16 octets. *)
Definition v6_from_octets (o : list Z) : Ipv6Addr :=
  let b i := default 0 (o !! i) in
  MkV6 (be16 (b 0%nat) (b 1%nat)) (be16 (b 2%nat) (b 3%nat)) (be16 (b 4%nat) (b 5%nat))
       (be16 (b 6%nat) (b 7%nat)) (be16 (b 8%nat) (b 9%nat)) (be16 (b 10%nat) (b 11%nat))
       (be16 (b 12%nat) (b 13%nat)) (be16 (b 14%nat) (b 15%nat)).

Definition wf_v4 (a : Ipv4Addr) : Prop := Forall is_u8 (v4_octets a).
Definition wf_v6 (a : Ipv6Addr) : Prop := Forall is_u16 (v6_segments a).
Definition wf_ip (i : IpAddr) : Prop :=
  match i with IpV4 a => wf_v4 a | IpV6 a => wf_v6 a end.

Global Instance wf_v4_dec a : Decision (wf_v4 a).
Proof. unfold wf_v4; apply _. Defined.
Global Instance wf_v6_dec a : Decision (wf_v6 a).
Proof. unfold wf_v6; apply _. Defined.
Global Instance wf_ip_dec i : Decision (wf_ip i).
Proof. destruct i; simpl; apply _. Defined.

Lemma be16_hi_lo s : be16 (be_hi s) (be_lo s) = s.
Proof. unfold be16, be_hi, be_lo. pose proof (Z.div_mod s 256). lia. Qed.

Lemma be_hi_be16 hi lo : is_u8 lo → be_hi (be16 hi lo) = hi.
Proof.
  unfold be_hi, be16, is_u8, u8_max. intros.
  symmetry. apply Z.div_unique with lo; lia.
Qed.

Lemma be_lo_be16 hi lo : is_u8 lo → be_lo (be16 hi lo) = lo.
Proof.
  unfold be_lo, be16, is_u8, u8_max. intros.
  symmetry. apply Z.mod_unique with hi; lia.
Qed.

Lemma be_hi_u8 s : is_u16 s → is_u8 (be_hi s).
Proof.
  unfold is_u16, is_u8, u16_max, u8_max, be_hi. intros [? ?]. split.
  - apply Z.div_pos; lia.
  - enough (s / 256 < 256) by lia. apply Z.div_lt_upper_bound; lia.
Qed.

Lemma be_lo_u8 s : is_u8 (be_lo s).
Proof. unfold is_u8, u8_max, be_lo. pose proof (Z.mod_pos_bound s 256). lia. Qed.

#[export] Hint Resolve be_hi_u8 be_lo_u8 : relay.

Lemma v6_from_octets_octets a : v6_from_octets (v6_octets a) = a.
Proof.
  unfold v6_from_octets. destruct a. cbn -[be_hi be_lo be16]. by rewrite !be16_hi_lo.
Qed.

Lemma length_v6_octets a : length (v6_octets a) = 16%nat.
Proof. done. Qed.

Lemma v6_octets_inj a b : v6_octets a = v6_octets b → a = b.
Proof. intros E. by rewrite <- (v6_from_octets_octets a), E, v6_from_octets_octets. Qed.

Lemma Forall_v6_octets a : wf_v6 a → Forall is_u8 (v6_octets a).
Proof.
  unfold wf_v6, v6_octets. induction 1 as [|s l Hs _ IH]; simpl; [constructor|].
  rewrite !Forall_cons. auto with relay.
Qed.

(** ** Canonicalisation of IPv4-mapped addresses *)

(** [Ipv6Addr::to_ipv4_mapped]: [::ffff:a.b.c.d] to [a.b.c.d], nothing else. *)
Definition to_ipv4_mapped (a : Ipv6Addr) : option Ipv4Addr :=
  if bool_decide (take 6 (v6_segments a) = [0; 0; 0; 0; 0; 65535])
  then Some (MkV4 (be_hi (v6_6 a)) (be_lo (v6_6 a)) (be_hi (v6_7 a)) (be_lo (v6_7 a)))
  else None.

(** [Ipv4Addr::to_ipv6_mapped]. *)
Definition to_ipv6_mapped (a : Ipv4Addr) : Ipv6Addr :=
  MkV6 0 0 0 0 0 65535 (be16 (v4_a a) (v4_b a)) (be16 (v4_c a) (v4_d a)).

(** [IpAddr::to_canonical]. *)
Definition to_canonical (i : IpAddr) : IpAddr :=
  match i with
  | IpV4 a => IpV4 a
  | IpV6 a => match to_ipv4_mapped a with Some v4 => IpV4 v4 | None => IpV6 a end
  end.

Definition is_ipv4 (i : IpAddr) : bool := match i with IpV4 _ => true | IpV6 _ => false end.
Definition is_ipv6 (i : IpAddr) : bool := negb (is_ipv4 i).

Lemma to_ipv4_mapped_to_ipv6_mapped a : wf_v4 a → to_ipv4_mapped (to_ipv6_mapped a) = Some a.
Proof.
  unfold wf_v4, v4_octets. intros Hwf.
  assert (is_u8 (v4_b a) ∧ is_u8 (v4_d a)) as [Hb Hd].
  { rewrite !Forall_cons in Hwf. tauto. }
  unfold to_ipv4_mapped, to_ipv6_mapped. cbn -[be_hi be_lo be16].
  rewrite !be_hi_be16, !be_lo_be16 by done. by destruct a.
Qed.

Lemma to_ipv4_mapped_Some v6 v4 : to_ipv4_mapped v6 = Some v4 → v6 = to_ipv6_mapped v4.
Proof.
  unfold to_ipv4_mapped. destruct v6 as [s0 s1 s2 s3 s4 s5 s6 s7].
  case_bool_decide as E; intros; simplify_eq/=.
  unfold to_ipv6_mapped. cbn -[be_hi be_lo be16]. by rewrite !be16_hi_lo.
Qed.

Lemma to_canonical_idemp i : to_canonical (to_canonical i) = to_canonical i.
Proof.
  destruct i as [a|a]; simpl; [done|].
  destruct (to_ipv4_mapped a) eqn:E; simpl; [done|]. by rewrite E.
Qed.

Lemma to_canonical_mapped a : wf_v4 a → to_canonical (IpV6 (to_ipv6_mapped a)) = IpV4 a.
Proof. intros. unfold to_canonical. by rewrite to_ipv4_mapped_to_ipv6_mapped. Qed.

Lemma to_canonical_wf i : wf_ip i → wf_ip (to_canonical i).
Proof.
  destruct i as [a|a]; simpl; [done|]. unfold to_ipv4_mapped.
  case_bool_decide; simpl; [|done]. unfold wf_v6, wf_v4, v6_segments, v4_octets; simpl.
  rewrite !Forall_cons, Forall_nil. intros. destruct_and!. auto 10 with relay.
Qed.

(** Two addresses of one source: the same IPv4 address, or IPv6 addresses of one /64. *)
Definition same_source (a b : IpAddr) : Prop :=
  match to_canonical a, to_canonical b with
  | IpV4 x, IpV4 y => x = y
  | IpV6 x, IpV6 y => take 4 (v6_segments x) = take 4 (v6_segments y)
  | _, _ => False
  end.

Lemma same_source_refl a : same_source a a.
Proof. unfold same_source. by destruct (to_canonical a). Qed.

(** ** Address ranges *)

Definition v4_is_unspecified (a : Ipv4Addr) : bool :=
  bool_decide (v4_octets a = [0; 0; 0; 0]).
Definition v4_is_loopback (a : Ipv4Addr) : bool := v4_a a =? 127.
Definition v4_is_private (a : Ipv4Addr) : bool :=
  (v4_a a =? 10)
  || ((v4_a a =? 172) && (16 <=? v4_b a) && (v4_b a <=? 31))
  || ((v4_a a =? 192) && (v4_b a =? 168)).
Definition v4_is_link_local (a : Ipv4Addr) : bool := (v4_a a =? 169) && (v4_b a =? 254).
Definition v6_is_unspecified (a : Ipv6Addr) : bool :=
  bool_decide (v6_segments a = [0; 0; 0; 0; 0; 0; 0; 0]).
Definition v6_is_loopback (a : Ipv6Addr) : bool :=
  bool_decide (v6_segments a = [0; 0; 0; 0; 0; 0; 0; 1]).

Definition ip_is_unspecified (i : IpAddr) : bool :=
  match i with IpV4 a => v4_is_unspecified a | IpV6 a => v6_is_unspecified a end.

Definition V6_UNSPECIFIED : Ipv6Addr := MkV6 0 0 0 0 0 0 0 0.

(** ** Socket addresses *)

Definition sa_ip (s : SocketAddr) : IpAddr :=
  match s with SaV4 a _ => IpV4 a | SaV6 a _ _ _ => IpV6 a end.
Definition sa_port (s : SocketAddr) : Z :=
  match s with SaV4 _ p => p | SaV6 _ p _ _ => p end.
Definition sa_is_ipv6 (s : SocketAddr) : bool := is_ipv6 (sa_ip s).

(** [SocketAddr::new]: a zero flow label and scope id. *)
Definition sa_new (i : IpAddr) (port : Z) : SocketAddr :=
  match i with IpV4 a => SaV4 a port | IpV6 a => SaV6 a port 0 0 end.

Lemma sa_ip_new i p : sa_ip (sa_new i p) = i.
Proof. by destruct i. Qed.
Lemma sa_port_new i p : sa_port (sa_new i p) = p.
Proof. by destruct i. Qed.

#[export] Hint Rewrite sa_ip_new sa_port_new : relay_rw.

(** ** [Display] for addresses *)

Definition ascii_of_digit (d : Z) : Ascii.ascii :=
  Ascii.ascii_of_N (Z.to_N (if d <? 10 then 48 + d else 87 + d)).

(** Digits of [n] in [base], most significant first, without leading zeros; [fuel] digits at most.
    Octets have 3 decimal digits, segments 4 hexadecimal ones and ports 5 decimal ones. *)
Fixpoint digits (fuel : nat) (base n : Z) (acc : string) : string :=
  match fuel with
  | O => acc
  | S fuel' =>
      let acc := String (ascii_of_digit (n mod base)) acc in
      if n / base =? 0 then acc else digits fuel' base (n / base) acc
  end.

Definition dec_string (n : Z) : string := digits 5 10 n EmptyString.
Definition hex_string (n : Z) : string := digits 4 16 n EmptyString.

Fixpoint join (sep : string) (l : list string) : string :=
  match l with
  | [] => EmptyString
  | [x] => x
  | x :: l' => String.append x (String.append sep (join sep l'))
  end.

Definition v4_to_string (a : Ipv4Addr) : string := join "." (map dec_string (v4_octets a)).

(** The first longest run of zero segments, as start and length. *)
Fixpoint zero_run (i : nat) (l : list Z) (cur best : nat * nat) : nat * nat :=
  match l with
  | [] => best
  | s :: l' =>
      if s =? 0 then
        let cur := (if (cur.2 =? 0)%nat then i else cur.1, S cur.2) in
        zero_run (S i) l' cur (if (best.2 <? cur.2)%nat then cur else best)
      else zero_run (S i) l' (0, 0)%nat best
  end.

Definition v6_to_string (a : Ipv6Addr) : string :=
  match to_ipv4_mapped a with
  | Some v4 => String.append "::ffff:" (v4_to_string v4)
  | None =>
      let segs := v6_segments a in
      let '(start, len) := zero_run 0 segs (0, 0)%nat (0, 0)%nat in
      if (1 <? len)%nat then
        String.append (join ":" (map hex_string (take start segs)))
          (String.append "::" (join ":" (map hex_string (drop (start + len) segs))))
      else join ":" (map hex_string segs)
  end.

Definition ip_to_string (i : IpAddr) : string :=
  match i with IpV4 a => v4_to_string a | IpV6 a => v6_to_string a end.

Example ip_to_string_examples :
  map ip_to_string
    [IpV4 (MkV4 203 0 113 9); IpV6 V6_UNSPECIFIED; IpV6 (MkV6 0 0 0 0 0 0 0 1);
     IpV6 (MkV6 0x2001 0xdb8 0 0 1 0 0 1); IpV6 (to_ipv6_mapped (MkV4 10 0 0 255));
     IpV6 (MkV6 0x2001 0xdb8 0 1 1 1 1 1)]
  = ["203.0.113.9"; "::"; "::1"; "2001:db8::1:0:0:1"; "::ffff:10.0.0.255";
     "2001:db8:0:1:1:1:1:1"]%string.
Proof. reflexivity. Qed.
