(* ===== verification/Sockets.v ===== *)
(** * Binding the listeners (src/src/net.rs)

    What the relay asks of the operating system when it opens a listener. A call is recorded in
    [trace] when it is made; whether it succeeds is the parameter [answer], which may depend on
    everything asked before, and an error ends the opening ([?] in the source). *)

From S2P Require Import Prelude Net.

Inductive Domain : Type := IPV4 | IPV6.
Inductive SockType : Type := STREAM | DGRAM.
Inductive Protocol : Type := TCP | UDP.

Inductive Call : Type :=
| SocketNew (domain : Domain) (ty : SockType) (protocol : Protocol)
| SetOnlyV6 (on : bool)
| SetReuseAddress (on : bool)
| Bind (addr : SocketAddr)
| Listen (backlog : Z)
| SetNonblocking (on : bool)
| FromStd.

Section sockets.
Context {IoError : Type} (answer : list Call → Call → option IoError).

(** A computation: the calls made so far to its result and the calls made. *)
Definition Io (A : Type) : Type := list Call → result A IoError * list Call.

Definition io_ret {A} (a : A) : Io A := λ trace, (Ok a, trace).

Definition io_bind {A B} (m : Io A) (k : A → Io B) : Io B := λ trace,
  match m trace with (Ok a, trace) => k a trace | (Err e, trace) => (Err e, trace) end.

Definition call (c : Call) : Io unit := λ trace,
  (match answer trace c with None => Ok tt | Some e => Err e end, trace ++ [c]).

Notation "m ;; k" := (io_bind m (λ _, k)) (at level 100, right associativity).

Definition new_dual_stack_socket (addr : SocketAddr) (ty : SockType) (protocol : Protocol) : Io unit :=
  let domain := if sa_is_ipv6 addr then IPV6 else IPV4 in
  call (SocketNew domain ty protocol) ;;
  (if sa_is_ipv6 addr then call (SetOnlyV6 false) else io_ret tt) ;;
  call (SetReuseAddress true) ;;
  call (Bind addr).

Definition bind_tcp_dual_stack (addr : SocketAddr) : Io unit :=
  new_dual_stack_socket addr STREAM TCP ;;
  call (Listen 128) ;;
  call (SetNonblocking true) ;;
  call FromStd.

Definition bind_udp_dual_stack (addr : SocketAddr) : Io unit :=
  new_dual_stack_socket addr DGRAM UDP ;;
  call (SetNonblocking true) ;;
  call FromStd.

(** ** Runs of calls *)

(** Some calls one after another, until one fails. *)
Fixpoint calls (cs : list Call) : Io unit :=
  match cs with [] => io_ret tt | c :: cs => call c ;; calls cs end.

Lemma io_bind_assoc {A B C} (m : Io A) (k : A → Io B) (h : B → Io C) trace :
  io_bind (io_bind m k) h trace = io_bind m (λ a, io_bind (k a) h) trace.
Proof. unfold io_bind. by destruct (m trace) as [[a|e] t]. Qed.

Lemma calls_app cs ds trace : calls (cs ++ ds) trace = (calls cs ;; calls ds) trace.
Proof.
  revert trace. induction cs as [|c cs IH]; intros trace; [done|]. cbn [app calls].
  rewrite io_bind_assoc. unfold io_bind at 1 2. destruct (call c trace) as [[[]|e] t]; [apply IH|done].
Qed.

Lemma call_calls c trace : call c trace = calls [c] trace.
Proof. cbn [calls]. unfold io_bind. by destruct (call c trace) as [[[]|e] t]. Qed.

(** What became of some calls, made after [trace]: each call made is one of them, in their order; the
    calls before the last one made succeeded; and the last one failed or was the last intended. *)
Definition carried_out (cs trace : list Call) (out : result unit IoError * list Call) : Prop :=
  ∃ made rest, cs = made ++ rest ∧ out.2 = trace ++ made ∧
    match out.1 with
    | Ok _ => rest = [] ∧ ∀ i c, made !! i = Some c → answer (trace ++ take i made) c = None
    | Err e => ∃ before last, made = before ++ [last] ∧ answer (trace ++ before) last = Some e ∧
        ∀ i c, before !! i = Some c → answer (trace ++ take i before) c = None
    end.

Lemma cons_answered (trace : list Call) c cs :
  answer trace c = None →
  (∀ i d, cs !! i = Some d → answer ((trace ++ [c]) ++ take i cs) d = None) →
  ∀ i d, (c :: cs) !! i = Some d → answer (trace ++ take i (c :: cs)) d = None.
Proof.
  intros Hc Hcs [|i] d; cbn [lookup list_lookup take].
  - intros [= <-]. by rewrite app_nil_r.
  - intros Hd. generalize (Hcs i d Hd). by rewrite <- app_assoc.
Qed.

Lemma calls_carried_out cs trace : carried_out cs trace (calls cs trace).
Proof.
  revert trace. induction cs as [|c cs IH]; intros trace; cbn [calls].
  { exists [], []. split_and!; [done|by rewrite app_nil_r|]. split; [done|]. by intros ? ?. }
  unfold io_bind, call. destruct (answer trace c) as [e|] eqn:Ha.
  - exists [c], cs. split_and!; [done|done|]. exists [], c. split_and!; [done|by rewrite app_nil_r|]. by intros ? ?.
  - destruct (IH (trace ++ [c])) as (made & rest & -> & Ht & Hr). exists (c :: made), rest.
    split_and!; [done|by rewrite Ht, <- app_assoc|].
    destruct (calls (made ++ rest) (trace ++ [c])) as [[u|e] t]; cbn [fst snd] in *.
    + destruct Hr as [-> Hall]. split; [done|]. by apply cons_answered.
    + destruct Hr as (before & last & -> & He & Hall). exists (c :: before), last.
      split_and!; [done|by rewrite <- app_assoc in He|]. by apply cons_answered.
Qed.

(** ** What a listener asks for *)

Definition socket_plan (addr : SocketAddr) (ty : SockType) (protocol : Protocol) : list Call :=
  if sa_is_ipv6 addr
  then [SocketNew IPV6 ty protocol; SetOnlyV6 false; SetReuseAddress true; Bind addr]
  else [SocketNew IPV4 ty protocol; SetReuseAddress true; Bind addr].

Lemma new_dual_stack_socket_plan addr ty protocol trace :
  new_dual_stack_socket addr ty protocol trace = calls (socket_plan addr ty protocol) trace.
Proof.
  unfold new_dual_stack_socket, socket_plan. destruct (sa_is_ipv6 addr); cbn [calls]; unfold io_bind, call, io_ret;
    repeat case_match; simplify_eq; done.
Qed.

Lemma bind_tcp_plan addr trace :
  bind_tcp_dual_stack addr trace =
  calls (socket_plan addr STREAM TCP ++ [Listen 128; SetNonblocking true; FromStd]) trace.
Proof.
  rewrite calls_app. unfold bind_tcp_dual_stack. unfold io_bind at 1 4. rewrite new_dual_stack_socket_plan.
  destruct (calls (socket_plan _ _ _) trace) as [[[]|e] t]; [|done].
  cbn [calls]; unfold io_bind, call, io_ret; repeat case_match; simplify_eq; done.
Qed.

Lemma bind_udp_plan addr trace :
  bind_udp_dual_stack addr trace =
  calls (socket_plan addr DGRAM UDP ++ [SetNonblocking true; FromStd]) trace.
Proof.
  rewrite calls_app. unfold bind_udp_dual_stack. unfold io_bind at 1 3. rewrite new_dual_stack_socket_plan.
  destruct (calls (socket_plan _ _ _) trace) as [[[]|e] t]; [|done].
  cbn [calls]; unfold io_bind, call, io_ret; repeat case_match; simplify_eq; done.
Qed.

Definition listener_plan (udp : bool) (addr : SocketAddr) : list Call :=
  if udp then socket_plan addr DGRAM UDP ++ [SetNonblocking true; FromStd]
  else socket_plan addr STREAM TCP ++ [Listen 128; SetNonblocking true; FromStd].

Definition open_listener (udp : bool) (addr : SocketAddr) : result unit IoError * list Call :=
  if udp then bind_udp_dual_stack addr [] else bind_tcp_dual_stack addr [].

(** The only address a plan binds is the one asked for, and if it is an IPv6 address then after
    [IPV6_V6ONLY] is cleared. *)
Lemma plan_dual_stack udp addr before a after :
  listener_plan udp addr = before ++ Bind a :: after →
  a = addr ∧ (sa_is_ipv6 addr = true → SetOnlyV6 false ∈ before).
Proof.
  unfold listener_plan, socket_plan. intros H.
  destruct udp, (sa_is_ipv6 addr);
    repeat (destruct before as [|? before]; simplify_list_eq; try done); split; set_solver.
Qed.

(** Opening a listener, for TCP or for UDP, is carried out as intended: when it succeeds, every
    intended call was made and none failed; when it fails, its error is that of the last call made,
    every call before it succeeded, and none after it was made. Whatever happens, an address is bound
    only if it is the one asked for, and an IPv6 one only after [IPV6_V6ONLY] has been cleared. *)
Theorem listeners_dual_stack udp addr before a after :
  carried_out (listener_plan udp addr) [] (open_listener udp addr) ∧
  ((open_listener udp addr).2 = before ++ Bind a :: after →
    a = addr ∧ (sa_is_ipv6 addr = true → SetOnlyV6 false ∈ before)).
Proof.
  assert (Hc : carried_out (listener_plan udp addr) [] (open_listener udp addr)).
  { unfold open_listener, listener_plan.
    destruct udp; rewrite ?bind_udp_plan, ?bind_tcp_plan; apply calls_carried_out. }
  split; [done|]. destruct Hc as (made & rest & Hp & -> & _). cbn [app]. intros ->.
  apply (plan_dual_stack udp addr before a (after ++ rest)). rewrite Hp. by rewrite <- app_assoc.
Qed.
End sockets.

(** ** An example: an IPv6 listener where nothing fails, and one whose address is in use *)

Definition example_addr : SocketAddr := SaV6 V6_UNSPECIFIED 9450 0 0.

Definition in_use (trace : list Call) (c : Call) : option string :=
  match c with Bind _ => Some "address in use"%string | _ => None end.

Lemma listeners_dual_stack_witness :
  let free := open_listener (λ _ _, None : option string) false example_addr in
  let taken := open_listener in_use true example_addr in
  free.1 = Ok tt ∧ length free.2 = 7%nat ∧
  taken = (Err "address in use"%string,
           [SocketNew IPV6 DGRAM UDP; SetOnlyV6 false; SetReuseAddress true; Bind example_addr]) ∧
  SetOnlyV6 false ∈ [SocketNew IPV6 DGRAM UDP; SetOnlyV6 false; SetReuseAddress true].
Proof.
  split_and!; [done|done|done|].
  destruct (listeners_dual_stack in_use true example_addr
    [SocketNew IPV6 DGRAM UDP; SetOnlyV6 false; SetReuseAddress true] example_addr []) as [_ H].
  apply H; reflexivity.
Defined.
