(* ===== verification/Wire.v ===== *)
(** * The relay wire messages (src/wire.rs)

    The message enum and the peer record, with the source's constructors and fields. The JSON text
    form is produced and parsed by serde and is a parameter of the components that frame messages.
    Strings are the UTF-8 byte sequences Rust strings are; a [Vec<u8>] is a list of octets. *)

From S2P Require Import Prelude Net.

Record DhtRecordEntry := MkDhtRecord { dr_content_key : string; dr_providers : Z }.

Record RelayPeerInfo := MkPeerInfo {
  pi_peer_id : string;
  pi_network_id : string;
  pi_protocol_version : Z;
  pi_connected_at : Z;
  pi_last_seen : Z;
  pi_addresses : list SocketAddr }.

Inductive RelayMessage : Type :=
| Register (peer_id network_id : string) (protocol_version : Z) (listen_addrs : list SocketAddr)
| RegisterAck (success : bool) (message : string) (connected_peers : Z)
| Unregister (peer_id : string)
| RelayGossipMessage (from to : string) (payload : list Z) (seq : Z)
| Broadcast (from : string) (payload : list Z) (exclude : list string)
| PeerConnected (peer : RelayPeerInfo)
| PeerDisconnected (peer_id : string)
| GetPeers (network_id : option string)
| Peers (peers : list RelayPeerInfo)
| Ping (timestamp : Z)
| Pong (timestamp : Z)
| HolePunchRequest (peer_id target_peer_id : string) (external_addr : SocketAddr)
| HolePunchCoordinate (peer_id : string) (external_addr : SocketAddr)
| HolePunchResult (peer_id : string) (success : bool)
| Error (code : Z) (message : string)
| GetDhtRecords (max_keys : Z)
| DhtRecords (records : list DhtRecordEntry) (total_keys : Z) (truncated : bool).

Global Instance DhtRecordEntry_eq_dec : EqDecision DhtRecordEntry.
Proof. solve_decision. Defined.
Global Instance RelayPeerInfo_eq_dec : EqDecision RelayPeerInfo.
Proof. solve_decision. Defined.
Global Instance RelayMessage_eq_dec : EqDecision RelayMessage.
Proof. solve_decision. Defined.

(** Seconds since the epoch; a clock before the epoch reads as 0. *)
Definition unix_secs (clock : Z) : Z := if clock <? 0 then 0 else clock.

(** [RelayPeerInfo::new], at the wall-clock time [clock]. *)
Definition peer_info_new (clock : Z) (peer_id network_id : string) (protocol_version : Z)
    : RelayPeerInfo :=
  let now := unix_secs clock in
  MkPeerInfo peer_id network_id protocol_version now now [].

(** [RelayPeerInfo { addresses, ..info }]. *)
Definition with_addresses (info : RelayPeerInfo) (addrs : list SocketAddr) : RelayPeerInfo :=
  MkPeerInfo (pi_peer_id info) (pi_network_id info) (pi_protocol_version info)
    (pi_connected_at info) (pi_last_seen info) addrs.
