(* ===== verification/Text.v ===== *)
(** * Text

    The part of Rust's [str] the relay parses with: UTF-8 validation, splitting, trimming and ASCII
    case. A text is the list of its Unicode scalar values; [chars] is the text of an ASCII literal
    of the source. *)

From S2P Require Import Prelude Net.

Definition str : Type := list Z.

Definition chars (s : string) : str :=
  map (λ a, Z.of_N (Ascii.N_of_ascii a)) (String.list_ascii_of_string s).

(** ** UTF-8 *)

Definition in_range (lo hi b : Z) : bool := (lo <=? b) && (b <=? hi).
Definition is_cont (b : Z) : bool := in_range 0x80 0xBF b.

(** What the second byte of a sequence of three or four may be, after the first: no overlong form,
    no surrogate, nothing above U+10FFFF. *)
Definition second3 (b0 b1 : Z) : bool :=
  if b0 =? 0xE0 then in_range 0xA0 0xBF b1
  else if b0 =? 0xED then in_range 0x80 0x9F b1
  else is_cont b1.
Definition second4 (b0 b1 : Z) : bool :=
  if b0 =? 0xF0 then in_range 0x90 0xBF b1
  else if b0 =? 0xF4 then in_range 0x80 0x8F b1
  else is_cont b1.

(** [str::from_utf8]. *)
Fixpoint utf8_decode (l : list Z) : option str :=
  match l with
  | [] => Some []
  | b0 :: l1 =>
      if b0 <? 0x80 then cons b0 <$> utf8_decode l1
      else
        match l1 with
        | [] => None
        | b1 :: l2 =>
            if in_range 0xC2 0xDF b0 then
              if is_cont b1 then cons ((b0 - 0xC0) * 64 + (b1 - 0x80)) <$> utf8_decode l2
              else None
            else
              match l2 with
              | [] => None
              | b2 :: l3 =>
                  if in_range 0xE0 0xEF b0 then
                    if second3 b0 b1 && is_cont b2 then
                      cons ((b0 - 0xE0) * 4096 + (b1 - 0x80) * 64 + (b2 - 0x80))
                        <$> utf8_decode l3
                    else None
                  else
                    match l3 with
                    | [] => None
                    | b3 :: l4 =>
                        if in_range 0xF0 0xF4 b0 && second4 b0 b1 && is_cont b2 && is_cont b3 then
                          cons ((b0 - 0xF0) * 262144 + (b1 - 0x80) * 4096 + (b2 - 0x80) * 64
                                + (b3 - 0x80)) <$> utf8_decode l4
                        else None
                    end
              end
        end
  end.

(** The encoding of a scalar value ([char::encode_utf8]). *)
Definition utf8_char (c : Z) : list Z :=
  if c <? 0x80 then [c]
  else if c <? 0x800 then [0xC0 + c / 64; 0x80 + c mod 64]
  else if c <? 0x10000 then [0xE0 + c / 4096; 0x80 + c / 64 mod 64; 0x80 + c mod 64]
  else [0xF0 + c / 262144; 0x80 + c / 4096 mod 64; 0x80 + c / 64 mod 64; 0x80 + c mod 64].

Definition utf8_encode (s : str) : list Z := concat (map utf8_char s).

Definition is_scalar (c : Z) : Prop := 0 ≤ c < 0xD800 ∨ 0xE000 ≤ c ≤ 0x10FFFF.

Global Instance is_scalar_dec c : Decision (is_scalar c).
Proof. unfold is_scalar. apply _. Defined.

(** ** Splitting and trimming *)

(** [char::is_whitespace]. *)
Definition is_whitespace (c : Z) : bool :=
  (c =? 32) || in_range 9 13 c || (c =? 0x85) || (c =? 0xA0) || (c =? 0x1680) ||
  in_range 0x2000 0x200A c || (c =? 0x2028) || (c =? 0x2029) || (c =? 0x202F) || (c =? 0x205F) ||
  (c =? 0x3000).

Fixpoint trim_start (s : str) : str :=
  match s with
  | [] => []
  | c :: s' => if is_whitespace c then trim_start s' else s
  end.

Definition trim (s : str) : str := rev (trim_start (rev (trim_start s))).

(** Puts a character on the first piece of a split. *)
Definition push (c : Z) (pieces : list str) : list str :=
  match pieces with
  | [] => [[c]]
  | p :: ps => (c :: p) :: ps
  end.

(** [s.split(c)]: one piece more than separators. *)
Fixpoint split (sep : Z) (s : str) : list str :=
  match s with
  | [] => [[]]
  | c :: s' => if c =? sep then [] :: split sep s' else push c (split sep s')
  end.

(** The separator CR LF: the text is scanned from the left, matches do not overlap. *)
Fixpoint split_crlf (s : str) : list str :=
  match s with
  | [] => [[]]
  | c :: s' =>
      match s' with
      | d :: s'' =>
          if (c =? 13) && (d =? 10) then [] :: split_crlf s'' else push c (split_crlf s')
      | [] => [[c]]
      end
  end.

(** [s.split_once(c)]. *)
Fixpoint split_once (sep : Z) (s : str) : option (str * str) :=
  match s with
  | [] => None
  | c :: s' =>
      if c =? sep then Some ([], s') else '(a, b) ← split_once sep s'; Some (c :: a, b)
  end.

Definition to_ascii_lowercase (s : str) : str :=
  map (λ c, if in_range 65 90 c then c + 32 else c) s.
Definition to_ascii_uppercase (s : str) : str :=
  map (λ c, if in_range 97 122 c then c - 32 else c) s.

Definition eq_ignore_ascii_case (s t : str) : bool :=
  bool_decide (to_ascii_lowercase s = to_ascii_lowercase t).

(** [s.contains(needle)] for a text pattern. *)
Fixpoint starts_with (needle s : str) : bool :=
  match needle, s with
  | [], _ => true
  | n :: needle', c :: s' => (n =? c) && starts_with needle' s'
  | _ :: _, [] => false
  end.
Fixpoint str_contains (s needle : str) : bool :=
  starts_with needle s || match s with [] => false | _ :: s' => str_contains s' needle end.

(** ** Lemmas *)

Lemma in_range_spec lo hi b : in_range lo hi b = true ↔ lo ≤ b ≤ hi.
Proof. unfold in_range. rewrite andb_true_iff, !Z.leb_le. done. Qed.

Lemma in_range_false lo hi b : in_range lo hi b = false ↔ b < lo ∨ hi < b.
Proof. unfold in_range. rewrite andb_false_iff, !Z.leb_gt. done. Qed.

Ltac byte_range :=
  repeat match goal with
  | |- context [in_range ?a ?b ?c] =>
      first [ rewrite (proj2 (in_range_spec a b c)) by (Z.to_euclidean_division_equations; lia)
            | rewrite (proj2 (in_range_false a b c)) by (Z.to_euclidean_division_equations; lia) ]
  end.

Lemma utf8_decode_char c l :
  is_scalar c → utf8_decode (utf8_char c ++ l) = cons c <$> utf8_decode l.
Proof.
  unfold is_scalar, utf8_char. intros Hc.
  destruct (Z.ltb_spec c 0x80); [simpl; by rewrite (proj2 (Z.ltb_lt _ _))|].
  destruct (Z.ltb_spec c 0x800); [|destruct (Z.ltb_spec c 0x10000)]; cbn [app utf8_decode];
    (rewrite (proj2 (Z.ltb_ge _ _)) by (Z.to_euclidean_division_equations; lia));
    unfold second3, second4, is_cont.
  - byte_range. f_equal. f_equal. Z.to_euclidean_division_equations; lia.
  - byte_range.
    destruct (Z.eqb_spec (0xE0 + c / 4096) 0xE0); [|destruct (Z.eqb_spec (0xE0 + c / 4096) 0xED)];
      byte_range; cbn [andb]; (f_equal; f_equal; Z.to_euclidean_division_equations; lia).
  - byte_range.
    destruct (Z.eqb_spec (0xF0 + c / 262144) 0xF0);
      [|destruct (Z.eqb_spec (0xF0 + c / 262144) 0xF4)];
      byte_range; cbn [andb]; (f_equal; f_equal; Z.to_euclidean_division_equations; lia).
Qed.

(** Every text survives encoding and decoding. *)
Lemma utf8_decode_encode s : Forall is_scalar s → utf8_decode (utf8_encode s) = Some s.
Proof.
  unfold utf8_encode. induction 1 as [|c s Hc _ IH]; simpl; [done|].
  by rewrite utf8_decode_char, IH.
Qed.

(** What a split does to text put together from pieces without the separator. *)

Lemma split_cons sep p rest : sep ∉ p → split sep (p ++ sep :: rest) = p :: split sep rest.
Proof.
  induction p as [|c p IH]; intros Hn; simpl; [by rewrite Z.eqb_refl|].
  apply not_elem_of_cons in Hn as [Hne Hn].
  rewrite (proj2 (Z.eqb_neq c sep)) by congruence. by rewrite IH.
Qed.

Lemma split_nil sep p : sep ∉ p → split sep p = [p].
Proof.
  induction p as [|c p IH]; intros Hn; simpl; [done|].
  apply not_elem_of_cons in Hn as [Hne Hn].
  rewrite (proj2 (Z.eqb_neq c sep)) by congruence. by rewrite IH.
Qed.

Lemma split_crlf_cons p rest : 13 ∉ p → split_crlf (p ++ 13 :: 10 :: rest) = p :: split_crlf rest.
Proof.
  induction p as [|c p IH]; intros Hn; [done|].
  apply not_elem_of_cons in Hn as [Hne Hn]. specialize (IH Hn).
  change ((c :: p) ++ 13 :: 10 :: rest) with (c :: (p ++ 13 :: 10 :: rest)).
  cbn [split_crlf]. destruct (p ++ 13 :: 10 :: rest) as [|d s'] eqn:E; [by destruct p|].
  rewrite (proj2 (Z.eqb_neq c 13)) by congruence. cbn [andb]. by rewrite IH.
Qed.

Lemma split_once_app sep p rest : sep ∉ p → split_once sep (p ++ sep :: rest) = Some (p, rest).
Proof.
  induction p as [|c p IH]; intros Hn; simpl; [by rewrite Z.eqb_refl|].
  apply not_elem_of_cons in Hn as [Hne Hn].
  rewrite (proj2 (Z.eqb_neq c sep)) by congruence. by rewrite IH.
Qed.

Lemma split_once_none sep p : sep ∉ p → split_once sep p = None.
Proof.
  induction p as [|c p IH]; intros Hn; simpl; [done|].
  apply not_elem_of_cons in Hn as [Hne Hn].
  rewrite (proj2 (Z.eqb_neq c sep)) by congruence. by rewrite IH.
Qed.

(** A text without whitespace at either end. *)
Definition tight (s : str) : Prop :=
  (∀ c, head s = Some c → is_whitespace c = false) ∧
  (∀ c, last s = Some c → is_whitespace c = false).

Definition no_whitespace (s : str) : Prop := Forall (λ c, is_whitespace c = false) s.

Lemma no_whitespace_tight s : no_whitespace s → tight s.
Proof.
  intros Hs. split; intros c Hc; pattern c; eapply (proj1 (Forall_forall _ _)); try exact Hs.
  - destruct s; simplify_eq/=. by left.
  - by apply last_Some_elem_of.
Qed.

Lemma trim_start_id s : (∀ c, head s = Some c → is_whitespace c = false) → trim_start s = s.
Proof. destruct s as [|c s]; intros Hs; simpl; [done|]. by rewrite Hs. Qed.

Lemma rev_reverse (s : str) : rev s = reverse s.
Proof. unfold reverse. apply rev_alt. Qed.

Lemma trim_tight s : tight s → trim s = s.
Proof.
  intros [Hh Hl]. unfold trim. rewrite (trim_start_id s) by done. rewrite !rev_reverse.
  rewrite trim_start_id; [apply reverse_involutive|]. by rewrite head_reverse.
Qed.

Lemma trim_space s : trim (32 :: s) = trim s.
Proof. done. Qed.

Lemma utf8_encode_app s t : utf8_encode (s ++ t) = utf8_encode s ++ utf8_encode t.
Proof. unfold utf8_encode. by rewrite map_app, concat_app. Qed.

Lemma utf8_encode_nonempty s : s ≠ [] → utf8_encode s ≠ [].
Proof. destruct s as [|c s]; [done|]. intros _. unfold utf8_encode. simpl. by unfold utf8_char; repeat case_test. Qed.

(** Encoding creates no ASCII byte that was not there. *)
Lemma utf8_encode_ascii b s :
  0 ≤ b < 0x80 → Forall is_scalar s → b ∉ s → b ∉ utf8_encode s.
Proof.
  intros Hb. unfold utf8_encode. induction 1 as [|c s Hc _ IH]; intros Hn; simpl; [done|].
  apply not_elem_of_cons in Hn as [Hne Hn]. apply not_elem_of_app. split; [|auto].
  unfold is_scalar in Hc. unfold utf8_char. repeat (case_test; propify);
    rewrite ?not_elem_of_cons; split_and!; try apply not_elem_of_nil; try done;
    Z.to_euclidean_division_equations; lia.
Qed.

(** ** Printed numbers *)

Lemma chars_cons a s : chars (String a s) = Z.of_N (Ascii.N_of_ascii a) :: chars s.
Proof. done. Qed.

Lemma chars_app s t : chars (String.append s t) = chars s ++ chars t.
Proof.
  induction s as [|a s IH]; [done|].
  change (chars (String.append (String a s) t)) with
    (Z.of_N (Ascii.N_of_ascii a) :: chars (String.append s t)). by rewrite IH.
Qed.

(** The character of a digit. *)
Definition digit_char (d : Z) : Z := if d <? 10 then 48 + d else 87 + d.

Lemma chars_digit d : 0 ≤ d < 16 → Z.of_N (Ascii.N_of_ascii (ascii_of_digit d)) = digit_char d.
Proof.
  intros Hd. unfold ascii_of_digit, digit_char.
  rewrite Ascii.N_ascii_embedding; case_test; propify; lia.
Qed.

Definition is_digit_char (c : Z) : Prop := 48 ≤ c ≤ 57 ∨ 97 ≤ c ≤ 102.

Lemma digit_char_is d : 0 ≤ d < 16 → is_digit_char (digit_char d).
Proof. unfold digit_char, is_digit_char. intros. case_test; propify; lia. Qed.

Lemma chars_digits fuel base n acc :
  0 < base ≤ 16 → Forall is_digit_char (chars acc) →
  Forall is_digit_char (chars (digits fuel base n acc)).
Proof.
  intros Hb. revert n acc. induction fuel as [|fuel IH]; intros n acc Hacc; simpl; [done|].
  assert (Forall is_digit_char (chars (String (ascii_of_digit (n mod base)) acc))) as H'.
  { rewrite chars_cons. pose proof (Z.mod_pos_bound n base).
    rewrite chars_digit by lia. constructor; [apply digit_char_is; lia|done]. }
  case_test; [done|]. by apply IH.
Qed.
