(* ===== verification/ProxyProtocol.v ===== *)
(** * PROXY protocol v2 (src/proxy_protocol.rs)

    The header parser, the trusted-proxy CIDR test, the replaying stream wrapper and
    [read_source_addr]. Bytes are integers; a stream is the list of bytes it will still deliver.
    A slice or index out of range panics in Rust; the functions that slice return [None] then, and
    [contains_total] shows it never happens for a CIDR with a legal prefix length. *)

From S2P Require Import Prelude Net.

Definition V2_SIGNATURE : list Z :=
  [0x0D; 0x0A; 0x0D; 0x0A; 0x00; 0x0D; 0x0A; 0x51; 0x55; 0x49; 0x54; 0x0A].
Definition V2_FIXED_LEN : nat := 16%nat.
Definition MAX_ADDRESS_BLOCK : Z := 1024.
Definition CMD_PROXY : Z := 0x01.
Definition CMD_LOCAL : Z := 0x00.
Definition AF_TCP4 : Z := 0x11.
Definition AF_TCP6 : Z := 0x21.

Inductive Header : Type :=
| Proxy (addr : SocketAddr)
| NoSource.

Inductive HeaderError : Type :=
| NotProxyProtocol
| Malformed.

Global Instance Header_eq_dec : EqDecision Header.
Proof. solve_decision. Defined.
Global Instance HeaderError_eq_dec : EqDecision HeaderError.
Proof. solve_decision. Defined.

(** Indexing of an array or slice already known to be long enough. *)
Definition byte_at (l : list Z) (i : nat) : Z := default 0 (l !! i).

Definition parse_fixed (fixed : list Z) : result (Z * nat) HeaderError :=
  if negb (bool_decide (take 12 fixed = V2_SIGNATURE)) then Err NotProxyProtocol
  else
    let ver_cmd := byte_at fixed 12 in
    if negb (Z.shiftr ver_cmd 4 =? 2) then Err Malformed
    else
      let cmd := Z.land ver_cmd 0x0F in
      if negb ((cmd =? CMD_PROXY) || (cmd =? CMD_LOCAL)) then Err Malformed
      else
        let len := be16 (byte_at fixed 14) (byte_at fixed 15) in
        if MAX_ADDRESS_BLOCK <? len then Err Malformed
        else Ok (ver_cmd, Z.to_nat len).

Definition parse_address_block (ver_cmd family : Z) (block : list Z)
    : result Header HeaderError :=
  if Z.land ver_cmd 0x0F =? CMD_LOCAL then Ok NoSource
  else if family =? AF_TCP4 then
    if (length block <? 12)%nat then Err Malformed
    else
      let ip := MkV4 (byte_at block 0) (byte_at block 1) (byte_at block 2) (byte_at block 3) in
      let port := be16 (byte_at block 8) (byte_at block 9) in
      Ok (Proxy (sa_new (IpV4 ip) port))
  else if family =? AF_TCP6 then
    if (length block <? 36)%nat then Err Malformed
    else
      let ip := v6_from_octets (take 16 block) in
      let port := be16 (byte_at block 32) (byte_at block 33) in
      Ok (Proxy (sa_new (IpV6 ip) port))
  else Ok NoSource.

(** ** Trusted proxies *)

Record Cidr := MkCidr { cidr_base : IpAddr; cidr_prefix_len : Z }.

Global Instance Cidr_eq_dec : EqDecision Cidr.
Proof. solve_decision. Defined.

(** [&a[..n]]: [None] is the panic of a slice out of range. *)
Definition slice_to (a : list Z) (n : nat) : option (list Z) :=
  if (n <=? length a)%nat then Some (take n a) else None.

Definition prefix_matches (a b : list Z) (prefix_len : Z) : option bool :=
  let whole_bytes := Z.to_nat (prefix_len / 8) in
  a' ← slice_to a whole_bytes;
  b' ← slice_to b whole_bytes;
  if negb (bool_decide (a' = b')) then Some false
  else
    let remaining_bits := prefix_len mod 8 in
    if remaining_bits =? 0 then Some true
    else
      let mask := Z.shiftl 0xFF (8 - remaining_bits) mod 256 in
      x ← a !! whole_bytes;
      y ← b !! whole_bytes;
      Some (Z.land x mask =? Z.land y mask).

Definition contains (c : Cidr) (ip : IpAddr) : option bool :=
  match cidr_base c, to_canonical ip with
  | IpV4 base, IpV4 ip => prefix_matches (v4_octets base) (v4_octets ip) (cidr_prefix_len c)
  | IpV6 base, IpV6 ip => prefix_matches (v6_octets base) (v6_octets ip) (cidr_prefix_len c)
  | _, _ => Some false
  end.

(** [TrustedProxies(Vec<Cidr>)]. *)
Definition TrustedProxies : Type := list Cidr.

Definition trusted_default : TrustedProxies := [].

(** [iter().any(..)] stops at the first block that contains the address. *)
Fixpoint trusts (t : TrustedProxies) (ip : IpAddr) : option bool :=
  match t with
  | [] => Some false
  | c :: t' =>
      match contains c ip with
      | None => None
      | Some true => Some true
      | Some false => trusts t' ip
      end
  end.

Definition trusted_is_empty (t : TrustedProxies) : bool :=
  match t with [] => true | _ => false end.

(** What [Cidr::parse] guarantees: the prefix length fits the family. *)
Definition wf_cidr (c : Cidr) : Prop :=
  0 ≤ cidr_prefix_len c ≤ (if is_ipv4 (cidr_base c) then 32 else 128) ∧ wf_ip (cidr_base c).

Global Instance wf_cidr_dec c : Decision (wf_cidr c).
Proof. unfold wf_cidr; destruct (is_ipv4 _); apply _. Defined.

(** ** The replaying stream *)

Record PrefixedStream := MkPrefixed { ps_prefix : list Z; ps_consumed : nat; ps_inner : list Z }.

Definition prefixed_new (prefix inner : list Z) : PrefixedStream := MkPrefixed prefix 0 inner.

(** [poll_read] into a buffer with [cap] bytes free; [avail] is how many bytes the inner stream is
    ready to deliver. Returns the bytes put into the buffer. *)
Definition poll_read (s : PrefixedStream) (cap avail : nat) : list Z * PrefixedStream :=
  let pending := drop (ps_consumed s) (ps_prefix s) in
  match pending with
  | [] =>
      let n := Nat.min cap avail in
      (take n (ps_inner s), MkPrefixed (ps_prefix s) (ps_consumed s) (drop n (ps_inner s)))
  | _ =>
      let n := Nat.min (length pending) cap in
      (take n pending, MkPrefixed (ps_prefix s) (ps_consumed s + n)%nat (ps_inner s))
  end.

(** Everything the stream will still deliver. *)
Definition stream_content (s : PrefixedStream) : list Z :=
  drop (ps_consumed s) (ps_prefix s) ++ ps_inner s.

(** A sequence of reads, each with its buffer space and the inner stream's readiness. *)
Fixpoint read_all (s : PrefixedStream) (reads : list (nat * nat)) : list Z * PrefixedStream :=
  match reads with
  | [] => ([], s)
  | (cap, avail) :: reads' =>
      let '(bs, s') := poll_read s cap avail in
      let '(rest, s'') := read_all s' reads' in
      (bs ++ rest, s'')
  end.

(** ** Reading the source address *)

Inductive IoError : Type := UnexpectedEof.

(** [AsyncReadExt::read_exact]. *)
Definition read_exact (stream : list Z) (n : nat) : result (list Z * list Z) IoError :=
  if (n <=? length stream)%nat then Ok (take n stream, drop n stream) else Err UnexpectedEof.

Definition read_source_addr (stream : list Z)
    : result (option SocketAddr * PrefixedStream) IoError :=
  x <-? read_exact stream V2_FIXED_LEN;
  let '(fixed, stream) := x in
  match parse_fixed fixed with
  | Err _ => Ok (None, prefixed_new fixed stream)
  | Ok (ver_cmd, block_len) =>
      y <-? read_exact stream block_len;
      let '(block, stream) := y in
      let source :=
        match parse_address_block ver_cmd (byte_at fixed 13) block with
        | Ok (Proxy addr) => Some addr
        | Ok NoSource | Err _ => None
        end in
      Ok (source, prefixed_new [] stream)
  end.

(** ** The prefix test compares bits *)

(** Most significant bit first, as in an address. *)
Definition byte_bits (b : Z) : list bool := map (Z.testbit b) [7; 6; 5; 4; 3; 2; 1; 0].
Definition addr_bits (l : list Z) : list bool := concat (map byte_bits l).

Lemma length_addr_bits l : length (addr_bits l) = (8 * length l)%nat.
Proof.
  unfold addr_bits. induction l as [|x l IH]; [done|].
  cbn [map concat]. rewrite length_app, IH. simpl. lia.
Qed.

Lemma addr_bits_app l k : addr_bits (l ++ k) = addr_bits l ++ addr_bits k.
Proof. unfold addr_bits. by rewrite map_app, concat_app. Qed.

Lemma u8_testbit_high x i : is_u8 x → 8 ≤ i → Z.testbit x i = false.
Proof.
  unfold is_u8, u8_max. intros [? ?] ?.
  rewrite <- (Z.mod_small x (2 ^ 8)) by lia. apply Z.mod_pow2_bits_high. lia.
Qed.

(** Masked equality is equality of the bits the mask selects. *)
Lemma land_eq_bits x y m : is_u8 m →
  Z.land x m = Z.land y m ↔
  ∀ i, 0 ≤ i < 8 → Z.testbit m i = true → Z.testbit x i = Z.testbit y i.
Proof.
  intros Hm. split.
  - intros E i Hi Hbit. apply (f_equal (λ z, Z.testbit z i)) in E.
    rewrite !Z.land_spec, Hbit, !andb_true_r in E. done.
  - intros E. apply Z.bits_inj'. intros i Hi. rewrite !Z.land_spec.
    destruct (decide (i < 8)).
    + destruct (Z.testbit m i) eqn:Hb; [|by rewrite !andb_false_r].
      by rewrite E by (done || lia).
    + by rewrite (u8_testbit_high m) by (done || lia); rewrite !andb_false_r.
Qed.

Lemma byte_bits_inj x y : is_u8 x → is_u8 y → byte_bits x = byte_bits y → x = y.
Proof.
  intros Hx Hy E. injection E as E7 E6 E5 E4 E3 E2 E1 E0.
  apply Z.bits_inj'. intros i Hi.
  destruct (decide (i < 8)); [|by rewrite !u8_testbit_high by (done || lia)].
  assert (i = 0 ∨ i = 1 ∨ i = 2 ∨ i = 3 ∨ i = 4 ∨ i = 5 ∨ i = 6 ∨ i = 7) as Hi' by lia.
  by destruct_or! Hi'; subst.
Qed.

Lemma addr_bits_inj l k :
  Forall is_u8 l → Forall is_u8 k → length l = length k → addr_bits l = addr_bits k → l = k.
Proof.
  intros Hl. revert k. induction Hl as [|x l Hx Hl IH]; intros k Hk Hlen E.
  - by destruct k.
  - destruct Hk as [|y k Hy Hk]; [done|].
    assert (byte_bits x ++ addr_bits l = byte_bits y ++ addr_bits k) as E' by exact E.
    apply app_inj_1 in E' as [Eb El]; [|done].
    f_equal; [by apply byte_bits_inj|]. apply IH; [done|by injection Hlen|done].
Qed.

Lemma take_addr_bits l w r :
  (w ≤ length l)%nat →
  take (8 * w + r) (addr_bits l) = addr_bits (take w l) ++ take r (addr_bits (drop w l)).
Proof.
  intros Hw. rewrite <- (take_drop w l) at 1. rewrite addr_bits_app, take_app.
  rewrite length_addr_bits, length_take, Nat.min_l by lia.
  rewrite (take_ge (addr_bits (take w l))).
  - do 2 f_equal. lia.
  - rewrite length_addr_bits, length_take. lia.
Qed.

Lemma mask_bits x y r :
  0 < r < 8 →
  let mask := Z.shiftl 0xFF (8 - r) mod 256 in
  Z.land x mask = Z.land y mask ↔
  take (Z.to_nat r) (byte_bits x) = take (Z.to_nat r) (byte_bits y).
Proof.
  intros Hr mask. rewrite land_eq_bits.
  2: { unfold mask, is_u8, u8_max. pose proof (Z.mod_pos_bound (Z.shiftl 0xFF (8 - r)) 256). lia. }
  assert (r = 1 ∨ r = 2 ∨ r = 3 ∨ r = 4 ∨ r = 5 ∨ r = 6 ∨ r = 7) as Hr' by lia.
  destruct_or! Hr'; subst r; subst mask; cbn -[Z.testbit]; (split;
  [ intros E; repeat (rewrite E; [|lia|reflexivity]); reflexivity
  | intros E i Hi Hm; simplify_eq;
    assert (i = 0 ∨ i = 1 ∨ i = 2 ∨ i = 3 ∨ i = 4 ∨ i = 5 ∨ i = 6 ∨ i = 7) as Hi' by lia;
    destruct_or! Hi'; subst i; first [done | discriminate Hm] ]).
Qed.

(** The first [8 * w + r] bits agree when the first [w] bytes do and the top [r] bits of the next
    byte do. *)
Lemma take_bits_split a b w r x y :
  Forall is_u8 a → Forall is_u8 b → (r ≤ 8)%nat → a !! w = Some x → b !! w = Some y →
  take (8 * w + r) (addr_bits a) = take (8 * w + r) (addr_bits b) ↔
  take w a = take w b ∧ take r (byte_bits x) = take r (byte_bits y).
Proof.
  intros Ha Hb Hr Hx Hy.
  pose proof (lookup_lt_Some _ _ _ Hx) as Hla. pose proof (lookup_lt_Some _ _ _ Hy) as Hlb.
  rewrite !take_addr_bits by lia.
  rewrite (drop_S a x w), (drop_S b y w) by done.
  assert (∀ z l, take r (addr_bits (z :: l)) = take r (byte_bits z)) as Htake.
  { intros z l. change (addr_bits (z :: l)) with (byte_bits z ++ addr_bits l).
    rewrite take_app_le; [done|]. simpl. lia. }
  rewrite !Htake. split; [|by intros [-> ->]].
  intros [E ?]%app_inj_1.
  - split; [|done]. apply addr_bits_inj in E; auto using Forall_take.
    rewrite !length_take. lia.
  - rewrite !length_addr_bits, !length_take. lia.
Qed.

Lemma take_bits_whole a b w :
  Forall is_u8 a → Forall is_u8 b → (w ≤ length a)%nat → length a = length b →
  take (8 * w) (addr_bits a) = take (8 * w) (addr_bits b) ↔ take w a = take w b.
Proof.
  intros Ha Hb Hw Hlen. rewrite <- (Nat.add_0_r (8 * w)).
  rewrite !take_addr_bits, !take_0, !app_nil_r by lia.
  split; [|by intros ->]. intros E.
  apply addr_bits_inj in E; auto using Forall_take. rewrite !length_take. lia.
Qed.

(** [prefix_matches] agrees with its reference definition: equality of the first [prefix_len]
    bits. In particular it never indexes out of range. *)
Lemma prefix_matches_bits a b n :
  Forall is_u8 a → Forall is_u8 b → length a = length b → 0 ≤ n ≤ 8 * Z.of_nat (length a) →
  prefix_matches a b n =
    Some (bool_decide (take (Z.to_nat n) (addr_bits a) = take (Z.to_nat n) (addr_bits b))).
Proof.
  intros Ha Hb Hlen Hn.
  pose proof (Z.div_mod n 8 ltac:(lia)) as Hdm. pose proof (Z.mod_pos_bound n 8 ltac:(lia)) as Hmod.
  unfold prefix_matches, slice_to.
  set (w := Z.to_nat (n / 8)) in *.
  assert (0 ≤ n / 8) by (apply Z.div_pos; lia).
  assert (w ≤ length a)%nat by lia.
  rewrite <- Hlen, (proj2 (Nat.leb_le w (length a))) by done. simpl.
  destruct (n mod 8 =? 0) eqn:Hr; propify.
  - replace (Z.to_nat n) with (8 * w)%nat by lia.
    case_bool_decide as E; cbv [negb]; f_equal; symmetry.
    + apply bool_decide_eq_true. by apply take_bits_whole.
    + apply bool_decide_eq_false. by rewrite take_bits_whole.
  - destruct (lookup_lt_is_Some_2 a w) as [x Hx]; [lia|].
    destruct (lookup_lt_is_Some_2 b w) as [y Hy]; [lia|].
    replace (Z.to_nat n) with (8 * w + Z.to_nat (n mod 8))%nat by lia.
    rewrite Hx, Hy. simpl mbind.
    case_bool_decide as E; cbv [negb]; f_equal; symmetry.
    + destruct (_ =? _) eqn:M; propify.
      * apply bool_decide_eq_true. eapply take_bits_split; [done..|lia|done|done|].
        split; [done|]. by apply mask_bits; [lia|].
      * apply bool_decide_eq_false. rewrite take_bits_split by (done || lia).
        intros [_ M']. apply mask_bits in M'; [done|lia].
    + apply bool_decide_eq_false. rewrite take_bits_split by (done || lia). tauto.
Qed.

Definition ip_octets (i : IpAddr) : list Z :=
  match i with IpV4 a => v4_octets a | IpV6 a => v6_octets a end.

Lemma wf_ip_octets i : wf_ip i → Forall is_u8 (ip_octets i).
Proof. destruct i; simpl; [done|apply Forall_v6_octets]. Qed.

(** Reference definition of membership in a CIDR block: same family after canonicalisation, and
    the first [prefix_len] bits agree. *)
Definition in_block (c : Cidr) (ip : IpAddr) : Prop :=
  is_ipv4 (cidr_base c) = is_ipv4 (to_canonical ip) ∧
  take (Z.to_nat (cidr_prefix_len c)) (addr_bits (ip_octets (cidr_base c))) =
  take (Z.to_nat (cidr_prefix_len c)) (addr_bits (ip_octets (to_canonical ip))).

Global Instance in_block_dec c ip : Decision (in_block c ip).
Proof. unfold in_block; apply _. Defined.

(** A test with a known outcome is the decision of the proposition it reflects. *)
Lemma reflect_Some (r : option bool) (P : Prop) `{Decision P} :
  (∃ b, r = Some b ∧ (b = true ↔ P)) → r = Some (bool_decide P).
Proof.
  intros (b & -> & Hb). f_equal. symmetry. destruct b.
  - by apply bool_decide_eq_true, Hb.
  - apply bool_decide_eq_false. rewrite <- Hb. done.
Qed.

Lemma contains_in_block c ip :
  wf_cidr c → wf_ip ip → contains c ip = Some (bool_decide (in_block c ip)).
Proof.
  intros [Hn Hwf] Hip%to_canonical_wf. apply reflect_Some. unfold contains, in_block.
  apply wf_ip_octets in Hwf, Hip.
  destruct (cidr_base c) as [b|b], (to_canonical ip) as [i|i]; simpl in *.
  2,3: exists false; split; [done|]; split; [done|]; by intros [? _].
  all: rewrite prefix_matches_bits by (done || (rewrite ?length_v6_octets; simpl; lia)).
  all: eexists; split; [done|]; rewrite bool_decide_eq_true; tauto.
Qed.

Lemma trusts_spec_aux t ip :
  Forall wf_cidr t → wf_ip ip →
  trusts t ip = Some (bool_decide (Exists (λ c, in_block c ip) t)).
Proof.
  induction 1 as [|c t Hc Ht IH]; intros Hip; simpl; [done|].
  rewrite contains_in_block by done. apply reflect_Some.
  destruct (bool_decide (in_block c ip)) eqn:E; propify.
  - exists true. rewrite Exists_cons. tauto.
  - rewrite IH by done. eexists. split; [done|].
    rewrite bool_decide_eq_true, Exists_cons. tauto.
Qed.

(** ** The wrapper replays its prefix *)

Lemma poll_read_content s cap avail :
  let '(bs, s') := poll_read s cap avail in
  bs ++ stream_content s' = stream_content s.
Proof.
  unfold poll_read, stream_content.
  destruct (drop (ps_consumed s) (ps_prefix s)) as [|b l] eqn:E.
  - cbn [ps_prefix ps_consumed ps_inner]. rewrite E. apply take_drop.
  - cbn [ps_prefix ps_consumed ps_inner]. rewrite <- drop_drop, E.
    rewrite app_assoc. by rewrite take_drop.
Qed.

Lemma read_all_content reads s :
  let '(bs, s') := read_all s reads in
  bs ++ stream_content s' = stream_content s.
Proof.
  revert s. induction reads as [|[cap avail] reads IH]; intros s; simpl; [done|].
  pose proof (poll_read_content s cap avail) as Hp.
  destruct (poll_read s cap avail) as [bs s1]. specialize (IH s1).
  destruct (read_all s1 reads) as [rest s2]. by rewrite <- app_assoc, IH.
Qed.

(** A read with buffer space delivers something unless the stream is exhausted or the inner stream
    is not ready. *)
Lemma poll_read_progress s cap avail :
  (0 < cap)%nat → (0 < avail)%nat → stream_content s ≠ [] → (poll_read s cap avail).1 ≠ [].
Proof.
  unfold poll_read, stream_content. intros Hc Ha Hne E.
  destruct (drop (ps_consumed s) (ps_prefix s)) as [|b l]; simpl in *.
  - apply (f_equal length) in E. rewrite length_take in E. simpl in E.
    destruct (ps_inner s); simpl in *; [done|lia].
  - destruct cap; [lia|done].
Qed.

(** ** Encoding a header *)

(** The v2 header a proxy writes for a TCP connection from [src] to [dst]; the two addresses are of
    one family. [tlvs] are the optional trailing vectors. *)
Definition be16_bytes (n : Z) : list Z := [be_hi n; be_lo n].

Definition encode_v2 (src : IpAddr) (sport : Z) (dst : IpAddr) (dport : Z) (tlvs : list Z)
    : list Z :=
  let block :=
    ip_octets src ++ ip_octets dst ++ be16_bytes sport ++ be16_bytes dport ++ tlvs in
  V2_SIGNATURE ++ [0x21; if is_ipv4 src then AF_TCP4 else AF_TCP6]
    ++ be16_bytes (Z.of_nat (length block)) ++ block.

Lemma parse_fixed_encoded fam n :
  0 ≤ n ≤ MAX_ADDRESS_BLOCK →
  parse_fixed (V2_SIGNATURE ++ [0x21; fam] ++ be16_bytes n) = Ok (0x21, Z.to_nat n).
Proof.
  intros Hn. unfold parse_fixed.
  cbn -[be_hi be_lo be16 MAX_ADDRESS_BLOCK Z.ltb]. rewrite be16_hi_lo.
  by rewrite (proj2 (Z.ltb_ge _ _)) by lia.
Qed.

Lemma read_exact_app l k : read_exact (l ++ k) (length l) = Ok (l, k).
Proof.
  unfold read_exact. rewrite length_app.
  rewrite (proj2 (Nat.leb_le _ _)) by lia.
  by rewrite take_app_length, drop_app_length.
Qed.

Lemma parse_address_block_encoded src sport dst dport tlvs :
  is_ipv4 src = is_ipv4 dst →
  parse_address_block 0x21 (if is_ipv4 src then AF_TCP4 else AF_TCP6)
    (ip_octets src ++ ip_octets dst ++ be16_bytes sport ++ be16_bytes dport ++ tlvs) =
  Ok (Proxy (sa_new src sport)).
Proof.
  intros Hfam. unfold parse_address_block.
  destruct src as [s|s], dst as [d|d]; try done; clear Hfam.
  - cbn -[be_hi be_lo be16]. rewrite be16_hi_lo. by destruct s.
  - cbn [is_ipv4 ip_octets]. change (AF_TCP6 =? AF_TCP4) with false.
    change (Z.land 33 15 =? CMD_LOCAL) with false. cbv iota.
    rewrite !length_app, !length_v6_octets. cbn [Nat.add Nat.ltb Nat.leb be16_bytes length].
    rewrite <- (length_v6_octets s) at 1. rewrite take_app_length, v6_from_octets_octets.
    cbn -[be_hi be_lo be16]. by rewrite be16_hi_lo.
Qed.

Lemma read_source_addr_encoded src sport dst dport tlvs payload :
  is_ipv4 src = is_ipv4 dst → (length tlvs ≤ 900)%nat →
  read_source_addr (encode_v2 src sport dst dport tlvs ++ payload) =
    Ok (Some (sa_new src sport), prefixed_new [] payload).
Proof.
  intros Hfam Htlv. unfold encode_v2.
  set (block := ip_octets src ++ _).
  assert (length block ≤ 1024)%nat as Hblock.
  { unfold block. rewrite !length_app.
    destruct src, dst; cbn [ip_octets]; rewrite ?length_v6_octets; simpl; lia. }
  set (fam := if is_ipv4 src then _ else _).
  set (fixed := V2_SIGNATURE ++ [0x21; fam] ++ be16_bytes (Z.of_nat (length block))).
  replace ((_ ++ _ ++ _ ++ block) ++ payload) with (fixed ++ block ++ payload).
  2: { unfold fixed. by rewrite <- !app_assoc. }
  unfold read_source_addr. change V2_FIXED_LEN with (length fixed).
  rewrite read_exact_app. cbn [result_bind].
  unfold fixed at 1. rewrite parse_fixed_encoded by (unfold MAX_ADDRESS_BLOCK; lia).
  rewrite Nat2Z.id, read_exact_app. cbn [result_bind].
  change (byte_at fixed 13) with fam.
  unfold block, fam. by rewrite parse_address_block_encoded.
Qed.

Lemma read_source_addr_split stream src ps :
  read_source_addr stream = Ok (src, ps) →
  (∃ e, parse_fixed (take 16 stream) = Err e ∧ src = None ∧ stream_content ps = stream) ∨
  (∃ ver_cmd n, parse_fixed (take 16 stream) = Ok (ver_cmd, n) ∧
     stream_content ps = drop (16 + n) stream ∧ (16 + n ≤ length stream)%nat).
Proof.
  unfold read_source_addr, read_exact, V2_FIXED_LEN.
  destruct (16 <=? length stream)%nat eqn:Hlen; cbn [result_bind]; [|done].
  apply Nat.leb_le in Hlen.
  destruct (parse_fixed (take 16 stream)) as [[vc n]|e].
  - destruct (n <=? _)%nat eqn:Hn; cbn [result_bind]; intros; simplify_eq.
    apply Nat.leb_le in Hn. rewrite length_drop in Hn. right. exists vc, n.
    split; [done|]. split; [|lia]. unfold stream_content, prefixed_new; simpl.
    by rewrite drop_drop.
  - intros; simplify_eq. left. exists e. split; [done|]. split; [done|].
    unfold stream_content, prefixed_new. cbn [ps_consumed ps_prefix ps_inner].
    by rewrite drop_0, take_drop.
Qed.

Lemma parse_fixed_bound fixed ver_cmd n :
  parse_fixed fixed = Ok (ver_cmd, n) → (n ≤ 1024)%nat.
Proof.
  unfold parse_fixed, MAX_ADDRESS_BLOCK. repeat case_test; try done.
  intros; simplify_eq; propify. lia.
Qed.

(** ** Properties *)

(** The trusted-proxy test never indexes out of range and is exactly membership in one of the
    configured blocks: some CIDR of the list is of the address's canonical family and agrees with
    it on the first [prefix_len] bits. *)
Theorem trusts_spec t ip :
  Forall wf_cidr t → wf_ip ip →
  trusts t ip = Some (bool_decide (Exists (λ c, in_block c ip) t)).
Proof. apply trusts_spec_aux. Qed.

Lemma trusts_spec_witness :
  trusts [MkCidr (IpV4 (MkV4 10 0 0 0)) 12] (IpV6 (to_ipv6_mapped (MkV4 10 15 1 2))) = Some true ∧
  trusts [MkCidr (IpV4 (MkV4 10 0 0 0)) 12] (IpV4 (MkV4 10 16 1 2)) = Some false.
Proof.
  split.
  - etransitivity; [apply (trusts_spec _ _)|reflexivity].
    + apply (bool_decide_unpack _). vm_compute. exact I.
    + apply (bool_decide_unpack _). vm_compute. exact I.
  - reflexivity.
Defined.

(** C32: a v2 header a proxy writes for a TCP client of either family, with up to 900 bytes of
    trailing TLVs, decodes to exactly that client's address and port, and the stream handed onward
    is exactly the payload. *)
Theorem read_source_addr_roundtrip src sport dst dport tlvs payload :
  is_ipv4 src = is_ipv4 dst → (length tlvs ≤ 900)%nat →
  read_source_addr (encode_v2 src sport dst dport tlvs ++ payload) =
    Ok (Some (sa_new src sport), prefixed_new [] payload).
Proof. apply read_source_addr_encoded. Qed.

Lemma read_source_addr_roundtrip_witness :
  read_source_addr
    (encode_v2 (IpV4 (MkV4 203 0 113 9)) 51234 (IpV4 (MkV4 10 0 0 1)) 443 [3; 0; 0] ++ [22; 3; 1]) =
    Ok (Some (SaV4 (MkV4 203 0 113 9) 51234), prefixed_new [] [22; 3; 1]).
Proof. apply (read_source_addr_roundtrip (IpV4 (MkV4 203 0 113 9))); [reflexivity|simpl; lia]. Defined.

(** C31: no payload byte is lost, duplicated or reordered. Whatever sequence of reads follows, what
    they deliver plus what is still to come is either the whole original stream (the first bytes
    were not a usable header, and no source is claimed) or the original stream less exactly the
    declared header, whose length is at most 16 + 1024 bytes. *)
Theorem read_source_addr_payload stream src ps reads :
  read_source_addr stream = Ok (src, ps) →
  let '(out, ps') := read_all ps reads in
  ∃ header, stream = header ++ out ++ stream_content ps' ∧
    ((header = [] ∧ src = None ∧ ∃ e, parse_fixed (take 16 stream) = Err e) ∨
     (∃ ver_cmd n, parse_fixed (take 16 stream) = Ok (ver_cmd, n) ∧
        length header = (16 + n)%nat ∧ (n ≤ 1024)%nat)).
Proof.
  intros Hread. pose proof (read_all_content reads ps) as Hc.
  destruct (read_all ps reads) as [out ps'].
  destruct (read_source_addr_split _ _ _ Hread)
    as [(e & He & -> & Hs)|(vc & n & Hok & Hs & Hlen)].
  - exists []. rewrite Hc, Hs. simpl. eauto 10.
  - exists (take (16 + n) stream). rewrite Hc, Hs, take_drop, length_take.
    split; [done|]. right. exists vc, n. split; [done|].
    split; [lia|]. by eapply parse_fixed_bound.
Qed.

Lemma read_source_addr_payload_witness :
  ∃ header, replicate 20 22 = header ++ replicate 9 22 ++ replicate 11 22 ∧ header = [].
Proof.
  destruct (read_source_addr_payload (replicate 20 22) None
    (prefixed_new (replicate 16 22) (replicate 4 22)) [(9, 5)%nat] eq_refl)
    as (header & Heq & _).
  exists header. split; [exact Heq|]. destruct header; [reflexivity|].
  apply (f_equal length) in Heq. simpl in Heq. rewrite length_app in Heq. simpl in Heq. lia.
Defined.
