(* ===== verification/NetText.v ===== *)
(** * Addresses and CIDR lists as text

    The parser of [std::net] for IP addresses and the parsers of the trusted-proxy list
    (src/src/proxy_protocol.rs: [Cidr::parse], [TrustedProxies::parse]). A parser of a prefix
    returns the value and the rest of the text. *)

From S2P Require Import Prelude Net Text ProxyProtocol.

(** ** [std::net] *)

(** [char::to_digit]. *)
Definition to_digit (radix c : Z) : option Z :=
  let d :=
    if in_range 48 57 c then c - 48
    else if in_range 97 122 c then c - 87
    else if in_range 65 90 c then c - 55
    else radix in
  if d <? radix then Some d else None.

(** The digit loop of [Parser::read_number]: value, number of digits and rest; [None] when the value
    exceeds [limit] (the type's maximum) or there are more than [max_digits] digits. *)
Fixpoint read_digits (radix limit max_digits : Z) (s : str) (acc count : Z)
    : option (Z * Z * str) :=
  match s with
  | [] => Some (acc, count, [])
  | c :: s' =>
      match to_digit radix c with
      | None => Some (acc, count, s)
      | Some d =>
          let acc := acc * radix + d in
          if limit <? acc then None
          else if max_digits <? count + 1 then None
          else read_digits radix limit max_digits s' acc (count + 1)
      end
  end.

Definition read_number (radix limit max_digits : Z) (allow_zero_prefix : bool) (s : str)
    : option (Z * str) :=
  let has_leading_zero := bool_decide (head s = Some 48) in
  '(acc, count, rest) ← read_digits radix limit max_digits s 0 0;
  if count =? 0 then None
  else if negb allow_zero_prefix && has_leading_zero && (1 <? count) then None
  else Some (acc, rest).

(** [Parser::read_separator]: the separator is expected before every element but the first. *)
Definition read_separator {A} (sep : Z) (i : nat) (inner : str → option (A * str)) (s : str)
    : option (A * str) :=
  match i with
  | O => inner s
  | S _ => match s with c :: s' => if c =? sep then inner s' else None | [] => None end
  end.

Definition read_octet : str → option (Z * str) := read_number 10 255 3 false.

Definition read_ipv4 (s : str) : option (Ipv4Addr * str) :=
  '(a, s) ← read_separator 46 0 read_octet s;
  '(b, s) ← read_separator 46 1 read_octet s;
  '(c, s) ← read_separator 46 2 read_octet s;
  '(d, s) ← read_separator 46 3 read_octet s;
  Some (MkV4 a b c d, s).

Definition read_group : str → option (Z * str) := read_number 16 65535 4 true.

(** [read_groups] on [limit] groups, from index [i] on ([fuel] is [limit - i]): the groups read,
    whether they end in an IPv4 address, and the rest. An IPv4 address stands for two groups and is
    tried first where two groups are left. *)
Fixpoint read_groups (fuel i limit : nat) (s : str) : list Z * bool * str :=
  match fuel with
  | O => ([], false, s)
  | S fuel' =>
      let ipv4 := if (i <? limit - 1)%nat then read_separator 58 i read_ipv4 s else None in
      match ipv4 with
      | Some (a, rest) => ([be16 (v4_a a) (v4_b a); be16 (v4_c a) (v4_d a)], true, rest)
      | None =>
          match read_separator 58 i read_group s with
          | Some (g, rest) =>
              let '(gs, v4, rest) := read_groups fuel' (S i) limit rest in (g :: gs, v4, rest)
          | None => ([], false, s)
          end
      end
  end.

(** Eight groups as an address. *)
Definition v6_from_segments (l : list Z) : Ipv6Addr :=
  let g i := default 0 (l !! i) in
  MkV6 (g 0%nat) (g 1%nat) (g 2%nat) (g 3%nat) (g 4%nat) (g 5%nat) (g 6%nat) (g 7%nat).

Definition read_ipv6 (s : str) : option (Ipv6Addr * str) :=
  let '(head, head_ipv4, s) := read_groups 8 0 8 s in
  if (length head =? 8)%nat then Some (v6_from_segments head, s)
  else if head_ipv4 then None
  else
    match s with
    | c :: d :: s =>
        if (c =? 58) && (d =? 58) then
          let limit := (8 - (length head + 1))%nat in
          let '(tail, _, s) := read_groups limit 0 limit s in
          Some (v6_from_segments (head ++ replicate (8 - length head - length tail) 0 ++ tail), s)
        else None
    | _ => None
    end.

Definition read_ip (s : str) : option (IpAddr * str) :=
  match read_ipv4 s with
  | Some (a, s) => Some (IpV4 a, s)
  | None => '(a, s) ← read_ipv6 s; Some (IpV6 a, s)
  end.

(** [str::parse::<IpAddr>]: the whole text. *)
Definition parse_ip (s : str) : option IpAddr :=
  match read_ip s with Some (ip, []) => Some ip | _ => None end.

(** [str::parse] for an unsigned type of maximum [limit]: one or more decimal digits, with an
    optional plus sign. *)
Fixpoint uint_digits (limit acc : Z) (s : str) : option Z :=
  match s with
  | [] => Some acc
  | c :: s' =>
      d ← to_digit 10 c;
      if limit <? acc * 10 + d then None else uint_digits limit (acc * 10 + d) s'
  end.

Definition parse_uint (limit : Z) (s : str) : option Z :=
  match s with
  | [] => None
  | c :: s' =>
      if c =? 43 then match s' with [] => None | _ => uint_digits limit 0 s' end
      else uint_digits limit 0 s
  end.

Definition parse_u8 : str → option Z := parse_uint u8_max.

(** ** CIDR blocks *)

Definition cidr_parse (s : str) : result Cidr str :=
  let '(addr_part, prefix_part) :=
    match split_once 47 s with Some (a, p) => (a, Some p) | None => (s, None) end in
  match parse_ip (trim addr_part) with
  | None => Err (chars "not an IP address: " ++ addr_part)
  | Some base =>
      let max := if is_ipv4 base then 32 else 128 in
      prefix_len <-?
        match prefix_part with
        | None => Ok max
        | Some p =>
            match parse_u8 (trim p) with
            | Some n => Ok n
            | None => Err (chars "not a prefix length: " ++ p)
            end
        end;
      if max <? prefix_len then
        Err (chars "prefix /" ++ chars (dec_string prefix_len) ++ chars " exceeds /" ++
             chars (dec_string max) ++ chars " for " ++ chars (ip_to_string base))
      else Ok (MkCidr base prefix_len)
  end.

(** [collect::<Result<Vec<_>, _>>]: stops at the first error. *)
Fixpoint collect {A E} (l : list (result A E)) : result (list A) E :=
  match l with
  | [] => Ok []
  | r :: l' => x <-? r; xs <-? collect l'; Ok (x :: xs)
  end.

(** The entries of a comma-separated list, blank ones left out. *)
Definition list_entries (l : str) : list str :=
  filter (λ e, e ≠ []) (map trim (split 44 l)).

(** [TrustedProxies::parse]. *)
Definition trusted_parse (l : str) : result TrustedProxies str :=
  collect (map cidr_parse (list_entries l)).

(** ** What the parsers accept is well-formed *)

Lemma to_digit_Some radix c d : 0 < radix → to_digit radix c = Some d → 0 ≤ d < radix.
Proof.
  unfold to_digit. intros Hr. destruct (in_range 48 57 c) eqn:E1;
    [|destruct (in_range 97 122 c) eqn:E2; [|destruct (in_range 65 90 c) eqn:E3]];
    rewrite ?in_range_spec in *; case_test; intros ?; simplify_eq; propify; lia.
Qed.

Lemma read_digits_bound radix limit maxd s acc count v n rest :
  0 < radix → 0 ≤ acc ≤ limit →
  read_digits radix limit maxd s acc count = Some (v, n, rest) → 0 ≤ v ≤ limit.
Proof.
  intros Hr. revert acc count. induction s as [|c s IH]; intros acc count Ha; simpl; [by intros [= <- _ _]|].
  destruct (to_digit radix c) as [d|] eqn:Ed; [|by intros [= <- _ _]].
  apply to_digit_Some in Ed; [|done]. repeat (case_test; [done|]). propify. apply IH. nia.
Qed.

Lemma read_number_bound radix limit maxd az s v rest :
  0 < radix → 0 ≤ limit → read_number radix limit maxd az s = Some (v, rest) → 0 ≤ v ≤ limit.
Proof.
  intros Hr Hl. unfold read_number.
  destruct (read_digits radix limit maxd s 0 0) as [[[acc n] r]|] eqn:E; simpl; [|done].
  repeat case_test; intros ?; simplify_eq. eapply read_digits_bound; [done| |exact E]. lia.
Qed.

Lemma read_separator_Some {A} sep i (inner : str → option (A * str)) s r :
  read_separator sep i inner s = Some r → ∃ s', inner s' = Some r.
Proof. destruct i, s; simpl; intros; repeat case_match; simplify_eq; eauto. Qed.

Lemma read_octet_u8 i s v rest : read_separator 46 i read_octet s = Some (v, rest) → is_u8 v.
Proof. intros (s' & Hs)%read_separator_Some. by eapply read_number_bound in Hs. Qed.

Lemma read_ipv4_wf s a rest : read_ipv4 s = Some (a, rest) → wf_v4 a.
Proof.
  unfold read_ipv4. intros ([v1 s1] & E1 & Hs)%bind_Some.
  apply bind_Some in Hs as ([v2 s2] & E2 & Hs). apply bind_Some in Hs as ([v3 s3] & E3 & Hs).
  apply bind_Some in Hs as ([v4 s4] & E4 & [= <- _]).
  repeat constructor; by eapply read_octet_u8.
Qed.

Lemma be16_u16 a b : is_u8 a → is_u8 b → is_u16 (be16 a b).
Proof. unfold is_u8, is_u16, u8_max, u16_max, be16. lia. Qed.

Lemma read_groups_wf fuel i limit s gs v4 rest :
  read_groups fuel i limit s = (gs, v4, rest) → Forall is_u16 gs.
Proof.
  revert i s gs v4 rest. induction fuel as [|fuel IH]; intros i s gs v4 rest; simpl.
  { by intros [= <- _ _]. }
  destruct (if (i <? limit - 1)%nat then _ else None) as [[a r]|] eqn:E4.
  { case_match; [|done]. apply read_separator_Some in E4 as (s' & Ha%read_ipv4_wf).
    unfold wf_v4, v4_octets in Ha. rewrite !Forall_cons in Ha.
    destruct Ha as (? & ? & ? & ? & _). intros [= <- _ _]. repeat constructor; by apply be16_u16. }
  destruct (read_separator 58 i read_group s) as [[g r]|] eqn:Eg; [|by intros [= <- _ _]].
  destruct (read_groups fuel (S i) limit r) as [[gs' v4'] r'] eqn:Er. intros [= <- _ _].
  apply read_separator_Some in Eg as (s' & Hg). constructor; [|by eapply IH].
  by eapply read_number_bound in Hg.
Qed.

Lemma v6_from_segments_wf l : Forall is_u16 l → wf_v6 (v6_from_segments l).
Proof.
  intros Hl. assert (∀ i, is_u16 (default 0 (l !! i))) as Hi.
  { intros i. destruct (l !! i) as [g|] eqn:E; simpl; [by eapply Forall_lookup_1|done]. }
  unfold wf_v6, v6_from_segments, v6_segments. repeat (constructor; [apply Hi|]). constructor.
Qed.

Lemma read_ipv6_wf s a rest : read_ipv6 s = Some (a, rest) → wf_v6 a.
Proof.
  unfold read_ipv6. destruct (read_groups 8 0 8 s) as [[hd v4] s1] eqn:E1.
  apply read_groups_wf in E1. case_test; [intros [= <- _]; by apply v6_from_segments_wf|].
  destruct v4; [done|]. destruct s1 as [|c [|d s2]]; [done..|].
  destruct ((c =? 58) && (d =? 58)); [|done].
  destruct (read_groups (8 - (length hd + 1)) 0 _ s2) as [[tl v4'] s3] eqn:E2.
  apply read_groups_wf in E2. intros [= <- _]. apply v6_from_segments_wf.
  apply Forall_app. split; [done|]. apply Forall_app. split; [|done]. by apply Forall_replicate.
Qed.

Lemma parse_ip_wf s ip : parse_ip s = Some ip → wf_ip ip.
Proof.
  unfold parse_ip, read_ip. destruct (read_ipv4 s) as [[a r]|] eqn:E4.
  - apply read_ipv4_wf in E4. destruct r; [by intros [= <-]|done].
  - destruct (read_ipv6 s) as [[a r]|] eqn:E6; simpl; [|done].
    apply read_ipv6_wf in E6. destruct r; [by intros [= <-]|done].
Qed.

Lemma uint_digits_bound limit acc s n :
  0 ≤ acc ≤ limit → uint_digits limit acc s = Some n → 0 ≤ n ≤ limit.
Proof.
  revert acc. induction s as [|c s IH]; intros acc Ha; simpl; [by intros [= <-]|].
  destruct (to_digit 10 c) as [d|] eqn:Ed; simpl; [|done].
  apply to_digit_Some in Ed; [|done]. case_test; [done|]. propify. apply IH. lia.
Qed.

Lemma parse_uint_bound limit s n : 0 ≤ limit → parse_uint limit s = Some n → 0 ≤ n ≤ limit.
Proof.
  unfold parse_uint. intros Hl. destruct s as [|c s]; [done|].
  case_test; [destruct s; [done|]|]; by apply uint_digits_bound.
Qed.

Lemma parse_u8_nonneg s n : parse_u8 s = Some n → 0 ≤ n.
Proof. intros E. by apply parse_uint_bound in E as [? _]. Qed.

Lemma cidr_parse_wf s c : cidr_parse s = Ok c → wf_cidr c.
Proof.
  unfold cidr_parse. destruct (match split_once 47 s with Some _ => _ | None => _ end) as [a p].
  destruct (parse_ip (trim a)) as [base|] eqn:Eb; [|done]. apply parse_ip_wf in Eb.
  set (max := if is_ipv4 base then 32 else 128).
  assert (∀ n, 0 ≤ n → (max <? n) = false → wf_cidr (MkCidr base n)) as Hwf.
  { intros n Hn Hm. propify. split; [|done]. simpl. unfold max in Hm. by destruct (is_ipv4 base). }
  destruct p as [p|]; simpl.
  - destruct (parse_u8 (trim p)) as [n|] eqn:En; simpl; [|done]. apply parse_u8_nonneg in En.
    case_test; [done|]. intros [= <-]. by apply Hwf.
  - case_test; [done|]. intros [= <-]. apply Hwf; [|done]. unfold max. by destruct (is_ipv4 base).
Qed.

(** ** Reading back printed numbers *)

Definition eval (base acc : Z) (ds : list Z) : Z := foldl (λ a d, a * base + d) acc ds.

(** The digits [Display] prints: their value is the number, and the first is not a zero unless it is
    the only one. *)
Lemma digits_spec fuel base n acc :
  2 ≤ base ≤ 16 → 0 ≤ n < base ^ Z.of_nat fuel → (0 < fuel)%nat →
  ∃ ds, chars (digits fuel base n acc) = map digit_char ds ++ chars acc ∧
    Forall (λ d, 0 ≤ d < base) ds ∧ eval base 0 ds = n ∧ (1 ≤ length ds ≤ fuel)%nat ∧
    (length ds = 1%nat ∨ head ds ≠ Some 0).
Proof.
  intros Hb. revert n acc. induction fuel as [|fuel IH]; intros n acc Hn Hf; [lia|]. cbn [digits].
  pose proof (Z.mod_pos_bound n base). pose proof (Z.div_mod n base).
  set (acc' := String (ascii_of_digit (n mod base)) acc).
  assert (chars acc' = map digit_char [n mod base] ++ chars acc) as Ea.
  { unfold acc'. rewrite chars_cons, chars_digit by lia. done. }
  destruct (Z.eqb_spec (n / base) 0) as [E0|Hne].
  - exists [n mod base]. rewrite Ea. split_and!; try done.
    + constructor; [lia|constructor].
    + unfold eval. simpl. lia.
    + by left.
  - assert (0 ≤ n / base) by (apply Z.div_pos; lia).
    rewrite Nat2Z.inj_succ, Z.pow_succ_r in Hn by lia.
    assert (n / base < base ^ Z.of_nat fuel) by (apply Z.div_lt_upper_bound; lia).
    destruct fuel as [|fuel]; [simpl in *; lia|].
    destruct (IH (n / base) acc') as (ds & E & Hds & Hev & Hlen & Hhd); [lia|lia|].
    exists (ds ++ [n mod base]). rewrite E, Ea, app_assoc, map_app. split_and!.
    + done.
    + apply Forall_app. split; [done|]. constructor; [lia|constructor].
    + unfold eval in *. rewrite foldl_app, Hev. simpl. lia.
    + rewrite length_app. simpl. lia.
    + rewrite length_app. simpl. lia.
    + right. destruct ds as [|d ds]; [simpl in Hlen; lia|]. simpl. intros [= ->].
      destruct Hhd as [Hl|Hhd]; [|done]. destruct ds; [|done]. simpl in Hev.
      unfold eval in Hev. simpl in Hev. lia.
Qed.

Lemma to_digit_char radix d : 0 ≤ d < radix → radix ≤ 16 → to_digit radix (digit_char d) = Some d.
Proof.
  intros Hd Hr. unfold to_digit, digit_char. destruct (Z.ltb_spec d 10).
  - rewrite (proj2 (in_range_spec 48 57 (48 + d))) by lia.
    replace (48 + d - 48) with d by lia. by rewrite (proj2 (Z.ltb_lt d radix)) by lia.
  - rewrite (proj2 (in_range_false 48 57 (87 + d))) by lia.
    rewrite (proj2 (in_range_spec 97 122 (87 + d))) by lia.
    replace (87 + d - 87) with d by lia. by rewrite (proj2 (Z.ltb_lt d radix)) by lia.
Qed.

(** The text does not go on with a digit. *)
Definition stops (radix : Z) (rest : str) : Prop :=
  match rest with [] => True | c :: _ => to_digit radix c = None end.

Lemma eval_ge base acc ds :
  1 ≤ base → 0 ≤ acc → Forall (λ d, 0 ≤ d < base) ds → acc ≤ eval base acc ds.
Proof.
  intros Hb. unfold eval. intros Hacc Hds. revert acc Hacc.
  induction Hds as [|d ds Hd _ IH]; intros acc Hacc; simpl; [lia|].
  etransitivity; [|apply IH; nia]. nia.
Qed.

Lemma read_digits_printed radix limit maxd ds rest acc count :
  2 ≤ radix ≤ 16 → 0 ≤ acc → Forall (λ d, 0 ≤ d < radix) ds → stops radix rest →
  eval radix acc ds ≤ limit → count + Z.of_nat (length ds) ≤ maxd →
  read_digits radix limit maxd (map digit_char ds ++ rest) acc count =
    Some (eval radix acc ds, count + Z.of_nat (length ds), rest).
Proof.
  intros Hr Hacc Hds Hst. revert acc count Hacc.
  induction Hds as [|d ds Hd Hds IH]; intros acc count Hacc Hlim Hmax; simpl map; simpl app.
  - rewrite Z.add_0_r. destruct rest as [|c rest]; [done|]. simpl in *. by rewrite Hst.
  - cbn [read_digits]. rewrite to_digit_char by lia. simpl length in *.
    pose proof (eval_ge radix (acc * radix + d) ds ltac:(lia) ltac:(nia) Hds) as Hge.
    change (eval radix acc (d :: ds)) with (eval radix (acc * radix + d) ds) in *.
    rewrite (proj2 (Z.ltb_ge _ _)) by lia. rewrite (proj2 (Z.ltb_ge _ _)) by lia.
    rewrite IH by (try nia; lia). do 3 f_equal. lia.
Qed.

(** Fuel beyond the number of digits changes nothing. *)
Lemma digits_fuel fuel fuel' base n acc :
  2 ≤ base → 0 ≤ n < base ^ Z.of_nat fuel → (0 < fuel ≤ fuel')%nat →
  digits fuel' base n acc = digits fuel base n acc.
Proof.
  intros Hb. revert fuel' n acc. induction fuel as [|fuel IH]; intros fuel' n acc Hn Hf; [lia|].
  destruct fuel' as [|fuel']; [lia|]. cbn [digits].
  destruct (Z.eqb_spec (n / base) 0) as [E0|Hne]; [done|].
  assert (0 ≤ n / base) by (apply Z.div_pos; lia).
  rewrite Nat2Z.inj_succ, Z.pow_succ_r in Hn by lia.
  assert (n / base < base ^ Z.of_nat fuel) by (apply Z.div_lt_upper_bound; lia).
  destruct fuel as [|fuel]; [simpl in *; lia|]. apply IH; lia.
Qed.

Lemma read_number_printed radix limit maxd m fuel az n rest :
  2 ≤ radix ≤ 16 → 0 ≤ n ≤ limit → n < radix ^ Z.of_nat m → (0 < m ≤ fuel)%nat →
  Z.of_nat m ≤ maxd → stops radix rest →
  read_number radix limit maxd az (chars (digits fuel radix n EmptyString) ++ rest) =
    Some (n, rest).
Proof.
  intros Hr Hn Hp Hm Hmax Hst. rewrite (digits_fuel m) by lia.
  destruct (digits_spec m radix n EmptyString) as (ds & -> & Hds & Hev & Hlen & Hhd);
    [done|lia|lia|].
  change (chars EmptyString) with (@nil Z). rewrite app_nil_r. unfold read_number.
  rewrite read_digits_printed by (rewrite ?Hev; try done; lia). rewrite Hev. cbn [mbind option_bind].
  rewrite Z.add_0_l, (proj2 (Z.eqb_neq _ _)) by lia.
  destruct (negb az && _ && _) eqn:E; [|done]. propify. exfalso.
  destruct ds as [|d ds]; [simpl in *; lia|]. destruct Hhd as [Hl|Hhd]; [lia|].
  simpl in *. simplify_eq. apply Hhd. f_equal. apply Forall_cons in Hds as [? _].
  unfold digit_char in *. destruct (Z.ltb_spec d 10); lia.
Qed.

(** ** Reading back printed addresses *)

Lemma read_octet_printed n rest :
  is_u8 n → stops 10 rest → read_octet (chars (dec_string n) ++ rest) = Some (n, rest).
Proof.
  unfold is_u8, u8_max. intros Hn Hst. apply (read_number_printed 10 255 3 3 5); simpl; try done; lia.
Qed.

Lemma read_group_printed n rest :
  is_u16 n → stops 16 rest → read_group (chars (hex_string n) ++ rest) = Some (n, rest).
Proof.
  unfold is_u16, u16_max. intros Hn Hst.
  apply (read_number_printed 16 65535 4 4 4); simpl; try done; lia.
Qed.

Lemma chars_v4 a :
  chars (v4_to_string a) =
    chars (dec_string (v4_a a)) ++ 46 :: chars (dec_string (v4_b a)) ++
    46 :: chars (dec_string (v4_c a)) ++ 46 :: chars (dec_string (v4_d a)).
Proof. unfold v4_to_string, v4_octets. cbn [map join]. by rewrite !chars_app. Qed.

Lemma read_ipv4_printed a rest :
  wf_v4 a → stops 10 rest → read_ipv4 (chars (v4_to_string a) ++ rest) = Some (a, rest).
Proof.
  unfold wf_v4, v4_octets. rewrite !Forall_cons. intros (Ha & Hb & Hc & Hd & _) Hst.
  rewrite chars_v4. unfold read_ipv4, read_separator. rewrite <- app_assoc. simpl app.
  rewrite read_octet_printed by done. cbn [mbind option_bind]. rewrite Z.eqb_refl, <- app_assoc.
  simpl app. rewrite read_octet_printed by done. cbn [mbind option_bind].
  rewrite Z.eqb_refl, <- app_assoc. simpl app. rewrite read_octet_printed by done.
  cbn [mbind option_bind]. rewrite Z.eqb_refl, read_octet_printed by done.
  cbn [mbind option_bind]. by destruct a.
Qed.

(** No IPv4 address without a dot. *)
Lemma read_digits_suffix radix limit maxd s acc count v n rest :
  read_digits radix limit maxd s acc count = Some (v, n, rest) → ∃ p, s = p ++ rest.
Proof.
  revert acc count. induction s as [|c s IH]; intros acc count; simpl.
  { intros [= _ _ <-]. by exists []. }
  destruct (to_digit radix c); [|intros [= _ _ <-]; by exists []].
  repeat (case_test; [done|]). intros (p & ->)%IH. by exists (c :: p).
Qed.

Lemma read_ipv4_dot s r : read_ipv4 s = Some r → 46 ∈ s.
Proof.
  unfold read_ipv4. intros ([v1 s1] & E1 & Hs)%bind_Some.
  apply bind_Some in Hs as ([v2 s2] & E2 & _). simpl in E1, E2.
  destruct s1 as [|c s1]; [done|]. destruct (Z.eqb_spec c 46) as [->|]; [|done].
  unfold read_octet, read_number in E1. apply bind_Some in E1 as ([[acc n] r1] & E1 & Hr).
  destruct (n =? 0); [done|]. destruct (negb _ && _ && _); [done|]. injection Hr as -> ->.
  apply read_digits_suffix in E1 as (p & ->).
  apply elem_of_app. right. by left.
Qed.

Lemma read_ipv4_no_dot s : (46 ∉ s) → read_ipv4 s = None.
Proof. intros Hn. destruct (read_ipv4 s) eqn:E; [|done]. by apply read_ipv4_dot in E. Qed.

(** Nor one that starts with a character that is not a decimal digit. *)
Lemma read_number_stops radix limit maxd az s :
  stops radix s → read_number radix limit maxd az s = None.
Proof. unfold read_number. destruct s as [|c s]; [done|]. simpl. by intros ->. Qed.

Lemma read_ipv4_stops s : stops 10 s → read_ipv4 s = None.
Proof.
  intros Hs. unfold read_ipv4. cbn [read_separator]. unfold read_octet.
  by rewrite read_number_stops.
Qed.

(** Groups after the first, each behind its colon. *)
Definition colon_groups (gs : list Z) : str := concat (map (λ g, 58 :: chars (hex_string g)) gs).

Lemma chars_join_groups g gs :
  chars (join ":" (map hex_string (g :: gs))) = chars (hex_string g) ++ colon_groups gs.
Proof.
  revert g. induction gs as [|g' gs IH]; intros g; [by rewrite app_nil_r|].
  change (join ":" (map hex_string (g :: g' :: gs))) with
    (String.append (hex_string g) (String.append ":" (join ":" (map hex_string (g' :: gs))))).
  rewrite !chars_app, IH. done.
Qed.

(** Where a printed address ends: at the end of the text, or at the percent sign or the bracket that
    follows it in a socket address; nothing behind it looks like part of an IPv4 address. *)
Definition ends (rest : str) : Prop :=
  (rest = [] ∨ ∃ c r, rest = c :: r ∧ (c = 93 ∨ c = 37)) ∧ (46 ∉ rest).

(** Where a run of groups ends: with the address or at a double colon. *)
Definition gap (rest : str) : Prop := ends rest ∨ ∃ r, rest = 58 :: 58 :: r.

Lemma ends_nil : ends [].
Proof. split; [by left|apply not_elem_of_nil]. Qed.

Lemma gap_stops radix rest : radix ≤ 16 → gap rest → stops radix rest.
Proof.
  assert (∀ c, c = 58 ∨ c = 93 ∨ c = 37 → to_digit radix c = if radix <? radix then Some radix else None)
    as Hc by (by intros c [-> |[-> | ->]]).
  rewrite (proj2 (Z.ltb_ge radix radix)) in Hc by lia.
  intros _ [[[-> |(c & r & -> & ?)] _]|[r ->]]; [done|apply Hc; tauto|apply Hc; tauto].
Qed.

Lemma colon_groups_stops gs rest : gap rest → stops 16 (colon_groups gs ++ rest).
Proof. intros Hg. destruct gs as [|g gs]; [by apply gap_stops|done]. Qed.

Lemma no_dot_hex g : 46 ∉ chars (hex_string g).
Proof.
  intros Hin. pose proof (chars_digits 4 16 g EmptyString ltac:(lia) ltac:(constructor)) as Hd.
  eapply Forall_forall in Hd; [|exact Hin]. unfold is_digit_char in Hd. simpl in Hd. lia.
Qed.

Lemma no_dot_colons gs : 46 ∉ colon_groups gs.
Proof.
  unfold colon_groups. induction gs as [|g gs IH]; simpl; [apply not_elem_of_nil|].
  rewrite not_elem_of_cons, not_elem_of_app. split_and!; [done|apply no_dot_hex|done].
Qed.

Lemma no_dot_groups gs : 46 ∉ chars (join ":" (map hex_string gs)).
Proof.
  destruct gs as [|g gs]; [apply not_elem_of_nil|]. rewrite chars_join_groups, not_elem_of_app.
  split; [apply no_dot_hex|apply no_dot_colons].
Qed.

Lemma no_dot_sub (s t : str) : 46 ∉ s ++ t → 46 ∉ t.
Proof. rewrite not_elem_of_app. tauto. Qed.

Lemma read_groups_gap fuel i limit rest :
  gap rest → read_groups fuel i limit rest = ([], false, rest).
Proof.
  intros Hg. destruct fuel as [|fuel]; [done|]. cbn [read_groups].
  assert (read_separator 58 i read_ipv4 rest = None ∧ read_separator 58 i read_group rest = None)
    as [E4 Eg].
  { destruct i as [|i]; cbn [read_separator].
    - split; [apply read_ipv4_stops|apply read_number_stops]; by apply gap_stops.
    - destruct Hg as [[[-> |(c & r & -> & [-> | ->])] _]|[r ->]]; [done..|]. rewrite Z.eqb_refl.
      split; [by apply read_ipv4_stops|by apply read_number_stops]. }
  rewrite E4, Eg. by case_test.
Qed.

Lemma read_groups_colons fuel i limit gs rest :
  (0 < i)%nat → (length gs ≤ fuel)%nat → gap rest → Forall is_u16 gs →
  (46 ∉ colon_groups gs ++ rest) →
  read_groups fuel i limit (colon_groups gs ++ rest) = (gs, false, rest).
Proof.
  intros Hi Hlen Hg Hgs. revert fuel i Hi Hlen.
  induction Hgs as [|g gs Hu _ IH]; intros fuel i Hi Hlen Hdot; [by apply read_groups_gap|].
  destruct fuel as [|fuel]; [simpl in Hlen; lia|]. destruct i as [|i]; [lia|].
  change (colon_groups (g :: gs)) with (58 :: chars (hex_string g) ++ colon_groups gs) in *.
  cbn [app] in *. rewrite <- app_assoc in *. apply not_elem_of_cons in Hdot as [_ Hdot].
  cbn [read_groups read_separator]. rewrite Z.eqb_refl, read_ipv4_no_dot by done.
  rewrite read_group_printed; [|done|by apply colon_groups_stops].
  rewrite IH; [by case_test|lia|simpl in Hlen; lia|by eapply no_dot_sub].
Qed.

Lemma read_groups_printed fuel limit gs rest :
  (length gs ≤ fuel)%nat → gap rest → Forall is_u16 gs → (46 ∉ rest) →
  read_groups fuel 0 limit (chars (join ":" (map hex_string gs)) ++ rest) = (gs, false, rest).
Proof.
  intros Hlen Hg Hgs Hdot. destruct Hgs as [|g gs Hu Hgs]; [by apply read_groups_gap|].
  destruct fuel as [|fuel]; [simpl in Hlen; lia|]. rewrite chars_join_groups, <- app_assoc.
  assert (46 ∉ colon_groups gs ++ rest) as Hdot'.
  { rewrite not_elem_of_app. split; [apply no_dot_colons|done]. }
  cbn [read_groups read_separator]. rewrite read_ipv4_no_dot.
  2: { rewrite not_elem_of_app. split; [apply no_dot_hex|done]. }
  rewrite read_group_printed; [|done|by apply colon_groups_stops].
  rewrite read_groups_colons by (try done; simpl in Hlen; lia). by case_test.
Qed.

(** The run [Display] leaves out is inside the address and all zeros. *)
Lemma zero_run_zeros a :
  let segs := v6_segments a in
  let '(start, len) := zero_run 0 segs (0, 0)%nat (0, 0)%nat in
  (start + len ≤ 8)%nat ∧ take start segs ++ replicate len 0 ++ drop (start + len) segs = segs.
Proof.
  destruct a as [a0 a1 a2 a3 a4 a5 a6 a7]. unfold v6_segments. simpl.
  destruct (Z.eqb_spec a0 0) as [->|]; destruct (Z.eqb_spec a1 0) as [->|];
    destruct (Z.eqb_spec a2 0) as [->|]; destruct (Z.eqb_spec a3 0) as [->|];
    destruct (Z.eqb_spec a4 0) as [->|]; destruct (Z.eqb_spec a5 0) as [->|];
    destruct (Z.eqb_spec a6 0) as [->|]; destruct (Z.eqb_spec a7 0) as [->|];
    (split; [vm_compute; lia|reflexivity]).
Qed.

Lemma v6_from_segments_segments a : v6_from_segments (v6_segments a) = a.
Proof. by destruct a. Qed.

Lemma read_ipv6_full gs rest :
  length gs = 8%nat → Forall is_u16 gs → ends rest →
  read_ipv6 (chars (join ":" (map hex_string gs)) ++ rest) = Some (v6_from_segments gs, rest).
Proof.
  intros Hlen Hgs He. unfold read_ipv6.
  rewrite read_groups_printed by first [done|lia|by left|apply He].
  by rewrite Hlen.
Qed.

Lemma read_ipv6_gap hd tl rest :
  (length hd + length tl < 8)%nat → Forall is_u16 hd → Forall is_u16 tl → ends rest →
  read_ipv6 (chars (join ":" (map hex_string hd)) ++ 58 :: 58 ::
             chars (join ":" (map hex_string tl)) ++ rest) =
    Some (v6_from_segments (hd ++ replicate (8 - length hd - length tl) 0 ++ tl), rest).
Proof.
  intros Hlen Hhd Htl He. unfold read_ipv6.
  rewrite read_groups_printed; [|lia|right; by eexists|done|].
  2: { rewrite !not_elem_of_cons, not_elem_of_app.
       split_and!; [done|done|apply no_dot_groups|apply He]. }
  rewrite (proj2 (Nat.eqb_neq _ _)) by lia. rewrite Z.eqb_refl. cbn [andb].
  by rewrite read_groups_printed by first [done|lia|by left|apply He].
Qed.

(** The tail of a mapped address: the group ffff and an IPv4 address. *)
Lemma read_ipv6_mapped v4 rest :
  wf_v4 v4 → ends rest →
  read_ipv6 (chars (String.append "::ffff:" (v4_to_string v4)) ++ rest) =
    Some (to_ipv6_mapped v4, rest).
Proof.
  intros Hwf He. rewrite chars_app. unfold read_ipv6.
  change (chars "::ffff:") with (58 :: 58 :: chars (hex_string 0xffff) ++ [58]).
  cbn [app]. rewrite <- !app_assoc. cbn [app].
  rewrite read_groups_gap by (right; by eexists).
  cbn [length Nat.eqb Nat.sub Nat.add]. rewrite Z.eqb_refl. cbn [andb].
  cbn [read_groups read_separator Nat.sub Nat.ltb Nat.leb].
  rewrite read_ipv4_stops by done. rewrite read_group_printed by done.
  rewrite Z.eqb_refl. rewrite read_ipv4_printed; [done|done|].
  apply gap_stops; [done|by left].
Qed.

Lemma to_ipv4_mapped_wf a v4 : wf_v6 a → to_ipv4_mapped a = Some v4 → wf_v4 v4.
Proof.
  intros Ha E. pose proof (to_canonical_wf (IpV6 a) Ha) as Hw. unfold to_canonical in Hw.
  by rewrite E in Hw.
Qed.

Lemma v6_to_string_no_dot a : to_ipv4_mapped a = None → 46 ∉ chars (v6_to_string a).
Proof.
  unfold v6_to_string. intros ->. destruct (zero_run _ _ _ _) as [start len].
  case_test; [|apply no_dot_groups].
  rewrite !chars_app, !not_elem_of_app. split_and!; [apply no_dot_groups| |apply no_dot_groups].
  apply (bool_decide_unpack _). vm_compute. exact I.
Qed.

Lemma read_ipv6_printed a rest :
  wf_v6 a → ends rest → read_ipv6 (chars (v6_to_string a) ++ rest) = Some (a, rest).
Proof.
  intros Ha He. unfold v6_to_string. destruct (to_ipv4_mapped a) as [v4|] eqn:E4.
  { rewrite read_ipv6_mapped by (done || by eapply to_ipv4_mapped_wf).
    by rewrite (to_ipv4_mapped_Some _ _ E4). }
  pose proof (zero_run_zeros a) as Hz. cbn zeta in Hz.
  destruct (zero_run 0 (v6_segments a) _ _) as [start len]. destruct Hz as [Hle Hz].
  destruct (Nat.ltb_spec 1 len) as [Hlen|Hlen].
  - rewrite !chars_app, <- !app_assoc. change (chars "::") with [58; 58]. cbn [app].
    assert (length (v6_segments a) = 8%nat) as H8 by done.
    rewrite read_ipv6_gap.
    + rewrite length_take, length_drop, H8.
      replace (8 - (start `min` 8) - (8 - (start + len)))%nat with len by lia.
      by rewrite Hz, v6_from_segments_segments.
    + rewrite length_take, length_drop, H8. lia.
    + by apply Forall_take.
    + by apply Forall_drop.
    + done.
  - rewrite read_ipv6_full by done. by rewrite v6_from_segments_segments.
Qed.

(** [str::parse] reads back what [Display] prints. *)
Lemma parse_ip_printed ip : wf_ip ip → parse_ip (chars (ip_to_string ip)) = Some ip.
Proof.
  unfold parse_ip, read_ip. destruct ip as [a|a]; simpl; intros Hwf.
  - rewrite <- (app_nil_r (chars _)). by rewrite read_ipv4_printed.
  - pose proof (read_ipv6_printed a [] Hwf ends_nil) as E. rewrite app_nil_r in E.
    destruct (to_ipv4_mapped a) as [v4|] eqn:E4.
    + rewrite read_ipv4_stops; [by rewrite E|]. unfold v6_to_string. by rewrite E4.
    + rewrite read_ipv4_no_dot by by apply v6_to_string_no_dot. by rewrite E.
Qed.

(** ** Reading back CIDR lists *)

(** The characters of a printed address or number. *)
Definition addr_char (c : Z) : Prop := is_digit_char c ∨ c = 46 ∨ c = 58.

Global Instance addr_char_dec c : Decision (addr_char c).
Proof. unfold addr_char, is_digit_char. apply _. Defined.

Lemma addr_char_number fuel base n :
  0 < base ≤ 16 → Forall addr_char (chars (digits fuel base n EmptyString)).
Proof.
  intros Hb. eapply Forall_impl; [apply chars_digits; [done|constructor]|].
  intros c Hc. by left.
Qed.

Lemma addr_char_join sep l :
  Forall addr_char (chars sep) → Forall (λ s, Forall addr_char (chars s)) l →
  Forall addr_char (chars (join sep l)).
Proof.
  intros Hsep Hl. induction Hl as [|x l Hx Hl IH]; [constructor|].
  destruct l as [|y l]; [done|].
  change (join sep (x :: y :: l)) with
    (String.append x (String.append sep (join sep (y :: l)))).
  rewrite !chars_app, !Forall_app. done.
Qed.

Lemma addr_char_colons : Forall addr_char [58; 58].
Proof. repeat constructor; by right; right. Qed.

Lemma addr_char_v4 a : Forall addr_char (chars (v4_to_string a)).
Proof.
  apply addr_char_join; [repeat constructor; by right; left|].
  repeat constructor; by apply addr_char_number.
Qed.

Lemma addr_char_groups gs : Forall addr_char (chars (join ":" (map hex_string gs))).
Proof.
  apply addr_char_join; [repeat constructor; by right; right|].
  apply Forall_fmap, Forall_forall. intros g _. by apply addr_char_number.
Qed.

Lemma addr_char_ip ip : Forall addr_char (chars (ip_to_string ip)).
Proof.
  destruct ip as [a|a]; simpl; [apply addr_char_v4|]. unfold v6_to_string.
  destruct (to_ipv4_mapped a) as [v4|].
  - rewrite chars_app, Forall_app. split; [|apply addr_char_v4].
    apply (bool_decide_unpack _). vm_compute. exact I.
  - destruct (zero_run _ _ _ _) as [start len]. case_test; [|apply addr_char_groups].
    rewrite !chars_app, !Forall_app. split_and!; [apply addr_char_groups| |apply addr_char_groups].
    apply addr_char_colons.
Qed.

Lemma addr_char_spec c :
  addr_char c → is_whitespace c = false ∧ c ≠ 44 ∧ c ≠ 47 ∧ c ≠ 43.
Proof.
  unfold addr_char, is_digit_char. intros Hc.
  assert (46 ≤ c ≤ 58 ∧ c ≠ 47 ∨ 97 ≤ c ≤ 102) as Hr by lia.
  split; [|lia]. unfold is_whitespace, in_range.
  repeat (apply orb_false_iff; split); rewrite ?Z.eqb_neq, ?andb_false_iff, ?Z.leb_gt; lia.
Qed.

Lemma uint_digits_printed limit ds acc :
  0 ≤ acc → Forall (λ d, 0 ≤ d < 10) ds → eval 10 acc ds ≤ limit →
  uint_digits limit acc (map digit_char ds) = Some (eval 10 acc ds).
Proof.
  intros Hacc Hds. revert acc Hacc. induction Hds as [|d ds Hd Hds IH]; intros acc Hacc Hlim; [done|].
  cbn [map uint_digits]. rewrite to_digit_char by lia. cbn [mbind option_bind].
  pose proof (eval_ge 10 (acc * 10 + d) ds ltac:(lia) ltac:(lia) Hds) as Hge.
  change (eval 10 acc (d :: ds)) with (eval 10 (acc * 10 + d) ds) in *.
  rewrite (proj2 (Z.ltb_ge _ _)) by lia. apply IH; lia.
Qed.

(** A number printed with enough digits is read back by every type that holds it. *)
Lemma parse_uint_printed limit fuel n :
  (0 < fuel)%nat → 0 ≤ n ≤ limit → n < 10 ^ Z.of_nat fuel →
  parse_uint limit (chars (digits fuel 10 n EmptyString)) = Some n.
Proof.
  intros Hf Hn Hlt.
  destruct (digits_spec fuel 10 n EmptyString) as (ds & E & Hds & Hev & Hlen & _);
    [lia|lia|lia|].
  rewrite E. change (chars EmptyString) with (@nil Z). rewrite app_nil_r.
  destruct ds as [|d ds]; [simpl in Hlen; lia|]. pose proof Hds as [Hd _]%Forall_cons.
  unfold parse_uint. change (map digit_char (d :: ds)) with (digit_char d :: map digit_char ds).
  assert (digit_char d ≠ 43).
  { unfold digit_char. destruct (Z.ltb_spec d 10); lia. }
  cbv iota. rewrite (proj2 (Z.eqb_neq _ _)) by done.
  change (digit_char d :: map digit_char ds) with (map digit_char (d :: ds)).
  rewrite uint_digits_printed by (try done; lia). by rewrite Hev.
Qed.

Lemma parse_u8_printed n : is_u8 n → parse_u8 (chars (dec_string n)) = Some n.
Proof. unfold is_u8, u8_max. intros Hn. apply parse_uint_printed; [lia|unfold u8_max; lia|simpl; lia]. Qed.

(** The text of a block, and of a list of blocks. *)
Definition render_cidr (c : Cidr) : str :=
  chars (ip_to_string (cidr_base c)) ++ 47 :: chars (dec_string (cidr_prefix_len c)).

Definition render_cidrs (cs : list Cidr) : str :=
  match cs with
  | [] => []
  | c :: cs => render_cidr c ++ concat (map (λ c, 44 :: 32 :: render_cidr c) cs)
  end.

Lemma addr_char_tight s : Forall addr_char s → trim s = s.
Proof.
  intros Hs. apply trim_tight, no_whitespace_tight. eapply Forall_impl; [exact Hs|].
  intros c Hc. apply addr_char_spec in Hc. tauto.
Qed.

Lemma addr_char_not_in b s : (b = 44 ∨ b = 47) → Forall addr_char s → b ∉ s.
Proof.
  intros Hb Hs Hin. eapply Forall_forall in Hs; [|exact Hin]. apply addr_char_spec in Hs. lia.
Qed.

Lemma cidr_parse_printed c : wf_cidr c → cidr_parse (render_cidr c) = Ok c.
Proof.
  intros [Hlen Hwf]. unfold cidr_parse, render_cidr.
  rewrite split_once_app by (apply addr_char_not_in; [by right|apply addr_char_ip]).
  rewrite addr_char_tight by apply addr_char_ip. rewrite parse_ip_printed by done.
  rewrite addr_char_tight by by apply addr_char_number.
  rewrite parse_u8_printed.
  2: { unfold is_u8, u8_max. destruct (is_ipv4 (cidr_base c)); lia. }
  cbn [result_bind]. rewrite (proj2 (Z.ltb_ge _ _)) by lia. by destruct c.
Qed.

Lemma cidr_tight c : trim (render_cidr c) = render_cidr c ∧ (44 ∉ render_cidr c).
Proof.
  unfold render_cidr. pose proof (addr_char_ip (cidr_base c)) as Hi.
  pose proof (addr_char_number 5 10 (cidr_prefix_len c) ltac:(lia)) as Hn.
  split.
  - apply trim_tight, no_whitespace_tight. apply Forall_app. split; [|constructor; [done|]].
    + eapply Forall_impl; [exact Hi|]. intros x Hx. apply addr_char_spec in Hx. tauto.
    + eapply Forall_impl; [exact Hn|]. intros x Hx. apply addr_char_spec in Hx. tauto.
  - rewrite not_elem_of_app, not_elem_of_cons. split_and!; [|done|];
      (apply addr_char_not_in; [by left|done]).
Qed.

Lemma split_commas e es :
  (44 ∉ e) → Forall (λ e, 44 ∉ e) es →
  split 44 (e ++ concat (map (λ e, 44 :: 32 :: e) es)) = e :: map (cons 32) es.
Proof.
  intros He Hes. revert e He. induction Hes as [|e' es He' _ IH]; intros e He.
  - simpl. rewrite app_nil_r. by apply split_nil.
  - cbn [map concat app]. rewrite split_cons by done. f_equal.
    rewrite <- (IH (32 :: e')); [done|]. by rewrite not_elem_of_cons.
Qed.

Lemma filter_rendered cs :
  filter (λ e, e ≠ []) (map render_cidr cs) = map render_cidr cs.
Proof.
  induction cs as [|c cs IH]; [done|]. cbn [map]. rewrite filter_cons_True; [f_equal; exact IH|].
  unfold render_cidr. intros E. by apply app_eq_nil in E as [_ E].
Qed.

Lemma list_entries_printed cs : list_entries (render_cidrs cs) = map render_cidr cs.
Proof.
  unfold list_entries. destruct cs as [|c cs]; [done|]. unfold render_cidrs.
  replace (map (λ c, 44 :: 32 :: render_cidr c) cs) with
    (map (λ e, 44 :: 32 :: e) (map render_cidr cs)) by by rewrite map_map.
  rewrite split_commas; [|apply cidr_tight|].
  2: { apply Forall_fmap, Forall_forall. intros x _. apply cidr_tight. }
  rewrite map_cons, (proj1 (cidr_tight c)), !map_map.
  change (map render_cidr (c :: cs)) with (render_cidr c :: map render_cidr cs).
  assert (map (λ x, trim (32 :: render_cidr x)) cs = map render_cidr cs) as ->.
  { apply map_ext. intros x. rewrite trim_space. apply cidr_tight. }
  apply (filter_rendered (c :: cs)).
Qed.

Lemma collect_Ok {A E} (l : list (result A E)) xs : collect l = Ok xs ↔ l = map Ok xs.
Proof.
  revert xs. induction l as [|[x|e] l IH]; intros xs; simpl.
  - split; [by intros [= <-]|by destruct xs].
  - destruct xs as [|y xs]; [by destruct (collect l)|]. simpl.
    destruct (collect l) as [ys|e] eqn:Ec; simpl.
    + split.
      * intros [= -> ->]. by rewrite (proj1 (IH xs) eq_refl).
      * intros [= -> Hl]. by pose proof (proj2 (IH xs) Hl) as [= ->].
    + split; [done|]. intros [= _ Hl]. by pose proof (proj2 (IH xs) Hl).
  - split; [done|]. by destruct xs.
Qed.

(** Where [collect] stops. *)
Lemma collect_Err {A E} (l : list (result A E)) e :
  collect l = Err e ↔ ∃ xs rest, l = map Ok xs ++ Err e :: rest.
Proof.
  split.
  - induction l as [|[x|e'] l IH]; simpl; [done| |].
    + destruct (collect l) as [ys|e']; simpl; [done|]. intros [= ->].
      destruct IH as (xs & rest & ->); [done|]. by exists (x :: xs), rest.
    + intros [= ->]. by exists [], l.
  - intros (xs & rest & ->). induction xs as [|x xs IH]; [done|]. simpl. by rewrite IH.
Qed.

(** What is wrong with an entry that is not a block, and what the parser says of it: the part before
    the first slash is not an address, or the part after it is not a number, or the number is greater
    than the width of the address. *)
Inductive fault : str → str → Prop :=
| fault_address a rest :
    (47 ∉ a) → (rest = [] ∨ ∃ p, rest = 47 :: p) → parse_ip (trim a) = None →
    fault (a ++ rest) (chars "not an IP address: " ++ a)
| fault_number a p ip :
    (47 ∉ a) → parse_ip (trim a) = Some ip → parse_u8 (trim p) = None →
    fault (a ++ 47 :: p) (chars "not a prefix length: " ++ p)
| fault_width a p ip n :
    (47 ∉ a) → parse_ip (trim a) = Some ip → parse_u8 (trim p) = Some n →
    (if is_ipv4 ip then 32 else 128) < n →
    fault (a ++ 47 :: p)
      (chars "prefix /" ++ chars (dec_string n) ++ chars " exceeds /" ++
       chars (dec_string (if is_ipv4 ip then 32 else 128)) ++ chars " for " ++ chars (ip_to_string ip)).

Lemma split_once_Some sep s a p : split_once sep s = Some (a, p) → s = a ++ sep :: p ∧ sep ∉ a.
Proof.
  revert a. induction s as [|c s IH]; intros a; simpl; [done|].
  destruct (Z.eqb_spec c sep) as [->|Hne]; [intros [= <- <-]; split; [done|apply not_elem_of_nil]|].
  destruct (split_once sep s) as [[a' p']|]; simpl; [|done]. intros [= <- <-].
  destruct (IH a' eq_refl) as [-> Ha]. split; [done|]. by rewrite not_elem_of_cons.
Qed.

Lemma split_once_None sep s : split_once sep s = None → sep ∉ s.
Proof.
  induction s as [|c s IH]; simpl; [intros _; apply not_elem_of_nil|].
  destruct (Z.eqb_spec c sep) as [->|Hne]; [done|].
  destruct (split_once sep s) as [[a' p']|]; simpl; [done|]. intros _.
  rewrite not_elem_of_cons. auto.
Qed.

Lemma cidr_parse_Err e msg : cidr_parse e = Err msg ↔ fault e msg.
Proof.
  split.
  - unfold cidr_parse. destruct (split_once 47 e) as [[a p]|] eqn:Es.
    + apply split_once_Some in Es as [-> Ha].
      destruct (parse_ip (trim a)) as [ip|] eqn:Ei; [|intros [= <-]; apply fault_address; eauto].
      destruct (parse_u8 (trim p)) as [n|] eqn:En; simpl; [|intros [= <-]; by eapply fault_number].
      destruct (Z.ltb_spec (if is_ipv4 ip then 32 else 128) n); [|done]. intros [= <-].
      by eapply fault_width.
    + apply split_once_None in Es. destruct (parse_ip (trim e)) as [ip|] eqn:Ei.
      * simpl. by rewrite Z.ltb_irrefl.
      * intros [= <-]. rewrite <- (app_nil_r e) at 1. apply fault_address; auto.
  - unfold cidr_parse. intros [a rest Ha [->|[p ->]] Hi|a p ip Ha Hi Hn|a p ip n Ha Hi Hn Hw].
    + rewrite app_nil_r, split_once_none, Hi by done. done.
    + rewrite split_once_app by done. by rewrite Hi.
    + rewrite split_once_app by done. rewrite Hi. simpl. by rewrite Hn.
    + rewrite split_once_app by done. rewrite Hi, Hn. simpl. by rewrite (proj2 (Z.ltb_lt _ _)).
Qed.

(** An accepted list is the blocks of its entries. *)
Lemma trusted_parse_blocks l t :
  trusted_parse l = Ok t →
  Forall2 (λ e c, cidr_parse e = Ok c) (list_entries l) t ∧ Forall wf_cidr t.
Proof.
  intros E%collect_Ok.
  assert (Forall2 (λ e c, cidr_parse e = Ok c) (list_entries l) t) as H2.
  { revert E. generalize (list_entries l). intros es. revert t.
    induction es as [|e es IH]; intros [|c t]; try done. simpl. intros [= E1 E2].
    constructor; [done|]. by apply IH. }
  split; [done|]. clear E. induction H2; constructor; [by eapply cidr_parse_wf|done].
Qed.

(** ** Properties *)

(** A list of CIDR blocks of either family, written the way addresses are displayed and
    separated by commas, is read back as exactly those blocks, in order. *)
Theorem trusted_list_roundtrip cs :
  Forall wf_cidr cs → trusted_parse (render_cidrs cs) = Ok cs.
Proof.
  intros Hcs. unfold trusted_parse. rewrite list_entries_printed. apply collect_Ok.
  induction Hcs as [|c cs Hc _ IH]; [done|]. cbn [map]. by rewrite cidr_parse_printed, IH.
Qed.

(** C40: reading a trusted-proxy list is all or nothing. An accepted list is the blocks of its
    non-blank entries, in order and without exception, each with a prefix that fits its family, and
    the trust test on it never indexes out of range: it is membership in one of the blocks. A list is
    rejected with a message exactly if an entry is not a block, all those before it are, and the
    message is what is wrong with that first bad entry: its address part, its prefix part, or the
    prefix and the width it exceeds. *)
Theorem trusted_parse_sound l :
  (∀ t, trusted_parse l = Ok t →
     Forall2 (λ e c, cidr_parse e = Ok c) (list_entries l) t ∧ Forall wf_cidr t ∧
     ∀ ip, wf_ip ip → trusts t ip = Some (bool_decide (Exists (λ c, in_block c ip) t))) ∧
  (∀ msg, trusted_parse l = Err msg ↔
     ∃ before e after, list_entries l = before ++ e :: after ∧
       Forall (λ b, ¬ ∃ m, fault b m) before ∧ fault e msg).
Proof.
  split.
  - intros t E. apply trusted_parse_blocks in E as [H2 Hwf].
    split_and!; [done|done|]. intros ip Hip. by apply trusts_spec_aux.
  - intros msg. etransitivity; [apply (collect_Err (map cidr_parse (list_entries l)) msg)|]. split.
    + intros (xs & rest & E). apply map_eq_app in E as (before & tl & -> & E1 & E2).
      destruct tl as [|e after]; [done|]. injection E2 as E2 _.
      exists before, e, after. split_and!; [done| |by apply cidr_parse_Err].
      apply Forall_forall. intros b Hb [m Hm%cidr_parse_Err].
      apply (list_elem_of_fmap_2 cidr_parse) in Hb. change (cidr_parse <$> before) with (map cidr_parse before) in Hb.
      rewrite E1, Hm in Hb. apply list_elem_of_fmap in Hb as (x & [=] & _).
    + intros (before & e & after & -> & Hb & He%cidr_parse_Err).
      assert (∃ xs, map cidr_parse before = map Ok xs) as [xs E].
      { induction Hb as [|b before Hb _ [xs IH]]; [by exists []|].
        destruct (cidr_parse b) as [c|m] eqn:Eb; [|destruct Hb; exists m; by apply cidr_parse_Err].
        exists (c :: xs). simpl. by rewrite Eb, IH. }
      exists xs, (map cidr_parse after). by rewrite map_app, E, <- He.
Qed.

(** The message does not have the whole entry: two lists with different bad entries are rejected
    alike. *)
Theorem bad_entry_partly_named :
  trusted_parse (chars "10.0.0.0/xx") = Err (chars "not a prefix length: xx") ∧
  trusted_parse (chars "192.0.2.0/8, 2600:1f18::/xx") = Err (chars "not a prefix length: xx").
Proof. split; vm_compute; reflexivity. Qed.

Lemma trusted_list_roundtrip_witness :
  trusted_parse (chars "10.0.0.0/8, 2600:1f18::/32") =
    Ok [MkCidr (IpV4 (MkV4 10 0 0 0)) 8; MkCidr (IpV6 (MkV6 0x2600 0x1f18 0 0 0 0 0 0)) 32].
Proof.
  apply (trusted_list_roundtrip
    [MkCidr (IpV4 (MkV4 10 0 0 0)) 8; MkCidr (IpV6 (MkV6 0x2600 0x1f18 0 0 0 0 0 0)) 32]).
  apply (bool_decide_unpack _). vm_compute. exact I.
Defined.

(** The second of three entries is the first bad one. *)
Lemma trusted_parse_sound_witness :
  (∀ ip, wf_ip ip → is_Some (trusts [MkCidr (IpV4 (MkV4 10 0 0 0)) 8] ip)) ∧
  trusted_parse (chars "10.0.0.0/8, 10.0.0.0/33, ten") = Err (chars "prefix /33 exceeds /32 for 10.0.0.0").
Proof.
  split.
  - intros ip Hip.
    destruct (proj1 (trusted_parse_sound (chars "10.0.0.0/8")) [MkCidr (IpV4 (MkV4 10 0 0 0)) 8])
      as (_ & _ & Ht); [vm_compute; reflexivity|]. rewrite (Ht ip Hip). by eexists.
  - apply (proj2 (trusted_parse_sound (chars "10.0.0.0/8, 10.0.0.0/33, ten"))).
    exists [chars "10.0.0.0/8"], (chars "10.0.0.0/33"), [chars "ten"]. split_and!.
    + vm_compute. reflexivity.
    + constructor; [|constructor]. intros [m Hm%cidr_parse_Err]. vm_compute in Hm. discriminate.
    + apply cidr_parse_Err. vm_compute. reflexivity.
Defined.
