(* ===== verification/SockText.v ===== *)
(** * Socket addresses as text

    [Display] and the parser of [std::net] for socket addresses, used by the service environment and
    the command line (src/src/service.rs, src/src/main.rs), and their round trip. *)

From S2P Require Import Prelude Net Text ProxyProtocol NetText.

Definition dec20 (n : Z) : string := digits 20 10 n EmptyString.

(** ** [Display] *)

Definition sa_to_string (a : SocketAddr) : string :=
  match a with
  | SaV4 ip port => String.append (v4_to_string ip) (String.append ":" (dec_string port))
  | SaV6 ip port _ scope_id =>
      let scope :=
        if scope_id =? 0 then EmptyString else String.append "%" (dec20 scope_id) in
      String.append "[" (String.append (v6_to_string ip) (String.append scope
        (String.append "]:" (dec_string port))))
  end.

(** ** Parsing *)

(** [read_given_char]. *)
Definition read_char (c : Z) (s : str) : option str :=
  match s with x :: s' => if x =? c then Some s' else None | [] => None end.

(** [read_number(10, None, true)]: as many digits as there are. *)
Definition read_unbounded (limit : Z) (s : str) : option (Z * str) :=
  read_number 10 limit (Z.of_nat (length s)) true s.

Definition read_port (s : str) : option (Z * str) := s ← read_char 58 s; read_unbounded u16_max s.
Definition read_scope_id (s : str) : option (Z * str) :=
  s ← read_char 37 s; read_unbounded u32_max s.

Definition read_socket_addr_v4 (s : str) : option (SocketAddr * str) :=
  '(ip, s) ← read_ipv4 s; '(port, s) ← read_port s; Some (SaV4 ip port, s).

Definition read_socket_addr_v6 (s : str) : option (SocketAddr * str) :=
  s ← read_char 91 s;
  '(ip, s) ← read_ipv6 s;
  let '(scope_id, s) := default (0, s) (read_scope_id s) in
  s ← read_char 93 s;
  '(port, s) ← read_port s;
  Some (SaV6 ip port 0 scope_id, s).

(** [str::parse::<SocketAddr>]: the whole text. *)
Definition parse_socket_addr (s : str) : option SocketAddr :=
  let r := match read_socket_addr_v4 s with Some r => Some r | None => read_socket_addr_v6 s end in
  match r with Some (a, []) => Some a | _ => None end.

(** ** Round trip *)

(** A socket address without flow label: the text does not carry one. *)
Definition wf_sa (a : SocketAddr) : Prop :=
  match a with
  | SaV4 ip port => wf_v4 ip ∧ is_u16 port
  | SaV6 ip port flowinfo scope_id => wf_v6 ip ∧ is_u16 port ∧ flowinfo = 0 ∧ is_u32 scope_id
  end.

Global Instance wf_sa_dec a : Decision (wf_sa a).
Proof. destruct a; unfold wf_sa, wf_v4, wf_v6, is_u16, is_u32; apply _. Defined.

Lemma length_printed fuel n acc :
  0 ≤ n < 10 ^ Z.of_nat fuel → (0 < fuel)%nat →
  ∃ m, (0 < m ≤ fuel)%nat ∧ n < 10 ^ Z.of_nat m ∧
    length (chars (digits fuel 10 n acc)) = (m + length (chars acc))%nat.
Proof.
  revert n acc. induction fuel as [|fuel IH]; intros n acc Hn Hf; [lia|]. cbn [digits].
  pose proof (Z.mod_pos_bound n 10). pose proof (Z.div_mod n 10).
  destruct (Z.eqb_spec (n / 10) 0) as [E0|Hne].
  - exists 1%nat. rewrite chars_cons. simpl. lia.
  - rewrite Nat2Z.inj_succ, Z.pow_succ_r in Hn by lia.
    destruct fuel as [|fuel]; [simpl in *; lia|].
    edestruct (IH (n / 10)) as (m & Hm & Hlt & E); [lia|lia|].
    exists (S m). rewrite E, chars_cons. cbn [length].
    rewrite Nat2Z.inj_succ, Z.pow_succ_r by lia. lia.
Qed.

Lemma read_unbounded_printed fuel limit n rest :
  0 ≤ n ≤ limit → n < 10 ^ Z.of_nat fuel → (0 < fuel)%nat → stops 10 rest →
  read_unbounded limit (chars (digits fuel 10 n EmptyString) ++ rest) = Some (n, rest).
Proof.
  intros Hn Hlt Hf Hst.
  destruct (length_printed fuel n EmptyString) as (m & Hm & Hlm & E); [lia|lia|].
  unfold read_unbounded. apply (read_number_printed 10 limit _ m fuel); [lia|lia|lia|lia| |done].
  rewrite length_app, E. simpl. lia.
Qed.

Lemma read_port_printed port rest :
  is_u16 port → stops 10 rest →
  read_port (58 :: chars (dec_string port) ++ rest) = Some (port, rest).
Proof.
  unfold is_u16, u16_max. intros Hp Hst. unfold read_port. cbn [read_char].
  rewrite Z.eqb_refl. cbn [mbind option_bind]. apply read_unbounded_printed; simpl; done || lia.
Qed.

Lemma no_dot_dec fuel n : 46 ∉ chars (digits fuel 10 n EmptyString).
Proof.
  intros Hin. pose proof (chars_digits fuel 10 n EmptyString ltac:(lia) ltac:(constructor)) as Hd.
  eapply Forall_forall in Hd; [|exact Hin]. unfold is_digit_char in Hd. simpl in Hd. lia.
Qed.

(** Reading back what [Display] prints. *)
Lemma parse_socket_addr_printed a :
  wf_sa a → parse_socket_addr (chars (sa_to_string a)) = Some a.
Proof.
  unfold parse_socket_addr. destruct a as [ip port|ip port flow scope_id]; simpl.
  - intros [Hip Hp]. rewrite !chars_app. change (chars ":") with [58]. cbn [app].
    unfold read_socket_addr_v4. rewrite read_ipv4_printed by done. cbn [mbind option_bind].
    rewrite <- (app_nil_r (chars (dec_string port))). by rewrite read_port_printed.
  - intros (Hip & Hp & -> & Hs). rewrite !chars_app.
    change (chars "[") with [91]. change (chars "]:") with [93; 58]. cbn [app].
    set (tail := 93 :: 58 :: chars (dec_string port)).
    assert (ends tail) as Ht.
    { split; [right; exists 93, (58 :: chars (dec_string port)); tauto|].
      unfold tail. rewrite !not_elem_of_cons. split_and!; [done|done|apply no_dot_dec]. }
    assert (read_char 93 tail = Some (58 :: chars (dec_string port))) as Hc by done.
    assert (read_port (58 :: chars (dec_string port)) = Some (port, [])) as Hport.
    { rewrite <- (app_nil_r (chars (dec_string port))). by apply read_port_printed. }
    unfold read_socket_addr_v6. cbn [read_char]. rewrite Z.eqb_refl. cbn [mbind option_bind].
    destruct (Z.eqb_spec scope_id 0) as [->|Hne].
    + change (chars EmptyString) with (@nil Z). cbn [app]. rewrite read_ipv6_printed by done.
      cbn [mbind option_bind]. unfold read_scope_id at 1. cbn [tail read_char].
      change (93 =? 37) with false. cbn [mbind option_bind default].
      rewrite Hc. cbn [mbind option_bind]. by rewrite Hport.
    + rewrite chars_app. change (chars "%") with [37]. cbn [app].
      rewrite read_ipv6_printed; [|done|].
      2: { split; [right; exists 37; eexists; split; [done|tauto]|].
           rewrite not_elem_of_cons, not_elem_of_app.
           split_and!; [done|apply no_dot_dec|apply Ht]. }
      cbn [mbind option_bind]. unfold read_scope_id at 1. cbn [read_char].
      rewrite Z.eqb_refl. cbn [mbind option_bind]. unfold dec20, is_u32, u32_max in *.
      rewrite read_unbounded_printed by (simpl; done || lia). cbn [default from_option id].
      rewrite Hc. cbn [mbind option_bind]. by rewrite Hport.
Qed.

(** What the parser accepts is well-formed. *)
Lemma read_port_u16 s port rest : read_port s = Some (port, rest) → is_u16 port.
Proof.
  unfold read_port. intros (s' & _ & E)%bind_Some. by eapply read_number_bound in E.
Qed.

Lemma parse_socket_addr_wf s a : parse_socket_addr s = Some a → wf_sa a.
Proof.
  unfold parse_socket_addr. destruct (read_socket_addr_v4 s) as [[b r]|] eqn:E4.
  - destruct r; [|done]. intros [= <-].
    unfold read_socket_addr_v4 in E4. apply bind_Some in E4 as ([ip s1] & E1 & E4).
    apply bind_Some in E4 as ([port s2] & E2 & [= <- _]).
    split; [by eapply read_ipv4_wf|by eapply read_port_u16].
  - destruct (read_socket_addr_v6 s) as [[b r]|] eqn:E6; [|done].
    destruct r; [|done]. intros [= <-].
    unfold read_socket_addr_v6 in E6. apply bind_Some in E6 as (s0 & _ & E6).
    apply bind_Some in E6 as ([ip s1] & E1 & E6).
    destruct (default (0, s1) (read_scope_id s1)) as [scope s2] eqn:Es.
    apply bind_Some in E6 as (s3 & _ & E6). apply bind_Some in E6 as ([port s4] & E2 & [= <- _]).
    assert (is_u32 scope).
    { destruct (read_scope_id s1) as [[n s']|] eqn:En; simpl in Es; [|by injection Es as <- _].
      injection Es as <- _. unfold read_scope_id in En. apply bind_Some in En as (s5 & _ & En).
      by eapply read_number_bound in En. }
    split_and!; [by eapply read_ipv6_wf|by eapply read_port_u16|done|done].
Qed.
