(* ===== verification/Guard.v ===== *)
(** * The guard on the source text (src/src/continuation_guard.rs)

    A test reads every source file of the crate and fails if a line carries a long run of spaces in
    its middle, the trace of a lost string continuation. The directory tree is a value, so the walk is
    a function on it; a directory or a file that cannot be read is passed over, as in the code. *)

From S2P Require Import Prelude Net Text NetText SockText.

Definition EXCLUDED_DIRS : list str := [].
Definition EXCLUDED_LINE_RANGES : list (str * Z * Z) := [].
Definition CLI_COLUMN_FILES : list str := [].
Definition MIN_DEFECT_RUN : nat := 10.
Definition MIN_FILES_SCANNED : nat := 15.

Record Offense := MkOffense { off_file : str; off_line : Z; off_fragment : str }.

Definition is_excluded_line (file_name : str) (line_no : Z) : bool :=
  existsb (λ '(f, first, last), bool_decide (f = file_name) && (first <=? line_no) && (line_no <=? last))
    EXCLUDED_LINE_RANGES.

(** [rel_path] as its components. *)
Definition is_excluded_dir (rel_path : list str) : bool :=
  existsb (λ c, bool_decide (c ∈ EXCLUDED_DIRS)) rel_path.

(** ** A line *)

(** [str::lines]: a line ends with LF or CR LF, and the last one need not. *)
Fixpoint lines (s : str) : list str :=
  match s with
  | [] => []
  | c :: s' =>
      if c =? 10 then [] :: lines s'
      else match s' with
           | d :: s'' => if (c =? 13) && (d =? 10) then [] :: lines s'' else push c (lines s')
           | [] => [[c]]
           end
  end.

(** [char::is_control]. *)
Definition is_control (c : Z) : bool := in_range 0 0x1F c || in_range 0x7F 0x9F c.

(** [char_indices().find(is_control)], the index in bytes. *)
Fixpoint find_control (pos : Z) (s : str) : option Z :=
  match s with
  | [] => None
  | c :: s' =>
      if is_control c then Some pos
      else find_control (pos + Z.of_nat (length (utf8_char c))) s'
  end.

(** The inner [while]: the length of a run of spaces and what follows it. *)
Fixpoint skip_spaces (s : str) : nat * str :=
  match s with
  | [] => (O, [])
  | c :: s' => if c =? 32 then let '(n, rest) := skip_spaces s' in (S n, rest) else (O, s)
  end.

(** The outer [while], over characters instead of bytes: a byte 32 is a character. *)
Fixpoint find_run (fuel : nat) (s : str) : bool :=
  match fuel with
  | O => false
  | S fuel =>
      match s with
      | [] => false
      | c :: s' =>
          if negb (c =? 32) then find_run fuel s'
          else
            let '(run_len, rest) := skip_spaces s in
            if (run_len <? MIN_DEFECT_RUN)%nat then find_run fuel rest
            else if starts_with (chars "//") rest then find_run fuel rest
            else true
      end
  end.

Definition scan_line (file_name : str) (line_no : Z) (raw_line : str) : list Offense :=
  if is_excluded_line file_name line_no then []
  else
    let trimmed_start := trim_start raw_line in
    if bool_decide (trimmed_start = []) then []
    else if starts_with (chars "//") trimmed_start then []
    else
      match find_control 0 trimmed_start with
      | Some pos =>
          [MkOffense file_name line_no
             (chars "<control char at byte " ++ chars (dec20 pos) ++ chars ">")]
      | None =>
          if bool_decide (file_name ∈ CLI_COLUMN_FILES) && str_contains trimmed_start (chars "\n") then []
          else if find_run (length trimmed_start) trimmed_start
          then [MkOffense file_name line_no trimmed_start]
          else []
      end.

Definition scan_file (file_name contents : str) : list Offense :=
  concat (imap (λ idx line, scan_line file_name ((Z.of_nat idx + 1) mod 2 ^ 32) line) (lines contents)).

(** ** The tree *)

#[warnings="-register-all"]
Inductive Node : Type :=
| FileNode (name : str) (contents : option (list Z))
| DirNode (name : str) (readable : bool) (entries : list Node).

(** [Path::extension]: what follows the last dot, unless nothing precedes it. *)
Definition extension (name : str) : option str :=
  let pieces := split 46 name in
  if bool_decide (length pieces = 1%nat) then None
  else if bool_decide (length pieces = 2%nat ∧ head pieces = Some []) then None
  else last pieces.

(** [read_to_string]. *)
Definition read_to_string (contents : option (list Z)) : option str := contents ≫= utf8_decode.

Definition scanned_file (rel : list str) (name : str) (contents : option (list Z)) : option str :=
  if bool_decide (extension name ≠ Some (chars "rs")) then None
  else if is_excluded_dir rel then None
  else read_to_string contents.

(** A directory to visit: its path below the root, whether it can be read, its entries. *)
Definition Dir : Type := list str * bool * list Node.

Definition scan_entry (rel : list str) (acc : list Dir * (nat * list Offense)) (e : Node)
    : list Dir * (nat * list Offense) :=
  let '(stack, (files, offenses)) := acc in
  match e with
  | DirNode name readable entries =>
      if is_excluded_dir (rel ++ [name]) then acc
      else ((rel ++ [name], readable, entries) :: stack, (files, offenses))
  | FileNode name contents =>
      match scanned_file (rel ++ [name]) name contents with
      | Some text => (stack, (S files, offenses ++ scan_file name text))
      | None => acc
      end
  end.

(** The [while let Some(dir) = stack.pop()] loop; [None] when the fuel is used up. *)
Fixpoint scan_dirs (fuel : nat) (stack : list Dir) (acc : nat * list Offense)
    : option (nat * list Offense) :=
  match stack with
  | [] => Some acc
  | (rel, readable, entries) :: stack =>
      match fuel with
      | O => None
      | S fuel =>
          if readable
          then let '(stack, acc) := foldl (scan_entry rel) (stack, acc) entries in scan_dirs fuel stack acc
          else scan_dirs fuel stack acc
      end
  end.

Definition scan_source_tree (fuel : nat) (src_root : list Node) : option (nat * list Offense) :=
  scan_dirs fuel [([], true, src_root)] (O, []).

(** The test: whether its two assertions hold. *)
Definition guard_passes (scan : nat * list Offense) : bool :=
  (MIN_FILES_SCANNED <? scan.1)%nat && bool_decide (scan.2 = []).

(** ** A torn line *)

(** A maximal run of ten or more spaces that no comment follows. *)
Definition torn (s : str) : Prop :=
  ∃ before n rest, s = before ++ replicate n 32 ++ rest ∧ (MIN_DEFECT_RUN ≤ n)%nat ∧
    last before ≠ Some 32 ∧ head rest ≠ Some 32 ∧ starts_with (chars "//") rest = false.

Lemma skip_spaces_spec s n rest :
  skip_spaces s = (n, rest) → s = replicate n 32 ++ rest ∧ head rest ≠ Some 32.
Proof.
  revert n rest. induction s as [|c s IH]; intros n rest; simpl; [by intros [= <- <-]|].
  destruct (Z.eqb_spec c 32) as [->|Hc]; [|intros [= <- <-]; split; [done|simpl; congruence]].
  destruct (skip_spaces s) as [k r]. intros [= <- <-].
  destruct (IH k r eq_refl) as [-> Hr]. done.
Qed.

Lemma torn_cons c s : c ≠ 32 → torn (c :: s) ↔ torn s.
Proof.
  intros Hc. split; intros (before & n & rest & E & Hn & Hl & Hrest).
  - destruct before as [|b before]; simpl in E.
    { destruct n as [|n]; [unfold MIN_DEFECT_RUN in Hn; lia|]. simpl in E. congruence. }
    injection E as -> ->. exists before, n, rest. split_and!; try done; [|apply Hrest..].
    by destruct before.
  - exists (c :: before), n, rest. split_and!; [by rewrite E|done| |apply Hrest..].
    destruct before; simpl; [congruence|done].
Qed.

(** A line that starts with a run of spaces has its torn place after the run, or there. *)
Lemma torn_past_run k s before n rest :
  replicate k 32 ++ s = before ++ replicate n 32 ++ rest → before ≠ [] → last before ≠ Some 32 →
  ∃ before', s = before' ++ replicate n 32 ++ rest ∧ last before' ≠ Some 32.
Proof.
  revert before. induction k as [|k IH]; intros before E Hne Hl; [by exists before|].
  destruct before as [|b before]; [done|]. simpl in E. injection E as <- E.
  destruct before as [|b' before]; [done|]. by apply (IH (b' :: before)).
Qed.

Lemma same_run k n s t :
  replicate k 32 ++ s = replicate n 32 ++ t → head s ≠ Some 32 → head t ≠ Some 32 → k = n ∧ s = t.
Proof.
  revert n. induction k as [|k IH]; intros [|n] E Hs Ht; simpl in E; [done|by subst|by subst|].
  injection E as E. destruct (IH n E Hs Ht) as [-> ->]. done.
Qed.

Lemma torn_run k s :
  head s ≠ Some 32 →
  torn (replicate k 32 ++ s) ↔
  ((MIN_DEFECT_RUN ≤ k)%nat ∧ starts_with (chars "//") s = false) ∨ torn s.
Proof.
  intros Hs. split.
  - intros (before & n & rest & E & Hn & Hl & Hr & Hc). destruct (decide (before = [])) as [->|Hne].
    + simpl in E. destruct (same_run _ _ _ _ E Hs Hr) as [-> ->]. by left.
    + right. destruct (torn_past_run _ _ _ _ _ E Hne Hl) as (before' & -> & Hl').
      by exists before', n, rest.
  - intros [[Hk Hc]|(before & n & rest & -> & Hn & Hl & Hr & Hc)].
    + exists [], k, s. done.
    + exists (replicate k 32 ++ before), n, rest. rewrite app_assoc. split_and!; try done.
      rewrite last_app. destruct (last before) as [x|] eqn:Eb; [done|].
      apply last_None in Eb as ->. destruct n as [|n]; [unfold MIN_DEFECT_RUN in Hn; lia|]. done.
Qed.

Lemma find_run_spec fuel s : (length s ≤ fuel)%nat → find_run fuel s = true ↔ torn s.
Proof.
  assert (¬ torn []) as Hnil.
  { intros (before & n & rest & E & Hn & _). symmetry in E.
    apply app_nil in E as [_ [E _]%app_nil]. unfold MIN_DEFECT_RUN in Hn. destruct n; [lia|done]. }
  revert s. induction fuel as [|fuel IH]; intros [|c s] Hlen; cbn [find_run length] in Hlen |- *;
    try (split; [done|by intros ?%Hnil]); [lia|].
  destruct (Z.eqb_spec c 32) as [->|Hc]; cbn [negb]; [|rewrite torn_cons by done; apply IH; lia].
  cbn [skip_spaces]. rewrite Z.eqb_refl.
  destruct (skip_spaces s) as [k rest] eqn:E. destruct (skip_spaces_spec _ _ _ E) as [-> Hr].
  change (32 :: replicate k 32 ++ rest) with (replicate (S k) 32 ++ rest).
  rewrite torn_run by done. rewrite length_app in Hlen.
  destruct (Nat.ltb_spec (S k) MIN_DEFECT_RUN); [rewrite IH by lia; naive_solver lia|].
  destruct (starts_with _ rest); [rewrite IH by lia; naive_solver|]. naive_solver.
Qed.

Definition defective (line : str) : Prop :=
  let t := trim_start line in
  t ≠ [] ∧ starts_with (chars "//") t = false ∧ ((∃ c, c ∈ t ∧ is_control c = true) ∨ torn t).

Lemma find_control_spec pos s :
  is_Some (find_control pos s) ↔ ∃ c, c ∈ s ∧ is_control c = true.
Proof.
  revert pos. induction s as [|c s IH]; intros pos; simpl.
  { split; [by intros []|by intros (c & ?%not_elem_of_nil & _)]. }
  destruct (is_control c) eqn:E.
  - split; [intros _; exists c; split; [by left|done]|by eexists].
  - rewrite IH. setoid_rewrite elem_of_cons. naive_solver congruence.
Qed.

Lemma scan_line_spec f n line : scan_line f n line = [] ↔ ¬ defective line.
Proof.
  unfold scan_line, defective. set (t := trim_start line).
  change (is_excluded_line f n) with false. cbn zeta iota.
  rewrite (bool_decide_eq_false_2 (f ∈ CLI_COLUMN_FILES)) by apply not_elem_of_nil.
  change (false && str_contains t (chars "\n")) with false. cbn iota.
  case_bool_decide as Ht; [naive_solver|].
  destruct (starts_with (chars "//") t) eqn:Es; [naive_solver|].
  pose proof (find_control_spec 0 t) as Hc. pose proof (find_run_spec (length t) t (le_n _)) as Hr.
  destruct (find_control 0 t) as [pos|].
  - split; [done|]. intros Hno. destruct Hno. split_and!; [done|done|]. left. apply Hc. by eexists.
  - assert (¬ ∃ c, c ∈ t ∧ is_control c = true) as Hnc.
    { intros H. apply Hc in H as [x [=]]. }
    destruct (find_run (length t) t).
    + split; [done|]. intros Hno. destruct Hno. split_and!; [done|done|]. right. by apply Hr.
    + split; [|done]. intros _ (_ & _ & [?|Htorn]); [done|]. by apply Hr in Htorn.
Qed.

Lemma scan_file_spec f text : scan_file f text = [] ↔ ∀ line, line ∈ lines text → ¬ defective line.
Proof.
  unfold scan_file. generalize (lines text). intros ls.
  assert (∀ k, concat (imap (λ i l, scan_line f ((Z.of_nat (k + i) + 1) mod 2 ^ 32) l) ls) = [] ↔
    ∀ line, line ∈ ls → ¬ defective line) as H; [|apply (H O)].
  induction ls as [|l ls IH]; intros k; simpl.
  { split; [by intros _ line ?%not_elem_of_nil|done]. }
  rewrite app_nil, scan_line_spec.
  rewrite (imap_ext _ (λ i l, scan_line f ((Z.of_nat (S k + i) + 1) mod 2 ^ 32) l)).
  2: { intros i x _. simpl. by rewrite Nat.add_succ_r. }
  rewrite IH. setoid_rewrite elem_of_cons. naive_solver.
Qed.

(** ** The files of a tree *)

Fixpoint sources (e : Node) : list (str * str) :=
  match e with
  | FileNode name contents =>
      match scanned_file [] name contents with Some text => [(name, text)] | None => [] end
  | DirNode _ readable entries => if readable then concat (map sources entries) else []
  end.

(** The directories at and below an entry. *)
Fixpoint dirs (e : Node) : nat :=
  match e with
  | FileNode _ _ => O
  | DirNode _ readable entries => S (if readable then sum_list_with dirs entries else O)
  end.

Definition dir_node (d : Dir) : Node := DirNode [] d.1.2 d.2.

Definition dirs_of (stack : list Dir) : nat := sum_list_with (dirs ∘ dir_node) stack.
Definition sources_of (stack : list Dir) : list (str * str) := concat (map (sources ∘ dir_node) stack).

Definition offenses_of (srcs : list (str * str)) : list Offense :=
  concat (map (λ s, scan_file s.1 s.2) srcs).

Lemma never_excluded rel : is_excluded_dir rel = false.
Proof. induction rel as [|c rel IH]; [done|exact IH]. Qed.

Lemma scanned_file_rel rel name contents : scanned_file rel name contents = scanned_file [] name contents.
Proof. unfold scanned_file. by rewrite !never_excluded. Qed.

Lemma scan_entries_spec rel es stack k offs :
  ∃ srcs stack', foldl (scan_entry rel) (stack, (k, offs)) es =
      (stack', ((k + length srcs)%nat, offs ++ offenses_of srcs)) ∧
    dirs_of stack' = (dirs_of stack + sum_list_with dirs es)%nat ∧
    srcs ++ sources_of stack' ≡ₚ concat (map sources es) ++ sources_of stack.
Proof.
  revert stack k offs. induction es as [|e es IH]; intros stack k offs; cbn [foldl map sum_list_with concat].
  { exists [], stack. simpl. rewrite app_nil_r, Nat.add_0_r. split_and!; [done|lia|done]. }
  destruct e as [name contents|name readable entries]; cbn [scan_entry].
  - rewrite scanned_file_rel. cbn [dirs sources].
    destruct (scanned_file [] name contents) as [text|].
    + destruct (IH stack (S k) (offs ++ scan_file name text)) as (srcs & stack' & E & Hd & Hs).
      exists ((name, text) :: srcs), stack'. rewrite E. split_and!; [|lia|].
      * f_equal. f_equal; [simpl; lia|]. unfold offenses_of. simpl. by rewrite <- app_assoc.
      * cbn [app]. by rewrite Hs.
    + destruct (IH stack k offs) as (srcs & stack' & E & Hd & Hs). exists srcs, stack'.
      split_and!; [done|lia|done].
  - rewrite never_excluded. cbn [dirs sources].
    destruct (IH ((rel ++ [name], readable, entries) :: stack) k offs) as (srcs & stack' & E & Hd & Hs).
    exists srcs, stack'. split_and!; [done| |].
    + rewrite Hd. unfold dirs_of. simpl. destruct readable; lia.
    + rewrite Hs. unfold sources_of. simpl. rewrite !app_assoc. f_equiv. apply Permutation_app_comm.
Qed.

Lemma scan_dirs_spec fuel stack k offs :
  (dirs_of stack ≤ fuel)%nat →
  ∃ srcs, scan_dirs fuel stack (k, offs) =
      Some ((k + length srcs)%nat, offs ++ offenses_of srcs) ∧ srcs ≡ₚ sources_of stack.
Proof.
  revert stack k offs. induction fuel as [|fuel IH]; intros [|[[rel readable] es] stack] k offs Hf;
    try (exists []; simpl; by rewrite app_nil_r, Nat.add_0_r);
    unfold dirs_of in Hf; simpl in Hf; [lia|]. cbn [scan_dirs].
  change (sum_list_with (dirs ∘ dir_node) stack) with (dirs_of stack) in Hf.
  destruct readable.
  - destruct (scan_entries_spec rel es stack k offs) as (s1 & stack' & -> & Hd & Hs).
    destruct (IH stack' (k + length s1)%nat (offs ++ offenses_of s1)) as (s2 & -> & Hs2); [lia|].
    exists (s1 ++ s2). split.
    + f_equal. f_equal; [rewrite length_app; lia|]. unfold offenses_of.
      by rewrite map_app, concat_app, app_assoc.
    + rewrite Hs2, Hs. done.
  - destruct (IH stack k offs) as (s2 & -> & Hs2); [lia|]. by exists s2.
Qed.

(** The source guard decides what it means to. For every tree the walk ends, within as many rounds
    as the tree has directories, and the test then passes exactly if more than fifteen readable
    source files are in the tree and none of their lines, indentation and comments apart, carries a
    control character or a run of ten or more spaces that no comment follows. *)
Theorem guard_passes_exactly src_root fuel :
  (dirs (DirNode [] true src_root) ≤ fuel)%nat →
  ∃ scan, scan_source_tree fuel src_root = Some scan ∧
    (guard_passes scan = true ↔
      (MIN_FILES_SCANNED < length (sources (DirNode [] true src_root)))%nat ∧
      ∀ name text line, (name, text) ∈ sources (DirNode [] true src_root) →
        line ∈ lines text → ¬ defective line).
Proof.
  intros Hf. unfold scan_source_tree.
  destruct (scan_dirs_spec fuel [([], true, src_root)] O []) as (srcs & -> & Hs).
  { unfold dirs_of. simpl in *. lia. }
  unfold sources_of in Hs. simpl in Hs. rewrite app_nil_r in Hs.
  eexists. split; [done|]. unfold guard_passes. simpl. rewrite <- Hs.
  rewrite andb_true_iff, Nat.ltb_lt, bool_decide_eq_true. f_equiv.
  unfold offenses_of. rewrite concat_nil_Forall, Forall_map, Forall_forall.
  setoid_rewrite Hs. split.
  - intros Hall name text line Hin. by apply (proj1 (scan_file_spec name text) (Hall (name, text) Hin)).
  - intros Hall [name text] Hin. apply scan_file_spec. intros line. by apply (Hall name text).
Qed.

(** ** Two trees: sixteen sound files, and the same with a torn line in a directory below *)

Definition source_file : Node :=
  FileNode (chars "a.rs") (Some (chars "    let x = 1;            // one")).

Definition torn_file : Node := FileNode (chars "b.rs") (Some (chars "    lost          continuation")).

Definition sound_tree : list Node := replicate 16 source_file ++ [FileNode (chars "notes.txt") None].

Definition torn_tree : list Node := DirNode (chars "sub") true [torn_file] :: sound_tree.

Lemma guard_passes_exactly_witness :
  (∃ scan, scan_source_tree 1 sound_tree = Some scan ∧ guard_passes scan = true ∧
    ∀ name text line, (name, text) ∈ sources (DirNode [] true sound_tree) →
      line ∈ lines text → ¬ defective line) ∧
  (∃ scan, scan_source_tree 2 torn_tree = Some scan ∧ guard_passes scan = false).
Proof.
  split; [|eexists; split; vm_compute; reflexivity].
  destruct (guard_passes_exactly sound_tree 1) as (scan & E & Hp); [apply le_n|].
  exists scan. split; [exact E|].
  assert (guard_passes scan = true) as Hg.
  { vm_compute in E. injection E as <-. reflexivity. }
  split; [exact Hg|]. apply Hp. exact Hg.
Defined.
