(* ===== verification/Http.v ===== *)
(** * The shared listener's HTTP surface (src/http_serve.rs)

    Reading and parsing a request head, deciding whether it is a WebSocket upgrade, replaying its
    bytes to the handshake, and writing the one response of a dashboard connection. A stream is the
    list of bytes it will deliver before it ends; bytes and texts are lists as in Text.v. *)

From S2P Require Import Prelude Net Text.

Definition MAX_HEAD_BYTES : nat := Z.to_nat 16384.

Record RequestHead := MkHead {
  method : str;
  target : str;
  host : option str;
  is_websocket_upgrade : bool }.

(** [RequestHead::path]. *)
Definition path (h : RequestHead) : str := default (target h) (head (split 63 (target h))).

Inductive ErrorKind : Type := HeadEof | InvalidData.

(** An [std::io::Error]: its kind and text. *)
Definition HttpError : Type := ErrorKind * string.

(** ** Parsing *)

(** The header fields the relay looks at, so far. *)
Record Scan := MkScan { sc_host : option str; sc_upgrade : bool; sc_websocket : bool }.

Definition scan_header (st : Scan) (name value : str) : Scan :=
  if eq_ignore_ascii_case name (chars "host") then
    MkScan (Some value) (sc_upgrade st) (sc_websocket st)
  else if eq_ignore_ascii_case name (chars "connection") then
    MkScan (sc_host st)
      (existsb (λ t, eq_ignore_ascii_case (trim t) (chars "upgrade")) (split 44 value))
      (sc_websocket st)
  else if eq_ignore_ascii_case name (chars "upgrade") then
    MkScan (sc_host st) (sc_upgrade st) (eq_ignore_ascii_case value (chars "websocket"))
  else st.

(** The loop over the header lines, up to the first empty one. *)
Fixpoint scan_lines (st : Scan) (lines : list str) : Scan :=
  match lines with
  | [] => st
  | line :: lines' =>
      match line with
      | [] => st
      | _ =>
          match split_once 58 line with
          | None => scan_lines st lines'
          | Some (name, value) => scan_lines (scan_header st (trim name) (trim value)) lines'
          end
      end
  end.

(** [parts.next().filter(|p| !p.is_empty())]. *)
Definition nonempty_at (parts : list str) (i : nat) : option str :=
  match parts !! i with Some (c :: p) => Some (c :: p) | _ => None end.

Definition parse_request_head (bytes : list Z) : result RequestHead HttpError :=
  match utf8_decode bytes with
  | None => Err (InvalidData, "non-UTF-8 request head"%string)
  | Some text =>
      let lines := split_crlf text in
      let parts := split 32 (default [] (lines !! 0%nat)) in
      match nonempty_at parts 0, nonempty_at parts 1 with
      | None, _ => Err (InvalidData, "missing method"%string)
      | Some _, None => Err (InvalidData, "missing request target"%string)
      | Some m, Some t =>
          let st := scan_lines (MkScan None false false) (drop 1 lines) in
          Ok (MkHead (to_ascii_uppercase m) t (sc_host st) (sc_upgrade st && sc_websocket st))
      end
  end.

(** ** Reading *)

Definition CRLF2 : list Z := [13; 10; 13; 10].

(** [buf.ends_with(..)] with the blank line. *)
Definition ends_with_blank (buf : list Z) : bool :=
  bool_decide (drop (length buf - 4) buf = CRLF2).

(** One byte at a time; the stream's end is a read of no byte. *)
Fixpoint read_head_loop (buf stream : list Z) : result (list Z * list Z) HttpError :=
  match stream with
  | [] => Err (HeadEof, "connection closed before a complete HTTP request head"%string)
  | b :: stream' =>
      let buf := buf ++ [b] in
      if ends_with_blank buf then Ok (buf, stream')
      else if (MAX_HEAD_BYTES <=? length buf)%nat then
        Err (InvalidData, "HTTP request head exceeded the size cap"%string)
      else read_head_loop buf stream'
  end.

(** The head, the bytes consumed, and what the stream still holds. *)
Definition read_request_head (stream : list Z)
    : result (RequestHead * list Z * list Z) HttpError :=
  x <-? read_head_loop [] stream;
  h <-? parse_request_head x.1;
  Ok (h, x.1, x.2).

(** ** Replaying *)

Record Prefixed := MkPrefixedHead { px_prefix : list Z; px_pos : nat; px_inner : list Z }.

Definition px_new (prefix inner : list Z) : Prefixed := MkPrefixedHead prefix 0 inner.

(** [poll_read] into a buffer with [cap] bytes free, the inner stream having [avail] bytes ready. *)
Definition px_poll_read (s : Prefixed) (cap avail : nat) : list Z * Prefixed :=
  if (px_pos s <? length (px_prefix s))%nat then
    let remaining := drop (px_pos s) (px_prefix s) in
    let n := Nat.min (length remaining) cap in
    (take n remaining, MkPrefixedHead (px_prefix s) (px_pos s + n) (px_inner s))
  else
    let n := Nat.min cap avail in
    (take n (px_inner s), MkPrefixedHead (px_prefix s) (px_pos s) (drop n (px_inner s))).

Fixpoint px_read_all (s : Prefixed) (reads : list (nat * nat)) : list Z * Prefixed :=
  match reads with
  | [] => ([], s)
  | (cap, avail) :: reads' =>
      let '(bs, s') := px_poll_read s cap avail in
      let '(rest, s'') := px_read_all s' reads' in
      (bs ++ rest, s'')
  end.

(** Everything the stream will still deliver. *)
Definition px_content (s : Prefixed) : list Z := drop (px_pos s) (px_prefix s) ++ px_inner s.

(** ** Responding *)

Definition crlf : str := [13; 10].

Definition header_line (h : str * str) : str := h.1 ++ chars ": " ++ h.2.

(** The bytes [write_response] writes. A [usize] has at most 20 decimal digits. *)
Definition write_response (status : Z) (reason : str) (headers : list (str * str))
    (body : list Z) : list Z :=
  let head := chars "HTTP/1.1 " ++ chars (dec_string status) ++ chars " " ++ reason ++ crlf in
  let head := head ++ concat (map (λ h, header_line h ++ crlf) headers) in
  let head :=
    head ++ chars "Content-Length: " ++
    chars (digits 20 10 (Z.of_nat (length body)) EmptyString) ++ crlf in
  let head := head ++ chars "Connection: close" ++ crlf ++ crlf in
  utf8_encode head ++ body.

(** ** Where a head ends *)

Definition terminated (l : list Z) : Prop := ∃ a, l = a ++ CRLF2.

(** Ends with a blank line, and no proper prefix does. *)
Definition first_blank (l : list Z) : Prop :=
  terminated l ∧ ∀ p q, l = p ++ q → q ≠ [] → ¬ terminated p.

Lemma ends_with_blank_spec buf : ends_with_blank buf = true ↔ terminated buf.
Proof.
  unfold ends_with_blank. rewrite bool_decide_eq_true. split.
  - intros E. exists (take (length buf - 4) buf). by rewrite <- E, take_drop.
  - intros [a ->]. rewrite length_app. change (length CRLF2) with 4%nat.
    by rewrite Nat.add_sub, drop_app_length.
Qed.

(** The loop stops at the first blank line within the cap, and nowhere else. *)
Lemma read_head_loop_Ok buf stream consumed rest :
  (length buf < MAX_HEAD_BYTES)%nat → (∀ p q, buf = p ++ q → ¬ terminated p) →
  read_head_loop buf stream = Ok (consumed, rest) ↔
  buf ++ stream = consumed ++ rest ∧ first_blank consumed ∧
  (length consumed ≤ MAX_HEAD_BYTES)%nat.
Proof.
  revert buf. induction stream as [|b stream IH]; intros buf Hlen Hbuf; cbn [read_head_loop].
  - split; [done|]. intros (E & [Ht _] & _). rewrite app_nil_r in E.
    by destruct (Hbuf consumed rest E).
  - assert (buf ++ b :: stream = (buf ++ [b]) ++ stream) as Eapp by by rewrite <- app_assoc.
    destruct (ends_with_blank (buf ++ [b])) eqn:Hend.
    + apply ends_with_blank_spec in Hend. rewrite Eapp.
      assert (first_blank (buf ++ [b])) as Hfb.
      { split; [done|]. intros p q E Hq. destruct q as [|x q _] using rev_ind; [done|].
        rewrite app_assoc in E. apply app_inj_tail in E as [E _]. by eapply Hbuf. }
      split.
      * intros [= <- <-]. split_and!; [done|done|]. rewrite length_app. simpl. lia.
      * intros (E & Hc & _). apply app_eq_app in E as (k & [[E1 E2]|[E1 E2]]).
        -- destruct k as [|x k]; [rewrite app_nil_r in E1; simpl in E2; congruence|].
           by destruct (proj2 Hfb _ _ E1 ltac:(done) (proj1 Hc)).
        -- destruct k as [|x k]; [rewrite app_nil_r in E1; simpl in E2; congruence|].
           by destruct (proj2 Hc _ _ E1 ltac:(done) (proj1 Hfb)).
    + assert (¬ terminated (buf ++ [b])) as Hnt.
      { rewrite <- ends_with_blank_spec, Hend. done. }
      destruct (Nat.leb_spec MAX_HEAD_BYTES (length (buf ++ [b]))) as [Hle|Hgt].
      * split; [done|]. intros (E & Hc & Hcap). exfalso. rewrite Eapp in E.
        apply app_eq_app in E as (k & [[E1 E2]|[E1 E2]]).
        -- destruct k as [|x k _] using rev_ind.
           { rewrite app_nil_r in E1. apply Hnt. rewrite E1. apply Hc. }
           rewrite app_assoc in E1. apply app_inj_tail in E1 as [E1 _].
           exact (Hbuf _ _ E1 (proj1 Hc)).
        -- rewrite E1, length_app in Hcap. destruct k as [|x k]; [|simpl in Hcap; lia].
           rewrite app_nil_r in E1. apply Hnt. rewrite <- E1. apply Hc.
      * rewrite Eapp. apply IH; [done|]. intros p q E. destruct q as [|x q _] using rev_ind.
        { rewrite app_nil_r in E. by subst p. }
        rewrite app_assoc in E. apply app_inj_tail in E as [E _]. by eapply Hbuf.
Qed.

(** Lines without CR, none of them empty, closed by an empty one. *)
Definition render_lines (lines : list (list Z)) : list Z :=
  concat (map (λ l, l ++ [13; 10]) lines) ++ [13; 10].

Definition plain_line (l : list Z) : Prop := l ≠ [] ∧ 13 ∉ l.

Lemma terminated_past_line p q l R :
  13 ∉ l → p ++ q = l ++ 13 :: 10 :: R → terminated p →
  (∃ p', p = l ++ 13 :: 10 :: p' ∧ (terminated p' ∨ p' = [13; 10])).
Proof.
  intros Hl E [a ->]. revert l Hl E. induction a as [|x a IH]; intros l Hl E.
  - destruct l as [|y l]; simpl in E.
    + exists [13; 10]. split; [done|]. by right.
    + injection E as E0 E. exfalso. apply Hl. rewrite <- E0. by left.
  - destruct l as [|y l]; simpl in E; injection E as -> E.
    + destruct a as [|x a]; simpl in E; [done|]. injection E as -> E.
      exists (a ++ CRLF2). split; [done|]. left. by exists a.
    + apply not_elem_of_cons in Hl as [_ Hl]. destruct (IH l Hl E) as (p' & Ep & Hp').
      exists p'. split; [|done]. simpl. by rewrite Ep.
Qed.

(** Such a text ends where its first blank line is. *)
Lemma render_lines_first_blank lines :
  lines ≠ [] → Forall plain_line lines → first_blank (render_lines lines).
Proof.
  intros Hne Hl. split.
  - destruct lines as [|l lines _] using rev_ind; [done|]. unfold render_lines.
    rewrite map_app, concat_app. simpl. rewrite app_nil_r, <- !app_assoc.
    eexists (concat _ ++ l). rewrite <- app_assoc. reflexivity.
  - clear Hne. induction Hl as [|l lines [Hne Hcr] Hl IH]; intros p q E Hq Hp.
    + unfold render_lines in E. simpl in E. destruct Hp as [a ->].
      apply (f_equal length) in E. rewrite !length_app in E. simpl in E. lia.
    + assert (p ++ q = l ++ 13 :: 10 :: render_lines lines) as E'.
      { rewrite <- E. unfold render_lines. simpl. by rewrite <- !app_assoc. }
      destruct (terminated_past_line _ _ _ _ Hcr E' Hp) as (p' & -> & Hp').
      rewrite <- app_assoc in E'. apply app_inv_head in E'. simpl in E'. injection E' as E'.
      destruct Hp' as [Ht| ->]; [by eapply (IH p' q)|].
      destruct lines as [|l' lines].
      * unfold render_lines in E'. simpl in E'. by injection E'.
      * apply Forall_cons in Hl as [[Hne' Hcr'] _]. unfold render_lines in E'. simpl in E'.
        destruct l' as [|y l']; [done|]. simpl in E'. injection E' as <- _. apply Hcr'. by left.
Qed.

Lemma read_request_head_spec stream h consumed rest :
  read_request_head stream = Ok (h, consumed, rest) ↔
  stream = consumed ++ rest ∧ first_blank consumed ∧ Z.of_nat (length consumed) ≤ 16384 ∧
  parse_request_head consumed = Ok h.
Proof.
  unfold read_request_head.
  assert (∀ c r, read_head_loop [] stream = Ok (c, r) ↔
    stream = c ++ r ∧ first_blank c ∧ Z.of_nat (length c) ≤ 16384) as Hloop.
  { intros c r. rewrite (read_head_loop_Ok []).
    - unfold MAX_HEAD_BYTES. split; intros (? & ? & ?); (split_and!; [done..|lia]).
    - unfold MAX_HEAD_BYTES. simpl length. lia.
    - intros p q E [a ->]. by destruct a. }
  destruct (read_head_loop [] stream) as [[c r]|e]; cbn [result_bind fst snd].
  - destruct (proj1 (Hloop c r) eq_refl) as (E & Hb & Hcap). split.
    + destruct (parse_request_head c) eqn:Hp; simpl; [|done]. intros [= <- <- <-]. done.
    + intros (E' & Hb' & Hcap' & Hp).
      pose proof (proj2 (Hloop consumed rest) (conj E' (conj Hb' Hcap'))) as [= -> ->].
      by rewrite Hp.
  - split; [done|]. intros (E & Hb & Hcap & _).
    by pose proof (proj2 (Hloop consumed rest) (conj E (conj Hb Hcap))).
Qed.

(** ** Requests *)

Definition request_line (m t : str) : str := m ++ 32 :: t ++ 32 :: chars "HTTP/1.1".

(** The text of a request with method [m], target [t] and header fields [hs]. *)
Definition render_request (m t : str) (hs : list (str * str)) : str :=
  render_lines (request_line m t :: map header_line hs).

(** The last field of a name, whatever its case. *)
Fixpoint last_header (name : string) (hs : list (str * str)) : option str :=
  match hs with
  | [] => None
  | (n, v) :: hs' =>
      match last_header name hs' with
      | Some v' => Some v'
      | None => if eq_ignore_ascii_case n (chars name) then Some v else None
      end
  end.

(** The last [Connection] field lists the token upgrade and the last [Upgrade] field is websocket. *)
Definition wants_websocket (hs : list (str * str)) : Prop :=
  (∃ v t, last_header "connection" hs = Some v ∧ t ∈ split 44 v ∧
     to_ascii_lowercase (trim t) = chars "upgrade") ∧
  (∃ v, last_header "upgrade" hs = Some v ∧ to_ascii_lowercase v = chars "websocket").

Definition token (s : str) : Prop := s ≠ [] ∧ (32 ∉ s) ∧ (13 ∉ s) ∧ Forall is_scalar s.

Definition good_field (h : str * str) : Prop :=
  (58 ∉ h.1) ∧ (13 ∉ h.1) ∧ (13 ∉ h.2) ∧ tight h.1 ∧ tight h.2 ∧
  Forall is_scalar h.1 ∧ Forall is_scalar h.2.

Lemma split_crlf_render lines :
  Forall (λ l, 13 ∉ l) lines → split_crlf (render_lines lines) = lines ++ [[]; []].
Proof.
  unfold render_lines. induction 1 as [|l lines Hl _ IH]; [done|].
  cbn [map concat]. rewrite <- !app_assoc. simpl. by rewrite split_crlf_cons, IH.
Qed.

Lemma utf8_encode_render lines :
  utf8_encode (render_lines lines) = render_lines (map utf8_encode lines).
Proof.
  unfold render_lines. rewrite utf8_encode_app. f_equal.
  induction lines as [|l lines IH]; simpl; [done|]. by rewrite !utf8_encode_app, IH.
Qed.

Lemma scan_lines_fields st hs :
  Forall good_field hs →
  scan_lines st (map header_line hs ++ [[]; []]) = foldl (λ st h, scan_header st h.1 h.2) st hs.
Proof.
  intros Hs. revert st. induction Hs as [|[n v] hs Hh _ IH]; intros st; [done|].
  destruct Hh as (Hc & _ & _ & Hn & Hv & _). cbn [fst snd] in *.
  cbn [map app scan_lines foldl fst snd]. unfold header_line at 1. cbn [fst snd].
  change (n ++ chars ": " ++ v) with (n ++ 58 :: 32 :: v).
  destruct (n ++ 58 :: 32 :: v) eqn:E; [by destruct n|]. clear E. change (header_line (n, v)) with (n ++ 58 :: 32 :: v).
  rewrite split_once_app by done. rewrite trim_space, !trim_tight by done. apply IH.
Qed.

(** The scan keeps the last field of each of the three names. *)
Definition scanned (st : Scan) (hs : list (str * str)) : Scan :=
  MkScan
    (match last_header "host" hs with Some v => Some v | None => sc_host st end)
    (match last_header "connection" hs with
     | Some v => existsb (λ t, eq_ignore_ascii_case (trim t) (chars "upgrade")) (split 44 v)
     | None => sc_upgrade st
     end)
    (match last_header "upgrade" hs with
     | Some v => eq_ignore_ascii_case v (chars "websocket")
     | None => sc_websocket st
     end).

Lemma eq_ignore_exclusive n (s t : string) :
  to_ascii_lowercase (chars s) ≠ to_ascii_lowercase (chars t) →
  eq_ignore_ascii_case n (chars s) = true → eq_ignore_ascii_case n (chars t) = false.
Proof.
  unfold eq_ignore_ascii_case. rewrite bool_decide_eq_true, bool_decide_eq_false. congruence.
Qed.

Lemma scan_header_scanned st n v hs :
  scanned (scan_header st n v) hs = scanned st ((n, v) :: hs).
Proof.
  unfold scanned, scan_header. cbn [last_header].
  destruct (eq_ignore_ascii_case n (chars "host")) eqn:Eh.
  { rewrite (eq_ignore_exclusive n "host" "connection"), (eq_ignore_exclusive n "host" "upgrade")
      by done. simpl. repeat case_match; congruence. }
  destruct (eq_ignore_ascii_case n (chars "connection")) eqn:Ec.
  { rewrite (eq_ignore_exclusive n "connection" "upgrade") by done.
    simpl. repeat case_match; congruence. }
  destruct (eq_ignore_ascii_case n (chars "upgrade")) eqn:Eu; simpl; repeat case_match; congruence.
Qed.

Lemma foldl_scan st hs : foldl (λ st h, scan_header st h.1 h.2) st hs = scanned st hs.
Proof.
  revert st. induction hs as [|[n v] hs IH]; intros st; [by destruct st|].
  cbn [foldl fst snd]. by rewrite IH, scan_header_scanned.
Qed.

Lemma wants_websocket_scanned hs :
  let st := scanned (MkScan None false false) hs in
  sc_upgrade st && sc_websocket st = true ↔ wants_websocket hs.
Proof.
  cbn [scanned sc_upgrade sc_websocket]. rewrite andb_true_iff. unfold wants_websocket.
  f_equiv.
  - destruct (last_header "connection" hs) as [v|]; [|by naive_solver].
    rewrite existsb_exists. unfold eq_ignore_ascii_case. setoid_rewrite bool_decide_eq_true.
    split; [intros (t & ? & ?)|intros (v' & t & [= <-] & ? & ?)].
    + exists v, t. split_and!; [done|by apply list_elem_of_In|done].
    + exists t. split; [by apply list_elem_of_In|done].
  - destruct (last_header "upgrade" hs) as [v|]; [|by naive_solver].
    unfold eq_ignore_ascii_case. rewrite bool_decide_eq_true.
    split; [by exists v|by intros (? & [= <-] & ?)].
Qed.

(** The lines of a well-formed request. *)
Lemma request_lines_plain m t hs :
  token m → token t → Forall good_field hs →
  Forall (λ l, l ≠ [] ∧ (13 ∉ l) ∧ Forall is_scalar l) (request_line m t :: map header_line hs).
Proof.
  intros (Hm & Hm1 & Hm2 & Hm3) (Ht & Ht1 & Ht2 & Ht3) Hs. constructor.
  - unfold request_line. split; [by destruct m|]. split.
    + rewrite !not_elem_of_app, !not_elem_of_cons, !not_elem_of_app. split_and!; try done.
      apply (bool_decide_unpack _). vm_compute. exact I.
    + apply Forall_app. split; [done|]. constructor; [by left|]. apply Forall_app.
      split; [done|]. apply (bool_decide_unpack _). vm_compute. exact I.
  - apply Forall_fmap. eapply Forall_impl; [exact Hs|].
    intros [n v] (H1 & H2 & H3 & _ & _ & H6 & H7). unfold header_line. simpl in *. split_and!.
    + by destruct n.
    + rewrite !not_elem_of_app, !not_elem_of_cons. done.
    + apply Forall_app. split; [done|]. constructor; [by left|]. constructor; [by left|done].
Qed.

Lemma utf8_decode_request m t hs :
  token m → token t → Forall good_field hs →
  utf8_decode (utf8_encode (render_request m t hs)) = Some (render_request m t hs).
Proof.
  intros Hm Ht Hs. pose proof (request_lines_plain m t hs Hm Ht Hs) as Hlines.
  apply utf8_decode_encode. unfold render_request, render_lines.
  assert (Forall is_scalar [13; 10]) as Hcrlf by (repeat constructor; done).
  apply Forall_app. split; [|done]. apply Forall_concat, Forall_fmap.
  eapply Forall_impl; [exact Hlines|]. intros l (_ & _ & Hl). by apply Forall_app.
Qed.

Lemma parse_request m t hs :
  token m → token t → Forall good_field hs →
  let st := scanned (MkScan None false false) hs in
  parse_request_head (utf8_encode (render_request m t hs)) =
    Ok (MkHead (to_ascii_uppercase m) t (sc_host st) (sc_upgrade st && sc_websocket st)).
Proof.
  intros Hm Ht Hs st. pose proof (request_lines_plain m t hs Hm Ht Hs) as Hlines.
  unfold parse_request_head. rewrite utf8_decode_request by done. unfold render_request.
  rewrite split_crlf_render by (eapply Forall_impl; [exact Hlines|]; by intros l (_ & ? & _)).
  cbn [app]. change (drop 1 (?x :: ?l)) with l.
  rewrite scan_lines_fields, foldl_scan by done.
  destruct Hm as (Hm & Hm1 & _), Ht as (Ht & Ht1 & _).
  change (default [] (_ !! 0%nat)) with (request_line m t).
  unfold request_line. rewrite !split_cons by done.
  unfold nonempty_at. simpl. by destruct m, t.
Qed.

(** C39: a well-formed request is understood. Its head is read to its end, the bytes are handed back
    unchanged beside the rest of the stream, and the parsed head has the upper-cased method, the
    target as sent, the last Host field, and is a WebSocket upgrade exactly when the last
    Connection field lists upgrade and the last Upgrade field is websocket, in any case. *)
Theorem request_roundtrip m t hs rest :
  token m → token t → Forall good_field hs →
  Z.of_nat (length (utf8_encode (render_request m t hs))) ≤ 16384 →
  ∃ h, read_request_head (utf8_encode (render_request m t hs) ++ rest) =
         Ok (h, utf8_encode (render_request m t hs), rest) ∧
    method h = to_ascii_uppercase m ∧ target h = t ∧ host h = last_header "host" hs ∧
    (is_websocket_upgrade h = true ↔ wants_websocket hs).
Proof.
  intros Hm Ht Hs Hlen. pose proof (request_lines_plain m t hs Hm Ht Hs) as Hlines.
  eexists. split.
  { apply read_request_head_spec. split_and!; [done| |done|by apply parse_request].
    unfold render_request. rewrite utf8_encode_render. apply render_lines_first_blank; [done|].
    apply Forall_fmap. eapply Forall_impl; [exact Hlines|]. intros l (H1 & H2 & H3).
    split; [by apply utf8_encode_nonempty|by apply utf8_encode_ascii]. }
  split_and!; [done|done| |apply wants_websocket_scanned].
  simpl. by destruct (last_header "host" hs).
Qed.

(** C38: the request-head reader takes exactly the bytes up to the first blank line, at most 16384 of
    them, and leaves the rest of the stream alone: it succeeds if and only if there is such a head
    and it parses. *)
Theorem read_request_head_exact stream h consumed rest :
  read_request_head stream = Ok (h, consumed, rest) ↔
  stream = consumed ++ rest ∧ first_blank consumed ∧ Z.of_nat (length consumed) ≤ 16384 ∧
  parse_request_head consumed = Ok h.
Proof. apply read_request_head_spec. Qed.

(** ** Replaying *)

Lemma px_poll_read_content s cap avail :
  let '(out, s') := px_poll_read s cap avail in out ++ px_content s' = px_content s.
Proof.
  unfold px_poll_read, px_content. destruct (Nat.ltb_spec (px_pos s) (length (px_prefix s))); simpl.
  - rewrite <- drop_drop, app_assoc. f_equal. apply take_drop.
  - rewrite drop_ge by done. simpl. apply take_drop.
Qed.

Lemma px_read_all_content s reads :
  let '(out, s') := px_read_all s reads in out ++ px_content s' = px_content s.
Proof.
  revert s. induction reads as [|[cap avail] reads IH]; intros s; simpl; [done|].
  pose proof (px_poll_read_content s cap avail) as Hs.
  destruct (px_poll_read s cap avail) as [bs s']. specialize (IH s').
  destruct (px_read_all s' reads) as [rest s'']. rewrite <- app_assoc. by rewrite IH.
Qed.

Lemma px_poll_read_progress s cap avail :
  (0 < cap)%nat → (0 < avail)%nat → px_content s ≠ [] → (px_poll_read s cap avail).1 ≠ [].
Proof.
  unfold px_poll_read, px_content. intros Hc Ha Hne.
  destruct (Nat.ltb_spec (px_pos s) (length (px_prefix s))) as [Hlt|Hge]; simpl.
  - destruct (drop (px_pos s) (px_prefix s)) as [|x l] eqn:E.
    + apply (f_equal length) in E. rewrite length_drop in E. simpl in E. lia.
    + destruct cap; [lia|]. done.
  - rewrite drop_ge in Hne by done. simpl in Hne. destruct (px_inner s) as [|x l]; [done|].
    destruct cap, avail; try lia. done.
Qed.

(** Peeking is invisible. After the head of a request was read, the stream handed to the
    WebSocket handshake delivers exactly the original bytes, in order, however it is read, and a
    read with room returns at least one of them as long as some are left. *)
Theorem peeked_head_replayed stream h consumed rest reads :
  read_request_head stream = Ok (h, consumed, rest) →
  let '(out, s) := px_read_all (px_new consumed rest) reads in
  out ++ px_content s = stream ∧
  ∀ cap avail, (0 < cap)%nat → (0 < avail)%nat → px_content s ≠ [] →
    (px_poll_read s cap avail).1 ≠ [].
Proof.
  intros (-> & _)%read_request_head_spec.
  pose proof (px_read_all_content (px_new consumed rest) reads) as Hr.
  destruct (px_read_all _ _) as [out s]. split; [done|]. intros. by apply px_poll_read_progress.
Qed.

(** ** Responses *)

Definition plain_text (s : str) : Prop := (13 ∉ s) ∧ Forall is_scalar s.

Lemma plain_app s t : plain_text s → plain_text t → plain_text (s ++ t).
Proof.
  intros [? ?] [? ?]. split; [rewrite not_elem_of_app; done|by apply Forall_app].
Qed.

Lemma plain_number s : Forall is_digit_char s → plain_text s.
Proof.
  unfold is_digit_char. intros Hs. split.
  - intros Hin. eapply Forall_forall in Hs; [|exact Hin]. simpl in Hs. lia.
  - eapply Forall_impl; [exact Hs|]. unfold is_scalar. simpl. lia.
Qed.

Lemma plain_chars s :
  forallb (λ c, (0 <=? c) && (c <? 128) && negb (c =? 13)) (chars s) = true → plain_text (chars s).
Proof.
  rewrite forallb_forall. intros Hs. split.
  - intros Hin%list_elem_of_In%Hs. done.
  - apply Forall_forall. intros c Hc%list_elem_of_In%Hs. propify. unfold is_scalar. lia.
Qed.

(** The lines of a response with a body of [n] bytes. *)
Definition response_lines (status : Z) (reason : str) (hs : list (str * str)) (n : nat)
    : list str :=
  (chars "HTTP/1.1 " ++ chars (dec_string status) ++ chars " " ++ reason) :: map header_line hs ++
  [chars "Content-Length: " ++ chars (digits 20 10 (Z.of_nat n) EmptyString);
   chars "Connection: close"].

Lemma write_response_lines status reason hs body :
  write_response status reason hs body =
    utf8_encode (render_lines (response_lines status reason hs (length body))) ++ body.
Proof.
  unfold write_response, render_lines, response_lines. do 2 f_equal.
  cbn [map concat]. rewrite map_app, map_map, concat_app. cbn [map concat]. unfold crlf.
  rewrite !app_nil_r, <- !app_assoc. done.
Qed.

Lemma response_lines_plain status reason hs n :
  plain_text reason → Forall (λ h, plain_text h.1 ∧ plain_text h.2) hs →
  Forall (λ l, l ≠ [] ∧ plain_text l) (response_lines status reason hs n).
Proof.
  intros Hr Hs.
  assert (∀ f k, plain_text (chars (digits f 10 k EmptyString))) as Hnum.
  { intros. apply plain_number, chars_digits; [lia|constructor]. }
  assert (∀ k, plain_text (chars (dec_string k))) as Hdec by (intros; apply Hnum).
  constructor; [split; [done|]; repeat apply plain_app; by first [apply Hdec|done|apply plain_chars]|].
  apply Forall_app. split.
  - apply Forall_fmap. eapply Forall_impl; [exact Hs|]. intros [m v] [Hn Hv].
    unfold header_line. cbn [fst snd] in *. split; [by destruct m|].
    repeat apply plain_app; by first [done|apply plain_chars].
  - rewrite !Forall_cons. split_and!; [done| |done| |constructor].
    + apply plain_app; [by apply plain_chars|apply Hnum].
    + by apply plain_chars.
Qed.

(** No response splitting. When no header field or reason holds a carriage return, the response
    is its lines in order, the length of the body among them, then the body; the head ends at its
    first blank line, so no part of the body can be read as a header field nor the reverse. *)
Theorem response_framed status reason hs body :
  plain_text reason → Forall (λ h, plain_text h.1 ∧ plain_text h.2) hs →
  let head := utf8_encode (render_lines (response_lines status reason hs (length body))) in
  write_response status reason hs body = head ++ body ∧ first_blank head.
Proof.
  intros Hr Hs head. split; [apply write_response_lines|]. unfold head.
  rewrite utf8_encode_render. apply render_lines_first_blank; [done|].
  apply Forall_fmap. eapply Forall_impl; [by apply response_lines_plain|].
  intros l (H1 & H2 & H3). split; [by apply utf8_encode_nonempty|by apply utf8_encode_ascii].
Qed.

(** ** Witnesses *)

Definition ws_fields : list (str * str) :=
  [(chars "Host", chars "relay.dig.net"); (chars "connection", chars "keep-alive, Upgrade");
   (chars "UPGRADE", chars "WebSocket")].

Definition ws_request : list Z :=
  utf8_encode (render_request (chars "get") (chars "/?full=1") ws_fields).

Lemma request_roundtrip_witness :
  ∃ h, read_request_head (ws_request ++ [1; 2; 3]) = Ok (h, ws_request, [1; 2; 3]) ∧
    method h = chars "GET" ∧ is_websocket_upgrade h = true.
Proof.
  destruct (request_roundtrip (chars "get") (chars "/?full=1") ws_fields [1; 2; 3])
    as (h & Hr & Hm & _ & _ & Hw).
  - apply (bool_decide_unpack _). vm_compute. exact I.
  - apply (bool_decide_unpack _). vm_compute. exact I.
  - repeat (constructor; [split_and!; try (apply (bool_decide_unpack _); vm_compute; exact I);
      split; intros c Hc; vm_compute in Hc; injection Hc as <-; reflexivity|]). constructor.
  - vm_compute. discriminate.
  - exists h. split; [exact Hr|]. split; [exact Hm|]. apply Hw. split.
    + exists (chars "keep-alive, Upgrade"), (chars " Upgrade"). split; [reflexivity|].
      split; [right; left|reflexivity].
    + exists (chars "WebSocket"). split; reflexivity.
Defined.

Lemma peeked_head_replayed_witness :
  ∃ h, read_request_head (ws_request ++ [1; 2; 3]) = Ok (h, ws_request, [1; 2; 3]) ∧
    let '(out, s) := px_read_all (px_new ws_request [1; 2; 3]) [(7, 7); (500, 9); (2, 9)]%nat in
    out ++ px_content s = ws_request ++ [1; 2; 3] ∧ px_content s = [3].
Proof.
  eexists. split; [vm_compute; reflexivity|].
  destruct (px_read_all (px_new ws_request [1; 2; 3]) [(7, 7); (500, 9); (2, 9)]%nat)
    as [out s] eqn:E.
  pose proof (peeked_head_replayed (ws_request ++ [1; 2; 3])
    (default (MkHead [] [] None false)
       (match read_request_head (ws_request ++ [1; 2; 3]) with
        | Ok (h, _, _) => Some h | Err _ => None end))
    ws_request [1; 2; 3] [(7, 7); (500, 9); (2, 9)]%nat) as Hp.
  rewrite E in Hp. split.
  - apply Hp. vm_compute. reflexivity.
  - vm_compute in E. injection E as <- <-. reflexivity.
Defined.

Lemma response_framed_witness :
  let head := utf8_encode (render_lines
    (response_lines 200 (chars "OK") [(chars "Content-Type", chars "text/html")] 2)) in
  write_response 200 (chars "OK") [(chars "Content-Type", chars "text/html")] [60; 62] =
    head ++ [60; 62] ∧ first_blank head.
Proof.
  apply (response_framed 200 (chars "OK") [(chars "Content-Type", chars "text/html")] [60; 62]).
  - apply plain_chars. reflexivity.
  - constructor; [|constructor]. split; apply plain_chars; reflexivity.
Defined.
