(* ===== verification/Config.v ===== *)
(** * Relay configuration (src/config.rs)

    The configuration record, its defaults and [validate]. A [Duration] is a number of nanoseconds.
    Paths are strings. *)

From S2P Require Import Prelude Net ProxyProtocol.
Local Open Scope string_scope.
Local Open Scope Z_scope.

(** ** Durations *)

Definition Duration : Type := Z.
Definition from_secs (s : Z) : Duration := s * 1000000000.
Definition from_millis (ms : Z) : Duration := ms * 1000000.
Definition is_zero (d : Duration) : bool := d =? 0.
Definition as_millis (d : Duration) : Z := d / 1000000.

(** [as_millis() as u64]: the cast truncates. *)
Definition as_millis_u64 (d : Duration) : Z := wrap64 (as_millis d).

(** ** Defaults *)

Definition DEFAULT_RELAY_PORT : Z := 9450.
Definition DEFAULT_HEALTH_PORT : Z := 9451.
Definition DEFAULT_DASHBOARD_PORT : Z := 8080.
Definition DEFAULT_STUN_PORT : Z := 3478.
Definition DEFAULT_MAX_CONNECTIONS : Z := 4096.
Definition DEFAULT_IDLE_TIMEOUT_SECS : Z := 120.
Definition DEFAULT_STUN_PER_IP_RESPONSES_PER_SEC : Z := 5.
Definition DEFAULT_STUN_GLOBAL_RESPONSES_PER_SEC : Z := 1000.
Definition DEFAULT_OUTBOUND_QUEUE_CAPACITY : Z := 1024.
Definition DEFAULT_MAX_MESSAGE_BYTES : Z := 256 * 1024.
Definition DEFAULT_REGISTER_TIMEOUT_SECS : Z := 10.
Definition DEFAULT_HEALTH_CHECK_INTERVAL_SECS : Z := 30.
Definition DEFAULT_LIVENESS_DEADLINE_SECS : Z := 90.
Definition DEFAULT_MAX_CONNECTIONS_PER_IP : Z := 64.
Definition DEFAULT_REGISTRATIONS_PER_IP_PER_SEC : Z := 10.
Definition DEFAULT_MAX_REGISTRATIONS_PER_IP : Z := 128.
Definition DEFAULT_MESSAGES_PER_CONN_PER_SEC : Z := 256.
Definition DEFAULT_BYTES_PER_CONN_PER_SEC : Z := 1048576.
Definition DEFAULT_MAX_RELAYED_BYTES_PER_CONN : Z := 1073741824.
Definition DEFAULT_BAN_THRESHOLD : Z := 20.
Definition DEFAULT_BAN_DURATION_SECS : Z := 300.
Definition DEFAULT_BAN_STRIKE_WINDOW_SECS : Z := 60.

Record RelayServerConfig := MkConfig {
  listen : SocketAddr;
  health_listen : SocketAddr;
  dashboard_listen : SocketAddr;
  stun_listen : SocketAddr;
  max_connections : Z;
  idle_timeout : Duration;
  stun_per_ip_responses_per_sec : Z;
  stun_global_responses_per_sec : Z;
  outbound_queue_capacity : Z;
  max_message_bytes : Z;
  register_timeout : Duration;
  health_check_interval : Duration;
  liveness_deadline : Duration;
  tls_cert_path : option string;
  tls_key_path : option string;
  max_connections_per_ip : Z;
  registrations_per_ip_per_sec : Z;
  max_registrations_per_ip : Z;
  messages_per_conn_per_sec : Z;
  bytes_per_conn_per_sec : Z;
  max_relayed_bytes_per_conn : Z;
  ban_threshold : Z;
  ban_duration : Duration;
  ban_strike_window : Duration;
  trusted_proxies : TrustedProxies }.

Definition config_default : RelayServerConfig := {|
  listen := sa_new (IpV6 V6_UNSPECIFIED) DEFAULT_RELAY_PORT;
  health_listen := sa_new (IpV6 V6_UNSPECIFIED) DEFAULT_HEALTH_PORT;
  dashboard_listen := sa_new (IpV6 V6_UNSPECIFIED) DEFAULT_DASHBOARD_PORT;
  stun_listen := sa_new (IpV6 V6_UNSPECIFIED) DEFAULT_STUN_PORT;
  max_connections := DEFAULT_MAX_CONNECTIONS;
  idle_timeout := from_secs DEFAULT_IDLE_TIMEOUT_SECS;
  stun_per_ip_responses_per_sec := DEFAULT_STUN_PER_IP_RESPONSES_PER_SEC;
  stun_global_responses_per_sec := DEFAULT_STUN_GLOBAL_RESPONSES_PER_SEC;
  outbound_queue_capacity := DEFAULT_OUTBOUND_QUEUE_CAPACITY;
  max_message_bytes := DEFAULT_MAX_MESSAGE_BYTES;
  register_timeout := from_secs DEFAULT_REGISTER_TIMEOUT_SECS;
  health_check_interval := from_secs DEFAULT_HEALTH_CHECK_INTERVAL_SECS;
  liveness_deadline := from_secs DEFAULT_LIVENESS_DEADLINE_SECS;
  tls_cert_path := None;
  tls_key_path := None;
  max_connections_per_ip := DEFAULT_MAX_CONNECTIONS_PER_IP;
  registrations_per_ip_per_sec := DEFAULT_REGISTRATIONS_PER_IP_PER_SEC;
  max_registrations_per_ip := DEFAULT_MAX_REGISTRATIONS_PER_IP;
  messages_per_conn_per_sec := DEFAULT_MESSAGES_PER_CONN_PER_SEC;
  bytes_per_conn_per_sec := DEFAULT_BYTES_PER_CONN_PER_SEC;
  max_relayed_bytes_per_conn := DEFAULT_MAX_RELAYED_BYTES_PER_CONN;
  ban_threshold := DEFAULT_BAN_THRESHOLD;
  ban_duration := from_secs DEFAULT_BAN_DURATION_SECS;
  ban_strike_window := from_secs DEFAULT_BAN_STRIKE_WINDOW_SECS;
  trusted_proxies := trusted_default
|}.

Definition is_some {A} (o : option A) : bool := match o with Some _ => true | None => false end.

Definition validate (c : RelayServerConfig) : result unit string :=
  if max_connections c =? 0 then Err "max_connections must be >= 1"
  else if is_zero (idle_timeout c) then Err "idle_timeout must be > 0"
  else if outbound_queue_capacity c =? 0 then Err "outbound_queue_capacity must be >= 1"
  else if max_message_bytes c =? 0 then Err "max_message_bytes must be >= 1"
  else if is_zero (register_timeout c) then Err "register_timeout must be > 0"
  else if is_zero (health_check_interval c) then Err "health_check_interval must be > 0"
  else if is_zero (liveness_deadline c) then Err "liveness_deadline must be > 0"
  else if liveness_deadline c <? health_check_interval c
    then Err "liveness_deadline must be >= health_check_interval"
  else if idle_timeout c <=? liveness_deadline c
    then Err "liveness_deadline must be < idle_timeout (idle timeout is the longer backstop)"
  else if negb (eqb (is_some (tls_cert_path c)) (is_some (tls_key_path c)))
    then Err "tls_cert_path and tls_key_path must be set together"
  else if negb (max_connections_per_ip c =? 0) && (max_connections c <? max_connections_per_ip c)
    then Err "max_connections_per_ip must be <= max_connections"
  else if negb (ban_threshold c =? 0) && is_zero (ban_duration c)
    then Err "ban_duration must be > 0 when ban_threshold > 0"
  else if negb (ban_threshold c =? 0) && is_zero (ban_strike_window c)
    then Err "ban_strike_window must be > 0 when ban_threshold > 0"
  else Ok tt.

(** The fields are unsigned, so a configuration the program can hold has no negative value. *)
Definition unsigned_config (c : RelayServerConfig) : Prop :=
  0 ≤ max_connections c ∧ 0 ≤ idle_timeout c ∧ 0 ≤ outbound_queue_capacity c ∧
  0 ≤ max_message_bytes c ∧ 0 ≤ register_timeout c ∧ 0 ≤ health_check_interval c ∧
  0 ≤ liveness_deadline c ∧ is_u32 (max_connections_per_ip c) ∧
  is_u32 (registrations_per_ip_per_sec c) ∧ is_u32 (max_registrations_per_ip c) ∧
  is_u32 (messages_per_conn_per_sec c) ∧ is_u32 (bytes_per_conn_per_sec c) ∧
  is_u64 (max_relayed_bytes_per_conn c) ∧ is_u32 (ban_threshold c) ∧
  0 ≤ ban_duration c ∧ 0 ≤ ban_strike_window c.

Global Instance unsigned_config_dec c : Decision (unsigned_config c).
Proof. unfold unsigned_config; apply _. Defined.

(** What the configuration has to satisfy for the server to make sense: capacities and timeouts are
    positive, sweeps happen at least once per liveness deadline, the sweep reclaims a dead peer
    before the idle timeout would, a TLS identity is complete, the per-IP cap can bind, and an
    enabled ban list can ban. *)
Definition coherent (c : RelayServerConfig) : Prop :=
  (1 ≤ max_connections c ∧ 1 ≤ outbound_queue_capacity c ∧ 1 ≤ max_message_bytes c) ∧
  (0 < register_timeout c ∧ 0 < health_check_interval c) ∧
  (health_check_interval c ≤ liveness_deadline c < idle_timeout c) ∧
  (is_Some (tls_cert_path c) ↔ is_Some (tls_key_path c)) ∧
  (max_connections_per_ip c ≤ max_connections c) ∧
  (ban_threshold c ≠ 0 → 0 < ban_duration c ∧ 0 < ban_strike_window c).

Lemma is_some_spec {A} (o : option A) : is_some o = true ↔ is_Some o.
Proof. destruct o; simpl; [split; eauto|]. split; [done|intros [? ?]; done]. Qed.

Lemma validate_spec c :
  unsigned_config c → validate c = Ok tt ↔ coherent c.
Proof.
  unfold unsigned_config, coherent, validate, is_zero, is_u32. intros Hu. destruct_and! Hu.
  rewrite !guard_Ok, <- !is_some_spec, !andb_false_iff, !negb_false_iff, !Z.eqb_eq, !Z.eqb_neq,
    !Z.ltb_ge, !Z.leb_gt, eqb_true_iff.
  destruct (is_some (tls_cert_path c)), (is_some (tls_key_path c));
    split; intros Hc; repeat split; try congruence; try lia; destruct_and! Hc; try tauto; lia.
Qed.

(** ** Properties *)

(** [validate] accepts exactly the coherent configurations: every rejected configuration breaks
    one of the constraints, and every constraint is enforced. *)
Theorem validate_coherent c :
  unsigned_config c → validate c = Ok tt ↔ coherent c.
Proof. apply validate_spec. Qed.

Lemma validate_coherent_witness : validate config_default = Ok tt ↔ coherent config_default.
Proof. apply validate_coherent. apply (bool_decide_unpack _). vm_compute. exact I. Defined.

(** The default configuration validates, listens on the IPv6 wildcard on the documented ports
    and trusts no proxy: under it no source address is ever taken from a PROXY header. *)
Theorem config_default_valid :
  validate config_default = Ok tt ∧ coherent config_default ∧
  (∀ ip, trusts (trusted_proxies config_default) ip = Some false) ∧
  Forall (λ a, sa_ip a = IpV6 V6_UNSPECIFIED)
    [listen config_default; health_listen config_default; dashboard_listen config_default;
     stun_listen config_default].
Proof.
  split; [reflexivity|]. split; [|by repeat constructor].
  unfold coherent; simpl. repeat split; try (by intros [? ?]); vm_compute; done.
Qed.
