(* ===== verification/Environment.v ===== *)
(** * Configuration from the environment and the command line

    What [install] stores in a service's environment and [config_from_env] reads back
    (src/src/service.rs), and the command line's overrides ([Cli], [apply_overrides], [config_from]
    in src/src/main.rs). The environment maps names to byte strings; a value that is not UTF-8 reads
    as absent, as [std::env::var] has it. Parsing the arguments themselves is clap's. *)

From S2P Require Import Prelude Net Text ProxyProtocol NetText SockText Config.

Definition as_secs (d : Duration) : Z := d / 1000000000.

(** ** The stored environment *)

Definition tls_environment_pairs (c : RelayServerConfig) : list (string * string) :=
  match tls_cert_path c, tls_key_path c with
  | Some cert, Some key =>
      [("DIG_RELAY_TLS_CERT_PATH"%string, cert); ("DIG_RELAY_TLS_KEY_PATH"%string, key)]
  | _, _ => []
  end.

Definition install_environment (c : RelayServerConfig) : list (string * string) :=
  [("DIG_RELAY_LISTEN"%string, sa_to_string (listen c));
   ("DIG_RELAY_HEALTH_LISTEN"%string, sa_to_string (health_listen c));
   ("DIG_RELAY_DASHBOARD_LISTEN"%string, sa_to_string (dashboard_listen c));
   ("DIG_RELAY_STUN_LISTEN"%string, sa_to_string (stun_listen c));
   ("DIG_RELAY_MAX_CONNECTIONS"%string, dec20 (max_connections c));
   ("DIG_RELAY_MAX_CONNECTIONS_PER_IP"%string, dec20 (max_connections_per_ip c));
   ("DIG_RELAY_REGISTRATIONS_PER_IP_PER_SEC"%string, dec20 (registrations_per_ip_per_sec c));
   ("DIG_RELAY_MAX_REGISTRATIONS_PER_IP"%string, dec20 (max_registrations_per_ip c));
   ("DIG_RELAY_MESSAGES_PER_CONN_PER_SEC"%string, dec20 (messages_per_conn_per_sec c));
   ("DIG_RELAY_BYTES_PER_CONN_PER_SEC"%string, dec20 (bytes_per_conn_per_sec c));
   ("DIG_RELAY_MAX_RELAYED_BYTES_PER_CONN"%string, dec20 (max_relayed_bytes_per_conn c));
   ("DIG_RELAY_BAN_THRESHOLD"%string, dec20 (ban_threshold c));
   ("DIG_RELAY_BAN_DURATION_SECS"%string, dec20 (as_secs (ban_duration c)));
   ("DIG_RELAY_BAN_STRIKE_WINDOW_SECS"%string, dec20 (as_secs (ban_strike_window c)))]
  ++ tls_environment_pairs c.

(** ** Reading it back *)

Definition Env : Type := string → option string.

(** The environment of a process started with the given pairs. *)
Fixpoint env_of (pairs : list (string * string)) : Env := λ k,
  match pairs with
  | [] => None
  | (k', v) :: pairs => if decide (k = k') then Some v else env_of pairs k
  end.

(** [std::env::var(k).ok()]. *)
Definition env_var (env : Env) (k : string) : option str := v ← env k; utf8_decode (chars v).

Definition env_addr (env : Env) (k : string) : option SocketAddr :=
  s ← env_var env k; parse_socket_addr s.
Definition env_uint (limit : Z) (env : Env) (k : string) : option Z :=
  s ← env_var env k; parse_uint limit s.
Definition env_secs (env : Env) (k : string) : option Duration :=
  from_secs <$> env_uint u64_max env k.
Definition env_path (env : Env) (k : string) : option string :=
  v ← env k; _ ← env_var env k; Some v.

(** [if let Some(x) = o { field = x }]. *)
Definition assign {A} (field : A) (o : option A) : A := default field o.

(** [usize] is 64 bits wide. An error is the panic of a malformed proxy list. *)
Definition config_from_env (env : Env) : result RelayServerConfig str :=
  let c := config_default in
  proxies <-?
    match env_var env "DIG_RELAY_TRUSTED_PROXY_CIDRS" with
    | Some l =>
        match trusted_parse l with
        | Ok t => Ok t
        | Err e => Err (chars "DIG_RELAY_TRUSTED_PROXY_CIDRS is invalid: " ++ e)
        end
    | None => Ok (trusted_proxies c)
    end;
  Ok {|
    listen := assign (listen c) (env_addr env "DIG_RELAY_LISTEN");
    health_listen := assign (health_listen c) (env_addr env "DIG_RELAY_HEALTH_LISTEN");
    dashboard_listen := assign (dashboard_listen c) (env_addr env "DIG_RELAY_DASHBOARD_LISTEN");
    stun_listen := assign (stun_listen c) (env_addr env "DIG_RELAY_STUN_LISTEN");
    max_connections := assign (max_connections c) (env_uint u64_max env "DIG_RELAY_MAX_CONNECTIONS");
    idle_timeout := idle_timeout c;
    stun_per_ip_responses_per_sec :=
      assign (stun_per_ip_responses_per_sec c) (env_uint u32_max env "DIG_RELAY_STUN_PER_IP_RPS");
    stun_global_responses_per_sec :=
      assign (stun_global_responses_per_sec c) (env_uint u32_max env "DIG_RELAY_STUN_GLOBAL_RPS");
    outbound_queue_capacity :=
      assign (outbound_queue_capacity c) (env_uint u64_max env "DIG_RELAY_OUTBOUND_QUEUE_CAPACITY");
    max_message_bytes :=
      assign (max_message_bytes c) (env_uint u64_max env "DIG_RELAY_MAX_MESSAGE_BYTES");
    register_timeout := assign (register_timeout c) (env_secs env "DIG_RELAY_REGISTER_TIMEOUT_SECS");
    health_check_interval :=
      assign (health_check_interval c) (env_secs env "DIG_RELAY_HEALTH_CHECK_INTERVAL_SECS");
    liveness_deadline :=
      assign (liveness_deadline c) (env_secs env "DIG_RELAY_LIVENESS_DEADLINE_SECS");
    tls_cert_path := match env_path env "DIG_RELAY_TLS_CERT_PATH" with
                     | Some p => Some p | None => tls_cert_path c end;
    tls_key_path := match env_path env "DIG_RELAY_TLS_KEY_PATH" with
                    | Some p => Some p | None => tls_key_path c end;
    max_connections_per_ip :=
      assign (max_connections_per_ip c) (env_uint u32_max env "DIG_RELAY_MAX_CONNECTIONS_PER_IP");
    registrations_per_ip_per_sec :=
      assign (registrations_per_ip_per_sec c)
        (env_uint u32_max env "DIG_RELAY_REGISTRATIONS_PER_IP_PER_SEC");
    max_registrations_per_ip :=
      assign (max_registrations_per_ip c) (env_uint u32_max env "DIG_RELAY_MAX_REGISTRATIONS_PER_IP");
    messages_per_conn_per_sec :=
      assign (messages_per_conn_per_sec c)
        (env_uint u32_max env "DIG_RELAY_MESSAGES_PER_CONN_PER_SEC");
    bytes_per_conn_per_sec :=
      assign (bytes_per_conn_per_sec c) (env_uint u32_max env "DIG_RELAY_BYTES_PER_CONN_PER_SEC");
    max_relayed_bytes_per_conn :=
      assign (max_relayed_bytes_per_conn c)
        (env_uint u64_max env "DIG_RELAY_MAX_RELAYED_BYTES_PER_CONN");
    ban_threshold := assign (ban_threshold c) (env_uint u32_max env "DIG_RELAY_BAN_THRESHOLD");
    ban_duration := assign (ban_duration c) (env_secs env "DIG_RELAY_BAN_DURATION_SECS");
    ban_strike_window :=
      assign (ban_strike_window c) (env_secs env "DIG_RELAY_BAN_STRIKE_WINDOW_SECS");
    trusted_proxies := proxies
  |}.

(** ** The command line *)

Inductive ScopeChoice : Type := Auto | System | User.

Global Instance ScopeChoice_eq_dec : EqDecision ScopeChoice.
Proof. solve_decision. Defined.

Inductive Command : Type := CServe | CInstall | CUninstall | CStart | CStop | CStatus | CRunService.

(** The parsed arguments. *)
Record Cli := MkCli {
  command : option Command;
  json_output : bool;
  scope : ScopeChoice;
  cli_listen : option SocketAddr;
  cli_health_listen : option SocketAddr;
  cli_dashboard_listen : option SocketAddr;
  cli_stun_listen : option SocketAddr;
  cli_max_connections : option Z;
  cli_idle_timeout_secs : option Z;
  cli_stun_per_ip_rps : option Z;
  cli_stun_global_rps : option Z;
  cli_outbound_queue_capacity : option Z;
  cli_max_message_bytes : option Z;
  cli_register_timeout_secs : option Z;
  cli_health_check_interval_secs : option Z;
  cli_liveness_deadline_secs : option Z;
  cli_max_connections_per_ip : option Z;
  cli_registrations_per_ip_per_sec : option Z;
  cli_max_registrations_per_ip : option Z;
  cli_messages_per_conn_per_sec : option Z;
  cli_bytes_per_conn_per_sec : option Z;
  cli_max_relayed_bytes_per_conn : option Z;
  cli_ban_threshold : option Z;
  cli_ban_duration_secs : option Z;
  cli_ban_strike_window_secs : option Z;
  tls_cert : option string;
  tls_key : option string }.

Definition assign_some {A} (field o : option A) : option A :=
  match o with Some x => Some x | None => field end.

Definition apply_overrides (c : RelayServerConfig) (cli : Cli) : RelayServerConfig := {|
  listen := assign (listen c) (cli_listen cli);
  health_listen := assign (health_listen c) (cli_health_listen cli);
  dashboard_listen := assign (dashboard_listen c) (cli_dashboard_listen cli);
  stun_listen := assign (stun_listen c) (cli_stun_listen cli);
  max_connections := assign (max_connections c) (cli_max_connections cli);
  idle_timeout := assign (idle_timeout c) (from_secs <$> cli_idle_timeout_secs cli);
  stun_per_ip_responses_per_sec :=
    assign (stun_per_ip_responses_per_sec c) (cli_stun_per_ip_rps cli);
  stun_global_responses_per_sec :=
    assign (stun_global_responses_per_sec c) (cli_stun_global_rps cli);
  outbound_queue_capacity := assign (outbound_queue_capacity c) (cli_outbound_queue_capacity cli);
  max_message_bytes := assign (max_message_bytes c) (cli_max_message_bytes cli);
  register_timeout := assign (register_timeout c) (from_secs <$> cli_register_timeout_secs cli);
  health_check_interval :=
    assign (health_check_interval c) (from_secs <$> cli_health_check_interval_secs cli);
  liveness_deadline := assign (liveness_deadline c) (from_secs <$> cli_liveness_deadline_secs cli);
  tls_cert_path := assign_some (tls_cert_path c) (tls_cert cli);
  tls_key_path := assign_some (tls_key_path c) (tls_key cli);
  max_connections_per_ip := assign (max_connections_per_ip c) (cli_max_connections_per_ip cli);
  registrations_per_ip_per_sec :=
    assign (registrations_per_ip_per_sec c) (cli_registrations_per_ip_per_sec cli);
  max_registrations_per_ip := assign (max_registrations_per_ip c) (cli_max_registrations_per_ip cli);
  messages_per_conn_per_sec :=
    assign (messages_per_conn_per_sec c) (cli_messages_per_conn_per_sec cli);
  bytes_per_conn_per_sec := assign (bytes_per_conn_per_sec c) (cli_bytes_per_conn_per_sec cli);
  max_relayed_bytes_per_conn :=
    assign (max_relayed_bytes_per_conn c) (cli_max_relayed_bytes_per_conn cli);
  ban_threshold := assign (ban_threshold c) (cli_ban_threshold cli);
  ban_duration := assign (ban_duration c) (from_secs <$> cli_ban_duration_secs cli);
  ban_strike_window := assign (ban_strike_window c) (from_secs <$> cli_ban_strike_window_secs cli);
  trusted_proxies := trusted_proxies c
|}.

Definition config_from (env : Env) (cli : Cli) : result RelayServerConfig str :=
  c <-? config_from_env env; Ok (apply_overrides c cli).

(** ** The round trip through a service's environment *)

(** A path that is text. *)
Definition text (p : string) : Prop := is_Some (utf8_decode (chars p)).

(** What an installed service runs with: the stored settings, and the defaults of the others. *)
Definition installed (c : RelayServerConfig) : RelayServerConfig :=
  let d := config_default in
  let both := is_some (tls_cert_path c) && is_some (tls_key_path c) in
  {|
    listen := listen c;
    health_listen := health_listen c;
    dashboard_listen := dashboard_listen c;
    stun_listen := stun_listen c;
    max_connections := max_connections c;
    idle_timeout := idle_timeout d;
    stun_per_ip_responses_per_sec := stun_per_ip_responses_per_sec d;
    stun_global_responses_per_sec := stun_global_responses_per_sec d;
    outbound_queue_capacity := outbound_queue_capacity d;
    max_message_bytes := max_message_bytes d;
    register_timeout := register_timeout d;
    health_check_interval := health_check_interval d;
    liveness_deadline := liveness_deadline d;
    tls_cert_path := if both then tls_cert_path c else None;
    tls_key_path := if both then tls_key_path c else None;
    max_connections_per_ip := max_connections_per_ip c;
    registrations_per_ip_per_sec := registrations_per_ip_per_sec c;
    max_registrations_per_ip := max_registrations_per_ip c;
    messages_per_conn_per_sec := messages_per_conn_per_sec c;
    bytes_per_conn_per_sec := bytes_per_conn_per_sec c;
    max_relayed_bytes_per_conn := max_relayed_bytes_per_conn c;
    ban_threshold := ban_threshold c;
    ban_duration := ban_duration c;
    ban_strike_window := ban_strike_window c;
    trusted_proxies := trusted_proxies d
  |}.

Lemma env_of_here k v pairs : env_of ((k, v) :: pairs) k = Some v.
Proof. simpl. by rewrite decide_True. Qed.

Lemma env_of_next k k' v pairs : k ≠ k' → env_of ((k', v) :: pairs) k = env_of pairs k.
Proof. intros ?. simpl. by rewrite decide_False. Qed.

Lemma env_of_app l l' k :
  env_of (l ++ l') k = match env_of l k with Some v => Some v | None => env_of l' k end.
Proof. induction l as [|[k' v] l IH]; [done|]. simpl. by destruct (decide (k = k')). Qed.

(** ASCII text decodes to itself. *)
Lemma utf8_decode_ascii s : Forall (λ c, 0 ≤ c < 128) s → utf8_decode s = Some s.
Proof.
  intros Hs. assert (utf8_encode s = s) as E.
  { induction Hs as [|c s Hc _ IH]; [done|]. unfold utf8_encode in *. cbn [map concat]. rewrite IH.
    unfold utf8_char. by rewrite (proj2 (Z.ltb_lt c 0x80)) by lia. }
  rewrite <- E at 1. apply utf8_decode_encode. eapply Forall_impl; [exact Hs|].
  intros c Hc. left. simpl in Hc. lia.
Qed.

Lemma addr_char_ascii s : Forall addr_char s → Forall (λ c, 0 ≤ c < 128) s.
Proof.
  intros Hs. eapply Forall_impl; [exact Hs|]. unfold addr_char, is_digit_char. simpl. lia.
Qed.

Lemma sa_string_ascii a : Forall (λ c, 0 ≤ c < 128) (chars (sa_to_string a)).
Proof.
  assert (∀ s : string, Forall addr_char (chars s) → Forall (λ c, 0 ≤ c < 128) (chars s)) as Ha
    by (intros; by apply addr_char_ascii).
  assert (∀ fuel n, Forall (λ c, 0 ≤ c < 128) (chars (digits fuel 10 n EmptyString))) as Hd
    by (intros; by apply Ha, addr_char_number).
  destruct a as [ip port|ip port flow scope_id]; simpl; rewrite !chars_app, !Forall_app.
  - split_and!; [apply Ha, addr_char_v4|by repeat constructor|apply Hd].
  - split_and!; [by repeat constructor|apply Ha, (addr_char_ip (IpV6 ip))| |by repeat constructor|
      apply Hd].
    destruct (scope_id =? 0); [constructor|]. rewrite chars_app, Forall_app.
    split; [by repeat constructor|apply Hd].
Qed.

Section stored.
Context (env : Env) (k : string).

Lemma env_var_ascii v :
  env k = Some v → Forall (λ c, 0 ≤ c < 128) (chars v) → env_var env k = Some (chars v).
Proof. intros E Hv. unfold env_var. rewrite E. by apply utf8_decode_ascii. Qed.

Lemma stored_addr a : env k = Some (sa_to_string a) → wf_sa a → env_addr env k = Some a.
Proof.
  intros E Ha. unfold env_addr. rewrite (env_var_ascii _ E) by apply sa_string_ascii.
  by apply parse_socket_addr_printed.
Qed.

Lemma stored_uint limit n :
  env k = Some (dec20 n) → 0 ≤ n ≤ limit → limit ≤ u64_max → env_uint limit env k = Some n.
Proof.
  intros E Hn Hl. unfold env_uint.
  rewrite (env_var_ascii _ E) by (by apply addr_char_ascii, addr_char_number).
  apply parse_uint_printed; [lia|done|]. unfold u64_max in Hl. simpl. lia.
Qed.

Lemma stored_secs d n :
  env k = Some (dec20 (as_secs d)) → d = from_secs n → is_u64 n → env_secs env k = Some d.
Proof.
  intros E -> Hn. unfold as_secs, from_secs in *. rewrite Z.div_mul in E by lia.
  unfold env_secs. by rewrite (stored_uint u64_max n E) by (unfold is_u64 in Hn; lia).
Qed.

Lemma stored_path p : env k = Some p → text p → env_path env k = Some p.
Proof. unfold env_path, env_var. intros -> [s Hs]. cbn [mbind option_bind]. by rewrite Hs. Qed.

Lemma env_absent :
  env k = None → env_var env k = None ∧ (∀ limit, env_uint limit env k = None) ∧
    env_secs env k = None ∧ env_path env k = None.
Proof. unfold env_secs, env_uint, env_path, env_var. by intros ->. Qed.
End stored.

Lemma env_uint_absent env k limit : env k = None → env_uint limit env k = None.
Proof. intros E. by apply env_absent in E as (_ & -> & _). Qed.
Lemma env_secs_absent env k : env k = None → env_secs env k = None.
Proof. intros E. by apply env_absent in E as (_ & _ & -> & _). Qed.

(** ** Configurations are well-typed *)

Definition seconds (d : Duration) : Prop := ∃ n, is_u64 n ∧ d = from_secs n.

(** Every field is within its type, addresses and proxy blocks are well-formed. *)
Record typed_config (c : RelayServerConfig) : Prop := {
  ty_addrs : Forall wf_sa [listen c; health_listen c; dashboard_listen c; stun_listen c];
  ty_sizes : Forall is_u64 [max_connections c; outbound_queue_capacity c; max_message_bytes c;
    max_relayed_bytes_per_conn c];
  ty_limits : Forall is_u32 [stun_per_ip_responses_per_sec c; stun_global_responses_per_sec c;
    max_connections_per_ip c; registrations_per_ip_per_sec c; max_registrations_per_ip c;
    messages_per_conn_per_sec c; bytes_per_conn_per_sec c; ban_threshold c];
  ty_durations : Forall seconds [idle_timeout c; register_timeout c; health_check_interval c;
    liveness_deadline c; ban_duration c; ban_strike_window c];
  ty_proxies : Forall wf_cidr (trusted_proxies c) }.

Definition opt_all {A} (P : A → Prop) (o : option A) : Prop := ∀ x, o = Some x → P x.

Record typed_cli (cli : Cli) : Prop := {
  tc_addrs : Forall (opt_all wf_sa)
    [cli_listen cli; cli_health_listen cli; cli_dashboard_listen cli; cli_stun_listen cli];
  tc_sizes : Forall (opt_all is_u64)
    [cli_max_connections cli; cli_outbound_queue_capacity cli; cli_max_message_bytes cli;
     cli_max_relayed_bytes_per_conn cli];
  tc_limits : Forall (opt_all is_u32)
    [cli_stun_per_ip_rps cli; cli_stun_global_rps cli; cli_max_connections_per_ip cli;
     cli_registrations_per_ip_per_sec cli; cli_max_registrations_per_ip cli;
     cli_messages_per_conn_per_sec cli; cli_bytes_per_conn_per_sec cli; cli_ban_threshold cli];
  tc_durations : Forall (opt_all is_u64)
    [cli_idle_timeout_secs cli; cli_register_timeout_secs cli; cli_health_check_interval_secs cli;
     cli_liveness_deadline_secs cli; cli_ban_duration_secs cli; cli_ban_strike_window_secs cli] }.

Lemma assign_all {A} (P : A → Prop) x o : P x → opt_all P o → P (assign x o).
Proof. intros Hx Ho. destruct o; [by apply Ho|done]. Qed.

Lemma env_addr_all env k : opt_all wf_sa (env_addr env k).
Proof. intros a (s & _ & E)%bind_Some. by eapply parse_socket_addr_wf. Qed.

Lemma env_uint_all limit env k : 0 ≤ limit → opt_all (λ n, 0 ≤ n ≤ limit) (env_uint limit env k).
Proof. intros Hl n (s & _ & E)%bind_Some. by eapply parse_uint_bound. Qed.

Lemma env_secs_all env k : opt_all seconds (env_secs env k).
Proof.
  intros d (n & E & ->)%fmap_Some. exists n. split; [|done].
  by apply (env_uint_all u64_max env k ltac:(done)) in E.
Qed.

Lemma secs_all o : opt_all is_u64 o → opt_all seconds (from_secs <$> o).
Proof. intros Ho d (n & -> & ->)%fmap_Some. exists n. split; [by apply Ho|done]. Qed.

Lemma default_seconds n : is_u64 n → seconds (from_secs n).
Proof. by exists n. Qed.

Lemma typed_default : typed_config config_default.
Proof.
  split; simpl.
  - apply (bool_decide_unpack _). vm_compute. exact I.
  - repeat constructor; vm_compute; discriminate.
  - repeat constructor; vm_compute; discriminate.
  - repeat constructor; apply default_seconds; split; vm_compute; discriminate.
  - constructor.
Qed.

Lemma typed_from_env env c : config_from_env env = Ok c → typed_config c.
Proof.
  destruct typed_default as [Da Ds Dl Dd Dp]. unfold config_from_env.
  destruct (match env_var env _ with Some _ => _ | None => _ end) as [t|e] eqn:Et;
    simpl result_bind; [|done]. intros [= <-].
  rewrite !Forall_cons in Da. rewrite !Forall_cons in Ds. rewrite !Forall_cons in Dl.
  rewrite !Forall_cons in Dd. destruct_and! Da. destruct_and! Ds. destruct_and! Dl. destruct_and! Dd.
  split; cbn -[u32_max u64_max config_default].
  - repeat constructor; apply assign_all; auto using env_addr_all.
  - repeat apply Forall_cons_2; try apply Forall_nil_2; apply assign_all; auto using env_uint_all.
    all: by apply env_uint_all.
  - repeat apply Forall_cons_2; try apply Forall_nil_2; apply assign_all; auto.
    all: by apply env_uint_all.
  - repeat apply Forall_cons_2; try apply Forall_nil_2; try done;
      apply assign_all; auto using env_secs_all.
  - destruct (env_var env "DIG_RELAY_TRUSTED_PROXY_CIDRS") as [l|]; [|by injection Et as <-].
    destruct (trusted_parse l) as [t'|] eqn:El; [|done]. injection Et as <-.
    by apply trusted_parse_blocks in El as [_ ?].
Qed.

Lemma typed_overrides c cli : typed_config c → typed_cli cli → typed_config (apply_overrides c cli).
Proof.
  intros [Da Ds Dl Dd Dp] [Ca Cs Cl Cd].
  rewrite !Forall_cons in Da. rewrite !Forall_cons in Ds. rewrite !Forall_cons in Dl.
  rewrite !Forall_cons in Dd. rewrite !Forall_cons in Ca. rewrite !Forall_cons in Cs.
  rewrite !Forall_cons in Cl. rewrite !Forall_cons in Cd.
  destruct_and! Da. destruct_and! Ds. destruct_and! Dl. destruct_and! Dd.
  destruct_and! Ca. destruct_and! Cs. destruct_and! Cl. destruct_and! Cd.
  split; cbn -[u32_max u64_max]; [| | | |done];
    repeat apply Forall_cons_2; try apply Forall_nil_2; apply assign_all; auto using secs_all.
Qed.

Lemma seconds_nonneg d : seconds d → 0 ≤ d.
Proof. intros (n & [Hn _] & ->). unfold from_secs. lia. Qed.

Lemma typed_unsigned c : typed_config c → unsigned_config c.
Proof.
  intros [_ Ds Dl Dd _]. rewrite !Forall_cons in Ds. rewrite !Forall_cons in Dl.
  rewrite !Forall_cons in Dd. destruct_and! Ds. destruct_and! Dl. destruct_and! Dd.
  repeat match goal with H : seconds _ |- _ => apply seconds_nonneg in H end.
  unfold unsigned_config, is_u64, is_u32 in *. tauto.
Qed.

Lemma installed_valid c :
  typed_config c → validate c = Ok tt → validate (installed c) = Ok tt.
Proof.
  intros Ht%typed_unsigned. pose proof Ht as Hu. unfold unsigned_config in Hu. destruct_and! Hu.
  assert (unsigned_config (installed c)) as Hi.
  { unfold unsigned_config, installed. simpl. unfold from_secs. split_and!; try done; lia. }
  rewrite validate_spec by done. rewrite validate_spec by done.
  unfold coherent, installed, from_secs. simpl. intros Hc. destruct_and! Hc.
  split_and!; try done; try lia.
  destruct (tls_cert_path c), (tls_key_path c); simpl; split; intros [? ?]; try done; eauto.
Qed.

Lemma typed_config_from env cli c : typed_cli cli → config_from env cli = Ok c → typed_config c.
Proof.
  unfold config_from. intros Hcli. destruct (config_from_env env) as [b|] eqn:E; [|done].
  intros [= <-]. apply typed_overrides; [by eapply typed_from_env|done].
Qed.

(** ** Properties *)

(** What the environment says of the trusted proxies. *)
Lemma proxies_from_env env cli :
  match env_var env "DIG_RELAY_TRUSTED_PROXY_CIDRS" with
  | Some l =>
      match trusted_parse l with
      | Ok t => ∃ c, config_from env cli = Ok c ∧ trusted_proxies c = t
      | Err e => config_from env cli = Err (chars "DIG_RELAY_TRUSTED_PROXY_CIDRS is invalid: " ++ e)
      end
  | None => ∃ c, config_from env cli = Ok c ∧ trusted_proxies c = []
  end.
Proof.
  unfold config_from, config_from_env. destruct (env_var env _) as [l|]; [|by eexists].
  destruct (trusted_parse l); [by eexists|done].
Qed.

(** C20: whatever the environment, a configuration the program starts from is well-typed: every number
    within its type, every duration a whole number of seconds, every address and proxy block
    well-formed, so that the proxy test never indexes out of range and [validate] decides coherence.
    It trusts exactly the proxies of the list the environment sets, or none where it sets none. The
    start is refused exactly when the list is set and does not parse, with the parser's error: a
    malformed list is never taken for the empty one. *)
Theorem config_typed env cli :
  typed_cli cli →
  let list := env_var env "DIG_RELAY_TRUSTED_PROXY_CIDRS" in
  (∀ c, config_from env cli = Ok c →
     typed_config c ∧ (validate c = Ok tt ↔ coherent c) ∧
     match list with
     | Some l => trusted_parse l = Ok (trusted_proxies c)
     | None => trusted_proxies c = []
     end ∧
     ∀ ip, wf_ip ip →
       trusts (trusted_proxies c) ip = Some (bool_decide (Exists (λ b, in_block b ip) (trusted_proxies c)))) ∧
  (∀ msg, config_from env cli = Err msg ↔
     ∃ l e, list = Some l ∧ trusted_parse l = Err e ∧
       msg = chars "DIG_RELAY_TRUSTED_PROXY_CIDRS is invalid: " ++ e).
Proof.
  intros Hcli list. pose proof (proxies_from_env env cli) as Hp. fold list in Hp. split.
  - intros c E. pose proof (typed_config_from env cli c Hcli E) as Ht.
    split_and!; [done|by apply validate_spec, typed_unsigned| |].
    + destruct list as [l|]; [destruct (trusted_parse l) as [t|e] eqn:El|].
      * destruct Hp as (c' & E' & <-). congruence.
      * congruence.
      * destruct Hp as (c' & E' & <-). congruence.
    + intros ip Hip. apply trusts_spec_aux; [apply Ht|done].
  - intros msg. split.
    + intros E. destruct list as [l|]; [destruct (trusted_parse l) as [t|e] eqn:El|].
      * destruct Hp as (c' & E' & _). congruence.
      * exists l, e. rewrite El. split_and!; congruence.
      * destruct Hp as (c' & E' & _). congruence.
    + intros (l & e & El & Ee & ->). by rewrite El, Ee in Hp.
Qed.

(** A stored variable is one of the fourteen every installation has, or one of the TLS pair. *)
Lemma stored_split c k :
  env_of (install_environment c) k =
  match env_of (take 14 (install_environment c)) k with
  | Some v => Some v
  | None => env_of (tls_environment_pairs c) k
  end.
Proof. unfold install_environment. by rewrite env_of_app. Qed.

Lemma stored_in c k v :
  env_of (take 14 (install_environment c)) k = Some v → env_of (install_environment c) k = Some v.
Proof. intros E. by rewrite stored_split, E. Qed.

Lemma stored_out c k :
  env_of (take 14 (install_environment c)) k = None →
  k ≠ "DIG_RELAY_TLS_CERT_PATH"%string → k ≠ "DIG_RELAY_TLS_KEY_PATH"%string →
  env_of (install_environment c) k = None.
Proof.
  intros E H1 H2. rewrite stored_split, E. unfold tls_environment_pairs.
  destruct (tls_cert_path c), (tls_key_path c); [|done..]. by rewrite !env_of_next.
Qed.

Lemma stored_paths c :
  opt_all text (tls_cert_path c) → opt_all text (tls_key_path c) →
  env_path (env_of (install_environment c)) "DIG_RELAY_TLS_CERT_PATH" = tls_cert_path (installed c) ∧
  env_path (env_of (install_environment c)) "DIG_RELAY_TLS_KEY_PATH" = tls_key_path (installed c).
Proof.
  intros Hp1 Hp2. pose proof (stored_split c) as Hs.
  set (env := env_of (install_environment c)) in *.
  unfold installed. simpl. destruct (tls_cert_path c) as [cert|] eqn:E1,
    (tls_key_path c) as [key|] eqn:E2; simpl; (split; [|]).
  1: apply stored_path; [|by apply Hp1]. 2: apply stored_path; [|by apply Hp2].
  3-8: apply env_absent. all: rewrite Hs; unfold tls_environment_pairs; rewrite ?E1, ?E2; reflexivity.
Qed.

(** What an installed service reads back. *)
Lemma config_from_installed c :
  typed_config c → opt_all text (tls_cert_path c) → opt_all text (tls_key_path c) →
  config_from_env (env_of (install_environment c)) = Ok (installed c).
Proof.
  intros Hty Hp1 Hp2. destruct (stored_paths c Hp1 Hp2) as [Hcert Hkey].
  destruct Hty as [Ha Hs Hl Hdur _].
  rewrite !Forall_cons in Ha. rewrite !Forall_cons in Hs. rewrite !Forall_cons in Hl.
  rewrite !Forall_cons in Hdur. destruct Ha as (A1 & A2 & A3 & A4 & _).
  destruct Hs as (Hs1 & _ & _ & Hs2 & _).
  destruct Hl as (_ & _ & L1 & L2 & L3 & L4 & L5 & L6 & _).
  destruct Hdur as (_ & _ & _ & _ & (d & Hd & Ed) & (w & Hw & Ew) & _).
  unfold is_u32, is_u64 in *. assert (u32_max ≤ u64_max) as Hle by (unfold u32_max, u64_max; lia).
  pose proof (stored_in c) as Hin. pose proof (stored_out c) as Hout.
  set (env := env_of (install_environment c)) in *.
  unfold config_from_env. rewrite (proj1 (env_absent env _
    (Hout "DIG_RELAY_TRUSTED_PROXY_CIDRS"%string eq_refl ltac:(done) ltac:(done)))).
  cbn [result_bind]. f_equal. unfold installed in *. simpl in Hcert, Hkey.
  rewrite (stored_addr env _ _ (Hin "DIG_RELAY_LISTEN"%string _ eq_refl) A1).
  rewrite (stored_addr env _ _ (Hin "DIG_RELAY_HEALTH_LISTEN"%string _ eq_refl) A2).
  rewrite (stored_addr env _ _ (Hin "DIG_RELAY_DASHBOARD_LISTEN"%string _ eq_refl) A3).
  rewrite (stored_addr env _ _ (Hin "DIG_RELAY_STUN_LISTEN"%string _ eq_refl) A4).
  rewrite Hcert, Hkey.
  rewrite (stored_uint env _ u64_max _ (Hin "DIG_RELAY_MAX_CONNECTIONS"%string _ eq_refl)) by lia.
  rewrite (stored_uint env _ u64_max _ (Hin "DIG_RELAY_MAX_RELAYED_BYTES_PER_CONN"%string _ eq_refl)) by lia.
  rewrite (stored_uint env _ u32_max _ (Hin "DIG_RELAY_MAX_CONNECTIONS_PER_IP"%string _ eq_refl)) by lia.
  rewrite (stored_uint env _ u32_max _ (Hin "DIG_RELAY_REGISTRATIONS_PER_IP_PER_SEC"%string _ eq_refl)) by lia.
  rewrite (stored_uint env _ u32_max _ (Hin "DIG_RELAY_MAX_REGISTRATIONS_PER_IP"%string _ eq_refl)) by lia.
  rewrite (stored_uint env _ u32_max _ (Hin "DIG_RELAY_MESSAGES_PER_CONN_PER_SEC"%string _ eq_refl)) by lia.
  rewrite (stored_uint env _ u32_max _ (Hin "DIG_RELAY_BYTES_PER_CONN_PER_SEC"%string _ eq_refl)) by lia.
  rewrite (stored_uint env _ u32_max _ (Hin "DIG_RELAY_BAN_THRESHOLD"%string _ eq_refl)) by lia.
  rewrite (stored_secs env _ _ _ (Hin "DIG_RELAY_BAN_DURATION_SECS"%string _ eq_refl) Ed Hd).
  rewrite (stored_secs env _ _ _ (Hin "DIG_RELAY_BAN_STRIKE_WINDOW_SECS"%string _ eq_refl) Ew Hw).
  rewrite !env_uint_absent by (by apply Hout). rewrite !env_secs_absent by (by apply Hout).
  simpl. destruct (is_some (tls_cert_path c) && is_some (tls_key_path c)) eqn:Eb; [|done].
  by destruct (tls_cert_path c), (tls_key_path c).
Qed.

(** C19: what an installed service runs with. Reading back the environment that [install] stores for a
    configuration gives exactly its addresses, connection, registration, message and byte limits,
    ban settings and TLS identity; every other setting, the trusted proxies and the timeouts among
    them, is the default's, whatever the configuration says. A valid configuration is stored as a
    valid one. *)
Theorem installed_config_exact c :
  typed_config c → opt_all text (tls_cert_path c) → opt_all text (tls_key_path c) →
  config_from_env (env_of (install_environment c)) = Ok (installed c) ∧
  (validate c = Ok tt → validate (installed c) = Ok tt).
Proof.
  intros Hty Hp1 Hp2. split; [by apply config_from_installed|by apply installed_valid].
Qed.

(** ** Instances *)

(** An operator's environment: a proxy list, a shorter liveness deadline and a malformed port. *)
Definition ex_env : Env := env_of
  [("DIG_RELAY_TRUSTED_PROXY_CIDRS"%string, "10.0.0.0/8, 2600:1f18::/32"%string);
   ("DIG_RELAY_LIVENESS_DEADLINE_SECS"%string, "+60"%string);
   ("DIG_RELAY_HEALTH_LISTEN"%string, "[::]:99999"%string)].

(** [--listen 0.0.0.0:9450 --max-connections 8192 --ban-threshold 5]. *)
Definition ex_cli : Cli :=
  MkCli None false Auto (Some (SaV4 (MkV4 0 0 0 0) 9450)) None None None (Some 8192) None None None
    None None None None None None None None None None None (Some 5) None None None None.

Lemma ex_cli_typed : typed_cli ex_cli.
Proof.
  split; simpl; repeat apply Forall_cons_2; try apply Forall_nil_2; intros x [= <-].
  - apply (bool_decide_unpack _). vm_compute. exact I.
  - split; vm_compute; discriminate.
  - split; vm_compute; discriminate.
Qed.

Definition ex_config : RelayServerConfig :=
  match config_from ex_env ex_cli with Ok c => c | Err _ => config_default end.

Lemma ex_config_from : config_from ex_env ex_cli = Ok ex_config.
Proof. vm_compute. reflexivity. Qed.

Lemma ex_config_typed : typed_config ex_config.
Proof.
  unfold ex_config, config_from. destruct (config_from_env ex_env) as [c|] eqn:E;
    cbn [result_bind]; [|apply typed_default].
  apply typed_overrides; [by eapply typed_from_env|apply ex_cli_typed].
Qed.

(** The same with a typing error in the list, and with a list that is not UTF-8. *)
Definition ex_bad_env : Env := env_of
  [("DIG_RELAY_TRUSTED_PROXY_CIDRS"%string, "10.0.0.0/8, 10.0.0.0/33"%string)].
Definition ex_undecodable_env : Env := env_of
  [("DIG_RELAY_TRUSTED_PROXY_CIDRS"%string,
    String.append "10.0.0.0/8" (String (Ascii.ascii_of_N 0xFF) EmptyString))].

Lemma config_typed_witness :
  (typed_config ex_config ∧ (validate ex_config = Ok tt ↔ coherent ex_config)) ∧
  trusted_parse (chars "10.0.0.0/8, 2600:1f18::/32") = Ok (trusted_proxies ex_config) ∧
  config_from ex_bad_env ex_cli = Err (chars
    "DIG_RELAY_TRUSTED_PROXY_CIDRS is invalid: prefix /33 exceeds /32 for 10.0.0.0").
Proof.
  destruct (proj1 (config_typed ex_env ex_cli ex_cli_typed) ex_config ex_config_from) as (H1 & H2 & H3 & _).
  split; [split; [exact H1|exact H2]|]. split; [exact H3|].
  apply (proj2 (config_typed ex_bad_env ex_cli ex_cli_typed)).
  exists (chars "10.0.0.0/8, 10.0.0.0/33"), (chars "prefix /33 exceeds /32 for 10.0.0.0").
  split_and!; vm_compute; reflexivity.
Defined.

(** A list that is set but is not UTF-8 is taken for none. *)
Theorem undecodable_proxy_list :
  is_some (ex_undecodable_env "DIG_RELAY_TRUSTED_PROXY_CIDRS") = true ∧
  match config_from ex_undecodable_env ex_cli with Ok c => trusted_proxies c = [] | Err _ => False end.
Proof. vm_compute. tauto. Qed.

Lemma installed_config_exact_witness :
  config_from_env (env_of (install_environment ex_config)) = Ok (installed ex_config) ∧
  validate (installed ex_config) = Ok tt.
Proof.
  assert (tls_cert_path ex_config = None ∧ tls_key_path ex_config = None) as [E1 E2]
    by (vm_compute; split; reflexivity).
  destruct (installed_config_exact ex_config ex_config_typed) as [H1 H2].
  - intros p Hp. rewrite E1 in Hp. discriminate.
  - intros p Hp. rewrite E2 in Hp. discriminate.
  - split; [exact H1|]. apply H2. vm_compute. reflexivity.
Defined.

(** The service installed from a valid configuration that trusts proxies trusts none, and runs with
    another liveness deadline. *)
Theorem install_forgets_settings :
  validate ex_config = Ok tt ∧ length (trusted_proxies ex_config) = 2%nat ∧
  liveness_deadline ex_config = from_secs 60 ∧
  match config_from_env (env_of (install_environment ex_config)) with
  | Ok c => trusted_proxies c = [] ∧ liveness_deadline c = from_secs 90 ∧
      max_connections c = 8192 ∧ listen c = listen ex_config
  | Err _ => False
  end.
Proof. vm_compute. tauto. Qed.
