(* ===== verification/Limits.v ===== *)
(** * Abuse limits (src/limits.rs)

    Token and byte buckets, the per-source key, the per-IP connection and registration slots, the
    strike and ban list, and the per-connection limiter. The [Mutex] is held for the whole of each
    method, so a method is one function on the state; a slot is a value whose [Drop] is a function
    on the state. A count that would go below zero panics in Rust: the [drop] functions return
    [None] then, and the slot invariant shows it does not happen. *)

From S2P Require Import Prelude Net ProxyProtocol Config.

Definition MAX_TRACKED_IPS : Z := 65536.

(** ** Buckets *)

Record TokenBucket := MkTokenBucket { tokens : Z; tb_window : Z; tb_last_seen_ms : Z }.

Definition token_new (capacity now_ms : Z) : TokenBucket :=
  MkTokenBucket capacity (now_ms / 1000) now_ms.

Definition token_try_spend (b : TokenBucket) (capacity now_ms : Z) : bool * TokenBucket :=
  let window := now_ms / 1000 in
  let b :=
    if negb (window =? tb_window b) then MkTokenBucket capacity window (tb_last_seen_ms b) else b in
  let b := MkTokenBucket (tokens b) (tb_window b) now_ms in
  if 0 <? tokens b then (true, MkTokenBucket (tokens b - 1) (tb_window b) (tb_last_seen_ms b))
  else (false, b).

Record ByteBucket := MkByteBucket { remaining : Z; bb_window : Z }.

Definition byte_new (capacity now_ms : Z) : ByteBucket := MkByteBucket capacity (now_ms / 1000).

Definition byte_try_spend (b : ByteBucket) (capacity cost now_ms : Z) : bool * ByteBucket :=
  let window := now_ms / 1000 in
  let b := if negb (window =? bb_window b) then MkByteBucket capacity window else b in
  if cost <=? remaining b then (true, MkByteBucket (remaining b - cost) (bb_window b))
  else (false, b).

(** ** Source keys *)

Definition IpKey : Type := IpAddr.

Definition ip_key (ip : IpAddr) : IpKey :=
  match to_canonical ip with
  | IpV4 v4 => IpV4 v4
  | IpV6 v6 =>
      let octets := v6_octets v6 in
      let prefix := take 8 octets ++ replicate 8 0 in
      IpV6 (v6_from_octets prefix)
  end.

(** ** Shared per-IP state *)

Record StrikeRecord := MkStrike {
  sr_count : Z; sr_window_start_ms : Z; sr_last_seen_ms : Z }.

Record AbuseState := MkAbuseState {
  conns_per_ip : gmap IpKey Z;
  reg_buckets : gmap IpKey TokenBucket;
  regs_per_ip : gmap IpKey Z;
  strikes : gmap IpKey StrikeRecord;
  bans : gmap IpKey Z }.

Definition abuse_state_default : AbuseState := MkAbuseState ∅ ∅ ∅ ∅ ∅.

Definition set_conns (s : AbuseState) m : AbuseState :=
  MkAbuseState m (reg_buckets s) (regs_per_ip s) (strikes s) (bans s).
Definition set_reg_buckets (s : AbuseState) m : AbuseState :=
  MkAbuseState (conns_per_ip s) m (regs_per_ip s) (strikes s) (bans s).
Definition set_regs (s : AbuseState) m : AbuseState :=
  MkAbuseState (conns_per_ip s) (reg_buckets s) m (strikes s) (bans s).
Definition set_strikes (s : AbuseState) m : AbuseState :=
  MkAbuseState (conns_per_ip s) (reg_buckets s) (regs_per_ip s) m (bans s).
Definition set_bans (s : AbuseState) m : AbuseState :=
  MkAbuseState (conns_per_ip s) (reg_buckets s) (regs_per_ip s) (strikes s) m.

(** The limits of a policy; its state is passed beside it. *)
Record AbusePolicy := MkAbusePolicy {
  ap_max_connections_per_ip : Z;
  ap_registrations_per_ip_per_sec : Z;
  ap_max_registrations_per_ip : Z;
  ap_ban_threshold : Z;
  ap_ban_duration_ms : Z;
  ap_ban_strike_window_ms : Z }.

Definition policy_new (config : RelayServerConfig) : AbusePolicy := {|
  ap_max_connections_per_ip := max_connections_per_ip config;
  ap_registrations_per_ip_per_sec := registrations_per_ip_per_sec config;
  ap_max_registrations_per_ip := max_registrations_per_ip config;
  ap_ban_threshold := ban_threshold config;
  ap_ban_duration_ms := as_millis_u64 (ban_duration config);
  ap_ban_strike_window_ms := as_millis_u64 (ban_strike_window config)
|}.

(** A slot: [slot_tracked] is whether it holds a reference to the shared state (the source's
    [state.is_some()]). *)
Record Slot := MkSlot { slot_tracked : bool; slot_key : IpKey }.
Definition ConnSlot : Type := Slot.
Definition RegSlot : Type := Slot.

(** The body the two [try_acquire_*] methods share, on one of the count maps. *)
Definition acquire (cap : Z) (m : gmap IpKey Z) (key : IpKey) : option Slot * gmap IpKey Z :=
  let count := default 0 (m !! key) in
  let m := <[key := count]> m in
  if cap <=? count then
    (None, if count =? 0 then delete key m else m)
  else (Some (MkSlot true key), <[key := count + 1]> m).

Definition try_acquire_conn (p : AbusePolicy) (s : AbuseState) (ip : IpAddr)
    : option ConnSlot * AbuseState :=
  let key := ip_key ip in
  if ap_max_connections_per_ip p =? 0 then (Some (MkSlot false key), s)
  else
    let '(slot, m) := acquire (ap_max_connections_per_ip p) (conns_per_ip s) key in
    (slot, set_conns s m).

Definition try_acquire_registration (p : AbusePolicy) (s : AbuseState) (ip : IpAddr)
    : option RegSlot * AbuseState :=
  let key := ip_key ip in
  if ap_max_registrations_per_ip p =? 0 then (Some (MkSlot false key), s)
  else
    let '(slot, m) := acquire (ap_max_registrations_per_ip p) (regs_per_ip s) key in
    (slot, set_regs s m).

(** The body the two [Drop] implementations share. *)
Definition release (m : gmap IpKey Z) (slot : Slot) : option (gmap IpKey Z) :=
  if slot_tracked slot then
    match m !! slot_key slot with
    | Some count =>
        if count =? 0 then None
        else
          let count := count - 1 in
          Some (if count =? 0 then delete (slot_key slot) m else <[slot_key slot := count]> m)
    | None => Some m
    end
  else Some m.

Definition drop_conn_slot (s : AbuseState) (slot : ConnSlot) : option AbuseState :=
  m ← release (conns_per_ip s) slot; Some (set_conns s m).

Definition drop_reg_slot (s : AbuseState) (slot : RegSlot) : option AbuseState :=
  m ← release (regs_per_ip s) slot; Some (set_regs s m).

Section hash_order.
Context `{HashOrder}.

(** Evict the entry with the least [f] when the map is full and [key] is new. *)
Definition evict_min {V} (f : V → Z) (m : gmap IpKey V) (key : IpKey) : gmap IpKey V :=
  if negb (is_some (m !! key)) && (MAX_TRACKED_IPS <=? Z.of_nat (size m)) then
    match min_by_key (λ e, f e.2) (hash_iter m) with
    | Some (victim, _) => delete victim m
    | None => m
    end
  else m.

Definition evict_lru_strikes (m : gmap IpKey StrikeRecord) (key : IpKey) :=
  evict_min sr_last_seen_ms m key.

Definition evict_soonest_ban (m : gmap IpKey Z) (key : IpKey) :=
  evict_min (λ until, until) m key.

Definition evict_lru_if_full (m : gmap IpKey TokenBucket) (key : IpKey) :=
  evict_min tb_last_seen_ms m key.

(** [entry(key).or_insert_with(TokenBucket::new).try_spend(..)] after the eviction. *)
Definition spend_keyed (capacity : Z) (m : gmap IpKey TokenBucket) (key : IpKey) (now_ms : Z)
    : bool * gmap IpKey TokenBucket :=
  let m := evict_lru_if_full m key in
  let b := default (token_new capacity now_ms) (m !! key) in
  let '(ok, b) := token_try_spend b capacity now_ms in
  (ok, <[key := b]> m).

Definition allow_registration (p : AbusePolicy) (s : AbuseState) (ip : IpAddr) (now_ms : Z)
    : bool * AbuseState :=
  if ap_registrations_per_ip_per_sec p =? 0 then (true, s)
  else
    let '(ok, m) :=
      spend_keyed (ap_registrations_per_ip_per_sec p) (reg_buckets s) (ip_key ip) now_ms in
    (ok, set_reg_buckets s m).

Definition is_banned (p : AbusePolicy) (s : AbuseState) (ip : IpAddr) (now_ms : Z)
    : bool * AbuseState :=
  if ap_ban_threshold p =? 0 then (false, s)
  else
    let key := ip_key ip in
    match bans s !! key with
    | Some banned_until =>
        if now_ms <? banned_until then (true, s)
        else (false, set_bans s (delete key (bans s)))
    | None => (false, s)
    end.

Definition record_strike (p : AbusePolicy) (s : AbuseState) (ip : IpAddr) (now_ms : Z)
    : AbuseState :=
  if ap_ban_threshold p =? 0 then s
  else
    let key := ip_key ip in
    let m := evict_lru_strikes (strikes s) key in
    let rec := default (MkStrike 0 now_ms now_ms) (m !! key) in
    let rec :=
      if ap_ban_strike_window_ms p <? sat_sub now_ms (sr_window_start_ms rec)
      then MkStrike 0 now_ms (sr_last_seen_ms rec) else rec in
    let rec := MkStrike (sat_add u32_max (sr_count rec) 1) (sr_window_start_ms rec) now_ms in
    let s := set_strikes s (<[key := rec]> m) in
    if ap_ban_threshold p <=? sr_count rec then
      let s := set_strikes s (delete key (strikes s)) in
      let b := evict_soonest_ban (bans s) key in
      let banned_until := sat_add u64_max now_ms (ap_ban_duration_ms p) in
      set_bans s (<[key := banned_until]> b)
    else s.
End hash_order.

(** ** The per-connection limiter *)

Inductive Admit : Type := AdmitOk | Disconnect.

Global Instance Admit_eq_dec : EqDecision Admit.
Proof. solve_decision. Defined.

Record PerConnLimiter := MkLimiter {
  msgs : TokenBucket;
  msgs_per_sec : Z;
  bytes : ByteBucket;
  bytes_per_sec : Z;
  relayed_total : Z;
  max_relayed_bytes : Z }.

Definition limiter_new (config : RelayServerConfig) (now_ms : Z) : PerConnLimiter := {|
  msgs := token_new (messages_per_conn_per_sec config) now_ms;
  msgs_per_sec := messages_per_conn_per_sec config;
  bytes := byte_new (bytes_per_conn_per_sec config) now_ms;
  bytes_per_sec := bytes_per_conn_per_sec config;
  relayed_total := 0;
  max_relayed_bytes := max_relayed_bytes_per_conn config
|}.

Definition set_msgs (l : PerConnLimiter) b : PerConnLimiter :=
  MkLimiter b (msgs_per_sec l) (bytes l) (bytes_per_sec l) (relayed_total l) (max_relayed_bytes l).
Definition set_bytes (l : PerConnLimiter) b : PerConnLimiter :=
  MkLimiter (msgs l) (msgs_per_sec l) b (bytes_per_sec l) (relayed_total l) (max_relayed_bytes l).
Definition set_relayed (l : PerConnLimiter) n : PerConnLimiter :=
  MkLimiter (msgs l) (msgs_per_sec l) (bytes l) (bytes_per_sec l) n (max_relayed_bytes l).

(** The short-circuit [&&] leaves a bucket untouched when its dimension is disabled. *)
Definition admit_frame (l : PerConnLimiter) (frame_len now_ms : Z) : Admit * PerConnLimiter :=
  let '(ok, l) :=
    if 0 <? msgs_per_sec l then
      let '(ok, b) := token_try_spend (msgs l) (msgs_per_sec l) now_ms in (ok, set_msgs l b)
    else (true, l) in
  if negb ok then (Disconnect, l)
  else
    let '(ok, l) :=
      if 0 <? bytes_per_sec l then
        let '(ok, b) := byte_try_spend (bytes l) (bytes_per_sec l) frame_len now_ms in
        (ok, set_bytes l b)
      else (true, l) in
    if negb ok then (Disconnect, l)
    else
      let l := set_relayed l (sat_add u64_max (relayed_total l) frame_len) in
      if (0 <? max_relayed_bytes l) && (max_relayed_bytes l <? relayed_total l)
      then (Disconnect, l)
      else (AdmitOk, l).

(** ** Traces of timed events

    A trace lists events in order, each with a cost and the time at which it happens; the clock is
    monotone. *)

Fixpoint window_cost (w : Z) (tr : list (Z * Z)) : Z :=
  match tr with
  | [] => 0
  | (cost, t) :: tr' => (if t / 1000 =? w then cost else 0) + window_cost w tr'
  end.

Definition total_cost (tr : list (Z * Z)) : Z := foldr (λ e acc, e.1 + acc) 0 tr.

(** Times are nondecreasing and start no earlier than [t0]. *)
Fixpoint monotone_from (t0 : Z) (tr : list (Z * Z)) : Prop :=
  match tr with
  | [] => True
  | (_, t) :: tr' => t0 ≤ t ∧ monotone_from t tr'
  end.

Definition costs_pos (tr : list (Z * Z)) : Prop := Forall (λ e, 0 ≤ e.1) tr.

Global Instance monotone_from_dec t0 tr : Decision (monotone_from t0 tr).
Proof. revert t0. induction tr as [|[c t] tr IH]; intros t0; simpl; apply _. Defined.
Global Instance costs_pos_dec tr : Decision (costs_pos tr).
Proof. unfold costs_pos; apply _. Defined.

Lemma window_mono t t' : t ≤ t' → t / 1000 ≤ t' / 1000.
Proof. intros. apply Z.div_le_mono; lia. Qed.

Lemma window_cost_nonneg w tr : costs_pos tr → 0 ≤ window_cost w tr.
Proof.
  unfold costs_pos. induction 1 as [|[c t] tr Hc _ IH]; simpl in *; [done|]. case_test; lia.
Qed.

Lemma total_cost_nonneg tr : costs_pos tr → 0 ≤ total_cost tr.
Proof. unfold costs_pos. induction 1; simpl in *; lia. Qed.

Lemma window_cost_before t0 w tr : monotone_from t0 tr → w < t0 / 1000 → window_cost w tr = 0.
Proof.
  revert t0. induction tr as [|[c t] tr IH]; simpl; intros t0; [done|].
  intros [Ht Hm] Hw. pose proof (window_mono _ _ Ht).
  rewrite (IH t) by (done || lia). case_test; propify; lia.
Qed.

#[export] Hint Resolve window_cost_nonneg total_cost_nonneg window_mono : relay.

(** *** Byte buckets *)

Fixpoint byte_spend_all (cap : Z) (b : ByteBucket) (tr : list (Z * Z)) : bool :=
  match tr with
  | [] => true
  | (cost, t) :: tr' =>
      let '(ok, b') := byte_try_spend b cap cost t in ok && byte_spend_all cap b' tr'
  end.

(** What is left of window [w] for a bucket. *)
Definition byte_avail (cap : Z) (b : ByteBucket) (w : Z) : Z :=
  if w =? bb_window b then remaining b else cap.

(** Refilling loses nothing: from the current window on, the allowance is the same. *)
Lemma byte_try_spend_avail cap b cost t :
  bb_window b ≤ t / 1000 →
  let '(ok, b') := byte_try_spend b cap cost t in
  bb_window b' = t / 1000 ∧
  (ok = true ↔ cost ≤ byte_avail cap b (t / 1000)) ∧
  ∀ w, t / 1000 ≤ w →
    byte_avail cap b' w = byte_avail cap b w - (if (t / 1000 =? w) && ok then cost else 0).
Proof.
  intros Hw. unfold byte_try_spend, byte_avail.
  destruct (t / 1000 =? bb_window b) eqn:E; cbn [negb]; propify;
    destruct (cost <=? _) eqn:Ec; propify; simpl in *;
    (split; [done || congruence|]); (split; [split; [|try done]; intros|]);
    repeat (case_test; propify; simpl in *); try done; try lia;
    intros w Hle; repeat (case_test; propify; simpl in * ); try lia.
Qed.

Lemma byte_spend_all_iff cap b tr t0 :
  0 ≤ cap → 0 ≤ remaining b → bb_window b = t0 / 1000 → costs_pos tr → monotone_from t0 tr →
  byte_spend_all cap b tr = true ↔
  ∀ w, t0 / 1000 ≤ w → window_cost w tr ≤ byte_avail cap b w.
Proof.
  intros Hcap. revert b t0. induction tr as [|[cost t] tr IH]; intros b t0 Hb Hbw Hpos Hm.
  { simpl. split; [|done]. intros _ w _. unfold byte_avail. case_test; lia. }
  apply Forall_cons in Hpos as [Hc Hpos]. destruct Hm as [Ht Hm]. simpl in Hc.
  pose proof (window_mono _ _ Ht) as Hwin.
  pose proof (byte_try_spend_avail cap b cost t) as Hs.
  cbn [byte_spend_all window_cost].
  destruct (byte_try_spend b cap cost t) as [ok b'].
  destruct Hs as (Hw' & Hok & Hav); [lia|].
  rewrite andb_true_iff.
  assert (ok = true → byte_spend_all cap b' tr = true ↔
    ∀ w, t / 1000 ≤ w → window_cost w tr ≤ byte_avail cap b' w) as IH'.
  { intros ->. apply IH; try done. specialize (Hav (t / 1000)).
    pose proof (proj1 Hok eq_refl). unfold byte_avail in Hav at 1.
    rewrite Hw', Z.eqb_refl in Hav. simpl in Hav. rewrite Hav; lia. }
  split.
  - intros [-> Hall] w Hle. rewrite IH' in Hall by done.
    destruct (decide (w < t / 1000)).
    + rewrite (window_cost_before t) by (done || lia).
      unfold byte_avail. repeat (case_test; propify); lia.
    + specialize (Hall w ltac:(lia)). rewrite Hav in Hall by lia. rewrite andb_true_r in Hall.
      destruct (t / 1000 =? w); lia.
  - intros Hall.
    assert (ok = true) as ->.
    { apply Hok. specialize (Hall (t / 1000) ltac:(lia)). rewrite Z.eqb_refl in Hall.
      pose proof (window_cost_nonneg (t / 1000) tr Hpos). lia. }
    split; [done|]. rewrite IH' by done. intros w Hle. rewrite Hav by lia.
    specialize (Hall w ltac:(lia)). rewrite andb_true_r. destruct (t / 1000 =? w); lia.
Qed.

(** *** Token buckets *)

(** A token bucket is a byte bucket whose events cost one. *)
Definition as_byte_bucket (b : TokenBucket) : ByteBucket := MkByteBucket (tokens b) (tb_window b).

Lemma token_try_spend_byte b cap t :
  let '(ok, b') := token_try_spend b cap t in
  byte_try_spend (as_byte_bucket b) cap 1 t = (ok, as_byte_bucket b') ∧ tb_last_seen_ms b' = t.
Proof.
  unfold token_try_spend, byte_try_spend, as_byte_bucket; simpl.
  destruct (t / 1000 =? tb_window b); simpl;
    destruct (0 <? _) eqn:E, (1 <=? _) eqn:E'; propify; try lia; done.
Qed.

(** Requests and grants of a sequence of attempts, per window. *)
Definition requests_in (w : Z) (times : list Z) : Z :=
  window_cost w (map (λ t, (1, t)) times).

Fixpoint token_granted (cap : Z) (b : TokenBucket) (w : Z) (times : list Z) : Z :=
  match times with
  | [] => 0
  | t :: times' =>
      let '(ok, b') := token_try_spend b cap t in
      (if ok && (t / 1000 =? w) then 1 else 0) + token_granted cap b' w times'
  end.

Lemma costs_pos_ones times : costs_pos (map (λ t, (1, t)) times).
Proof. unfold costs_pos. induction times; constructor; simpl; [lia|done]. Qed.

#[export] Hint Resolve costs_pos_ones : relay.

Lemma token_granted_before cap b w times t0 :
  monotone_from t0 (map (λ t, (1, t)) times) → w < t0 / 1000 → token_granted cap b w times = 0.
Proof.
  revert b t0. induction times as [|t times IH]; intros b t0; simpl; [done|].
  intros [Ht Hm] Hlt. pose proof (window_mono _ _ Ht).
  destruct (token_try_spend b cap t) as [ok b']. rewrite (IH b' t) by (done || lia).
  rewrite (proj2 (Z.eqb_neq _ _)) by lia. by rewrite andb_false_r.
Qed.

Lemma token_granted_min cap b w times t0 :
  0 ≤ cap → 0 ≤ tokens b → tb_window b = t0 / 1000 →
  monotone_from t0 (map (λ t, (1, t)) times) → t0 / 1000 ≤ w →
  token_granted cap b w times =
    Z.min (byte_avail cap (as_byte_bucket b) w) (requests_in w times).
Proof.
  intros Hcap. revert b t0. unfold requests_in.
  induction times as [|t times IH]; intros b t0 Hb Hbw Hm Hw.
  { simpl. unfold byte_avail. simpl. case_test; lia. }
  destruct Hm as [Ht Hm]. pose proof (window_mono _ _ Ht) as Hwin.
  cbn [map window_cost token_granted].
  pose proof (token_try_spend_byte b cap t) as Htb.
  destruct (token_try_spend b cap t) as [ok b']. destruct Htb as [Htb _].
  pose proof (byte_try_spend_avail cap (as_byte_bucket b) 1 t) as Hs. rewrite Htb in Hs.
  destruct Hs as (Hw' & Hok & Hav); [simpl; lia|].
  assert (0 ≤ byte_avail cap (as_byte_bucket b) (t / 1000)) as Hnn.
  { unfold byte_avail. simpl. case_test; lia. }
  pose proof (window_cost_nonneg w _ (costs_pos_ones times)) as Hreq.
  destruct (decide (w < t / 1000)) as [Hlt|Hge].
  - rewrite (token_granted_before cap b' w times t) by done. rewrite (window_cost_before t) by done.
    rewrite (proj2 (Z.eqb_neq (t / 1000) w)) by lia. rewrite andb_false_r.
    unfold byte_avail. simpl. case_test; lia.
  - rewrite (IH b' t); [|..|done|lia].
    + rewrite Hav by lia. destruct (t / 1000 =? w) eqn:E; propify; simpl.
      * subst w. destruct ok; simpl; [lia|].
        assert (¬ 1 ≤ byte_avail cap (as_byte_bucket b) (t / 1000)) by (by rewrite <- Hok). lia.
      * destruct ok; simpl; lia.
    + specialize (Hav (t / 1000)). unfold byte_avail in Hav at 1.
      rewrite Hw', Z.eqb_refl in Hav. simpl in Hav.
      destruct ok; simpl in *; [pose proof (proj1 Hok eq_refl)|]; lia.
    + exact Hw'.
Qed.

(** *** The per-connection limiter *)

(** The connection serves frames until the first [Disconnect]. *)
Fixpoint admit_all (l : PerConnLimiter) (frames : list (Z * Z)) : bool :=
  match frames with
  | [] => true
  | (len, t) :: frames' =>
      match admit_frame l len t with
      | (AdmitOk, l') => admit_all l' frames'
      | (Disconnect, _) => false
      end
  end.

Definition ones (frames : list (Z * Z)) : list (Z * Z) := map (λ e, (1, e.2)) frames.

(** The running total stays within the lifetime ceiling. *)
Fixpoint total_within (max total : Z) (frames : list (Z * Z)) : bool :=
  match frames with
  | [] => true
  | (len, _) :: frames' =>
      let total := sat_add u64_max total len in
      (total <=? max) && total_within max total frames'
  end.

(** The three dimensions are independent. *)
Lemma admit_all_split l frames :
  admit_all l frames =
    (negb (0 <? msgs_per_sec l)
       || byte_spend_all (msgs_per_sec l) (as_byte_bucket (msgs l)) (ones frames))
    && (negb (0 <? bytes_per_sec l) || byte_spend_all (bytes_per_sec l) (bytes l) frames)
    && (negb (0 <? max_relayed_bytes l)
         || total_within (max_relayed_bytes l) (relayed_total l) frames).
Proof.
  revert l. induction frames as [|[len t] frames IH]; intros l; simpl.
  { by rewrite !orb_true_r. }
  unfold admit_frame.
  pose proof (token_try_spend_byte (msgs l) (msgs_per_sec l) t) as Htb.
  destruct (token_try_spend (msgs l) (msgs_per_sec l) t) as [mok mb]. destruct Htb as [-> _].
  destruct (0 <? msgs_per_sec l) eqn:Em; [destruct mok|]; simpl; [|done|];
    destruct (0 <? bytes_per_sec l) eqn:Eb; simpl; rewrite ?Eb, ?andb_false_r; simpl;
    try destruct (byte_try_spend _ _ _ _) as [[] ?]; simpl; rewrite ?andb_false_r; try done;
    (destruct (0 <? max_relayed_bytes l) eqn:Et; simpl;
     [rewrite Z.leb_antisym; destruct (max_relayed_bytes l <? _)|]); simpl; rewrite ?andb_false_r; try done;
    rewrite IH; simpl; by rewrite ?Em, ?Eb, ?Et.
Qed.

Lemma total_within_iff max total frames :
  0 ≤ total ≤ max → max < u64_max → costs_pos frames →
  total_within max total frames = true ↔ total + total_cost frames ≤ max.
Proof.
  intros Ht Hmax Hpos. revert total Ht.
  induction Hpos as [|[len t] frames Hlen Hpos IH]; intros total Ht.
  { simpl. split; [lia|done]. }
  cbn [total_within total_cost foldr fst] in *.
  pose proof (total_cost_nonneg frames Hpos). unfold total_cost in *.
  rewrite andb_true_iff, Z.leb_le. unfold sat_add in *. split.
  - intros [Hle Hrest]. rewrite IH in Hrest by lia. lia.
  - intros Hle. split; [lia|]. rewrite IH by lia. lia.
Qed.

Lemma ones_costs_pos frames : costs_pos (ones frames).
Proof. unfold costs_pos, ones. induction frames; constructor; simpl; [lia|done]. Qed.

Lemma ones_monotone t0 frames : monotone_from t0 frames → monotone_from t0 (ones frames).
Proof.
  revert t0. induction frames as [|[c t] frames IH]; simpl; [done|]. intros t0 [? ?]. auto.
Qed.

#[export] Hint Resolve ones_costs_pos ones_monotone : relay.

(** A full bucket admits a trace exactly when no window exceeds its capacity. *)
Lemma byte_spend_all_full cap tr t0 :
  0 ≤ cap → costs_pos tr → monotone_from t0 tr →
  byte_spend_all cap (byte_new cap t0) tr = true ↔ ∀ w, window_cost w tr ≤ cap.
Proof.
  intros Hcap Hpos Hm. rewrite (byte_spend_all_iff cap (byte_new cap t0) tr t0) by done.
  assert (∀ w, byte_avail cap (byte_new cap t0) w = cap) as Hav.
  { intros w. unfold byte_avail. by case_test. }
  setoid_rewrite Hav. split; [|auto]. intros Hall w.
  destruct (decide (t0 / 1000 ≤ w)); [auto|].
  rewrite (window_cost_before t0) by (done || lia). done.
Qed.

(** ** Source keys: one budget per IPv4 address or IPv6 /64 *)

Lemma ip_key_v6 a :
  to_ipv4_mapped a = None → ip_key (IpV6 a) = IpV6 (MkV6 (v6_0 a) (v6_1 a) (v6_2 a) (v6_3 a) 0 0 0 0).
Proof.
  intros Hm. unfold ip_key, to_canonical. rewrite Hm. f_equal.
  destruct a. unfold v6_from_octets. cbn -[be_hi be_lo be16]. by rewrite !be16_hi_lo.
Qed.

Lemma ip_key_canonical ip : ip_key ip = ip_key (to_canonical ip).
Proof. unfold ip_key. by rewrite to_canonical_idemp. Qed.

Lemma ip_key_same_source a b : ip_key a = ip_key b ↔ same_source a b.
Proof.
  rewrite (ip_key_canonical a), (ip_key_canonical b). unfold same_source.
  pose proof (to_canonical_idemp a) as Ha. pose proof (to_canonical_idemp b) as Hb.
  destruct (to_canonical a) as [x|x], (to_canonical b) as [y|y]; simpl in Ha, Hb;
    destruct (to_ipv4_mapped x) eqn:Ex || idtac; destruct (to_ipv4_mapped y) eqn:Ey || idtac;
    try done; rewrite ?ip_key_v6 by done; unfold ip_key; simpl; split; try congruence.
  all: intros E; simplify_eq; done || (unfold v6_segments; simpl; congruence).
Qed.

(** ** Slots: the counts are the live slots *)

Definition live_count (k : IpKey) (live : list Slot) : Z :=
  Z.of_nat (length (filter (λ s, slot_tracked s = true ∧ slot_key s = k) live)).

(** A count map agrees with the live slots: no missing, stale or zero entry. *)
Definition counts_match (m : gmap IpKey Z) (live : list Slot) : Prop :=
  ∀ k, m !! k = (if live_count k live =? 0 then None else Some (live_count k live)).

Lemma live_count_nonneg k live : 0 ≤ live_count k live.
Proof. unfold live_count. lia. Qed.

Lemma live_count_cons k slot live :
  live_count k (slot :: live) =
  (if bool_decide (slot_tracked slot = true ∧ slot_key slot = k) then 1 else 0) + live_count k live.
Proof.
  unfold live_count. rewrite filter_cons.
  case_bool_decide; [rewrite decide_True|rewrite decide_False]; try done; simpl; lia.
Qed.

Lemma live_count_perm k live live' : live ≡ₚ live' → live_count k live = live_count k live'.
Proof. intros E. unfold live_count. by rewrite E. Qed.

Lemma counts_match_perm m live live' : live ≡ₚ live' → counts_match m live → counts_match m live'.
Proof. intros E Hm k. rewrite <- (live_count_perm k live live') by done. apply Hm. Qed.

Lemma counts_match_default m live k : counts_match m live → default 0 (m !! k) = live_count k live.
Proof.
  intros Hm. rewrite Hm. case_test; propify; simpl; lia.
Qed.

Lemma acquire_spec cap m live k :
  counts_match m live → 0 < cap →
  (live_count k live < cap ∧
    ∃ m', acquire cap m k = (Some (MkSlot true k), m') ∧ counts_match m' (MkSlot true k :: live)) ∨
  (cap ≤ live_count k live ∧ acquire cap m k = (None, m)).
Proof.
  intros Hm Hcap. unfold acquire. rewrite (counts_match_default m live) by done.
  destruct (cap <=? live_count k live) eqn:E; propify; [right|left]; (split; [done|]).
  - rewrite (proj2 (Z.eqb_neq _ _)) by lia. f_equal.
    rewrite insert_id; [done|]. rewrite Hm, (proj2 (Z.eqb_neq _ _)) by lia. done.
  - eexists. split; [done|]. intros k'. rewrite live_count_cons. simpl.
    pose proof (live_count_nonneg k live). pose proof (live_count_nonneg k' live).
    destruct (decide (k = k')) as [<-|Hne].
    + rewrite bool_decide_eq_true_2 by done. rewrite lookup_insert_eq.
      rewrite (proj2 (Z.eqb_neq _ _)) by lia. f_equal. lia.
    + rewrite bool_decide_eq_false_2 by (by intros [_ ?]). rewrite !lookup_insert_ne by done. apply Hm.
Qed.

(** Dropping a live slot never underflows and leaves the counts of the others. *)
Lemma release_spec m live slot :
  counts_match m (slot :: live) →
  ∃ m', release m slot = Some m' ∧ counts_match m' live.
Proof.
  intros Hm. unfold release. destruct (slot_tracked slot) eqn:Et.
  - pose proof (Hm (slot_key slot)) as Hk. rewrite live_count_cons in Hk.
    rewrite bool_decide_eq_true_2 in Hk by done.
    pose proof (live_count_nonneg (slot_key slot) live).
    rewrite (proj2 (Z.eqb_neq _ _)) in Hk by lia. rewrite Hk.
    rewrite (proj2 (Z.eqb_neq _ _)) by lia.
    eexists. split; [done|]. intros k'.
    replace (1 + live_count (slot_key slot) live - 1) with (live_count (slot_key slot) live) by lia.
    destruct (decide (slot_key slot = k')) as [<-|Hne].
    + case_test; [by rewrite lookup_delete_eq|by rewrite lookup_insert_eq].
    + specialize (Hm k'). rewrite live_count_cons, bool_decide_eq_false_2 in Hm by (by intros [_ ?]).
      case_test; [rewrite lookup_delete_ne by done|rewrite lookup_insert_ne by done]; exact Hm.
  - exists m. split; [done|]. intros k. specialize (Hm k).
    rewrite live_count_cons, bool_decide_eq_false_2 in Hm by (intros [? _]; congruence). exact Hm.
Qed.

(** A pool of slots: the interface the connection and the registration slots both implement. *)
Class SlotPool := {
  pool_cap : Z;
  pool_counts : AbuseState → gmap IpKey Z;
  pool_acquire : AbuseState → IpAddr → option Slot * AbuseState;
  pool_release : AbuseState → Slot → option AbuseState;
  pool_default : pool_counts abuse_state_default = ∅;
  pool_acquire_off : ∀ s ip,
    pool_cap = 0 → pool_acquire s ip = (Some (MkSlot false (ip_key ip)), s);
  pool_acquire_on : ∀ s ip,
    pool_cap ≠ 0 →
    ((pool_acquire s ip).1, pool_counts (pool_acquire s ip).2) =
      acquire pool_cap (pool_counts s) (ip_key ip);
  pool_release_counts : ∀ s slot,
    pool_counts <$> pool_release s slot = release (pool_counts s) slot }.

Section slot_trace.
Context `{SlotPool}.

Inductive SlotOp : Type :=
| OpAcquire (ip : IpAddr)
| OpDrop (i : nat).

(** One acquisition attempt, or the drop of the [i]-th live slot; [None] is a panic. *)
Definition slot_step (st : AbuseState * list Slot) (op : SlotOp)
    : option (AbuseState * list Slot) :=
  let '(s, live) := st in
  match op with
  | OpAcquire ip =>
      let '(slot, s') := pool_acquire s ip in
      Some (s', match slot with Some sl => sl :: live | None => live end)
  | OpDrop i =>
      match live !! i with
      | Some sl => s' ← pool_release s sl; Some (s', delete i live)
      | None => Some (s, live)
      end
  end.

Fixpoint slot_run (st : AbuseState * list Slot) (ops : list SlotOp)
    : option (AbuseState * list Slot) :=
  match ops with
  | [] => Some st
  | op :: ops' => st' ← slot_step st op; slot_run st' ops'
  end.

Record slot_inv (st : AbuseState * list Slot) : Prop := {
  si_match : counts_match (pool_counts st.1) st.2;
  si_tracked : pool_cap ≠ 0 → Forall (λ s, slot_tracked s = true) st.2;
  si_cap : pool_cap ≠ 0 → ∀ k, live_count k st.2 ≤ pool_cap }.

Lemma slot_step_inv st op :
  0 ≤ pool_cap → slot_inv st → ∃ st', slot_step st op = Some st' ∧ slot_inv st'.
Proof.
  intros Hcap [Hm Ht Hc]. destruct st as [s live], op as [ip|i]; simpl in *.
  - destruct (decide (pool_cap = 0)) as [E|E].
    + rewrite pool_acquire_off by done. eexists. split; [done|]. split; simpl; [|done..].
      intros k. rewrite live_count_cons, bool_decide_eq_false_2 by (by intros [? _]). apply Hm.
    + pose proof (pool_acquire_on s ip E) as Ha.
      destruct (pool_acquire s ip) as [slot s']. simpl in Ha.
      eexists. split; [done|].
      destruct (acquire_spec pool_cap (pool_counts s) live (ip_key ip)) as
        [(Hlt & m' & Ham & Hm')|[Hge Ham]]; [done|lia|..]; rewrite Ham in Ha; simplify_eq.
      * split; simpl; [done|by constructor; auto|]. intros _ k. rewrite live_count_cons.
        pose proof (Hc E k). case_bool_decide as Hk; [destruct Hk as [_ Hk]; simpl in Hk; subst|]; lia.
      * split; simpl; [by rewrite H1|done..].
  - destruct (live !! i) as [sl|] eqn:Hi; [|eauto using Build_slot_inv].
    pose proof (delete_Permutation live i sl Hi) as Hperm.
    destruct (release_spec (pool_counts s) (delete i live) sl) as (m' & Hr & Hm').
    { by eapply counts_match_perm. }
    pose proof (pool_release_counts s sl) as Hp. rewrite Hr in Hp.
    destruct (pool_release s sl) as [s'|]; simplify_eq/=. eexists. split; [done|].
    split; simpl; [by simplify_eq|..].
    + intros E. specialize (Ht E). rewrite Hperm in Ht. by apply Forall_cons in Ht as [_ ?].
    + intros E k. specialize (Hc E k). rewrite (live_count_perm k _ _ Hperm), live_count_cons in Hc.
      case_bool_decide; lia.
Qed.

Lemma slot_run_inv ops st :
  0 ≤ pool_cap → slot_inv st → ∃ st', slot_run st ops = Some st' ∧ slot_inv st'.
Proof.
  intros Hcap. revert st. induction ops as [|op ops IH]; intros st Hst; simpl; [eauto|].
  destruct (slot_step_inv st op) as (st' & -> & Hst'); [done..|]. by apply IH.
Qed.

Lemma slot_inv_init : 0 ≤ pool_cap → slot_inv (abuse_state_default, []).
Proof.
  intros Hcap. split; simpl; [|constructor|].
  - intros k. by rewrite pool_default, lookup_empty.
  - intros ? k. unfold live_count. simpl. lia.
Qed.

Lemma slot_inv_acquire s live ip :
  0 ≤ pool_cap → slot_inv (s, live) →
  is_Some (pool_acquire s ip).1 ↔ pool_cap = 0 ∨ live_count (ip_key ip) live < pool_cap.
Proof.
  intros Hcap [Hm _ _]. destruct (decide (pool_cap = 0)) as [E|E].
  { rewrite pool_acquire_off by done. split; [by left|eauto]. }
  pose proof (pool_acquire_on s ip E) as Ha. apply (f_equal fst) in Ha. simpl in Ha. rewrite Ha.
  destruct (acquire_spec pool_cap (pool_counts s) live (ip_key ip)) as
    [(Hlt & m' & -> & _)|[Hge ->]]; [done|lia|..]; simpl.
  - split; [by right|eauto].
  - split; [by intros [? ?]|intros [?|?]; lia].
Qed.

(** Over every sequence of acquisitions and drops. *)
Lemma slot_run_exact ops :
  0 ≤ pool_cap →
  ∃ s live, slot_run (abuse_state_default, []) ops = Some (s, live) ∧
    counts_match (pool_counts s) live ∧
    (pool_cap ≠ 0 → Forall (λ sl, slot_tracked sl = true) live ∧
       ∀ k, live_count k live ≤ pool_cap) ∧
    ∀ ip, is_Some (pool_acquire s ip).1 ↔
      pool_cap = 0 ∨ live_count (ip_key ip) live < pool_cap.
Proof.
  intros Hcap.
  destruct (slot_run_inv ops (abuse_state_default, [])) as ([s live] & Hrun & Hinv);
    [done|by apply slot_inv_init|].
  exists s, live. split; [done|]. split; [apply Hinv|]. split.
  - intros E. split; apply Hinv; done.
  - intros ip. by apply slot_inv_acquire.
Qed.
End slot_trace.

Definition conn_pool (p : AbusePolicy) : SlotPool.
Proof.
  refine {| pool_cap := ap_max_connections_per_ip p; pool_counts := conns_per_ip;
            pool_acquire := try_acquire_conn p; pool_release := drop_conn_slot |}.
  - done.
  - intros s ip E. unfold try_acquire_conn. by rewrite (proj2 (Z.eqb_eq _ _) E).
  - intros s ip E. unfold try_acquire_conn. rewrite (proj2 (Z.eqb_neq _ _) E).
    by destruct (acquire _ _ _).
  - intros s slot. unfold drop_conn_slot. by destruct (release _ _).
Defined.

Definition reg_pool (p : AbusePolicy) : SlotPool.
Proof.
  refine {| pool_cap := ap_max_registrations_per_ip p; pool_counts := regs_per_ip;
            pool_acquire := try_acquire_registration p; pool_release := drop_reg_slot |}.
  - done.
  - intros s ip E. unfold try_acquire_registration. by rewrite (proj2 (Z.eqb_eq _ _) E).
  - intros s ip E. unfold try_acquire_registration. rewrite (proj2 (Z.eqb_neq _ _) E).
    by destruct (acquire _ _ _).
  - intros s slot. unfold drop_reg_slot. by destruct (release _ _).
Defined.

(** ** Bounded maps *)

Section evict.
Context `{HashOrder} {V : Type}.
Implicit Types (m : gmap IpKey V) (f : V → Z) (k : IpKey).

(** The eviction removes nothing unless the map is full and the key is new; then it removes one
    entry, one with the least [f]. *)
Lemma evict_min_cases f m key :
  (evict_min f m key = m ∧ (is_Some (m !! key) ∨ Z.of_nat (size m) < MAX_TRACKED_IPS)) ∨
  (m !! key = None ∧ MAX_TRACKED_IPS ≤ Z.of_nat (size m) ∧
    ∃ victim v, m !! victim = Some v ∧ evict_min f m key = delete victim m ∧
      ∀ k v', m !! k = Some v' → f v ≤ f v').
Proof.
  unfold evict_min. destruct (m !! key) eqn:Hk; simpl; [left; eauto|].
  destruct (MAX_TRACKED_IPS <=? Z.of_nat (size m)) eqn:Hs; propify; [right|left; eauto].
  split; [done|]. split; [done|].
  destruct (min_by_key _ (hash_iter m)) as [[victim v]|] eqn:Hmin.
  - apply min_by_key_Some in Hmin as [Hin Hle]. exists victim, v.
    rewrite elem_of_hash_iter in Hin. split; [done|]. split; [done|].
    intros k v' Hkv. by apply (Hle (k, v')), elem_of_hash_iter.
  - exfalso. apply min_by_key_None, (f_equal length) in Hmin.
    rewrite length_hash_iter in Hmin. simpl in Hmin. unfold MAX_TRACKED_IPS in *. lia.
Qed.

Lemma evict_min_key f m key : evict_min f m key !! key = m !! key.
Proof.
  destruct (evict_min_cases f m key) as [[-> _]|(Hk & _ & victim & v & Hv & -> & _)]; [done|].
  rewrite lookup_delete_ne; [done|]. congruence.
Qed.

Lemma evict_min_subset f m key : evict_min f m key ⊆ m.
Proof.
  destruct (evict_min_cases f m key) as [[-> _]|(_ & _ & victim & v & _ & -> & _)]; [done|].
  apply delete_subseteq.
Qed.

Lemma evict_min_insert_bound f m key v :
  Z.of_nat (size m) ≤ MAX_TRACKED_IPS →
  Z.of_nat (size (<[key := v]> (evict_min f m key))) ≤ MAX_TRACKED_IPS.
Proof.
  intros Hs. rewrite map_size_insert, evict_min_key.
  destruct (evict_min_cases f m key) as [[-> Hor]|(Hk & Hge & victim & w & Hv & -> & _)].
  - destruct (m !! key); [done|]. destruct Hor as [[? ?]|?]; [done|lia].
  - rewrite Hk, map_size_delete, Hv. pose proof (map_size_non_empty_iff m).
    assert (size m ≠ 0%nat) by (unfold MAX_TRACKED_IPS in *; lia). lia.
Qed.

Lemma evict_min_not_full f m key :
  Z.of_nat (size ({[key]} ∪ dom m)) ≤ MAX_TRACKED_IPS → evict_min f m key = m.
Proof.
  intros Hs. destruct (evict_min_cases f m key) as [[-> _]|(Hk & Hge & _)]; [done|].
  rewrite size_union, size_singleton, size_dom in Hs; [lia|].
  apply disjoint_singleton_l. by apply not_elem_of_dom.
Qed.
End evict.

(** ** Keyed rate limits *)

Section keyed.
Context `{HashOrder}.

(** Grants to key [k] in window [w] over a sequence of requests. *)
Fixpoint keyed_granted (cap : Z) (m : gmap IpKey TokenBucket) (k : IpKey) (w : Z)
    (reqs : list (IpKey * Z)) : Z :=
  match reqs with
  | [] => 0
  | (key, t) :: reqs' =>
      let '(ok, m') := spend_keyed cap m key t in
      (if ok && bool_decide (key = k) && (t / 1000 =? w) then 1 else 0)
      + keyed_granted cap m' k w reqs'
  end.

Definition times_of (k : IpKey) (reqs : list (IpKey * Z)) : list Z :=
  (filter (λ r, r.1 = k) reqs).*2.

Lemma times_of_cons k key t reqs :
  times_of k ((key, t) :: reqs) =
  if bool_decide (key = k) then t :: times_of k reqs else times_of k reqs.
Proof.
  unfold times_of. rewrite filter_cons. simpl.
  case_bool_decide; [by rewrite decide_True|by rewrite decide_False].
Qed.

Definition keys_of (reqs : list (IpKey * Z)) : gset IpKey := list_to_set reqs.*1.

(** As long as the keys in play fit the map, each key has a bucket of its own. *)
Lemma keyed_granted_isolated cap m k w reqs :
  Z.of_nat (size (keys_of reqs ∪ dom m)) ≤ MAX_TRACKED_IPS →
  keyed_granted cap m k w reqs =
  match m !! k, times_of k reqs with
  | Some b, times => token_granted cap b w times
  | None, [] => 0
  | None, t :: _ => token_granted cap (token_new cap t) w (times_of k reqs)
  end.
Proof.
  revert m. induction reqs as [|[key t] reqs IH]; intros m Hs.
  { simpl. by destruct (m !! k). }
  rewrite times_of_cons. cbn [keyed_granted]. unfold spend_keyed, evict_lru_if_full.
  rewrite evict_min_not_full.
  2: { etransitivity; [|exact Hs]. apply inj_le, subseteq_size. unfold keys_of. set_solver. }
  set (b := default (token_new cap t) (m !! key)).
  destruct (token_try_spend b cap t) as [ok b'] eqn:Hsp.
  rewrite IH.
  2: { etransitivity; [|exact Hs]. apply inj_le, subseteq_size.
       rewrite dom_insert. unfold keys_of. set_solver. }
  case_bool_decide as Hk.
  - subst k. rewrite lookup_insert_eq, andb_true_r.
    destruct (m !! key) as [b0|] eqn:Hb; simpl in b; subst b; cbn [token_granted];
      by rewrite Hsp.
  - rewrite lookup_insert_ne, andb_false_r by done. simpl. destruct (m !! k); [done|].
    by destruct (times_of k reqs).
Qed.

Lemma monotone_times_of k t0 reqs :
  monotone_from t0 (map (λ r, (1, r.2)) reqs) →
  monotone_from t0 (map (λ t, (1, t)) (times_of k reqs)).
Proof.
  revert t0. induction reqs as [|[key t] reqs IH]; intros t0; [done|].
  rewrite times_of_cons. cbn [map monotone_from snd]. intros [Ht Hm].
  case_bool_decide; simpl; [by auto|].
  apply IH. destruct reqs as [|[? t'] reqs]; simpl in *; [done|]. destruct Hm. split; [lia|done].
Qed.

Lemma keyed_granted_fresh cap k w reqs t0 :
  0 ≤ cap → monotone_from t0 (map (λ r, (1, r.2)) reqs) →
  Z.of_nat (size (keys_of reqs)) ≤ MAX_TRACKED_IPS →
  keyed_granted cap ∅ k w reqs = Z.min cap (requests_in w (times_of k reqs)).
Proof.
  intros Hcap Hm Hs. rewrite keyed_granted_isolated.
  2: { rewrite dom_empty_L, union_empty_r_L. done. }
  rewrite lookup_empty. apply (monotone_times_of k) in Hm.
  destruct (times_of k reqs) as [|t times]; [unfold requests_in; simpl; lia|].
  destruct (decide (w < t / 1000)) as [Hlt|Hge].
  - assert (monotone_from t (map (λ t, (1, t)) (t :: times))) as Hm'.
    { simpl in *. destruct Hm. split; [lia|done]. }
    rewrite (token_granted_before cap _ w _ t), Z.min_r; [..|done|done].
    + unfold requests_in. by rewrite (window_cost_before t).
    + unfold requests_in. by rewrite (window_cost_before t).
  - rewrite (token_granted_min cap _ w _ t); [|done|done|done| |lia].
    + f_equal. unfold byte_avail. simpl. by case_test.
    + simpl in *. destruct Hm. split; [lia|done].
Qed.
End keyed.

(** ** Strikes and bans *)

Section strikes.
Context `{HashOrder}.
Implicit Types (p : AbusePolicy) (s : AbuseState).

(** A strike that starts a record. *)
Lemma record_strike_first p s ip now :
  1 < ap_ban_threshold p → 0 ≤ ap_ban_strike_window_ms p → strikes s !! ip_key ip = None →
  strikes (record_strike p s ip now) !! ip_key ip = Some (MkStrike 1 now now) ∧
  bans (record_strike p s ip now) = bans s.
Proof.
  intros Ht Hw Hs. unfold record_strike, evict_lru_strikes.
  rewrite (proj2 (Z.eqb_neq _ 0)) by lia. rewrite evict_min_key, Hs. simpl.
  replace (sat_sub now now) with 0 by (unfold sat_sub; lia).
  rewrite (proj2 (Z.ltb_ge _ _)) by lia. simpl.
  change (sat_add u32_max 0 1) with 1. rewrite (proj2 (Z.leb_gt _ _)) by lia.
  split; [by simpl; rewrite lookup_insert_eq|done].
Qed.

(** A later strike in the window of an existing record. *)
Lemma record_strike_next p s ip now c t1 last :
  is_u32 (ap_ban_threshold p) → 0 < ap_ban_threshold p → 0 ≤ c < ap_ban_threshold p →
  strikes s !! ip_key ip = Some (MkStrike c t1 last) →
  now - t1 ≤ ap_ban_strike_window_ms p → 0 ≤ ap_ban_strike_window_ms p →
  if c + 1 <? ap_ban_threshold p then
    strikes (record_strike p s ip now) !! ip_key ip = Some (MkStrike (c + 1) t1 now) ∧
    bans (record_strike p s ip now) = bans s
  else
    strikes (record_strike p s ip now) !! ip_key ip = None ∧
    bans (record_strike p s ip now) !! ip_key ip =
      Some (sat_add u64_max now (ap_ban_duration_ms p)).
Proof.
  unfold is_u32. intros Hu Ht Hc Hs Hin Hw. unfold record_strike, evict_lru_strikes.
  rewrite (proj2 (Z.eqb_neq _ 0)) by lia. rewrite evict_min_key, Hs. simpl.
  rewrite (proj2 (Z.ltb_ge _ (sat_sub _ _))) by (unfold sat_sub; lia). simpl.
  replace (sat_add u32_max c 1) with (c + 1) by (unfold sat_add; lia).
  destruct (c + 1 <? ap_ban_threshold p) eqn:E; propify.
  - rewrite (proj2 (Z.leb_gt _ _)) by lia. split; [by simpl; rewrite lookup_insert_eq|done].
  - rewrite (proj2 (Z.leb_le _ _)) by lia. simpl.
    by rewrite lookup_delete_eq, lookup_insert_eq.
Qed.

(** A strike after the window has passed starts a new one. *)
Lemma record_strike_reset p s ip now c t1 last :
  1 < ap_ban_threshold p → 0 ≤ ap_ban_strike_window_ms p →
  strikes s !! ip_key ip = Some (MkStrike c t1 last) →
  ap_ban_strike_window_ms p < now - t1 →
  strikes (record_strike p s ip now) !! ip_key ip = Some (MkStrike 1 now now) ∧
  bans (record_strike p s ip now) = bans s.
Proof.
  intros Ht Hw Hs Hout. unfold record_strike, evict_lru_strikes.
  rewrite (proj2 (Z.eqb_neq _ 0)) by lia. rewrite evict_min_key, Hs. simpl.
  rewrite (proj2 (Z.ltb_lt _ (sat_sub _ _))) by (unfold sat_sub; lia). simpl.
  change (sat_add u32_max 0 1) with 1. rewrite (proj2 (Z.leb_gt _ _)) by lia.
  split; [by simpl; rewrite lookup_insert_eq|done].
Qed.

(** A strike bans no other source. *)
Lemma record_strike_other p s ip now k until :
  k ≠ ip_key ip → bans (record_strike p s ip now) !! k = Some until → bans s !! k = Some until.
Proof.
  intros Hne. unfold record_strike. repeat case_test; simpl; try done.
  all: rewrite lookup_insert_ne by done; intros Hb.
  all: eapply lookup_weaken; [exact Hb|apply evict_min_subset].
Qed.

(** A sequence of strikes, each from some address of some source. *)
Definition strike_run p s (evs : list (IpAddr * Z)) : AbuseState :=
  foldl (λ s ev, record_strike p s ev.1 ev.2) s evs.

Lemma strike_run_window p s k c t1 last evs :
  is_u32 (ap_ban_threshold p) → 0 ≤ ap_ban_strike_window_ms p →
  0 < c → c + Z.of_nat (length evs) < ap_ban_threshold p →
  strikes s !! k = Some (MkStrike c t1 last) →
  Forall (λ ev, ip_key ev.1 = k ∧ ev.2 - t1 ≤ ap_ban_strike_window_ms p) evs →
  (∃ last', strikes (strike_run p s evs) !! k =
     Some (MkStrike (c + Z.of_nat (length evs)) t1 last')) ∧
  bans (strike_run p s evs) = bans s.
Proof.
  intros Hu Hw. revert s c last. induction evs as [|[ip t] evs IH]; intros s c last Hc Hlt Hs Hall.
  { simpl in *. rewrite Z.add_0_r. eauto. }
  apply Forall_cons in Hall as [[Hk Hin] Hall]. simpl in Hk, Hin. subst k.
  cbn [length] in *. rewrite Nat2Z.inj_succ in *.
  pose proof (record_strike_next p s ip t c t1 last Hu) as Hn.
  rewrite (proj2 (Z.ltb_lt _ _)) in Hn by lia.
  destruct Hn as [Hs' Hb']; [lia..|done|lia|lia|].
  destruct (IH (record_strike p s ip t) (c + 1) t) as [[last' Hl] Hb]; [lia|lia|done|done|].
  split; [|by rewrite <- Hb'].
  exists last'. simpl. replace (c + Z.succ (Z.of_nat (length evs)))
    with (c + 1 + Z.of_nat (length evs)) by lia. done.
Qed.
End strikes.

(** ** Registration attempts over time *)

Section registration_rate.
Context `{HashOrder}.

(** Attempts granted to the source [k] in window [w], over a sequence of [allow_registration]. *)
Fixpoint registrations_granted (p : AbusePolicy) (s : AbuseState) (k : IpKey) (w : Z)
    (reqs : list (IpAddr * Z)) : Z :=
  match reqs with
  | [] => 0
  | (ip, t) :: reqs' =>
      let '(ok, s') := allow_registration p s ip t in
      (if ok && bool_decide (ip_key ip = k) && (t / 1000 =? w) then 1 else 0)
      + registrations_granted p s' k w reqs'
  end.

Definition by_key (reqs : list (IpAddr * Z)) : list (IpKey * Z) :=
  map (λ r, (ip_key r.1, r.2)) reqs.

Lemma registrations_granted_keyed p s k w reqs :
  ap_registrations_per_ip_per_sec p ≠ 0 →
  registrations_granted p s k w reqs =
  keyed_granted (ap_registrations_per_ip_per_sec p) (reg_buckets s) k w (by_key reqs).
Proof.
  intros Hcap. revert s. induction reqs as [|[ip t] reqs IH]; intros s; [done|].
  cbn [registrations_granted by_key map keyed_granted fst snd].
  unfold allow_registration. rewrite (proj2 (Z.eqb_neq _ _)) by done.
  destruct (spend_keyed _ _ _ _) as [ok m]. by rewrite IH.
Qed.
End registration_rate.

(** ** All operations on the shared state *)

Inductive AbuseOp : Type :=
| AcquireConn (ip : IpAddr)
| DropConn (slot : ConnSlot)
| AllowReg (ip : IpAddr) (now_ms : Z)
| AcquireReg (ip : IpAddr)
| DropReg (slot : RegSlot)
| IsBanned (ip : IpAddr) (now_ms : Z)
| Strike (ip : IpAddr) (now_ms : Z).

Definition abuse_op `{HashOrder} (p : AbusePolicy) (s : AbuseState) (op : AbuseOp)
    : option AbuseState :=
  match op with
  | AcquireConn ip => Some (try_acquire_conn p s ip).2
  | DropConn slot => drop_conn_slot s slot
  | AllowReg ip now => Some (allow_registration p s ip now).2
  | AcquireReg ip => Some (try_acquire_registration p s ip).2
  | DropReg slot => drop_reg_slot s slot
  | IsBanned ip now => Some (is_banned p s ip now).2
  | Strike ip now => Some (record_strike p s ip now)
  end.

Fixpoint abuse_run `{HashOrder} (p : AbusePolicy) (s : AbuseState) (ops : list AbuseOp)
    : option AbuseState :=
  match ops with
  | [] => Some s
  | op :: ops' => s' ← abuse_op p s op; abuse_run p s' ops'
  end.

(** The spoofable maps hold at most [MAX_TRACKED_IPS] sources. *)
Definition maps_bounded (s : AbuseState) : Prop :=
  Z.of_nat (size (reg_buckets s)) ≤ MAX_TRACKED_IPS ∧
  Z.of_nat (size (strikes s)) ≤ MAX_TRACKED_IPS ∧
  Z.of_nat (size (bans s)) ≤ MAX_TRACKED_IPS.

Lemma size_delete_le {V} (m : gmap IpKey V) k : (size (delete k m) ≤ size m)%nat.
Proof. rewrite <- !size_dom, dom_delete. apply subseteq_size. set_solver. Qed.

Lemma abuse_op_bounded `{HashOrder} p s op s' :
  abuse_op p s op = Some s' → maps_bounded s → maps_bounded s'.
Proof.
  intros Hop (Hr & Hs & Hb). unfold maps_bounded.
  destruct op; simpl in Hop; simplify_eq; simpl.
  - unfold try_acquire_conn. case_test; [done|]. by destruct (acquire _ _ _).
  - unfold drop_conn_slot in Hop. destruct (release _ _); simplify_eq/=. done.
  - unfold allow_registration. case_test; [done|]. unfold spend_keyed.
    destruct (token_try_spend _ _ _) as [ok b]. simpl.
    split; [by apply evict_min_insert_bound|done].
  - unfold try_acquire_registration. case_test; [done|]. by destruct (acquire _ _ _).
  - unfold drop_reg_slot in Hop. destruct (release _ _); simplify_eq/=. done.
  - unfold is_banned. case_test; [done|]. destruct (bans s !! _); [|done].
    case_test; simpl; [done|]. repeat split; try done.
    etransitivity; [apply inj_le, size_delete_le|done].
  - unfold record_strike. case_test; [done|].
    match goal with |- context [<[ip_key ip := ?r]> (evict_lru_strikes _ _)] => set (rec := r) end.
    pose proof (evict_min_insert_bound sr_last_seen_ms (strikes s) (ip_key ip) rec Hs) as Hs'.
    case_test; simpl; (split; [done|]); [|done].
    split; [|by apply evict_min_insert_bound].
    etransitivity; [apply inj_le, size_delete_le|exact Hs'].
Qed.

(** ** Properties *)

(** C27: the per-connection limiter keeps a connection exactly as long as it is within budget: a
    monotone sequence of frames is served to its end if and only if no one-second window holds more
    frames than the message rate, none holds more bytes than the byte rate, and the lifetime total
    is within the ceiling, a zero limit disabling its dimension. No flood is let through and no
    well-behaved peer is dropped. *)
Theorem per_conn_limiter_exact cfg t0 frames :
  unsigned_config cfg → max_relayed_bytes_per_conn cfg < u64_max →
  costs_pos frames → monotone_from t0 frames →
  admit_all (limiter_new cfg t0) frames = true ↔
  (0 < messages_per_conn_per_sec cfg →
     ∀ w, window_cost w (ones frames) ≤ messages_per_conn_per_sec cfg) ∧
  (0 < bytes_per_conn_per_sec cfg → ∀ w, window_cost w frames ≤ bytes_per_conn_per_sec cfg) ∧
  (0 < max_relayed_bytes_per_conn cfg → total_cost frames ≤ max_relayed_bytes_per_conn cfg).
Proof.
  unfold unsigned_config, is_u32, is_u64. intros Hu Hmax Hpos Hm. destruct_and! Hu.
  rewrite admit_all_split. cbn [limiter_new msgs msgs_per_sec bytes bytes_per_sec
    relayed_total max_relayed_bytes].
  change (as_byte_bucket (token_new (messages_per_conn_per_sec cfg) t0))
    with (byte_new (messages_per_conn_per_sec cfg) t0).
  rewrite !andb_true_iff, !orb_true_iff, !negb_true_iff, !Z.ltb_ge.
  rewrite !byte_spend_all_full by auto with relay.
  destruct (decide (0 < max_relayed_bytes_per_conn cfg)).
  - rewrite total_within_iff by (done || lia). rewrite Z.add_0_l.
    destruct (decide (0 < messages_per_conn_per_sec cfg)),
      (decide (0 < bytes_per_conn_per_sec cfg)); intuition lia.
  - destruct (decide (0 < messages_per_conn_per_sec cfg)),
      (decide (0 < bytes_per_conn_per_sec cfg)); intuition lia.
Qed.

Lemma per_conn_limiter_exact_witness :
  admit_all (limiter_new config_default 5000) [(1048576, 5100); (1048576, 6000)] = true ∧
  admit_all (limiter_new config_default 5000) [(1048576, 5100); (1, 5200)] = false.
Proof.
  split.
  - apply per_conn_limiter_exact.
    + apply (bool_decide_unpack _). vm_compute. exact I.
    + reflexivity.
    + apply (bool_decide_unpack _). vm_compute. exact I.
    + simpl. lia.
    + unfold ones. cbn [map window_cost fst snd].
      change (5100 / 1000) with 5. change (6000 / 1000) with 6.
      split; [|split]; intros _; [intros w|intros w|vm_compute; discriminate];
        destruct (5 =? w) eqn:E5, (6 =? w) eqn:E6; propify; try (subst; discriminate);
        vm_compute; discriminate.
  - reflexivity.
Defined.

(** C29: the per-IP registration limit grants, to every source and in every one-second window,
    exactly the smaller of the configured rate and the attempts made, whatever other sources do, as
    long as at most 65536 sources are in play (beyond that the oldest bucket is recycled), for a
    positive rate and a clock that does not go back. *)
Theorem registration_rate_exact `{HashOrder} p k w reqs t0 :
  0 < ap_registrations_per_ip_per_sec p →
  monotone_from t0 (map (λ r, (1, r.2)) (by_key reqs)) →
  Z.of_nat (size (keys_of (by_key reqs))) ≤ MAX_TRACKED_IPS →
  registrations_granted p abuse_state_default k w reqs =
    Z.min (ap_registrations_per_ip_per_sec p) (requests_in w (times_of k (by_key reqs))).
Proof.
  intros Hcap Hm Hs. rewrite registrations_granted_keyed by lia.
  by eapply keyed_granted_fresh; [lia|..].
Qed.

Lemma registration_rate_exact_witness :
  let _ := gmap_order in
  registrations_granted (policy_new config_default) abuse_state_default (IpV4 (MkV4 1 2 3 4)) 7
    (replicate 15 (IpV4 (MkV4 1 2 3 4), 7500)) = 10.
Proof.
  intros ord.
  rewrite (@registration_rate_exact ord (policy_new config_default) (IpV4 (MkV4 1 2 3 4)) 7
    (replicate 15 (IpV4 (MkV4 1 2 3 4), 7500)) 0).
  - reflexivity.
  - reflexivity.
  - vm_compute. repeat split; discriminate.
  - vm_compute. discriminate.
Defined.

(** Two addresses share every per-source budget exactly when they are one IPv4 address, with an
    IPv4-mapped IPv6 address counting as the IPv4 address it maps, or lie in one IPv6 /64. *)
Theorem ip_key_sources a b : ip_key a = ip_key b ↔ same_source a b.
Proof. apply ip_key_same_source. Qed.

(** The per-IP connection cap. Over every sequence of connection attempts and slot drops the
    counters never underflow, equal the number of live slots per source with no stale or zero entry
    left behind, never exceed the cap, and a further attempt succeeds exactly when the source holds
    fewer live slots than the cap. *)
Theorem conn_slots_exact p ops :
  0 ≤ ap_max_connections_per_ip p →
  ∃ s live, slot_run (H := conn_pool p) (abuse_state_default, []) ops = Some (s, live) ∧
    counts_match (conns_per_ip s) live ∧
    (ap_max_connections_per_ip p ≠ 0 → Forall (λ sl, slot_tracked sl = true) live ∧
       ∀ k, live_count k live ≤ ap_max_connections_per_ip p) ∧
    ∀ ip, is_Some (try_acquire_conn p s ip).1 ↔
      ap_max_connections_per_ip p = 0 ∨
      live_count (ip_key ip) live < ap_max_connections_per_ip p.
Proof. apply (slot_run_exact (H := conn_pool p)). Qed.

Lemma conn_slots_exact_witness :
  let p := policy_new config_default in
  ∃ s live, slot_run (H := conn_pool p) (abuse_state_default, [])
    [OpAcquire (IpV4 (MkV4 1 2 3 4)); OpAcquire (IpV4 (MkV4 1 2 3 4)); OpDrop 0] = Some (s, live) ∧
    counts_match (conns_per_ip s) live.
Proof.
  intros p. destruct (conn_slots_exact p
    [OpAcquire (IpV4 (MkV4 1 2 3 4)); OpAcquire (IpV4 (MkV4 1 2 3 4)); OpDrop 0])
    as (s & live & Hrun & Hm & _); [vm_compute; discriminate|].
  exists s, live. split; [exact Hrun|exact Hm].
Defined.

(** The per-IP cap on concurrent registrations has the same guarantees for the slots handed
    out: exact counts, never above the cap, no underflow, no leak. *)
Theorem reg_slots_exact p ops :
  0 ≤ ap_max_registrations_per_ip p →
  ∃ s live, slot_run (H := reg_pool p) (abuse_state_default, []) ops = Some (s, live) ∧
    counts_match (regs_per_ip s) live ∧
    (ap_max_registrations_per_ip p ≠ 0 → Forall (λ sl, slot_tracked sl = true) live ∧
       ∀ k, live_count k live ≤ ap_max_registrations_per_ip p) ∧
    ∀ ip, is_Some (try_acquire_registration p s ip).1 ↔
      ap_max_registrations_per_ip p = 0 ∨
      live_count (ip_key ip) live < ap_max_registrations_per_ip p.
Proof. apply (slot_run_exact (H := reg_pool p)). Qed.

Lemma reg_slots_exact_witness :
  let p := policy_new config_default in
  ∃ s live, slot_run (H := reg_pool p) (abuse_state_default, [])
    [OpAcquire (IpV4 (MkV4 1 2 3 4)); OpDrop 0] = Some (s, live) ∧ live = [] ∧ regs_per_ip s = ∅.
Proof.
  intros p. destruct (reg_slots_exact p [OpAcquire (IpV4 (MkV4 1 2 3 4)); OpDrop 0])
    as (s & live & Hrun & _); [vm_compute; discriminate|].
  exists s, live. split; [exact Hrun|].
  vm_compute in Hrun. injection Hrun as <- <-. split; reflexivity.
Defined.

(** Under any sequence of operations, with any source addresses, the rate-bucket, strike and
    ban maps each hold at most 65536 sources. *)
Theorem abuse_maps_bounded `{HashOrder} p ops s :
  abuse_run p abuse_state_default ops = Some s → maps_bounded s.
Proof.
  assert (maps_bounded abuse_state_default) as Hinit by (vm_compute; split_and!; discriminate).
  revert Hinit. generalize abuse_state_default. induction ops as [|op ops IH]; simpl; intros s0 Hb.
  - by intros [= <-].
  - destruct (abuse_op p s0 op) as [s1|] eqn:E; simpl; [|done].
    apply IH. by eapply abuse_op_bounded.
Qed.

Lemma abuse_maps_bounded_witness :
  let _ := gmap_order in
  ∃ s, abuse_run (policy_new config_default) abuse_state_default
    [AllowReg (IpV4 (MkV4 1 2 3 4)) 10; Strike (IpV4 (MkV4 1 2 3 4)) 20] = Some s ∧ maps_bounded s.
Proof.
  intros ord. eexists. split; [reflexivity|].
  apply (@abuse_maps_bounded ord (policy_new config_default)
    [AllowReg (IpV4 (MkV4 1 2 3 4)) 10; Strike (IpV4 (MkV4 1 2 3 4)) 20]).
  reflexivity.
Defined.

(** C30: a source that never struck before is banned by exactly [ban_threshold] strikes within the
    strike window, counted over all addresses of the source, and not by one fewer, for a
    threshold above one; the ban then holds
    until the last strike's time plus the ban duration, at which it lapses. *)
Theorem ban_after_threshold `{HashOrder} p s k ip1 t1 evs ipn tn t :
  is_u32 (ap_ban_threshold p) → 1 < ap_ban_threshold p → 0 ≤ ap_ban_strike_window_ms p →
  strikes s !! k = None → bans s !! k = None → ip_key ip1 = k → ip_key ipn = k →
  Forall (λ ev, ip_key ev.1 = k ∧ ev.2 - t1 ≤ ap_ban_strike_window_ms p) evs →
  tn - t1 ≤ ap_ban_strike_window_ms p →
  Z.of_nat (length evs) = ap_ban_threshold p - 2 →
  (is_banned p (strike_run p s ((ip1, t1) :: evs)) ip1 t).1 = false ∧
  (is_banned p (strike_run p s ((ip1, t1) :: evs ++ [(ipn, tn)])) ip1 t).1 =
    (t <? sat_add u64_max tn (ap_ban_duration_ms p)).
Proof.
  intros Hu Ht Hw Hs Hb <- Hkn Hall Hin Hlen.
  destruct (record_strike_first p s ip1 t1) as [Hs1 Hb1]; [done..|].
  destruct (strike_run_window p (record_strike p s ip1 t1) (ip_key ip1) 1 t1 t1 evs)
    as [[last Hs2] Hb2]; [done|done|lia|lia|done|done|].
  cbn [strike_run foldl fst snd] in *.
  unfold is_banned. rewrite !(proj2 (Z.eqb_neq _ 0)) by lia. split.
  - unfold strike_run in Hb2. by rewrite Hb2, Hb1, Hb.
  - rewrite foldl_app. cbn [foldl fst snd]. unfold strike_run in *.
    pose proof (record_strike_next p _ ipn tn (1 + Z.of_nat (length evs)) t1 last Hu
      ltac:(lia) ltac:(lia)
      ltac:(rewrite Hkn; exact Hs2) Hin Hw) as Hn.
    rewrite (proj2 (Z.ltb_ge _ _)), Hkn in Hn by lia. destruct Hn as [_ ->].
    by case_test.
Qed.

Lemma ban_after_threshold_witness :
  let _ := gmap_order in
  (is_banned (policy_new config_default)
    (strike_run (policy_new config_default) abuse_state_default
      ((IpV4 (MkV4 1 2 3 4), 1000) :: replicate 18 (IpV4 (MkV4 1 2 3 4), 2000)
         ++ [(IpV6 (to_ipv6_mapped (MkV4 1 2 3 4)), 3000)])) (IpV4 (MkV4 1 2 3 4)) 302999).1 = true.
Proof.
  intros ord.
  destruct (@ban_after_threshold ord (policy_new config_default) abuse_state_default
    (IpV4 (MkV4 1 2 3 4)) (IpV4 (MkV4 1 2 3 4)) 1000 (replicate 18 (IpV4 (MkV4 1 2 3 4), 2000))
    (IpV6 (to_ipv6_mapped (MkV4 1 2 3 4))) 3000 302999) as [_ Hb].
  - vm_compute. split; discriminate.
  - reflexivity.
  - vm_compute. discriminate.
  - reflexivity.
  - reflexivity.
  - reflexivity.
  - reflexivity.
  - apply Forall_replicate. split; [reflexivity|vm_compute; discriminate].
  - vm_compute. discriminate.
  - reflexivity.
  - etransitivity; [exact Hb|reflexivity].
Defined.

(** Strikes that are each more than one strike window after the previous one never ban, however
    many there are, and a strike never bans another source. *)
Theorem spaced_strikes_never_ban `{HashOrder} p s k ip1 t1 evs :
  1 < ap_ban_threshold p → 0 ≤ ap_ban_strike_window_ms p →
  strikes s !! k = None → ip_key ip1 = k →
  Forall (λ ev, ip_key ev.1 = k) evs →
  (∀ i a b, ((ip1, t1) :: evs) !! i = Some a → ((ip1, t1) :: evs) !! S i = Some b →
     ap_ban_strike_window_ms p < b.2 - a.2) →
  bans (strike_run p s ((ip1, t1) :: evs)) = bans s ∧
  ∀ ip now k' until, k' ≠ ip_key ip →
    bans (record_strike p s ip now) !! k' = Some until → bans s !! k' = Some until.
Proof.
  intros Ht Hw Hs Hk Hall Hgap. split; [|intros; by eapply record_strike_other].
  destruct (record_strike_first p s ip1 t1) as [Hs1 Hb1]; [done|done|by rewrite Hk|].
  cbn [strike_run foldl fst snd]. rewrite <- Hb1. rewrite Hk in Hs1. clear Hb1 Hs Hk.
  revert Hs1. generalize (record_strike p s ip1 t1). clear s.
  revert ip1 t1 Hgap. induction Hall as [|[ip t] evs Hk Hall IH]; intros ip1 t1 Hgap s Hs1; [done|].
  simpl in Hk. subst k. cbn [foldl fst snd].
  destruct (record_strike_reset p s ip t 1 t1 t1) as [Hs2 Hb2]; [done..| |].
  { by apply (Hgap 0%nat (ip1, t1) (ip, t)). }
  rewrite <- Hb2. apply (IH ip t); [|done].
  intros i a b Ha Hb. by apply (Hgap (S i)).
Qed.

Lemma spaced_strikes_never_ban_witness :
  let _ := gmap_order in
  bans (strike_run (policy_new config_default) abuse_state_default
    [(IpV4 (MkV4 1 2 3 4), 1000); (IpV4 (MkV4 1 2 3 4), 62000)]) = ∅.
Proof.
  intros ord.
  apply (@spaced_strikes_never_ban ord (policy_new config_default) abuse_state_default
    (IpV4 (MkV4 1 2 3 4)) (IpV4 (MkV4 1 2 3 4)) 1000 [(IpV4 (MkV4 1 2 3 4), 62000)]).
  - reflexivity.
  - vm_compute. discriminate.
  - reflexivity.
  - reflexivity.
  - repeat constructor.
  - intros [|[|i]] a b Ha Hb; simpl in *; simplify_eq. vm_compute. reflexivity.
Defined.
