(* ===== verification/Dial.v ===== *)
(** * Direct-dial candidates (src/dial.rs)

    How the relay turns a peer's advertised listen addresses and its observed source IP into the
    addresses it hands to other peers. The family ranking of the [dig_ip] crate is a parameter. *)

From S2P Require Import Prelude Net.

(** [dig_ip::Family::of] as a sort key. The laws are what its documentation (quoted in the source)
    says: IPv6 ranks before IPv4, and an IPv4-mapped IPv6 address counts as IPv4. *)
Class DigIp := {
  family_of : SocketAddr → Z;
  family_v6_first : ∀ a b,
    is_ipv6 (to_canonical (sa_ip a)) = true → is_ipv4 (to_canonical (sa_ip b)) = true →
    family_of a < family_of b;
  family_same : ∀ a b,
    is_ipv4 (to_canonical (sa_ip a)) = is_ipv4 (to_canonical (sa_ip b)) → family_of a = family_of b
}.

Definition MAX_DIALABLE_CANDIDATES : nat := 8.

Definition canonical (ip : IpAddr) : IpAddr :=
  match ip with
  | IpV6 v6 => match to_ipv4_mapped v6 with Some v4 => IpV4 v4 | None => IpV6 v6 end
  | v4 => v4
  end.

Definition same_ipv6_prefix64 (a b : Ipv6Addr) : bool :=
  bool_decide (take 4 (v6_segments a) = take 4 (v6_segments b)).

Definition belongs_to_source (advertised reflexive : IpAddr) : bool :=
  match canonical advertised, canonical reflexive with
  | IpV4 a, IpV4 r => bool_decide (a = r)
  | IpV6 a, IpV6 r => same_ipv6_prefix64 a r
  | _, _ => false
  end.

(** Unique-local [fc00::/7] or link-local [fe80::/10]. *)
Definition is_ipv6_local (v6 : Ipv6Addr) : bool :=
  let leading := v6_0 v6 in
  (Z.land leading 0xfe00 =? 0xfc00) || (Z.land leading 0xffc0 =? 0xfe80).

Definition is_unroutable_v4 (v4 : Ipv4Addr) : bool :=
  v4_is_unspecified v4 || v4_is_loopback v4 || v4_is_private v4 || v4_is_link_local v4.

Definition is_unroutable (ip : IpAddr) : bool :=
  match ip with
  | IpV4 v4 => is_unroutable_v4 v4
  | IpV6 v6 =>
      match to_ipv4_mapped v6 with
      | Some v4 => is_unroutable_v4 v4
      | None => v6_is_unspecified v6 || v6_is_loopback v6 || is_ipv6_local v6
      end
  end.

Definition resolve_one (candidate : SocketAddr) (reflexive : IpAddr) : SocketAddr :=
  let keep_verbatim :=
    negb (is_unroutable (sa_ip candidate)) && belongs_to_source (sa_ip candidate) reflexive in
  if keep_verbatim then candidate else sa_new reflexive (sa_port candidate).

(** The [seen.insert] filter: the first occurrence of each address. *)
Fixpoint first_occurrences (seen l : list SocketAddr) : list SocketAddr :=
  match l with
  | [] => []
  | a :: l' =>
      if bool_decide (a ∈ seen) then first_occurrences seen l'
      else a :: first_occurrences (a :: seen) l'
  end.

Section dial.
Context `{DigIp}.

Definition family_leb (a b : SocketAddr) : bool := family_of a <=? family_of b.

Definition order_ipv6_first (candidates : list SocketAddr) : list SocketAddr :=
  sort_by family_leb candidates.

Definition resolve_dialable (advertised : list SocketAddr) (reflexive : IpAddr)
    : list SocketAddr :=
  order_ipv6_first
    (take MAX_DIALABLE_CANDIDATES
       (first_occurrences [] (map (λ c, resolve_one c reflexive) advertised))).

(** ** Lemmas *)

Lemma canonical_to_canonical ip : canonical ip = to_canonical ip.
Proof. by destruct ip. Qed.

Lemma belongs_same_source a r : belongs_to_source a r = true ↔ same_source a r.
Proof.
  unfold belongs_to_source, same_source, same_ipv6_prefix64. rewrite !canonical_to_canonical.
  destruct (to_canonical a), (to_canonical r); rewrite ?bool_decide_eq_true; done.
Qed.

Lemma resolve_one_source c r : same_source (sa_ip (resolve_one c r)) r.
Proof.
  unfold resolve_one. case_test; propify.
  - by apply belongs_same_source.
  - rewrite sa_ip_new. apply same_source_refl.
Qed.

Lemma resolve_one_port c r : sa_port (resolve_one c r) = sa_port c.
Proof. unfold resolve_one. case_test; [done|]. apply sa_port_new. Qed.

Lemma elem_of_first_occurrences a seen l :
  a ∈ first_occurrences seen l ↔ a ∈ l ∧ a ∉ seen.
Proof.
  revert seen. induction l as [|b l IH]; intros seen; simpl; [set_solver|].
  case_bool_decide as Hb.
  - rewrite IH. set_solver.
  - rewrite elem_of_cons, IH. destruct (decide (a = b)); set_solver.
Qed.

Lemma NoDup_first_occurrences seen l : NoDup (first_occurrences seen l).
Proof.
  revert seen. induction l as [|b l IH]; intros seen; simpl; [constructor|].
  case_bool_decide; [apply IH|]. constructor; [|apply IH].
  rewrite elem_of_first_occurrences. set_solver.
Qed.

Lemma length_first_occurrences seen l : (length (first_occurrences seen l) ≤ length l)%nat.
Proof.
  revert seen. induction l as [|b l IH]; intros seen; simpl; [lia|].
  case_bool_decide; [specialize (IH seen)|specialize (IH (b :: seen)); simpl]; lia.
Qed.

Lemma family_leb_total a b : family_leb a b = true ∨ family_leb b a = true.
Proof. unfold family_leb. rewrite !Z.leb_le. lia. Qed.

Lemma family_leb_trans a b c :
  family_leb a b = true → family_leb b c = true → family_leb a c = true.
Proof. unfold family_leb. rewrite !Z.leb_le. lia. Qed.

Lemma elem_of_resolve_dialable a adv r :
  a ∈ resolve_dialable adv r → ∃ c, c ∈ adv ∧ a = resolve_one c r.
Proof.
  unfold resolve_dialable, order_ipv6_first. rewrite elem_of_sort_by.
  intros Ha%elem_of_take. destruct Ha as (i & Hi & _).
  apply list_elem_of_lookup_2, elem_of_first_occurrences in Hi as [Hi _].
  by apply list_elem_of_fmap in Hi as (c & -> & ?); eauto.
Qed.

(** ** Properties *)

(** C25: nobody can make the relay point other peers at a third party. Every address handed out has
    the observed source's own IP (the same IPv4 address, or the same IPv6 /64) and the port of one of
    the peer's own candidates; there are at most 8, without repetition, and every IPv6 address
    comes before every IPv4 one. *)
Theorem resolve_dialable_safe adv r :
  Forall (λ a, same_source (sa_ip a) r ∧ ∃ c, c ∈ adv ∧ sa_port a = sa_port c)
    (resolve_dialable adv r) ∧
  (length (resolve_dialable adv r) ≤ 8)%nat ∧
  NoDup (resolve_dialable adv r) ∧
  StronglySorted (λ a b, is_ipv4 (to_canonical (sa_ip a)) = true →
                         is_ipv4 (to_canonical (sa_ip b)) = true) (resolve_dialable adv r).
Proof.
  split_and!.
  - apply Forall_forall. intros a (c & Hc & ->)%elem_of_resolve_dialable.
    split; [apply resolve_one_source|]. exists c. by rewrite resolve_one_port.
  - unfold resolve_dialable, order_ipv6_first, MAX_DIALABLE_CANDIDATES.
    rewrite length_sort_by, length_take. lia.
  - unfold resolve_dialable, order_ipv6_first. apply NoDup_sort_by.
    eapply sublist_NoDup; [apply NoDup_first_occurrences|apply sublist_take].
  - unfold resolve_dialable, order_ipv6_first.
    eapply StronglySorted_weaken; [|apply sort_by_sorted; auto using family_leb_total].
    2: exact family_leb_trans.
    intros a b Hle Ha. unfold family_leb in Hle. propify.
    destruct (is_ipv4 (to_canonical (sa_ip b))) eqn:Hb; [done|].
    pose proof (family_v6_first b a) as Hlt. unfold is_ipv6 in Hlt. rewrite Hb in Hlt.
    specialize (Hlt eq_refl Ha). lia.
Qed.

(** Nothing is lost for an honest peer. Up to 8 candidates, the addresses handed out are exactly
    the candidates' resolutions, where a globally routable candidate of the peer's own source is
    kept verbatim and any other becomes the observed IP with the candidate's port; within a family
    the advertised order is kept. *)
Theorem resolve_dialable_complete adv r :
  (length adv ≤ 8)%nat →
  (∀ a, a ∈ resolve_dialable adv r ↔ ∃ c, c ∈ adv ∧ a = resolve_one c r) ∧
  (∀ c, c ∈ adv →
     (is_unroutable (sa_ip c) = false ∧ same_source (sa_ip c) r → resolve_one c r = c) ∧
     (is_unroutable (sa_ip c) = true ∨ ¬ same_source (sa_ip c) r →
        resolve_one c r = sa_new r (sa_port c))) ∧
  (∀ f, filter (λ a, is_ipv4 (to_canonical (sa_ip a)) = f) (resolve_dialable adv r) =
        filter (λ a, is_ipv4 (to_canonical (sa_ip a)) = f)
          (first_occurrences [] (map (λ c, resolve_one c r) adv))).
Proof.
  intros Hlen.
  assert (resolve_dialable adv r =
    order_ipv6_first (first_occurrences [] (map (λ c, resolve_one c r) adv))) as E.
  { unfold resolve_dialable, MAX_DIALABLE_CANDIDATES. f_equal. apply take_ge.
    etransitivity; [apply length_first_occurrences|]. by rewrite length_map. }
  split_and!.
  - intros a. split; [apply elem_of_resolve_dialable|]. intros (c & Hc & ->).
    rewrite E. unfold order_ipv6_first. rewrite elem_of_sort_by, elem_of_first_occurrences.
    split; [|set_solver]. apply list_elem_of_fmap. eauto.
  - intros c _. unfold resolve_one. split.
    + intros [-> Hs%belongs_same_source]. by rewrite Hs.
    + intros [->|Hs]; [done|]. rewrite <- belongs_same_source in Hs.
      apply not_true_is_false in Hs as ->. by rewrite andb_false_r.
  - intros f. rewrite E. apply sort_by_stable. intros a b <- Hb.
    unfold family_leb. apply Z.leb_le. by rewrite (family_same a b).
Qed.
End dial.

(** The ranking the crate documents, for concrete evaluations. *)
Definition dig_ip_rank : DigIp.
Proof.
  refine {| family_of := λ a, if is_ipv4 (to_canonical (sa_ip a)) then 1 else 0 |}.
  - unfold is_ipv6. intros a b Ha Hb. destruct (is_ipv4 _); [done|]. rewrite Hb. lia.
  - by intros a b ->.
Defined.

Lemma resolve_dialable_safe_witness :
  let _ := dig_ip_rank in
  let victim := SaV4 (MkV4 198 51 100 7) 80 in
  let own := IpV4 (MkV4 203 0 113 9) in
  resolve_dialable [victim] own = [SaV4 (MkV4 203 0 113 9) 80] ∧
  (length (resolve_dialable [victim] own) ≤ 8)%nat.
Proof. split; [reflexivity|]. apply (@resolve_dialable_safe dig_ip_rank). Defined.

Lemma resolve_dialable_complete_witness :
  let _ := dig_ip_rank in
  let adv := [SaV6 V6_UNSPECIFIED 9444 0 0; SaV4 (MkV4 203 0 113 9) 9445] in
  let own := IpV4 (MkV4 203 0 113 9) in
  SaV4 (MkV4 203 0 113 9) 9444 ∈ resolve_dialable adv own ∧
  length (resolve_dialable adv own) = 2%nat.
Proof.
  split; [|reflexivity].
  destruct (@resolve_dialable_complete dig_ip_rank
    [SaV6 V6_UNSPECIFIED 9444 0 0; SaV4 (MkV4 203 0 113 9) 9445] (IpV4 (MkV4 203 0 113 9)))
    as [Hin _]; [simpl; lia|].
  apply Hin. exists (SaV6 V6_UNSPECIFIED 9444 0 0). split; [by left|reflexivity].
Defined.
