(* ===== verification/Channel.v ===== *)
(** * Bounded channels (tokio::sync::mpsc as the relay uses it)

    The relay's outbound queues are channels of the tokio crate, so a channel is a parameter: its
    operations are the class [Mpsc], what the crate documents of them is [MpscLaws]. Senders are
    shared by reference (a clone of a sender feeds the same queue), so the channels live in a store
    and a sender is the id of its channel; the store and the ways the relay sends are defined
    here. *)

From S2P Require Import Prelude.

Inductive TrySend : Type := Sent | Full | Closed.

(** The operations: [mpsc::channel(capacity)], [Sender::is_closed], [Sender::try_send],
    [Receiver::recv] when a message is queued, and dropping the receiver. *)
Class Mpsc := {
  Chan : Type → Type;
  chan_new : ∀ {A}, Z → Chan A;
  chan_is_closed : ∀ {A}, Chan A → bool;
  chan_try_send : ∀ {A}, Chan A → A → TrySend * Chan A;
  chan_recv : ∀ {A}, Chan A → option (A * Chan A);
  chan_close : ∀ {A}, Chan A → Chan A }.

(** The documented behaviour, in terms of the messages queued and the capacity: a bounded FIFO
    whose sends fail, changing nothing, when it is full or its receiver is gone, and whose receiver
    gets what is queued. A capacity of zero
    panics, so nothing is said of it. *)
Class MpscLaws `{Mpsc} := {
  ch_queue : ∀ {A}, Chan A → list A;
  ch_cap : ∀ {A}, Chan A → Z;
  chan_new_law : ∀ A cap, 0 < cap →
    ch_queue (A := A) (chan_new cap) = [] ∧ ch_cap (A := A) (chan_new cap) = cap ∧
    chan_is_closed (A := A) (chan_new cap) = false;
  chan_closed_law : ∀ A (c : Chan A) m,
    chan_is_closed c = true → chan_try_send c m = (Closed, c);
  chan_full_law : ∀ A (c : Chan A) m,
    chan_is_closed c = false → ch_cap c ≤ Z.of_nat (length (ch_queue c)) →
    chan_try_send c m = (Full, c);
  chan_sent_law : ∀ A (c : Chan A) m,
    chan_is_closed c = false → Z.of_nat (length (ch_queue c)) < ch_cap c →
    let c' := (chan_try_send c m).2 in
    (chan_try_send c m).1 = Sent ∧ ch_queue c' = ch_queue c ++ [m] ∧ ch_cap c' = ch_cap c ∧
    chan_is_closed c' = false;
  chan_recv_law : ∀ A (c : Chan A) m c',
    chan_recv c = Some (m, c') →
    ch_queue c = m :: ch_queue c' ∧ ch_cap c' = ch_cap c ∧ chan_is_closed c' = chan_is_closed c;
  chan_recv_queued : ∀ A (c : Chan A) m q, ch_queue c = m :: q → is_Some (chan_recv c);
  chan_close_law : ∀ A (c : Chan A),
    ch_queue (chan_close c) = [] ∧ ch_cap (chan_close c) = ch_cap c ∧
    chan_is_closed (chan_close c) = true }.

Abbreviation Chans A := (gmap nat (Chan A)).

Section sends.
Context `{Mpsc} {A : Type}.
Implicit Types (cs : Chans A) (tx : nat) (m : A).

(** [Sender::is_closed] through the store. *)
Definition is_closed cs tx : bool :=
  match cs !! tx with Some c => chan_is_closed c | None => true end.

(** [let _ = tx.try_send(m)]: the outcome is ignored. *)
Definition try_send cs tx m : Chans A :=
  match cs !! tx with
  | Some c => <[tx := (chan_try_send c m).2]> cs
  | None => cs
  end.

Definition send_all cs tx (ms : list A) : Chans A := foldl (λ cs m, try_send cs tx m) cs ms.

(** The same message to every target of a fan-out. *)
Definition fan_out cs (targets : list (string * nat)) m : Chans A :=
  foldl (λ cs t, try_send cs t.2 m) cs targets.
End sends.

(** ** The channel as a record: an instance of the class *)

Record ListChan (A : Type) := MkChan { lc_queue : list A; lc_cap : Z; lc_closed : bool }.
Arguments MkChan {A} lc_queue lc_cap lc_closed.
Arguments lc_queue {A} _.
Arguments lc_cap {A} _.
Arguments lc_closed {A} _.

Definition mpsc_list : Mpsc := {|
  Chan := ListChan;
  chan_new := λ _ capacity, MkChan [] capacity false;
  chan_is_closed := λ _ c, lc_closed c;
  chan_try_send := λ _ c m,
    if lc_closed c then (Closed, c)
    else if lc_cap c <=? Z.of_nat (length (lc_queue c)) then (Full, c)
    else (Sent, MkChan (lc_queue c ++ [m]) (lc_cap c) (lc_closed c));
  chan_recv := λ _ c,
    match lc_queue c with
    | m :: q => Some (m, MkChan q (lc_cap c) (lc_closed c))
    | [] => None
    end;
  chan_close := λ _ c, MkChan [] (lc_cap c) true
|}.

Definition mpsc_list_laws : @MpscLaws mpsc_list.
Proof.
  refine (@Build_MpscLaws mpsc_list (λ _ c, lc_queue c) (λ _ c, lc_cap c) _ _ _ _ _ _ _); simpl.
  - done.
  - by intros A [q cap []] m.
  - intros A [q cap cl] m; simpl. intros -> Hle. by destruct (Z.leb_spec cap (Z.of_nat (length q))); [|lia].
  - intros A [q cap cl] m; simpl. intros -> Hlt. by destruct (Z.leb_spec cap (Z.of_nat (length q))); [lia|].
  - intros A [[|x q] cap cl] m c'; simpl; [done|]. by intros [= <- <-].
  - intros A [[|x q] cap cl] m q'; simpl; [done|]. by eexists.
  - done.
Defined.

Section channels.
Context `{MpscLaws} {A : Type}.
Implicit Types (cs : Chans A) (tx : nat) (m : A).

(** The three outcomes of a send, as one case analysis. *)
Inductive SendSpec (c : Chan A) m (c' : Chan A) : Prop :=
| send_dropped : c' = c → SendSpec c m c'
| send_queued :
    Z.of_nat (length (ch_queue c)) < ch_cap c → ch_queue c' = ch_queue c ++ [m] →
    ch_cap c' = ch_cap c → chan_is_closed c' = chan_is_closed c → SendSpec c m c'.

Lemma chan_try_send_spec (c : Chan A) m : SendSpec c m (chan_try_send c m).2.
Proof.
  destruct (chan_is_closed c) eqn:Ec; [left; by rewrite chan_closed_law|].
  destruct (Z.ltb_spec (Z.of_nat (length (ch_queue c))) (ch_cap c)) as [Hlt|Hle].
  - destruct (chan_sent_law A c m Ec Hlt) as (_ & Eq & Ecap & Eo). right; congruence.
  - left. by rewrite chan_full_law.
Qed.

(** What the queue of a channel holds. *)
Definition queue cs tx : list A :=
  match cs !! tx with Some c => ch_queue c | None => [] end.

(** ** Sending only appends, and only to its target *)

Lemma try_send_ne cs tx tx' m : tx ≠ tx' → try_send cs tx m !! tx' = cs !! tx'.
Proof. intros Hne. unfold try_send. destruct (cs !! tx); [by rewrite lookup_insert_ne|done]. Qed.

Lemma queue_try_send_ne cs tx tx' m : tx ≠ tx' → queue (try_send cs tx m) tx' = queue cs tx'.
Proof. intros. unfold queue. by rewrite try_send_ne. Qed.

Lemma queue_try_send cs tx m :
  queue (try_send cs tx m) tx = queue cs tx ∨ queue (try_send cs tx m) tx = queue cs tx ++ [m].
Proof.
  unfold queue, try_send. destruct (cs !! tx) as [c|] eqn:E; [|rewrite E; by left].
  rewrite lookup_insert_eq. destruct (chan_try_send_spec c m) as [->|? Eq ? ?]; eauto.
Qed.

Lemma is_closed_try_send cs tx tx' m : is_closed (try_send cs tx m) tx' = is_closed cs tx'.
Proof.
  unfold is_closed. destruct (decide (tx = tx')) as [<-|Hne]; [|by rewrite try_send_ne].
  unfold try_send. destruct (cs !! tx) as [c|] eqn:E; [|by rewrite E].
  rewrite lookup_insert_eq. by destruct (chan_try_send_spec c m) as [->|? ? ? ->].
Qed.

Lemma dom_try_send cs tx m : dom (try_send cs tx m) = dom cs.
Proof.
  unfold try_send. destruct (cs !! tx) eqn:E; [|done].
  rewrite dom_insert_L. apply elem_of_dom_2 in E. set_solver.
Qed.

(** A message goes out in full: what is new in the queue is one of the messages sent. *)
Definition appended cs cs' tx (P : A → Prop) : Prop :=
  ∃ new, queue cs' tx = queue cs tx ++ new ∧ Forall P new.

Lemma appended_refl cs tx P : appended cs cs tx P.
Proof. exists []. by rewrite app_nil_r. Qed.

Lemma appended_trans cs1 cs2 cs3 tx P :
  appended cs1 cs2 tx P → appended cs2 cs3 tx P → appended cs1 cs3 tx P.
Proof.
  intros (n1 & E1 & H1) (n2 & E2 & H2). exists (n1 ++ n2).
  rewrite E2, E1, app_assoc. split; [done|]. by apply Forall_app.
Qed.

Lemma appended_weaken cs cs' tx (P Q : A → Prop) :
  (∀ m, P m → Q m) → appended cs cs' tx P → appended cs cs' tx Q.
Proof. intros HPQ (n & E & Hn). exists n. split; [done|]. by eapply Forall_impl. Qed.

Lemma appended_try_send cs tx tx' m (P : A → Prop) :
  (tx = tx' → P m) → appended cs (try_send cs tx m) tx' P.
Proof.
  intros HP. destruct (decide (tx = tx')) as [<-|Hne].
  - destruct (queue_try_send cs tx m) as [E|E]; [exists []; by rewrite E, app_nil_r|].
    exists [m]. rewrite E. split; [done|]. constructor; auto.
  - exists []. by rewrite queue_try_send_ne, app_nil_r.
Qed.

Lemma appended_send_all cs tx tx' ms (P : A → Prop) :
  (tx = tx' → Forall P ms) → appended cs (send_all cs tx ms) tx' P.
Proof.
  revert cs. induction ms as [|m ms IH]; intros cs HP; simpl; [apply appended_refl|].
  eapply appended_trans; [apply appended_try_send|apply IH].
  - intros E. by apply HP, Forall_cons in E as [? _].
  - intros E. by apply HP, Forall_cons in E as [_ ?].
Qed.

Lemma appended_fan_out cs targets m tx' (P : A → Prop) :
  (tx' ∈ targets.*2 → P m) → appended cs (fan_out cs targets m) tx' P.
Proof.
  revert cs. unfold fan_out. induction targets as [|[id tx] targets IH]; intros cs HP; simpl;
    [apply appended_refl|].
  eapply appended_trans; [apply appended_try_send|apply IH].
  - simpl. intros <-. apply HP. simpl. by left.
  - intros Hin. apply HP. simpl. by right.
Qed.

Lemma is_closed_fan_out cs targets m tx : is_closed (fan_out cs targets m) tx = is_closed cs tx.
Proof.
  revert cs. unfold fan_out. induction targets as [|t targets IH]; intros cs; simpl; [done|].
  by rewrite IH, is_closed_try_send.
Qed.

Lemma is_closed_send_all cs tx tx' ms : is_closed (send_all cs tx ms) tx' = is_closed cs tx'.
Proof.
  revert cs. unfold send_all. induction ms as [|t ms IH]; intros cs; simpl; [done|].
  by rewrite IH, is_closed_try_send.
Qed.

Lemma dom_fan_out cs targets m : dom (fan_out cs targets m) = dom cs.
Proof.
  revert cs. unfold fan_out. induction targets as [|t targets IH]; intros cs; simpl; [done|].
  by rewrite IH, dom_try_send.
Qed.

Lemma dom_send_all cs tx ms : dom (send_all cs tx ms) = dom cs.
Proof.
  revert cs. unfold send_all. induction ms as [|t ms IH]; intros cs; simpl; [done|].
  by rewrite IH, dom_try_send.
Qed.

(** ** Queues stay within their capacity *)

Definition chan_ok (c : Chan A) : Prop := Z.of_nat (length (ch_queue c)) ≤ ch_cap c.

Definition chans_ok (cap : Z) cs : Prop :=
  map_Forall (λ _ c, ch_cap c = cap ∧ chan_ok c) cs.

Lemma chans_ok_try_send cap cs tx m : chans_ok cap cs → chans_ok cap (try_send cs tx m).
Proof.
  intros Hok. unfold try_send. destruct (cs !! tx) as [c|] eqn:E; [|done].
  apply map_Forall_insert_2; [|done]. destruct (Hok _ _ E) as [Hcap Hc].
  unfold chan_ok in *. destruct (chan_try_send_spec c m) as [->|Hlt Eq -> _]; [done|].
  rewrite Eq, length_app. simpl. split; [done|lia].
Qed.

(** An open channel with room takes the message. *)
Lemma queue_sent cap cs tx m :
  chans_ok cap cs → is_closed cs tx = false → Z.of_nat (length (queue cs tx)) < cap →
  queue (try_send cs tx m) tx = queue cs tx ++ [m].
Proof.
  intros Hok Hcl Hlen. unfold is_closed, queue, try_send in *.
  destruct (cs !! tx) as [c|] eqn:E; [|done]. rewrite lookup_insert_eq.
  destruct (Hok _ _ E) as [Hcap _].
  by destruct (chan_sent_law A c m Hcl) as (_ & -> & _); [rewrite Hcap|].
Qed.

Lemma chans_ok_fan_out cap cs targets m : chans_ok cap cs → chans_ok cap (fan_out cs targets m).
Proof.
  revert cs. unfold fan_out. induction targets as [|t targets IH]; intros cs Hok; simpl; [done|].
  by apply IH, chans_ok_try_send.
Qed.

Lemma chans_ok_send_all cap cs tx ms : chans_ok cap cs → chans_ok cap (send_all cs tx ms).
Proof.
  revert cs. unfold send_all. induction ms as [|t ms IH]; intros cs Hok; simpl; [done|].
  by apply IH, chans_ok_try_send.
Qed.
End channels.

#[export] Hint Rewrite @is_closed_try_send @is_closed_fan_out @is_closed_send_all
  @dom_try_send @dom_fan_out @dom_send_all : relay_rw.
#[export] Hint Resolve chans_ok_try_send chans_ok_fan_out chans_ok_send_all appended_refl : relay.
