(* ===== verification/Registry.v ===== *)
(** * The peer registry (src/registry.rs)

    The map from peer id to registration. A registration holds the sending half of a connection's
    outbound channel and a shared activity clock; both are references, modelled by the id of the
    channel and of the clock cell in a store the caller owns. The registry reads them through
    [closed] ([tx.is_closed()]) and [load] ([last_activity.load]). *)

From S2P Require Import Prelude Net Wire.

Record Peer := MkPeer {
  peer_network_id : string;
  peer_info : RelayPeerInfo;
  peer_tx : nat;
  peer_last_activity : nat }.

Global Instance Peer_eq_dec : EqDecision Peer.
Proof. solve_decision. Defined.

Inductive RegisterOutcome : Type := Registered | Reconnected | Occupied.

Global Instance RegisterOutcome_eq_dec : EqDecision RegisterOutcome.
Proof. solve_decision. Defined.

Abbreviation Registry := (gmap string Peer).

Definition registry_new : Registry := ∅.
Definition registry_len (r : Registry) : Z := Z.of_nat (size r).
Definition registry_is_empty (r : Registry) : bool := registry_len r =? 0.

Definition register (closed : nat → bool) (r : Registry) (peer_id network_id : string)
    (info : RelayPeerInfo) (tx last_activity : nat) : RegisterOutcome * Registry :=
  match r !! peer_id with
  | Some existing =>
      if negb (closed (peer_tx existing)) then (Occupied, r)
      else (Reconnected, <[peer_id := MkPeer network_id info tx last_activity]> r)
  | None => (Registered, <[peer_id := MkPeer network_id info tx last_activity]> r)
  end.

Definition unregister (r : Registry) (peer_id : string) : option Peer * Registry :=
  (r !! peer_id, delete peer_id r).

Definition sender_in_network (r : Registry) (peer_id network_id : string) : option nat :=
  match r !! peer_id with
  | Some p => if bool_decide (peer_network_id p = network_id) then Some (peer_tx p) else None
  | None => None
  end.

Definition info_leb (a b : RelayPeerInfo) : bool := String.leb (pi_peer_id a) (pi_peer_id b).

Section hash_order.
Context `{HashOrder}.

(** The entry test of the health sweep. *)
Definition reclaimable (closed : nat → bool) (load : nat → Z) (now_secs deadline_secs : Z)
    (p : Peer) : bool :=
  closed (peer_tx p) || (deadline_secs <? sat_sub now_secs (load (peer_last_activity p))).

Definition dead_or_stale (closed : nat → bool) (load : nat → Z) (r : Registry)
    (now_secs deadline_secs : Z) : list (string * string) :=
  map (λ e, (e.1, peer_network_id e.2))
    (filter (λ e, reclaimable closed load now_secs deadline_secs e.2 = true) (hash_iter r)).

Definition in_network (network_id : option string) (p : Peer) : Prop :=
  match network_id with None => True | Some n => peer_network_id p = n end.

Global Instance in_network_dec n p : Decision (in_network n p).
Proof. destruct n; simpl; apply _. Defined.

Definition peers (r : Registry) (network_id : option string) : list RelayPeerInfo :=
  sort_by info_leb
    (map (λ e, peer_info e.2) (filter (λ e, in_network network_id e.2) (hash_iter r))).

Definition broadcast_targets (r : Registry) (from network_id : string) (exclude : list string)
    : list (string * nat) :=
  map (λ e, (e.1, peer_tx e.2))
    (filter (λ e, peer_network_id e.2 = network_id ∧ e.1 ≠ from ∧ e.1 ∉ exclude) (hash_iter r)).

Definition all_senders (r : Registry) : list (string * nat) :=
  map (λ e, (e.1, peer_tx e.2)) (hash_iter r).

(** ** Well-formedness: a record's public info is filed under its own id and network *)

Definition wf_registry (r : Registry) : Prop :=
  ∀ id p, r !! id = Some p → pi_peer_id (peer_info p) = id ∧
    pi_network_id (peer_info p) = peer_network_id p.

Lemma wf_registry_empty : wf_registry registry_new.
Proof. intros id p [=]. Qed.

Lemma wf_registry_insert r id p :
  wf_registry r → pi_peer_id (peer_info p) = id → pi_network_id (peer_info p) = peer_network_id p →
  wf_registry (<[id := p]> r).
Proof.
  intros Hwf Hid Hn id' p'. destruct (decide (id = id')) as [<-|Hne].
  - rewrite lookup_insert_eq. by intros [= <-].
  - rewrite lookup_insert_ne by done. apply Hwf.
Qed.

Lemma wf_registry_delete r id : wf_registry r → wf_registry (delete id r).
Proof. intros Hwf id' p [_ Hp]%lookup_delete_Some. by apply Hwf. Qed.

Hint Resolve wf_registry_empty wf_registry_insert wf_registry_delete : relay.

(** ** Lookups *)

Lemma sender_in_network_Some r id n tx :
  sender_in_network r id n = Some tx ↔
  ∃ p, r !! id = Some p ∧ peer_network_id p = n ∧ peer_tx p = tx.
Proof.
  unfold sender_in_network. destruct (r !! id) as [p|].
  - case_bool_decide; split; [intros [= <-]|intros (? & ? & ? & ?)|done|intros (? & ? & ? & ?)];
      simplify_eq; eauto.
  - split; [done|]. intros (? & ? & _). done.
Qed.

Lemma elem_of_dead_or_stale closed load r now deadline id n :
  (id, n) ∈ dead_or_stale closed load r now deadline ↔
  ∃ p, r !! id = Some p ∧ peer_network_id p = n ∧
    reclaimable closed load now deadline p = true.
Proof.
  unfold dead_or_stale. rewrite (elem_of_fmap_filter (λ e : string * Peer, _) _ (hash_iter r)).
  split.
  - intros ([id' p] & Hin & Hr & Heq). simplify_eq/=.
    apply elem_of_hash_iter in Hin. eauto.
  - intros (p & Hp & <- & Hr). exists (id, p). by rewrite elem_of_hash_iter.
Qed.

Lemma elem_of_broadcast_targets r from n ex id tx :
  (id, tx) ∈ broadcast_targets r from n ex ↔
  ∃ p, r !! id = Some p ∧ peer_tx p = tx ∧ peer_network_id p = n ∧ id ≠ from ∧ id ∉ ex.
Proof.
  unfold broadcast_targets.
  rewrite (elem_of_fmap_filter (λ e : string * Peer, _) _ (hash_iter r)). split.
  - intros ([id' p] & Hin & Hr & Heq). simplify_eq/=.
    apply elem_of_hash_iter in Hin. destruct_and!. eauto 10.
  - intros (p & Hp & <- & Hr). exists (id, p). by rewrite elem_of_hash_iter.
Qed.

(** Selecting entries keeps the ids distinct. *)
Lemma NoDup_fst_select {B} (P : string * Peer → Prop) `{∀ e, Decision (P e)}
    (g : string * Peer → B) r :
  NoDup (map (λ e, (e.1, g e)) (filter P (hash_iter r))).*1.
Proof.
  rewrite <- list_fmap_compose.
  assert (fst ∘ (λ e : string * Peer, (e.1, g e)) = fst) as -> by done.
  eapply sublist_NoDup; [apply (NoDup_fst_hash_iter r)|].
  apply fmap_sublist, sublist_filter.
Qed.

Lemma elem_of_peers r n info :
  info ∈ peers r n ↔ ∃ id p, r !! id = Some p ∧ in_network n p ∧ peer_info p = info.
Proof.
  unfold peers. rewrite elem_of_sort_by.
  rewrite (elem_of_fmap_filter (λ e : string * Peer, _) _ (hash_iter r)). split.
  - intros ([id p] & Hin & Hn & ->). apply elem_of_hash_iter in Hin. eauto.
  - intros (id & p & Hp & Hn & <-). exists (id, p). by rewrite elem_of_hash_iter.
Qed.

Lemma NoDup_peers_ids r n : wf_registry r → NoDup (pi_peer_id <$> peers r n).
Proof.
  intros Hwf. unfold peers. rewrite sort_by_perm, <- list_fmap_compose.
  rewrite (list_fmap_ext _ fst).
  - eapply sublist_NoDup; [apply (NoDup_fst_hash_iter r)|]. apply fmap_sublist, sublist_filter.
  - intros i [id p] Hi. apply list_elem_of_lookup_2, list_elem_of_filter in Hi as [_ Hi].
    apply elem_of_hash_iter in Hi. simpl. by apply Hwf.
Qed.
End hash_order.

#[export] Hint Resolve wf_registry_empty wf_registry_insert wf_registry_delete : relay.

(** ** Sequences of registry operations *)

Inductive RegistryOp : Type :=
| OpRegister (peer_id network_id : string) (info : RelayPeerInfo) (tx last_activity : nat)
| OpUnregister (peer_id : string).

(** Each operation sees the channels as they are at that moment. *)
Definition registry_op (r : Registry) (op : (nat → bool) * RegistryOp) : Registry :=
  match op.2 with
  | OpRegister id n info tx act => (register op.1 r id n info tx act).2
  | OpUnregister id => (unregister r id).2
  end.

Definition registry_run (r : Registry) (ops : list ((nat → bool) * RegistryOp)) : Registry :=
  foldl registry_op r ops.

Definition spares (id : string) (tx : nat) (op : (nat → bool) * RegistryOp) : Prop :=
  op.1 tx = false ∧ op.2 ≠ OpUnregister id.

Lemma registry_op_spares r op id p :
  r !! id = Some p → spares id (peer_tx p) op → registry_op r op !! id = Some p.
Proof.
  intros Hp [Hc Hu]. destruct op as [closed [id' n info tx act|id']]; simpl in *.
  - unfold registry_op, register. simpl. destruct (decide (id = id')) as [<-|Hne].
    + by rewrite Hp, Hc.
    + destruct (r !! id') as [e|]; [destruct (negb (closed (peer_tx e)))|];
        simpl; rewrite ?lookup_insert_ne by done; done.
  - unfold registry_op. simpl. rewrite lookup_delete_ne by congruence. done.
Qed.

(** ** Properties *)

(** C5: no rendezvous hijack. However many registrations are attempted, for whatever id, network or
    channel, a registered peer keeps its record (network, public info, channel and clock) as long
    as its own channel stays open and it is not itself unregistered, so messages for its id keep
    going to its connection; a registration for its id is refused and changes nothing. *)
Theorem live_peer_keeps_record r ops id p :
  r !! id = Some p → Forall (spares id (peer_tx p)) ops →
  registry_run r ops !! id = Some p ∧
  sender_in_network (registry_run r ops) id (peer_network_id p) = Some (peer_tx p) ∧
  ∀ closed n info tx act, closed (peer_tx p) = false →
    register closed (registry_run r ops) id n info tx act = (Occupied, registry_run r ops).
Proof.
  intros Hp Hall.
  assert (registry_run r ops !! id = Some p) as Hrun.
  { revert r Hp. induction Hall as [|op ops Hop _ IH]; intros r Hp; simpl; [done|].
    apply IH. by apply registry_op_spares. }
  split; [done|]. split.
  - apply sender_in_network_Some. eauto.
  - intros closed n info tx act Hc. unfold register. by rewrite Hrun, Hc.
Qed.

Lemma live_peer_keeps_record_witness :
  let info := MkPeerInfo "a" "net" 1 0 0 [] in
  let p := MkPeer "net" info 1 1 in
  registry_run {[ "a" := p ]}
    [((λ _, false), OpRegister "a" "evil" info 2 2); ((λ _, false), OpUnregister "b")] !! "a"
  = Some p.
Proof.
  intros info p.
  apply (live_peer_keeps_record {[ "a" := p ]}
    [((λ _, false), OpRegister "a" "evil" info 2 2); ((λ _, false), OpUnregister "b")] "a" p).
  - reflexivity.
  - repeat constructor; discriminate.
Defined.

(** What [register] does on every branch. It succeeds exactly when the id is free or held by a
    dead connection; the new record then replaces whatever was there, no other id is affected, and
    the number of registrations grows by one exactly for an outcome of [Registered]. *)
Theorem register_outcome closed r id n info tx act :
  let '(o, r') := register closed r id n info tx act in
  (o = Occupied ↔ ∃ p, r !! id = Some p ∧ closed (peer_tx p) = false) ∧
  (o = Registered ↔ r !! id = None) ∧
  (o = Occupied → r' = r) ∧
  (o ≠ Occupied → r' !! id = Some (MkPeer n info tx act) ∧
     ∀ id', id' ≠ id → r' !! id' = r !! id') ∧
  registry_len r' = registry_len r + (if bool_decide (o = Registered) then 1 else 0).
Proof.
  unfold register, registry_len. destruct (r !! id) as [e|] eqn:He.
  - destruct (closed (peer_tx e)) eqn:Hc; simpl.
    + split_and!; [split; [done|]; intros (p & ? & ?); congruence|split; done|done| |].
      * intros _. split; [apply lookup_insert_eq|]. intros. by rewrite lookup_insert_ne.
      * rewrite map_size_insert, He. simpl. lia.
    + split_and!; [split; eauto|split; done|done|done|lia].
  - split_and!; [split; [done|]; intros (p & ? & _); congruence|done|done| |].
    + intros _. split; [apply lookup_insert_eq|]. intros. by rewrite lookup_insert_ne.
    + rewrite map_size_insert, He. simpl. lia.
Qed.

(** The peer list is exactly the registered peers of the requested network (of all networks for
    no filter), each once, in strictly increasing order of id, and does not depend on the hash
    map's iteration order. *)
Theorem peers_exact (ord1 ord2 : HashOrder) r n :
  wf_registry r →
  (∀ info, info ∈ peers (H := ord1) r n ↔
     ∃ id p, r !! id = Some p ∧ in_network n p ∧ peer_info p = info) ∧
  NoDup (pi_peer_id <$> peers (H := ord1) r n) ∧
  StronglySorted (λ a b, String.leb (pi_peer_id a) (pi_peer_id b) = true)
    (peers (H := ord1) r n) ∧
  peers (H := ord1) r n = peers (H := ord2) r n.
Proof.
  intros Hwf.
  assert (∀ ord, StronglySorted (λ a b, info_leb a b = true) (peers (H := ord) r n)) as Hsorted.
  { intros ord. apply sort_by_sorted; unfold info_leb; intros.
    - apply string_leb_total.
    - by eapply string_leb_trans. }
  split_and!.
  - intros info. apply elem_of_peers.
  - by apply NoDup_peers_ids.
  - apply Hsorted.
  - apply (sorted_by_key_unique pi_peer_id String.leb); auto using NoDup_peers_ids.
    + intros s t H1 H2. by apply (String.leb_antisym).
    + unfold peers. rewrite !sort_by_perm. by rewrite !hash_iter_perm.
Qed.

Lemma peers_exact_witness :
  peers (H := gmap_order)
    {[ "b" := MkPeer "net" (MkPeerInfo "b" "net" 1 0 0 []) 1 1;
       "a" := MkPeer "net" (MkPeerInfo "a" "net" 1 0 0 []) 2 2;
       "c" := MkPeer "other" (MkPeerInfo "c" "other" 1 0 0 []) 3 3 ]} (Some "net") =
  peers (H := gmap_order_rev)
    {[ "b" := MkPeer "net" (MkPeerInfo "b" "net" 1 0 0 []) 1 1;
       "a" := MkPeer "net" (MkPeerInfo "a" "net" 1 0 0 []) 2 2;
       "c" := MkPeer "other" (MkPeerInfo "c" "other" 1 0 0 []) 3 3 ]} (Some "net").
Proof.
  apply peers_exact.
  repeat (apply wf_registry_insert; [|reflexivity|reflexivity]). apply wf_registry_empty.
Defined.

(** Routing never crosses networks. A directed message is routed to an id exactly when that id
    is registered on the sender's network; a broadcast reaches exactly the peers of the network
    that are neither the sender nor excluded, each once. *)
Theorem routing_exact `{HashOrder} r from n ex :
  (∀ id tx, sender_in_network r id n = Some tx ↔
     ∃ p, r !! id = Some p ∧ peer_network_id p = n ∧ peer_tx p = tx) ∧
  (∀ id tx, (id, tx) ∈ broadcast_targets r from n ex ↔
     ∃ p, r !! id = Some p ∧ peer_tx p = tx ∧ peer_network_id p = n ∧ id ≠ from ∧ id ∉ ex) ∧
  NoDup (broadcast_targets r from n ex).*1.
Proof.
  split_and!.
  - intros. apply sender_in_network_Some.
  - intros. apply elem_of_broadcast_targets.
  - apply NoDup_fst_select.
Qed.

(** The sweep's selection is exactly the registrations whose channel is closed or whose last
    activity is more than the deadline ago, each id once. *)
Theorem dead_or_stale_exact `{HashOrder} closed load r now deadline :
  (∀ id n, (id, n) ∈ dead_or_stale closed load r now deadline ↔
     ∃ p, r !! id = Some p ∧ peer_network_id p = n ∧
       (closed (peer_tx p) = true ∨ deadline < Z.max 0 (now - load (peer_last_activity p)))) ∧
  NoDup (dead_or_stale closed load r now deadline).*1.
Proof.
  split; [|apply NoDup_fst_select].
  intros id n. rewrite elem_of_dead_or_stale. unfold reclaimable, sat_sub.
  setoid_rewrite orb_true_iff. by setoid_rewrite Z.ltb_lt.
Qed.
