(* ===== verification/Pex.v ===== *)
(** * The introducer PEX subsystem (src/pex.rs)

    One engine per network and the PEX sender of every registered connection. The engine of the
    [dig_pex] crate is a parameter, [DigPex], of which nothing is assumed: whom an engine advertises to
    whom and when (its ageing of entries, the exclusion of its own id and of the link's) is its affair.
    What the relay is responsible for is what it tells the engine, so beside each engine stands the
    history of the calls made of it, a history variable that no operation reads. *)

From S2P Require Import Prelude Net Channel.

Inductive Provenance : Type := Introducer.
Inductive AddressKind : Type := Reflexive.
Inductive PexErrorCode : Type := BadMessage.
Record Address := MkAddress { a_host : string; a_port : Z; a_kind : AddressKind }.

Class DigPex := {
  PexEngine : Type;
  PexMessage : Type;
  PeerEntry : Type;
  is_handshake : PexMessage → bool;
  pex_engine_new : string → string → list string → PexEngine;
  peer_entry_new : string → string → Z → Provenance → PeerEntry;
  with_address : PeerEntry → Address → PeerEntry;
  with_flag : PeerEntry → string → PeerEntry;
  upsert_known : PexEngine → PeerEntry → PexEngine;
  remove_known : PexEngine → string → PexEngine;
  link_down : PexEngine → string → PexEngine;
  link_up : PexEngine → string → Z → list PexMessage * PexEngine;
  on_message : PexEngine → string → PexMessage → Z → list PexMessage * PexEngine;
  record_violation : PexEngine → string → PexErrorCode → Z → list PexMessage * PexEngine;
  is_muted : PexEngine → string → bool;
  engine_tick : PexEngine → Z → list (string * PexMessage) * PexEngine;
  engine_known_count : PexEngine → Z;
  engine_link_count : PexEngine → Z }.

Definition INTRODUCER_LOCAL_ID : string := "dig-relay-introducer".
Definition FLAG_INTRODUCER : string := "introducer".
Definition FLAG_RELAY_ONLY : string := "relay-only".

Section pex.
Context `{DigPex}.

Definition introducer_entry (peer_id network_id : string) (observed : SocketAddr) (now_secs : Z)
    : PeerEntry :=
  with_flag
    (with_address (peer_entry_new peer_id network_id now_secs Introducer)
       (MkAddress (ip_to_string (sa_ip observed)) (sa_port observed) Reflexive))
    FLAG_RELAY_ONLY.

(** ** Engines *)

(** A call of an engine that changes it; what is upserted is always an [introducer_entry]. *)
Inductive EngineCall : Type :=
| UpsertKnown (peer_id : string) (observed : SocketAddr) (now_secs : Z)
| RemoveKnown (peer_id : string)
| LinkDown (peer_id : string)
| LinkUp (peer_id : string) (now_ms : Z)
| OnMessage (peer_id : string) (msg : PexMessage) (now_ms : Z)
| RecordViolation (peer_id : string) (now_ms : Z)
| Tick (now_ms : Z).

(** The engine of a network and the calls made of it since it was created, in order. *)
Record Engine := MkEngine { engine : PexEngine; calls : list EngineCall }.

Definition engine_new (network_id : string) : PexEngine :=
  pex_engine_new INTRODUCER_LOCAL_ID network_id [FLAG_INTRODUCER].

Definition eng_upsert_known (e : Engine) (peer_id network_id : string) (observed : SocketAddr)
    (now_secs : Z) : Engine :=
  MkEngine (upsert_known (engine e) (introducer_entry peer_id network_id observed now_secs))
    (calls e ++ [UpsertKnown peer_id observed now_secs]).
Definition eng_remove_known (e : Engine) (peer_id : string) : Engine :=
  MkEngine (remove_known (engine e) peer_id) (calls e ++ [RemoveKnown peer_id]).
Definition eng_link_down (e : Engine) (peer_id : string) : Engine :=
  MkEngine (link_down (engine e) peer_id) (calls e ++ [LinkDown peer_id]).
Definition eng_link_up (e : Engine) (peer_id : string) (now_ms : Z) : list PexMessage * Engine :=
  let '(out, e') := link_up (engine e) peer_id now_ms in
  (out, MkEngine e' (calls e ++ [LinkUp peer_id now_ms])).
Definition eng_on_message (e : Engine) (peer_id : string) (msg : PexMessage) (now_ms : Z)
    : list PexMessage * Engine :=
  let '(replies, e') := on_message (engine e) peer_id msg now_ms in
  (replies, MkEngine e' (calls e ++ [OnMessage peer_id msg now_ms])).
Definition eng_record_violation (e : Engine) (peer_id : string) (now_ms : Z)
    : list PexMessage * Engine :=
  let '(replies, e') := record_violation (engine e) peer_id BadMessage now_ms in
  (replies, MkEngine e' (calls e ++ [RecordViolation peer_id now_ms])).
Definition eng_tick (e : Engine) (now_ms : Z) : list (string * PexMessage) * Engine :=
  let '(out, e') := engine_tick (engine e) now_ms in (out, MkEngine e' (calls e ++ [Tick now_ms])).

(** ** The relay's side *)

(** [engines] by network id, [pex_conns] the PEX channel of each peer id. *)
Record PexRelay := MkPexRelay { engines : gmap string Engine; pex_conns : gmap string nat }.

Definition pex_new : PexRelay := MkPexRelay ∅ ∅.

(** [engine_for] as a lookup: the engine is created on first use. *)
Definition engine_for (p : PexRelay) (network_id : string) : Engine :=
  default (MkEngine (engine_new network_id) []) (engines p !! network_id).

Definition set_engine (p : PexRelay) (network_id : string) (e : Engine) : PexRelay :=
  MkPexRelay (<[network_id := e]> (engines p)) (pex_conns p).

Definition on_register (p : PexRelay) (peer_id network_id : string) (observed : SocketAddr)
    (pex_tx : nat) (now_ms : Z) : PexRelay :=
  let engine := eng_upsert_known (engine_for p network_id) peer_id network_id observed (now_ms / 1000) in
  let p := set_engine p network_id engine in
  MkPexRelay (engines p) (<[peer_id := pex_tx]> (pex_conns p)).

Definition on_unregister (p : PexRelay) (peer_id network_id : string) : PexRelay :=
  let p :=
    match engines p !! network_id with
    | Some engine => set_engine p network_id (eng_link_down (eng_remove_known engine peer_id) peer_id)
    | None => p
    end in
  MkPexRelay (engines p) (delete peer_id (pex_conns p)).

Definition on_node_handshake (p : PexRelay) (peer_id network_id : string) (msg : PexMessage)
    (now_ms : Z) : list PexMessage * PexRelay :=
  let '(replies, e) := eng_on_message (engine_for p network_id) peer_id msg now_ms in
  if is_muted (engine e) peer_id then (replies, set_engine p network_id e)
  else
    let '(out, e) := eng_link_up e peer_id now_ms in
    (out ++ replies, set_engine p network_id e).

Definition on_node_message (p : PexRelay) (peer_id network_id : string) (msg : PexMessage)
    (now_ms : Z) : list PexMessage * PexRelay :=
  match engines p !! network_id with
  | Some engine =>
      let '(replies, engine) := eng_on_message engine peer_id msg now_ms in
      (replies, set_engine p network_id engine)
  | None => ([], p)
  end.

Definition on_node_bad_frame (p : PexRelay) (peer_id network_id : string) (now_ms : Z)
    : list PexMessage * PexRelay :=
  match engines p !! network_id with
  | Some engine =>
      let '(replies, engine) := eng_record_violation engine peer_id now_ms in
      (replies, set_engine p network_id engine)
  | None => ([], p)
  end.

(** The engines are ticked in the map's iteration order; each output goes to the connection that
    holds the peer id, if one still does. *)
Definition tick `{HashOrder, Mpsc} (p : PexRelay) (chans : Chans PexMessage) (now_ms : Z)
    : Chans PexMessage * PexRelay :=
  let routed := concat (map (λ e, (eng_tick e.2 now_ms).1) (hash_iter (engines p))) in
  let p := MkPexRelay ((λ e, (eng_tick e now_ms).2) <$> engines p) (pex_conns p) in
  let chans :=
    foldl (λ chans r,
      match pex_conns p !! r.1 with
      | Some tx => try_send chans tx r.2
      | None => chans
      end) chans routed in
  (chans, p).

Definition known_count (p : PexRelay) (network_id : string) : Z :=
  match engines p !! network_id with Some e => engine_known_count (engine e) | None => 0 end.
Definition link_count (p : PexRelay) (network_id : string) : Z :=
  match engines p !! network_id with Some e => engine_link_count (engine e) | None => 0 end.
Definition conn_count (p : PexRelay) : Z := Z.of_nat (size (pex_conns p)).

(** ** What an engine was told *)

(** The state a call leaves. *)
Definition call (network_id : string) (e : PexEngine) (c : EngineCall) : PexEngine :=
  match c with
  | UpsertKnown id observed t => upsert_known e (introducer_entry id network_id observed t)
  | RemoveKnown id => remove_known e id
  | LinkDown id => link_down e id
  | LinkUp id t => (link_up e id t).2
  | OnMessage id m t => (on_message e id m t).2
  | RecordViolation id t => (record_violation e id BadMessage t).2
  | Tick t => (engine_tick e t).2
  end.

(** Every engine is in the state its calls lead to from a new one. *)
Definition replays (p : PexRelay) : Prop :=
  ∀ n e, engines p !! n = Some e → engine e = foldl (call n) (engine_new n) (calls e).

(** The peers an engine was told of and has not been told to forget since, with the address and the
    time it was last told. *)
Definition tell (m : gmap string (SocketAddr * Z)) (c : EngineCall) : gmap string (SocketAddr * Z) :=
  match c with
  | UpsertKnown id observed t => <[id := (observed, t)]> m
  | RemoveKnown id => delete id m
  | _ => m
  end.

Definition told (p : PexRelay) (network_id : string) : gmap string (SocketAddr * Z) :=
  match engines p !! network_id with Some e => foldl tell ∅ (calls e) | None => ∅ end.

(** The first-hand set of a network, as the relay mirrors it. *)
Definition mirrored (p : PexRelay) (network_id : string) : gset string := dom (told p network_id).
End pex.

(** ** Lemmas *)

Section pex_lemmas.
Context `{DigPex}.
Implicit Types (p : PexRelay) (n id : string) (e : Engine).

Lemma told_set_engine p n n' e :
  told (set_engine p n e) n' = if bool_decide (n = n') then foldl tell ∅ (calls e) else told p n'.
Proof.
  unfold told. simpl. case_bool_decide as E.
  - subst. by rewrite lookup_insert_eq.
  - by rewrite lookup_insert_ne.
Qed.

Lemma told_engine_for p n : foldl tell ∅ (calls (engine_for p n)) = told p n.
Proof. unfold engine_for, told. by destruct (engines p !! n). Qed.

(** One more call of an engine. *)
Lemma told_call p n e c n' :
  foldl tell ∅ (calls e) = told p n →
  told (set_engine p n (MkEngine (call n (engine e) c) (calls e ++ [c]))) n' =
    if bool_decide (n = n') then tell (told p n') c else told p n'.
Proof.
  intros E. rewrite told_set_engine. case_bool_decide; [|done]. subst. simpl.
  by rewrite foldl_app, E.
Qed.

Lemma told_conns p c n : told (MkPexRelay (engines p) c) n = told p n.
Proof. done. Qed.

Lemma mirrored_same p p' n n' : told p' n' = told p n → mirrored p' n' = mirrored p n.
Proof. unfold mirrored. by intros ->. Qed.

Lemma told_on_register p id n o tx t n' :
  told (on_register p id n o tx t) n' =
    if bool_decide (n = n') then <[id := (o, t / 1000)]> (told p n') else told p n'.
Proof. apply (told_call p n (engine_for p n) (UpsertKnown id o (t / 1000))), told_engine_for. Qed.

Lemma mirrored_on_register p id n o tx t n' :
  mirrored (on_register p id n o tx t) n' =
    if bool_decide (n = n') then {[id]} ∪ mirrored p n' else mirrored p n'.
Proof.
  unfold mirrored. rewrite told_on_register. case_bool_decide; [|done]. by rewrite dom_insert_L.
Qed.

Lemma told_on_unregister p id n n' :
  told (on_unregister p id n) n' =
    if bool_decide (n = n') then delete id (told p n') else told p n'.
Proof.
  unfold on_unregister. rewrite told_conns. destruct (engines p !! n) as [e|] eqn:He.
  - rewrite told_set_engine. unfold told. case_bool_decide; [|done]. subst. rewrite He. simpl.
    by rewrite !foldl_app.
  - case_bool_decide as E; [|done]. subst. unfold told. by rewrite He, delete_empty.
Qed.

Lemma mirrored_on_unregister p id n n' :
  mirrored (on_unregister p id n) n' =
    if bool_decide (n = n') then mirrored p n' ∖ {[id]} else mirrored p n'.
Proof.
  unfold mirrored. rewrite told_on_unregister. case_bool_decide; [|done]. by rewrite dom_delete_L.
Qed.

Lemma on_register_superset p id net addr tx now :
  (∀ n, mirrored p n ⊆ mirrored (on_register p id net addr tx now) n) ∧
  ∀ i, is_Some (pex_conns p !! i) → is_Some (pex_conns (on_register p id net addr tx now) !! i).
Proof.
  split.
  - intros n. rewrite mirrored_on_register. case_bool_decide; set_solver.
  - intros i Hi. simpl. destruct (decide (id = i)) as [->|].
    + rewrite lookup_insert_eq. eauto.
    + by rewrite lookup_insert_ne.
Qed.

(** Received messages, violations and ticks tell the engine of no peer. *)
Lemma told_on_node_handshake p id n m t n' : told (on_node_handshake p id n m t).2 n' = told p n'.
Proof.
  unfold on_node_handshake, eng_on_message, eng_link_up.
  destruct (on_message _ _ _ _) as [replies e]. simpl.
  destruct (is_muted e id); [|destruct (link_up e id t) as [out e']]; simpl;
    rewrite told_set_engine; case_bool_decide; subst; try done; simpl;
    by rewrite !foldl_app, told_engine_for.
Qed.

Lemma told_on_node_message p id n m t n' : told (on_node_message p id n m t).2 n' = told p n'.
Proof.
  unfold on_node_message, eng_on_message. destruct (engines p !! n) as [e|] eqn:He; [|done].
  destruct (on_message _ _ _ _) as [replies e']. simpl. rewrite told_set_engine.
  case_bool_decide; subst; [|done]. simpl. unfold told. by rewrite foldl_app, He.
Qed.

Lemma told_on_node_bad_frame p id n t n' : told (on_node_bad_frame p id n t).2 n' = told p n'.
Proof.
  unfold on_node_bad_frame, eng_record_violation. destruct (engines p !! n) as [e|] eqn:He; [|done].
  destruct (record_violation _ _ _ _) as [replies e']. simpl. rewrite told_set_engine.
  case_bool_decide; subst; [|done]. simpl. unfold told. by rewrite foldl_app, He.
Qed.

Lemma told_tick `{HashOrder, Mpsc} p chans t n' : told (tick p chans t).2 n' = told p n'.
Proof.
  unfold tick, told, eng_tick. simpl. rewrite lookup_fmap.
  destruct (engines p !! n') as [e|]; simpl; [|done].
  destruct (engine_tick _ _). simpl. by rewrite foldl_app.
Qed.

Lemma mirrored_on_node_handshake p id n m t n' :
  mirrored (on_node_handshake p id n m t).2 n' = mirrored p n'.
Proof. apply mirrored_same, told_on_node_handshake. Qed.
Lemma mirrored_on_node_message p id n m t n' :
  mirrored (on_node_message p id n m t).2 n' = mirrored p n'.
Proof. apply mirrored_same, told_on_node_message. Qed.
Lemma mirrored_on_node_bad_frame p id n t n' :
  mirrored (on_node_bad_frame p id n t).2 n' = mirrored p n'.
Proof. apply mirrored_same, told_on_node_bad_frame. Qed.
Lemma mirrored_tick `{HashOrder, Mpsc} p chans t n' : mirrored (tick p chans t).2 n' = mirrored p n'.
Proof. apply mirrored_same, told_tick. Qed.

(** *** The history is the engine's *)

Lemma replays_engine_for p n :
  replays p → engine (engine_for p n) = foldl (call n) (engine_new n) (calls (engine_for p n)).
Proof. intros Hp. unfold engine_for. destruct (engines p !! n) eqn:E; [by apply Hp|done]. Qed.

Lemma replays_set_engine p n e :
  replays p → engine e = foldl (call n) (engine_new n) (calls e) → replays (set_engine p n e).
Proof. intros Hp He n' e'. simpl. by intros [[<- <-]|[_ ?%Hp]]%lookup_insert_Some. Qed.

Lemma replays_call n e c :
  engine e = foldl (call n) (engine_new n) (calls e) →
  call n (engine e) c = foldl (call n) (engine_new n) (calls e ++ [c]).
Proof. intros E. by rewrite foldl_app, <- E. Qed.

Lemma replays_on_register p id n o tx t : replays p → replays (on_register p id n o tx t).
Proof.
  intros Hp. apply (replays_set_engine p n); [done|].
  by apply (replays_call n _ (UpsertKnown id o (t / 1000))), replays_engine_for.
Qed.

Lemma replays_on_unregister p id n : replays p → replays (on_unregister p id n).
Proof.
  intros Hp. unfold on_unregister. destruct (engines p !! n) as [e|] eqn:He; [|done].
  apply (replays_set_engine p n); [done|].
  apply (replays_call n (eng_remove_known e id) (LinkDown id)).
  by apply (replays_call n e (RemoveKnown id)), Hp.
Qed.

Lemma replays_on_node_handshake p id n m t : replays p → replays (on_node_handshake p id n m t).2.
Proof.
  intros Hp. unfold on_node_handshake, eng_on_message, eng_link_up.
  pose proof (replays_call n _ (OnMessage id m t) (replays_engine_for p n Hp)) as E. simpl in E.
  destruct (on_message _ _ _ _) as [replies e]. simpl in *. subst e.
  destruct (is_muted _ id); [by apply replays_set_engine|].
  set (e := foldl _ _ _) in *.
  pose proof (replays_call n (MkEngine e _) (LinkUp id t) eq_refl) as E. simpl in E.
  destruct (link_up e id t) as [out e']. simpl in *. by apply replays_set_engine.
Qed.

Lemma replays_on_node_message p id n m t : replays p → replays (on_node_message p id n m t).2.
Proof.
  intros Hp. unfold on_node_message, eng_on_message. destruct (engines p !! n) as [e|] eqn:He; [|done].
  pose proof (replays_call n e (OnMessage id m t) (Hp n e He)) as E. simpl in E.
  destruct (on_message _ _ _ _) as [replies e']. by apply replays_set_engine.
Qed.

Lemma replays_on_node_bad_frame p id n t : replays p → replays (on_node_bad_frame p id n t).2.
Proof.
  intros Hp. unfold on_node_bad_frame, eng_record_violation.
  destruct (engines p !! n) as [e|] eqn:He; [|done].
  pose proof (replays_call n e (RecordViolation id t) (Hp n e He)) as E. simpl in E.
  destruct (record_violation _ _ _ _) as [replies e']. by apply replays_set_engine.
Qed.

Lemma replays_tick `{HashOrder, Mpsc} p chans t : replays p → replays (tick p chans t).2.
Proof.
  intros Hp n e'. simpl. rewrite lookup_fmap. destruct (engines p !! n) as [e|] eqn:He; [|done].
  intros [= <-]. pose proof (replays_call n e (Tick t) (Hp n e He)) as E. simpl in E.
  unfold eng_tick. by destruct (engine_tick _ _).
Qed.
End pex_lemmas.

#[export] Hint Resolve replays_on_register replays_on_unregister replays_on_node_handshake
  replays_on_node_message replays_on_node_bad_frame replays_tick : relay.

#[export] Hint Rewrite @mirrored_on_register @mirrored_on_unregister @mirrored_on_node_handshake
  @mirrored_on_node_message @mirrored_on_node_bad_frame @mirrored_tick : relay_rw.

(** Only [on_register] and [on_unregister] touch the sender table. *)
Lemma pex_conns_on_node_handshake `{DigPex} p id n m t :
  pex_conns (on_node_handshake p id n m t).2 = pex_conns p.
Proof.
  unfold on_node_handshake, eng_on_message, eng_link_up. destruct (on_message _ _ _ _) as [r e]. simpl.
  destruct (is_muted e id); [done|]. by destruct (link_up e id t).
Qed.
Lemma pex_conns_on_node_message `{DigPex} p id n m t :
  pex_conns (on_node_message p id n m t).2 = pex_conns p.
Proof.
  unfold on_node_message, eng_on_message. destruct (engines p !! n); [|done].
  by destruct (on_message _ _ _ _).
Qed.
Lemma pex_conns_on_node_bad_frame `{DigPex} p id n t :
  pex_conns (on_node_bad_frame p id n t).2 = pex_conns p.
Proof.
  unfold on_node_bad_frame, eng_record_violation. destruct (engines p !! n); [|done].
  by destruct (record_violation _ _ _ _).
Qed.
Lemma pex_conns_tick `{DigPex, HashOrder, Mpsc} p chans t : pex_conns (tick p chans t).2 = pex_conns p.
Proof. done. Qed.
Lemma pex_conns_on_unregister `{DigPex} p id n :
  pex_conns (on_unregister p id n) = delete id (pex_conns p).
Proof. unfold on_unregister. by destruct (engines p !! n). Qed.

#[export] Hint Rewrite @pex_conns_on_node_handshake @pex_conns_on_node_message
  @pex_conns_on_node_bad_frame @pex_conns_tick @pex_conns_on_unregister : relay_rw.
