(* ===== verification/DhtView.v ===== *)
(** * The published DHT view (src/dht_view.rs)

    The aggregation of the nodes' RLY-009 answers into the bounded, ranked list behind [/dht.json].
    A [BTreeMap] is a [gmap] enumerated in key order. *)

From S2P Require Import Prelude Net Wire.

Definition DHT_SCHEMA_VERSION : Z := 1.
Definition MAX_PUBLISHED_KEYS : nat := Z.to_nat 2000.

Record DhtViewEntry := MkDhtViewEntry {
  dv_content_key : string; dv_providers : Z; dv_reported_by : Z }.

Record DhtView := MkDhtView {
  schema_version : Z;
  generated_at : Z;
  reporting_peers : Z;
  total_keys : Z;
  truncated : bool;
  keys : list DhtViewEntry }.

Record PeerAnswer := MkPeerAnswer { pa_records : list DhtRecordEntry; pa_truncated : bool }.

Global Instance DhtViewEntry_eq_dec : EqDecision DhtViewEntry.
Proof. solve_decision. Defined.

(** The body of the inner loop. *)
Definition union_record (union : gmap string (Z * Z)) (record : DhtRecordEntry)
    : gmap string (Z * Z) :=
  let slot := default (0, 0) (union !! dr_content_key record) in
  <[dr_content_key record := (Z.max slot.1 (dr_providers record), slot.2 + 1)]> union.

Definition union_answers (answers : list PeerAnswer) : gmap string (Z * Z) :=
  foldl (λ u answer, foldl union_record u (pa_records answer)) ∅ answers.

(** [BTreeMap::into_iter]: in increasing key order. *)
Definition btree_iter (m : gmap string (Z * Z)) : list (string * (Z * Z)) :=
  sort_by (λ a b, String.leb a.1 b.1) (map_to_list m).

(** The ranking: more reports first, then more providers, then the smaller key; [true] is a
    comparison result other than [Greater]. *)
Definition rank_leb (a b : DhtViewEntry) : bool :=
  if dv_reported_by b <? dv_reported_by a then true
  else if dv_reported_by a <? dv_reported_by b then false
  else if dv_providers b <? dv_providers a then true
  else if dv_providers a <? dv_providers b then false
  else String.leb (dv_content_key a) (dv_content_key b).

Definition ranked_entries (union : gmap string (Z * Z)) : list DhtViewEntry :=
  sort_by rank_leb
    (map (λ e, MkDhtViewEntry e.1 e.2.1 e.2.2) (btree_iter union)).

Definition build_dht_view (answers : list PeerAnswer) (generated_at : Z) : DhtView :=
  let union := union_answers answers in
  let total_keys := Z.of_nat (size union) in
  let any_peer_truncated := existsb pa_truncated answers in
  let keys := ranked_entries union in
  let truncated := any_peer_truncated || (Z.of_nat MAX_PUBLISHED_KEYS <? total_keys) in
  {| schema_version := DHT_SCHEMA_VERSION;
     generated_at := generated_at;
     reporting_peers := Z.of_nat (length answers);
     total_keys := total_keys;
     truncated := truncated;
     keys := take MAX_PUBLISHED_KEYS keys |}.

(** ** Reference definitions *)

Definition all_records (answers : list PeerAnswer) : list DhtRecordEntry :=
  concat (map pa_records answers).

(** How many records mention a key, and the largest provider count any of them claims. *)
Definition mentions (k : string) (l : list DhtRecordEntry) : Z :=
  Z.of_nat (length (filter (λ r, dr_content_key r = k) l)).

Definition most_providers (k : string) (l : list DhtRecordEntry) : Z :=
  foldr (λ r acc, if bool_decide (dr_content_key r = k) then Z.max (dr_providers r) acc else acc)
    0 l.

Definition distinct_keys (l : list DhtRecordEntry) : gset string :=
  list_to_set (dr_content_key <$> l).

(** ** Lemmas *)

Lemma union_answers_records answers :
  union_answers answers = foldl union_record ∅ (all_records answers).
Proof.
  unfold union_answers, all_records. generalize (∅ : gmap string (Z * Z)).
  induction answers as [|a answers IH]; intros u; simpl; [done|].
  by rewrite foldl_app, IH.
Qed.

Lemma mentions_snoc k l r :
  mentions k (l ++ [r]) = mentions k l + (if bool_decide (dr_content_key r = k) then 1 else 0).
Proof.
  unfold mentions. rewrite filter_app, length_app, filter_cons, filter_nil.
  case_bool_decide; [rewrite decide_True by done|rewrite decide_False by done]; simpl; lia.
Qed.

Lemma most_providers_snoc k l r :
  Forall (λ r, 0 ≤ dr_providers r) l → 0 ≤ dr_providers r →
  most_providers k (l ++ [r]) =
  if bool_decide (dr_content_key r = k) then Z.max (most_providers k l) (dr_providers r)
  else most_providers k l.
Proof.
  intros Hl Hr. unfold most_providers. rewrite foldr_app. simpl.
  induction Hl as [|x l Hx _ IH]; simpl.
  - case_bool_decide; lia.
  - rewrite IH. repeat case_bool_decide; lia.
Qed.

(** Providers are unsigned. *)
Definition unsigned_records (l : list DhtRecordEntry) : Prop :=
  Forall (λ r, 0 ≤ dr_providers r) l.

Lemma union_lookup l k :
  unsigned_records l →
  foldl union_record ∅ l !! k =
    if mentions k l =? 0 then None else Some (most_providers k l, mentions k l).
Proof.
  unfold unsigned_records. induction l as [|r l IH] using rev_ind; intros Hl; [done|].
  apply Forall_app in Hl as [Hl [Hr _]%Forall_cons].
  rewrite foldl_app, mentions_snoc, most_providers_snoc by done. cbn [foldl]. unfold union_record at 1.
  specialize (IH Hl).
  assert (0 ≤ mentions k l) by (unfold mentions; lia).
  case_bool_decide as Hk.
  - subst k. rewrite lookup_insert_eq, IH.
    rewrite (proj2 (Z.eqb_neq (_ + 1) 0)) by lia.
    destruct (mentions (dr_content_key r) l =? 0) eqn:E; propify; simpl; [|done].
    rewrite E. replace (most_providers (dr_content_key r) l) with 0; [done|].
    clear -E. unfold mentions, most_providers in *.
    induction l as [|x l IHl]; simpl; [done|]. rewrite filter_cons in E.
    case_bool_decide; [rewrite decide_True in E by done; simpl in E; lia|].
    rewrite decide_False in E by done. auto.
  - rewrite lookup_insert_ne by done. by rewrite Z.add_0_r.
Qed.

Lemma mentions_zero k l : mentions k l = 0 ↔ k ∉ distinct_keys l.
Proof.
  unfold mentions, distinct_keys. rewrite elem_of_list_to_set, list_elem_of_fmap. split.
  - intros Hz (r & -> & Hr).
    assert (r ∈ filter (λ r', dr_content_key r' = dr_content_key r) l) as Hf
      by by apply list_elem_of_filter.
    destruct (filter _ l); [by apply not_elem_of_nil in Hf|done].
  - intros Hn. destruct (filter _ l) as [|r l'] eqn:E; [done|].
    assert (r ∈ filter (λ r', dr_content_key r' = k) l) as [? ?]%list_elem_of_filter
      by (rewrite E; by left). destruct Hn. eauto.
Qed.

Lemma dom_union l : unsigned_records l → dom (foldl union_record ∅ l) = distinct_keys l.
Proof.
  intros Hl. apply set_eq. intros k. rewrite elem_of_dom, union_lookup by done.
  destruct (mentions k l =? 0) eqn:E; propify.
  - apply mentions_zero in E. split; [intros [? ?]; done|done].
  - split; [|eauto]. intros _. apply dec_stable. by rewrite <- mentions_zero.
Qed.

Lemma elem_of_ranked u e :
  e ∈ ranked_entries u ↔ u !! dv_content_key e = Some (dv_providers e, dv_reported_by e).
Proof.
  unfold ranked_entries, btree_iter. rewrite elem_of_sort_by, list_elem_of_fmap. split.
  - intros ([k [p n]] & -> & Hin). rewrite elem_of_sort_by in Hin. simpl.
    by apply elem_of_map_to_list.
  - intros Hu. exists (dv_content_key e, (dv_providers e, dv_reported_by e)).
    rewrite elem_of_sort_by, elem_of_map_to_list. by destruct e.
Qed.

Lemma length_ranked u : length (ranked_entries u) = size u.
Proof.
  unfold ranked_entries, btree_iter.
  by rewrite length_sort_by, length_map, length_sort_by, length_map_to_list.
Qed.

Lemma NoDup_ranked_keys u : NoDup (dv_content_key <$> ranked_entries u).
Proof.
  unfold ranked_entries, btree_iter. rewrite sort_by_perm, <- list_fmap_compose.
  rewrite sort_by_perm. apply NoDup_fst_map_to_list.
Qed.

Lemma rank_leb_total a b : rank_leb a b = true ∨ rank_leb b a = true.
Proof. unfold rank_leb. repeat (case_test; propify); auto; try lia. apply string_leb_total. Qed.

Lemma rank_leb_trans a b c :
  rank_leb a b = true → rank_leb b c = true → rank_leb a c = true.
Proof.
  unfold rank_leb.
  repeat (case_test; propify); intros; try done; try lia. by eapply string_leb_trans.
Qed.

Lemma ranked_sorted u : StronglySorted (λ a b, rank_leb a b = true) (ranked_entries u).
Proof. apply sort_by_sorted; [apply rank_leb_total|apply rank_leb_trans]. Qed.

(** ** Properties *)

(** C34: what the published view says is what the answers say. Every published entry carries the
    number of records that mention its key and the largest provider count any of them claims; no
    key is published twice; the total is the number of distinct keys answered; the list holds at
    most 2000 keys, in ranking order, and a key is left out only when 2000 keys that rank at least
    as high are published; the view is marked truncated exactly when an answer was or keys are left
    out. *)
Theorem dht_view_exact answers now :
  unsigned_records (all_records answers) →
  let v := build_dht_view answers now in
  let recs := all_records answers in
  (∀ e, e ∈ keys v → dv_content_key e ∈ distinct_keys recs ∧
     dv_reported_by e = mentions (dv_content_key e) recs ∧
     dv_providers e = most_providers (dv_content_key e) recs) ∧
  NoDup (dv_content_key <$> keys v) ∧
  StronglySorted (λ a b, rank_leb a b = true) (keys v) ∧
  total_keys v = Z.of_nat (size (distinct_keys recs)) ∧
  Z.of_nat (length (keys v)) = Z.min 2000 (total_keys v) ∧
  (∀ k, k ∈ distinct_keys recs → k ∉ dv_content_key <$> keys v →
     ∀ e, e ∈ keys v →
       rank_leb e (MkDhtViewEntry k (most_providers k recs) (mentions k recs)) = true) ∧
  (truncated v = true ↔
     Exists (λ a, pa_truncated a = true) answers ∨ 2000 < total_keys v).
Proof.
  intros Hu v recs. unfold v, build_dht_view; cbn [keys total_keys truncated].
  rewrite union_answers_records. fold recs. fold recs in Hu.
  set (u := foldl union_record ∅ recs).
  assert (∀ e, e ∈ ranked_entries u ↔ dv_content_key e ∈ distinct_keys recs ∧
     dv_reported_by e = mentions (dv_content_key e) recs ∧
     dv_providers e = most_providers (dv_content_key e) recs) as Hin.
  { intros e. rewrite elem_of_ranked. unfold u. rewrite union_lookup by done.
    pose proof (mentions_zero (dv_content_key e) recs) as Hz.
    destruct (mentions _ _ =? 0) eqn:E; propify; [naive_solver|].
    split; [intros; simplify_eq; split; [apply dec_stable; tauto|done]|].
    by intros (_ & -> & ->). }
  pose proof (take_drop MAX_PUBLISHED_KEYS (ranked_entries u)) as Htd.
  pose proof (ranked_sorted u) as Hsort. rewrite <- Htd in Hsort.
  assert (size u = size (distinct_keys recs)) as Hsize.
  { unfold u. by rewrite <- dom_union, size_dom by done. }
  split_and!.
  - intros e He. apply Hin. rewrite <- Htd. apply elem_of_app. by left.
  - eapply sublist_NoDup; [apply (NoDup_ranked_keys u)|]. apply fmap_sublist, sublist_take.
  - apply StronglySorted_app in Hsort. apply Hsort.
  - by rewrite Hsize.
  - rewrite length_take, length_ranked. unfold MAX_PUBLISHED_KEYS. lia.
  - intros k Hk Hnot e He.
    set (ek := MkDhtViewEntry k (most_providers k recs) (mentions k recs)).
    assert (ek ∈ ranked_entries u) as Hek by by apply Hin.
    rewrite <- Htd in Hek. apply elem_of_app in Hek as [Hek|Hek].
    + destruct Hnot. by apply (list_elem_of_fmap_2 dv_content_key) in Hek.
    + apply StronglySorted_app in Hsort. destruct Hsort as (Hs & _). by apply Hs.
  - rewrite orb_true_iff, Z.ltb_lt. unfold MAX_PUBLISHED_KEYS.
    by rewrite existsb_Exists, Z2Nat.id.
Qed.

Lemma dht_view_exact_witness :
  let answers := [MkPeerAnswer [MkDhtRecord "aa" 3; MkDhtRecord "bb" 1] false;
                  MkPeerAnswer [MkDhtRecord "aa" 2] false] in
  keys (build_dht_view answers 0) = [MkDhtViewEntry "aa" 3 2; MkDhtViewEntry "bb" 1 1] ∧
  total_keys (build_dht_view answers 0) = Z.of_nat (size (distinct_keys (all_records answers))).
Proof.
  intros answers. split; [vm_compute; reflexivity|].
  apply (dht_view_exact answers 0). repeat constructor; simpl; lia.
Defined.

(** The corroboration count is per record, not per node: a single node that lists a key [n] times
    in one answer gets [n] reports for it, although one node reported. *)
Theorem dht_repeats_count_as_reports key p n now :
  0 ≤ p → (0 < n)%nat →
  let v := build_dht_view [MkPeerAnswer (replicate n (MkDhtRecord key p)) false] now in
  reporting_peers v = 1 ∧ keys v = [MkDhtViewEntry key p (Z.of_nat n)].
Proof.
  intros Hp Hn v. split; [done|].
  assert (∀ m u, foldl union_record u (replicate m (MkDhtRecord key p)) =
    match m with
    | O => u
    | _ => <[key := (Z.max (default (0, 0) (u !! key)).1 p,
                     (default (0, 0) (u !! key)).2 + Z.of_nat m)]> u
    end) as Hfold.
  { induction m as [|m IH]; intros u; [done|]. cbn [replicate foldl]. rewrite IH.
    unfold union_record; cbn [dr_content_key dr_providers].
    destruct m as [|m].
    - f_equal.
    - rewrite lookup_insert_eq, insert_insert_eq. simpl. do 2 f_equal; lia. }
  unfold v, build_dht_view. cbn [keys]. rewrite union_answers_records. unfold all_records.
  cbn [map concat pa_records]. rewrite app_nil_r, Hfold.
  destruct n as [|n]; [lia|]. rewrite lookup_empty. cbn [default fst snd].
  rewrite Z.max_r by done. rewrite insert_empty.
  unfold ranked_entries, btree_iter. rewrite map_to_list_singleton. done.
Qed.
