(* ===== verification/Stun.v ===== *)
(** * The STUN responder (src/stun.rs)

    The response rate limiter and the receive loop. The STUN codec of the [dig_stun] crate is a
    parameter; the socket is the sequence of datagrams it delivers and of datagrams it is asked to
    send. *)

From S2P Require Import Prelude Net ProxyProtocol Config Limits.

Record StunRateLimiter := MkStunLimiter {
  per_ip_capacity : Z;
  global_capacity : Z;
  per_ip : gmap IpAddr TokenBucket;
  global : TokenBucket }.

Definition stun_limiter_new (per_ip_cap global_cap now_ms : Z) : StunRateLimiter :=
  MkStunLimiter per_ip_cap global_cap ∅ (token_new (Z.max global_cap 1) now_ms).

Definition set_per_ip (l : StunRateLimiter) m : StunRateLimiter :=
  MkStunLimiter (per_ip_capacity l) (global_capacity l) m (global l).
Definition set_global (l : StunRateLimiter) g : StunRateLimiter :=
  MkStunLimiter (per_ip_capacity l) (global_capacity l) (per_ip l) g.

Definition touch (b : TokenBucket) (now_ms : Z) : TokenBucket :=
  MkTokenBucket (tokens b) (tb_window b) now_ms.

(** A peek at the tokens of the window of [now_ms]. *)
Definition peek (b : TokenBucket) (capacity now_window : Z) : Z :=
  if negb (tb_window b =? now_window) then capacity else tokens b.

Section stun.
Context `{HashOrder}.

(** The bucket for [key], created if missing, in the map after a possible eviction. *)
Definition bucket_for (l : StunRateLimiter) (key : IpAddr) (now_ms : Z)
    : TokenBucket * StunRateLimiter :=
  let m := evict_min tb_last_seen_ms (per_ip l) key in
  let b := default (token_new (Z.max (per_ip_capacity l) 1) now_ms) (m !! key) in
  (b, set_per_ip l (<[key := b]> m)).

Definition allow (l : StunRateLimiter) (src : IpAddr) (now_ms : Z) : bool * StunRateLimiter :=
  let key := to_canonical src in
  let now_window := now_ms / 1000 in
  let '(per_ip_ok, l) :=
    if 0 <? per_ip_capacity l then
      let '(bucket, l) := bucket_for l key now_ms in
      let available := peek bucket (per_ip_capacity l) now_window in
      if available =? 0 then (false, set_per_ip l (<[key := touch bucket now_ms]> (per_ip l)))
      else (true, l)
    else (true, l) in
  if negb per_ip_ok then (false, l)
  else if (0 <? global_capacity l) && (peek (global l) (global_capacity l) now_window =? 0)
  then (false, l)
  else
    let l :=
      if 0 <? per_ip_capacity l then
        let '(bucket, l) := bucket_for l key now_ms in
        let b := (token_try_spend bucket (per_ip_capacity l) now_ms).2 in
        set_per_ip l (<[key := b]> (per_ip l))
      else l in
    let l :=
      if 0 <? global_capacity l
      then set_global l (token_try_spend (global l) (global_capacity l) now_ms).2
      else l in
    (true, l).
End stun.

(** ** The receive loop *)

Class DigStun := {
  TransactionId : Type;
  parse_binding_request : list Z → option TransactionId;
  encode_binding_success : TransactionId → SocketAddr → list Z }.

Inductive StunEvent : Type :=
| RecvFailed
| Datagram (payload : list Z) (src : SocketAddr) (now_ms : Z).

Definition STUN_BUF : nat := 1500.

Section stun_run.
Context `{HashOrder, DigStun}.

(** One iteration: the limiter and the answered-requests counter, and the datagram sent, if any.
    A datagram longer than the buffer is cut to it. *)
Definition stun_iter (st : StunRateLimiter * Z) (ev : StunEvent)
    : option (list Z * SocketAddr) * (StunRateLimiter * Z) :=
  let '(limiter, stun_requests) := st in
  match ev with
  | RecvFailed => (None, st)
  | Datagram payload src now_ms =>
      match parse_binding_request (take STUN_BUF payload) with
      | Some transaction_id =>
          let '(ok, limiter) := allow limiter (sa_ip src) now_ms in
          if negb ok then (None, (limiter, stun_requests))
          else
            (Some (encode_binding_success transaction_id src, src),
             (limiter, wrap64 (stun_requests + 1)))
      | None => (None, st)
      end
  end.

Fixpoint stun_run (st : StunRateLimiter * Z) (evs : list StunEvent)
    : list (option (list Z * SocketAddr)) * (StunRateLimiter * Z) :=
  match evs with
  | [] => ([], st)
  | ev :: evs' =>
      let '(out, st') := stun_iter st ev in
      let '(outs, st'') := stun_run st' evs' in
      (out :: outs, st'')
  end.
End stun_run.

(** ** What one request does *)

Section allow_lemmas.
Context `{HashOrder}.
Implicit Types (l : StunRateLimiter).

(** The bucket a source is charged to, fresh if it is not tracked. *)
Definition source_bucket l (key : IpAddr) (now_ms : Z) : TokenBucket :=
  default (token_new (per_ip_capacity l) now_ms) (per_ip l !! key).

Definition global_blocked l (now_ms : Z) : bool :=
  (0 <? global_capacity l) && (peek (global l) (global_capacity l) (now_ms / 1000) =? 0).

Definition spend_global l (now_ms : Z) : TokenBucket :=
  if 0 <? global_capacity l then (token_try_spend (global l) (global_capacity l) now_ms).2
  else global l.

Lemma evict_min_present {V} (f : V → Z) (m : gmap IpKey V) key v :
  m !! key = Some v → evict_min f m key = m.
Proof. intros Hk. unfold evict_min. by rewrite Hk. Qed.

Lemma bucket_for_eq l key now :
  0 < per_ip_capacity l →
  bucket_for l key now =
    (source_bucket l key now,
     set_per_ip l (<[key := source_bucket l key now]> (evict_min tb_last_seen_ms (per_ip l) key))).
Proof.
  intros Hcap. unfold bucket_for, source_bucket. rewrite evict_min_key.
  by rewrite Z.max_l by lia.
Qed.

Lemma bucket_for_present l key now b :
  0 < per_ip_capacity l → per_ip l !! key = Some b →
  bucket_for l key now = (b, l).
Proof.
  intros Hcap Hb. rewrite bucket_for_eq by done.
  unfold source_bucket. rewrite (evict_min_present _ _ _ b Hb), Hb. simpl.
  rewrite insert_id by done. by destruct l.
Qed.

Lemma allow_eq l src now :
  0 < per_ip_capacity l →
  let key := to_canonical src in
  let b := source_bucket l key now in
  let m := evict_min tb_last_seen_ms (per_ip l) key in
  allow l src now =
    if peek b (per_ip_capacity l) (now / 1000) =? 0
    then (false, set_per_ip l (<[key := touch b now]> m))
    else if global_blocked l now then (false, set_per_ip l (<[key := b]> m))
    else (true, set_global
            (set_per_ip l (<[key := (token_try_spend b (per_ip_capacity l) now).2]> m))
            (spend_global l now)).
Proof.
  intros Hcap key b m. unfold allow. fold key.
  rewrite (proj2 (Z.ltb_lt _ _)) by done. rewrite bucket_for_eq by done. fold b m.
  cbn [set_per_ip per_ip_capacity per_ip].
  destruct (peek b _ _ =? 0); cbn [negb].
  { by rewrite insert_insert_eq. }
  cbn [set_per_ip global_capacity global per_ip_capacity]. unfold global_blocked.
  destruct ((0 <? global_capacity l) && _); [done|].
  rewrite (proj2 (Z.ltb_lt 0 (per_ip_capacity l))) by done.
  rewrite (bucket_for_present _ key now b); [|done|by simpl; rewrite lookup_insert_eq].
  cbn [set_per_ip set_global per_ip_capacity per_ip global_capacity global].
  unfold spend_global. rewrite insert_insert_eq.
  by destruct (0 <? global_capacity l).
Qed.

(** Without a per-IP limit only the global bucket is consulted. *)
Lemma allow_eq_unlimited l src now :
  per_ip_capacity l = 0 →
  allow l src now =
    if global_blocked l now then (false, l) else (true, set_global l (spend_global l now)).
Proof.
  intros Hcap. assert ((0 <? per_ip_capacity l) = false) as E by (by rewrite Hcap).
  unfold allow, global_blocked, spend_global. rewrite E. cbn [negb]. rewrite E.
  destruct (0 <? global_capacity l); simpl; [|by destruct l].
  by destruct (peek _ _ _ =? 0).
Qed.

(** Whatever the per-IP side does, the global bucket changes only by an allowed response. *)
Lemma allow_global l src now :
  0 ≤ per_ip_capacity l →
  let '(ok, l') := allow l src now in
  global_capacity l' = global_capacity l ∧ per_ip_capacity l' = per_ip_capacity l ∧
  (ok = true → global_blocked l now = false) ∧
  global l' = (if ok then spend_global l now else global l).
Proof.
  intros Hcap. destruct (decide (per_ip_capacity l = 0)) as [E|E].
  - rewrite allow_eq_unlimited by done. by destruct (global_blocked l now).
  - rewrite allow_eq by lia. case_test; [done|]. by destruct (global_blocked l now).
Qed.

Lemma peek_avail b cap t : peek b cap (t / 1000) = byte_avail cap (as_byte_bucket b) (t / 1000).
Proof.
  unfold peek, byte_avail. simpl. rewrite Z.eqb_sym. by destruct (_ =? tb_window b).
Qed.

(** A spend after a successful peek takes exactly one token of its window. *)
Lemma spend_avail b cap t :
  tb_window b ≤ t / 1000 → 0 ≤ cap → 0 ≤ tokens b → peek b cap (t / 1000) ≠ 0 →
  let b' := (token_try_spend b cap t).2 in
  tb_window b' = t / 1000 ∧ 0 ≤ tokens b' ∧
  ∀ w, t / 1000 ≤ w →
    byte_avail cap (as_byte_bucket b') w =
    byte_avail cap (as_byte_bucket b) w - (if t / 1000 =? w then 1 else 0).
Proof.
  intros Hw Hcap Htok Hpeek b'. rewrite peek_avail in Hpeek.
  pose proof (token_try_spend_byte b cap t) as Htb.
  pose proof (byte_try_spend_avail cap (as_byte_bucket b) 1 t) as Hs.
  subst b'. destruct (token_try_spend b cap t) as [ok b']. destruct Htb as [Htb _].
  rewrite Htb in Hs. destruct Hs as (Hw' & Hok & Hav); [done|]. simpl in *.
  assert (ok = true) as ->.
  { apply Hok. unfold byte_avail in *. simpl in *. destruct (_ =? tb_window b); lia. }
  split; [done|]. setoid_rewrite andb_true_r in Hav. split; [|done].
  specialize (Hav (t / 1000)). unfold byte_avail in Hav at 1. simpl in Hav.
  rewrite Hw', !Z.eqb_refl in Hav. pose proof (proj1 Hok eq_refl). lia.
Qed.
End allow_lemmas.

(** ** Responses over time *)

Fixpoint monotone_events (t0 : Z) (evs : list StunEvent) : Prop :=
  match evs with
  | [] => True
  | RecvFailed :: evs' => monotone_events t0 evs'
  | Datagram _ _ t :: evs' => t0 ≤ t ∧ monotone_events t evs'
  end.

Definition sources (evs : list StunEvent) : gset IpAddr :=
  list_to_set (omap (λ ev, match ev with
                           | Datagram _ src _ => Some (to_canonical (sa_ip src))
                           | RecvFailed => None end) evs).

Section traces.
Context `{HashOrder, DigStun}.

(** The responses sent in window [w] to the (canonical) sources [P] selects. *)
Fixpoint responses (st : StunRateLimiter * Z) (P : IpAddr → bool) (w : Z) (evs : list StunEvent)
    : Z :=
  match evs with
  | [] => 0
  | ev :: evs' =>
      let '(out, st') := stun_iter st ev in
      match ev, out with
      | Datagram _ src t, Some _ =>
          if P (to_canonical (sa_ip src)) && (t / 1000 =? w) then 1 else 0
      | _, _ => 0
      end + responses st' P w evs'
  end.

Lemma responses_before st P w evs t0 :
  monotone_events t0 evs → w < t0 / 1000 → responses st P w evs = 0.
Proof.
  revert st t0. induction evs as [|[|pl src t] evs IH]; intros st t0 Hm Hw; [done| |].
  - destruct st as [l c]. cbn [responses stun_iter]. by rewrite (IH _ t0).
  - destruct Hm as [Ht Hm]. pose proof (window_mono _ _ Ht).
    cbn [responses]. destruct (stun_iter st _) as [out st']. rewrite (IH st' t) by (done || lia).
    rewrite (proj2 (Z.eqb_neq _ _)), andb_false_r by lia. by destruct out.
Qed.

(** A budget [pot] that every response draws on bounds the responses. *)
Section budget.
Context (P : IpAddr → bool) (pot : StunRateLimiter → Z → Z).
Context (I : Z → StunRateLimiter → list StunEvent → Prop).
Context (Hskip : ∀ t0 l ev evs, I t0 l (ev :: evs) → I t0 l evs).
Context (Hnonneg : ∀ t0 l evs w, I t0 l evs → 0 ≤ pot l w).
Context (Hmono : ∀ t0 t l evs, t0 ≤ t → I t0 l evs → I t l evs).
Context (Hstep : ∀ t l pl src evs,
  I t l (Datagram pl src t :: evs) →
  let '(ok, l') := allow l (sa_ip src) t in
  I t l' evs ∧
  ∀ w, t / 1000 ≤ w →
    pot l' w ≤ pot l w - (if ok && P (to_canonical (sa_ip src)) && (t / 1000 =? w) then 1 else 0)).

Lemma responses_budget l c w evs t0 :
  I t0 l evs → monotone_events t0 evs → responses (l, c) P w evs ≤ pot l w ∨ w < t0 / 1000.
Proof.
  revert l c t0. induction evs as [|[|pl src t] evs IH]; intros l c t0 HI Hm.
  - left. by apply (Hnonneg t0 l []).
  - simpl. apply IH; [by eapply Hskip|done].
  - destruct Hm as [Ht Hm]. pose proof (window_mono _ _ Ht) as Hwin.
    destruct (decide (w < t0 / 1000)) as [|Hw]; [by right|left].
    destruct (decide (w < t / 1000)) as [Hlt|Hge].
    { rewrite (responses_before _ P w (Datagram pl src t :: evs) t); [by eapply Hnonneg| |done].
      simpl. split; [lia|done]. }
    cbn [responses stun_iter].
    destruct (parse_binding_request (take STUN_BUF pl)) as [tid|].
    + pose proof (Hstep t l pl src evs (Hmono t0 t _ _ Ht HI)) as Hs.
      destruct (allow l (sa_ip src) t) as [ok l']. destruct Hs as [HI' Hpot].
      specialize (Hpot w ltac:(lia)).
      destruct ok; cbn [negb andb] in *;
        [destruct (IH l' (wrap64 (c + 1)) t HI' Hm)|destruct (IH l' c t HI' Hm)];
        try destruct (P _ && _); lia.
    + destruct (IH l c t) as [IHl|IHl]; [by eapply Hskip, Hmono|done|lia|lia].
Qed.
End budget.

Definition bucket_ok (b : TokenBucket) (t0 : Z) : Prop := tb_window b ≤ t0 / 1000 ∧ 0 ≤ tokens b.

Lemma bucket_ok_mono b t0 t : t0 ≤ t → bucket_ok b t0 → bucket_ok b t.
Proof. intros Ht [Hw Hk]. split; [|done]. pose proof (window_mono _ _ Ht). lia. Qed.

Lemma byte_avail_nonneg cap b w : 0 ≤ cap → 0 ≤ tokens b → 0 ≤ byte_avail cap (as_byte_bucket b) w.
Proof. intros. unfold byte_avail. simpl. by case_test. Qed.

(** *** The global budget *)

Definition global_inv (t0 : Z) (l : StunRateLimiter) (_ : list StunEvent) : Prop :=
  0 ≤ per_ip_capacity l ∧ 0 < global_capacity l ∧ bucket_ok (global l) t0.

Definition global_pot (l : StunRateLimiter) (w : Z) : Z :=
  byte_avail (global_capacity l) (as_byte_bucket (global l)) w.

Lemma global_step P t l pl src evs :
  global_inv t l (Datagram pl src t :: evs) →
  let '(ok, l') := allow l (sa_ip src) t in
  global_inv t l' evs ∧
  ∀ w, t / 1000 ≤ w →
    global_pot l' w ≤
    global_pot l w - (if ok && P (to_canonical (sa_ip src)) && (t / 1000 =? w) then 1 else 0).
Proof.
  intros (Hp & Hg & [Hw Hk]). pose proof (allow_global l (sa_ip src) t Hp) as Ha.
  destruct (allow l (sa_ip src) t) as [ok l']. destruct Ha as (Eg & Ep & Hok & El).
  unfold global_inv, global_pot. rewrite Eg, Ep, El.
  destruct ok; simpl; [|by split; [|intros; lia]].
  specialize (Hok eq_refl). unfold global_blocked in Hok. unfold spend_global.
  rewrite (proj2 (Z.ltb_lt _ _) Hg) in *. simpl in Hok. propify.
  destruct (spend_avail (global l) (global_capacity l) t) as (Hw' & Hk' & Hav); [done|lia|done|done|].
  split; [split; [done|]; split; [done|split; lia]|].
  intros w Hle. rewrite Hav by done. destruct (P _), (t / 1000 =? w); simpl; lia.
Qed.

(** *** The per-source budget *)

Definition per_ip_inv (t0 : Z) (l : StunRateLimiter) (evs : list StunEvent) : Prop :=
  0 < per_ip_capacity l ∧ (∀ k b, per_ip l !! k = Some b → bucket_ok b t0) ∧
  Z.of_nat (size (sources evs ∪ dom (per_ip l))) ≤ MAX_TRACKED_IPS.

Definition per_ip_pot (k : IpAddr) (l : StunRateLimiter) (w : Z) : Z :=
  match per_ip l !! k with
  | Some b => byte_avail (per_ip_capacity l) (as_byte_bucket b) w
  | None => per_ip_capacity l
  end.

Lemma source_bucket_avail l k t w :
  byte_avail (per_ip_capacity l) (as_byte_bucket (source_bucket l k t)) w = per_ip_pot k l w.
Proof.
  unfold source_bucket, per_ip_pot. destruct (per_ip l !! k); simpl; [done|].
  unfold byte_avail. simpl. by case_test.
Qed.

Lemma sources_cons pl src t evs :
  sources (Datagram pl src t :: evs) = {[to_canonical (sa_ip src)]} ∪ sources evs.
Proof. done. Qed.

(** Writing a bucket worth [d] less for [key] costs the budget of [key] exactly [d]. *)
Lemma per_ip_write t l l' key b' d evs :
  per_ip_inv t l evs → key ∈ sources evs ∪ dom (per_ip l) →
  per_ip_capacity l' = per_ip_capacity l → per_ip l' = <[key := b']> (per_ip l) →
  bucket_ok b' t →
  (∀ w, t / 1000 ≤ w →
     byte_avail (per_ip_capacity l) (as_byte_bucket b') w = per_ip_pot key l w - d w) →
  per_ip_inv t l' evs ∧
  ∀ k w, t / 1000 ≤ w → per_ip_pot k l' w = per_ip_pot k l w - (if bool_decide (k = key) then d w else 0).
Proof.
  intros (Hc & Hb & Hs) Hin Ec Em Hb' Hav. split.
  - unfold per_ip_inv. rewrite Ec, Em. split; [done|]. split.
    + intros k b. destruct (decide (key = k)) as [<-|Hne].
      * rewrite lookup_insert_eq. by intros [= <-].
      * rewrite lookup_insert_ne by done. apply Hb.
    + etransitivity; [|exact Hs]. apply inj_le, subseteq_size. rewrite dom_insert. set_solver.
  - intros k w Hw. unfold per_ip_pot at 1. rewrite Ec, Em.
    case_bool_decide as Hk.
    + subst k. rewrite lookup_insert_eq. by apply Hav.
    + rewrite lookup_insert_ne by done. unfold per_ip_pot. lia.
Qed.

Lemma per_ip_step k0 t l pl src evs :
  per_ip_inv t l (Datagram pl src t :: evs) →
  let '(ok, l') := allow l (sa_ip src) t in
  per_ip_inv t l' evs ∧
  ∀ w, t / 1000 ≤ w →
    per_ip_pot k0 l' w ≤
    per_ip_pot k0 l w
      - (if ok && bool_decide (to_canonical (sa_ip src) = k0) && (t / 1000 =? w) then 1 else 0).
Proof.
  intros Hinv. pose proof Hinv as (Hc & Hb & Hs). rewrite sources_cons in Hs.
  set (key := to_canonical (sa_ip src)) in *.
  assert (evict_min tb_last_seen_ms (per_ip l) key = per_ip l) as Hev.
  { apply evict_min_not_full. etransitivity; [|exact Hs]. apply inj_le, subseteq_size. set_solver. }
  rewrite allow_eq by done. fold key. rewrite Hev.
  set (b := source_bucket l key t).
  assert (bucket_ok b t) as Hbok.
  { unfold b, source_bucket. destruct (per_ip l !! key) eqn:E; simpl; [by eapply Hb|].
    split; simpl; lia. }
  assert (∀ l' b' d, per_ip_capacity l' = per_ip_capacity l → per_ip l' = <[key := b']> (per_ip l) →
    bucket_ok b' t →
    (∀ w, t / 1000 ≤ w →
       byte_avail (per_ip_capacity l) (as_byte_bucket b') w = per_ip_pot key l w - d w) →
    per_ip_inv t l' evs ∧ ∀ w, t / 1000 ≤ w →
      per_ip_pot k0 l' w = per_ip_pot k0 l w - (if bool_decide (k0 = key) then d w else 0)) as Hwr.
  { intros l' b' d Ec Em Hb' Hav.
    destruct (per_ip_write t l l' key b' d (Datagram pl src t :: evs)) as [Hi Hp]; try done.
    { rewrite sources_cons. set_solver. }
    split; [|auto]. destruct Hi as (? & ? & Hsz). split_and!; try done.
    etransitivity; [|exact Hsz]. apply inj_le, subseteq_size. rewrite sources_cons. set_solver. }
  destruct (peek b _ _ =? 0) eqn:Hpk; [|destruct (global_blocked l t)]; propify.
  - destruct (Hwr (set_per_ip l (<[key:=touch b t]> (per_ip l))) (touch b t) (λ _, 0)) as [Hi Hp];
      try done.
    { intros w _. rewrite Z.sub_0_r. apply source_bucket_avail. }
    split; [done|]. intros w Hw. rewrite Hp by done. simpl. case_test; lia.
  - destruct (Hwr (set_per_ip l (<[key:=b]> (per_ip l))) b (λ _, 0)) as [Hi Hp]; try done.
    { intros w _. rewrite Z.sub_0_r. apply source_bucket_avail. }
    split; [done|]. intros w Hw. rewrite Hp by done. simpl. case_test; lia.
  - destruct Hbok as [Hbw Hbk].
    destruct (spend_avail b (per_ip_capacity l) t) as (Hw' & Hk' & Hav); [done|lia|done|done|].
    destruct (Hwr (set_global (set_per_ip l (<[key:=(token_try_spend b (per_ip_capacity l) t).2]>
      (per_ip l))) (spend_global l t)) (token_try_spend b (per_ip_capacity l) t).2
      (λ w, if t / 1000 =? w then 1 else 0)) as [Hi Hp]; try done.
    { split; lia. }
    { intros w Hw. rewrite Hav by done. f_equal. apply source_bucket_avail. }
    split; [done|]. intros w Hw. rewrite Hp by done.
    rewrite (bool_decide_ext (k0 = key) (key = k0)) by done.
    cbn [andb]. destruct (bool_decide (key = k0)), (t / 1000 =? w); simpl; lia.
Qed.
End traces.

(** ** Properties *)

(** C26: the responder is not an open reflector: whatever datagrams arrive, from however many forged
    sources, at most [global_capacity] responses are sent in any of the clock's seconds, for a positive
    capacity and a clock that does not go back. *)
Theorem stun_global_bound `{HashOrder, DigStun} per_ip_cap global_cap t0 evs w :
  0 ≤ per_ip_cap → 0 < global_cap → monotone_events t0 evs →
  responses (stun_limiter_new per_ip_cap global_cap t0, 0) (λ _, true) w evs ≤ global_cap.
Proof.
  intros Hp Hg Hm.
  destruct (responses_budget (λ _, true) global_pot global_inv) with
    (l := stun_limiter_new per_ip_cap global_cap t0) (c := 0) (w := w) (evs := evs) (t0 := t0)
    as [Hle|Hlt]; try done.
  - intros t l es w' (_ & ? & ? & ?). apply byte_avail_nonneg; lia.
  - intros t t' l es Ht (? & ? & ?). split_and!; try done. by eapply bucket_ok_mono.
  - apply (global_step (λ _, true)).
  - split; [done|]. split; [done|]. split; simpl; lia.
  - etransitivity; [exact Hle|]. unfold global_pot, byte_avail. simpl. case_test; lia.
  - rewrite (responses_before _ _ w evs t0) by done. lia.
Qed.

(** No victim is flooded: as long as at most 65536 sources are in play, each source address is
    sent at most [per_ip_capacity] responses in any one-second window, an IPv4-mapped IPv6 address
    sharing the budget of the IPv4 address it maps. *)
Theorem stun_per_ip_bound `{HashOrder, DigStun} per_ip_cap global_cap t0 evs k w :
  0 < per_ip_cap → monotone_events t0 evs →
  Z.of_nat (size (sources evs)) ≤ MAX_TRACKED_IPS →
  responses (stun_limiter_new per_ip_cap global_cap t0, 0) (λ ip, bool_decide (ip = k)) w evs
    ≤ per_ip_cap.
Proof.
  intros Hp Hm Hs.
  destruct (responses_budget (λ ip, bool_decide (ip = k)) (per_ip_pot k) per_ip_inv) with
    (l := stun_limiter_new per_ip_cap global_cap t0) (c := 0) (w := w) (evs := evs) (t0 := t0)
    as [Hle|Hlt]; try done.
  - intros t l ev es (? & ? & Hsz). split_and!; try done. etransitivity; [|exact Hsz].
    apply inj_le, subseteq_size. unfold sources. destruct ev; set_solver.
  - intros t l es w' (? & Hb & _). unfold per_ip_pot.
    destruct (per_ip l !! k) eqn:E; [|lia]. apply byte_avail_nonneg; [lia|]. by eapply Hb.
  - intros t t' l es Ht (? & Hb & ?). split_and!; try done.
    intros k' b Hk'. eapply bucket_ok_mono; [done|]. by eapply Hb.
  - apply per_ip_step.
  - split_and!; simpl; try done.
    rewrite dom_empty_L, union_empty_r_L. done.
  - rewrite (responses_before _ _ w evs t0) by done. lia.
Qed.

(** One request in detail. It is answered exactly when the source's budget and the global budget
    both have a token left in the current window; a refusal leaves the global budget untouched, and
    a refusal by the global budget leaves the source's own bucket as it was, so neither side can
    drain the other; the table never exceeds 65536 sources. *)
Theorem stun_allow_exact `{HashOrder} l src now :
  0 < per_ip_capacity l → 0 < global_capacity l →
  Z.of_nat (size (per_ip l)) ≤ MAX_TRACKED_IPS →
  let '(ok, l') := allow l src now in
  let key := to_canonical src in
  let b := source_bucket l key now in
  (ok = true ↔ peek b (per_ip_capacity l) (now / 1000) ≠ 0 ∧
               peek (global l) (global_capacity l) (now / 1000) ≠ 0) ∧
  (ok = false → global l' = global l) ∧
  (ok = false → peek b (per_ip_capacity l) (now / 1000) ≠ 0 → per_ip l' !! key = Some b) ∧
  Z.of_nat (size (per_ip l')) ≤ MAX_TRACKED_IPS.
Proof.
  intros Hp Hg Hs. rewrite allow_eq by done.
  unfold global_blocked. rewrite (proj2 (Z.ltb_lt _ _) Hg). simpl andb.
  destruct (peek (source_bucket _ _ _) _ _ =? 0) eqn:E1; propify;
    [|destruct (peek (global l) _ _ =? 0) eqn:E2; propify]; cbn [set_per_ip set_global global per_ip].
  - split_and!; [split; [done|]; tauto|done|done|by apply evict_min_insert_bound].
  - split_and!; [split; [done|]; tauto|done| |by apply evict_min_insert_bound].
    intros _ _. apply lookup_insert_eq.
  - split_and!; [done|done|done|by apply evict_min_insert_bound].
Qed.

(** Every datagram sent answers the datagram just received: it goes to that datagram's source
    and carries the success response for its transaction, and only well-formed Binding Requests are
    answered; the published counter is the number of responses sent (modulo the counter's width). *)
Theorem stun_answers_only_requests `{HashOrder, DigStun} l c evs :
  0 ≤ c →
  let '(outs, (l', c')) := stun_run (l, c) evs in
  Forall2 (λ ev out, ∀ bytes dst, out = Some (bytes, dst) →
    ∃ payload t tid, ev = Datagram payload dst t ∧
      parse_binding_request (take STUN_BUF payload) = Some tid ∧
      bytes = encode_binding_success tid dst) evs outs ∧
  c' mod 2 ^ 64 = (c + Z.of_nat (length (omap id outs))) mod 2 ^ 64.
Proof.
  revert l c. induction evs as [|ev evs IH]; intros l c Hc; cbn [stun_run].
  { split; [constructor|]. f_equal. simpl. lia. }
  destruct (stun_iter (l, c) ev) as [out [l1 c1]] eqn:Hi.
  assert (0 ≤ c1 ∧ c1 mod 2 ^ 64 = (c + (if out is Some _ then 1 else 0)) mod 2 ^ 64 ∧
    ∀ bytes dst, out = Some (bytes, dst) → ∃ payload t tid, ev = Datagram payload dst t ∧
      parse_binding_request (take STUN_BUF payload) = Some tid ∧
      bytes = encode_binding_success tid dst) as (Hc1 & Hcnt & Hout).
  { destruct ev as [|pl src t]; simpl in Hi; [simplify_eq; by rewrite Z.add_0_r|].
    destruct (parse_binding_request _) as [tid|] eqn:Hparse; [|simplify_eq; by rewrite Z.add_0_r].
    destruct (allow l (sa_ip src) t) as [[] l2]; simplify_eq/=; [|by rewrite Z.add_0_r].
    unfold wrap64. split; [apply Z.mod_pos_bound; lia|]. split; [by rewrite Z.mod_mod|].
    intros bytes dst E. simplify_eq. eauto 10. }
  specialize (IH l1 c1 Hc1). destruct (stun_run (l1, c1) evs) as [outs [l2 c2]].
  destruct IH as [Hall Hcnt2]. simpl. split; [by constructor|].
  rewrite Hcnt2. rewrite Z.add_mod, Hcnt, <- Z.add_mod by done. f_equal.
  unfold omap. destruct out; simpl; lia.
Qed.

(** A codec with one-byte transaction ids, for concrete evaluations. *)
Definition stun_codec_example : DigStun := {|
  TransactionId := Z;
  parse_binding_request := λ p, match p with [0; 1; t] => Some t | _ => None end;
  encode_binding_success := λ t a, [1; 1; t; sa_port a]
|}.

Definition stun_example_event (now_ms : Z) : StunEvent :=
  Datagram [0; 1; 9] (SaV4 (MkV4 1 2 3 4) 5000) now_ms.

Lemma stun_global_bound_witness :
  responses (H := gmap_order) (H0 := stun_codec_example) (stun_limiter_new 5 2 0, 0) (λ _, true) 0
    (replicate 4 (stun_example_event 10)) = 2 ∧
  responses (H := gmap_order) (H0 := stun_codec_example) (stun_limiter_new 5 2 0, 0) (λ _, true) 0
    (replicate 4 (stun_example_event 10)) ≤ 2.
Proof.
  split; [vm_compute; reflexivity|].
  apply (@stun_global_bound gmap_order stun_codec_example); [lia|lia|].
  simpl. repeat split; lia.
Defined.

Lemma stun_per_ip_bound_witness :
  responses (H := gmap_order) (H0 := stun_codec_example) (stun_limiter_new 3 10 0, 0)
    (λ ip, bool_decide (ip = IpV4 (MkV4 1 2 3 4))) 0 (replicate 5 (stun_example_event 10)) ≤ 3.
Proof.
  apply (@stun_per_ip_bound gmap_order stun_codec_example).
  - lia.
  - simpl. repeat split; lia.
  - vm_compute. discriminate.
Defined.

Lemma stun_allow_exact_witness :
  (allow (H := gmap_order) (stun_limiter_new 1 1 0) (IpV4 (MkV4 1 2 3 4)) 10).1 = true ∧
  let '(ok, l') := allow (H := gmap_order) (stun_limiter_new 1 1 0) (IpV4 (MkV4 1 2 3 4)) 10 in
  (ok = true ↔ peek (source_bucket (stun_limiter_new 1 1 0) (IpV4 (MkV4 1 2 3 4)) 10) 1 0 ≠ 0 ∧
               peek (global (stun_limiter_new 1 1 0)) 1 0 ≠ 0).
Proof.
  split; [reflexivity|].
  pose proof (@stun_allow_exact gmap_order (stun_limiter_new 1 1 0) (IpV4 (MkV4 1 2 3 4)) 10
    eq_refl eq_refl) as Hx.
  destruct (allow _ _ _) as [ok l']. apply Hx. vm_compute. discriminate.
Defined.

Lemma stun_answers_only_requests_witness :
  let '(outs, (_, c')) := stun_run (H := gmap_order) (H0 := stun_codec_example)
    (stun_limiter_new 5 5 0, 7) [stun_example_event 10; RecvFailed; stun_example_event 20] in
  c' mod 2 ^ 64 = (7 + Z.of_nat (length (omap id outs))) mod 2 ^ 64.
Proof.
  pose proof (@stun_answers_only_requests gmap_order stun_codec_example (stun_limiter_new 5 5 0) 7
    [stun_example_event 10; RecvFailed; stun_example_event 20] ltac:(lia)) as Hx.
  destruct (stun_run _ _) as [outs [l' c']]. apply Hx.
Defined.
