(* ===== verification/F64.v ===== *)
(** * Binary64 arithmetic

    Rust's [f64] as the Standard Library's executable specification of IEEE 754 binary64
    ([SpecFloat], precision 53, exponents up to 1024, round to nearest even), with [floor],
    [round], and the casts between [i64] and [f64], and one exact result: dividing by 5 and taking
    the floor gives the floor of the exact quotient, in spite of the rounding of the division. *)

From Stdlib Require Import SpecFloat.
From S2P Require Import Prelude.

Definition f64 : Type := spec_float.

Definition f64_add : f64 → f64 → f64 := SFadd 53 1024.
Definition f64_mul : f64 → f64 → f64 := SFmul 53 1024.
Definition f64_div : f64 → f64 → f64 := SFdiv 53 1024.

(** The binary64 number nearest to [m * 2^e]. *)
Definition f64_of (m e : Z) : f64 := binary_normalize 53 1024 m e false.

(** [q as f64]. *)
Definition f64_of_i64 (q : Z) : f64 := f64_of q 0.

Definition signed (s : bool) (z : Z) : Z := if s then - z else z.

(** The largest integer not above [(-1)^s * m * 2^e]. *)
Definition floor_Z (s : bool) (m e : Z) : Z :=
  if 0 <=? e then signed s (m * 2 ^ e) else signed s m / 2 ^ (- e).

Definition f64_floor (x : f64) : f64 :=
  match x with
  | S754_finite s m e => f64_of_i64 (floor_Z s (Zpos m) e)
  | _ => x
  end.

(** [f64::round]: to the nearest integer, halves away from zero. *)
Definition f64_round (x : f64) : f64 :=
  match x with
  | S754_finite s m e =>
      let r := if 0 <=? e then Zpos m * 2 ^ e else (2 * Zpos m + 2 ^ (- e)) / (2 * 2 ^ (- e)) in
      binary_normalize 53 1024 (signed s r) 0 s
  | _ => x
  end.

Definition i64_min : Z := -9223372036854775808.
Definition i64_max : Z := 9223372036854775807.

(** [x as i64]: towards zero, saturating, 0 for NaN. *)
Definition f64_to_i64 (x : f64) : Z :=
  match x with
  | S754_zero _ | S754_nan => 0
  | S754_infinity s => if s then i64_min else i64_max
  | S754_finite s m e =>
      Z.max i64_min (Z.min i64_max
        (signed s (if 0 <=? e then Zpos m * 2 ^ e else Zpos m / 2 ^ (- e))))
  end.

(** ** Mantissas *)

Lemma digits2_pos_bounds m :
  2 ^ (Zpos (digits2_pos m) - 1) ≤ Zpos m < 2 ^ Zpos (digits2_pos m).
Proof.
  induction m as [m IH|m IH|]; cbn [digits2_pos]; [| |simpl; lia];
    rewrite Pos2Z.inj_succ; replace (Z.succ _ - 1) with (Z.succ (Zpos (digits2_pos m) - 1)) by lia;
    rewrite !Z.pow_succ_r by lia; lia.
Qed.

Lemma Zdigits2_bounds n : 0 < n → 2 ^ (Zdigits2 n - 1) ≤ n < 2 ^ Zdigits2 n.
Proof. destruct n as [|p|p]; [lia| |lia]. intros _. apply digits2_pos_bounds. Qed.

Lemma Zdigits2_unique n d : 2 ^ (d - 1) ≤ n < 2 ^ d → 1 ≤ d → Zdigits2 n = d.
Proof.
  intros Hn Hd. assert (0 < n) by (pose proof (Z.pow_pos_nonneg 2 (d - 1)); lia).
  pose proof (Zdigits2_bounds n ltac:(lia)) as Hb.
  assert (1 ≤ Zdigits2 n).
  { destruct (Z_lt_le_dec (Zdigits2 n) 1) as [Hl|]; [|lia].
    pose proof (Z.pow_le_mono_r 2 (Zdigits2 n) 0). simpl in *. lia. }
  destruct (Z.lt_trichotomy (Zdigits2 n) d) as [Hlt|[?|Hgt]]; [|done|].
  - pose proof (Z.pow_le_mono_r 2 (Zdigits2 n) (d - 1)). lia.
  - pose proof (Z.pow_le_mono_r 2 d (Zdigits2 n - 1)). lia.
Qed.

(** ** Rounding to the nearest *)

Lemma fexp_normal d e : -1074 ≤ e → 53 ≤ d → fexp 53 1024 (d + e) - e = d - 53.
Proof. unfold fexp, emin. lia. Qed.

Lemma shr_fexp_53 n e l :
  2 ^ 52 ≤ n < 2 ^ 53 → -1074 ≤ e → shr_fexp 53 1024 n e l = (shr_record_of_loc n l, e).
Proof.
  intros Hn He. unfold shr_fexp. rewrite (Zdigits2_unique n 53) by lia.
  by rewrite fexp_normal by lia.
Qed.

Lemma shr_fexp_54 n e l :
  2 ^ 53 ≤ n < 2 ^ 54 → -1074 ≤ e →
  shr_fexp 53 1024 n e l = (shr_1 (shr_record_of_loc n l), e + 1).
Proof.
  intros Hn He. unfold shr_fexp. rewrite (Zdigits2_unique n 54) by lia.
  by rewrite fexp_normal by lia.
Qed.

(** The mantissa [n] with location [l] was rounded to the integer [r], in units of the same
    exponent. *)
Definition near (n : Z) (l : location) (r : Z) : Prop :=
  n - 1 ≤ r ≤ n + 1 ∧ (l ≠ loc_Exact → n ≤ r) ∧ (l = loc_Exact → Z.even n = true → r = n).

Lemma shr_1_near p l :
  let mrs := shr_1 (shr_record_of_loc (Zpos p) l) in
  near (Zpos p) l (2 * round_nearest_even (shr_m mrs) (loc_of_shr_record mrs)).
Proof.
  destruct p as [p|p|], l as [|[]]; unfold near; simpl;
    repeat case_match; split_and!; intros; try done; try lia.
Qed.

(** A mantissa of 53 or 54 bits rounds to a finite number next to it. *)
Lemma round_near sx n e l :
  2 ^ 52 ≤ n < 2 ^ 54 - 2 → -1074 ≤ e ≤ 900 →
  ∃ m e' r, binary_round_aux 53 1024 sx n e l = S754_finite sx m e' ∧
    e ≤ e' ≤ e + 1 ∧ r = Zpos m * 2 ^ (e' - e) ∧ near n l r.
Proof.
  intros Hn He. unfold binary_round_aux.
  destruct (Z_lt_le_dec n (2 ^ 53)) as [Hs|Hs].
  - rewrite shr_fexp_53 by lia.
    set (r := round_nearest_even _ _).
    assert (near n l r ∧ n ≤ r) as [Hr Hle].
    { unfold r, near. destruct l as [|[]]; simpl; try case_match; split_and!; intros; done || lia. }
    assert (n ≤ r ≤ n + 1) as Hb by (destruct Hr; lia).
    destruct (Z_lt_le_dec r (2 ^ 53)) as [Hr'|Hr'].
    + rewrite shr_fexp_53 by lia. destruct r as [|m|] eqn:E; [lia| |lia].
      simpl shr_m. cbv iota. rewrite (proj2 (Z.leb_le e (1024 - 53))) by lia.
      exists m, e, r. rewrite E, Z.sub_diag. split_and!; try done; lia.
    + assert (r = 2 ^ 53) as E by lia. rewrite shr_fexp_54 by lia. rewrite E.
      simpl shr_m. cbv iota. rewrite (proj2 (Z.leb_le (e + 1) (1024 - 53))) by lia.
      eexists _, (e + 1), r. split; [reflexivity|]. replace (e + 1 - e) with 1 by lia.
      split_and!; [lia|lia|by rewrite E|done..].
  - rewrite shr_fexp_54 by lia. destruct n as [|p|]; [lia| |lia].
    pose proof (shr_1_near p l) as Hr. set (mrs := shr_1 _) in *. cbv zeta in Hr.
    set (r := round_nearest_even _ _) in *.
    assert (2 ^ 52 ≤ r < 2 ^ 53) as Hb by (destruct Hr; lia).
    rewrite shr_fexp_53 by lia. destruct r as [|m|] eqn:E; [lia| |lia].
    simpl shr_m. cbv iota. rewrite (proj2 (Z.leb_le (e + 1) (1024 - 53))) by lia.
    exists m, (e + 1), (2 * Zpos m). split_and!; try done; try lia.
    replace (e + 1 - e) with 1 by lia. lia.
Qed.

(** ** Division by five *)

Definition FIVE : f64 := f64_of 5 0.

Lemma FIVE_eq : FIVE = S754_finite false (5 * 2 ^ 50) (-50).
Proof. reflexivity. Qed.

(** A normal number away from the least exponents, below [2^50]. *)
Definition moderate (m : positive) (e : Z) : Prop := 2 ^ 52 ≤ Zpos m < 2 ^ 53 ∧ -1071 ≤ e ≤ -3.

Lemma div_five_core m e :
  moderate m e →
  ∃ l, SFdiv_core_binary 53 1024 (Zpos m) e (5 * 2 ^ 50) (-50) = (8 * Zpos m / 5, e - 3, l) ∧
    (l = loc_Exact ↔ 8 * Zpos m = 5 * (8 * Zpos m / 5)).
Proof.
  intros [Hm He]. unfold SFdiv_core_binary.
  rewrite (Zdigits2_unique (Zpos m) 53) by lia. rewrite (Zdigits2_unique (5 * 2 ^ 50) 53) by lia.
  replace (fexp 53 1024 (53 + e - (53 + -50))) with (e - 3) by (unfold fexp, emin; lia).
  replace (Z.min (e - 3) (e - -50)) with (e - 3) by lia.
  replace (e - -50 - (e - 3)) with 53 by lia. cbv iota.
  rewrite Z.shiftl_mul_pow2 by lia.
  pose proof (Z_div_mod (Zpos m * 2 ^ 53) (5 * 2 ^ 50) ltac:(lia)) as Hd.
  destruct (Z.div_eucl _ _) as [q r]. destruct Hd as [E Hr].
  assert (q = 8 * Zpos m / 5) as -> by (apply Z.div_unique with (8 * Zpos m - 5 * q); lia).
  eexists. split; [reflexivity|]. unfold new_location.
  replace (Z.even (5 * 2 ^ 50)) with true by reflexivity. unfold new_location_even.
  destruct (Z.eqb_spec r 0) as [->|Hne]; split; intros; try done; lia.
Qed.

Lemma even_multiple k P : (2 | P) → Z.even (k * P) = true.
Proof. intros [j ->]. rewrite Z.mul_assoc, Z.even_mul. apply orb_true_r. Qed.

(** Rounding the quotient does not move it across an integer: with [8m/5] its mantissa in units of
    [1/P], the floor of the rounded quotient is the floor of the exact one. *)
Lemma near_floor s n l r x P :
  (8 | P) → 0 < P → near n l r → n = x / 5 → (8 | x) → (l = loc_Exact ↔ x = 5 * n) →
  signed s r / P = signed s x / (5 * P).
Proof.
  intros HP Hpos (Hb & Hin & Hex) -> Hx Hl.
  assert (2 | P) as H2 by (etrans; [|exact HP]; by exists 4).
  assert (l = loc_Exact ∨ l ≠ loc_Exact) as Hc by (destruct l; [by left|by right]).
  set (k := signed s x / (5 * P)).
  pose proof (Z.mul_div_le (signed s x) (5 * P) ltac:(lia)) as Hlo.
  pose proof (Z.mul_succ_div_gt (signed s x) (5 * P) ltac:(lia)) as Hhi.
  fold k in Hlo, Hhi. clearbody k. symmetry.
  apply Z.div_unique with (signed s r - P * k); [|lia]. left.
  destruct HP as [p HP]. destruct Hx as [y Hy].
  assert (5 * (x / 5) ≤ x < 5 * (x / 5) + 5) as Hdiv
    by (pose proof (Z.div_mod x 5 ltac:(lia)); pose proof (Z.mod_pos_bound x 5 ltac:(lia)); lia).
  assert (∀ j, Z.even (j * P) = true) as Hev by (intros; by apply even_multiple).
  destruct s; unfold signed in *.
  - (* [-(x)]: the quotient is rounded away from zero *)
    assert (x ≤ 5 * (- k * P) ∧ 5 * (- (k + 1) * P) < x) as [H1 H2'] by lia.
    assert (r ≤ - k * P ∧ - (k + 1) * P < r); [|lia]. split.
    + destruct Hc as [Hc|Hc]; [|assert (x ≠ 5 * (x / 5)) by tauto; lia].
      destruct (decide (x / 5 = - k * P)) as [E|E]; [|lia].
      rewrite (Hex Hc); [lia|]. rewrite E. apply Hev.
    + assert (5 * (- (k + 1) * P) + 8 ≤ x) by (subst; lia).
      destruct Hc as [Hc|Hc]; [|specialize (Hin Hc); lia].
      apply Hl in Hc. lia.
  - assert (5 * (k * P) ≤ x ∧ x < 5 * ((k + 1) * P)) as [H1 H2'] by lia.
    assert (k * P ≤ r ∧ r < (k + 1) * P); [|lia]. split.
    + destruct Hc as [Hc|Hc]; [|specialize (Hin Hc); lia].
      destruct (decide (x / 5 = k * P)) as [E|E]; [|lia].
      rewrite (Hex Hc); [lia|]. rewrite E. apply Hev.
    + assert (x + 8 ≤ 5 * ((k + 1) * P)) by (subst; lia). lia.
Qed.

(** Dividing by five and taking the floor is exact. *)
Theorem floor_div_five s m e :
  moderate m e →
  f64_floor (f64_div (S754_finite s m e) FIVE) =
  f64_of_i64 (signed s (Zpos m) / (5 * 2 ^ (- e))).
Proof.
  intros Hm. rewrite FIVE_eq. unfold f64_div, SFdiv.
  change (Zpos (5 * 2 ^ 50)) with (5 * 2 ^ 50).
  destruct (div_five_core m e Hm) as (l & -> & Hl). destruct Hm as [Hm He].
  rewrite xorb_false_r.
  destruct (round_near s (8 * Zpos m / 5) (e - 3) l) as (m' & e' & r & -> & He' & Hr & Hnear);
    [pose proof (Z.div_mod (8 * Zpos m) 5 ltac:(lia));
     pose proof (Z.mod_pos_bound (8 * Zpos m) 5 ltac:(lia)); lia|lia|].
  unfold f64_floor. f_equal. unfold floor_Z. rewrite (proj2 (Z.leb_gt 0 e')) by lia.
  set (P := 2 ^ (3 - e)).
  assert (signed s (Zpos m') / 2 ^ (- e') = signed s r / P) as ->.
  { assert (P = 2 ^ (- e') * 2 ^ (e' - (e - 3))) as ->.
    { unfold P. rewrite <- Z.pow_add_r by lia. f_equal. lia. }
    rewrite Hr. assert (signed s (Zpos m' * 2 ^ (e' - (e - 3))) =
      signed s (Zpos m') * 2 ^ (e' - (e - 3))) as -> by (destruct s; simpl; lia).
    rewrite Z.div_mul_cancel_r; [done|lia|lia]. }
  assert (P = 8 * 2 ^ (- e)) as HP.
  { unfold P. replace (3 - e) with (3 + - e) by lia. rewrite Z.pow_add_r by lia. done. }
  pose proof (Z.pow_pos_nonneg 2 (- e)) as Hpow.
  rewrite (near_floor s (8 * Zpos m / 5) l r (8 * Zpos m) P); [|by exists (2 ^ (- e)); lia|lia|done|done|
    by exists (Zpos m); lia|done].
  rewrite HP. replace (signed s (8 * Zpos m)) with (8 * signed s (Zpos m)) by (destruct s; simpl; lia).
  replace (5 * (8 * 2 ^ (- e))) with (8 * (5 * 2 ^ (- e))) by lia.
  apply Z.div_mul_cancel_l; lia.
Qed.
