(* ===== verification/Map.v ===== *)
(** * The peer map (src/map.rs, src/geoip.rs)

    The aggregation of the registered peers by coarse grid cell behind [/map.json], and the test of
    which addresses are looked up in the location database. The database itself (maxminddb) is a
    parameter. Coordinates are binary64 numbers, computed as the code does. *)

From Stdlib Require Import SpecFloat.
From S2P Require Import Prelude Counting Net Wire F64.

Definition MAP_SCHEMA_VERSION : Z := 1.
Definition MAP_CELL_DEG : f64 := f64_of 5 0.
Definition QUANTIZE_SCALE : f64 := f64_of 1000000 0.
Definition ONE_HALF : f64 := f64_of 1 (-1).

#[export] Instance f64_eq_dec : EqDecision f64.
Proof. unfold f64. solve_decision. Defined.

(** The trait of location resolvers has one method. *)
Definition GeoResolver : Type := IpAddr → option (f64 * f64).

(** ** The location database (geoip.rs) *)

Definition v4_is_broadcast (a : Ipv4Addr) : bool :=
  bool_decide (v4_octets a = [255; 255; 255; 255]).
Definition v4_is_documentation (a : Ipv4Addr) : bool :=
  bool_decide (take 3 (v4_octets a) ∈ [[192; 0; 2]; [198; 51; 100]; [203; 0; 113]]).

Definition is_unique_local (a : Ipv6Addr) : bool :=
  Z.land (default 0 (head (v6_segments a))) 0xfe00 =? 0xfc00.
Definition is_unicast_link_local (a : Ipv6Addr) : bool :=
  Z.land (default 0 (head (v6_segments a))) 0xffc0 =? 0xfe80.

Definition is_public (ip : IpAddr) : bool :=
  match ip with
  | IpV4 a =>
      negb (v4_is_private a || v4_is_loopback a || v4_is_link_local a || v4_is_unspecified a
            || v4_is_broadcast a || v4_is_documentation a)
  | IpV6 a =>
      negb (v6_is_loopback a || v6_is_unspecified a || is_unique_local a
            || is_unicast_link_local a)
  end.

(** An open database: the latitude and longitude of the city record it decodes for an address,
    either of which the record may lack. *)
Definition Reader : Type := IpAddr → option (option f64 * option f64).

Definition lookup_ip (reader : Reader) (ip : IpAddr) : option (f64 * f64) :=
  city ← reader ip; latitude ← city.1; longitude ← city.2; Some (latitude, longitude).

(** [db] is the process-lifetime handle, absent when no database could be opened. *)
Definition locate (db : option Reader) : GeoResolver := λ ip,
  let ip := to_canonical ip in
  if negb (is_public ip) then None else reader ← db; lookup_ip reader ip.

(** ** The snapshot *)

Record MapCell := MkCell { mc_lat : f64; mc_lon : f64; mc_count : Z }.

Record MapSnapshot := MkMap {
  ms_schema_version : Z;
  ms_generated_at : Z;
  ms_cell_deg : f64;
  ms_total_peers : Z;
  ms_located_peers : Z;
  ms_unknown_peers : Z;
  ms_cells : list MapCell }.

Definition snap (coord cell_deg : f64) : f64 :=
  f64_mul (f64_add (f64_floor (f64_div coord cell_deg)) ONE_HALF) cell_deg.

Fixpoint first_located (addresses : list SocketAddr) (resolver : GeoResolver)
    : option (f64 * f64) :=
  match addresses with
  | [] => None
  | a :: rest =>
      match resolver (sa_ip a) with Some c => Some c | None => first_located rest resolver end
  end.

Definition quantize (coord : f64) : Z := f64_to_i64 (f64_round (f64_mul coord QUANTIZE_SCALE)).
Definition dequantize (q : Z) : f64 := f64_div (f64_of_i64 q) QUANTIZE_SCALE.

(** One round of the loop: the counts by quantized centroid, and the unlocated peers. *)
Definition place (resolver : GeoResolver) (cell_deg : f64) (acc : gmap (Z * Z) Z * Z)
    (peer : RelayPeerInfo) : gmap (Z * Z) Z * Z :=
  let '(cells, unknown) := acc in
  match first_located (pi_addresses peer) resolver with
  | None => (cells, unknown + 1)
  | Some (lat, lon) =>
      let key := (quantize (snap lat cell_deg), quantize (snap lon cell_deg)) in
      (bump cells key, unknown)
  end.

(** The order of the [BTreeMap]'s keys: latitude, then longitude. *)
Definition key_leb (a b : Z * Z) : bool := (a.1 <? b.1) || ((a.1 =? b.1) && (a.2 <=? b.2)).

Definition build_map_snapshot (peers : list RelayPeerInfo) (resolver : GeoResolver)
    (cell_deg : f64) (generated_at : Z) : MapSnapshot :=
  let '(cells, unknown) := foldl (place resolver cell_deg) (∅, 0) peers in
  let entries := sort_by (λ a b, key_leb a.1 b.1) (map_to_list cells) in
  {|
    ms_schema_version := MAP_SCHEMA_VERSION;
    ms_generated_at := generated_at;
    ms_cell_deg := cell_deg;
    ms_total_peers := Z.of_nat (length peers);
    ms_located_peers := zsum (snd <$> entries);
    ms_unknown_peers := unknown;
    ms_cells := map (λ e, MkCell (dequantize e.1.1) (dequantize e.1.2) e.2) entries
  |}.

(** ** The grid *)

(** [x] lies in the [k]-th band of five degrees, [5k <= x < 5(k+1)]; a number so small that a fifth
    of it is not a normal one is left out. *)
Inductive in_band : f64 → Z → Prop :=
| band_zero s : in_band (S754_zero s) 0
| band_finite s m e k :
    moderate m e → 5 * k * 2 ^ (- e) ≤ signed s (Zpos m) < 5 * (k + 1) * 2 ^ (- e) →
    in_band (S754_finite s m e) k.

(** The centre of the [k]-th band, exactly. *)
Definition centroid (k : Z) : f64 := f64_of ((2 * k + 1) * 5) (-1).

Definition on_globe (k : Z) : Prop := -36 ≤ k ≤ 36.

Definition band_key (k : Z) : Z := (2 * k + 1) * 2500000.

(** The arithmetic on the 73 bands, evaluated. *)
Definition band_check (k : Z) : bool :=
  bool_decide (f64_mul (f64_add (f64_of_i64 k) ONE_HALF) MAP_CELL_DEG = centroid k)
  && (quantize (centroid k) =? band_key k)
  && bool_decide (dequantize (band_key k) = centroid k).

Lemma bands_checked k :
  on_globe k →
  f64_mul (f64_add (f64_of_i64 k) ONE_HALF) MAP_CELL_DEG = centroid k ∧
  quantize (centroid k) = band_key k ∧ dequantize (band_key k) = centroid k.
Proof.
  intros Hk.
  assert (Forall (λ k, band_check k = true) (seqZ (-36) 73)) as Hall.
  { apply Forall_forall. apply Forall_forall. apply (bool_decide_unpack _). vm_compute. exact I. }
  assert (band_check k = true) as Hb
    by (eapply Forall_forall in Hall; [exact Hall|]; apply elem_of_seqZ; unfold on_globe in *; lia).
  unfold band_check in Hb. rewrite !andb_true_iff in Hb. destruct Hb as [[H1 H2] H3].
  apply bool_decide_eq_true in H1, H3. by apply Z.eqb_eq in H2.
Qed.

Lemma snap_band x k : in_band x k → on_globe k → snap x MAP_CELL_DEG = centroid k.
Proof.
  intros Hx Hk. destruct (bands_checked k Hk) as [<- _]. unfold snap.
  destruct Hx as [s|s m e k Hm Hb].
  - destruct s; reflexivity.
  - change MAP_CELL_DEG with FIVE. rewrite floor_div_five by done.
    do 3 f_equal. symmetry. pose proof (Z.pow_pos_nonneg 2 (- e)). destruct Hm.
    apply Z.div_unique with (signed s (Zpos m) - 5 * k * 2 ^ (- e)); lia.
Qed.

(** ** What the snapshot counts *)

(** The grid cell of a peer: that of its first address the resolver locates. *)
Definition located_in (resolver : GeoResolver) (p : RelayPeerInfo) (cell : option (Z * Z)) : Prop :=
  match cell with
  | None => first_located (pi_addresses p) resolver = None
  | Some (i, j) => ∃ lat lon, first_located (pi_addresses p) resolver = Some (lat, lon) ∧
      in_band lat i ∧ in_band lon j ∧ on_globe i ∧ on_globe j
  end.

Definition cell_key (c : Z * Z) : Z * Z := (band_key c.1, band_key c.2).

Definition unband (q : Z) : Z := (q / 2500000 - 1) / 2.
Definition key_cell (k : Z * Z) : Z * Z := (unband k.1, unband k.2).

Lemma unband_key k : unband (band_key k) = k.
Proof.
  unfold unband, band_key. rewrite Z.div_mul by lia.
  replace (2 * k + 1 - 1) with (k * 2) by lia. apply Z.div_mul. lia.
Qed.

Lemma key_cell_key c : key_cell (cell_key c) = c.
Proof. destruct c. unfold key_cell, cell_key. simpl. by rewrite !unband_key. Qed.

Lemma place_all resolver ps cs m u :
  Forall2 (located_in resolver) ps cs →
  foldl (place resolver MAP_CELL_DEG) (m, u) ps =
  (foldl bump m (cell_key <$> omap id cs), u + occ None cs).
Proof.
  intros Hp. revert m u. induction Hp as [|p [c|] ps cs Hc _ IH]; intros m u; cbn [foldl].
  - by rewrite Z.add_0_r.
  - destruct c as [i j]. destruct Hc as (lat & lon & E & Hi & Hj & Gi & Gj).
    unfold place at 2. rewrite E, (snap_band _ _ Hi Gi), (snap_band _ _ Hj Gj).
    destruct (bands_checked i Gi) as (_ & -> & _), (bands_checked j Gj) as (_ & -> & _).
    rewrite IH, occ_cons. done.
  - simpl in Hc. unfold place at 2. rewrite Hc, IH, occ_cons. simpl. f_equal. lia.
Qed.

Lemma occ_cells c cs : occ (cell_key c) (cell_key <$> omap id cs) = occ (Some c) cs.
Proof.
  induction cs as [|[d|] cs IH]; [done| |]; rewrite occ_cons; cbn [omap list_omap id].
  - rewrite fmap_cons, occ_cons, IH. f_equal. repeat case_bool_decide; try done; [|by simplify_eq].
    assert (d = c) as -> by (by rewrite <- (key_cell_key d), <- (key_cell_key c); f_equal). done.
  - exact IH.
Qed.

Lemma located_globe resolver ps cs c :
  Forall2 (located_in resolver) ps cs → Some c ∈ cs → on_globe c.1 ∧ on_globe c.2.
Proof.
  intros Hp [i Hi]%list_elem_of_lookup.
  destruct (Forall2_lookup_r _ _ _ _ _ Hp Hi) as (p & _ & Hc).
  destruct c. simpl in Hc. by destruct Hc as (? & ? & _ & _ & _ & ? & ?).
Qed.

Definition key_lt (a b : Z * Z) : Prop := a.1 < b.1 ∨ (a.1 = b.1 ∧ a.2 < b.2).

Lemma key_leb_total a b : key_leb a b = true ∨ key_leb b a = true.
Proof. unfold key_leb. destruct a, b. simpl. rewrite !orb_true_iff, !andb_true_iff. lia. Qed.

Lemma key_leb_trans a b c : key_leb a b = true → key_leb b c = true → key_leb a c = true.
Proof. unfold key_leb. destruct a, b, c. simpl. rewrite !orb_true_iff, !andb_true_iff. lia. Qed.

Lemma key_leb_cells a b : key_leb (cell_key a) (cell_key b) = key_leb a b.
Proof.
  unfold key_leb, cell_key, band_key. destruct a, b. simpl. apply eq_true_iff_eq.
  rewrite !orb_true_iff, !andb_true_iff. lia.
Qed.

Lemma key_leb_strict l :
  NoDup l → StronglySorted (λ a b, key_leb a b = true) l → StronglySorted key_lt l.
Proof.
  intros Hnd. induction 1 as [|a l Hl IH Ha]; [constructor|].
  apply NoDup_cons in Hnd as [Hin Hnd]. constructor; [auto|].
  rewrite Forall_forall in *. intros b Hb. specialize (Ha b Hb). simpl in Ha.
  assert (a ≠ b) as Hne by (by intros ->). unfold key_lt, key_leb in *. destruct a, b. simpl in *.
  rewrite orb_true_iff, andb_true_iff in Ha.
  assert (¬ (z = z1 ∧ z0 = z2)) by (by intros [-> ->]). lia.
Qed.

Lemma StronglySorted_unmap {A B} (f : A → B) (R : B → B → Prop) l :
  StronglySorted R (map f l) → StronglySorted (λ a b, R (f a) (f b)) l.
Proof.
  induction l as [|a l IH]; [constructor|]. intros [Hl Ha]%StronglySorted_inv.
  constructor; [auto|]. exact (proj1 (List.Forall_map _ _ _) Ha).
Qed.

(** The entries of the counting map, in key order, are those of the occupied cells. *)
Lemma map_entries cs :
  let entries := sort_by (λ a b, key_leb a.1 b.1)
    (map_to_list (foldl bump ∅ (cell_key <$> omap id cs))) in
  ∃ grid, StronglySorted key_lt grid ∧ (∀ c, c ∈ grid ↔ Some c ∈ cs) ∧
    entries = map (λ c, (cell_key c, occ (Some c) cs)) grid.
Proof.
  intros entries.
  assert (∀ k n, (k, n) ∈ entries ↔
    n = occ k (cell_key <$> omap id cs) ∧ k ∈ cell_key <$> omap id cs) as Hin.
  { intros k n. unfold entries. rewrite elem_of_sort_by, elem_of_map_to_list. apply counts_exact. }
  assert (entries = map (λ c, (cell_key c, occ (Some c) cs)) (map (key_cell ∘ fst) entries)) as E.
  { rewrite map_map. symmetry. rewrite <- (map_id entries) at 2. apply map_ext_in.
    intros [k n] Hk%list_elem_of_In. apply Hin in Hk as [-> Hk].
    apply list_elem_of_fmap in Hk as (c & -> & _). simpl. by rewrite key_cell_key, occ_cells. }
  exists (map (key_cell ∘ fst) entries). split_and!; [| |exact E].
  - assert (map fst entries = map cell_key (map (key_cell ∘ fst) entries)) as Ef
      by (rewrite E at 1; by rewrite !map_map).
    eapply StronglySorted_weaken with (R := λ a b, key_lt (cell_key a) (cell_key b)).
    { intros a b. unfold key_lt, cell_key, band_key. simpl. lia. }
    apply StronglySorted_unmap. rewrite <- Ef. apply key_leb_strict.
    + unfold entries. change (NoDup (sort_by (λ a b : Z * Z * Z, key_leb a.1 b.1)
        (map_to_list (foldl bump ∅ (cell_key <$> omap id cs)))).*1).
      rewrite sort_by_perm. apply NoDup_fst_map_to_list.
    + apply StronglySorted_map. apply sort_by_sorted; intros;
        eauto using key_leb_total, key_leb_trans.
  - intros c. rewrite list_elem_of_fmap. split.
    + intros ([k n] & -> & Hk). apply Hin in Hk as [_ Hk].
      apply list_elem_of_fmap in Hk as (c & -> & Hc). simpl. rewrite key_cell_key.
      apply list_elem_of_omap in Hc as ([d|] & Hd & [= ->]). done.
    + intros Hc. exists (cell_key c, occ (cell_key c) (cell_key <$> omap id cs)).
      split; [simpl; by rewrite key_cell_key|]. apply Hin. split; [done|].
      apply list_elem_of_fmap. exists c. split; [done|]. apply list_elem_of_omap. by exists (Some c).
Qed.


(** Two peers in one cell, found at the first or the second of their addresses, and an unknown
    one. *)
Definition ex_map_resolver : GeoResolver := λ ip,
  match ip with
  | IpV4 a => if v4_a a =? 10 then None
              else if v4_a a =? 81 then Some (f64_of 103 (-1), f64_of (-1) (-3))
              else Some (f64_of 54 0, f64_of (-5) 0)
  | IpV6 _ => None
  end.

Definition ex_map_peers : list RelayPeerInfo :=
  [MkPeerInfo "a" "net" 1 5 6 [SaV4 (MkV4 81 2 69 142) 9444];
   MkPeerInfo "b" "net" 1 5 6 [SaV4 (MkV4 10 0 0 1) 9444; SaV4 (MkV4 9 9 9 9) 80];
   MkPeerInfo "c" "net" 1 5 6 [SaV4 (MkV4 10 0 0 2) 9444]].

Lemma band_small n e k :
  match f64_of n e with
  | S754_finite s m e => moderate m e ∧ 5 * k * 2 ^ (- e) ≤ signed s (Zpos m) < 5 * (k + 1) * 2 ^ (- e)
  | _ => False
  end → in_band (f64_of n e) k.
Proof. destruct (f64_of n e); try done. intros [??]. by constructor. Qed.

