(* ===== verification/Tls.v ===== *)
(** * Client identity from the TLS certificate (src/src/tls.rs)

    How the relay derives the id a client proves, what it demands of a client certificate, and how
    it loads its own TLS identity. Parsing certificates and keys, hashing and the TLS configuration
    are parameters (x509-parser, rustls-pki-types, sha2, rustls). The end of [run] in
    src/src/server.rs, which hands a connection its identity, is here too. *)

From S2P Require Import Prelude Net Text.

(** What the code uses of these libraries. [with_single_cert] builds a server from whether a client
    certificate is mandatory, the verifier of a leaf, the server's chain and its key; [accept] says
    whether a handshake completes with a client that presents a chain and holds its key. [x509_spki]
    is the encoded public key of a certificate that parses. *)
Class TlsLib := {
  PrivateKey : Type;
  ServerConfig : Type;
  pem_certificates : list Z → result (list (list Z)) str;
  pem_private_key : list Z → result PrivateKey str;
  with_single_cert :
    bool → (list Z → result unit str) → list (list Z) → PrivateKey → result ServerConfig str;
  accept : ServerConfig → option (list (list Z)) → bool;
  x509_spki : list Z → option (list Z);
  sha256 : list Z → list Z }.

(** A digest has 32 bytes. A server configured with a mandatory verifier completes a handshake only
    with a client that presents a chain whose leaf the verifier accepts. *)
Class TlsLibLaws `{TlsLib} := {
  sha256_length m : length (sha256 m) = 32%nat;
  sha256_bytes m : Forall is_u8 (sha256 m);
  accept_verified verifier chain key server presented :
    with_single_cert true verifier chain key = Ok server → accept server presented = true →
    ∃ leaf rest, presented = Some (leaf :: rest) ∧ verifier leaf = Ok tt }.

Section tls.
Context `{TlsLib}.

Definition load_pem_identity (cert_pem key_pem : list Z)
    : result (list (list Z) * PrivateKey) str :=
  match pem_certificates cert_pem with
  | Err e => Err (chars "dig-relay: could not parse TLS certificate PEM: " ++ e)
  | Ok [] => Err (chars "dig-relay: TLS certificate PEM contains no certificates")
  | Ok certs =>
      match pem_private_key key_pem with
      | Err e => Err (chars "dig-relay: could not parse TLS private key PEM: " ++ e)
      | Ok key => Ok (certs, key)
      end
  end.

(** [AnyClientCertVerifier]: a client certificate is mandatory, and any that parses will do; the
    handshake's signature checks are rustls's. *)
Definition client_auth_mandatory : bool := true.

Definition verify_client_cert (end_entity : list Z) : result unit str :=
  match x509_spki end_entity with
  | None => Err (chars "client leaf certificate could not be parsed as X.509")
  | Some _ => Ok tt
  end.

Definition build_server_config (cert_chain : list (list Z)) (key : PrivateKey)
    : result ServerConfig str :=
  match with_single_cert client_auth_mandatory verify_client_cert cert_chain key with
  | Ok c => Ok c
  | Err e => Err (chars "dig-relay: invalid TLS server certificate/key: " ++ e)
  end.

(** [char::from_digit(d, 16)] of a nibble. *)
Definition from_digit (d : Z) : Ascii.ascii := ascii_of_digit d.

Fixpoint hex_lower (bytes : list Z) : string :=
  match bytes with
  | [] => EmptyString
  | b :: rest =>
      String (from_digit (Z.shiftr b 4)) (String (from_digit (Z.land b 0x0f)) (hex_lower rest))
  end.

Definition peer_id_from_client_cert_der (cert_der : list Z) : option string :=
  spki_der ← x509_spki cert_der; Some (hex_lower (sha256 spki_der)).

(** [extract_client_peer_id] on the chain the client presented. *)
Definition extract_client_peer_id (peer_certificates : option (list (list Z))) : option string :=
  certs ← peer_certificates; leaf ← head certs; peer_id_from_client_cert_der leaf.

(** The task of an accepted connection: the [verified_peer_id] it calls [handle_connection] with,
    [None] when it ends before. *)
Definition connection_identity (tls : option ServerConfig)
    (peer_certificates : option (list (list Z))) : option (option string) :=
  match tls with
  | Some acceptor =>
      if accept acceptor peer_certificates then Some (extract_client_peer_id peer_certificates)
      else None
  | None => Some None
  end.
End tls.

(** ** Hexadecimal *)

Lemma nibbles b : is_u8 b →
  0 ≤ Z.shiftr b 4 < 16 ∧ 0 ≤ Z.land b 0x0f < 16 ∧ b = 16 * Z.shiftr b 4 + Z.land b 0x0f.
Proof.
  unfold is_u8, u8_max. intros Hb. rewrite Z.shiftr_div_pow2 by lia.
  change 0x0f with (Z.ones 4). rewrite Z.land_ones by lia.
  pose proof (Z.div_mod b (2 ^ 4)). pose proof (Z.mod_pos_bound b (2 ^ 4)).
  change (2 ^ 4) with 16 in *. lia.
Qed.

Lemma digit_char_inj d e :
  0 ≤ d < 16 → 0 ≤ e < 16 → digit_char d = digit_char e → d = e.
Proof. unfold digit_char. destruct (Z.ltb_spec d 10), (Z.ltb_spec e 10); lia. Qed.

Lemma from_digit_inj d e : 0 ≤ d < 16 → 0 ≤ e < 16 → from_digit d = from_digit e → d = e.
Proof.
  intros Hd He E. apply digit_char_inj; [done..|].
  rewrite <- !chars_digit by done. unfold from_digit in E. by rewrite E.
Qed.

Lemma hex_lower_inj l l' :
  Forall is_u8 l → Forall is_u8 l' → hex_lower l = hex_lower l' → l = l'.
Proof.
  intros Hl. revert l'. induction Hl as [|b l Hb _ IH]; intros l' Hl' E.
  - by destruct Hl'.
  - destruct Hl' as [|b' l' Hb' Hl']; [done|]. cbn [hex_lower] in E. injection E as E1 E2 E3.
    destruct (nibbles b Hb) as (H1 & H2 & ->), (nibbles b' Hb') as (H1' & H2' & ->).
    apply from_digit_inj in E1; [|done..]. apply from_digit_inj in E2; [|done..].
    rewrite E1, E2. f_equal. by apply IH.
Qed.

Lemma length_hex_lower l : String.length (hex_lower l) = (2 * length l)%nat.
Proof. induction l as [|b l IH]; [done|]. simpl. rewrite IH. lia. Qed.

Lemma hex_lower_chars l : Forall is_u8 l → Forall is_digit_char (chars (hex_lower l)).
Proof.
  induction 1 as [|b l Hb _ IH]; [constructor|]. cbn [hex_lower]. rewrite !chars_cons.
  destruct (nibbles b Hb) as (H1 & H2 & _). unfold from_digit.
  rewrite !chars_digit by done.
  constructor; [by apply digit_char_is|]. constructor; [by apply digit_char_is|done].
Qed.

(** ** Properties *)

(** What an identity stands for: the digest of one public key, as 64 hexadecimal digits. *)
Lemma peer_id_spec `{TlsLibLaws} cert spki :
  x509_spki cert = Some spki →
  peer_id_from_client_cert_der cert = Some (hex_lower (sha256 spki)) ∧
  String.length (hex_lower (sha256 spki)) = 64%nat ∧
  Forall is_digit_char (chars (hex_lower (sha256 spki))).
Proof.
  intros E. unfold peer_id_from_client_cert_der. rewrite E. split_and!; [done| |].
  - by rewrite length_hex_lower, sha256_length.
  - apply hex_lower_chars, sha256_bytes.
Qed.

(** What the task of a connection knows once the handshake completed. *)
Lemma identified_leaf `{TlsLibLaws} chain key server :
  build_server_config chain key = Ok server →
  ∀ presented verified, connection_identity (Some server) presented = Some verified →
  ∃ leaf rest spki, presented = Some (leaf :: rest) ∧ x509_spki leaf = Some spki ∧
    verified = Some (hex_lower (sha256 spki)).
Proof.
  unfold build_server_config. intros Hb presented verified Hv.
  destruct (with_single_cert _ _ _ _) as [s|] eqn:Es; [|done]. injection Hb as ->.
  simpl in Hv. destruct (accept server presented) eqn:Ea; [|done]. injection Hv as <-.
  destruct (accept_verified _ _ _ _ _ Es Ea) as (leaf & rest & -> & Hl).
  unfold verify_client_cert in Hl. destruct (x509_spki leaf) as [spki|] eqn:Ek; [|done].
  exists leaf, rest, spki. split_and!; [done..|]. by apply peer_id_spec.
Qed.

(** With TLS on, every connection the server handles carries an identity it proved. The
    handshake completes only for a client that presents a parseable leaf certificate; the identity
    is the digest of that leaf's public key in 64 lower-case hexadecimal digits, and another
    connection carries the same identity exactly when its key has the same digest. Without TLS no
    connection carries an identity. *)
Theorem tls_connections_identified `{TlsLibLaws} chain key server :
  build_server_config chain key = Ok server →
  (∀ presented verified, connection_identity (Some server) presented = Some verified →
     ∃ leaf rest spki id, presented = Some (leaf :: rest) ∧ x509_spki leaf = Some spki ∧
       verified = Some id ∧ String.length id = 64%nat ∧ Forall is_digit_char (chars id) ∧
       ∀ presented' leaf' rest', presented' = Some (leaf' :: rest') →
         connection_identity (Some server) presented' = Some (Some id) →
         ∃ spki', x509_spki leaf' = Some spki' ∧ sha256 spki' = sha256 spki) ∧
  (∀ presented, connection_identity None presented = Some None).
Proof.
  intros Hb. split; [|done]. intros presented verified Hv.
  destruct (identified_leaf chain key server Hb presented verified Hv)
    as (leaf & rest & spki & -> & Hk & ->).
  destruct (peer_id_spec leaf spki Hk) as (_ & Hlen & Hch).
  exists leaf, rest, spki, (hex_lower (sha256 spki)). split_and!; [done..|].
  intros presented' leaf' rest' -> Hc.
  destruct (identified_leaf chain key server Hb _ _ Hc) as (l & r & spki' & [= <- <-] & Hk' & [= E]).
  exists spki'. split; [done|]. symmetry. apply hex_lower_inj; [apply sha256_bytes..|done].
Qed.

(** ** An instance *)

(** Certificates that are their own key, and a digest that keeps the first 32 bytes. *)
Definition tls_example : TlsLib := {|
  PrivateKey := list Z;
  ServerConfig := bool * (list Z → result unit str);
  pem_certificates := λ p, Ok [p];
  pem_private_key := Ok;
  with_single_cert := λ mandatory verifier _ _, Ok (mandatory, verifier);
  accept := λ server presented,
    match presented with Some (leaf :: _) => is_ok (server.2 leaf) | _ => negb server.1 end;
  x509_spki := λ c, match c with 48 :: key => Some key | _ => None end;
  sha256 := λ m, take 32 (map (λ b, b mod 256) m ++ replicate 32 0)
|}.

Definition tls_example_laws : @TlsLibLaws tls_example.
Proof.
  split; cbn [sha256 with_single_cert accept tls_example].
  - intros m. rewrite length_take, length_app, length_replicate. lia.
  - intros m. apply Forall_take, Forall_app. split.
    + apply Forall_fmap, Forall_forall. intros b _. simpl. unfold is_u8, u8_max.
      pose proof (Z.mod_pos_bound b 256). lia.
    + apply Forall_replicate. unfold is_u8, u8_max. lia.
  - intros verifier chain key server presented [= <-]. simpl.
    destruct presented as [[|leaf rest]|]; simpl; [done| |done].
    destruct (verifier leaf) as [[]|] eqn:E; [|done]. by exists leaf, rest.
Defined.

#[local] Existing Instances tls_example tls_example_laws.

Lemma tls_connections_identified_witness :
  ∃ server id, @build_server_config tls_example [[1]] [2] = Ok server ∧
    connection_identity (Some server) (Some [[48; 0xAB; 0xCD]]) = Some (Some id) ∧
    String.length id = 64%nat ∧ String.substring 0 4 id = "abcd"%string ∧
    connection_identity (Some server) (Some [[0xAB; 0xCD]]) = None ∧
    connection_identity (Some server) None = None.
Proof.
  eexists _, _. split; [reflexivity|]. split; [reflexivity|].
  destruct (@tls_connections_identified tls_example tls_example_laws [[1]] [2] _ eq_refl) as [Hid _].
  destruct (Hid (Some [[48; 0xAB; 0xCD]]) _ eq_refl) as (leaf & rest & spki & id & _ & _ & E & Hlen & _).
  injection E as <-. split; [exact Hlen|]. vm_compute. auto.
Defined.
