(* ===== verification/Server.v ===== *)
(** * The relay server (src/server.rs)

    The pure dispatchers, the shared state, and the connection task's handlers as functions on the
    world: the shared state together with the channels, activity clocks and connection tasks that
    refer to it. A frame is handled as one step: the handler's lock-protected sections run back to
    back, and all its clock readings are one reading ([now_ms] of the wall clock, [mono] of the
    liveness clock). Logging is omitted. Text framing is a parameter ([Serde]). *)

From S2P Require Import Prelude Net Wire ProxyProtocol Config Limits Dial Channel Registry Pex.
From S2P Require Import DhtView.

(** ** Error codes *)

Definition NOT_REGISTERED : Z := 1.
Definition BAD_MESSAGE : Z := 2.
Definition PEER_NOT_FOUND : Z := 3.
Definition CAPACITY : Z := 4.
Definition ID_IN_USE : Z := 5.
Definition IDENTITY_MISMATCH : Z := 6.
Definition RATE_LIMITED : Z := 7.

(** ** The pure dispatcher *)

Record Session := MkSession {
  s_peer_id : option string; s_network_id : option string; s_pex_active : bool }.

Definition session_default : Session := MkSession None None false.

Inductive Action : Type :=
| ReplyToSelf (msgs : list RelayMessage)
| ActRegister (peer_id network_id : string) (protocol_version : Z)
    (listen_addrs : list SocketAddr)
| ForwardTo (to : string) (msg : RelayMessage)
| ActBroadcast (from : string) (exclude : list string) (msg : RelayMessage)
| Close
| Nothing
| ActError (code : Z) (message : string).

Definition unwrap_or_default (o : option string) : string := default EmptyString o.

Definition dispatch (session : Session) (msg : RelayMessage) : Action :=
  let registered := is_some (s_peer_id session) in
  match msg with
  | Register peer_id network_id protocol_version listen_addrs =>
      ActRegister peer_id network_id protocol_version listen_addrs
  | _ =>
      if negb registered then
        ActError NOT_REGISTERED "register before sending other messages (RLY-001)"
      else
        let from := unwrap_or_default (s_peer_id session) in
        match msg with
        | Register _ _ _ _ => Nothing
        | Unregister _ => Close
        | RelayGossipMessage _ to payload seq =>
            ForwardTo to (RelayGossipMessage from to payload seq)
        | Broadcast _ payload exclude => ActBroadcast from exclude (Broadcast from payload [])
        | GetPeers _ => ReplyToSelf [Peers []]
        | DhtRecords _ _ _ => Nothing
        | GetDhtRecords _ =>
            ActError BAD_MESSAGE "get_dht_records is relay-to-node only (RLY-009)"
        | Ping timestamp => ReplyToSelf [Pong timestamp]
        | Pong _ => Nothing
        | HolePunchRequest _ target_peer_id external_addr =>
            ForwardTo target_peer_id (HolePunchCoordinate from external_addr)
        | HolePunchResult peer_id success => ForwardTo peer_id (HolePunchResult peer_id success)
        | RegisterAck _ _ _ | Peers _ | PeerConnected _ | PeerDisconnected _
        | HolePunchCoordinate _ _ | Error _ _ => Nothing
        end
  end.

(** ** Framing *)

Class Serde `{DigPex} := {
  (** [serde_json::from_slice::<RelayMessage>] *)
  relay_from_slice : list Z → option RelayMessage;
  (** the string under [type] of a frame that is a JSON object *)
  json_type : list Z → option string;
  (** UTF-8 decoding followed by [PexMessage::from_json] *)
  pex_from_json : list Z → option PexMessage }.

Definition is_pex_frame `{Serde} (frame : list Z) : bool :=
  match json_type frame with Some t => String.prefix "pex_" t | None => false end.

Section pex_dispatch.
Context `{DigPex}.

Inductive PexAction : Type :=
| NotRegistered
| Handshake (msg : PexMessage)
| Data (msg : PexMessage)
| BadFrame
| IgnorePreHandshake.

Definition pex_dispatch (session : Session) (decoded : option PexMessage) : PexAction :=
  if negb (is_some (s_peer_id session)) then NotRegistered
  else
    match decoded with
    | Some msg =>
        if is_handshake msg && negb (s_pex_active session) then Handshake msg
        else if s_pex_active session then Data msg
        else IgnorePreHandshake
    | None => if s_pex_active session then BadFrame else IgnorePreHandshake
    end.
End pex_dispatch.

(** ** Shared state *)

Section state.
Context `{DigPex}.

Record RelayState := MkRelayState {
  registry : Registry;
  pex : PexRelay;
  connected : Z;
  open_connections : Z;
  stun_requests : Z;
  hole_punch_requests : Z;
  hole_punch_successes : Z;
  hole_punch_failures : Z;
  bytes_relayed : Z;
  abuse : AbuseState;
  dht_view : DhtView;
  dht_answers : list PeerAnswer }.

Definition state_new : RelayState := {|
  registry := registry_new; pex := pex_new; connected := 0; open_connections := 0;
  stun_requests := 0; hole_punch_requests := 0; hole_punch_successes := 0;
  hole_punch_failures := 0; bytes_relayed := 0; abuse := abuse_state_default;
  dht_view := build_dht_view [] 0; dht_answers := [] |}.

Definition set_registry (s : RelayState) r : RelayState :=
  MkRelayState r (pex s) (connected s) (open_connections s) (stun_requests s)
    (hole_punch_requests s) (hole_punch_successes s) (hole_punch_failures s) (bytes_relayed s)
    (abuse s) (dht_view s) (dht_answers s).
Definition set_pex (s : RelayState) p : RelayState :=
  MkRelayState (registry s) p (connected s) (open_connections s) (stun_requests s)
    (hole_punch_requests s) (hole_punch_successes s) (hole_punch_failures s) (bytes_relayed s)
    (abuse s) (dht_view s) (dht_answers s).
Definition set_connected (s : RelayState) n : RelayState :=
  MkRelayState (registry s) (pex s) n (open_connections s) (stun_requests s)
    (hole_punch_requests s) (hole_punch_successes s) (hole_punch_failures s) (bytes_relayed s)
    (abuse s) (dht_view s) (dht_answers s).
Definition set_open_connections (s : RelayState) n : RelayState :=
  MkRelayState (registry s) (pex s) (connected s) n (stun_requests s)
    (hole_punch_requests s) (hole_punch_successes s) (hole_punch_failures s) (bytes_relayed s)
    (abuse s) (dht_view s) (dht_answers s).
Definition set_hole_punch (s : RelayState) req ok fail : RelayState :=
  MkRelayState (registry s) (pex s) (connected s) (open_connections s) (stun_requests s)
    req ok fail (bytes_relayed s) (abuse s) (dht_view s) (dht_answers s).
Definition set_bytes_relayed (s : RelayState) n : RelayState :=
  MkRelayState (registry s) (pex s) (connected s) (open_connections s) (stun_requests s)
    (hole_punch_requests s) (hole_punch_successes s) (hole_punch_failures s) n
    (abuse s) (dht_view s) (dht_answers s).
Definition set_abuse (s : RelayState) a : RelayState :=
  MkRelayState (registry s) (pex s) (connected s) (open_connections s) (stun_requests s)
    (hole_punch_requests s) (hole_punch_successes s) (hole_punch_failures s) (bytes_relayed s)
    a (dht_view s) (dht_answers s).
Definition set_dht (s : RelayState) view answers : RelayState :=
  MkRelayState (registry s) (pex s) (connected s) (open_connections s) (stun_requests s)
    (hole_punch_requests s) (hole_punch_successes s) (hole_punch_failures s) (bytes_relayed s)
    (abuse s) view answers.

(** The dashboard counters an inbound message moves. *)
Definition record_relayed (s : RelayState) (msg : RelayMessage) : RelayState :=
  match msg with
  | RelayGossipMessage _ _ payload _ | Broadcast _ payload _ =>
      set_bytes_relayed s (wrap64 (bytes_relayed s + Z.of_nat (length payload)))
  | HolePunchRequest _ _ _ =>
      set_hole_punch s (wrap64 (hole_punch_requests s + 1)) (hole_punch_successes s)
        (hole_punch_failures s)
  | HolePunchResult _ success =>
      if success then
        set_hole_punch s (hole_punch_requests s) (wrap64 (hole_punch_successes s + 1))
          (hole_punch_failures s)
      else
        set_hole_punch s (hole_punch_requests s) (hole_punch_successes s)
          (wrap64 (hole_punch_failures s + 1))
  | _ => s
  end.

(** [OpenConnectionGuard::acquire] and its [Drop]. *)
Definition open_guard_acquire (s : RelayState) : RelayState :=
  set_open_connections s (wrap64 (open_connections s + 1)).
Definition open_guard_drop (s : RelayState) : RelayState :=
  set_open_connections s (wrap64 (open_connections s - 1)).
End state.

(** ** Connections and the world *)

(** [Handshaking]: past the accept checks, before the WebSocket upgrade; [Serving]: in the read
    loop; [Closing]: past [deregister], waiting for the writer task. *)
Inductive Phase : Type := Handshaking | Serving | Closing.

Global Instance Phase_eq_dec : EqDecision Phase.
Proof. solve_decision. Defined.

(** The local variables of a connection task. *)
Record Conn := MkConn {
  c_phase : Phase;
  c_addr : SocketAddr;
  c_verified : option string;
  c_ip_slot : ConnSlot;
  c_session : Session;
  c_limiter : PerConnLimiter;
  c_reg_slot : option RegSlot }.

Definition set_phase (c : Conn) ph : Conn :=
  MkConn ph (c_addr c) (c_verified c) (c_ip_slot c) (c_session c) (c_limiter c) (c_reg_slot c).
Definition set_session (c : Conn) s : Conn :=
  MkConn (c_phase c) (c_addr c) (c_verified c) (c_ip_slot c) s (c_limiter c) (c_reg_slot c).
Definition set_limiter (c : Conn) l : Conn :=
  MkConn (c_phase c) (c_addr c) (c_verified c) (c_ip_slot c) (c_session c) l (c_reg_slot c).
Definition set_reg_slot (c : Conn) r : Conn :=
  MkConn (c_phase c) (c_addr c) (c_verified c) (c_ip_slot c) (c_session c) (c_limiter c) r.

Section world.
Context `{DigPex, Mpsc}.

(** A connection's id names its two outbound channels and its activity clock too. *)
Record World := MkWorld {
  st : RelayState;
  outs : Chans RelayMessage;
  pexs : Chans PexMessage;
  activity : gmap nat Z;
  conns : gmap nat Conn }.

Definition world_new : World := MkWorld state_new ∅ ∅ ∅ ∅.

Definition upd_st (f : RelayState → RelayState) (w : World) : World :=
  MkWorld (f (st w)) (outs w) (pexs w) (activity w) (conns w).
Definition set_outs (w : World) cs : World :=
  MkWorld (st w) cs (pexs w) (activity w) (conns w).
Definition set_pexs (w : World) cs : World :=
  MkWorld (st w) (outs w) cs (activity w) (conns w).
Definition set_activity (w : World) a : World :=
  MkWorld (st w) (outs w) (pexs w) a (conns w).
Definition set_conn (w : World) (c : nat) (conn : Conn) : World :=
  MkWorld (st w) (outs w) (pexs w) (activity w) (<[c := conn]> (conns w)).

(** [out_tx.try_send(m)] and [pex_tx.try_send(m)], ignoring the outcome. *)
Definition out_send (w : World) (tx : nat) (m : RelayMessage) : World :=
  set_outs w (try_send (outs w) tx m).
Definition pex_send_all (w : World) (tx : nat) (ms : list PexMessage) : World :=
  set_pexs w (send_all (pexs w) tx ms).

(** How the registry sees the channels and clocks. *)
Definition tx_closed (w : World) : nat → bool := is_closed (outs w).
Definition activity_load (w : World) (cell : nat) : Z := default 0 (activity w !! cell).
End world.

(** ** The true source of a connection *)

(** [resolve_source]: [stream] is what the socket will deliver; [timed_out] is whether the header
    read hit its timeout. [None] abandons the connection (a panicking CIDR test would too; for
    parsed CIDRs there is none). *)
Definition resolve_source (config : RelayServerConfig) (stream : list Z) (timed_out : bool)
    (peer_addr : SocketAddr) : option (PrefixedStream * SocketAddr) :=
  match trusts (trusted_proxies config) (sa_ip peer_addr) with
  | None => None
  | Some false => Some (prefixed_new [] stream, peer_addr)
  | Some true =>
      if timed_out then None
      else
        match read_source_addr stream with
        | Ok (declared, stream) => Some (stream, default peer_addr declared)
        | Err _ => None
        end
  end.

(** ** Handlers *)

Section handlers.
Context `{HashOrder, DigIp, DigPex, Mpsc} {SD : Serde} (config : RelayServerConfig).

Definition policy : AbusePolicy := policy_new config.

(** [state.abuse.*] and the drop of a slot, on the shared state; a drop that would underflow leaves
    the state alone (the reachability invariant shows there is none). *)
Definition abuse_strike (ip : IpAddr) (now_ms : Z) (w : World) : World :=
  upd_st (λ s, set_abuse s (record_strike policy (abuse s) ip now_ms)) w.
Definition release_reg_slot (slot : RegSlot) (w : World) : World :=
  upd_st (λ s, set_abuse s (default (abuse s) (drop_reg_slot (abuse s) slot))) w.
Definition release_conn_slot (slot : ConnSlot) (w : World) : World :=
  upd_st (λ s, set_abuse s (default (abuse s) (drop_conn_slot (abuse s) slot))) w.

(** A failing [register_ack] followed by the [error] with the same text. *)
Definition refuse (w : World) (c : nat) (code : Z) (message : string) (connected_peers : Z)
    : World :=
  out_send (out_send w c (RegisterAck false message connected_peers)) c (Error code message).

Definition MSG_RATE : string := "registration rate limit exceeded for your address".
Definition MSG_CONCURRENT : string := "too many concurrent registrations from your address".
Definition MSG_MISMATCH : string := "peer_id does not match the mTLS client certificate presented".
Definition MSG_CAPACITY : string := "relay at capacity".
Definition MSG_IN_USE : string := "peer_id already registered by a live connection".

(** The part of [register_peer] under the registry lock, once the slot is held: the outcome and, on
    success, the fan-out targets. *)
Inductive RegisterResult : Type :=
| Refused (code : Z) (message : string) (connected_peers : Z)
| Accepted (outcome : RegisterOutcome) (info : RelayPeerInfo) (connected_peers : Z)
    (targets : list (string * nat)).

Definition register_locked (w : World) (c : nat) (peer_id network_id : string)
    (protocol_version : Z) (listen_addrs : list SocketAddr) (peer_addr : SocketAddr)
    (verified_peer_id : option string) (clock : Z) : RegisterResult * Registry :=
  let reg := registry (st w) in
  let mismatch :=
    match verified_peer_id with
    | Some verified => negb (bool_decide (verified = peer_id))
    | None => false
    end in
  if mismatch then (Refused IDENTITY_MISMATCH MSG_MISMATCH (registry_len reg), reg)
  else if max_connections config <=? registry_len reg then
    (Refused CAPACITY MSG_CAPACITY (registry_len reg), reg)
  else
    let info :=
      with_addresses (peer_info_new clock peer_id network_id protocol_version)
        (resolve_dialable listen_addrs (sa_ip peer_addr)) in
    match register (tx_closed w) reg peer_id network_id info c c with
    | (Occupied, reg) => (Refused ID_IN_USE MSG_IN_USE (registry_len reg), reg)
    | (outcome, reg) =>
        (Accepted outcome info (registry_len reg) (broadcast_targets reg peer_id network_id []),
         reg)
    end.

(** [register_peer] for connection [c]; the result is whether the connection goes on. [clock] is
    the wall clock in seconds. *)
Definition register_peer (w : World) (c : nat) (conn : Conn) (peer_id network_id : string)
    (protocol_version : Z) (listen_addrs : list SocketAddr) (now_ms : Z) : bool * World :=
  let peer_addr := c_addr conn in
  let connected_now := connected (st w) in
  let '(ok, a) := allow_registration policy (abuse (st w)) (sa_ip peer_addr) now_ms in
  let w := upd_st (λ s, set_abuse s a) w in
  if negb ok then
    let w := abuse_strike (sa_ip peer_addr) now_ms w in
    (false, refuse w c RATE_LIMITED MSG_RATE connected_now)
  else
    let '(slot, a) := try_acquire_registration policy (abuse (st w)) (sa_ip peer_addr) in
    let w := upd_st (λ s, set_abuse s a) w in
    match slot with
    | None =>
        let w := abuse_strike (sa_ip peer_addr) now_ms w in
        (false, refuse w c RATE_LIMITED MSG_CONCURRENT connected_now)
    | Some acquired_reg_slot =>
        let '(res, reg) :=
          register_locked w c peer_id network_id protocol_version listen_addrs peer_addr
            (c_verified conn) (now_ms / 1000) in
        match res with
        | Refused code message connected_peers =>
            (false,
             release_reg_slot acquired_reg_slot (refuse w c code message connected_peers))
        | Accepted outcome info connected_peers targets =>
            let w := upd_st (λ s, set_registry s reg) w in
            let w :=
              match outcome with
              | Registered => upd_st (λ s, set_connected s (wrap64 (connected s + 1))) w
              | _ => w
              end in
            let w := out_send w c (RegisterAck true "registered" connected_peers) in
            let w := set_outs w (fan_out (outs w) targets (PeerConnected info)) in
            let w :=
              upd_st (λ s, set_pex s (on_register (pex s) peer_id network_id peer_addr c now_ms)) w in
            let w :=
              match c_reg_slot conn with
              | Some old => release_reg_slot old w
              | None => w
              end in
            let conn := set_reg_slot conn (Some acquired_reg_slot) in
            let session :=
              MkSession (Some peer_id) (Some network_id) (s_pex_active (c_session conn)) in
            (true, set_conn w c (set_session conn session))
        end
    end.

Definition forward_to (w : World) (session : Session) (c : nat) (to : string) (msg : RelayMessage)
    : World :=
  match s_network_id session with
  | None => w
  | Some network_id =>
      match sender_in_network (registry (st w)) to network_id with
      | Some tx => out_send w tx msg
      | None =>
          out_send w c (Error PEER_NOT_FOUND
            (String.append "peer " (String.append to " not connected to this relay")))
      end
  end.

Definition broadcast (w : World) (session : Session) (from : string) (exclude : list string)
    (msg : RelayMessage) : World :=
  match s_network_id session with
  | None => w
  | Some network_id =>
      let targets := broadcast_targets (registry (st w)) from network_id exclude in
      set_outs w (fan_out (outs w) targets msg)
  end.

(** Removes a peer and returns who is to be told. *)
Definition remove_locked (s : RelayState) (peer_id network_id : string)
    : option (list (string * nat)) * RelayState :=
  let '(removed, reg) := unregister (registry s) peer_id in
  match removed with
  | Some _ =>
      let s := set_registry s reg in
      let s := set_connected s (wrap64 (connected s - 1)) in
      (Some (broadcast_targets reg peer_id network_id []), s)
  | None => (None, s)
  end.

(** The notifications and the PEX mirror of one departure. *)
Definition announce_departure (w : World) (peer_id network_id : string)
    (targets : list (string * nat)) : World :=
  let w := set_outs w (fan_out (outs w) targets (PeerDisconnected peer_id)) in
  upd_st (λ s, set_pex s (on_unregister (pex s) peer_id network_id)) w.

Definition deregister (w : World) (session : Session) : World :=
  match s_peer_id session, s_network_id session with
  | Some peer_id, Some network_id =>
      match remove_locked (st w) peer_id network_id with
      | (Some targets, s) => announce_departure (upd_st (λ _, s) w) peer_id network_id targets
      | (None, _) => w
      end
  | _, _ => w
  end.

(** The removals of [sweep_once], in the order of the victims. *)
Fixpoint remove_victims (s : RelayState) (victims : list (string * string))
    : list (string * string * list (string * nat)) * RelayState :=
  match victims with
  | [] => ([], s)
  | (peer_id, network_id) :: victims' =>
      let '(targets, s) := remove_locked s peer_id network_id in
      let '(pruned, s) := remove_victims s victims' in
      (match targets with
       | Some ts => (peer_id, network_id, ts) :: pruned
       | None => pruned
       end, s)
  end.

Definition as_secs (d : Duration) : Z := d / 1000000000.

Definition sweep_once (w : World) (now : Z) : World :=
  let victims :=
    dead_or_stale (tx_closed w) (activity_load w) (registry (st w)) now
      (as_secs (liveness_deadline config)) in
  let '(pruned, s) := remove_victims (st w) victims in
  foldl (λ w p, announce_departure w p.1.1 p.1.2 p.2) (upd_st (λ _, s) w) pruned.

Definition DHT_MAX_KEYS_PER_PEER : Z := 500.

(** The two halves of a round of [dht_sweep], before and after the answer window. *)
Definition dht_ask (w : World) : World :=
  set_outs w
    (fan_out (outs w) (all_senders (registry (st w))) (GetDhtRecords DHT_MAX_KEYS_PER_PEER)).
Definition dht_collect (w : World) (now : Z) : World :=
  upd_st (λ s, set_dht s (build_dht_view (dht_answers s) now) []) w.

Definition handle_pex_frame (w : World) (c : nat) (conn : Conn) (frame : list Z) (now_ms : Z)
    : World :=
  let session := c_session conn in
  let peer_id := unwrap_or_default (s_peer_id session) in
  let network_id := unwrap_or_default (s_network_id session) in
  match pex_dispatch session (pex_from_json frame) with
  | NotRegistered =>
      out_send w c (Error NOT_REGISTERED "register before sending PEX (RLY-001)")
  | Handshake msg =>
      let p := on_register (pex (st w)) peer_id network_id (c_addr conn) c now_ms in
      let '(replies, p) := on_node_handshake p peer_id network_id msg now_ms in
      let w := upd_st (λ s, set_pex s p) w in
      let session := MkSession (s_peer_id session) (s_network_id session) true in
      pex_send_all (set_conn w c (set_session conn session)) c replies
  | Data msg =>
      let '(replies, p) := on_node_message (pex (st w)) peer_id network_id msg now_ms in
      pex_send_all (upd_st (λ s, set_pex s p) w) c replies
  | BadFrame =>
      let '(replies, p) := on_node_bad_frame (pex (st w)) peer_id network_id now_ms in
      pex_send_all (upd_st (λ s, set_pex s p) w) c replies
  | IgnorePreHandshake => w
  end.

(** What the read loop does with a parsed message; [false] is [break]. *)
Definition handle_message (w : World) (c : nat) (conn : Conn) (msg : RelayMessage) (now_ms : Z)
    : bool * World :=
  let session := c_session conn in
  let w := upd_st (λ s, record_relayed s msg) w in
  let w :=
    match msg with
    | DhtRecords records _ truncated =>
        if is_some (s_peer_id session) then
          upd_st (λ s, set_dht s (dht_view s)
                         (dht_answers s ++ [MkPeerAnswer records truncated])) w
        else w
    | _ => w
    end in
  match msg with
  | GetPeers network_id =>
      let filter := match network_id with Some n => Some n | None => s_network_id session end in
      (true, out_send w c (Peers (peers (registry (st w)) filter)))
  | _ =>
      match dispatch session msg with
      | ActRegister peer_id network_id protocol_version listen_addrs =>
          register_peer w c conn peer_id network_id protocol_version listen_addrs now_ms
      | ForwardTo to msg => (true, forward_to w session c to msg)
      | ActBroadcast from exclude msg => (true, broadcast w session from exclude msg)
      | ReplyToSelf msgs => (true, set_outs w (send_all (outs w) c msgs))
      | ActError code message => (true, out_send w c (Error code message))
      | Close => (false, w)
      | Nothing => (true, w)
      end
  end.

(** One text or binary frame. *)
Definition handle_frame (w : World) (c : nat) (conn : Conn) (frame : list Z) (now_ms mono : Z)
    : bool * World :=
  let w := set_activity w (<[c := mono]> (activity w)) in
  let '(verdict, limiter) := admit_frame (c_limiter conn) (Z.of_nat (length frame)) now_ms in
  let conn := set_limiter conn limiter in
  let w := set_conn w c conn in
  match verdict with
  | Disconnect => (false, abuse_strike (sa_ip (c_addr conn)) now_ms w)
  | AdmitOk =>
      if is_pex_frame frame then (true, handle_pex_frame w c conn frame now_ms)
      else
        match relay_from_slice frame with
        | None => (true, out_send w c (Error BAD_MESSAGE "invalid relay JSON"))
        | Some msg => handle_message w c conn msg now_ms
        end
  end.

(** The accept-time checks of [handle_connection], up to the slots. *)
Definition accept_connection (w : World) (c : nat) (peer_addr : SocketAddr)
    (verified_peer_id : option string) (now_ms : Z) : World :=
  let '(banned, a) := is_banned policy (abuse (st w)) (sa_ip peer_addr) now_ms in
  let w := upd_st (λ s, set_abuse s a) w in
  if banned then w
  else if max_connections config <=? open_connections (st w) then w
  else
    let w := upd_st open_guard_acquire w in
    let '(slot, a) := try_acquire_conn policy (abuse (st w)) (sa_ip peer_addr) in
    let w := upd_st (λ s, set_abuse s a) w in
    match slot with
    | None => upd_st open_guard_drop (abuse_strike (sa_ip peer_addr) now_ms w)
    | Some ip_slot =>
        set_conn w c (MkConn Handshaking peer_addr verified_peer_id ip_slot session_default
                        (limiter_new config now_ms) None)
    end.

(** The WebSocket upgrade: channels, clock and limiter of the connection. *)
Definition upgrade_connection (w : World) (c : nat) (conn : Conn) (now_ms mono : Z) : World :=
  let w := set_outs w (<[c := chan_new (outbound_queue_capacity config)]> (outs w)) in
  let w := set_pexs w (<[c := chan_new (outbound_queue_capacity config)]> (pexs w)) in
  let w := set_activity w (<[c := mono]> (activity w)) in
  set_conn w c (set_limiter (set_phase conn Serving) (limiter_new config now_ms)).

(** After the read loop: [deregister]; the task then waits for its writer. *)
Definition end_of_loop (w : World) (c : nat) (conn : Conn) : World :=
  set_conn (deregister w (c_session conn)) c (set_phase conn Closing).

(** The end of a connection task: its slots and the open-connection guard are dropped. *)
Definition finish_connection (w : World) (c : nat) (conn : Conn) : World :=
  let w := match c_reg_slot conn with Some slot => release_reg_slot slot w | None => w end in
  let w := release_conn_slot (c_ip_slot conn) w in
  let w := upd_st open_guard_drop w in
  MkWorld (st w) (outs w) (pexs w) (activity w) (delete c (conns w)).

(** ** Events *)

Inductive Event : Type :=
| Accept (c : nat) (addr : SocketAddr) (verified : option string) (now_ms : Z)
| HandshakeEnded (c : nat)
| Upgraded (c : nat) (now_ms mono : Z)
| Frame (c : nat) (frame : list Z) (now_ms mono : Z)
| ReadEnded (c : nat)
| WriterSends (c : nat)
| WriterSendsPex (c : nat)
| WriterExits (c : nat)
| Finished (c : nat)
| Sweep (mono : Z)
| PexTick (now_ms : Z)
| DhtAsk
| DhtCollect (now_secs : Z).

(** The connection [c] if it is in phase [ph]. *)
Definition conn_in (w : World) (c : nat) (ph : Phase) : option Conn :=
  match conns w !! c with
  | Some conn => if bool_decide (c_phase conn = ph) then Some conn else None
  | None => None
  end.

(** What an event does; [None] when it cannot happen. A connection id is never used twice. *)
Definition event_step (w : World) (ev : Event) : option World :=
  match ev with
  | Accept c addr verified now_ms =>
      if is_some (conns w !! c) || is_some (outs w !! c) then None
      else Some (accept_connection w c addr verified now_ms)
  | HandshakeEnded c => conn ← conn_in w c Handshaking; Some (finish_connection w c conn)
  | Upgraded c now_ms mono =>
      conn ← conn_in w c Handshaking; Some (upgrade_connection w c conn now_ms mono)
  | Frame c frame now_ms mono =>
      conn ← conn_in w c Serving;
      match handle_frame w c conn frame now_ms mono with
      | (true, w) => Some w
      | (false, w) => conn ← conns w !! c; Some (end_of_loop w c conn)
      end
  | ReadEnded c => conn ← conn_in w c Serving; Some (end_of_loop w c conn)
  | WriterSends c =>
      ch ← outs w !! c; r ← chan_recv ch; Some (set_outs w (<[c := r.2]> (outs w)))
  | WriterSendsPex c =>
      ch ← pexs w !! c; r ← chan_recv ch; Some (set_pexs w (<[c := r.2]> (pexs w)))
  | WriterExits c =>
      out ← outs w !! c;
      px ← pexs w !! c;
      Some (set_pexs (set_outs w (<[c := chan_close out]> (outs w)))
              (<[c := chan_close px]> (pexs w)))
  | Finished c =>
      conn ← conn_in w c Closing;
      if is_closed (outs w) c then Some (finish_connection w c conn) else None
  | Sweep mono => Some (sweep_once w mono)
  | PexTick now_ms =>
      let '(cs, p) := tick (pex (st w)) (pexs w) now_ms in
      Some (upd_st (λ s, set_pex s p) (set_pexs w cs))
  | DhtAsk => Some (dht_ask w)
  | DhtCollect now_secs => Some (dht_collect w now_secs)
  end.

Fixpoint run (w : World) (evs : list Event) : option World :=
  match evs with
  | [] => Some w
  | ev :: evs' => w' ← event_step w ev; run w' evs'
  end.

(** The worlds the relay can be in. *)
Inductive reachable : World → Prop :=
| reachable_init : reachable world_new
| reachable_step w ev w' : reachable w → event_step w ev = Some w' → reachable w'.

Lemma reachable_run w evs w' : reachable w → run w evs = Some w' → reachable w'.
Proof.
  revert w. induction evs as [|ev evs IH]; simpl; intros w Hr Hrun; [congruence|].
  destruct (event_step w ev) as [w1|] eqn:E; simpl in Hrun; [|done].
  eapply IH; [|exact Hrun]. by eapply reachable_step.
Qed.
End handlers.
