(* ===== verification/ServerInv.v ===== *)
(** * Invariants of the relay server

    What holds in every reachable world of Server.v: the registry is well formed and within the
    connection cap, the published counter is its size, every record's channel exists, identities
    proved by certificate are respected, every registered peer is mirrored to PEX on its own network,
    queues are within their capacity, and the per-IP and open-connection counts are those of the
    live connections. *)

From S2P Require Import Prelude Net Wire ProxyProtocol Config Limits Dial Channel Registry Pex.
From S2P Require Import DhtView Server.

(** ** Slots of the live connections *)

Definition ip_slots (m : gmap nat Conn) : list Slot := c_ip_slot <$> (map_to_list m).*2.
Definition reg_slots (m : gmap nat Conn) : list Slot := omap c_reg_slot (map_to_list m).*2.

Definition slot_list (o : option Slot) : list Slot := match o with Some s => [s] | None => [] end.

Lemma ip_slots_insert m c conn :
  m !! c = None → ip_slots (<[c := conn]> m) ≡ₚ c_ip_slot conn :: ip_slots m.
Proof. intros Hc. unfold ip_slots. by rewrite (map_to_list_insert m c conn Hc). Qed.

Lemma reg_slots_insert m c conn :
  m !! c = None → reg_slots (<[c := conn]> m) ≡ₚ slot_list (c_reg_slot conn) ++ reg_slots m.
Proof.
  intros Hc. unfold reg_slots. rewrite (map_to_list_insert m c conn Hc). simpl.
  by destruct (c_reg_slot conn).
Qed.

Lemma ip_slots_delete m c conn :
  m !! c = Some conn → ip_slots m ≡ₚ c_ip_slot conn :: ip_slots (delete c m).
Proof.
  intros Hc. rewrite <- (insert_delete_id m c conn Hc) at 1.
  apply ip_slots_insert, lookup_delete_eq.
Qed.

Lemma reg_slots_delete m c conn :
  m !! c = Some conn → reg_slots m ≡ₚ slot_list (c_reg_slot conn) ++ reg_slots (delete c m).
Proof.
  intros Hc. rewrite <- (insert_delete_id m c conn Hc) at 1.
  apply reg_slots_insert, lookup_delete_eq.
Qed.

Lemma ip_slots_update m c conn conn' :
  m !! c = Some conn → c_ip_slot conn' = c_ip_slot conn → ip_slots (<[c := conn']> m) ≡ₚ ip_slots m.
Proof.
  intros Hc E. rewrite (ip_slots_delete m c conn Hc).
  rewrite <- insert_delete_eq, ip_slots_insert by apply lookup_delete_eq. by rewrite E.
Qed.

Lemma reg_slots_update m c conn conn' :
  m !! c = Some conn →
  reg_slots (<[c := conn']> m) ≡ₚ slot_list (c_reg_slot conn') ++ reg_slots (delete c m).
Proof.
  intros Hc. rewrite <- insert_delete_eq. apply reg_slots_insert, lookup_delete_eq.
Qed.

Lemma reg_slots_same m c conn conn' :
  m !! c = Some conn → c_reg_slot conn' = c_reg_slot conn →
  reg_slots (<[c := conn']> m) ≡ₚ reg_slots m.
Proof.
  intros Hc E. rewrite (reg_slots_update m c conn conn' Hc), (reg_slots_delete m c conn Hc).
  by rewrite E.
Qed.

(** ** The abuse operations and the count maps *)

(** The counts of a pool are those of its live slots, and within its cap. *)
Definition pool_ok (cap : Z) (m : gmap IpKey Z) (live : list Slot) : Prop :=
  counts_match m live ∧ (cap ≠ 0 → ∀ k, live_count k live ≤ cap).

Lemma pool_ok_perm cap m live live' : live ≡ₚ live' → pool_ok cap m live → pool_ok cap m live'.
Proof.
  intros E [Hm Hc]. split; [by eapply counts_match_perm|].
  intros Hcap k. rewrite <- (live_count_perm k live live') by done. auto.
Qed.

Lemma pool_ok_empty cap : 0 ≤ cap → pool_ok cap ∅ [].
Proof. intros Hcap. split; [|done]. intros k. by rewrite lookup_empty. Qed.

Lemma live_count_le_cons k slot live : live_count k live ≤ live_count k (slot :: live).
Proof. rewrite live_count_cons. case_bool_decide; lia. Qed.

(** The slot handed out for an address. *)
Definition slot_for (cap : Z) (ip : IpAddr) : Slot := MkSlot (negb (cap =? 0)) (ip_key ip).

Lemma acquire_pool_ok cap m live k :
  0 < cap → pool_ok cap m live →
  let '(slot, m') := acquire cap m k in
  pool_ok cap m' (slot_list slot ++ live) ∧ ∀ sl, slot = Some sl → sl = MkSlot true k.
Proof.
  intros Hcap [Hm Hle]. destruct (acquire_spec cap m live k)
    as [(Hlt & m' & -> & Hm')|[_ ->]]; [done|done| |done].
  split; [|by intros sl [= <-]]. split; [done|].
  intros Hne k'. simpl. rewrite live_count_cons. specialize (Hle Hne k').
  case_bool_decide as Hk; [|lia]. destruct Hk as [_ Hk]. simpl in Hk. subst k'. lia.
Qed.

Lemma pool_ok_untracked m live k : pool_ok 0 m live → pool_ok 0 m (MkSlot false k :: live).
Proof.
  intros [Hm _]. split; [|done]. intros k'.
  rewrite live_count_cons, bool_decide_eq_false_2 by (by intros [? _]). apply Hm.
Qed.

Lemma try_acquire_conn_counts p s ip live :
  let cap := ap_max_connections_per_ip p in
  0 ≤ cap → pool_ok cap (conns_per_ip s) live →
  let '(slot, s') := try_acquire_conn p s ip in
  pool_ok cap (conns_per_ip s') (slot_list slot ++ live) ∧ regs_per_ip s' = regs_per_ip s ∧
  ∀ sl, slot = Some sl → sl = slot_for cap ip.
Proof.
  intros cap Hcap Hm. unfold try_acquire_conn, slot_for. fold cap.
  destruct (cap =? 0) eqn:E; propify.
  - rewrite E in *. split; [by apply pool_ok_untracked|]. split; [done|]. by intros sl [= <-].
  - pose proof (acquire_pool_ok cap (conns_per_ip s) live (ip_key ip)) as Ha.
    destruct (acquire _ _ _) as [slot m]. destruct Ha as [Hm' Hsl]; [lia|done|done].
Qed.

Lemma try_acquire_registration_counts p s ip live :
  let cap := ap_max_registrations_per_ip p in
  0 ≤ cap → pool_ok cap (regs_per_ip s) live →
  let '(slot, s') := try_acquire_registration p s ip in
  pool_ok cap (regs_per_ip s') (slot_list slot ++ live) ∧ conns_per_ip s' = conns_per_ip s ∧
  ∀ sl, slot = Some sl → sl = slot_for cap ip.
Proof.
  intros cap Hcap Hm. unfold try_acquire_registration, slot_for. fold cap.
  destruct (cap =? 0) eqn:E; propify.
  - rewrite E in *. split; [by apply pool_ok_untracked|]. split; [done|]. by intros sl [= <-].
  - pose proof (acquire_pool_ok cap (regs_per_ip s) live (ip_key ip)) as Ha.
    destruct (acquire _ _ _) as [slot m]. destruct Ha as [Hm' Hsl]; [lia|done|done].
Qed.

Lemma drop_reg_slot_counts cap s slot live :
  pool_ok cap (regs_per_ip s) (slot :: live) →
  ∃ s', drop_reg_slot s slot = Some s' ∧ pool_ok cap (regs_per_ip s') live ∧
    conns_per_ip s' = conns_per_ip s.
Proof.
  intros [Hm Hc]. destruct (release_spec _ _ _ Hm) as (m & Hr & Hm').
  unfold drop_reg_slot. rewrite Hr. simpl. eexists. split; [done|]. split; [|done].
  split; [done|]. intros Hne k. pose proof (live_count_le_cons k slot live). specialize (Hc Hne k). lia.
Qed.

Lemma drop_conn_slot_counts cap s slot live :
  pool_ok cap (conns_per_ip s) (slot :: live) →
  ∃ s', drop_conn_slot s slot = Some s' ∧ pool_ok cap (conns_per_ip s') live ∧
    regs_per_ip s' = regs_per_ip s.
Proof.
  intros [Hm Hc]. destruct (release_spec _ _ _ Hm) as (m & Hr & Hm').
  unfold drop_conn_slot. rewrite Hr. simpl. eexists. split; [done|]. split; [|done].
  split; [done|]. intros Hne k. pose proof (live_count_le_cons k slot live). specialize (Hc Hne k). lia.
Qed.

(** The other operations leave the counts alone. *)
Definition same_counts (s s' : AbuseState) : Prop :=
  conns_per_ip s' = conns_per_ip s ∧ regs_per_ip s' = regs_per_ip s.

Lemma same_counts_record_strike `{HashOrder} p s ip now : same_counts s (record_strike p s ip now).
Proof. unfold record_strike, same_counts. by repeat case_test. Qed.

Lemma same_counts_is_banned `{HashOrder} p s ip now : same_counts s (is_banned p s ip now).2.
Proof.
  unfold is_banned, same_counts. case_test; [done|]. destruct (bans s !! _); [|done].
  by case_test.
Qed.

Lemma same_counts_allow_registration `{HashOrder} p s ip now :
  same_counts s (allow_registration p s ip now).2.
Proof.
  unfold allow_registration, same_counts. case_test; [done|].
  by destruct (spend_keyed _ _ _ _).
Qed.

(** ** Sending *)

(** The channels after some sends: the same channels, open or closed as before, within capacity. *)
Record sends `{MpscLaws} {A} (cs cs' : Chans A) : Prop := {
  sends_dom : dom cs' = dom cs;
  sends_closed : ∀ tx, is_closed cs' tx = is_closed cs tx;
  sends_ok : ∀ cap, chans_ok cap cs → chans_ok cap cs' }.

Section sends.
Context `{MpscLaws}.

Lemma sends_refl {A} (cs : Chans A) : sends cs cs.
Proof. by split. Qed.
Lemma sends_trans {A} (cs1 cs2 cs3 : Chans A) : sends cs1 cs2 → sends cs2 cs3 → sends cs1 cs3.
Proof.
  intros [D1 C1 O1] [D2 C2 O2]. split; [congruence| |auto]. intros tx. by rewrite C2, C1.
Qed.
Lemma sends_try_send {A} (cs : Chans A) tx m : sends cs (try_send cs tx m).
Proof. split; intros; autorewrite with relay_rw; auto with relay. Qed.
Lemma sends_fan_out {A} (cs : Chans A) ts m : sends cs (fan_out cs ts m).
Proof. split; intros; autorewrite with relay_rw; auto with relay. Qed.
Lemma sends_send_all {A} (cs : Chans A) tx ms : sends cs (send_all cs tx ms).
Proof. split; intros; autorewrite with relay_rw; auto with relay. Qed.

End sends.

#[export] Hint Resolve sends_refl sends_try_send sends_fan_out sends_send_all : relay.

Lemma sends_lookup `{MpscLaws} {A} (cs cs' : Chans A) tx : sends cs cs' → is_Some (cs' !! tx) ↔ is_Some (cs !! tx).
Proof. intros [D _ _]. by rewrite <- !elem_of_dom, D. Qed.

(** ** The registry, its counter and its PEX mirror *)

Section reg_inv.
Context `{DigPex} (config : RelayServerConfig).

(** [D] is the set of channels that exist. *)
Record RegInv (r : Registry) (n : Z) (p : PexRelay) (D : gset nat) : Prop := {
  ri_wf : wf_registry r;
  ri_connected : n = registry_len r;
  ri_cap : registry_len r ≤ max_connections config;
  ri_tx : ∀ id q, r !! id = Some q → peer_last_activity q = peer_tx q ∧ peer_tx q ∈ D;
  ri_replays : replays p;
  ri_mirrored : ∀ id q, r !! id = Some q → id ∈ mirrored p (peer_network_id q);
  ri_pex_conn : ∀ id q, r !! id = Some q → is_Some (pex_conns p !! id) }.

Lemma RegInv_on_unregister r n p D id net :
  RegInv r n p D → r !! id = None → RegInv r n (on_unregister p id net) D.
Proof.
  intros [Hwf Hn Hc Ht Hr Ha Hp] Hid. split; try done; [by apply replays_on_unregister| |].
  - intros id' q Hq. rewrite mirrored_on_unregister.
    assert (id' ≠ id) by congruence. specialize (Ha _ _ Hq). case_bool_decide; set_solver.
  - intros id' q Hq. rewrite pex_conns_on_unregister, lookup_delete_ne by congruence. eauto.
Qed.

Context (Hmax : is_u64 (max_connections config)).

Lemma registry_len_nonneg r : 0 ≤ registry_len r.
Proof. unfold registry_len. lia. Qed.

Lemma registry_len_delete r id q :
  r !! id = Some q → registry_len (delete id r) = registry_len r - 1.
Proof.
  intros Hq. unfold registry_len. rewrite map_size_delete, Hq. simpl.
  assert (size r ≠ 0%nat); [|lia]. intros E%map_size_empty_inv. subst. by rewrite lookup_empty in Hq.
Qed.

Lemma RegInv_delete r n p D id q :
  RegInv r n p D → r !! id = Some q → RegInv (delete id r) (wrap64 (n - 1)) p D.
Proof.
  intros [Hwf Hn Hc Ht Hr Ha Hp] Hq. pose proof (registry_len_delete r id q Hq) as Hlen.
  pose proof (registry_len_nonneg (delete id r)). unfold is_u64 in Hmax.
  split.
  - by apply wf_registry_delete.
  - rewrite Hlen, Hn. apply wrap64_small. unfold is_u64. lia.
  - lia.
  - intros id' q' [_ Hq']%lookup_delete_Some. eauto.
  - done.
  - intros id' q' [_ Hq']%lookup_delete_Some. eauto.
  - intros id' q' [_ Hq']%lookup_delete_Some. eauto.
Qed.

(** Any change of PEX state that mirrors at least as much. *)
Lemma RegInv_pex r n p p' D :
  RegInv r n p D → replays p' → (∀ net, mirrored p net ⊆ mirrored p' net) →
  (∀ id, is_Some (pex_conns p !! id) → is_Some (pex_conns p' !! id)) → RegInv r n p' D.
Proof.
  intros [Hwf Hn Hc Ht _ Ha Hp] Hr Hadv Hconn. split; try done.
  - intros id q Hq. apply Hadv. eauto.
  - eauto.
Qed.

Lemma RegInv_on_register r n p D id net addr tx now :
  RegInv r n p D → RegInv r n (on_register p id net addr tx now) D.
Proof.
  intros HR. eapply RegInv_pex; [done|apply replays_on_register, HR|..].
  - intros net'. rewrite mirrored_on_register. case_bool_decide; set_solver.
  - intros id' Hs. simpl. destruct (decide (id = id')) as [->|].
    + rewrite lookup_insert_eq. eauto.
    + by rewrite lookup_insert_ne.
Qed.

Lemma RegInv_dom r n p D D' : RegInv r n p D → D ⊆ D' → RegInv r n p D'.
Proof.
  intros [Hwf Hn Hc Ht Hr Ha Hp] HD. split; try done.
  intros id q Hq. destruct (Ht id q Hq). split; [done|]. by apply HD.
Qed.

Lemma RegInv_register closed r n p D id net info c addr now o r' :
  RegInv r n p D → registry_len r < max_connections config → c ∈ D →
  pi_peer_id info = id → pi_network_id info = net →
  register closed r id net info c c = (o, r') → o ≠ Occupied →
  RegInv r' (match o with Registered => wrap64 (n + 1) | _ => n end)
    (on_register p id net addr c now) D.
Proof.
  intros [Hwf Hn Hc Ht Hr Ha Hp] Hlt Hcd Hid Hnet Hreg Ho.
  pose proof (registry_len_nonneg r). unfold is_u64 in Hmax.
  assert (r' = <[id := MkPeer net info c c]> r ∧
    (r !! id = None ∧ o = Registered ∨ is_Some (r !! id) ∧ o = Reconnected)) as [-> Hcase].
  { unfold register in Hreg. destruct (r !! id) as [e|] eqn:E; [|naive_solver].
    destruct (negb (closed (peer_tx e))); simplify_eq. eauto. }
  assert (registry_len (<[id := MkPeer net info c c]> r) =
    match o with Registered => n + 1 | _ => n end) as Hlen.
  { unfold registry_len in *. rewrite map_size_insert.
    destruct Hcase as [[-> ->]|[[e ->] ->]]; simpl; lia. }
  split.
  - by apply wf_registry_insert.
  - rewrite Hlen. destruct o; try done. rewrite wrap64_small; [done|]. unfold is_u64. lia.
  - rewrite Hlen. destruct o; try done; lia.
  - intros id' q [[<- <-]|[_ Hq]]%lookup_insert_Some; [done|eauto].
  - by apply replays_on_register.
  - intros id' q Hq. rewrite mirrored_on_register.
    apply lookup_insert_Some in Hq as [[<- <-]|[_ Hq]]; simpl.
    + rewrite bool_decide_eq_true_2 by done. set_solver.
    + specialize (Ha _ _ Hq). case_bool_decide; set_solver.
  - intros id' q Hq. simpl. apply lookup_insert_Some in Hq as [[<- <-]|[Hne Hq]].
    + rewrite lookup_insert_eq. eauto.
    + rewrite lookup_insert_ne by done. eauto.
Qed.
End reg_inv.

(** ** The invariant *)

Section inv.
Context `{HO : HashOrder, DI : DigIp} `{DP : DigPex} `{ML : MpscLaws} {SD : Serde} (config : RelayServerConfig).

(** The configuration fits the machine: what [validate] and the field types guarantee. *)
Definition good_config : Prop :=
  unsigned_config config ∧ 1 ≤ max_connections config ≤ u64_max ∧
  1 ≤ outbound_queue_capacity config.

(** A connection's session is complete or empty, agrees with the proved identity, and is untouched
    before the upgrade. *)
Record conn_ok (conn : Conn) : Prop := {
  co_complete : is_some (s_peer_id (c_session conn)) = is_some (s_network_id (c_session conn));
  co_proved : ∀ id v, s_peer_id (c_session conn) = Some id → c_verified conn = Some v → id = v;
  co_early : c_phase conn = Handshaking → c_session conn = session_default;
  co_ip_slot : c_ip_slot conn = slot_for (max_connections_per_ip config) (sa_ip (c_addr conn));
  co_reg_slot : c_reg_slot conn =
    if is_some (s_peer_id (c_session conn))
    then Some (slot_for (max_registrations_per_ip config) (sa_ip (c_addr conn))) else None }.

(** A record's id is the identity its connection proved. *)
Definition proved (r : Registry) (m : gmap nat Conn) : Prop :=
  ∀ id q conn v, r !! id = Some q → m !! peer_tx q = Some conn → c_verified conn = Some v → id = v.

(** [X] are registration slots held by a handler and not yet stored in a connection. *)
Record SlotInv (X : list Slot) (a : AbuseState) (n : Z) (m : gmap nat Conn) : Prop := {
  sl_open : n = Z.of_nat (size m);
  sl_cap : n ≤ max_connections config;
  sl_ip : pool_ok (max_connections_per_ip config) (conns_per_ip a) (ip_slots m);
  sl_reg : pool_ok (max_registrations_per_ip config) (regs_per_ip a) (X ++ reg_slots m) }.

Record ChanInv (o : Chans RelayMessage) (px : Chans PexMessage) (m : gmap nat Conn) : Prop := {
  ch_outs : chans_ok (outbound_queue_capacity config) o;
  ch_pexs : chans_ok (outbound_queue_capacity config) px;
  ch_dom : dom px = dom o;
  ch_conn : ∀ c conn, m !! c = Some conn → c ∈ dom o ↔ c_phase conn ≠ Handshaking }.

Record Inv (X : list Slot) (w : World) : Prop := {
  inv_reg : RegInv config (registry (st w)) (connected (st w)) (pex (st w)) (dom (outs w));
  inv_conns : map_Forall (λ _, conn_ok) (conns w);
  inv_proved : proved (registry (st w)) (conns w);
  inv_slots : SlotInv X (abuse (st w)) (open_connections (st w)) (conns w);
  inv_chans : ChanInv (outs w) (pexs w) (conns w) }.

Hypothesis Hgood : good_config.

Lemma good_max : is_u64 (max_connections config).
Proof. destruct Hgood as (_ & ? & _). unfold is_u64. lia. Qed.

Lemma Inv_init : Inv [] world_new.
Proof.
  destruct Hgood as (Hu & Hm & _). unfold unsigned_config, is_u32 in Hu. split; simpl.
  - split; [apply wf_registry_empty|done| |by intros ? ?..].
    change (registry_len registry_new) with 0. lia.
  - apply map_Forall_empty.
  - intros ? ? ? ? ?. done.
  - split; [done|lia|apply pool_ok_empty; lia..].
  - split; [apply map_Forall_empty..|done|]. by intros ? ? ?.
Qed.

(** *** Steps that only send, or only touch counters *)

Lemma ChanInv_sends o o' px px' m : ChanInv o px m → sends o o' → sends px px' → ChanInv o' px' m.
Proof.
  intros [H1 H2 H3 H4] [D1 _ O1] [D2 _ O2]. split; auto.
  - by rewrite D1, D2.
  - intros c conn Hc. rewrite D1. by apply H4.
Qed.

Lemma SlotInv_same X a a' n m : SlotInv X a n m → same_counts a a' → SlotInv X a' n m.
Proof. intros [H1 H2 H3 H4] [E1 E2]. split; try done; [by rewrite E1|by rewrite E2]. Qed.

(** Replacing a connection's local state, with its slots, phase and identity kept. *)
Definition keeps (conn conn' : Conn) : Prop :=
  c_phase conn' = c_phase conn ∧ c_verified conn' = c_verified conn ∧
  c_ip_slot conn' = c_ip_slot conn ∧ c_addr conn' = c_addr conn.

Lemma SlotInv_update X a n m c conn conn' :
  SlotInv X a n m → m !! c = Some conn → c_ip_slot conn' = c_ip_slot conn →
  c_reg_slot conn' = c_reg_slot conn → SlotInv X a n (<[c := conn']> m).
Proof.
  intros [H1 H2 H3 H4] Hc Ei Er. split; try done.
  - by rewrite map_size_insert, Hc.
  - eapply pool_ok_perm; [symmetry; by eapply ip_slots_update|done].
  - eapply pool_ok_perm; [|done]. f_equiv. symmetry. by eapply reg_slots_same.
Qed.

Lemma proved_update r m c conn conn' :
  proved r m → m !! c = Some conn → c_verified conn' = c_verified conn →
  proved r (<[c := conn']> m).
Proof.
  intros Hp Hc Hv id q cn v Hq Hl Hcv.
  apply lookup_insert_Some in Hl as [[Hc' <-]|[_ Hl]]; [|by eapply Hp].
  subst c. rewrite Hv in Hcv. by eapply Hp.
Qed.

Lemma ChanInv_update o px m c conn conn' :
  ChanInv o px m → m !! c = Some conn →
  (c_phase conn' = Handshaking ↔ c_phase conn = Handshaking) → ChanInv o px (<[c := conn']> m).
Proof.
  intros [H1 H2 H3 H4] Hc Hph. split; try done.
  intros c' cn [[<- <-]|[_ Hl]]%lookup_insert_Some; [|by apply H4].
  rewrite (H4 c conn Hc). tauto.
Qed.

Lemma Inv_set_conn X w c conn conn' :
  Inv X w → conns w !! c = Some conn → conn_ok conn' → keeps conn conn' →
  c_reg_slot conn' = c_reg_slot conn → Inv X (set_conn w c conn').
Proof.
  intros [HR HC HP HS HX] Hc Hok (Eph & Ev & Ei & Ead) Er. split; simpl; try done.
  - by apply map_Forall_insert_2.
  - by eapply proved_update.
  - by eapply SlotInv_update.
  - eapply ChanInv_update; [done..|]. by rewrite Eph.
Qed.

Lemma Inv_sends X w o : Inv X w → sends (outs w) o → Inv X (set_outs w o).
Proof.
  intros [HR HC HP HS HX] Hs. split; simpl; try done.
  - by rewrite (sends_dom _ _ Hs).
  - eapply ChanInv_sends; [done..|apply sends_refl].
Qed.

Lemma Inv_pex_sends X w px : Inv X w → sends (pexs w) px → Inv X (set_pexs w px).
Proof.
  intros [HR HC HP HS HX] Hs. split; simpl; try done.
  eapply ChanInv_sends; [done|apply sends_refl|done].
Qed.

Lemma Inv_out_send X w tx m : Inv X w → Inv X (out_send w tx m).
Proof. intros. by apply Inv_sends, sends_try_send. Qed.

Lemma Inv_set_activity X w a : Inv X w → Inv X (set_activity w a).
Proof. by intros [HR HC HP HS HX]. Qed.

Lemma Inv_same_counts X w a :
  Inv X w → same_counts (abuse (st w)) a → Inv X (upd_st (λ s, set_abuse s a) w).
Proof. intros [HR HC HP HS HX] Hs. split; simpl; try done. by eapply SlotInv_same. Qed.

Lemma Inv_strike X w ip now : Inv X w → Inv X (abuse_strike config ip now w).
Proof. intros. by apply Inv_same_counts, same_counts_record_strike. Qed.

(** A state change outside the registry, its counter, PEX and the slots. *)
Lemma Inv_upd_st X w f :
  Inv X w → registry (f (st w)) = registry (st w) → connected (f (st w)) = connected (st w) →
  pex (f (st w)) = pex (st w) → abuse (f (st w)) = abuse (st w) →
  open_connections (f (st w)) = open_connections (st w) → Inv X (upd_st f w).
Proof.
  intros [HR HC HP HS HX] Er Ec Ep Ea Eo. split; simpl; rewrite ?Er, ?Ec, ?Ep, ?Ea, ?Eo; done.
Qed.

Lemma Inv_record_relayed X w msg : Inv X w → Inv X (upd_st (λ s, record_relayed s msg) w).
Proof. intros. apply Inv_upd_st; try done; destruct msg; try done; by destruct success. Qed.

Lemma Inv_pex X w p :
  Inv X w → replays p → (∀ net, mirrored (pex (st w)) net ⊆ mirrored p net) →
  (∀ id, is_Some (pex_conns (pex (st w)) !! id) → is_Some (pex_conns p !! id)) →
  Inv X (upd_st (λ s, set_pex s p) w).
Proof. intros [HR HC HP HS HX] Hr Ha Hc. split; simpl; try done. by eapply RegInv_pex. Qed.

(** *** Registration slots *)

Lemma Inv_acquire_reg w ip :
  Inv [] w →
  let '(slot, a) := try_acquire_registration (policy config) (abuse (st w)) ip in
  Inv (slot_list slot) (upd_st (λ s, set_abuse s a) w) ∧
  ∀ sl, slot = Some sl → sl = slot_for (max_registrations_per_ip config) ip.
Proof.
  intros [HR HC HP [H1 H2 H3 H4] HX].
  pose proof (try_acquire_registration_counts (policy config) (abuse (st w)) ip
    (reg_slots (conns w))) as Ha.
  destruct (try_acquire_registration _ _ _) as [slot a].
  destruct Ha as (Hm & Hc & Hsl).
  - destruct Hgood as [Hu _]. unfold unsigned_config, is_u32 in Hu. simpl. lia.
  - exact H4.
  - split; [|exact Hsl]. split; simpl; try done. split; simpl; try done. by rewrite Hc.
Qed.

Lemma Inv_release_reg X slot w : Inv (slot :: X) w → Inv X (release_reg_slot slot w).
Proof.
  intros [HR HC HP [H1 H2 H3 H4] HX]. simpl in H4.
  destruct (drop_reg_slot_counts _ _ _ _ H4) as (a & Hd & Hm & Hc).
  unfold release_reg_slot. split; simpl; try done. rewrite Hd. simpl.
  split; try done. by rewrite Hc.
Qed.

Lemma Inv_refuse X w c code m n : Inv X w → Inv X (refuse w c code m n).
Proof. intros. unfold refuse. by do 2 apply Inv_out_send. Qed.

(** *** Routing *)

Lemma Inv_forward_to X w session c to msg : Inv X w → Inv X (forward_to w session c to msg).
Proof.
  intros. unfold forward_to. destruct (s_network_id session); [|done].
  destruct (sender_in_network _ _ _); by apply Inv_out_send.
Qed.

Lemma Inv_broadcast X w session from ex msg : Inv X w → Inv X (broadcast w session from ex msg).
Proof.
  intros. unfold broadcast. destruct (s_network_id session); [|done].
  by apply Inv_sends, sends_fan_out.
Qed.

(** *** Departures *)

Lemma Inv_remove_locked X w id net :
  Inv X w →
  Inv X (upd_st (λ _, (remove_locked (st w) id net).2) w) ∧
  ((remove_locked (st w) id net).1 = None → (remove_locked (st w) id net).2 = st w) ∧
  registry (remove_locked (st w) id net).2 = delete id (registry (st w)).
Proof.
  intros [HR HC HP HS HX]. unfold remove_locked, unregister.
  destruct (registry (st w) !! id) as [q|] eqn:Hq; simpl.
  - split; [|done]. split; simpl; try done.
    + by eapply RegInv_delete; [apply good_max|..].
    + intros id' q' conn v Hl. apply lookup_delete_Some in Hl as [_ Hl]. by apply HP.
  - split; [by split|]. split; [done|]. by rewrite delete_id.
Qed.

Lemma Inv_announce X w id net ts :
  Inv X w → registry (st w) !! id = None → Inv X (announce_departure w id net ts).
Proof.
  intros HI Hid. unfold announce_departure.
  pose proof (Inv_sends X w _ HI (sends_fan_out (outs w) ts (PeerDisconnected id)))
    as [HR HC HP HS HX].
  split; simpl in *; try done. by apply RegInv_on_unregister.
Qed.

Lemma announce_registry w id net ts :
  registry (st (announce_departure w id net ts)) = registry (st w).
Proof. done. Qed.

Lemma Inv_deregister X w session : Inv X w → Inv X (deregister w session).
Proof.
  intros HI. unfold deregister. destruct (s_peer_id session) as [id|]; [|done].
  destruct (s_network_id session) as [net|]; [|done].
  pose proof (Inv_remove_locked X w id net HI) as (HI' & _ & Hreg).
  destruct (remove_locked (st w) id net) as [[ts|] s]; [|done].
  apply Inv_announce; [done|]. simpl in *. rewrite Hreg. apply lookup_delete_eq.
Qed.

Lemma Inv_remove_victims X w victims :
  Inv X w →
  let '(pruned, s) := remove_victims (st w) victims in
  Inv X (upd_st (λ _, s) w) ∧
  Forall (λ p, registry s !! p.1.1 = None) pruned ∧ registry s ⊆ registry (st w).
Proof.
  revert w. induction victims as [|[id net] victims IH]; intros w HI; simpl.
  { split; [by destruct w|]. split; [constructor|done]. }
  pose proof (Inv_remove_locked X w id net HI) as (HI' & _ & Hreg).
  destruct (remove_locked (st w) id net) as [targets s1]. simpl in *.
  specialize (IH _ HI'). simpl in IH. destruct (remove_victims s1 victims) as [pruned s2].
  destruct IH as (HI2 & Hall & Hsub). split; [done|].
  rewrite Hreg in Hsub. split.
  - destruct targets; [|done]. constructor; [|done]. simpl.
    destruct (registry s2 !! id) eqn:E; [|done].
    eapply lookup_weaken in E; [|exact Hsub]. by rewrite lookup_delete_eq in E.
  - etransitivity; [exact Hsub|]. apply delete_subseteq.
Qed.

Lemma Inv_sweep_once w now : Inv [] w → Inv [] (sweep_once config w now).
Proof.
  intros HI. unfold sweep_once.
  match goal with |- context [remove_victims (st w) ?v] =>
    pose proof (Inv_remove_victims [] w v HI) as Hv; destruct (remove_victims (st w) v) as [pruned s] end.
  destruct Hv as (HI' & Hall & _).
  assert (registry (st (upd_st (λ _, s) w)) = registry s) as Hreg by done.
  revert HI' Hreg. generalize (upd_st (λ _, s) w) as w1.
  induction Hall as [|[[id net] ts] pruned Hid Hall IH]; intros w1 HI1 Hreg; simpl; [done|].
  apply IH; [|by rewrite announce_registry].
  apply Inv_announce; [done|]. rewrite Hreg. exact Hid.
Qed.

(** *** Registration *)

(** The handler's slot replaces the one the connection held, which is dropped. *)
Lemma Inv_store_reg w c conn conn' slot :
  Inv [slot] w → conns w !! c = Some conn → conn_ok conn' → keeps conn conn' →
  c_reg_slot conn' = Some slot →
  Inv [] (set_conn (match c_reg_slot conn with Some old => release_reg_slot old w | None => w end)
            c conn').
Proof.
  intros [HR HC HP [H1 H2 H3 H4] HX] Hc Hok (Eph & Ev & Ei & Ead) Er.
  assert (∃ a, abuse (st (match c_reg_slot conn with
      | Some old => release_reg_slot old w | None => w end)) = a ∧
    pool_ok (max_registrations_per_ip config) (regs_per_ip a) (reg_slots (<[c := conn']> (conns w))) ∧
    conns_per_ip a = conns_per_ip (abuse (st w))) as (a & Ea & Hm & Hcc).
  { pose proof (reg_slots_update (conns w) c conn conn' Hc) as Hup. rewrite Er in Hup.
    pose proof (reg_slots_delete (conns w) c conn Hc) as Hdel.
    destruct (c_reg_slot conn) as [old|]; simpl in *.
    - destruct (drop_reg_slot_counts (max_registrations_per_ip config) (abuse (st w)) old (slot :: reg_slots (delete c (conns w))))
        as (a & Hd & Hm & Hcc).
      { eapply pool_ok_perm; [|exact H4]. rewrite Hdel. constructor. }
      rewrite Hd. exists a. split; [done|]. split; [|done].
      by eapply pool_ok_perm; [symmetry; exact Hup|].
    - eexists. split; [done|]. split; [|done].
      eapply pool_ok_perm; [|exact H4]. by rewrite Hup, Hdel. }
  split; simpl.
  - by destruct (c_reg_slot conn).
  - apply map_Forall_insert_2; [done|]. by destruct (c_reg_slot conn).
  - eapply proved_update; [|by destruct (c_reg_slot conn)|done].
    by destruct (c_reg_slot conn).
  - rewrite Ea. split; simpl.
    + rewrite map_size_insert. destruct (c_reg_slot conn); simpl; by rewrite Hc.
    + by destruct (c_reg_slot conn).
    + rewrite Hcc. destruct (c_reg_slot conn); simpl;
        (eapply pool_ok_perm; [symmetry; by eapply ip_slots_update|done]).
    + by destruct (c_reg_slot conn).
  - eapply ChanInv_update; [|by destruct (c_reg_slot conn)|by rewrite Eph].
    by destruct (c_reg_slot conn).
Qed.

(** The world after the registry accepted a registration, before the slot is stored. *)
Definition registered_world (w : World) (c : nat) (conn : Conn) (id net : string) (now : Z)
    (o : RegisterOutcome) (r : Registry) (info : RelayPeerInfo) (cp : Z)
    (ts : list (string * nat)) : World :=
  let n := match o with Registered => wrap64 (connected (st w) + 1) | _ => connected (st w) end in
  MkWorld
    (set_pex (set_connected (set_registry (st w) r) n)
       (on_register (pex (st w)) id net (c_addr conn) c now))
    (fan_out (try_send (outs w) c (RegisterAck true "registered" cp)) ts (PeerConnected info))
    (pexs w) (activity w) (conns w).

Lemma Inv_registered_world X w c conn id net now o r info cp ts :
  Inv X w → conns w !! c = Some conn → c_phase conn = Serving →
  (∀ v, c_verified conn = Some v → id = v) →
  registry_len (registry (st w)) < max_connections config →
  pi_peer_id info = id → pi_network_id info = net →
  register (tx_closed w) (registry (st w)) id net info c c = (o, r) → o ≠ Occupied →
  Inv X (registered_world w c conn id net now o r info cp ts).
Proof.
  intros [HR HC HP HS HX] Hc Hph Hv Hcap Hid Hnet Hreg Ho.
  assert (sends (outs w) (outs (registered_world w c conn id net now o r info cp ts))) as Hsends.
  { eapply sends_trans; [apply sends_try_send|apply sends_fan_out]. }
  assert (r = <[id := MkPeer net info c c]> (registry (st w))) as Hr.
  { unfold register in Hreg. destruct (registry (st w) !! id) as [e|]; [|congruence].
    destruct (negb _); congruence. }
  split; try done.
  - rewrite (sends_dom _ _ Hsends).
    eapply (RegInv_register config good_max (tx_closed w)) with (info := info);
      [exact HR|done| |done|done|exact Hreg|done].
    apply HX in Hc. rewrite Hc. congruence.
  - intros id' q cn v Hq Hcn Hcv. simpl in Hq, Hcn. rewrite Hr in Hq.
    apply lookup_insert_Some in Hq as [[<- <-]|[_ Hq]]; [|by eapply HP].
    simpl in Hcn. apply Hv. congruence.
  - eapply ChanInv_sends; [exact HX|exact Hsends|apply sends_refl].
Qed.

Lemma register_occupied closed r id n info tx act r' :
  register closed r id n info tx act = (Occupied, r') → r' = r.
Proof.
  unfold register. destruct (r !! id) as [e|]; [|done]. destruct (negb _); [|done]. congruence.
Qed.

(** What [register_peer] does once it holds a slot, on every branch. *)
Lemma register_locked_cases w c id net pv addrs addr verified clock res r :
  register_locked config w c id net pv addrs addr verified clock = (res, r) →
  (r = registry (st w) ∧ ∃ code msg n, res = Refused code msg n) ∨
  ∃ o info cp ts, res = Accepted o info cp ts ∧
    (∀ v, verified = Some v → id = v) ∧
    registry_len (registry (st w)) < max_connections config ∧
    pi_peer_id info = id ∧ pi_network_id info = net ∧
    register (tx_closed w) (registry (st w)) id net info c c = (o, r) ∧ o ≠ Occupied.
Proof.
  unfold register_locked.
  destruct (match verified with Some v => _ | None => false end) eqn:Hmis.
  { intros [= <- <-]. left. split; [done|by eauto]. }
  destruct (max_connections config <=? registry_len (registry (st w))) eqn:Hcap.
  { intros [= <- <-]. left. split; [done|by eauto]. }
  propify. set (info := with_addresses _ _).
  assert (∀ v, verified = Some v → id = v) as Hv.
  { intros v E. rewrite E in Hmis. by propify. }
  destruct (register _ _ _ _ _ _ _) as [o r'] eqn:Hreg.
  destruct (decide (o = Occupied)) as [->|Ho].
  { intros [= <- <-]. left. split; [by eapply register_occupied|by eauto]. }
  intros E. right. exists o, info, (registry_len r'), (broadcast_targets r' id net []).
  assert (res = Accepted o info (registry_len r') (broadcast_targets r' id net []) ∧ r = r')
    as [-> ->] by (destruct o; by simplify_eq).
  done.
Qed.

Lemma Inv_register_peer w c conn id net pv addrs now :
  Inv [] w → conns w !! c = Some conn → c_phase conn = Serving →
  Inv [] (register_peer config w c conn id net pv addrs now).2.
Proof.
  intros HI Hc Hph. unfold register_peer.
  pose proof (same_counts_allow_registration (policy config) (abuse (st w))
    (sa_ip (c_addr conn)) now) as Hsc.
  destruct (allow_registration _ _ _ _) as [ok a]. simpl in Hsc.
  pose proof (Inv_same_counts [] w a HI Hsc) as HI1.
  set (w1 := upd_st (λ s, set_abuse s a) w) in *.
  destruct ok; cbn [negb snd]; [|by apply Inv_refuse, Inv_strike].
  pose proof (Inv_acquire_reg w1 (sa_ip (c_addr conn)) HI1) as HI2.
  destruct (try_acquire_registration _ _ _) as [slot a2]. destruct HI2 as [HI2 Hsl].
  set (w2 := upd_st (λ s, set_abuse s a2) w1) in *.
  assert (conns w2 !! c = Some conn) as Hc2 by done.
  destruct slot as [slot|]; cbn [snd]; [|by apply Inv_refuse, Inv_strike].
  simpl slot_list in HI2. clearbody w2. specialize (Hsl slot eq_refl).
  pose proof (inv_conns _ _ HI _ _ Hc) as [_ _ _ Hip _]. clear w1 HI1 HI Hc Hsc a a2 w.
  destruct (register_locked config w2 c id net pv addrs (c_addr conn) (c_verified conn) _)
    as [res r] eqn:Hlock.
  apply register_locked_cases in Hlock as
    [(_ & code & msg & n & ->)|(o & info & cp & ts & -> & Hv & Hcap & Hid & Hnet & Hreg & Ho)].
  { by apply Inv_release_reg, Inv_refuse. }
  pose proof (Inv_registered_world [slot] w2 c conn id net now o r info cp ts HI2 Hc2 Hph Hv Hcap
    Hid Hnet Hreg Ho) as HI3.
  set (conn' := set_session (set_reg_slot conn (Some slot))
    (MkSession (Some id) (Some net) (s_pex_active (c_session conn)))).
  assert (Inv [] (set_conn (match c_reg_slot conn with
    | Some old => release_reg_slot old (registered_world w2 c conn id net now o r info cp ts)
    | None => registered_world w2 c conn id net now o r info cp ts end) c conn')) as HI4.
  { apply (Inv_store_reg _ c conn conn' slot); try done.
    split; simpl; [done| |by rewrite Hph|done|by rewrite Hsl].
    intros id' v [= <-]. apply Hv. }
  destruct o; try done; destruct (c_reg_slot conn); exact HI4.
Qed.

(** *** Frames *)

Lemma Inv_handle_pex_frame w c conn frame now :
  Inv [] w → conns w !! c = Some conn → c_phase conn = Serving →
  Inv [] (handle_pex_frame w c conn frame now).
Proof.
  intros HI Hc Hph. pose proof (ri_replays _ _ _ _ _ (inv_reg _ _ HI)) as Hrep.
  unfold handle_pex_frame.
  set (id := unwrap_or_default (s_peer_id _)). set (net := unwrap_or_default (s_network_id _)).
  destruct (pex_dispatch _ _) as [|msg|msg| |].
  - by apply Inv_out_send.
  - destruct (on_register_superset (pex (st w)) id net (c_addr conn) c now) as [Ha Hp].
    set (p1 := on_register _ _ _ _ _ _) in *.
    pose proof (mirrored_on_node_handshake p1 id net msg now) as Ha2.
    pose proof (pex_conns_on_node_handshake p1 id net msg now) as Hp2.
    pose proof (replays_on_node_handshake p1 id net msg now
      (replays_on_register _ _ _ _ _ _ Hrep)) as Hr2.
    destruct (on_node_handshake p1 id net msg now) as [replies p2]. simpl in Ha2, Hp2, Hr2.
    unfold pex_send_all. apply Inv_pex_sends; [|apply sends_send_all].
    apply (Inv_set_conn [] _ c conn); try done.
    + apply Inv_pex; [done|done| |].
      * intros n. by rewrite Ha2.
      * intros i. rewrite Hp2. apply Hp.
    + pose proof (inv_conns _ _ HI _ _ Hc) as [E1 E2 E3 E4 E5].
      split; simpl; [done|done|by rewrite Hph|done|done].
  - pose proof (mirrored_on_node_message (pex (st w)) id net msg now) as Ha2.
    pose proof (pex_conns_on_node_message (pex (st w)) id net msg now) as Hp2.
    pose proof (replays_on_node_message (pex (st w)) id net msg now Hrep) as Hr2.
    destruct (on_node_message _ _ _ _ _) as [replies p2]. simpl in Ha2, Hp2, Hr2.
    unfold pex_send_all. apply Inv_pex_sends; [|apply sends_send_all].
    apply Inv_pex; [done|done|intros n; by rewrite Ha2|by rewrite Hp2].
  - pose proof (mirrored_on_node_bad_frame (pex (st w)) id net now) as Ha2.
    pose proof (pex_conns_on_node_bad_frame (pex (st w)) id net now) as Hp2.
    pose proof (replays_on_node_bad_frame (pex (st w)) id net now Hrep) as Hr2.
    destruct (on_node_bad_frame _ _ _ _) as [replies p2]. simpl in Ha2, Hp2, Hr2.
    unfold pex_send_all. apply Inv_pex_sends; [|apply sends_send_all].
    apply Inv_pex; [done|done|intros n; by rewrite Ha2|by rewrite Hp2].
  - done.
Qed.

Lemma Inv_handle_message w c conn msg now :
  Inv [] w → conns w !! c = Some conn → c_phase conn = Serving →
  Inv [] (handle_message config w c conn msg now).2.
Proof.
  intros HI Hc Hph. unfold handle_message.
  pose proof (Inv_record_relayed [] w msg HI) as HI1.
  set (w1 := upd_st (λ s, record_relayed s msg) w) in *.
  set (w2 := match msg with DhtRecords _ _ _ => _ | _ => w1 end).
  assert (Inv [] w2 ∧ conns w2 = conns w) as [HI2 E2].
  { unfold w2. destruct msg; try done. destruct (is_some _); [|done].
    split; [|done]. by apply Inv_upd_st. }
  rewrite <- E2 in Hc. clearbody w2.
  destruct msg as [| | | | | | | |pl| | | | | | | |]; try (by apply Inv_out_send);
    (destruct (dispatch (c_session conn) _) eqn:Hd; cbn [snd];
     [ by apply Inv_sends, sends_send_all | by apply Inv_register_peer | by apply Inv_forward_to
     | by apply Inv_broadcast | done | done | by apply Inv_out_send ]).
Qed.

Lemma Inv_handle_frame w c conn frame now mono :
  Inv [] w → conns w !! c = Some conn → c_phase conn = Serving →
  Inv [] (handle_frame config w c conn frame now mono).2.
Proof.
  intros HI Hc Hph. unfold handle_frame.
  destruct (admit_frame _ _ _) as [verdict lim].
  set (w1 := set_activity w _). set (conn1 := set_limiter conn lim).
  assert (Inv [] (set_conn w1 c conn1)) as HI1.
  { apply (Inv_set_conn [] w1 c conn); try done.
    - by apply Inv_set_activity.
    - pose proof (inv_conns _ _ HI _ _ Hc) as [E1 E2 E3 E4 E5]. by split. }
  assert (conns (set_conn w1 c conn1) !! c = Some conn1) as Hc1 by (simpl; apply lookup_insert_eq).
  destruct verdict; cbn [snd].
  - destruct (is_pex_frame frame); cbn [snd].
    + by apply Inv_handle_pex_frame.
    + destruct (relay_from_slice frame); cbn [snd].
      * by apply Inv_handle_message.
      * by apply Inv_out_send.
  - by apply Inv_strike.
Qed.

(** *** The life of a connection *)

Lemma Inv_accept w c addr verified now :
  Inv [] w → conns w !! c = None → outs w !! c = None →
  Inv [] (accept_connection config w c addr verified now).
Proof.
  intros HI Hc Ho. unfold accept_connection.
  pose proof (same_counts_is_banned (policy config) (abuse (st w)) (sa_ip addr) now) as Hsc.
  destruct (is_banned _ _ _ _) as [banned a]. simpl in Hsc.
  pose proof (Inv_same_counts [] w a HI Hsc) as HI1.
  set (w1 := upd_st (λ s, set_abuse s a) w) in *.
  assert (conns w1 !! c = None ∧ outs w1 !! c = None) as [Hc1 Ho1] by done.
  clearbody w1. clear HI Hc Ho Hsc a w.
  destruct banned; [done|]. destruct (_ <=? _) eqn:Hcap; [done|]. propify.
  destruct HI1 as [HR HC HP [H1 H2 H3 H4] HX].
  pose proof (try_acquire_conn_counts (policy config) (abuse (st w1)) (sa_ip addr)
    (ip_slots (conns w1))) as Hacq.
  change (abuse (st (upd_st open_guard_acquire w1))) with (abuse (st w1)).
  destruct (try_acquire_conn _ _ _) as [slot a].
  destruct Hacq as (Hm & Hr & Hsl); [|done|].
  { destruct Hgood as [Hu _]. unfold unsigned_config, is_u32 in Hu. simpl. lia. }
  destruct Hgood as (_ & Hmax & _).
  assert (wrap64 (open_connections (st w1) + 1) = open_connections (st w1) + 1) as Hw1.
  { apply wrap64_small. unfold is_u64. lia. }
  destruct slot as [slot|]; simpl in Hm.
  - split; simpl; try done.
    + apply map_Forall_insert_2; [|done]. split; try done. by apply Hsl.
    + intros id q conn v Hq Hl Hv.
      apply lookup_insert_Some in Hl as [[Hcq <-]|[_ Hl]]; [|by eapply HP].
      destruct (ri_tx _ _ _ _ _ HR _ _ Hq) as [_ Hd]. rewrite <- Hcq, elem_of_dom, Ho1 in Hd.
      by destruct Hd.
    + rewrite Hw1. split; simpl.
      * rewrite map_size_insert, Hc1. lia.
      * lia.
      * eapply pool_ok_perm; [symmetry; by apply ip_slots_insert|done].
      * rewrite Hr. eapply pool_ok_perm; [symmetry; by apply reg_slots_insert|done].
    + destruct HX as [X1 X2 X3 X4]. split; try done.
      intros c' conn [[<- <-]|[_ Hl]]%lookup_insert_Some; [|by apply X4].
      simpl. rewrite elem_of_dom, Ho1. split; [by intros [? ?]|done].
  - assert (wrap64 (wrap64 (open_connections (st w1) + 1) - 1) = open_connections (st w1)) as Hw2.
    { rewrite Hw1. rewrite wrap64_small; [lia|]. unfold is_u64. lia. }
    destruct (same_counts_record_strike (policy config) a (sa_ip addr) now) as [E1 E2].
    split; simpl; try done. rewrite Hw2. split; try done; [by rewrite E1|by rewrite E2, Hr].
Qed.

Lemma chan_new_ok A cap :
  1 ≤ cap → ch_cap (chan_new (A := A) cap) = cap ∧ chan_ok (chan_new (A := A) cap).
Proof.
  intros Hcap. destruct (chan_new_law A cap) as (Eq & Ec & _); [lia|].
  unfold chan_ok. rewrite Eq, Ec. simpl. split; [done|lia].
Qed.

Lemma Inv_upgrade w c conn now mono :
  Inv [] w → conns w !! c = Some conn → c_phase conn = Handshaking →
  Inv [] (upgrade_connection config w c conn now mono).
Proof.
  intros [HR HC HP HS HX] Hc Hph. unfold upgrade_connection.
  pose proof (HC _ _ Hc) as [E1 E2 E3 E4 E5]. destruct Hgood as (_ & _ & Hq).
  split; simpl.
  - eapply RegInv_dom; [exact HR|]. rewrite dom_insert_L. set_solver.
  - apply map_Forall_insert_2; [|done]. by split.
  - by eapply proved_update.
  - by eapply SlotInv_update.
  - destruct HX as [X1 X2 X3 X4]. split.
    + apply map_Forall_insert_2; [by apply chan_new_ok|done].
    + apply map_Forall_insert_2; [by apply chan_new_ok|done].
    + by rewrite !dom_insert_L, X3.
    + intros c' conn' Hl. rewrite dom_insert_L, elem_of_union, elem_of_singleton.
      apply lookup_insert_Some in Hl as [[<- <-]|[Hne Hl]]; simpl.
      * split; [done|]. by left.
      * rewrite (X4 _ _ Hl). split; [intros [?|?]; [congruence|done]|by right].
Qed.

Lemma conns_deregister w session : conns (deregister w session) = conns w.
Proof.
  unfold deregister. destruct (s_peer_id session); [|done]. destruct (s_network_id session); [|done].
  by destruct (remove_locked _ _ _) as [[?|] ?].
Qed.

Lemma Inv_end_of_loop w c conn :
  Inv [] w → conns w !! c = Some conn → c_phase conn ≠ Handshaking →
  Inv [] (end_of_loop w c conn).
Proof.
  intros HI Hc Hph. unfold end_of_loop.
  pose proof (Inv_deregister [] w (c_session conn) HI) as HI1.
  assert (conns (deregister w (c_session conn)) !! c = Some conn) as Hc1
    by by rewrite conns_deregister.
  revert HI1 Hc1. generalize (deregister w (c_session conn)). clear HI Hc w.
  intros w [HR HC HP HS HX] Hc. split; simpl; try done.
  - apply map_Forall_insert_2; [|done]. pose proof (HC _ _ Hc) as [E1 E2 E3 E4 E5]. by split.
  - by eapply proved_update.
  - by eapply SlotInv_update.
  - eapply ChanInv_update; [done..|]. simpl. split; [done|]. by intros E.
Qed.

Lemma Inv_finish w c conn :
  Inv [] w → conns w !! c = Some conn → Inv [] (finish_connection w c conn).
Proof.
  intros [HR HC HP [H1 H2 H3 H4] HX] Hc.
  assert (∃ a, abuse (st (match c_reg_slot conn with
      | Some slot => release_reg_slot slot w | None => w end)) = a ∧
    pool_ok (max_registrations_per_ip config) (regs_per_ip a) (reg_slots (delete c (conns w))) ∧
    conns_per_ip a = conns_per_ip (abuse (st w))) as (a & Ea & Hm & Hcc).
  { pose proof (reg_slots_delete (conns w) c conn Hc) as Hdel. simpl in H4.
    destruct (c_reg_slot conn) as [slot|]; simpl in *.
    - destruct (drop_reg_slot_counts (max_registrations_per_ip config) (abuse (st w)) slot (reg_slots (delete c (conns w))))
        as (a & Hd & Hm & Hcc); [by eapply pool_ok_perm|]. rewrite Hd. eauto.
    - eexists. split; [done|]. split; [|done]. by eapply pool_ok_perm. }
  destruct (drop_conn_slot_counts (max_connections_per_ip config) a (c_ip_slot conn) (ip_slots (delete c (conns w))))
    as (a' & Hd & Hm' & Hrr).
  { rewrite Hcc. eapply pool_ok_perm; [by apply ip_slots_delete|done]. }
  destruct Hgood as (_ & Hmax & _).
  assert (Z.of_nat (size (delete c (conns w))) = open_connections (st w) - 1) as Hsz.
  { rewrite H1, map_size_delete, Hc. simpl.
    assert (size (conns w) ≠ 0%nat); [|lia].
    intros E%map_size_empty_inv. by rewrite E, lookup_empty in Hc. }
  assert (wrap64 (open_connections (st w) - 1) = open_connections (st w) - 1) as Hw.
  { apply wrap64_small. unfold is_u64. lia. }
  unfold finish_connection. split; simpl.
  - by destruct (c_reg_slot conn).
  - destruct (c_reg_slot conn); simpl; by apply map_Forall_delete.
  - intros id q cn v Hq Hl Hv. apply (HP id q cn v); [by destruct (c_reg_slot conn)| |done].
    destruct (c_reg_slot conn); simpl in Hl; by apply lookup_delete_Some in Hl as [_ Hl].
  - rewrite Ea, Hd. simpl. split.
    + destruct (c_reg_slot conn); simpl; by rewrite Hw.
    + destruct (c_reg_slot conn); simpl; rewrite Hw; lia.
    + by destruct (c_reg_slot conn).
    + rewrite Hrr. by destruct (c_reg_slot conn).
  - destruct HX as [X1 X2 X3 X4]. split; try (by destruct (c_reg_slot conn)).
    intros c' cn Hl.
    assert (conns w !! c' = Some cn) as Hl'
      by (destruct (c_reg_slot conn); simpl in Hl; by apply lookup_delete_Some in Hl as [_ Hl]).
    destruct (c_reg_slot conn); by apply X4.
Qed.

(** *** A frame only touches its own connection task *)

Definition touches (c : nat) (conn : Conn) (m m' : gmap nat Conn) : Prop :=
  ∃ conn', m' = <[c := conn']> m ∧ keeps conn conn'.

Lemma conns_register_peer w c conn id net pv addrs now :
  conns w !! c = Some conn →
  touches c conn (conns w) (conns (register_peer config w c conn id net pv addrs now).2).
Proof.
  intros Hc. assert (touches c conn (conns w) (conns w)) as Hid.
  { exists conn. by rewrite insert_id. }
  unfold register_peer.
  destruct (allow_registration _ _ _ _) as [[] a]; cbn [negb snd]; [|done].
  destruct (try_acquire_registration _ _ _) as [[slot|] a2]; cbn [snd]; [|done].
  destruct (register_locked _ _ _ _ _ _ _ _ _ _) as [[code m n|o info n ts] r]; cbn [snd]; [done|].
  destruct o, (c_reg_slot conn); simpl; eexists; (split; [reflexivity|done]).
Qed.

Lemma conns_handle_pex_frame w c conn frame now :
  conns w !! c = Some conn →
  touches c conn (conns w) (conns (handle_pex_frame w c conn frame now)).
Proof.
  intros Hc. assert (touches c conn (conns w) (conns w)) as Hid.
  { exists conn. by rewrite insert_id. }
  unfold handle_pex_frame. destruct (pex_dispatch _ _) as [|msg|msg| |]; try done.
  - destruct (on_node_handshake _ _ _ _ _) as [replies p2]. simpl.
    eexists. split; [reflexivity|done].
  - by destruct (on_node_message _ _ _ _ _) as [replies p2].
  - by destruct (on_node_bad_frame _ _ _ _) as [replies p2].
Qed.

Lemma conns_handle_message w c conn msg now :
  conns w !! c = Some conn →
  touches c conn (conns w) (conns (handle_message config w c conn msg now).2).
Proof.
  intros Hc. assert (∀ w', conns w' = conns w → touches c conn (conns w) (conns w')) as Hid.
  { intros w' ->. exists conn. by rewrite insert_id. }
  unfold handle_message.
  set (w2 := match msg with DhtRecords _ _ _ => _ | _ => upd_st _ w end).
  assert (conns w2 = conns w) as E2.
  { unfold w2. destruct msg; try done. by destruct (is_some _). }
  rewrite <- E2 in Hc. clearbody w2.
  destruct msg as [| | | | | | | |pl| | | | | | | |]; try (by apply Hid);
    (destruct (dispatch (c_session conn) _) eqn:Hd; cbn [snd];
     [ by apply Hid | rewrite <- E2; by apply conns_register_peer
     | apply Hid; unfold forward_to; destruct (s_network_id _); [|done];
         by destruct (sender_in_network _ _ _)
     | apply Hid; unfold broadcast; by destruct (s_network_id _)
     | by apply Hid | by apply Hid | by apply Hid ]).
Qed.

Lemma conns_handle_frame w c conn frame now mono :
  conns w !! c = Some conn →
  touches c conn (conns w) (conns (handle_frame config w c conn frame now mono).2).
Proof.
  intros Hc. unfold handle_frame. destruct (admit_frame _ _ _) as [verdict lim].
  set (w1 := set_conn _ _ _).
  assert (conns w1 !! c = Some (set_limiter conn lim)) as Hc1 by (simpl; apply lookup_insert_eq).
  assert (∀ m', touches c (set_limiter conn lim) (conns w1) m' → touches c conn (conns w) m') as Hmono.
  { intros m' (conn' & -> & Hk & Ha). exists conn'. simpl. by rewrite insert_insert_eq. }
  assert (touches c conn (conns w) (conns w1)) as Hid.
  { eexists. split; [reflexivity|done]. }
  destruct verdict; cbn [snd]; [|done].
  destruct (is_pex_frame frame); cbn [snd]; [by apply Hmono, conns_handle_pex_frame|].
  destruct (relay_from_slice frame); cbn [snd]; [by apply Hmono, conns_handle_message|done].
Qed.

(** *** Every event preserves the invariant *)

Lemma conn_in_Some w c ph conn :
  conn_in w c ph = Some conn ↔ conns w !! c = Some conn ∧ c_phase conn = ph.
Proof.
  unfold conn_in. destruct (conns w !! c) as [cn|]; [|naive_solver].
  case_bool_decide; naive_solver.
Qed.

Lemma chan_close_ok A (ch : Chan A) :
  chan_ok ch → ch_cap (chan_close ch) = ch_cap ch ∧ chan_ok (chan_close ch).
Proof.
  destruct (chan_close_law A ch) as (Eq & Ec & _). unfold chan_ok. rewrite Eq, Ec. simpl.
  split; [done|lia].
Qed.

Lemma ChanInv_insert o px m c ch :
  ChanInv o px m → is_Some (o !! c) → ch_cap ch = outbound_queue_capacity config → chan_ok ch →
  ChanInv (<[c := ch]> o) px m.
Proof.
  intros [X1 X2 X3 X4] Ho Hcap Hok.
  assert (dom (<[c := ch]> o) = dom o) as E.
  { rewrite dom_insert_L. apply elem_of_dom in Ho. set_solver. }
  split; rewrite ?E; try done. by apply map_Forall_insert_2.
Qed.

Lemma ChanInv_insert_pex o px m c ch :
  ChanInv o px m → is_Some (px !! c) → ch_cap ch = outbound_queue_capacity config → chan_ok ch →
  ChanInv o (<[c := ch]> px) m.
Proof.
  intros [X1 X2 X3 X4] Ho Hcap Hok.
  assert (dom (<[c := ch]> px) = dom px) as E.
  { rewrite dom_insert_L. apply elem_of_dom in Ho. set_solver. }
  split; rewrite ?E; try done. by apply map_Forall_insert_2.
Qed.

Lemma chan_recv_ok {A} (ch : Chan A) m ch' :
  chan_recv ch = Some (m, ch') → chan_ok ch → ch_cap ch' = ch_cap ch ∧ chan_ok ch'.
Proof.
  intros (Eq & Ec & _)%chan_recv_law. unfold chan_ok. rewrite Eq, Ec. simpl. split; [done|lia].
Qed.

Lemma Inv_writer w o px :
  Inv [] w → dom o = dom (outs w) → ChanInv o px (conns w) →
  Inv [] (set_pexs (set_outs w o) px).
Proof. intros [HR HC HP HS HX] Hd HX'. split; simpl; try done. by rewrite Hd. Qed.

Lemma tick_sends p (px : Chans PexMessage) now : sends px (tick p px now).1.
Proof.
  unfold tick. simpl. generalize px.
  induction (concat _) as [|[id m] routed IH]; intros cs; simpl; [apply sends_refl|].
  eapply sends_trans; [|apply IH].
  destruct (pex_conns p !! id); [apply sends_try_send|apply sends_refl].
Qed.

Lemma Inv_tick w now :
  Inv [] w →
  let '(cs, p) := tick (pex (st w)) (pexs w) now in
  Inv [] (upd_st (λ s, set_pex s p) (set_pexs w cs)).
Proof.
  intros HI.
  pose proof (mirrored_tick (pex (st w)) (pexs w) now) as Ha.
  pose proof (pex_conns_tick (pex (st w)) (pexs w) now) as Hp.
  pose proof (tick_sends (pex (st w)) (pexs w) now) as Hs.
  pose proof (replays_tick (pex (st w)) (pexs w) now (ri_replays _ _ _ _ _ (inv_reg _ _ HI))) as Hr.
  destruct (tick _ _ _) as [cs p]. simpl in *.
  apply (Inv_pex [] (set_pexs w cs)).
  - by apply Inv_pex_sends.
  - done.
  - simpl. intros net. by rewrite Ha.
  - simpl. by rewrite Hp.
Qed.

(** The writer task's steps. *)
Lemma Inv_writer_step w ev w' :
  (∃ c, ev = WriterSends c ∨ ev = WriterSendsPex c ∨ ev = WriterExits c) →
  Inv [] w → event_step config w ev = Some w' → Inv [] w'.
Proof.
  intros [c Hev] HI Hs. pose proof (inv_chans _ _ HI) as HX.
  assert (∀ A (cs : Chans A) ch ch', cs !! c = Some ch → dom (<[c := ch']> cs) = dom cs) as Hdom.
  { intros A cs ch ch' Hc%elem_of_dom_2. rewrite dom_insert_L. set_solver. }
  destruct Hev as [-> | [-> | -> ] ]; simpl in Hs.
  - destruct (outs w !! c) as [ch|] eqn:Hc; simpl in Hs; [|done].
    destruct (chan_recv ch) as [[m ch']|] eqn:Hr; simplify_eq/=.
    destruct (ch_outs _ _ _ HX _ _ Hc) as [Hcap Hok].
    destruct (chan_recv_ok _ _ _ Hr Hok) as [Hcap' Hok'].
    apply (Inv_writer w _ (pexs w)); [done|by eapply Hdom|].
    apply ChanInv_insert; [done|eauto|congruence|done].
  - destruct (pexs w !! c) as [ch|] eqn:Hc; simpl in Hs; [|done].
    destruct (chan_recv ch) as [[m ch']|] eqn:Hr; simplify_eq/=.
    destruct (ch_pexs _ _ _ HX _ _ Hc) as [Hcap Hok].
    destruct (chan_recv_ok _ _ _ Hr Hok) as [Hcap' Hok'].
    apply (Inv_writer w (outs w)); [done|done|].
    apply ChanInv_insert_pex; [done|eauto|congruence|done].
  - destruct (outs w !! c) as [ch|] eqn:Hc; simpl in Hs; [|done].
    destruct (pexs w !! c) as [px|] eqn:Hp; simplify_eq/=.
    destruct (ch_outs _ _ _ HX _ _ Hc) as [Hcap Hok].
    destruct (ch_pexs _ _ _ HX _ _ Hp) as [Hcap' Hok'].
    apply Inv_writer; [done|by eapply Hdom|].
    destruct (chan_close_ok _ ch Hok) as [? ?], (chan_close_ok _ px Hok') as [? ?].
    apply ChanInv_insert; [apply ChanInv_insert_pex|..]; eauto; congruence.
Qed.

Lemma Inv_event w ev w' : Inv [] w → event_step config w ev = Some w' → Inv [] w'.
Proof.
  intros HI Hs. destruct ev as [c addr v now|c|c now mono|c frame now mono|c|c|c|c|c|mono|now| |now];
    try (eapply Inv_writer_step; [exists c; by (left + (right; left) + (right; right))|exact HI|exact Hs]);
    simpl in Hs.
  - destruct (conns w !! c) eqn:Hc; [done|]. destruct (outs w !! c) eqn:Ho; simplify_eq/=.
    by apply Inv_accept.
  - destruct (conn_in w c Handshaking) as [conn|] eqn:Hc; simplify_eq/=.
    apply conn_in_Some in Hc as [Hc Hph]. by apply Inv_finish.
  - destruct (conn_in w c Handshaking) as [conn|] eqn:Hc; simplify_eq/=.
    apply conn_in_Some in Hc as [Hc Hph]. by apply Inv_upgrade.
  - destruct (conn_in w c Serving) as [conn|] eqn:Hc; simpl in Hs; [|done].
    apply conn_in_Some in Hc as [Hc Hph].
    pose proof (Inv_handle_frame w c conn frame now mono HI Hc Hph) as HI1.
    pose proof (conns_handle_frame w c conn frame now mono Hc) as (conn' & Ht & (Ek & _)).
    destruct (handle_frame config w c conn frame now mono) as [[] w1]; simpl in *; [congruence|].
    rewrite Ht, lookup_insert_eq in Hs. simplify_eq/=.
    apply Inv_end_of_loop; [done| |congruence]. by rewrite Ht, lookup_insert_eq.
  - destruct (conn_in w c Serving) as [conn|] eqn:Hc; simplify_eq/=.
    apply conn_in_Some in Hc as [Hc Hph]. apply Inv_end_of_loop; [done|done|congruence].
  - destruct (conn_in w c Closing) as [conn|] eqn:Hc; simpl in Hs; [|done].
    apply conn_in_Some in Hc as [Hc Hph]. destruct (is_closed (outs w) c); simplify_eq.
    by apply Inv_finish.
  - simplify_eq. by apply Inv_sweep_once.
  - injection Hs as <-. exact (Inv_tick w now HI).
  - simplify_eq. by apply Inv_sends, sends_fan_out.
  - simplify_eq. by apply Inv_upd_st.
Qed.

Lemma Inv_reachable w : reachable config w → Inv [] w.
Proof. induction 1; [apply Inv_init|by eapply Inv_event]. Qed.
End inv.
