(* ===== verification/Dashboard.v ===== *)
(** * The peer-stats dashboard (src/dashboard.rs)

    The snapshot behind [/stats.json] and the health answer of the traffic port: the aggregation by
    network, the per-peer rows with their privacy truncation, the live snapshot of the server's
    state, and the routing of a request to its response, on the dashboard's host, on the STUN host
    and on the plain-HTTP redirect listener; with it the health body (src/health.rs). [None] is a
    panic: truncating a peer id slices its UTF-8 bytes at a fixed index. A response's body is what it
    renders; the text of the pages and the JSON encoding are a parameter where bytes are written. *)

From S2P Require Import Prelude Counting Net Text Wire Http Config Limits Dial Channel Registry Pex.
From S2P Require Import DhtView F64 Map Server ServerInv.

Definition STATS_SCHEMA_VERSION : Z := 1.
Definition PEER_ID_PREFIX_LEN : nat := 12.

Record Counters := MkCounters {
  ct_connected_peers : Z;
  ct_open_connections : Z;
  ct_stun_requests : Z;
  ct_hole_punch_requests : Z;
  ct_hole_punch_successes : Z;
  ct_hole_punch_failures : Z;
  ct_bytes_relayed : Z }.

Record PeerRow := MkPeerRow {
  pr_peer_id : string;
  pr_network_id : string;
  pr_via : string;
  pr_address_family : string;
  pr_protocol_version : Z;
  pr_connected_at : Z;
  pr_connected_secs : Z }.

Record NetworkRow := MkNetworkRow { nr_network_id : string; nr_peers : Z }.

Record StatsSnapshot := MkStats {
  ss_schema_version : Z;
  ss_status : string;
  ss_version : string;
  ss_uptime_secs : Z;
  ss_active_reservations : Z;
  ss_connected_peers : Z;
  ss_open_connections : Z;
  ss_stun_requests : Z;
  ss_hole_punch_requests : Z;
  ss_hole_punch_successes : Z;
  ss_hole_punch_failures : Z;
  ss_bytes_relayed : Z;
  ss_networks : list NetworkRow;
  ss_peers : list PeerRow }.

Definition wants_full (target : str) : bool :=
  existsb (λ needle, str_contains target (chars needle)) ["full=1"; "full=true"; "full=yes"]%string.

Definition address_family (addr : option SocketAddr) : string :=
  match addr with
  | None => "none"
  | Some a => if is_ipv4 (to_canonical (sa_ip a)) then "v4" else "v6"
  end.

(** The three bytes of the ellipsis character. *)
Definition ellipsis : string :=
  String.string_of_list_ascii (map (λ b, Ascii.ascii_of_N b) [0xE2; 0x80; 0xA6]%N).

(** [s.is_char_boundary(i)] for an index inside the string. *)
Definition is_char_boundary (s : string) (i : nat) : bool :=
  match String.get i s with
  | Some a => negb (is_cont (Z.of_N (Ascii.N_of_ascii a)))
  | None => true
  end.

Definition truncate_peer_id (peer_id : string) : option string :=
  if (String.length peer_id <=? PEER_ID_PREFIX_LEN)%nat then Some peer_id
  else if is_char_boundary peer_id PEER_ID_PREFIX_LEN then
    Some (String.append (String.substring 0 PEER_ID_PREFIX_LEN peer_id) ellipsis)
  else None.

Definition peer_row (info : RelayPeerInfo) (now_secs : Z) (full : bool) : option PeerRow :=
  let dialable := head (pi_addresses info) in
  peer_id ← (if full then Some (pi_peer_id info) else truncate_peer_id (pi_peer_id info));
  Some {|
    pr_peer_id := peer_id;
    pr_network_id := pi_network_id info;
    pr_via := match dialable with Some _ => "direct" | None => "relay" end;
    pr_address_family := address_family dialable;
    pr_protocol_version := pi_protocol_version info;
    pr_connected_at := pi_connected_at info;
    pr_connected_secs := sat_sub now_secs (pi_connected_at info)
  |}.

(** The [BTreeMap] of counts, enumerated in key order. *)
Definition network_rows (peers : list RelayPeerInfo) : list NetworkRow :=
  map (λ e, MkNetworkRow e.1 e.2)
    (sort_by (λ a b, String.leb a.1 b.1)
       (map_to_list (foldl bump ∅ (pi_network_id <$> peers)))).

(** [version] is the crate's version, fixed when the program is built. *)
Definition build_snapshot (version : string) (peers : list RelayPeerInfo) (counters : Counters)
    (uptime_secs now_secs : Z) (full : bool) : option StatsSnapshot :=
  peer_rows ← mapM (λ p, peer_row p now_secs full) peers;
  Some {|
    ss_schema_version := STATS_SCHEMA_VERSION;
    ss_status := "ok";
    ss_version := version;
    ss_uptime_secs := uptime_secs;
    ss_active_reservations := Z.of_nat (length peers);
    ss_connected_peers := ct_connected_peers counters;
    ss_open_connections := ct_open_connections counters;
    ss_stun_requests := ct_stun_requests counters;
    ss_hole_punch_requests := ct_hole_punch_requests counters;
    ss_hole_punch_successes := ct_hole_punch_successes counters;
    ss_hole_punch_failures := ct_hole_punch_failures counters;
    ss_bytes_relayed := ct_bytes_relayed counters;
    ss_networks := network_rows peers;
    ss_peers := sort_by (λ a b, String.leb (pr_peer_id a) (pr_peer_id b)) peer_rows
  |}.

Section live.
Context `{HashOrder, DigPex}.

Definition counters_of (s : RelayState) : Counters := {|
  ct_connected_peers := connected s;
  ct_open_connections := open_connections s;
  ct_stun_requests := stun_requests s;
  ct_hole_punch_requests := hole_punch_requests s;
  ct_hole_punch_successes := hole_punch_successes s;
  ct_hole_punch_failures := hole_punch_failures s;
  ct_bytes_relayed := bytes_relayed s
|}.

Definition live_snapshot (version : string) (s : RelayState) (uptime_secs now_secs : Z)
    (full : bool) : option StatsSnapshot :=
  build_snapshot version (peers (registry s) None) (counters_of s) uptime_secs now_secs full.
End live.

(** ** Health (health.rs) *)

Record Health := MkHealth {
  h_status : string;
  h_connected_peers : Z;
  h_uptime_secs : Z;
  h_version : string }.

Definition health_snapshot `{HashOrder, DigPex} (version : string) (s : RelayState)
    (uptime_secs : Z) : Health :=
  MkHealth "ok" (connected s) uptime_secs version.

(** ** Responses *)

Definition STUN_INFO_SCHEMA_VERSION : Z := 1.

Record StunInfo := MkStunInfo {
  si_schema_version : Z;
  si_host : str;
  si_port : Z;
  si_transport : string;
  si_families : string * string;
  si_scope : str }.

Definition stun_info (host : str) (stun_port : Z) : StunInfo := {|
  si_schema_version := STUN_INFO_SCHEMA_VERSION;
  si_host := host;
  si_port := stun_port;
  si_transport := "udp";
  si_families := ("A", "AAAA")%string;
  si_scope := chars "RFC 5389 STUN Binding responder for the DIG Network " ++ [0x2014] ++
    chars " not a general-purpose public STUN service, not a proxy, and not a destination for anything but a Binding request."
|}.

(** What a body renders: a page, an embedded asset, the JSON of a value, the STUN page for an
    endpoint and its sibling domain, or a text. *)
Inductive Body : Type :=
| DashboardHtml | MapHtml | DhtHtml
| MascotPng | GlobeGlJs | EarthJpg
| StatsJson (s : StatsSnapshot)
| HealthJson (h : Health)
| MapJson (m : MapSnapshot)
| DhtJson (v : DhtView)
| StunJson (i : StunInfo)
| StunHtml (endpoint relay_domain : str)
| PlainText (s : string).

Record DashboardResponse := MkResponse {
  dr_status : Z;
  dr_reason : string;
  dr_content_type : string;
  dr_cache_control : option string;
  dr_body : Body }.

Definition html (b : Body) : DashboardResponse :=
  MkResponse 200 "OK" "text/html; charset=utf-8" None b.
Definition json (b : Body) : DashboardResponse :=
  MkResponse 200 "OK" "application/json" (Some "no-store"%string) b.
Definition asset (content_type : string) (b : Body) : DashboardResponse :=
  MkResponse 200 "OK" content_type (Some "public, max-age=31536000, immutable"%string) b.
Definition not_found : DashboardResponse :=
  MkResponse 404 "Not Found" "text/plain; charset=utf-8" None
    (PlainText (String.append "not found" (String (Ascii.ascii_of_nat 10) EmptyString))).

Definition is_path (path : str) (p : string) : bool := bool_decide (path = chars p).

Definition route (path : str) (snapshot : StatsSnapshot) (map_snapshot : MapSnapshot)
    (view : DhtView) : DashboardResponse :=
  if is_path path "/" then html DashboardHtml
  else if is_path path "/stats.json" then json (StatsJson snapshot)
  else if is_path path "/health" then
    json (HealthJson (MkHealth "ok" (ss_connected_peers snapshot) (ss_uptime_secs snapshot)
      (ss_version snapshot)))
  else if is_path path "/mascot.png" then asset "image/png" MascotPng
  else if is_path path "/map" then html MapHtml
  else if is_path path "/map.json" then json (MapJson map_snapshot)
  else if is_path path "/dht.json" then json (DhtJson view)
  else if is_path path "/dht" then html DhtHtml
  else if is_path path "/map/globe.gl.min.js" then
    asset "application/javascript; charset=utf-8" GlobeGlJs
  else if is_path path "/map/earth.jpg" then asset "image/jpeg" EarthJpg
  else not_found.

Definition strip_prefix (needle s : str) : option str :=
  if starts_with needle s then Some (drop (length needle) s) else None.

Definition stun_html (host : str) : Body :=
  StunHtml host (default host (strip_prefix (chars "stun.") host)).

Definition is_stun_host (host : option str) : bool :=
  match host with
  | None => false
  | Some host =>
      let host := default host (head (split 58 host)) in
      starts_with (chars "stun.") (to_ascii_lowercase host)
  end.

Definition route_stun (path host : str) (stun_port : Z) : DashboardResponse :=
  if is_path path "/" then html (stun_html host)
  else if is_path path "/stun.json" then json (StunJson (stun_info host stun_port))
  else if is_path path "/mascot.png" then asset "image/png" MascotPng
  else not_found.

Definition https_location (h : RequestHead) : str :=
  chars "https://" ++ default (chars "relay.dig.net") (host h) ++ target h.

Inductive RedirectAction : Type :=
| Serve (r : DashboardResponse)
| Redirect (location : str).

Definition decide_redirect (h : RequestHead) (stun_port : Z) : RedirectAction :=
  match host h with
  | Some hst =>
      if is_stun_host (Some hst) then Serve (route_stun (path h) hst stun_port)
      else Redirect (https_location h)
  | None => Redirect (https_location h)
  end.

Definition empty_map_snapshot (resolver : GeoResolver) : MapSnapshot :=
  build_map_snapshot [] resolver MAP_CELL_DEG 0.

(** The response [serve_http] writes. The resolver is the process's location database; [now_secs]
    and [map_secs] are the two readings of the clock. *)
Definition serve_http `{HashOrder, DigPex} (version : string) (config : RelayServerConfig)
    (resolver : GeoResolver) (s : RelayState) (uptime_secs now_secs map_secs : Z) (h : RequestHead)
    : option DashboardResponse :=
  let dashboard :=
    snapshot ← live_snapshot version s uptime_secs now_secs (wants_full (target h));
    let map_snapshot :=
      if is_path (path h) "/map" || is_path (path h) "/map.json"
      then build_map_snapshot (peers (registry s) None) resolver MAP_CELL_DEG map_secs
      else empty_map_snapshot resolver in
    Some (route (path h) snapshot map_snapshot (dht_view s)) in
  match host h with
  | Some hst =>
      if is_stun_host (Some hst)
      then Some (route_stun (path h) hst (sa_port (stun_listen config)))
      else dashboard
  | None => dashboard
  end.

(** ** Writing a response *)

Section writing.
Context (render : Body → list Z).

Definition write_dashboard_response (resp : DashboardResponse) : list Z :=
  let headers := [(chars "Content-Type", chars (dr_content_type resp))] in
  let headers :=
    match dr_cache_control resp with
    | Some cc => headers ++ [(chars "Cache-Control", chars cc)]
    | None => headers
    end in
  write_response (dr_status resp) (chars (dr_reason resp)) headers (render (dr_body resp)).

(** What the redirect listener answers on one connection that delivers [stream]: nothing when no
    request head can be read. *)
Definition redirect_connection (stun_port : Z) (stream : list Z) : list Z :=
  match read_request_head stream with
  | Ok (h, _, _) =>
      match decide_redirect h stun_port with
      | Serve resp => write_dashboard_response resp
      | Redirect location =>
          write_response 301 (chars "Moved Permanently") [(chars "Location", location)] []
      end
  | Err _ => []
  end.
End writing.

(** ** The aggregation by network *)

(** How many of the peers are on network [n]. *)
Definition members (n : string) (ps : list RelayPeerInfo) : Z := occ n (pi_network_id <$> ps).

Lemma elem_of_network_rows n k ps :
  MkNetworkRow n k ∈ network_rows ps ↔ k = members n ps ∧ 0 < k.
Proof.
  unfold network_rows. rewrite list_elem_of_fmap. split.
  - intros ([n' k'] & [= <- <-] & Hin). apply elem_of_sort_by, elem_of_map_to_list in Hin.
    apply counts_exact in Hin as [-> Hn]. by rewrite occ_pos.
  - intros [-> Hk]. exists (n, members n ps). split; [done|].
    apply elem_of_sort_by, elem_of_map_to_list, counts_exact. by apply occ_pos in Hk.
Qed.

Lemma network_rows_sorted ps :
  StronglySorted (λ a b, String.leb (nr_network_id a) (nr_network_id b) = true)
    (network_rows ps) ∧ NoDup (nr_network_id <$> network_rows ps).
Proof.
  unfold network_rows. split.
  - apply StronglySorted_map. apply sort_by_sorted; intros; eauto using string_leb_total,
      string_leb_trans.
  - rewrite <- list_fmap_compose. rewrite sort_by_perm.
    change (nr_network_id ∘ _) with (fst (A := string) (B := Z)). apply NoDup_fst_map_to_list.
Qed.

(** ** Truncation *)

(** The fixed cut falls inside a character. *)
Definition splits_char (id : string) : Prop :=
  (PEER_ID_PREFIX_LEN < String.length id)%nat ∧ is_char_boundary id PEER_ID_PREFIX_LEN = false.

Lemma truncate_peer_id_None id : truncate_peer_id id = None ↔ splits_char id.
Proof.
  unfold truncate_peer_id, splits_char. destruct (Nat.leb_spec (String.length id) PEER_ID_PREFIX_LEN).
  - split; [done|]. intros [? _]. lia.
  - destruct (is_char_boundary id PEER_ID_PREFIX_LEN); split; try done. by intros [_ ?].
Qed.

Lemma peer_row_None p now full :
  peer_row p now full = None ↔ full = false ∧ splits_char (pi_peer_id p).
Proof.
  unfold peer_row. rewrite <- truncate_peer_id_None. destruct full; simpl.
  - split; [done|]. by intros [? _].
  - destruct (truncate_peer_id (pi_peer_id p)); simpl; split; try done. by intros [_ ?].
Qed.

(** A snapshot fails exactly when some row does. *)
Lemma build_snapshot_None version ps c up now full :
  build_snapshot version ps c up now full = None ↔
  full = false ∧ ∃ p, p ∈ ps ∧ splits_char (pi_peer_id p).
Proof.
  unfold build_snapshot. destruct (mapM _ ps) as [rows|] eqn:E; simpl.
  - split; [done|]. intros (Hf & p & Hp & Hs). apply mapM_Some in E.
    apply list_elem_of_lookup in Hp as [i Hi].
    destruct (Forall2_lookup_l _ _ _ _ _ E Hi) as (r & _ & Hr).
    by rewrite (proj2 (peer_row_None p now full) (conj Hf Hs)) in Hr.
  - split; [|done]. intros _. apply mapM_None, Exists_exists in E as (p & Hp & Hr).
    apply peer_row_None in Hr as [Hf Hs]. eauto.
Qed.

(** ** The live snapshot *)

Section live_lemmas.
Context `{HashOrder}.

Lemma length_filter_map {A B} (f : A → B) (P : B → Prop) (Q : A → Prop)
    `{∀ x, Decision (P x), ∀ x, Decision (Q x)} l :
  Forall (λ x, P (f x) ↔ Q x) l → length (filter P (map f l)) = length (filter Q l).
Proof.
  induction 1 as [|x l Hx _ IH]; [done|]. cbn [map]. rewrite !filter_cons.
  destruct (decide (P (f x))) as [Hp|Hp], (decide (Q x)) as [Hq|Hq]; simpl; try tauto; congruence.
Qed.

Lemma members_peers r n :
  wf_registry r → members n (peers r None) = Z.of_nat (length (peers r (Some n))).
Proof.
  intros Hwf. unfold members, peers. rewrite occ_fmap. f_equal. rewrite length_sort_by, length_map.
  rewrite sort_by_perm.
  rewrite (length_filter_map _ _ (λ e : string * Peer, peer_network_id e.2 = n)).
  - f_equal. rewrite list_filter_filter. apply list_filter_iff. intros e. simpl. tauto.
  - apply Forall_forall. intros [id p] [_ Hin]%list_elem_of_filter.
    apply elem_of_hash_iter in Hin. destruct (Hwf _ _ Hin) as [_ E]. simpl. by rewrite E.
Qed.

Lemma length_peers_all r : length (peers r None) = size r.
Proof.
  unfold peers. rewrite length_sort_by, length_map.
  rewrite <- (length_hash_iter r). f_equal.
  induction (hash_iter r) as [|e l IH]; [done|]. rewrite filter_cons_True by done. by rewrite IH.
Qed.

(** The snapshot of a well-formed registry fails exactly on a split id. *)
Lemma live_snapshot_None `{DigPex} version s up now full :
  wf_registry (registry s) →
  live_snapshot version s up now full = None ↔
  full = false ∧ ∃ id, is_Some (registry s !! id) ∧ splits_char id.
Proof.
  intros Hwf. unfold live_snapshot. rewrite build_snapshot_None. f_equiv. split.
  - intros (p & (id & q & Hq & _ & <-)%elem_of_peers & Hs).
    exists id. destruct (Hwf _ _ Hq) as [E _]. rewrite E in Hs. by rewrite Hq.
  - intros (id & [q Hq] & Hs). exists (peer_info q). split.
    + apply elem_of_peers. by exists id, q.
    + destruct (Hwf _ _ Hq) as [E _]. by rewrite E.
Qed.

(** The rows made from the peer list are those of the registrations. *)
Lemma elem_of_rows (g : RelayPeerInfo → option PeerRow) r rows row :
  Forall2 (λ p x, g p = Some x) (peers r None) rows →
  row ∈ rows ↔ ∃ id q, r !! id = Some q ∧ g (peer_info q) = Some row.
Proof.
  intros E. split.
  - intros [i Hi]%list_elem_of_lookup.
    destruct (Forall2_lookup_r _ _ _ _ _ E Hi) as (p & Hp & Hrow).
    apply list_elem_of_lookup_2, elem_of_peers in Hp as (id & q & Hq & _ & <-). eauto.
  - intros (id & q & Hq & Hrow).
    assert (peer_info q ∈ peers r None) as [i Hi]%list_elem_of_lookup.
    { apply elem_of_peers. by exists id, q. }
    destruct (Forall2_lookup_l _ _ _ _ _ E Hi) as (x & Hx & Hx').
    rewrite Hrow in Hx'. simplify_eq. by eapply list_elem_of_lookup_2.
Qed.
End live_lemmas.

(** ** Properties *)

(** The grid cell the map counts a peer in, as the map's key. *)
Definition map_key (resolver : GeoResolver) (p : RelayPeerInfo) : option (Z * Z) :=
  (λ c, (quantize (snap c.1 MAP_CELL_DEG), quantize (snap c.2 MAP_CELL_DEG))) <$>
    first_located (pi_addresses p) resolver.

(** What is public of a peer: its short id, network, protocol version, time of registration, the
    family of its first address and its cell of the map. *)
Record same_public (resolver : GeoResolver) (p q : RelayPeerInfo) : Prop := {
  sp_id : truncate_peer_id (pi_peer_id p) = truncate_peer_id (pi_peer_id q);
  sp_network : pi_network_id p = pi_network_id q;
  sp_version : pi_protocol_version p = pi_protocol_version q;
  sp_connected : pi_connected_at p = pi_connected_at q;
  sp_family : address_family (head (pi_addresses p)) = address_family (head (pi_addresses q));
  sp_cell : map_key resolver p = map_key resolver q }.

Lemma peer_row_public resolver p q now :
  same_public resolver p q → peer_row p now false = peer_row q now false.
Proof.
  intros [H1 H2 H3 H4 H5 _]. unfold peer_row. rewrite H1, H2, H3, H4, H5.
  destruct (truncate_peer_id (pi_peer_id q)); [|done]. cbn [mbind option_bind]. do 2 f_equal.
  destruct (head (pi_addresses p)), (head (pi_addresses q)); simpl in H5; try done;
    by destruct (is_ipv4 _).
Qed.

Lemma build_snapshot_public version resolver ps qs c up now :
  Forall2 (same_public resolver) ps qs →
  build_snapshot version ps c up now false = build_snapshot version qs c up now false.
Proof.
  intros Hpq. unfold build_snapshot.
  assert (mapM (λ p, peer_row p now false) ps = mapM (λ p, peer_row p now false) qs) as ->.
  { apply Forall2_mapM_ext. eapply Forall2_impl; [exact Hpq|]. intros p q.
    apply peer_row_public. }
  assert (pi_network_id <$> ps = pi_network_id <$> qs) as E.
  { induction Hpq as [|p q ps qs Hp _ IH]; [done|]. by rewrite !fmap_cons, IH, (sp_network _ _ _ Hp). }
  unfold network_rows. by rewrite E, (Forall2_length _ _ _ Hpq).
Qed.

Lemma place_key resolver m u p :
  place resolver MAP_CELL_DEG (m, u) p =
  match map_key resolver p with Some k => (bump m k, u) | None => (m, u + 1) end.
Proof. unfold place, map_key. by destruct (first_located _ _) as [[]|]. Qed.

Lemma build_map_public resolver ps qs t :
  Forall2 (same_public resolver) ps qs →
  build_map_snapshot ps resolver MAP_CELL_DEG t = build_map_snapshot qs resolver MAP_CELL_DEG t.
Proof.
  intros Hpq. unfold build_map_snapshot. rewrite (Forall2_length _ _ _ Hpq).
  assert (∀ acc, foldl (place resolver MAP_CELL_DEG) acc ps =
    foldl (place resolver MAP_CELL_DEG) acc qs) as ->; [|done].
  induction Hpq as [|p q ps qs Hp _ IH]; intros acc; [done|]. cbn [foldl].
  rewrite IH. f_equal. destruct acc as [m u]. by rewrite !place_key, (sp_cell _ _ _ Hp).
Qed.

(** C35: the default view leaks nothing else. Two server states whose peers agree on what is public
    (short id, network, protocol version, registration time, address family and map cell), with
    the same counters and DHT view, answer every request that does not ask for full ids alike:
    no full id, address, port, precise position or activity can be told from any page. *)
Theorem stats_private `{HashOrder, DigPex} version config resolver s s' up now map_now h :
  Forall2 (same_public resolver) (peers (registry s) None) (peers (registry s') None) →
  counters_of s = counters_of s' → dht_view s = dht_view s' → wants_full (target h) = false →
  serve_http version config resolver s up now map_now h =
  serve_http version config resolver s' up now map_now h.
Proof.
  intros Hp Hc Hd Hf. unfold serve_http, live_snapshot. rewrite Hf, Hc, Hd.
  rewrite (build_snapshot_public _ _ _ _ _ _ _ Hp). by rewrite (build_map_public _ _ _ _ Hp).
Qed.

(** The request is for the ordinary dashboard. *)
Definition ordinary_host (h : RequestHead) : bool := negb (is_stun_host (host h)).

Lemma serve_http_ordinary `{HashOrder, DigPex} version config resolver s up now map_now h :
  ordinary_host h = true →
  serve_http version config resolver s up now map_now h =
  (snapshot ← live_snapshot version s up now (wants_full (target h));
   Some (route (path h) snapshot
     (if is_path (path h) "/map" || is_path (path h) "/map.json"
      then build_map_snapshot (peers (registry s) None) resolver MAP_CELL_DEG map_now
      else empty_map_snapshot resolver) (dht_view s))).
Proof.
  unfold ordinary_host, serve_http. destruct (host h) as [x|]; [|done].
  intros E%negb_true_iff. by rewrite E.
Qed.

(** C36: what the dashboard shows. In every reachable state a request on the ordinary host fails,
    whatever its path and so for the health check too, exactly when it does not ask for full ids
    and some registered id has a character across its twelfth byte. Otherwise [/health] answers as
    the standalone health endpoint does, and in the snapshot the reservations are the registrations,
    the connected counter agrees with them, a network is listed with as many peers as [GetPeers]
    returns for it, in increasing order, and there is one row per registration. *)
Theorem live_stats_exact `{HO : HashOrder, DI : DigIp} `{DP : DigPex} `{ML : MpscLaws}
    {SD : Serde} config w version resolver up now map_now h :
  good_config config → reachable config w → ordinary_host h = true →
  let answer := serve_http version config resolver (st w) up now map_now h in
  (answer = None ↔
   wants_full (target h) = false ∧ ∃ id, is_Some (registry (st w) !! id) ∧ splits_char id) ∧
  (∀ r, answer = Some r → path h = chars "/health" →
     dr_body r = HealthJson (health_snapshot version (st w) up)) ∧
  (∀ s, live_snapshot version (st w) up now (wants_full (target h)) = Some s →
     ss_active_reservations s = registry_len (registry (st w)) ∧
     ss_connected_peers s = ss_active_reservations s ∧
     (∀ n k, MkNetworkRow n k ∈ ss_networks s ↔
        k = Z.of_nat (length (peers (registry (st w)) (Some n))) ∧ 0 < k) ∧
     StronglySorted (λ a b, String.leb (nr_network_id a) (nr_network_id b) = true)
       (ss_networks s) ∧
     Z.of_nat (length (ss_peers s)) = ss_active_reservations s ∧
     ∀ row, row ∈ ss_peers s ↔ ∃ id q, registry (st w) !! id = Some q ∧
       peer_row (peer_info q) now (wants_full (target h)) = Some row).
Proof.
  intros Hg Hr Hh answer. unfold answer. rewrite serve_http_ordinary by done.
  destruct (Inv_reachable config Hg w Hr) as [[Hwf Hn _ _ _ _] _ _ _ _].
  set (full := wants_full (target h)). split_and!.
  - rewrite <- (live_snapshot_None version (st w) up now) by done.
    by destruct (live_snapshot _ _ _ _ _).
  - intros r E Hpath. destruct (live_snapshot version (st w) up now full) as [s|] eqn:Es;
      simplify_eq/=. rewrite Hpath. unfold live_snapshot, build_snapshot in Es.
    destruct (mapM _ _); simplify_eq/=. done.
  - intros s. unfold live_snapshot, build_snapshot.
    destruct (mapM _ _) as [rows|] eqn:E; simpl; [|done]. intros [= <-]. simpl.
    apply mapM_Some in E. pose proof (Forall2_length _ _ _ E) as Hlen.
    rewrite length_sort_by, length_peers_all in *. unfold registry_len in *.
    split_and!; [done|done| |apply network_rows_sorted|lia|].
    + intros n k. by rewrite elem_of_network_rows, members_peers.
    + intros row. rewrite elem_of_sort_by.
      by apply (elem_of_rows (λ p, peer_row p now full)).
Qed.

