(* ===== verification/ServerProps.v ===== *)
(** * Properties of the relay server

    What the invariant of ServerInv.v means for the relay's users, the functional behaviour of the
    registration, routing, departure and sweep handlers, and the concrete runs behind the recorded
    divergences. *)

From S2P Require Import Prelude Net Wire ProxyProtocol Config Limits Dial Channel Registry Pex.
From S2P Require Import DhtView Server ServerInv.

(** ** Whose messages reach whom *)

(** Some peer of network [n] is served by channel [d]. *)
Definition on_network (r : Registry) (d : nat) (n : string) : Prop :=
  ∃ id q, r !! id = Some q ∧ peer_tx q = d ∧ peer_network_id q = n.

(** The messages the relay forwards on behalf of [me]: whatever names an author names [me]. A
    hole-punch result names its addressee. *)
Definition authored (me : string) (m : RelayMessage) : Prop :=
  match m with
  | RelayGossipMessage from _ _ _ => from = me
  | Broadcast from _ _ => from = me
  | HolePunchCoordinate peer_id _ => peer_id = me
  | HolePunchResult _ _ => True
  | _ => False
  end.

(** What the frames of a connection may add to the queue of another one: messages of its registered
    identity, within its network, or the announcement of the registration it has just made. *)
Definition legit (r : Registry) (before after : Session) (d : nat) (m : RelayMessage) : Prop :=
  (∃ me n, s_peer_id before = Some me ∧ s_network_id before = Some n ∧ on_network r d n ∧
     authored me m) ∨
  (∃ info, s_peer_id after = Some (pi_peer_id info) ∧
     s_network_id after = Some (pi_network_id info) ∧ on_network r d (pi_network_id info) ∧
     m = PeerConnected info).

Section routing.
Context `{HO : HashOrder, DI : DigIp} `{PX : DigPex} `{ML : MpscLaws} {SD : Serde} (config : RelayServerConfig).

Lemma dispatch_forward session msg to m me :
  s_peer_id session = Some me → dispatch session msg = ForwardTo to m → authored me m.
Proof.
  intros Hme. unfold dispatch. rewrite Hme. simpl.
  destruct msg; intros; simplify_eq/=; done.
Qed.

Lemma dispatch_broadcast session msg from ex m me :
  s_peer_id session = Some me → dispatch session msg = ActBroadcast from ex m →
  from = me ∧ authored me m.
Proof.
  intros Hme. unfold dispatch. rewrite Hme. simpl. destruct msg; intros; simplify_eq/=; done.
Qed.

Lemma dispatch_unregistered session msg :
  s_peer_id session = None →
  dispatch session msg =
    match msg with
    | Register id n v l => ActRegister id n v l
    | _ => ActError NOT_REGISTERED "register before sending other messages (RLY-001)"
    end.
Proof. intros E. unfold dispatch. rewrite E. by destruct msg. Qed.

Lemma dispatch_register session msg id n v l :
  dispatch session msg = ActRegister id n v l → msg = Register id n v l.
Proof.
  unfold dispatch. destruct (is_some _); destruct msg; intros; by simplify_eq/=.
Qed.

(** The outbound queues of the other connections, through each handler. *)

Lemma appended_forward_to w session c to m d (P : RelayMessage → Prop) :
  d ≠ c →
  (∀ n, s_network_id session = Some n → on_network (registry (st w)) d n → P m) →
  appended (outs w) (outs (forward_to w session c to m)) d P.
Proof.
  intros Hne HP. unfold forward_to. destruct (s_network_id session) as [n|]; [|apply appended_refl].
  destruct (sender_in_network _ _ _) as [tx|] eqn:Hs; simpl.
  - apply appended_try_send. intros ->. apply (HP n); [done|].
    apply sender_in_network_Some in Hs as (q & Hq & Hn & Htx). by exists to, q.
  - by apply appended_try_send.
Qed.

Lemma appended_broadcast w session from ex m d (P : RelayMessage → Prop) :
  (∀ n, s_network_id session = Some n → on_network (registry (st w)) d n → P m) →
  appended (outs w) (outs (broadcast w session from ex m)) d P.
Proof.
  intros HP. unfold broadcast. destruct (s_network_id session) as [n|]; [|apply appended_refl].
  apply appended_fan_out. intros Hin. apply (HP n); [done|].
  apply list_elem_of_fmap in Hin as ([id tx] & -> & Hin).
  apply elem_of_broadcast_targets in Hin as (q & Hq & Htx & Hn & _). by exists id, q.
Qed.

Lemma appended_refuse w c code msg n d (P : RelayMessage → Prop) :
  d ≠ c → appended (outs w) (outs (refuse w c code msg n)) d P.
Proof.
  intros Hne. unfold refuse. simpl.
  eapply appended_trans; by apply appended_try_send.
Qed.

Lemma appended_registered w c conn id net now o r info cp ts d (P : RelayMessage → Prop) :
  d ≠ c → (d ∈ ts.*2 → P (PeerConnected info)) →
  appended (outs w) (outs (registered_world w c conn id net now o r info cp ts)) d P.
Proof.
  intros Hne HP. simpl. eapply appended_trans; [by apply appended_try_send|].
  by apply appended_fan_out.
Qed.

(** ** Registration, branch by branch *)

(** The first check a registration fails, in the order the code makes them. *)
Definition refusal (w : World) (conn : Conn) (id : string) (now : Z) : option Z :=
  let ip := sa_ip (c_addr conn) in
  let '(ok, a) := allow_registration (policy config) (abuse (st w)) ip now in
  if negb ok then Some RATE_LIMITED
  else if negb (is_some (try_acquire_registration (policy config) a ip).1) then Some RATE_LIMITED
  else if match c_verified conn with Some v => negb (bool_decide (v = id)) | None => false end
  then Some IDENTITY_MISMATCH
  else if max_connections config <=? registry_len (registry (st w)) then Some CAPACITY
  else
    match registry (st w) !! id with
    | Some q => if tx_closed w (peer_tx q) then None else Some ID_IN_USE
    | None => None
    end.

(** The public record of a registration. *)
Definition registered_info (conn : Conn) (id net : string) (pv : Z) (addrs : list SocketAddr)
    (now : Z) : RelayPeerInfo :=
  with_addresses (peer_info_new (now / 1000) id net pv)
    (resolve_dialable addrs (sa_ip (c_addr conn))).

(** The abuse counters after a refusal: a strike where a limit refused, and otherwise the slot that was
    reserved given back. *)
Definition refused_abuse (w : World) (conn : Conn) (now : Z) : AbuseState :=
  let ip := sa_ip (c_addr conn) in
  let '(ok, a) := allow_registration (policy config) (abuse (st w)) ip now in
  if negb ok then record_strike (policy config) a ip now
  else
    match try_acquire_registration (policy config) a ip with
    | (None, a) => record_strike (policy config) a ip now
    | (Some slot, a) => default a (drop_reg_slot a slot)
    end.

(** A refusal changes nothing but the abuse counters and the sender's own queue. *)
Record refused (w w' : World) (c : nat) (conn : Conn) (now code : Z) : Prop := {
  rf_state : st w' = set_abuse (st w) (refused_abuse w conn now);
  rf_conns : conns w' = conns w;
  rf_outs : ∃ msg, outs w' =
    try_send (try_send (outs w) c (RegisterAck false msg
      (if code =? RATE_LIMITED then connected (st w) else registry_len (registry (st w)))))
      c (Error code msg);
  rf_others : pexs w' = pexs w ∧ activity w' = activity w }.

(** What a success makes of the connection's task and of the abuse counters: it keeps the slot just
    reserved, and the slot of an earlier registration is given back. *)
Definition holds_slot (w w' : World) (c : nat) (conn : Conn) (id net : string) (now : Z) : Prop :=
  let ip := sa_ip (c_addr conn) in
  ∃ a1 slot a2,
    allow_registration (policy config) (abuse (st w)) ip now = (true, a1) ∧
    try_acquire_registration (policy config) a1 ip = (Some slot, a2) ∧
    abuse (st w') =
      match c_reg_slot conn with Some old => default a2 (drop_reg_slot a2 old) | None => a2 end ∧
    conns w' = <[c := MkConn (c_phase conn) (c_addr conn) (c_verified conn) (c_ip_slot conn)
                        (MkSession (Some id) (Some net) (s_pex_active (c_session conn)))
                        (c_limiter conn) (Some slot)]> (conns w).

(** A success records the peer, counts it unless it reclaims its id, announces it on its network and
    only there, mirrors it to PEX, updates the session and the slot, and changes nothing else. *)
Record accepted (w w' : World) (c : nat) (conn : Conn) (id net : string) (info : RelayPeerInfo)
    (now : Z) : Prop := {
  ac_registry : registry (st w') = <[id := MkPeer net info c c]> (registry (st w));
  ac_pex : pex (st w') = on_register (pex (st w)) id net (c_addr conn) c now;
  ac_connected : connected (st w') =
    match registry (st w) !! id with
    | Some _ => connected (st w)
    | None => wrap64 (connected (st w) + 1)
    end;
  ac_slot : holds_slot w w' c conn id net now;
  ac_outs : outs w' =
    fan_out
      (try_send (outs w) c (RegisterAck true "registered" (registry_len (registry (st w')))))
      (broadcast_targets (registry (st w')) id net []) (PeerConnected info);
  ac_others : pexs w' = pexs w ∧ activity w' = activity w ∧
    st w' = set_abuse (set_pex (set_connected (set_registry (st w) (registry (st w')))
              (connected (st w'))) (pex (st w'))) (abuse (st w')) }.

Lemma accepted_session w w' c conn id net info now :
  accepted w w' c conn id net info now →
  ∃ conn', conns w' = <[c := conn']> (conns w) ∧
    c_session conn' = MkSession (Some id) (Some net) (s_pex_active (c_session conn)).
Proof. intros [_ _ _ (a1 & sl & a2 & _ & _ & _ & E) _ _]. eexists. split; [exact E|done]. Qed.

Lemma refused_registry w w' c conn now code :
  refused w w' c conn now code → registry (st w') = registry (st w).
Proof. intros [E _ _ _]. by rewrite E. Qed.

Lemma register_peer_cases w c conn id net pv addrs now :
  conns w !! c = Some conn →
  match register_peer config w c conn id net pv addrs now with
  | (false, w') => ∃ code, refusal w conn id now = Some code ∧ refused w w' c conn now code
  | (true, w') => refusal w conn id now = None ∧
      accepted w w' c conn id net (registered_info conn id net pv addrs now) now
  end.
Proof.
  intros Hc. unfold register_peer, refusal.
  destruct (allow_registration _ _ _ _) as [[] a] eqn:Ea; cbn [negb].
  2: { eexists. split; [done|]. split; try done; [|by eexists].
       unfold refused_abuse. by rewrite Ea. }
  cbn [st upd_st abuse set_abuse].
  destruct (try_acquire_registration _ _ _) as [[slot|] a2] eqn:Et; cbn [is_some negb fst].
  2: { eexists. split; [done|]. split; try done; [|by eexists].
       unfold refused_abuse. rewrite Ea. cbn [negb]. by rewrite Et. }
  assert (refused_abuse w conn now = default a2 (drop_reg_slot a2 slot)) as Erf.
  { unfold refused_abuse. rewrite Ea. cbn [negb]. by rewrite Et. }
  unfold register_locked. cbn [st upd_st registry set_abuse].
  destruct (match c_verified conn with Some v => _ | None => false end).
  { eexists. split; [done|]. split; try done; [by rewrite Erf|by eexists]. }
  destruct (max_connections config <=? _).
  { eexists. split; [done|]. split; try done; [by rewrite Erf|by eexists]. }
  fold (registered_info conn id net pv addrs now).
  unfold register. change (tx_closed _) with (tx_closed w).
  destruct (registry (st w) !! id) as [q|] eqn:Hq; [destruct (tx_closed w (peer_tx q)); cbn [negb]|].
  2: { eexists. split; [done|]. split; try done; [by rewrite Erf|by eexists]. }
  all: split; [done|].
  all: destruct (c_reg_slot conn) as [old|] eqn:Eold; split; try done;
    try (by rewrite Hq); (exists a, slot, a2; rewrite Eold; done).
Qed.

Lemma appended_register_peer w c conn id net pv addrs now d after :
  conns w !! c = Some conn → d ≠ c →
  (∀ conn', conns (register_peer config w c conn id net pv addrs now).2 !! c = Some conn' →
     c_session conn' = after) →
  appended (outs w) (outs (register_peer config w c conn id net pv addrs now).2) d
    (legit (registry (st w)) (c_session conn) after d).
Proof.
  intros Hc Hne Hafter. pose proof (register_peer_cases w c conn id net pv addrs now Hc) as Hr.
  destruct (register_peer _ _ _ _ _ _ _ _ _) as [[] w']; simpl in *.
  - destruct Hr as [_ Hok]. pose proof (accepted_session _ _ _ _ _ _ _ _ Hok) as (conn' & Ec & Es).
    destruct Hok as [Er _ _ _ -> _].
    assert (after = MkSession (Some id) (Some net) (s_pex_active (c_session conn))) as ->.
    { rewrite <- Es. symmetry. apply Hafter. by rewrite Ec, lookup_insert_eq. }
    eapply appended_trans; [by apply appended_try_send|].
    apply appended_fan_out. intros Hin. right.
    apply list_elem_of_fmap in Hin as ([id' tx] & -> & Hin).
    apply elem_of_broadcast_targets in Hin as (q & Hq & Htx & Hn & Hne' & _).
    rewrite Er, lookup_insert_ne in Hq by done.
    exists (registered_info conn id net pv addrs now).
    split; [done|]. split; [done|]. split; [|done]. by exists id', q.
  - destruct Hr as (code & _ & [_ _ (msg & ->) _]).
    eapply appended_trans; by apply appended_try_send.
Qed.

Lemma appended_handle_message w c conn msg now d after :
  conns w !! c = Some conn → conn_ok config conn → d ≠ c →
  (∀ conn', conns (handle_message config w c conn msg now).2 !! c = Some conn' →
     c_session conn' = after) →
  appended (outs w) (outs (handle_message config w c conn msg now).2) d
    (legit (registry (st w)) (c_session conn) after d).
Proof.
  intros Hc Hok Hne. unfold handle_message.
  set (w2 := match msg with DhtRecords _ _ _ => _ | _ => upd_st _ w end).
  assert (conns w2 = conns w ∧ outs w2 = outs w ∧ registry (st w2) = registry (st w))
    as (Ec & Eo & Er).
  { unfold w2. destruct msg; try done; [by destruct success|by destruct (is_some _)]. }
  rewrite <- Ec in Hc. rewrite <- Eo, <- Er. clearbody w2. clear Ec Eo Er w. rename w2 into w.
  assert (∀ m to ex from n,
    dispatch (c_session conn) msg = ForwardTo to m ∨
    dispatch (c_session conn) msg = ActBroadcast from ex m →
    s_network_id (c_session conn) = Some n → on_network (registry (st w)) d n →
    legit (registry (st w)) (c_session conn) after d m) as Hlegit.
  { intros m to ex from n Hd Hn Hon. left.
    pose proof (co_complete _ _ Hok) as Hcomp. rewrite Hn in Hcomp.
    destruct (s_peer_id (c_session conn)) as [me|] eqn:Hme; [|done].
    exists me, n. split_and!; try done.
    destruct Hd as [Hd|Hd]; [by eapply dispatch_forward|by eapply dispatch_broadcast]. }
  destruct msg as [| | | | | | | |pl| | | | | | | |]; try (intros _; by apply appended_try_send);
    (destruct (dispatch (c_session conn) _) as [ms0|id0 n0 v0 l0|to0 m0|from0 ex0 m0| | |code0 m0] eqn:Hd;
     cbn [snd]; intros Hafter;
     [ by apply appended_send_all
     | by apply appended_register_peer
     | apply appended_forward_to; [done|]; intros n Hn Hon;
         by eapply (Hlegit m0 to0 [] EmptyString n); eauto
     | apply appended_broadcast; intros n Hn Hon;
         by eapply (Hlegit m0 EmptyString ex0 from0 n); eauto
     | apply appended_refl | apply appended_refl
     | by apply appended_try_send ]).
Qed.

Lemma appended_handle_frame w c conn frame now mono d after :
  conns w !! c = Some conn → conn_ok config conn → d ≠ c →
  (∀ conn', conns (handle_frame config w c conn frame now mono).2 !! c = Some conn' →
     c_session conn' = after) →
  appended (outs w) (outs (handle_frame config w c conn frame now mono).2) d
    (legit (registry (st w)) (c_session conn) after d).
Proof.
  intros Hc Hok Hne. unfold handle_frame. destruct (admit_frame _ _ _) as [verdict lim].
  set (w1 := set_conn _ _ _). set (conn1 := set_limiter conn lim).
  assert (conns w1 !! c = Some conn1) as Hc1 by (simpl; apply lookup_insert_eq).
  assert (conn_ok config conn1) as Hok1.
  { destruct Hok as [E1 E2 E3 E4 E5]. by split. }
  change (outs w) with (outs w1). change (registry (st w)) with (registry (st w1)).
  change (c_session conn) with (c_session conn1). clearbody w1 conn1.
  destruct verdict; cbn [snd]; [|intros _; apply appended_refl].
  destruct (is_pex_frame frame); cbn [snd].
  { intros _. unfold handle_pex_frame.
    destruct (pex_dispatch _ _) as [|msg|msg| |]; try apply appended_refl.
    - by apply appended_try_send.
    - destruct (on_node_handshake _ _ _ _ _). apply appended_refl.
    - destruct (on_node_message _ _ _ _ _). apply appended_refl.
    - destruct (on_node_bad_frame _ _ _ _). apply appended_refl. }
  destruct (relay_from_slice frame) as [msg|]; cbn [snd].
  - by apply appended_handle_message.
  - intros _. by apply appended_try_send.
Qed.
End routing.

(** ** Departures *)

Section departures.
Context `{HO : HashOrder} `{DP : DigPex} `{ML : MpscLaws} (config : RelayServerConfig).

Lemma remove_locked_cases s id net :
  remove_locked s id net =
    match registry s !! id with
    | Some _ =>
        (Some (broadcast_targets (delete id (registry s)) id net []),
         set_connected (set_registry s (delete id (registry s))) (wrap64 (connected s - 1)))
    | None => (None, s)
    end.
Proof. unfold remove_locked, unregister. by destruct (registry s !! id). Qed.

(** The ids [remove_victims] is asked to remove are gone afterwards and all others are kept. *)
Lemma remove_victims_registry s victims id :
  registry (remove_victims s victims).2 !! id =
    if bool_decide (id ∈ victims.*1) then None else registry s !! id.
Proof.
  revert s. induction victims as [|[v net] victims IH]; intros s; simpl; [done|].
  destruct (remove_locked s v net) as [ts s1] eqn:Hr.
  specialize (IH s1). destruct (remove_victims s1 victims) as [pruned s2]. simpl in *.
  rewrite IH. rewrite remove_locked_cases in Hr.
  assert (registry s1 = delete v (registry s)) as ->.
  { destruct (registry s !! v) eqn:E; simplify_eq/=; [done|]. by rewrite delete_id. }
  destruct (decide (id = v)) as [->|Hne].
  - rewrite lookup_delete_eq. rewrite (bool_decide_eq_true_2 (v ∈ v :: _)) by by left.
    by case_bool_decide.
  - rewrite lookup_delete_ne by done.
    rewrite (bool_decide_ext (id ∈ v :: _) (id ∈ victims.*1)); [done|].
    rewrite elem_of_cons. split; [by intros [?|?]|by right].
Qed.

(** Every victim that is registered is pruned, under its own id and network. *)
Lemma remove_victims_pruned s victims :
  NoDup victims.*1 → (∀ id net, (id, net) ∈ victims → is_Some (registry s !! id)) →
  (remove_victims s victims).1.*1 = victims.
Proof.
  revert s. induction victims as [|[v net] victims IH]; intros s Hnd Hin; simpl; [done|].
  apply NoDup_cons in Hnd as [Hv Hnd]. simpl in Hv.
  rewrite remove_locked_cases. destruct (Hin v net) as [q Hq]; [by left|]. rewrite Hq.
  match goal with |- context [remove_victims ?x victims] => specialize (IH x) end.
  destruct (remove_victims _ victims) as [pruned s2]. simpl in *. f_equal. apply IH; [done|].
  intros id n Hn. rewrite lookup_delete_ne; [apply (Hin id n); by right|].
  intros ->. apply Hv. apply list_elem_of_fmap. by exists (id, n).
Qed.

Lemma announce_all_registry w pruned :
  registry (st (foldl (λ w p, announce_departure w p.1.1 p.1.2 p.2) w pruned)) = registry (st w).
Proof.
  revert w. induction pruned as [|p pruned IH]; intros w; simpl; [done|]. by rewrite IH.
Qed.

Lemma announce_all_gone w (pruned : list (string * string * list (string * nat))) id net :
  (id ∉ mirrored (pex (st w)) net ∨ (id, net) ∈ pruned.*1) →
  id ∉ mirrored
    (pex (st (foldl (λ w p, announce_departure w p.1.1 p.1.2 p.2) w pruned))) net.
Proof.
  revert w. induction pruned as [|[[id' net'] ts] pruned IH]; intros w Hor; simpl.
  { destruct Hor as [?|Hin]; [done|]. by apply not_elem_of_nil in Hin. }
  apply IH. simpl. rewrite mirrored_on_unregister.
  destruct Hor as [Hn|[E|Hin]%elem_of_cons]; [| |by right].
  - left. case_bool_decide; set_solver.
  - left. simplify_eq/=. rewrite bool_decide_eq_true_2 by done. set_solver.
Qed.

Lemma announce_all_conn_gone w (pruned : list (string * string * list (string * nat))) id :
  (pex_conns (pex (st w)) !! id = None ∨ id ∈ pruned.*1.*1) →
  pex_conns (pex (st (foldl (λ w p, announce_departure w p.1.1 p.1.2 p.2) w pruned))) !! id = None.
Proof.
  revert w. induction pruned as [|[[id' net'] ts] pruned IH]; intros w Hor; simpl.
  { destruct Hor as [?|Hin]; [done|]. by apply not_elem_of_nil in Hin. }
  apply IH. unfold announce_departure. cbn [st upd_st set_outs pex set_pex fst snd].
  rewrite pex_conns_on_unregister.
  destruct (decide (id = id')) as [->|Hne]; [left; apply lookup_delete_eq|].
  rewrite lookup_delete_ne by done.
  destruct Hor as [Hn|[E|Hin]%elem_of_cons]; [by left|done|by right].
Qed.

Lemma announce_all_appended w (pruned : list (string * string * list (string * nat))) d :
  appended (outs w)
    (outs (foldl (λ w p, announce_departure w p.1.1 p.1.2 p.2) w pruned)) d
    (λ m, ∃ p, p ∈ pruned ∧ m = PeerDisconnected p.1.1 ∧ d ∈ p.2.*2).
Proof.
  revert w. induction pruned as [|p pruned IH]; intros w; simpl; [apply appended_refl|].
  eapply appended_trans.
  - apply appended_fan_out. intros Hin. exists p. split; [by left|done].
  - eapply appended_weaken; [|apply IH]. intros m (p' & Hp' & Hm). exists p'. split; [by right|done].
Qed.
End departures.

(** ** Counting the live connections of a source *)

Definition from_source (k : IpKey) (conn : Conn) : Prop := ip_key (sa_ip (c_addr conn)) = k.

Global Instance from_source_dec k conn : Decision (from_source k conn).
Proof. unfold from_source. apply _. Defined.

Definition conns_from (k : IpKey) (m : gmap nat Conn) : Z :=
  Z.of_nat (length (filter (from_source k) (map_to_list m).*2)).

(** Those of them that hold a registration. *)
Definition registered_from (k : IpKey) (m : gmap nat Conn) : Z :=
  Z.of_nat (length (filter (λ conn, from_source k conn ∧ is_some (s_peer_id (c_session conn)) = true)
    (map_to_list m).*2)).

(** The ids that are the current registration of a live connection of the source. *)
Definition current_from `{DigPex, Mpsc} (k : IpKey) (w : World) : gset string :=
  list_to_set (omap
    (λ p : string * Peer,
       conn ← conns w !! peer_tx p.2;
       if bool_decide (from_source k conn ∧ s_peer_id (c_session conn) = Some p.1) then Some p.1
       else None)
    (map_to_list (registry (st w)))).

Lemma elem_of_current_from `{DigPex, Mpsc} k w id :
  id ∈ current_from k w ↔ ∃ q conn, registry (st w) !! id = Some q ∧
    conns w !! peer_tx q = Some conn ∧ from_source k conn ∧ s_peer_id (c_session conn) = Some id.
Proof.
  unfold current_from. rewrite elem_of_list_to_set, list_elem_of_omap. split.
  - intros ([id' q] & Hq%elem_of_map_to_list & E). simpl in E.
    apply bind_Some in E as (conn & Hc & E). case_bool_decide as Hs; [|done].
    injection E as ->. destruct Hs. by exists q, conn.
  - intros (q & conn & Hq & Hc & Hf & Hs). exists (id, q). simpl. rewrite elem_of_map_to_list, Hc. simpl.
    split; [done|]. by rewrite bool_decide_eq_true_2.
Qed.

Lemma size_list_to_set_le (l : list string) : (size (list_to_set l : gset string) ≤ length l)%nat.
Proof.
  induction l as [|x l IH]; [done|]. cbn [list_to_set length].
  rewrite size_union_alt, size_singleton.
  pose proof (subseteq_size (list_to_set l ∖ {[x]} : gset string) (list_to_set l) ltac:(set_solver)). lia.
Qed.

(** Each of them is the session's id of a connection of its own. *)
Lemma current_registered `{DigPex, Mpsc} k w :
  Z.of_nat (size (current_from k w)) ≤ registered_from k (conns w).
Proof.
  unfold registered_from. apply inj_le.
  set (cs := filter _ (map_to_list (conns w)).*2).
  transitivity (length (omap (λ conn, s_peer_id (c_session conn)) cs)).
  2: { clearbody cs. induction cs as [|x l IH]; [done|]. cbn [omap list_omap length].
       destruct (s_peer_id (c_session x)); cbn [length]; lia. }
  etransitivity; [|apply size_list_to_set_le]. apply subseteq_size. intros id Hid.
  apply elem_of_current_from in Hid as (q & conn & _ & Hc & Hf & Hs).
  apply elem_of_list_to_set, list_elem_of_omap. exists conn. split; [|done].
  apply list_elem_of_filter. split; [by rewrite Hs|].
  apply list_elem_of_fmap. exists (peer_tx q, conn). split; [done|]. by apply elem_of_map_to_list.
Qed.

Section counting.
Context (config : RelayServerConfig).

Lemma conns_ok_list (m : gmap nat Conn) :
  map_Forall (λ _, conn_ok config) m → Forall (conn_ok config) (map_to_list m).*2.
Proof.
  intros Hm. apply Forall_fmap, Forall_forall. intros [c conn] Hin. simpl.
  apply elem_of_map_to_list in Hin. by eapply Hm.
Qed.

Lemma live_count_ip_slots k m :
  max_connections_per_ip config ≠ 0 → map_Forall (λ _, conn_ok config) m →
  live_count k (ip_slots m) = conns_from k m.
Proof.
  intros Hcap Hm%conns_ok_list. unfold ip_slots, conns_from.
  induction Hm as [|conn l Hok _ IH]; [done|]. cbn [fmap list_fmap].
  rewrite live_count_cons. change (list_fmap _ _ c_ip_slot l) with (c_ip_slot <$> l).
  rewrite IH, filter_cons, (co_ip_slot _ _ Hok). unfold slot_for, from_source. simpl.
  rewrite (proj2 (Z.eqb_neq _ _) Hcap). simpl.
  case_bool_decide as E; [destruct E as [_ E]; rewrite decide_True by done|
    rewrite decide_False by (intros ?; by apply E)]; simpl; lia.
Qed.

Lemma live_count_reg_slots k m :
  max_registrations_per_ip config ≠ 0 → map_Forall (λ _, conn_ok config) m →
  live_count k (reg_slots m) = registered_from k m.
Proof.
  intros Hcap Hm%conns_ok_list. unfold reg_slots, registered_from.
  induction Hm as [|conn l Hok _ IH]; [done|].
  assert (omap c_reg_slot (conn :: l) = slot_list (c_reg_slot conn) ++ omap c_reg_slot l) as ->
    by (simpl; by destruct (c_reg_slot conn)).
  rewrite (co_reg_slot _ _ Hok), filter_cons. destruct (is_some (s_peer_id (c_session conn))) eqn:Es.
  - cbn [slot_list app]. rewrite live_count_cons, IH. unfold slot_for. simpl.
    rewrite (proj2 (Z.eqb_neq _ _) Hcap). simpl. unfold from_source in *.
    case_bool_decide as E; [destruct E as [_ E]; rewrite decide_True by done|
      rewrite decide_False by (intros [? _]; by apply E)]; simpl; lia.
  - cbn [slot_list app]. rewrite IH, decide_False; [done|]. by intros [_ ?].
Qed.
End counting.

(** ** Properties *)

Section properties.
Context `{HO : HashOrder, DI : DigIp} `{DP : DigPex} `{ML : MpscLaws} {SD : Serde} (config : RelayServerConfig).

(** C6: in every reachable state the published peer count is the number of registrations, which never
    exceeds the connection cap; the open-connection count is the number of live connection tasks; no
    source holds more live connections than its per-IP cap; and what the registration cap bounds is
    the connections of a source that have registered, and so the records that are the current
    registration of a live connection of the source. (A record a connection left by registering again
    under another id is not among them: only the connection cap bounds the records of a source.) *)
Theorem reachable_counts w :
  good_config config → reachable config w →
  connected (st w) = registry_len (registry (st w)) ∧
  registry_len (registry (st w)) ≤ max_connections config ∧
  open_connections (st w) = Z.of_nat (size (conns w)) ∧
  (max_connections_per_ip config ≠ 0 → ∀ k, conns_from k (conns w) ≤ max_connections_per_ip config) ∧
  (max_registrations_per_ip config ≠ 0 →
     ∀ k, Z.of_nat (size (current_from k w)) ≤ registered_from k (conns w) ∧
          registered_from k (conns w) ≤ max_registrations_per_ip config).
Proof.
  intros Hg Hr. destruct (Inv_reachable config Hg w Hr) as [HR HC _ [H1 H2 [_ H3] [_ H4]] _].
  split_and!; try apply HR; try done.
  - intros Hcap k. rewrite <- (live_count_ip_slots config) by done. auto.
  - intros Hcap k. split; [apply current_registered|].
    rewrite <- (live_count_reg_slots config) by done. auto.
Qed.

(** C10: in every reachable state a registration is coherent: it is filed under the id and network it
    publishes, its channel exists, and it is mirrored to PEX: the engine of its own network was told
    of it and has not been told to forget it since, and a PEX sender is on record. The engines are in
    the states these calls lead to. *)
Theorem registered_peers_coherent w id q :
  good_config config → reachable config w → registry (st w) !! id = Some q →
  pi_peer_id (peer_info q) = id ∧ pi_network_id (peer_info q) = peer_network_id q ∧
  is_Some (outs w !! peer_tx q) ∧ peer_last_activity q = peer_tx q ∧
  id ∈ mirrored (pex (st w)) (peer_network_id q) ∧
  is_Some (pex_conns (pex (st w)) !! id) ∧
  replays (pex (st w)).
Proof.
  intros Hg Hr Hq. destruct (Inv_reachable config Hg w Hr) as [[Hwf _ _ Ht Hrep Ha Hp] _ _ _ _].
  destruct (Hwf _ _ Hq) as [E1 E2]. destruct (Ht _ _ Hq) as [E3 E4%elem_of_dom].
  split_and!; eauto.
Qed.

(** C2: proof of possession. In every reachable state, an id registered by a connection that
    presented a client certificate is the identity that certificate proves, and so is the id of the
    connection's session. *)
Theorem certificate_binds_identity w c conn v :
  good_config config → reachable config w → conns w !! c = Some conn → c_verified conn = Some v →
  (∀ id q, registry (st w) !! id = Some q → peer_tx q = c → id = v) ∧
  (∀ id, s_peer_id (c_session conn) = Some id → id = v).
Proof.
  intros Hg Hr Hc Hv. destruct (Inv_reachable config Hg w Hr) as [_ HC HP _ _].
  split.
  - intros id q Hq <-. by eapply HP.
  - intros id Hid. by eapply (co_proved _ _ (HC _ _ Hc)).
Qed.

(** Bounded memory per connection. In every reachable state no outbound queue, relay or PEX,
    holds more messages than the configured capacity, whatever other peers send. *)
Theorem queues_bounded w c :
  good_config config → reachable config w →
  Z.of_nat (length (queue (outs w) c)) ≤ outbound_queue_capacity config ∧
  Z.of_nat (length (queue (pexs w) c)) ≤ outbound_queue_capacity config.
Proof.
  intros Hg Hr. destruct (Inv_reachable config Hg w Hr) as [_ _ _ _ [Ho Hp _ _]].
  destruct Hg as (_ & _ & Hcap). unfold queue. split.
  - destruct (outs w !! c) as [ch|] eqn:E; [|simpl; lia].
    destruct (Ho _ _ E) as [<- Hok]. exact Hok.
  - destruct (pexs w !! c) as [ch|] eqn:E; [|simpl; lia].
    destruct (Hp _ _ E) as [<- Hok]. exact Hok.
Qed.

(** C1: no impersonation and no cross-network delivery. Whatever frame a connection sends, what it
    adds to another connection's queue is, in order, messages authored by its own registered id to
    a connection serving its own network, or the announcement of the registration the frame just
    made to that network. *)
Theorem frames_cannot_spoof w c conn frame now mono conn' d :
  good_config config → reachable config w → conns w !! c = Some conn → d ≠ c →
  conns (handle_frame config w c conn frame now mono).2 !! c = Some conn' →
  appended (outs w) (outs (handle_frame config w c conn frame now mono).2) d
    (legit (registry (st w)) (c_session conn) (c_session conn') d).
Proof.
  intros Hg Hr Hc Hne Hc'. pose proof (inv_conns _ _ _ (Inv_reachable config Hg w Hr) _ _ Hc).
  apply appended_handle_frame; [done..|]. intros cn Hcn. by rewrite Hcn in Hc'; simplify_eq.
Qed.

(** C7: nothing before registration. A frame of a connection that has not registered, other than a
    [Register], changes no registration, no PEX state, no DHT answer and no other connection's
    queue, and leaves the connection unregistered. *)
Theorem unregistered_frames_inert w c conn frame now mono :
  s_peer_id (c_session conn) = None → conns w !! c = Some conn →
  (∀ id n v l, relay_from_slice frame ≠ Some (Register id n v l)) →
  let w' := (handle_frame config w c conn frame now mono).2 in
  registry (st w') = registry (st w) ∧ connected (st w') = connected (st w) ∧
  pex (st w') = pex (st w) ∧ dht_answers (st w') = dht_answers (st w) ∧
  (∀ d, d ≠ c → outs w' !! d = outs w !! d ∧ pexs w' !! d = pexs w !! d) ∧
  ∀ conn', conns w' !! c = Some conn' → c_session conn' = c_session conn.
Proof.
  intros Hs Hc Hreg w'. unfold w', handle_frame. clear w'.
  destruct (admit_frame _ _ _) as [verdict lim].
  destruct verdict; cbn [snd].
  2: { simpl. rewrite lookup_insert_eq. split_and!; try done. by intros ? [= <-]. }
  destruct (is_pex_frame frame); cbn [snd].
  { unfold handle_pex_frame, pex_dispatch. cbn [set_limiter c_session]. rewrite Hs. simpl.
    rewrite lookup_insert_eq. split_and!; try done; [|by intros ? [= <-]].
    intros d Hd. by rewrite try_send_ne. }
  destruct (relay_from_slice frame) as [msg|]; cbn [snd].
  2: { simpl. rewrite lookup_insert_eq. split_and!; try done; [|by intros ? [= <-]].
       intros d Hd. by rewrite try_send_ne. }
  unfold handle_message. cbn [set_limiter c_session].
  rewrite dispatch_unregistered by done. rewrite Hs. cbn [is_some].
  destruct msg; cbn [snd]; try (by destruct (Hreg peer_id network_id protocol_version listen_addrs));
    simpl; rewrite lookup_insert_eq;
    (split_and!; try done; try (by destruct success);
     [intros d Hd; by rewrite try_send_ne|by intros ? [= <-]]).
Qed.

(** C8: [register_peer] on every branch, to the whole state it leaves. It is refused exactly when one of
    its checks fails, with the code of the first one (rate or concurrent-registration limit, identity
    mismatch, relay full, id held by a live peer). Then the abuse counters have a strike if it was a
    limit and the reserved slot given back otherwise, its own queue has a failing acknowledgement and
    the error, and nothing else changes. Otherwise the peer is recorded, counted unless it reclaims
    its id, announced to the same-network peers and acknowledged, told to PEX, the session has the id
    and network, the task holds the new registration slot instead of an earlier one, and nothing else
    changes. *)
Theorem register_peer_exact w c conn id net pv addrs now :
  conns w !! c = Some conn →
  match register_peer config w c conn id net pv addrs now with
  | (false, w') => ∃ code, refusal config w conn id now = Some code ∧
      refused config w w' c conn now code
  | (true, w') => refusal config w conn id now = None ∧
      accepted config w w' c conn id net (registered_info conn id net pv addrs now) now
  end.
Proof. apply register_peer_cases. Qed.

(** C9: the health sweep prunes exactly the registrations whose channel is closed or which have been
    silent longer than the deadline, keeps every other record untouched, and takes the pruned peers
    out of PEX; the only messages it sends are the departures of pruned peers. *)
Theorem sweep_prunes_exactly w now :
  let w' := sweep_once config w now in
  let pruned id := ∃ q, registry (st w) !! id = Some q ∧
    reclaimable (tx_closed w) (activity_load w) now (as_secs (liveness_deadline config)) q = true in
  (∀ id q, registry (st w') !! id = Some q ↔ registry (st w) !! id = Some q ∧ ¬ pruned id) ∧
  (∀ id q, registry (st w) !! id = Some q → pruned id →
     (id ∉ mirrored (pex (st w')) (peer_network_id q)) ∧
     pex_conns (pex (st w')) !! id = None) ∧
  (∀ d, appended (outs w) (outs w') d (λ m, ∃ id, pruned id ∧ m = PeerDisconnected id)).
Proof.
  intros w' pruned. unfold w', sweep_once.
  set (victims := dead_or_stale _ _ _ _ _).
  assert (∀ id, id ∈ victims.*1 ↔ pruned id) as Hv.
  { intros id. rewrite list_elem_of_fmap. split.
    - intros ([id' n] & -> & Hin). apply elem_of_dead_or_stale in Hin as (q & Hq & _ & Hrc).
      by exists q.
    - intros (q & Hq & Hrc). exists (id, peer_network_id q). split; [done|].
      apply elem_of_dead_or_stale. eauto. }
  assert ((remove_victims (st w) victims).1.*1 = victims) as Hpr.
  { apply remove_victims_pruned; [apply NoDup_fst_select|].
    intros id n Hin. apply elem_of_dead_or_stale in Hin as (q & Hq & _). eauto. }
  pose proof (λ id, remove_victims_registry (st w) victims id) as Hreg.
  destruct (remove_victims (st w) victims) as [pr s]. simpl in Hpr, Hreg.
  split_and!.
  - intros id q. rewrite announce_all_registry. simpl. rewrite Hreg.
    case_bool_decide as Hin; rewrite Hv in Hin; [split; [done|tauto]|tauto].
  - intros id q Hq Hp. apply Hv in Hp as Hin.
    apply list_elem_of_fmap in Hin as ([id' n] & -> & Hin). simpl in *.
    assert (n = peer_network_id q) as ->.
    { apply elem_of_dead_or_stale in Hin as (q' & Hq' & <- & _). congruence. }
    split.
    + apply announce_all_gone. right. by rewrite Hpr.
    + apply announce_all_conn_gone. right. rewrite Hpr. apply list_elem_of_fmap. by eexists (_, _).
  - intros d. eapply appended_weaken; [|apply (announce_all_appended (upd_st (λ _, s) w))].
    intros m (p & Hp & -> & _). exists p.1.1. split; [|done].
    apply Hv. rewrite <- Hpr. do 2 apply list_elem_of_fmap_2. done.
Qed.

(** A peer's pings, the liveness the relay's own deadline goes by, do not reach PEX: the time its engine
    was last told of the peer stays that of the registration or of the peer's [pex_handshake]. *)
Theorem pings_do_not_refresh_pex w c conn ts now :
  is_some (s_peer_id (c_session conn)) = true →
  pex (st (handle_message config w c conn (Ping ts) now).2) = pex (st w).
Proof.
  intros Hs. unfold handle_message. simpl. unfold dispatch.
  destruct (s_peer_id (c_session conn)); done.
Qed.

(** C28: behind a load balancer. A source outside the configured proxies keeps its observed address
    and its byte stream, whatever it sends; a configured proxy's v2 header yields exactly the
    client address it declares and the payload that follows it. *)
Theorem resolve_source_exact stream timed_out addr src sport dst dport tlvs payload :
  Forall wf_cidr (trusted_proxies config) → wf_ip (sa_ip addr) →
  is_ipv4 src = is_ipv4 dst → (length tlvs ≤ 900)%nat →
  (¬ (Exists (λ c, in_block c (sa_ip addr)) (trusted_proxies config)) →
     resolve_source config stream timed_out addr = Some (prefixed_new [] stream, addr)) ∧
  (Exists (λ c, in_block c (sa_ip addr)) (trusted_proxies config) →
     resolve_source config (encode_v2 src sport dst dport tlvs ++ payload) false addr =
       Some (prefixed_new [] payload, sa_new src sport)).
Proof.
  intros Hwf Hip Hfam Hlen. unfold resolve_source. rewrite trusts_spec_aux by done. split.
  - intros Hn. by rewrite bool_decide_eq_false_2.
  - intros Hy. rewrite bool_decide_eq_true_2 by done. by rewrite read_source_addr_encoded.
Qed.
End properties.
