(* ===== verification/Mailbox.v ===== *)
(** * The relay as a service of mailboxes

    What the relay promises its clients, without its limits, its PEX and DHT overlays and its
    statistics: a directory of members, each on a network and served by a mailbox; bounded
    mailboxes that are emptied by their owners; sessions that may speak to members of their network
    under their own name, and only so. Refinement.v shows that the server (src/src/server.rs)
    implements it, event by event. *)

From S2P Require Import Prelude Wire.

Record Box := MkBox { bx_open : bool; bx_mail : list RelayMessage }.

(** What a connection has proved and claimed. *)
Record Sess := MkSess {
  se_proved : option string; se_id : option string; se_network : option string }.

Record Service := MkService {
  members : gmap string (string * nat);
  boxes : gmap nat Box;
  sessions : gmap nat Sess;
  seen : gmap nat Z }.

Definition service_new : Service := MkService ∅ ∅ ∅ ∅.

Definition set_members (s : Service) m : Service := MkService m (boxes s) (sessions s) (seen s).
Definition set_boxes (s : Service) b : Service := MkService (members s) b (sessions s) (seen s).
Definition set_sessions (s : Service) x : Service := MkService (members s) (boxes s) x (seen s).
Definition set_seen (s : Service) t : Service := MkService (members s) (boxes s) (sessions s) t.

Definition box_closed (s : Service) (d : nat) : bool :=
  match boxes s !! d with Some b => negb (bx_open b) | None => true end.

(** ** Messages *)

(** What the relay says for itself to the connection that asked. *)
Definition answer (m : RelayMessage) : bool :=
  match m with RegisterAck _ _ _ | Error _ _ | Peers _ | Pong _ => true | _ => false end.

(** What the member [me] may say to the member [to]. *)
Definition directed (me to : string) (m : RelayMessage) : Prop :=
  match m with
  | RelayGossipMessage from to' _ _ => from = me ∧ to' = to
  | HolePunchCoordinate peer_id _ => peer_id = me
  | HolePunchResult peer_id _ => peer_id = to
  | _ => False
  end.

Section mailbox.
(** The capacity of a mailbox, the number of members, and the silence after which a member may be
    removed. *)
Context (capacity limit deadline : Z).

(** ** Mail *)

Definition deliver (m : RelayMessage) (b : Box) : Box :=
  if bx_open b && (Z.of_nat (length (bx_mail b)) <? capacity)
  then MkBox true (bx_mail b ++ [m]) else b.

Definition post (s : Service) (d : nat) (m : RelayMessage) : Service :=
  set_boxes s (alter (deliver m) d (boxes s)).

Definition tell (s : Service) (ds : list nat) (m : RelayMessage) : Service :=
  foldl (λ s d, post s d m) s ds.

(** The boxes of the members of a network but some. *)
Definition others (ms : gmap string (string * nat)) (n : string) (except : list string)
    : list nat :=
  (filter (λ e, e.2.1 = n ∧ e.1 ∉ except) (map_to_list ms)).*2.*2.

(** ** Who does what *)

(** [Client c] is the connection [c]: its frames, its writer and its end; [Sweeper] the removal of
    silent members at a time; [Crawler] the question for DHT records. *)
Inductive Actor : Type := Client (c : nat) | Sweeper (now : Z) | Crawler | Nobody.

#[global] Instance Actor_eq_dec : EqDecision Actor.
Proof. solve_decision. Defined.

(** An id can be taken if nobody has it, or a member whose mailbox is closed. *)
Definition free (s : Service) (id : string) : Prop :=
  match members s !! id with Some q => box_closed s q.2 = true | None => True end.

Definition joined (s : Service) (c : nat) (x : Sess) (id n : string) : Service :=
  set_sessions (set_members s (<[id := (n, c)]> (members s)))
    (<[c := MkSess (se_proved x) (Some id) (Some n)]> (sessions s)).

Definition removed (s : Service) (id : string) : Service := set_members s (delete id (members s)).

Inductive action : Actor → Service → Service → Prop :=
(** A connection arrives, having proved an identity or not, and later gets its mailbox. *)
| act_enter c v s :
    sessions s !! c = None → boxes s !! c = None →
    action (Client c) s (set_sessions s (<[c := MkSess v None None]> (sessions s)))
| act_open c t x s :
    sessions s !! c = Some x → boxes s !! c = None →
    action (Client c) s
      (set_seen (set_boxes s (<[c := MkBox true []]> (boxes s))) (<[c := t]> (seen s)))
(** It is heard of, and answered. *)
| act_seen c t s : action (Client c) s (set_seen s (<[c := t]> (seen s)))
| act_answer c m s : answer m = true → action (Client c) s (post s c m)
(** It joins under an id it did not disprove and that is free, while there is room: everybody else
    on the network is told. *)
| act_join c x id n info ack ds s :
    sessions s !! c = Some x → is_Some (boxes s !! c) →
    (∀ v, se_proved x = Some v → id = v) → free s id →
    Z.of_nat (size (members s)) < limit → answer ack = true →
    pi_peer_id info = id → pi_network_id info = n →
    ds ≡ₚ others (members (joined s c x id n)) n [id] →
    action (Client c) s (tell (post (joined s c x id n) c ack) ds (PeerConnected info))
(** It speaks to a member of its network, or to all others, as the member it is. *)
| act_speak c x me n to d m s :
    sessions s !! c = Some x → se_id x = Some me → se_network x = Some n →
    members s !! to = Some (n, d) → directed me to m →
    action (Client c) s (post s d m)
| act_broadcast c x me n except payload ds s :
    sessions s !! c = Some x → se_id x = Some me → se_network x = Some n →
    ds ≡ₚ others (members s) n (me :: except) →
    action (Client c) s (tell s ds (Broadcast me payload []))
(** Its member leaves, or is removed for silence or a closed mailbox: the rest of the network is
    told. *)
| act_leave c x id n ds s :
    sessions s !! c = Some x → se_id x = Some id → se_network x = Some n →
    is_Some (members s !! id) → ds ≡ₚ others (members (removed s id)) n [id] →
    action (Client c) s (tell (removed s id) ds (PeerDisconnected id))
| act_prune now id n d ds s :
    members s !! id = Some (n, d) →
    box_closed s d = true ∨ deadline < sat_sub now (default 0 (seen s !! d)) →
    ds ≡ₚ others (members (removed s id)) n [id] →
    action (Sweeper now) s (tell (removed s id) ds (PeerDisconnected id))
(** All members are asked for their records. *)
| act_ask k ds s :
    ds ≡ₚ (map_to_list (members s)).*2.*2 → action Crawler s (tell s ds (GetDhtRecords k))
(** The owner takes the oldest message, closes its mailbox, and goes. *)
| act_take c open m rest s :
    boxes s !! c = Some (MkBox open (m :: rest)) →
    action (Client c) s (set_boxes s (<[c := MkBox open rest]> (boxes s)))
| act_close c b s :
    boxes s !! c = Some b →
    action (Client c) s (set_boxes s (<[c := MkBox false []]> (boxes s)))
| act_exit c s :
    box_closed s c = true → action (Client c) s (set_sessions s (delete c (sessions s))).

(** The states of the service. *)
Inductive service_reachable : Service → Prop :=
| service_init : service_reachable service_new
| service_step a s s' : service_reachable s → action a s s' → service_reachable s'.

Lemma service_steps a s s' :
  service_reachable s → rtc (action a) s s' → service_reachable s'.
Proof. intros Hs Hst. induction Hst; [done|]. by eapply IHHst, service_step. Qed.

(** ** Mail does not touch anything else *)

Lemma post_members s d m : members (post s d m) = members s.
Proof. done. Qed.

Lemma tell_frame s ds m :
  members (tell s ds m) = members s ∧ sessions (tell s ds m) = sessions s ∧
  seen (tell s ds m) = seen s ∧ ∀ d, box_closed (tell s ds m) d = box_closed s d.
Proof.
  revert s. unfold tell. induction ds as [|d ds IH]; intros s; simpl; [done|].
  destruct (IH (post s d m)) as (-> & -> & -> & E). split_and!; [done..|].
  intros d'. rewrite E. unfold box_closed, post. simpl.
  destruct (decide (d' = d)) as [->|Hne]; [|by rewrite lookup_alter_ne].
  rewrite lookup_alter_eq. destruct (boxes s !! d) as [b|]; [|done]. simpl. unfold deliver.
  destruct (bx_open b) eqn:E'; simpl; [|by rewrite E']. destruct (_ <? _); simpl; by rewrite ?E'.
Qed.

(** ** What the service guarantees *)

(** A member's mailbox exists; a member of a connection that proved an identity has that one; the
    directory has a bound; mailboxes have another. *)
Record service_ok (s : Service) : Prop := {
  sv_boxes id n d : members s !! id = Some (n, d) → is_Some (boxes s !! d);
  sv_proved id n d x v :
    members s !! id = Some (n, d) → sessions s !! d = Some x → se_proved x = Some v → id = v;
  sv_size : Z.of_nat (size (members s)) ≤ limit;
  sv_mail d b : boxes s !! d = Some b → Z.of_nat (length (bx_mail b)) ≤ capacity }.

Hypothesis Hcap : 0 ≤ capacity.

Lemma service_ok_boxes s bs :
  service_ok s → (∀ d, is_Some (boxes s !! d) → is_Some (bs !! d)) →
  (∀ d b, bs !! d = Some b → Z.of_nat (length (bx_mail b)) ≤ capacity) →
  service_ok (set_boxes s bs).
Proof. intros [H1 H2 H3 H4] Hd Hm. split; simpl; eauto. Qed.

Lemma deliver_length m b :
  Z.of_nat (length (bx_mail b)) ≤ capacity → Z.of_nat (length (bx_mail (deliver m b))) ≤ capacity.
Proof.
  intros Hb. unfold deliver. destruct (bx_open b); simpl; [|done].
  destruct (Z.ltb_spec (Z.of_nat (length (bx_mail b))) capacity); [|done].
  simpl. rewrite length_app. simpl. lia.
Qed.

Lemma service_ok_post s d m : service_ok s → service_ok (post s d m).
Proof.
  intros Hs. apply service_ok_boxes; [done| |].
  - intros d' Hd'. by rewrite lookup_alter_is_Some.
  - intros d' b [[-> (b' & Hb & ->)]|[_ Hb]]%lookup_alter_Some.
    + by eapply deliver_length, sv_mail.
    + by eapply sv_mail.
Qed.

Lemma service_ok_tell s ds m : service_ok s → service_ok (tell s ds m).
Proof.
  revert s. unfold tell. induction ds as [|d ds IH]; intros s Hs; simpl; [done|].
  by apply IH, service_ok_post.
Qed.

Lemma service_ok_removed s id : service_ok s → service_ok (removed s id).
Proof.
  intros [H1 H2 H3 H4]. split; simpl; [|intros id' n d x v|..]; try done.
  - intros id' n d [_ Hm]%lookup_delete_Some. eauto.
  - intros [_ Hm]%lookup_delete_Some. eauto.
  - rewrite map_size_delete. destruct (members s !! id); simpl; lia.
Qed.

Lemma service_ok_joined s c x id n :
  service_ok s → sessions s !! c = Some x → is_Some (boxes s !! c) →
  (∀ v, se_proved x = Some v → id = v) → Z.of_nat (size (members s)) < limit →
  service_ok (joined s c x id n).
Proof.
  intros [H1 H2 H3 H4] Hx Hb Hv Hlt. split; simpl; try done.
  - intros id' n' d [[_ [= _ <-]]|[_ Hm]]%lookup_insert_Some; eauto.
  - intros id' n' d y v [[<- [= _ <-]]|[_ Hm]]%lookup_insert_Some.
    + rewrite lookup_insert_eq. intros [= <-]. apply Hv.
    + intros [[<- <-]|[_ Hy]]%lookup_insert_Some; [|eauto]. simpl. eauto.
  - rewrite map_size_insert. destruct (members s !! id); simpl; lia.
Qed.

Lemma service_ok_action a s s' : service_ok s → action a s s' → service_ok s'.
Proof.
  intros Hs Ha. destruct Ha as [c v s Hc Hb|c t x s Hx Hb|c t s|c m s _|
    c x id n info ack ds s Hx Hb Hv _ Hlt _ _ _ _|c x me n to d m s _ _ _ _ _|
    c x me n ex payload ds s _ _ _ _|c x id n ds s _ _ _ _ _|now id n d ds s _ _ _|k ds s _|
    c o m rest s Hc|c b s Hc|c s _];
    auto using service_ok_post, service_ok_tell, service_ok_removed.
  - destruct Hs as [H1 H2 H3 H4]. split; simpl; try done.
    intros id n d x w Hm [[<- <-]|[_ Hx]]%lookup_insert_Some; [|eauto].
    apply H1 in Hm. rewrite Hb in Hm. by destruct Hm.
  - apply (service_ok_boxes s (<[c := MkBox true []]> (boxes s))) in Hs as Hs'.
    + by destruct Hs' as [H1 H2 H3 H4].
    + intros d Hd. destruct (decide (c = d)) as [<-|]; [rewrite lookup_insert_eq; eauto|].
      by rewrite lookup_insert_ne.
    + intros d b [[<- <-]|[_ Hd]]%lookup_insert_Some; [done|by eapply sv_mail].
  - by destruct Hs as [H1 H2 H3 H4].
  - apply service_ok_tell, service_ok_post. by apply service_ok_joined.
  - apply service_ok_boxes; [done| |].
    + intros d Hd. destruct (decide (c = d)) as [<-|]; [rewrite lookup_insert_eq; eauto|].
      by rewrite lookup_insert_ne.
    + intros d b [[<- <-]|[_ Hd]]%lookup_insert_Some; [|by eapply sv_mail].
      apply (sv_mail _ Hs) in Hc. simpl in *. lia.
  - apply service_ok_boxes; [done| |].
    + intros d Hd. destruct (decide (c = d)) as [<-|]; [rewrite lookup_insert_eq; eauto|].
      by rewrite lookup_insert_ne.
    + intros d b' [[<- <-]|[_ Hd]]%lookup_insert_Some; [done|by eapply sv_mail].
  - destruct Hs as [H1 H2 H3 H4]. split; simpl; try done.
    intros id n d x w Hm [_ Hx]%lookup_delete_Some. eauto.
Qed.

Lemma service_guarantees s : 0 ≤ limit → service_reachable s → service_ok s.
Proof.
  intros Hl. induction 1; [|by eapply service_ok_action].
  split; simpl; [done|done|by rewrite map_size_empty|done].
Qed.
End mailbox.
