(* ===== verification/Refinement.v ===== *)
(** * The server implements the mailbox service

    [view] forgets what Mailbox.v does not speak of; every event of the server (Server.v,
    src/src/server.rs) is a sequence of the service's actions by the actor the event belongs to. *)

From S2P Require Import Prelude Net Wire ProxyProtocol Config Limits Dial Channel Registry Pex.
From S2P Require Import DhtView Server ServerInv ServerProps Mailbox.

(** ** The abstraction *)

Section view.
Context `{PX : DigPex} `{ML : MpscLaws}.

Definition box_of (ch : Chan RelayMessage) : Box := MkBox (negb (chan_is_closed ch)) (ch_queue ch).
Definition sess_of (conn : Conn) : Sess :=
  MkSess (c_verified conn) (s_peer_id (c_session conn)) (s_network_id (c_session conn)).
Definition member_of (q : Peer) : string * nat := (peer_network_id q, peer_tx q).

Definition abs (r : Registry) (o : Chans RelayMessage) (cs : gmap nat Conn) (t : gmap nat Z)
    : Service :=
  MkService (member_of <$> r) (box_of <$> o) (sess_of <$> cs) t.

Definition view (w : World) : Service := abs (registry (st w)) (outs w) (conns w) (activity w).
End view.

Definition actor (ev : Event) : Actor :=
  match ev with
  | Accept c _ _ _ | HandshakeEnded c | Upgraded c _ _ | Frame c _ _ _ | ReadEnded c
  | WriterSends c | WriterSendsPex c | WriterExits c | Finished c => Client c
  | Sweep mono => Sweeper mono
  | DhtAsk => Crawler
  | PexTick _ | DhtCollect _ => Nobody
  end.

Section refinement.
Context `{HO : HashOrder, DI : DigIp} `{DP : DigPex} `{ML : MpscLaws} {SD : Serde}.
Context (config : RelayServerConfig).

Local Abbreviation cap := (outbound_queue_capacity config).
Local Abbreviation act :=
  (action cap (max_connections config) (as_secs (liveness_deadline config))).
Local Abbreviation acts a := (rtc (act a)).

Implicit Types (r : Registry) (cs : gmap nat Conn) (o : Chans RelayMessage) (t : gmap nat Z).

(** *** Reading the abstract state *)

Lemma lookup_member r id q : r !! id = Some q → (member_of <$> r) !! id = Some (member_of q).
Proof. intros E. by rewrite lookup_fmap, E. Qed.

Lemma lookup_sess cs c conn : cs !! c = Some conn → (sess_of <$> cs) !! c = Some (sess_of conn).
Proof. intros E. by rewrite lookup_fmap, E. Qed.

Lemma box_closed_abs r o cs t d : box_closed (abs r o cs t) d = is_closed o d.
Proof.
  unfold box_closed, is_closed. simpl. rewrite lookup_fmap. destruct (o !! d); simpl; [|done].
  by rewrite negb_involutive.
Qed.

(** Replacing the local state of a connection by one with the same session. *)
Lemma sessions_same cs c conn conn' :
  cs !! c = Some conn → sess_of conn' = sess_of conn →
  sess_of <$> <[c := conn']> cs = sess_of <$> cs.
Proof. intros Hc E. rewrite fmap_insert, E. apply insert_id. by apply lookup_sess. Qed.

(** *** Sending is posting *)

Lemma box_of_send (ch : Chan RelayMessage) m :
  ch_cap ch = cap → box_of (chan_try_send ch m).2 = deliver cap m (box_of ch).
Proof.
  intros Hcap. unfold box_of, deliver. simpl. destruct (chan_is_closed ch) eqn:Ec; simpl.
  { rewrite chan_closed_law by done. simpl. by rewrite Ec. }
  destruct (Z.ltb_spec (Z.of_nat (length (ch_queue ch))) cap) as [Hlt|Hle].
  - destruct (chan_sent_law _ ch m Ec) as (_ & -> & _ & ->); [by rewrite Hcap|done].
  - rewrite chan_full_law by (done || by rewrite Hcap). simpl. by rewrite Ec.
Qed.

Lemma abs_try_send r o cs t d m :
  chans_ok cap o → abs r (try_send o d m) cs t = post cap (abs r o cs t) d m.
Proof.
  intros Hok. unfold abs, post, set_boxes. simpl. f_equal. unfold try_send.
  destruct (o !! d) as [ch|] eqn:E.
  - rewrite fmap_insert, box_of_send by apply (Hok _ _ E).
    apply map_eq. intros i. destruct (decide (d = i)) as [<-|Hne].
    + by rewrite lookup_insert_eq, lookup_alter_eq, lookup_fmap, E.
    + by rewrite lookup_insert_ne, lookup_alter_ne.
  - apply map_eq. intros i. destruct (decide (d = i)) as [<-|Hne].
    + by rewrite lookup_alter_eq, lookup_fmap, E.
    + by rewrite lookup_alter_ne.
Qed.

Lemma abs_fan_out r o cs t targets m :
  chans_ok cap o → abs r (fan_out o targets m) cs t = tell cap (abs r o cs t) targets.*2 m.
Proof.
  revert o. unfold fan_out, tell. induction targets as [|[id d] targets IH]; intros o Hok; simpl; [done|].
  rewrite IH by auto with relay. by rewrite abs_try_send.
Qed.

(** The targets of a broadcast are the boxes of the others. *)
Lemma targets_others r me n ex :
  (broadcast_targets r me n ex).*2 ≡ₚ others (member_of <$> r) n (me :: ex).
Proof.
  unfold broadcast_targets, others. rewrite map_to_list_fmap.
  rewrite (hash_iter_perm r). generalize (map_to_list r). intros l.
  induction l as [|[id q] l IH]; [done|]. cbn [fmap list_fmap]. rewrite !filter_cons. simpl.
  assert (peer_network_id q = n ∧ id ≠ me ∧ id ∉ ex ↔ peer_network_id q = n ∧ id ∉ me :: ex)
    as Hiff by (rewrite not_elem_of_cons; tauto).
  destruct (decide (peer_network_id q = n ∧ id ≠ me ∧ id ∉ ex)) as [Hy|Hn].
  - rewrite decide_True by (by apply Hiff). simpl. by f_equiv.
  - rewrite decide_False by (by rewrite <- Hiff). exact IH.
Qed.

Lemma senders_all r : (all_senders r).*2 ≡ₚ (map_to_list (member_of <$> r)).*2.*2.
Proof.
  unfold all_senders. rewrite map_to_list_fmap, (hash_iter_perm r).
  generalize (map_to_list r). intros l. induction l as [|[id q] l IH]; [done|]. simpl. by f_equiv.
Qed.

(** *** What a connection may send *)

Lemma answer_step r o cs t c m :
  chans_ok cap o → answer m = true →
  act (Client c) (abs r o cs t) (abs r (try_send o c m) cs t).
Proof. intros Hok Hm. rewrite abs_try_send by done. by constructor. Qed.

Lemma answers_steps r o cs t c ms :
  chans_ok cap o → Forall (λ m, answer m = true) ms →
  acts (Client c) (abs r o cs t) (abs r (send_all o c ms) cs t).
Proof.
  intros Hok Hms. revert o Hok. induction Hms as [|m ms Hm _ IH]; intros o Hok; simpl; [done|].
  eapply rtc_l; [by apply answer_step|]. apply IH. auto with relay.
Qed.

Lemma dispatch_directed session msg to m me :
  s_peer_id session = Some me → dispatch session msg = ForwardTo to m → directed me to m.
Proof.
  intros Hme. unfold dispatch. rewrite Hme. simpl.
  destruct msg; intros; simplify_eq/=; done.
Qed.

Lemma dispatch_all session msg from ex m me :
  s_peer_id session = Some me → dispatch session msg = ActBroadcast from ex m →
  from = me ∧ ∃ payload, m = Broadcast me payload [].
Proof.
  intros Hme. unfold dispatch. rewrite Hme. simpl.
  destruct msg; intros; simplify_eq/=; eauto.
Qed.

Lemma dispatch_answers session msg ms :
  dispatch session msg = ReplyToSelf ms → Forall (λ m, answer m = true) ms.
Proof.
  unfold dispatch. destruct (is_some _); destruct msg; intros; simplify_eq/=; by repeat constructor.
Qed.

Lemma complete_session conn n :
  conn_ok config conn → s_network_id (c_session conn) = Some n →
  ∃ me, s_peer_id (c_session conn) = Some me.
Proof.
  intros [Hcomp _ _ _ _] Hn. rewrite Hn in Hcomp.
  destruct (s_peer_id (c_session conn)) as [me|]; [by exists me|done].
Qed.

Lemma view_forward_to w c conn msg to m :
  Inv config [] w → conns w !! c = Some conn →
  dispatch (c_session conn) msg = ForwardTo to m →
  acts (Client c) (view w) (view (forward_to w (c_session conn) c to m)).
Proof.
  intros HI Hc Hd. pose proof (ch_outs _ _ _ _ (inv_chans _ _ _ HI)) as Hok.
  unfold forward_to. destruct (s_network_id (c_session conn)) as [n|] eqn:Hn; [|done].
  destruct (complete_session conn n (inv_conns _ _ _ HI _ _ Hc) Hn) as [me Hme].
  apply rtc_once. destruct (sender_in_network _ _ _) as [d|] eqn:Hs.
  - apply sender_in_network_Some in Hs as (q & Hq & Hqn & Hqd). unfold view. simpl.
    rewrite abs_try_send by done. apply (act_speak _ _ _ c (sess_of conn) me n to); try done.
    + by apply lookup_sess.
    + unfold abs. simpl. rewrite (lookup_member _ _ _ Hq). unfold member_of. by rewrite Hqn, Hqd.
    + by eapply dispatch_directed.
  - by apply answer_step.
Qed.

Lemma view_broadcast w c conn msg from ex m :
  Inv config [] w → conns w !! c = Some conn →
  dispatch (c_session conn) msg = ActBroadcast from ex m →
  acts (Client c) (view w) (view (broadcast w (c_session conn) from ex m)).
Proof.
  intros HI Hc Hd. pose proof (ch_outs _ _ _ _ (inv_chans _ _ _ HI)) as Hok.
  unfold broadcast. destruct (s_network_id (c_session conn)) as [n|] eqn:Hn; [|done].
  destruct (complete_session conn n (inv_conns _ _ _ HI _ _ Hc) Hn) as [me Hme].
  destruct (dispatch_all _ _ _ _ _ _ Hme Hd) as [-> [payload ->]].
  apply rtc_once. unfold view. simpl. rewrite abs_fan_out by done.
  apply (act_broadcast _ _ _ c (sess_of conn) me n ex); try done.
  - by apply lookup_sess.
  - apply targets_others.
Qed.

(** *** Registration *)

Lemma activity_register_peer w c conn id net pv addrs now :
  activity (register_peer config w c conn id net pv addrs now).2 = activity w.
Proof.
  unfold register_peer. destruct (allow_registration _ _ _ _) as [[] a]; cbn [negb snd]; [|done].
  destruct (try_acquire_registration _ _ _) as [[slot|] a2]; cbn [snd]; [|done].
  destruct (register_locked _ _ _ _ _ _ _ _ _ _) as [[code m n|o info n ts] r]; cbn [snd]; [done|].
  by destruct o, (c_reg_slot conn).
Qed.

(** What a registration that is not refused has passed. *)
Lemma refusal_None w conn id now :
  refusal config w conn id now = None →
  (∀ v, c_verified conn = Some v → id = v) ∧
  registry_len (registry (st w)) < max_connections config ∧
  match registry (st w) !! id with Some q => tx_closed w (peer_tx q) = true | None => True end.
Proof.
  unfold refusal. destruct (allow_registration _ _ _ _) as [[] a]; cbn [negb]; [|done].
  destruct (try_acquire_registration _ _ _) as [[slot|] a2]; cbn [is_some negb fst]; [|done].
  destruct (c_verified conn) as [v|]; [destruct (negb (bool_decide (v = id))) eqn:Hv; [done|]|];
    (destruct (Z.leb_spec (max_connections config) (registry_len (registry (st w)))); [done|];
     destruct (registry (st w) !! id) as [q|]; [destruct (tx_closed w (peer_tx q)); [|done]|]);
    intros _; split_and!; try done; intros v' [= <-]; by propify.
Qed.

Lemma view_register_peer w c conn id net pv addrs now :
  Inv config [] w → conns w !! c = Some conn → c_phase conn = Serving →
  acts (Client c) (view w) (view (register_peer config w c conn id net pv addrs now).2).
Proof.
  intros HI Hc Hph. pose proof (ch_outs _ _ _ _ (inv_chans _ _ _ HI)) as Hok.
  pose proof (register_peer_cases config w c conn id net pv addrs now Hc) as Hr.
  pose proof (activity_register_peer w c conn id net pv addrs now) as Ha.
  pose proof (conns_register_peer config w c conn id net pv addrs now Hc) as (cn & Ht & (_ & Ek & _)).
  destruct (register_peer _ _ _ _ _ _ _ _ _) as [[] w']; simpl in Ha, Ht |- *.
  - destruct Hr as [(Hv & Hlen & Hfree)%refusal_None Hacc].
    pose proof (accepted_session config _ _ _ _ _ _ _ _ Hacc) as (conn' & Ec & Es).
    destruct Hacc as [Er _ _ _ Eo _].
    assert (sess_of conn' = MkSess (c_verified conn) (Some id) (Some net)) as Hs'.
    { rewrite Ec in Ht. apply (f_equal (.!! c)) in Ht. rewrite !lookup_insert_eq in Ht.
      injection Ht as ->. unfold sess_of. by rewrite Es, Ek. }
    unfold view. rewrite Eo, Er, Ec, Ha, abs_fan_out, abs_try_send by auto with relay.
    apply rtc_once.
    assert (abs (<[id:=MkPeer net (registered_info conn id net pv addrs now) c c]> (registry (st w)))
      (outs w) (<[c:=conn']> (conns w)) (activity w) = joined (view w) c (sess_of conn) id net) as ->.
    { unfold abs, joined, view. simpl. by rewrite !fmap_insert, Hs'. }
    apply act_join; try done.
    + by apply lookup_sess.
    + apply (ch_conn _ _ _ _ (inv_chans _ _ _ HI)) in Hc.
      assert (c ∈ dom (outs w)) as Hdom by (apply Hc; by rewrite Hph).
      apply elem_of_dom in Hdom as [ch Hch]. simpl. rewrite lookup_fmap, Hch. by eexists.
    + unfold free, view. simpl. rewrite lookup_fmap.
      destruct (registry (st w) !! id) as [q|]; simpl; [|done]. by rewrite box_closed_abs.
    + simpl. rewrite map_size_fmap. exact Hlen.
    + simpl. rewrite <- (fmap_insert member_of (registry (st w)) id
        (MkPeer net (registered_info conn id net pv addrs now) c c)). apply targets_others.
  - destruct Hr as (code & _ & Href). pose proof (refused_registry config _ _ _ _ _ _ Href) as Er.
    destruct Href as [_ Ec (msg & Eo) _].
    set (n := if code =? RATE_LIMITED then _ else _) in Eo.
    unfold view. rewrite Eo, Er, Ec, Ha. eapply rtc_l; [by apply (answer_step _ _ _ _ c (RegisterAck false msg n))|].
    apply rtc_once, answer_step; auto with relay.
Qed.

(** *** Frames *)

Lemma view_handle_message w c conn msg now :
  Inv config [] w → conns w !! c = Some conn → c_phase conn = Serving →
  acts (Client c) (view w) (view (handle_message config w c conn msg now).2).
Proof.
  intros HI Hc Hph. unfold handle_message.
  pose proof (Inv_record_relayed config [] w msg HI) as HI1.
  set (w1 := upd_st (λ s, record_relayed s msg) w) in *.
  set (w2 := match msg with DhtRecords _ _ _ => _ | _ => w1 end).
  assert (Inv config [] w2 ∧ conns w2 = conns w ∧ view w2 = view w) as (HI2 & E2 & <-).
  { assert (view w1 = view w) as Ev by (unfold view, w1; by destruct msg as [| | | | | | | | | | | | |? []| | |]).
    unfold w2. destruct msg; try done. destruct (is_some _); [|done].
    split; [by apply Inv_upd_st|done]. }
  rewrite <- E2 in Hc. clearbody w2.
  pose proof (ch_outs _ _ _ _ (inv_chans _ _ _ HI2)) as Hok.
  destruct msg as [| | | | | | | |pl| | | | | | | |];
    try (by apply rtc_once, answer_step);
    (destruct (dispatch (c_session conn) _) as [ms0|id0 n0 v0 l0|to0 m0|from0 ex0 m0| | |code0 m0] eqn:Hd;
     cbn [snd];
     [ by apply answers_steps; [|eapply dispatch_answers] | by apply view_register_peer
     | by eapply view_forward_to | by eapply view_broadcast | done | done
     | by apply rtc_once, answer_step ]).
Qed.

Lemma view_handle_pex_frame w c conn frame now :
  Inv config [] w → conns w !! c = Some conn →
  acts (Client c) (view w) (view (handle_pex_frame w c conn frame now)).
Proof.
  intros HI Hc. pose proof (ch_outs _ _ _ _ (inv_chans _ _ _ HI)) as Hok. unfold handle_pex_frame.
  destruct (pex_dispatch _ _) as [|msg|msg| |]; [by apply rtc_once, answer_step|..|done].
  - destruct (on_node_handshake _ _ _ _ _) as [replies p]. unfold view, abs. simpl.
    by rewrite (sessions_same _ _ conn).
  - by destruct (on_node_message _ _ _ _ _) as [replies p].
  - by destruct (on_node_bad_frame _ _ _ _) as [replies p].
Qed.

(** The connection's state as the frame handler finds it. *)
Lemma Inv_frame_start w c conn lim mono :
  Inv config [] w → conns w !! c = Some conn →
  Inv config [] (set_conn (set_activity w (<[c := mono]> (activity w))) c (set_limiter conn lim)).
Proof.
  intros HI Hc. apply (Inv_set_conn config [] _ c conn); try done; [by apply Inv_set_activity|].
  pose proof (inv_conns _ _ _ HI _ _ Hc) as [E1 E2 E3 E4 E5]. by split.
Qed.

Lemma view_handle_frame w c conn frame now mono :
  Inv config [] w → conns w !! c = Some conn → c_phase conn = Serving →
  acts (Client c) (view w) (view (handle_frame config w c conn frame now mono).2).
Proof.
  intros HI Hc Hph. unfold handle_frame. destruct (admit_frame _ _ _) as [verdict lim].
  pose proof (Inv_frame_start w c conn lim mono HI Hc) as HI1.
  set (w1 := set_conn _ _ _) in *. set (conn1 := set_limiter conn lim) in *.
  assert (conns w1 !! c = Some conn1) as Hc1 by apply lookup_insert_eq.
  assert (act (Client c) (view w) (view w1)) as Hseen.
  { unfold view, abs. simpl. rewrite (sessions_same _ _ conn) by done.
    apply (act_seen _ _ _ c mono (view w)). }
  eapply rtc_l; [exact Hseen|]. destruct verdict; cbn [snd]; [|done].
  destruct (is_pex_frame frame); cbn [snd]; [by apply view_handle_pex_frame|].
  destruct (relay_from_slice frame); cbn [snd]; [by apply view_handle_message|].
  apply rtc_once, answer_step; [|done]. apply HI1.
Qed.

(** *** The end of a connection *)

Lemma remove_locked_view w c conn id n targets s :
  Inv config [] w → conns w !! c = Some conn →
  s_peer_id (c_session conn) = Some id → s_network_id (c_session conn) = Some n →
  remove_locked (st w) id n = (Some targets, s) →
  act (Client c) (view w) (view (announce_departure (upd_st (λ _, s) w) id n targets)).
Proof.
  intros HI Hc Hid Hn. rewrite remove_locked_cases. intros Hr.
  pose proof (ch_outs _ _ _ _ (inv_chans _ _ _ HI)) as Hok.
  destruct (registry (st w) !! id) as [q|] eqn:Hq; [|done]. injection Hr as <- <-.
  unfold view. simpl. rewrite abs_fan_out by done.
  assert (abs (delete id (registry (st w))) (outs w) (conns w) (activity w) = removed (view w) id)
    as -> by (unfold abs, removed, set_members, view; simpl; by rewrite fmap_delete).
  apply (act_leave _ _ _ c (sess_of conn) id n); try done.
  - by apply lookup_sess.
  - simpl. rewrite lookup_fmap, Hq. by eexists.
  - simpl. rewrite <- fmap_delete. apply targets_others.
Qed.

Lemma view_end_of_loop w c conn :
  Inv config [] w → conns w !! c = Some conn →
  acts (Client c) (view w) (view (end_of_loop w c conn)).
Proof.
  intros HI Hc. unfold end_of_loop.
  assert (view (set_conn (deregister w (c_session conn)) c (set_phase conn Closing)) =
    view (deregister w (c_session conn))) as ->.
  { unfold view, abs. simpl. rewrite (sessions_same _ _ conn); [done| |done].
    by rewrite conns_deregister. }
  unfold deregister. destruct (s_peer_id (c_session conn)) as [id|] eqn:Hid; [|done].
  destruct (s_network_id (c_session conn)) as [n|] eqn:Hn; [|done].
  destruct (remove_locked (st w) id n) as [[targets|] s] eqn:Hr; [|done].
  apply rtc_once. by eapply remove_locked_view.
Qed.

Lemma view_finish w c conn :
  is_closed (outs w) c = true →
  acts (Client c) (view w) (view (finish_connection w c conn)).
Proof.
  intros Hcl.
  assert (view (finish_connection w c conn) = set_sessions (view w) (delete c (sessions (view w)))) as ->.
  { unfold finish_connection, view. destruct (c_reg_slot conn); simpl;
      unfold abs, set_sessions; simpl; by rewrite fmap_delete. }
  apply rtc_once, act_exit. unfold view. by rewrite box_closed_abs.
Qed.

(** *** Arrival *)

Lemma view_accept w c addr verified now :
  conns w !! c = None → outs w !! c = None →
  acts (Client c) (view w) (view (accept_connection config w c addr verified now)).
Proof.
  intros Hc Ho. unfold accept_connection. destruct (is_banned _ _ _ _) as [[] a]; [done|].
  destruct (_ <=? _); [done|].
  destruct (try_acquire_conn _ _ _) as [[slot|] a']; [|done].
  apply rtc_once. unfold view, abs. simpl. rewrite fmap_insert.
  apply (act_enter _ _ _ c verified (view w)); unfold view; simpl.
  - by rewrite lookup_fmap, Hc.
  - by rewrite lookup_fmap, Ho.
Qed.

Lemma view_upgrade w c conn now mono :
  good_config config → Inv config [] w → conns w !! c = Some conn → c_phase conn = Handshaking →
  acts (Client c) (view w) (view (upgrade_connection config w c conn now mono)).
Proof.
  intros (_ & _ & Hcap) HI Hc Hph.
  assert (outs w !! c = None) as Ho.
  { apply not_elem_of_dom. intros Hd.
    by apply (ch_conn _ _ _ _ (inv_chans _ _ _ HI) _ _ Hc) in Hd. }
  destruct (chan_new_law RelayMessage cap) as (Eq & _ & Ecl); [lia|].
  assert (box_of (chan_new cap) = MkBox true []) as Eb by (unfold box_of; by rewrite Eq, Ecl).
  apply rtc_once. unfold view, upgrade_connection. simpl. unfold abs.
  rewrite (sessions_same _ _ conn), fmap_insert, Eb by done. apply (act_open _ _ _ c mono (sess_of conn) (view w)).
  - by apply lookup_sess.
  - unfold view. simpl. by rewrite lookup_fmap, Ho.
Qed.

(** *** The sweep *)

Lemma prune_steps now cs t victims s o :
  chans_ok cap o → NoDup victims.*1 →
  (∀ id n, (id, n) ∈ victims → ∃ q, registry s !! id = Some q ∧ peer_network_id q = n ∧
     peer_last_activity q = peer_tx q ∧
     reclaimable (is_closed o) (λ cell, default 0 (t !! cell)) now
       (as_secs (liveness_deadline config)) q = true) →
  acts (Sweeper now) (abs (registry s) o cs t)
    (abs (registry (remove_victims s victims).2)
       (foldl (λ o p, fan_out o p.2 (PeerDisconnected p.1.1)) o (remove_victims s victims).1) cs t).
Proof.
  revert s o. induction victims as [|[id n] victims IH]; intros s o Hok Hnd Hv; [done|].
  apply NoDup_cons in Hnd as [Hni Hnd]. cbn [fst] in Hni.
  destruct (Hv id n) as (q & Hq & Hn & Ha & Hrc); [by left|].
  cbn [remove_victims]. rewrite remove_locked_cases, Hq.
  set (s1 := set_connected _ _). set (ts := broadcast_targets _ id n []).
  assert (act (Sweeper now) (abs (registry s) o cs t)
    (abs (registry s1) (fan_out o ts (PeerDisconnected id)) cs t)) as Hstep.
  { rewrite abs_fan_out by done.
    assert (abs (registry s1) o cs t = removed (abs (registry s) o cs t) id) as ->
      by (unfold abs, removed, set_members; simpl; by rewrite fmap_delete).
    apply (act_prune _ _ _ now id n (peer_tx q)).
    - simpl. rewrite (lookup_member _ _ _ Hq). unfold member_of. by rewrite Hn.
    - rewrite box_closed_abs. unfold reclaimable in Hrc. rewrite Ha in Hrc.
      apply orb_true_iff in Hrc as [Hrc|Hrc%Z.ltb_lt]; [by left|by right].
    - simpl. rewrite <- fmap_delete. apply targets_others. }
  eapply rtc_l; [exact Hstep|].
  specialize (IH s1 (fan_out o ts (PeerDisconnected id))).
  destruct (remove_victims s1 victims) as [pr s2]. cbn [fst snd foldl] in *.
  apply IH; [auto with relay|done|]. intros id' n' Hin.
  destruct (Hv id' n') as (q' & Hq' & Hn' & Ha' & Hrc'); [by right|]. exists q'. split_and!; try done.
  - simpl. rewrite lookup_delete_ne; [done|]. intros ->. apply Hni. apply list_elem_of_fmap.
    by exists (id', n').
  - unfold reclaimable in *. by rewrite is_closed_fan_out.
Qed.

Lemma announce_all_outs w (pruned : list (string * string * list (string * nat))) :
  let w' := foldl (λ w p, announce_departure w p.1.1 p.1.2 p.2) w pruned in
  outs w' = foldl (λ o p, fan_out o p.2 (PeerDisconnected p.1.1)) (outs w) pruned ∧
  conns w' = conns w ∧ activity w' = activity w.
Proof. revert w. induction pruned as [|p pruned IH]; intros w; simpl; [done|].
  by destruct (IH (announce_departure w p.1.1 p.1.2 p.2)) as (-> & -> & ->). Qed.

Lemma view_sweep w now :
  Inv config [] w → acts (Sweeper now) (view w) (view (sweep_once config w now)).
Proof.
  intros HI. unfold sweep_once. set (victims := dead_or_stale _ _ _ _ _).
  pose proof (prune_steps now (conns w) (activity w) victims (st w) (outs w)) as Hp.
  destruct (remove_victims (st w) victims) as [pruned s]. cbn [fst snd] in Hp.
  pose proof (announce_all_outs (upd_st (λ _, s) w) pruned) as (Eo & Ec & Ea).
  unfold view. rewrite announce_all_registry, Eo, Ec, Ea. apply Hp.
  - apply HI.
  - apply NoDup_fst_select.
  - intros id n (q & Hq & Hn & Hrc)%elem_of_dead_or_stale. exists q. split_and!; try done.
    destruct (inv_reg _ _ _ HI) as [_ _ _ Ht _ _]. by apply (Ht _ _ Hq).
Qed.

(** *** The writer *)

Lemma insert_box r o cs t c ch :
  abs r (<[c := ch]> o) cs t =
  set_boxes (abs r o cs t) (<[c := box_of ch]> (boxes (abs r o cs t))).
Proof. unfold abs, set_boxes. simpl. by rewrite fmap_insert. Qed.

Lemma view_writer_sends w c ch m ch' :
  outs w !! c = Some ch → chan_recv ch = Some (m, ch') →
  act (Client c) (view w) (view (set_outs w (<[c := ch']> (outs w)))).
Proof.
  intros Hc (Eq & _ & Ecl)%chan_recv_law. unfold view. cbn [st outs conns activity set_outs].
  rewrite insert_box. unfold box_of. rewrite Ecl.
  apply (act_take _ _ _ c _ m). simpl. rewrite lookup_fmap, Hc. unfold box_of. simpl. by rewrite Eq.
Qed.

Lemma view_writer_exits w c ch px :
  outs w !! c = Some ch →
  act (Client c) (view w) (view (set_pexs (set_outs w (<[c := chan_close ch]> (outs w))) px)).
Proof.
  intros Hc. unfold view. cbn [st outs conns activity set_outs set_pexs]. rewrite insert_box.
  unfold box_of. destruct (chan_close_law _ ch) as (-> & _ & ->).
  apply (act_close _ _ _ c (box_of ch)). simpl. by rewrite lookup_fmap, Hc.
Qed.

(** *** Every event *)

Lemma view_event w ev w' :
  good_config config → Inv config [] w → event_step config w ev = Some w' →
  acts (actor ev) (view w) (view w').
Proof.
  intros Hg HI Hs.
  destruct ev as [c addr v now|c|c now mono|c frame now mono|c|c|c|c|c|mono|now| |now]; simpl in Hs |- *.
  - destruct (conns w !! c) eqn:Hc; [done|]. destruct (outs w !! c) eqn:Ho; simplify_eq/=.
    by apply view_accept.
  - destruct (conn_in w c Handshaking) as [conn|] eqn:Hc; simplify_eq/=.
    apply conn_in_Some in Hc as [Hc Hph]. apply view_finish. unfold is_closed.
    destruct (outs w !! c) eqn:Ho; [|done]. apply elem_of_dom_2 in Ho.
    by apply (ch_conn _ _ _ _ (inv_chans _ _ _ HI) _ _ Hc) in Ho.
  - destruct (conn_in w c Handshaking) as [conn|] eqn:Hc; simplify_eq/=.
    apply conn_in_Some in Hc as [Hc Hph]. by apply view_upgrade.
  - destruct (conn_in w c Serving) as [conn|] eqn:Hc; simpl in Hs; [|done].
    apply conn_in_Some in Hc as [Hc Hph].
    pose proof (view_handle_frame w c conn frame now mono HI Hc Hph) as Hv.
    pose proof (Inv_handle_frame config Hg w c conn frame now mono HI Hc Hph) as HI1.
    destruct (handle_frame config w c conn frame now mono) as [[] w1]; simpl in *; [congruence|].
    destruct (conns w1 !! c) as [conn1|] eqn:Hc1; simplify_eq/=.
    etrans; [exact Hv|]. by apply view_end_of_loop.
  - destruct (conn_in w c Serving) as [conn|] eqn:Hc; simplify_eq/=.
    apply conn_in_Some in Hc as [Hc Hph]. by apply view_end_of_loop.
  - destruct (outs w !! c) as [ch|] eqn:Hc; simpl in Hs; [|done].
    destruct (chan_recv ch) as [[m ch']|] eqn:Hr; simplify_eq/=.
    apply rtc_once. by eapply view_writer_sends.
  - destruct (pexs w !! c) as [ch|]; simpl in Hs; [|done].
    destruct (chan_recv ch) as [[m ch']|]; by simplify_eq/=.
  - destruct (outs w !! c) as [ch|] eqn:Hc; simpl in Hs; [|done].
    destruct (pexs w !! c) as [px|]; simplify_eq/=. by apply rtc_once, view_writer_exits.
  - destruct (conn_in w c Closing) as [conn|] eqn:Hc; simpl in Hs; [|done].
    destruct (is_closed (outs w) c) eqn:Hcl; simplify_eq. by apply view_finish.
  - simplify_eq. by apply view_sweep.
  - injection Hs as <-. done.
  - simplify_eq. apply rtc_once. unfold view, dht_ask. cbn [st outs conns activity set_outs].
    rewrite abs_fan_out by apply HI. apply (act_ask _ _ _ DHT_MAX_KEYS_PER_PEER). apply senders_all.
  - by simplify_eq.
Qed.

Lemma view_init : view world_new = service_new.
Proof. change (abs ∅ ∅ ∅ ∅ = service_new). unfold abs. by rewrite !fmap_empty. Qed.

Lemma view_reachable w :
  good_config config → reachable config w →
  service_reachable cap (max_connections config) (as_secs (liveness_deadline config)) (view w).
Proof.
  intros Hg Hr. induction Hr as [|w ev w' Hr IH Hs]; [rewrite view_init; constructor|].
  eapply service_steps; [exact IH|]. eapply view_event; [done|by apply Inv_reachable|exact Hs].
Qed.
End refinement.

(** ** Properties *)

Section properties.
Context `{HO : HashOrder, DI : DigIp} `{DP : DigPex} `{ML : MpscLaws} {SD : Serde}.
Context (config : RelayServerConfig).

(** C3: the server refines the mailbox service. Seen through [view], the initial state is the empty
    service, and whatever happens in a reachable state (a frame of any content, an arrival, a
    writer's step, an end, a sweep, a question for records) is a sequence of actions the service
    allows to that event's actor: joining under a free, undisproved id while there is room with the
    whole network told, speaking as the member one is to members of the same network, leaving or
    being removed for silence with the network told, and nothing else. *)
Theorem server_refines_mailboxes :
  view world_new = service_new ∧
  ∀ w ev w', good_config config → reachable config w → event_step config w ev = Some w' →
    rtc (action (outbound_queue_capacity config) (max_connections config)
           (as_secs (liveness_deadline config)) (actor ev)) (view w) (view w').
Proof.
  split; [apply view_init|]. intros w ev w' Hg Hr Hs.
  eapply view_event; [done|by apply Inv_reachable|done].
Qed.
End properties.
