(* ===== verification/Delivery.v ===== *)
(** * Delivery

    What becomes of an accepted message (src/src/server.rs): the queue of a connection only grows at
    its end, except for the writer that takes its oldest message, so a message that was queued goes
    out after those before it, whatever happens in the meantime. *)

From S2P Require Import Prelude Net Wire ProxyProtocol Config Limits Dial Channel Registry Pex.
From S2P Require Import DhtView Server ServerInv ServerProps.

Create HintDb grow.

Section delivery.
Context `{HO : HashOrder, DI : DigIp} `{DP : DigPex} `{ML : MpscLaws} {SD : Serde}.
Context (config : RelayServerConfig).

(** The queue of [d] keeps what it holds. *)
Definition grows (w w' : World) (d : nat) : Prop :=
  appended (outs w) (outs w') d (λ _, True).

Lemma grows_refl w w' d : outs w' = outs w → grows w w' d.
Proof. unfold grows. intros ->. apply appended_refl. Qed.

Lemma grows_trans w1 w2 w3 d : grows w1 w2 d → grows w2 w3 d → grows w1 w3 d.
Proof. apply appended_trans. Qed.

Lemma grows_send w d tx m : grows w (out_send w tx m) d.
Proof. by apply appended_try_send. Qed.

Lemma grows_fan_out w d ts m : grows w (set_outs w (fan_out (outs w) ts m)) d.
Proof. by apply appended_fan_out. Qed.

Lemma grows_send_all w d c ms : grows w (set_outs w (send_all (outs w) c ms)) d.
Proof. apply appended_send_all. intros _. by apply Forall_true. Qed.

Hint Resolve grows_refl grows_send grows_fan_out grows_send_all : grow.

Lemma grows_register_peer w c conn id net pv addrs now d :
  conns w !! c = Some conn → grows w (register_peer config w c conn id net pv addrs now).2 d.
Proof.
  intros Hc. pose proof (register_peer_cases config w c conn id net pv addrs now Hc) as Hr.
  unfold grows. destruct (register_peer _ _ _ _ _ _ _ _ _) as [[] w']; simpl.
  - destruct Hr as [_ [_ _ _ _ -> _]].
    eapply appended_trans; [by apply appended_try_send|by apply appended_fan_out].
  - destruct Hr as (code & _ & [_ _ (msg & ->) _]).
    eapply appended_trans; by apply appended_try_send.
Qed.

Lemma grows_handle_message w c conn msg now d :
  conns w !! c = Some conn → grows w (handle_message config w c conn msg now).2 d.
Proof.
  intros Hc. unfold handle_message.
  set (w2 := match msg with DhtRecords _ _ _ => _ | _ => upd_st _ w end).
  assert (conns w2 = conns w ∧ outs w2 = outs w) as [Ec Eo].
  { unfold w2. destruct msg; try done. by destruct (is_some _). }
  rewrite <- Ec in Hc. apply (grows_trans w w2); [by apply grows_refl|]. clearbody w2. clear Ec Eo w.
  destruct msg as [| | | | | | | |pl| | | | | | | |]; try (by apply grows_send);
    (destruct (dispatch (c_session conn) _) as [ms0|id0 n0 v0 l0|to0 m0|from0 ex0 m0| | |code0 m0];
     cbn [snd];
     [ by auto with grow | by apply grows_register_peer
     | unfold forward_to; destruct (s_network_id _); [|by auto with grow];
         destruct (sender_in_network _ _ _); by auto with grow
     | unfold broadcast; destruct (s_network_id _); by auto with grow
     | by auto with grow | by auto with grow | by auto with grow ]).
Qed.

Lemma grows_handle_frame w c conn frame now mono d :
  conns w !! c = Some conn → grows w (handle_frame config w c conn frame now mono).2 d.
Proof.
  intros Hc. unfold handle_frame. destruct (admit_frame _ _ _) as [verdict lim].
  set (w1 := set_conn _ _ _).
  assert (conns w1 !! c = Some (set_limiter conn lim)) as Hc1 by apply lookup_insert_eq.
  apply (grows_trans w w1); [by apply grows_refl|]. clearbody w1.
  destruct verdict; cbn [snd]; [|by apply grows_refl].
  destruct (is_pex_frame frame); cbn [snd].
  - unfold handle_pex_frame. destruct (pex_dispatch _ _) as [|msg|msg| |]; auto with grow.
    + destruct (on_node_handshake _ _ _ _ _). by apply grows_refl.
    + destruct (on_node_message _ _ _ _ _). by apply grows_refl.
    + destruct (on_node_bad_frame _ _ _ _). by apply grows_refl.
  - destruct (relay_from_slice frame); cbn [snd]; [by apply grows_handle_message|].
    by auto with grow.
Qed.

Lemma grows_end_of_loop w c conn d : grows w (end_of_loop w c conn) d.
Proof.
  unfold end_of_loop. eapply (grows_trans _ (deregister w (c_session conn))); [|by apply grows_refl].
  unfold deregister. destruct (s_peer_id (c_session conn)) as [id|]; [|by apply grows_refl].
  destruct (s_network_id (c_session conn)) as [n|]; [|by apply grows_refl].
  destruct (remove_locked _ _ _) as [[ts|] st']; [|by apply grows_refl]. by apply appended_fan_out.
Qed.

Lemma grows_sweep w now d : grows w (sweep_once config w now) d.
Proof.
  unfold sweep_once. destruct (remove_victims _ _) as [pruned s].
  eapply appended_weaken; [|apply (announce_all_appended (upd_st (λ _, s) w))]. done.
Qed.

Lemma grows_accept w c addr v now d : grows w (accept_connection config w c addr v now) d.
Proof.
  apply grows_refl. unfold accept_connection. destruct (is_banned _ _ _ _) as [[] a]; [done|].
  destruct (_ <=? _); [done|]. by destruct (try_acquire_conn _ _ _) as [[slot|] a'].
Qed.

Lemma grows_finish w c conn d : grows w (finish_connection w c conn) d.
Proof. apply grows_refl. unfold finish_connection. by destruct (c_reg_slot conn). Qed.

(** Every event but those of [d]'s writer leaves [d]'s queued messages in place. *)
Lemma grows_event w ev w' d :
  Inv config [] w → d ∈ dom (outs w) → ev ≠ WriterSends d → ev ≠ WriterExits d →
  event_step config w ev = Some w' → grows w w' d.
Proof.
  intros HI Hd H1 H2 Hs.
  destruct ev as [c addr v now|c|c now mono|c frame now mono|c|c|c|c|c|mono|now| |now]; simpl in Hs.
  - destruct (is_some _ || is_some _); simplify_eq. apply grows_accept.
  - destruct (conn_in _ _ _); simplify_eq/=. apply grows_finish.
  - destruct (conn_in w c Handshaking) as [conn|] eqn:Hc; simplify_eq/=.
    apply conn_in_Some in Hc as [Hc Hph].
    assert (c ≠ d) as Hne.
    { intros ->. by apply (ch_conn _ _ _ _ (inv_chans _ _ _ HI) _ _ Hc) in Hd. }
    exists []. unfold queue. simpl. rewrite lookup_insert_ne by done. by rewrite app_nil_r.
  - destruct (conn_in w c Serving) as [conn|] eqn:Hc; simpl in Hs; [|done].
    apply conn_in_Some in Hc as [Hc Hph].
    pose proof (grows_handle_frame w c conn frame now mono d Hc) as Hg.
    destruct (handle_frame _ _ _ _ _ _ _) as [[] w1]; simpl in *; [congruence|].
    destruct (conns w1 !! c); simplify_eq/=. eapply grows_trans; [exact Hg|apply grows_end_of_loop].
  - destruct (conn_in _ _ _); simplify_eq/=. apply grows_end_of_loop.
  - destruct (outs w !! c) as [ch|]; simpl in Hs; [|done].
    destruct (chan_recv ch) as [[m ch']|]; simplify_eq/=. exists [].
    unfold queue. simpl. rewrite lookup_insert_ne by congruence. by rewrite app_nil_r.
  - destruct (pexs w !! c) as [ch|]; simpl in Hs; [|done].
    destruct (chan_recv ch) as [[m ch']|]; simplify_eq/=. by apply grows_refl.
  - destruct (outs w !! c) as [ch|]; simpl in Hs; [|done].
    destruct (pexs w !! c) as [px|]; simplify_eq/=. exists [].
    unfold queue. simpl. rewrite lookup_insert_ne by congruence. by rewrite app_nil_r.
  - destruct (conn_in _ _ _); simpl in Hs; [|done].
    destruct (is_closed _ _); simplify_eq. apply grows_finish.
  - simplify_eq. apply grows_sweep.
  - injection Hs as <-. by apply grows_refl.
  - simplify_eq. apply grows_fan_out.
  - simplify_eq. by apply grows_refl.
Qed.

(** ** Runs *)

(** How often [d]'s writer takes a message. *)
Definition is_take (d : nat) (ev : Event) : bool :=
  match ev with WriterSends c => bool_decide (c = d) | _ => false end.

Definition takes (d : nat) (evs : list Event) : nat :=
  length (filter (λ ev, is_take d ev = true) evs).

Lemma is_take_true d ev : is_take d ev = true ↔ ev = WriterSends d.
Proof.
  destruct ev; simpl; try (split; [done|by intros [=]]).
  rewrite bool_decide_eq_true. split; [by intros ->|by intros [=]].
Qed.

Lemma takes_cons d ev evs :
  takes d (ev :: evs) = ((if is_take d ev then 1 else 0) + takes d evs)%nat.
Proof. unfold takes. rewrite filter_cons. by destruct (is_take d ev). Qed.

Lemma queue_Some (cs : Chans RelayMessage) d m q : queue cs d = m :: q →
  ∃ ch ch', cs !! d = Some ch ∧ chan_recv ch = Some (m, ch').
Proof.
  unfold queue. destruct (cs !! d) as [ch|]; [|done]. intros Hq.
  destruct (chan_recv_queued _ _ _ _ Hq) as [[m' ch'] Hr]. exists ch, ch'. split; [done|].
  rewrite Hr. apply chan_recv_law in Hr as (Hq' & _). congruence.
Qed.

Lemma queue_take w d w' m q :
  queue (outs w) d = m :: q → event_step config w (WriterSends d) = Some w' →
  queue (outs w') d = q.
Proof.
  intros Hq Hs. destruct (queue_Some _ _ _ _ Hq) as (ch & ch' & Hc & Hr). simpl in Hs.
  rewrite Hc in Hs. simpl in Hs. rewrite Hr in Hs. simplify_eq/=. unfold queue in *. simpl.
  rewrite lookup_insert_eq. rewrite Hc in Hq. apply chan_recv_law in Hr as (Hq' & _). congruence.
Qed.

(** A queued message stays behind those before it, and comes forward as they are taken. *)
Lemma queued_run w evs w' d pre m rest :
  good_config config → reachable config w → run config w evs = Some w' →
  WriterExits d ∉ evs → (takes d evs ≤ length pre)%nat → queue (outs w) d = pre ++ m :: rest →
  ∃ rest', queue (outs w') d = drop (takes d evs) pre ++ m :: rest'.
Proof.
  intros Hg. revert w pre rest. induction evs as [|ev evs IH]; intros w pre rest Hr Hrun Hex Hn Hq.
  { injection Hrun as <-. by exists rest. }
  simpl in Hrun. destruct (event_step config w ev) as [w1|] eqn:Hs; simpl in Hrun; [|done].
  apply not_elem_of_cons in Hex as [Hex1 Hex2]. rewrite takes_cons in Hn |- *.
  assert (reachable config w1) as Hr1 by (by eapply reachable_step).
  destruct (is_take d ev) eqn:Et; simpl in Hn |- *.
  - apply is_take_true in Et as ->. destruct pre as [|x pre]; simpl in Hn; [lia|].
    apply (IH w1 pre rest); try done; [lia|]. by eapply queue_take.
  - assert (d ∈ dom (outs w)) as Hd.
    { apply elem_of_dom. unfold queue in Hq. destruct (outs w !! d); [by eexists|].
      by destruct pre. }
    destruct (grows_event w ev w1 d) as (new & E & _); try done.
    { by apply Inv_reachable. } { intros ->. simpl in Et. by rewrite bool_decide_true in Et. }
    apply (IH w1 pre (rest ++ new)); try done. by rewrite E, Hq, <- app_assoc.
Qed.
End delivery.

(** ** Properties *)

Section properties.
Context `{HO : HashOrder, DI : DigIp} `{DP : DigPex} `{ML : MpscLaws} {SD : Serde}.
Context (config : RelayServerConfig).

(** C4: a message to a peer that has room goes out. A message a registered connection addresses to a
    peer of its network, whose queue is open and not full, is queued under the sender's registered
    id; and whatever happens afterwards (other connections' frames, sweeps, ends), as long as the
    peer's writer lives, it is the next message the writer sends once it has sent those that were
    queued before. *)
Theorem message_delivered w c conn frame now mono lim me n to q claimed payload seq w1 evs w2 :
  good_config config → reachable config w →
  conns w !! c = Some conn → c_phase conn = Serving →
  s_peer_id (c_session conn) = Some me → s_network_id (c_session conn) = Some n →
  admit_frame (c_limiter conn) (Z.of_nat (length frame)) now = (AdmitOk, lim) →
  is_pex_frame frame = false →
  relay_from_slice frame = Some (RelayGossipMessage claimed to payload seq) →
  registry (st w) !! to = Some q → peer_network_id q = n →
  is_closed (outs w) (peer_tx q) = false →
  Z.of_nat (length (queue (outs w) (peer_tx q))) < outbound_queue_capacity config →
  event_step config w (Frame c frame now mono) = Some w1 →
  run config w1 evs = Some w2 → WriterExits (peer_tx q) ∉ evs →
  takes (peer_tx q) evs = length (queue (outs w) (peer_tx q)) →
  ∃ ch ch', outs w2 !! peer_tx q = Some ch ∧
    chan_recv ch = Some (RelayGossipMessage me to payload seq, ch').
Proof.
  intros Hg Hr Hc Hph Hme Hn Had Hpex Hm Hq Hqn Hop Hroom Hs Hrun Hex Htk.
  pose proof (Inv_reachable config Hg w Hr) as HI.
  set (d := peer_tx q) in *. set (m := RelayGossipMessage me to payload seq).
  assert (queue (outs w1) d = queue (outs w) d ++ [m]) as Hq1.
  { simpl in Hs. rewrite (proj2 (conn_in_Some w c Serving conn)) in Hs by done. simpl in Hs.
    unfold handle_frame in Hs. rewrite Had, Hpex, Hm in Hs. unfold handle_message in Hs.
    cbn [set_limiter c_session] in Hs. unfold dispatch in Hs. rewrite Hme in Hs. simpl in Hs.
    injection Hs as <-. unfold forward_to. rewrite Hn. simpl.
    assert (sender_in_network (registry (st w)) to n = Some d) as ->
      by (apply sender_in_network_Some; by exists q).
    simpl. by apply (queue_sent (outbound_queue_capacity config)); [apply HI|..]. }
  destruct (queued_run config w1 evs w2 d (queue (outs w) d) m []) as [rest' E]; try done.
  { by eapply reachable_step. } { by rewrite Htk. }
  rewrite Htk, drop_all in E. by apply queue_Some in E.
Qed.
End properties.
