(* ===== verification/Teardown.v ===== *)
(** * The end of a connection

    After its read loop a connection task deregisters, drops its sender and waits for the writer
    task (src/src/server.rs, the end of [handle_connection]); only then are its slots and its
    open-connection guard given back. The writer ends when its queue is empty and nobody holds a
    sender any more. Server.v lets the writer end at any time (a write may fail); here is when it
    must, and what is held until it does. *)

From S2P Require Import Prelude Net Wire ProxyProtocol Config Limits Dial Channel Registry Pex.
From S2P Require Import DhtView Server ServerInv ServerProps Mailbox Refinement Delivery.

(** What [out_rx.recv()] does in the writer's [select!]: it takes a message, it waits, or it is told
    that the channel is closed, which ends the writer. *)
Inductive RelayTurn : Type := Takes (m : RelayMessage) | Waits | Ends.

Section writer.
Context `{HashOrder, DigPex, Mpsc}.

(** Who holds a sender of [c]'s queue from one event to the next: its own task until the read loop
    has ended, and the registry's records. *)
Definition task_sends (w : World) (c : nat) : bool :=
  match conns w !! c with Some conn => bool_decide (c_phase conn = Serving) | None => false end.

Definition record_sends (r : Registry) (c : nat) : bool :=
  existsb (λ e, (peer_tx e.2 =? c)%nat) (hash_iter r).

Definition relay_turn (w : World) (c : nat) : RelayTurn :=
  match ch ← outs w !! c; chan_recv ch with
  | Some (m, _) => Takes m
  | None => if task_sends w c || record_sends (registry (st w)) c then Waits else Ends
  end.

(** The event of the writer that takes this turn, when the write succeeds. *)
Definition turn_event (t : RelayTurn) (c : nat) : option Event :=
  match t with Takes _ => Some (WriterSends c) | Waits => None | Ends => Some (WriterExits c) end.
End writer.

Section drain.
Context `{HashOrder, DigIp, DigPex, Mpsc} {SD : Serde} (config : RelayServerConfig).

(** The writer left to itself, for so many turns at most; [None] when it waits or the turns are
    used up. *)
Fixpoint writer_drain (turns : nat) (w : World) (c : nat) : option World :=
  match turns with
  | O => None
  | S turns =>
      match relay_turn w c with
      | Waits => None
      | Takes m => w' ← event_step config w (WriterSends c); writer_drain turns w' c
      | Ends => event_step config w (WriterExits c)
      end
  end.
End drain.

(** ** The mailbox of someone nobody knows *)

Section unlisted.
Context (capacity limit deadline : Z).

(** No member has the mailbox [d]. *)
Definition unlisted (s : Service) (d : nat) : Prop := ∀ id n, members s !! id ≠ Some (n, d).

Lemma others_listed ms n ex d : d ∈ others ms n ex → ∃ id n', ms !! id = Some (n', d).
Proof.
  unfold others. rewrite list_elem_of_fmap. intros ([n' d'] & -> & Hin).
  apply list_elem_of_fmap in Hin as ([id p] & -> & [_ Hin]%list_elem_of_filter).
  apply elem_of_map_to_list in Hin. simpl in *. destruct p. eauto.
Qed.

Lemma post_other s d d' m : d ≠ d' → boxes (post capacity s d m) !! d' = boxes s !! d'.
Proof. intros Hne. unfold post. simpl. by rewrite lookup_alter_ne. Qed.

Lemma tell_other s ds m d : d ∉ ds → boxes (tell capacity s ds m) !! d = boxes s !! d.
Proof.
  revert s. unfold tell. induction ds as [|d' ds IH]; intros s; simpl; [done|].
  rewrite not_elem_of_cons. intros [Hne Hin]. rewrite IH by done. by apply post_other.
Qed.

Lemma unlisted_others s n ex d : unlisted s d → d ∉ others (members s) n ex.
Proof. intros Hu Hin. apply others_listed in Hin as (id & n' & Hm). by eapply Hu. Qed.

Lemma unlisted_removed s id d : unlisted s d → unlisted (removed s id) d.
Proof. intros Hu id' n. simpl. intros [_ ?]%lookup_delete_Some. by eapply Hu. Qed.

(** To tell some of the members nothing is to leave the others alone. *)
Lemma tell_unlisted s ds m n ex d :
  ds ≡ₚ others (members s) n ex → unlisted s d → boxes (tell capacity s ds m) !! d = boxes s !! d.
Proof. intros E Hu. apply tell_other. rewrite E. by apply unlisted_others. Qed.

(** Nobody else's actions reach a mailbox no member has. *)
Lemma action_unlisted a s s' d :
  action capacity limit deadline a s s' → a ≠ Client d → unlisted s d →
  unlisted s' d ∧ boxes s' !! d = boxes s !! d.
Proof.
  intros Ha Hne Hu. destruct Ha as [c v s Hc Hb|c t x s Hx Hb|c t s|c m s _|
    c x id n info ack ds s Hx Hb Hv _ Hlt _ _ _ Hds|c x me n to e m s _ _ _ Hto _|
    c x me n ex payload ds s _ _ _ Hds|c x id n ds s _ _ _ _ Hds|now id n e ds s _ _ Hds|
    k ds s Hds|c o m rest s Hc|c b s Hc|c s _];
    try (assert (c ≠ d) as Hcd by congruence).
  - done.
  - split; [done|]. simpl. by rewrite lookup_insert_ne.
  - done.
  - split; [done|by apply post_other].
  - assert (unlisted (joined s c x id n) d) as Hj.
    { intros id' n'. simpl. intros [[_ [= _ ?]]|[_ ?]]%lookup_insert_Some; [done|by eapply Hu]. }
    destruct (tell_frame capacity (post capacity (joined s c x id n) c ack) ds (PeerConnected info))
      as [Em _].
    split; [intros ? ?; rewrite Em; apply Hj|].
    rewrite (tell_unlisted _ _ _ n [id]) by done. by rewrite post_other.
  - split; [done|]. apply post_other. intros ->. by eapply Hu.
  - destruct (tell_frame capacity s ds (Broadcast me payload [])) as [Em _].
    split; [intros ? ?; rewrite Em; apply Hu|]. by eapply tell_unlisted.
  - destruct (tell_frame capacity (removed s id) ds (PeerDisconnected id)) as [Em _].
    pose proof (unlisted_removed s id d Hu) as Hr.
    split; [intros ? ?; rewrite Em; apply Hr|]. by erewrite tell_unlisted.
  - destruct (tell_frame capacity (removed s id) ds (PeerDisconnected id)) as [Em _].
    pose proof (unlisted_removed s id d Hu) as Hr.
    split; [intros ? ?; rewrite Em; apply Hr|]. by erewrite tell_unlisted.
  - destruct (tell_frame capacity s ds (GetDhtRecords k)) as [Em _].
    split; [intros ? ?; rewrite Em; apply Hu|]. apply tell_other. rewrite Hds.
    intros Hin. apply list_elem_of_fmap in Hin as (p & -> & Hin).
    apply list_elem_of_fmap in Hin as ([id [n' d']] & -> & Hin%elem_of_map_to_list). by eapply Hu.
  - split; [done|]. simpl. by rewrite lookup_insert_ne.
  - split; [done|]. simpl. by rewrite lookup_insert_ne.
  - done.
Qed.

(** Nobody else opens or closes a mailbox. *)
Lemma action_open a s s' d :
  action capacity limit deadline a s s' → a ≠ Client d → box_closed s' d = box_closed s d.
Proof.
  intros Ha Hne. destruct Ha as [c v s Hc Hb|c t x s Hx Hb|c t s|c m s _|
    c x id n info ack ds s Hx Hb Hv _ Hlt _ _ _ _|c x me n to e m s _ _ _ _ _|
    c x me n ex payload ds s _ _ _ _|c x id n ds s _ _ _ _ _|now id n e ds s _ _ _|k ds s _|
    c o m rest s Hc|c b s Hc|c s _];
    try (assert (c ≠ d) as Hcd by congruence); try done;
    try (unfold box_closed; simpl; by rewrite lookup_insert_ne).
  - apply (tell_frame capacity s [c] m).
  - etrans; [apply tell_frame|]. apply (tell_frame capacity (joined s c x id n) [c] ack).
  - apply (tell_frame capacity s [e] m).
  - apply tell_frame.
  - etrans; [apply tell_frame|]. done.
  - etrans; [apply tell_frame|]. done.
  - apply tell_frame.
Qed.

Lemma actions_open a s s' d :
  rtc (action capacity limit deadline a) s s' → a ≠ Client d → box_closed s' d = box_closed s d.
Proof.
  intros Hst Hne. induction Hst as [|s1 s2 s3 Ha _ IH]; [done|]. rewrite IH. by eapply action_open.
Qed.

Lemma actions_unlisted a s s' d :
  rtc (action capacity limit deadline a) s s' → a ≠ Client d → unlisted s d →
  unlisted s' d ∧ boxes s' !! d = boxes s !! d.
Proof.
  intros Hst Hne. induction Hst as [|s1 s2 s3 Ha _ IH]; [done|]. intros Hu.
  destruct (action_unlisted _ _ _ _ Ha Hne Hu) as [Hu2 <-]. auto.
Qed.
End unlisted.

(** ** Events *)

Section events.
Context `{HO : HashOrder, DI : DigIp} `{DP : DigPex} `{ML : MpscLaws} {SD : Serde}.
Context (config : RelayServerConfig).
Hypothesis Hgood : good_config config.

Lemma touches_other c c' conn m m' : touches c conn m m' → c ≠ c' → m' !! c' = m !! c'.
Proof. intros (conn' & -> & _) Hne. by rewrite lookup_insert_ne. Qed.

Lemma announce_all_conns w pruned :
  conns (foldl (λ w p, announce_departure w p.1.1 p.1.2 p.2) w pruned) = conns w.
Proof. revert w. induction pruned as [|p l IH]; intros w; simpl; [done|]. by rewrite IH. Qed.

Lemma conns_finish w c conn : conns (finish_connection w c conn) = delete c (conns w).
Proof. unfold finish_connection. by destruct (c_reg_slot conn). Qed.

(** An event leaves the tasks of all connections but its own as they are. *)
Lemma event_conns w ev w' c :
  event_step config w ev = Some w' → actor ev ≠ Client c → conns w' !! c = conns w !! c.
Proof.
  intros Hs Ha.
  destruct ev as [d addr v now|d|d now mono|d frame now mono|d|d|d|d|d|mono|now| |now]; simpl in Hs, Ha;
    try (assert (d ≠ c) as Hne by congruence).
  - destruct (is_some _ || is_some _); simplify_eq. unfold accept_connection.
    destruct (is_banned _ _ _ _) as [[] a]; [done|]. destruct (_ <=? _); [done|].
    destruct (try_acquire_conn _ _ _) as [[slot|] a']; [|done]. simpl. by rewrite lookup_insert_ne.
  - destruct (conn_in _ _ _); simpl in Hs; simplify_eq. by rewrite conns_finish, lookup_delete_ne.
  - destruct (conn_in w d Handshaking); simplify_eq/=. by rewrite lookup_insert_ne.
  - destruct (conn_in w d Serving) as [conn|] eqn:Hc; simpl in Hs; [|done].
    apply conn_in_Some in Hc as [Hc _].
    pose proof (conns_handle_frame config w d conn frame now mono Hc) as Ht.
    destruct (handle_frame _ _ _ _ _ _ _) as [[] w1]; simpl in *.
    + simplify_eq. by eapply touches_other.
    + destruct (conns w1 !! d); simplify_eq/=.
      rewrite conns_deregister, lookup_insert_ne by done. by eapply touches_other.
  - destruct (conn_in _ _ _); simpl in Hs; simplify_eq. simpl. rewrite lookup_insert_ne by done.
    by rewrite conns_deregister.
  - destruct (outs w !! d) as [ch|]; simpl in Hs; [|done]. by destruct (chan_recv ch); simplify_eq/=.
  - destruct (pexs w !! d) as [ch|]; simpl in Hs; [|done]. by destruct (chan_recv ch); simplify_eq/=.
  - destruct (outs w !! d); simpl in Hs; [|done]. by destruct (pexs w !! d); simplify_eq/=.
  - destruct (conn_in _ _ _); simpl in Hs; [|done]. destruct (is_closed _ _); simplify_eq.
    by rewrite conns_finish, lookup_delete_ne.
  - simplify_eq. unfold sweep_once. destruct (remove_victims _ _) as [pruned s].
    by rewrite announce_all_conns.
  - by injection Hs as <-.
  - by simplify_eq.
  - by simplify_eq.
Qed.

(** The read loop of [c] has ended and its writer lives. *)
Record closing (w : World) (c : nat) (conn : Conn) : Prop := {
  cl_conn : conns w !! c = Some conn;
  cl_phase : c_phase conn = Closing;
  cl_open : is_closed (outs w) c = false }.

(** What its own connection can still do. *)
Lemma closing_own w c conn ev w' :
  closing w c conn → event_step config w ev = Some w' → actor ev = Client c →
  ev = WriterSends c ∨ ev = WriterSendsPex c ∨ ev = WriterExits c.
Proof.
  intros [Hc Hp Ho] Hs Ha.
  destruct ev as [d addr v now|d|d now mono|d frame now mono|d|d|d|d|d|mono|now| |now];
    simpl in Ha; try done; injection Ha as ->; simpl in Hs; try by auto.
  1: by rewrite Hc in Hs.
  all: unfold conn_in in Hs; rewrite Hc, Hp in Hs; simpl in Hs; try done.
  by rewrite Ho in Hs.
Qed.

(** Only the end of the writer ends the wait for it. *)
Lemma closing_event w c conn ev w' :
  Inv config [] w → closing w c conn → event_step config w ev = Some w' → ev ≠ WriterExits c →
  closing w' c conn.
Proof.
  intros HI Hcl Hs Hev. pose proof Hcl as [Hc Hp Ho].
  destruct (decide (actor ev = Client c)) as [Ha|Ha].
  - destruct (closing_own _ _ _ _ _ Hcl Hs Ha) as [->|[->| ->]]; [| |done]; simpl in Hs.
    + destruct (outs w !! c) as [ch|] eqn:Hch; simpl in Hs; [|done].
      destruct (chan_recv ch) as [[m ch']|] eqn:Hr; simplify_eq/=. split; [done|done|].
      unfold is_closed in *. simpl. rewrite Hch in Ho. rewrite lookup_insert_eq.
      by apply chan_recv_law in Hr as (_ & _ & ->).
    + destruct (pexs w !! c) as [ch|]; simpl in Hs; [|done].
      by destruct (chan_recv ch); simplify_eq/=.
  - split; [by rewrite (event_conns _ _ _ _ Hs Ha)|done|].
    pose proof (view_event config w ev w' Hgood HI Hs) as Hv.
    pose proof (actions_open _ _ _ _ _ _ c Hv Ha) as E.
    unfold view in E. by rewrite !box_closed_abs, Ho in E.
Qed.

Lemma closing_run w c conn evs w' :
  reachable config w → closing w c conn → run config w evs = Some w' → WriterExits c ∉ evs →
  reachable config w' ∧ closing w' c conn.
Proof.
  revert w. induction evs as [|ev evs IH]; intros w Hr Hcl Hrun Hex; simpl in Hrun; [by simplify_eq|].
  destruct (event_step config w ev) as [w1|] eqn:Hs; simpl in Hrun; [|done].
  apply not_elem_of_cons in Hex as [Hne Hex].
  apply (IH w1); [by eapply reachable_step| |done..].
  eapply closing_event; [by apply Inv_reachable|done..].
Qed.

(** ** A connection nobody has a record of *)

Definition unrecorded (w : World) (c : nat) : Prop :=
  ∀ id q, registry (st w) !! id = Some q → peer_tx q ≠ c.

Lemma unlisted_view w c : unlisted (view w) c ↔ unrecorded w c.
Proof.
  unfold unlisted, unrecorded. simpl. setoid_rewrite lookup_fmap. split.
  - intros Hu id q Hq E. apply (Hu id (peer_network_id q)). rewrite Hq. simpl. by rewrite <- E.
  - intros Hu id n. destruct (registry (st w) !! id) as [q|] eqn:Hq; [|done].
    simpl. unfold member_of. intros [= _ E]. by eapply Hu.
Qed.

Lemma queue_view w w' c :
  boxes (view w') !! c = boxes (view w) !! c → queue (outs w') c = queue (outs w) c.
Proof.
  unfold queue. simpl. rewrite !lookup_fmap.
  destruct (outs w' !! c) as [ch'|], (outs w !! c) as [ch|]; simpl; try done.
  unfold box_of. intros [= _ E]. exact E.
Qed.

Lemma unrecorded_event w c conn ev w' :
  Inv config [] w → closing w c conn → unrecorded w c → event_step config w ev = Some w' →
  ev ≠ WriterExits c →
  unrecorded w' c ∧
  length (queue (outs w) c) = ((if is_take c ev then 1 else 0) + length (queue (outs w') c))%nat.
Proof.
  intros HI Hcl Hu Hs Hev.
  destruct (decide (actor ev = Client c)) as [Ha|Ha].
  - destruct (closing_own _ _ _ _ _ Hcl Hs Ha) as [->|[->| ->]]; [| |done]; simpl in Hs.
    + destruct (outs w !! c) as [ch|] eqn:Hch; simpl in Hs; [|done].
      destruct (chan_recv ch) as [[m ch']|] eqn:Hr; simplify_eq/=. split; [done|].
      rewrite bool_decide_eq_true_2 by done. unfold queue. simpl. rewrite Hch, lookup_insert_eq.
      by apply chan_recv_law in Hr as (-> & _).
    + destruct (pexs w !! c) as [ch|]; simpl in Hs; [|done].
      by destruct (chan_recv ch); simplify_eq/=.
  - pose proof (view_event config w ev w' Hgood HI Hs) as Hv.
    apply unlisted_view in Hu.
    destruct (actions_unlisted _ _ _ _ _ _ c Hv Ha Hu) as [Hu' E%queue_view].
    rewrite unlisted_view in Hu'. split; [done|]. rewrite E.
    destruct (is_take c ev) eqn:Et; [|done]. apply is_take_true in Et as ->. done.
Qed.

Lemma unrecorded_run w c conn evs w' :
  reachable config w → closing w c conn → unrecorded w c → run config w evs = Some w' →
  WriterExits c ∉ evs →
  unrecorded w' c ∧ length (queue (outs w) c) = (takes c evs + length (queue (outs w') c))%nat.
Proof.
  revert w. induction evs as [|ev evs IH]; intros w Hr Hcl Hu Hrun Hex; simpl in Hrun.
  { by simplify_eq. }
  destruct (event_step config w ev) as [w1|] eqn:Hs; simpl in Hrun; [|done].
  apply not_elem_of_cons in Hex as [Hne Hex].
  pose proof (Inv_reachable config Hgood w Hr) as HI.
  destruct (unrecorded_event w c conn ev w1) as [Hu1 E1]; try done.
  destruct (IH w1) as [Hu' E']; try done; [by eapply reachable_step|by eapply closing_event|].
  split; [done|]. rewrite takes_cons, E1, E'. lia.
Qed.
(** The sweep drops every record of a connection that has been silent for longer than the deadline:
    a record's clock is its connection's. *)
Lemma sweep_unrecorded w c now :
  Inv config [] w →
  as_secs (liveness_deadline config) < sat_sub now (activity_load w c) →
  unrecorded (sweep_once config w now) c.
Proof.
  intros HI Hst id q Hq E. unfold sweep_once in Hq. set (vs := dead_or_stale _ _ _ _ _) in Hq.
  pose proof (remove_victims_registry (st w) vs id) as Hreg.
  destruct (remove_victims (st w) vs) as [pruned s]. simpl in Hreg.
  rewrite announce_all_registry in Hq. simpl in Hq. rewrite Hq in Hreg.
  case_bool_decide as Hin; [done|]. symmetry in Hreg.
  destruct (ri_tx _ _ _ _ _ (inv_reg _ _ _ HI) id q Hreg) as [Ha _].
  destruct Hin. apply list_elem_of_fmap. exists (id, peer_network_id q). split; [done|].
  apply elem_of_dead_or_stale. exists q. split_and!; [done..|]. unfold reclaimable.
  rewrite Ha, E. apply orb_true_iff. right. by apply Z.ltb_lt.
Qed.

(** ** The writer's last turns *)

Lemma record_sends_false r c : (∀ id q, r !! id = Some q → peer_tx q ≠ c) → record_sends r c = false.
Proof.
  intros Hu. unfold record_sends. apply not_true_iff_false. rewrite existsb_exists.
  intros ([id q] & Hin%list_elem_of_In & E%Nat.eqb_eq).
  apply elem_of_hash_iter in Hin. by eapply Hu.
Qed.

Lemma closing_chan w c conn : closing w c conn → ∃ ch, outs w !! c = Some ch.
Proof. intros [_ _ Ho]. unfold is_closed in Ho. destruct (outs w !! c); [by eexists|done]. Qed.

Lemma relay_turn_takes w c conn m l :
  closing w c conn → queue (outs w) c = m :: l →
  relay_turn w c = Takes m ∧ ∃ w', event_step config w (WriterSends c) = Some w' ∧
    st w' = st w ∧ conns w' = conns w ∧ queue (outs w') c = l.
Proof.
  intros Hcl Hq. destruct (queue_Some _ _ _ _ Hq) as (ch & ch' & Hch & Hr).
  unfold relay_turn. simpl. rewrite Hch. simpl. rewrite Hr. simpl. split; [done|].
  eexists. split_and!; [done..|]. unfold queue in *. simpl. rewrite lookup_insert_eq.
  rewrite Hch in Hq. apply chan_recv_law in Hr as (E & _). congruence.
Qed.

Lemma relay_turn_ends w c conn :
  closing w c conn → unrecorded w c → queue (outs w) c = [] → relay_turn w c = Ends.
Proof.
  intros Hcl Hu Hq. destruct (closing_chan _ _ _ Hcl) as [ch Hch]. unfold relay_turn, task_sends.
  rewrite Hch, (cl_conn _ _ _ Hcl), (cl_phase _ _ _ Hcl), record_sends_false by done. simpl.
  destruct (chan_recv ch) as [[m ch']|] eqn:Hr; [|done].
  apply chan_recv_law in Hr as (E & _). unfold queue in Hq. rewrite Hch in Hq. congruence.
Qed.

Lemma writer_exits w c conn :
  Inv config [] w → closing w c conn →
  ∃ w', event_step config w (WriterExits c) = Some w' ∧ st w' = st w ∧ conns w' = conns w ∧
    is_closed (outs w') c = true.
Proof.
  intros HI Hcl. destruct (closing_chan _ _ _ Hcl) as [ch Hch]. simpl. rewrite Hch. simpl.
  assert (is_Some (pexs w !! c)) as [px ->].
  { apply elem_of_dom. rewrite (ch_dom _ _ _ _ (inv_chans _ _ _ HI)). by eapply elem_of_dom_2. }
  simpl. eexists. split_and!; [done..|]. unfold is_closed. simpl. rewrite lookup_insert_eq.
  apply chan_close_law.
Qed.

Lemma writer_drain_S n w c :
  writer_drain config (S n) w c =
    match relay_turn w c with
    | Waits => None
    | Takes m => w' ← event_step config w (WriterSends c); writer_drain config n w' c
    | Ends => event_step config w (WriterExits c)
    end.
Proof. done. Qed.

(** One turn for each message queued, and one to end. *)
Lemma drain_done w c conn n :
  reachable config w → closing w c conn → unrecorded w c → length (queue (outs w) c) = n →
  ∃ w', writer_drain config (S n) w c = Some w' ∧ reachable config w' ∧ st w' = st w ∧
    conns w' = conns w ∧ is_closed (outs w') c = true.
Proof.
  revert w. induction n as [|n IH]; intros w Hr Hcl Hu Hn;
    pose proof (Inv_reachable config Hgood w Hr) as HI.
  - apply nil_length_inv in Hn. destruct (writer_exits w c conn HI Hcl) as (w' & Hs & E1 & E2 & E3).
    exists w'. rewrite writer_drain_S, (relay_turn_ends w c conn) by done.
    split_and!; try done. by eapply reachable_step.
  - destruct (queue (outs w) c) as [|m l] eqn:Hq; [done|]. injection Hn as Hn.
    destruct (relay_turn_takes w c conn m l Hcl Hq) as (Et & w1 & Hs & E1 & E2 & Hq1).
    destruct (IH w1) as (w' & Hd & Hr' & E3 & E4 & E5).
    + by eapply reachable_step.
    + by eapply closing_event.
    + unfold unrecorded. by rewrite E1.
    + by rewrite Hq1.
    + exists w'. rewrite writer_drain_S, Et, Hs.
      cbn [mbind option_bind]. rewrite Hd. split_and!; [done..|congruence|congruence|done].
Qed.
End events.

(** ** Properties *)

Section properties.
Context `{HO : HashOrder, DI : DigIp} `{DP : DigPex} `{ML : MpscLaws} {SD : Serde}.
Context (config : RelayServerConfig).

(** C12: a torn-down connection comes to its end. Once its read loop has ended and a health sweep has
    run later than the liveness deadline after its last frame, its queue only shrinks, whatever the
    other connections do: the writer takes at most what the sweep left in it, is then told that the
    channel is closed, and the task finishes and gives its open-connection slot back. *)
Theorem teardown_completes w c conn now w1 evs w2 :
  good_config config → reachable config w → closing w c conn →
  as_secs (liveness_deadline config) < sat_sub now (activity_load w c) →
  event_step config w (Sweep now) = Some w1 → run config w1 evs = Some w2 → WriterExits c ∉ evs →
  (takes c evs ≤ length (queue (outs w1) c))%nat ∧
  ∃ w3 w4,
    writer_drain config (S (length (queue (outs w1) c) - takes c evs)) w2 c = Some w3 ∧
    event_step config w3 (Finished c) = Some w4 ∧ conns w4 !! c = None ∧
    open_connections (st w4) = open_connections (st w2) - 1.
Proof.
  intros Hg Hr Hcl Hst Hs Hrun Hex.
  assert (unrecorded w1 c) as Hu1.
  { simpl in Hs. injection Hs as <-. apply sweep_unrecorded; [by apply Inv_reachable|done]. }
  assert (reachable config w1) as Hr1 by (by eapply reachable_step).
  assert (closing w1 c conn) as Hcl1.
  { apply (closing_event config Hg w c conn (Sweep now)); [by apply Inv_reachable|done..]. }
  destruct (closing_run config Hg w1 c conn evs w2) as [Hr2 Hcl2]; try done.
  destruct (unrecorded_run config Hg w1 c conn evs w2) as [Hu2 E]; try done.
  split; [lia|].
  destruct (drain_done config Hg w2 c conn (length (queue (outs w1) c) - takes c evs))
    as (w3 & Hd & Hr3 & Est & Ec & Hcls); try done; [lia|].
  assert (conns w3 !! c = Some conn) as Hc3 by (rewrite Ec; apply Hcl2).
  assert (event_step config w3 (Finished c) = Some (finish_connection w3 c conn)) as Hs3.
  { simpl. rewrite (proj2 (conn_in_Some w3 c Closing conn)) by (split; [done|apply Hcl]).
    simpl. by rewrite Hcls. }
  exists w3, (finish_connection w3 c conn). split_and!; [done..| |].
  - rewrite conns_finish. apply lookup_delete_eq.
  - assert (reachable config (finish_connection w3 c conn)) as Hr4 by (by eapply reachable_step).
    apply Inv_reachable in Hr3, Hr4; [|done..].
    rewrite <- Est, (sl_open _ _ _ _ _ (inv_slots _ _ _ Hr3)), (sl_open _ _ _ _ _ (inv_slots _ _ _ Hr4)).
    rewrite conns_finish, map_size_delete, Hc3.
    assert (size (conns w3) ≠ 0%nat); [|simpl; lia].
    apply map_size_ne_0_lookup. eauto.
Qed.

(** What the wait for the writer holds. As long as the writer does not end, and a write to a peer
    that reads nothing does not, the connection that has left its read loop keeps its task, whatever
    else happens: it does not finish, and it still counts as open. *)
Theorem stalled_writer_holds_slot w c conn evs w' :
  good_config config → reachable config w → closing w c conn →
  run config w evs = Some w' → WriterExits c ∉ evs →
  conns w' !! c = Some conn ∧ event_step config w' (Finished c) = None ∧
  1 ≤ open_connections (st w').
Proof.
  intros Hg Hr Hcl Hrun Hex.
  destruct (closing_run config Hg w c conn evs w') as [Hr' [Hc Hp Ho]]; try done.
  split_and!; [done| |].
  - simpl. rewrite (proj2 (conn_in_Some w' c Closing conn)) by done. simpl. by rewrite Ho.
  - apply Inv_reachable in Hr'; [|done]. rewrite (sl_open _ _ _ _ _ (inv_slots _ _ _ Hr')).
    assert (size (conns w') ≠ 0%nat); [|lia]. apply map_size_ne_0_lookup. eauto.
Qed.
End properties.
