(* ===== verification/Interleaving.v ===== *)
(** * The handlers section by section

    Server.v takes a handler as one step. The code (src/src/server.rs) does not: between two touches
    of shared state (an atomic counter, a lock held and released, a send into a queue) the runtime may
    run any other task. Here each of these touches is a step of its own. What is left of a handler
    waits in [pending] until it is chosen to go on, so the steps of any number of connections and of
    the background loops mix in any order. Taking the replies of a PEX frame one at a time, or the
    fan-out of a notification, is part of that. *)

From S2P Require Import Prelude Net Wire ProxyProtocol Config Limits Dial Channel Registry Pex.
From S2P Require Import DhtView Server.

(** A send into the queue of a connection. *)
Abbreviation Send := (nat * RelayMessage)%type.

Section pending.
Context `{DigPex}.

(** What a handler has still to do, with its local variables. The places in server.rs:
    - the beginning of [handle_connection], once the source is not banned: the cap on open
      connections ([PendCheck]), [OpenConnectionGuard] ([PendAdmit]), the per-IP slot ([PendSlot]), the
      strike when there is none ([PendAcceptStrike]), and the guard's drop ([PendGuardDrop]);
    - [handle_connection]'s loop, after a frame's admission: the strike of a flood ([PendFlood]),
      [handle_pex_frame] and its replies ([PendPex], [PendPexSends]), [record_relayed] ([PendCount]),
      the messages answered before [dispatch] ([PendHandle]), [dispatch] with [forward_to] and
      [broadcast] ([PendDispatch]) and the sends they end in ([PendSends]);
    - [register_peer]: the rate limit ([PendRate]), the per-IP registration slot ([PendAcquire]) and
      the strike of a refusal ([PendStrike]), the section under the registry's lock ([PendRegister]),
      its answer when it refuses ([PendRefuse]), its announcement to the network and to PEX
      ([PendAnnounce]), and the slot's keeping ([PendStore]);
    - the ends: [deregister] of the session ([PendLeave]), the notices of departures and their
      withdrawal from PEX, also of [sweep_once] ([PendDepart]), the drops of the guards ([PendDrop]),
      and the DHT view's publication ([PendPublish]). *)
Inductive Pending : Type :=
| PendCheck (c : nat) (addr : SocketAddr) (verified : option string) (now_ms : Z)
| PendAdmit (c : nat) (addr : SocketAddr) (verified : option string) (now_ms : Z)
| PendSlot (c : nat) (addr : SocketAddr) (verified : option string) (now_ms : Z)
| PendAcceptStrike (c : nat) (addr : SocketAddr) (now_ms : Z)
| PendGuardDrop (c : nat)
| PendFlood (c : nat) (addr : SocketAddr) (now_ms : Z)
| PendPex (c : nat) (frame : list Z) (now_ms : Z)
| PendPexSends (c : nat) (replies : list PexMessage)
| PendCount (c : nat) (msg : RelayMessage) (now_ms : Z)
| PendHandle (c : nat) (msg : RelayMessage) (now_ms : Z)
| PendDispatch (c : nat) (msg : RelayMessage) (now_ms : Z)
| PendSends (c : option nat) (sends : list Send)
| PendRate (c : nat) (peer_id network_id : string) (protocol_version : Z)
    (listen_addrs : list SocketAddr) (now_ms connected_now : Z)
| PendAcquire (c : nat) (peer_id network_id : string) (protocol_version : Z)
    (listen_addrs : list SocketAddr) (now_ms connected_now : Z)
| PendStrike (c : nat) (message : string) (now_ms connected_now : Z)
| PendRegister (c : nat) (slot : RegSlot) (peer_id network_id : string) (protocol_version : Z)
    (listen_addrs : list SocketAddr) (now_ms : Z)
| PendRefuse (c : nat) (slot : option RegSlot) (sends : list Send)
| PendAnnounce (c : nat) (slot : RegSlot) (peer_id network_id : string) (now_ms : Z)
    (sends : list Send)
| PendStore (c : nat) (slot : RegSlot) (peer_id network_id : string)
| PendLeave (c : nat)
| PendDepart (c : option nat) (departures : list (string * string * list (string * nat)))
| PendDrop (c : nat) (reg : option RegSlot) (ip : ConnSlot)
| PendPublish (answers : list PeerAnswer) (now : Z).

(** The connection task that is busy with it; the background loops have none. *)
Definition owner (p : Pending) : option nat :=
  match p with
  | PendCheck c _ _ _ | PendAdmit c _ _ _ | PendSlot c _ _ _ | PendAcceptStrike c _ _
  | PendGuardDrop c | PendFlood c _ _ | PendPex c _ _ | PendPexSends c _ | PendCount c _ _
  | PendHandle c _ _ | PendDispatch c _ _ | PendRate c _ _ _ _ _ _ | PendAcquire c _ _ _ _ _ _
  | PendStrike c _ _ _ | PendRegister c _ _ _ _ _ _ | PendRefuse c _ _ | PendAnnounce c _ _ _ _ _
  | PendStore c _ _ _ | PendLeave c | PendDrop c _ _ => Some c
  | PendSends c _ | PendDepart c _ => c
  | PendPublish _ _ => None
  end.

(** It is between the check of the open-connection cap and the increment, or about to check. *)
Definition is_admit (p : Pending) : bool := match p with PendAdmit _ _ _ _ => true | _ => false end.
Definition is_check (p : Pending) : bool := match p with PendCheck _ _ _ _ => true | _ => false end.

(** The wall clock is read anew by a strike, a registration's rate, its record and its mirror. *)
Definition restamp (now : Z) (p : Pending) : Pending :=
  match p with
  | PendAcceptStrike c addr _ => PendAcceptStrike c addr now
  | PendFlood c addr _ => PendFlood c addr now
  | PendRate c id n v l _ connected_now => PendRate c id n v l now connected_now
  | PendStrike c message _ connected_now => PendStrike c message now connected_now
  | PendRegister c slot id n v l _ => PendRegister c slot id n v l now
  | PendAnnounce c slot id n _ sends => PendAnnounce c slot id n now sends
  | _ => p
  end.

Definition admits (ps : list Pending) : nat := length (filter (λ p, is_admit p = true) ps).
End pending.

Section micro.
Context `{HashOrder, DigIp, DigPex, Mpsc} {SD : Serde} (config : RelayServerConfig).
(** The threads of the runtime. There is no await between an accept's check and its increment, so
    no more accepts than threads are between the two. *)
Context (workers : nat).

(** The section of a PEX frame under the PEX lock, and the replies to send. *)
Definition pex_section (w : World) (c : nat) (conn : Conn) (frame : list Z) (now_ms : Z)
    : World * list PexMessage :=
  let session := c_session conn in
  let peer_id := unwrap_or_default (s_peer_id session) in
  let network_id := unwrap_or_default (s_network_id session) in
  match pex_dispatch session (pex_from_json frame) with
  | NotRegistered =>
      (out_send w c (Error NOT_REGISTERED "register before sending PEX (RLY-001)"), [])
  | Handshake msg =>
      let p := on_register (pex (st w)) peer_id network_id (c_addr conn) c now_ms in
      let '(replies, p) := on_node_handshake p peer_id network_id msg now_ms in
      let session := MkSession (s_peer_id session) (s_network_id session) true in
      (set_conn (upd_st (λ s, set_pex s p) w) c (set_session conn session), replies)
  | Data msg =>
      let '(replies, p) := on_node_message (pex (st w)) peer_id network_id msg now_ms in
      (upd_st (λ s, set_pex s p) w, replies)
  | BadFrame =>
      let '(replies, p) := on_node_bad_frame (pex (st w)) peer_id network_id now_ms in
      (upd_st (λ s, set_pex s p) w, replies)
  | IgnorePreHandshake => (w, [])
  end.

(** The routing of a message: at most one look at the registry, and the sends that follow. *)
Definition dispatch_section (w : World) (c : nat) (conn : Conn) (msg : RelayMessage) (now_ms : Z)
    : option Pending :=
  let session := c_session conn in
  match dispatch session msg with
  | ActRegister peer_id network_id protocol_version listen_addrs =>
      Some (PendRate c peer_id network_id protocol_version listen_addrs now_ms (connected (st w)))
  | ForwardTo to msg =>
      network_id ← s_network_id session;
      match sender_in_network (registry (st w)) to network_id with
      | Some tx => Some (PendSends (Some c) [(tx, msg)])
      | None =>
          Some (PendSends (Some c) [(c, Error PEER_NOT_FOUND
            (String.append "peer " (String.append to " not connected to this relay")))])
      end
  | ActBroadcast from exclude msg =>
      network_id ← s_network_id session;
      let targets := broadcast_targets (registry (st w)) from network_id exclude in
      Some (PendSends (Some c) (map (λ t, (t.2, msg)) targets))
  | ReplyToSelf msgs => Some (PendSends (Some c) (map (pair c) msgs))
  | ActError code message => Some (PendSends (Some c) [(c, Error code message)])
  | Close => Some (PendLeave c)
  | Nothing => None
  end.

Definition handle_section (w : World) (c : nat) (conn : Conn) (msg : RelayMessage) (now_ms : Z)
    : World * option Pending :=
  let session := c_session conn in
  match msg with
  | DhtRecords records _ truncated =>
      (if is_some (s_peer_id session) then
         upd_st (λ s, set_dht s (dht_view s)
                        (dht_answers s ++ [MkPeerAnswer records truncated])) w
       else w, Some (PendDispatch c msg now_ms))
  | GetPeers network_id =>
      let filter := match network_id with Some n => Some n | None => s_network_id session end in
      (w, Some (PendSends (Some c) [(c, Peers (peers (registry (st w)) filter))]))
  | _ => (w, dispatch_section w c conn msg now_ms)
  end.

(** The two messages of a refusal. *)
Definition refusal_sends (c : nat) (code : Z) (message : string) (connected_peers : Z) : list Send :=
  [(c, RegisterAck false message connected_peers); (c, Error code message)].

(** [register_peer] under the registry's lock. *)
Definition register_section (w : World) (c : nat) (conn : Conn) (slot : RegSlot)
    (peer_id network_id : string) (protocol_version : Z) (listen_addrs : list SocketAddr)
    (now_ms : Z) : World * option Pending :=
  let '(res, reg) :=
    register_locked config w c peer_id network_id protocol_version listen_addrs (c_addr conn)
      (c_verified conn) (now_ms / 1000) in
  match res with
  | Refused code message connected_peers =>
      (w, Some (PendRefuse c (Some slot) (refusal_sends c code message connected_peers)))
  | Accepted outcome info connected_peers targets =>
      let w := upd_st (λ s, set_registry s reg) w in
      let w :=
        match outcome with
        | Registered => upd_st (λ s, set_connected s (wrap64 (connected s + 1))) w
        | _ => w
        end in
      (w, Some (PendAnnounce c slot peer_id network_id now_ms
                  ((c, RegisterAck true "registered" connected_peers) ::
                   map (λ t, (t.2, PeerConnected info)) targets)))
  end.

(** [deregister] under the registry's lock. *)
Definition deregister_section (w : World) (session : Session)
    : World * list (string * string * list (string * nat)) :=
  match s_peer_id session, s_network_id session with
  | Some peer_id, Some network_id =>
      match remove_locked (st w) peer_id network_id with
      | (Some targets, s) => (upd_st (λ _, s) w, [(peer_id, network_id, targets)])
      | (None, _) => (w, [])
      end
  | _, _ => (w, [])
  end.

(** The next step of a handler, for a connection task with its local variables. *)
Definition resume_conn (w : World) (c : nat) (conn : Conn) (p : Pending) : World * option Pending :=
  match p with
  | PendPex _ frame now_ms =>
      let '(w, replies) := pex_section w c conn frame now_ms in (w, Some (PendPexSends c replies))
  | PendHandle _ msg now_ms => handle_section w c conn msg now_ms
  | PendDispatch _ msg now_ms => (w, dispatch_section w c conn msg now_ms)
  | PendRate _ id n v l now_ms cn =>
      let '(ok, a) := allow_registration (policy config) (abuse (st w)) (sa_ip (c_addr conn)) now_ms in
      let w := upd_st (λ s, set_abuse s a) w in
      (w, Some (if ok then PendAcquire c id n v l now_ms cn else PendStrike c MSG_RATE now_ms cn))
  | PendAcquire _ id n v l now_ms cn =>
      let '(slot, a) := try_acquire_registration (policy config) (abuse (st w)) (sa_ip (c_addr conn)) in
      let w := upd_st (λ s, set_abuse s a) w in
      (w, Some match slot with
               | Some slot => PendRegister c slot id n v l now_ms
               | None => PendStrike c MSG_CONCURRENT now_ms cn
               end)
  | PendStrike _ message now_ms cn =>
      (abuse_strike config (sa_ip (c_addr conn)) now_ms w,
       Some (PendRefuse c None (refusal_sends c RATE_LIMITED message cn)))
  | PendRegister _ slot id n v l now_ms => register_section w c conn slot id n v l now_ms
  | PendAnnounce _ slot id n now_ms [] =>
      (upd_st (λ s, set_pex s (on_register (pex s) id n (c_addr conn) c now_ms)) w,
       Some (PendStore c slot id n))
  | PendStore _ slot id n =>
      let w := match c_reg_slot conn with Some old => release_reg_slot old w | None => w end in
      let session := MkSession (Some id) (Some n) (s_pex_active (c_session conn)) in
      (set_conn w c (set_session (set_reg_slot conn (Some slot)) session), None)
  | PendLeave _ =>
      let '(w, l) := deregister_section w (c_session conn) in (w, Some (PendDepart (Some c) l))
  | PendDepart _ [] => (set_conn w c (set_phase conn Closing), None)
  | _ => (w, Some p)
  end.

(** The same where no local variable is needed; the rest is [resume_conn]'s. *)
Definition resume (w : World) (p : Pending) : World * option Pending :=
  match p with
  | PendCheck c addr verified now_ms =>
      (w, if max_connections config <=? open_connections (st w) then None
          else Some (PendAdmit c addr verified now_ms))
  | PendAdmit c addr verified now_ms =>
      (upd_st open_guard_acquire w, Some (PendSlot c addr verified now_ms))
  | PendSlot c addr verified now_ms =>
      let '(slot, a) := try_acquire_conn (policy config) (abuse (st w)) (sa_ip addr) in
      let w := upd_st (λ s, set_abuse s a) w in
      match slot with
      | None => (w, Some (PendAcceptStrike c addr now_ms))
      | Some ip_slot =>
          (set_conn w c (MkConn Handshaking addr verified ip_slot session_default
                           (limiter_new config now_ms) None), None)
      end
  | PendAcceptStrike c addr now_ms =>
      (abuse_strike config (sa_ip addr) now_ms w, Some (PendGuardDrop c))
  | PendGuardDrop _ => (upd_st open_guard_drop w, None)
  | PendFlood c addr now_ms => (abuse_strike config (sa_ip addr) now_ms w, Some (PendLeave c))
  | PendPexSends c (m :: ms) => (set_pexs w (try_send (pexs w) c m), Some (PendPexSends c ms))
  | PendPexSends _ [] => (w, None)
  | PendCount c msg now_ms => (upd_st (λ s, record_relayed s msg) w, Some (PendHandle c msg now_ms))
  | PendSends c ((tx, m) :: l) => (out_send w tx m, Some (PendSends c l))
  | PendSends _ [] => (w, None)
  | PendRefuse c slot ((tx, m) :: l) => (out_send w tx m, Some (PendRefuse c slot l))
  | PendRefuse c slot [] =>
      (match slot with Some slot => release_reg_slot slot w | None => w end, Some (PendLeave c))
  | PendAnnounce c slot id n now_ms ((tx, m) :: l) =>
      (out_send w tx m, Some (PendAnnounce c slot id n now_ms l))
  | PendDepart c ((id, n, (_, tx) :: ts) :: l) =>
      (out_send w tx (PeerDisconnected id), Some (PendDepart c ((id, n, ts) :: l)))
  | PendDepart c ((id, n, []) :: l) =>
      (upd_st (λ s, set_pex s (on_unregister (pex s) id n)) w, Some (PendDepart c l))
  | PendDepart None [] => (w, None)
  | PendDrop c (Some reg) ip => (release_reg_slot reg w, Some (PendDrop c None ip))
  | PendDrop c None ip => (release_conn_slot ip w, Some (PendGuardDrop c))
  | PendPublish answers now =>
      (upd_st (λ s, set_dht s (build_dht_view answers now) (dht_answers s)) w, None)
  | _ =>
      match owner p with
      | Some c => match conns w !! c with Some conn => resume_conn w c conn p | None => (w, Some p) end
      | None => (w, Some p)
      end
  end.

Definition without_conn (w : World) (c : nat) : World :=
  MkWorld (st w) (outs w) (pexs w) (activity w) (delete c (conns w)).

(** The end of a connection task gives back what it holds, in the reverse order of acquisition. *)
Definition drops (w : World) (c : nat) (conn : Conn) : World * option Pending :=
  (without_conn w c, Some (PendDrop c (c_reg_slot conn) (c_ip_slot conn))).

(** A frame up to its first touch of what other tasks see, its activity clock apart. *)
Definition frame_section (w : World) (c : nat) (conn : Conn) (frame : list Z) (now_ms mono : Z)
    : World * option Pending :=
  let w := set_activity w (<[c := mono]> (activity w)) in
  let '(verdict, limiter) := admit_frame (c_limiter conn) (Z.of_nat (length frame)) now_ms in
  let conn := set_limiter conn limiter in
  (set_conn w c conn,
   Some match verdict with
        | Disconnect => PendFlood c (c_addr conn) now_ms
        | AdmitOk =>
            if is_pex_frame frame then PendPex c frame now_ms
            else
              match relay_from_slice frame with
              | None => PendSends (Some c) [(c, Error BAD_MESSAGE "invalid relay JSON")]
              | Some msg => PendCount c msg now_ms
              end
        end).

(** The first step of what an event sets off. *)
Definition start (w : World) (ev : Event) : option (World * option Pending) :=
  match ev with
  | Accept c addr verified now_ms =>
      if is_some (conns w !! c) || is_some (outs w !! c) then None
      else
        let '(banned, a) := is_banned (policy config) (abuse (st w)) (sa_ip addr) now_ms in
        Some (upd_st (λ s, set_abuse s a) w,
              if banned then None else Some (PendCheck c addr verified now_ms))
  | HandshakeEnded c => conn ← conn_in w c Handshaking; Some (drops w c conn)
  | Frame c frame now_ms mono =>
      conn ← conn_in w c Serving; Some (frame_section w c conn frame now_ms mono)
  | ReadEnded c => _ ← conn_in w c Serving; Some (w, Some (PendLeave c))
  | Finished c =>
      conn ← conn_in w c Closing; if is_closed (outs w) c then Some (drops w c conn) else None
  | Sweep mono =>
      let victims :=
        dead_or_stale (tx_closed w) (activity_load w) (registry (st w)) mono
          (as_secs (liveness_deadline config)) in
      let '(pruned, s) := remove_victims (st w) victims in
      Some (upd_st (λ _, s) w, Some (PendDepart None pruned))
  | DhtAsk =>
      Some (w, Some (PendSends None
        (map (λ t, (t.2, GetDhtRecords DHT_MAX_KEYS_PER_PEER)) (all_senders (registry (st w))))))
  | DhtCollect now_secs =>
      Some (upd_st (λ s, set_dht s (dht_view s) []) w,
            Some (PendPublish (dht_answers (st w)) now_secs))
  | Upgraded _ _ _ | WriterSends _ | WriterSendsPex _ | WriterExits _ | PexTick _ =>
      w' ← event_step config w ev; Some (w', None)
  end.

(** The connection task an event belongs to; its writer is a task of its own. *)
Definition task_of (ev : Event) : option nat :=
  match ev with
  | Accept c _ _ _ | HandshakeEnded c | Upgraded c _ _ | Frame c _ _ _ | ReadEnded c | Finished c =>
      Some c
  | _ => None
  end.

Record Micro := MkMicro { mw : World; pending : list Pending }.

Definition micro_new : Micro := MkMicro world_new [].

(** The task is in the middle of something. *)
Definition busy (m : Micro) (task : option nat) : Prop :=
  is_Some task ∧ task ∈ owner <$> pending m.

Global Instance busy_dec m task : Decision (busy m task).
Proof. unfold busy. apply _. Defined.

(** A handler begins, or the one at position [i] of those in progress goes on, at [now_ms]. *)
Inductive MicroStep : Type := Starts (ev : Event) | Resumes (i : nat) (now_ms : Z).

Definition micro_step (m : Micro) (x : MicroStep) : option Micro :=
  match x with
  | Starts ev =>
      if decide (busy m (task_of ev)) then None
      else '(w, p) ← start (mw m) ev; Some (MkMicro w (pending m ++ option_list p))
  | Resumes i now_ms =>
      p ← pending m !! i;
      if is_check p && (workers <=? admits (pending m))%nat then None
      else
        let '(w, p') := resume (mw m) (restamp now_ms p) in
        Some (MkMicro w (take i (pending m) ++ option_list p' ++ drop (S i) (pending m)))
  end.

Fixpoint micro_run (m : Micro) (xs : list MicroStep) : option Micro :=
  match xs with
  | [] => Some m
  | x :: xs => m' ← micro_step m x; micro_run m' xs
  end.

(** Any interleaving. *)
Inductive interleaved : Micro → Prop :=
| interleaved_init : interleaved micro_new
| interleaved_step m x m' : interleaved m → micro_step m x = Some m' → interleaved m'.

Lemma interleaved_run m xs m' : interleaved m → micro_run m xs = Some m' → interleaved m'.
Proof.
  revert m. induction xs as [|x xs IH]; simpl; intros m Hm Hr; [by simplify_eq|].
  destruct (micro_step m x) as [m1|] eqn:E; [|done]. eapply IH; [|exact Hr].
  by eapply interleaved_step.
Qed.

Lemma micro_run_app m xs ys :
  micro_run m (xs ++ ys) = m' ← micro_run m xs; micro_run m' ys.
Proof.
  revert m. induction xs as [|x xs IH]; intros m; simpl; [done|].
  destruct (micro_step m x) as [m1|]; simpl; [apply IH|done].
Qed.
End micro.
