(* ===== verification/InterleavingInv.v ===== *)
(** * What holds between any two sections

    The invariant of Interleaving.v: the counters, the slots and the queues, and who an id belongs
    to, whatever is in progress. *)

From S2P Require Import Prelude Net Wire ProxyProtocol Config Limits Dial Channel Registry Pex.
From S2P Require Import DhtView Server ServerInv ServerProps Interleaving.

(** ** What a handler in progress holds *)

Section held.
Context `{DigPex}.

Definition is_guard (p : Pending) : bool :=
  match p with
  | PendSlot _ _ _ _ | PendAcceptStrike _ _ _ | PendGuardDrop _ | PendDrop _ _ _ => true
  | _ => false
  end.

Definition ip_of (p : Pending) : list Slot := match p with PendDrop _ _ ip => [ip] | _ => [] end.

Definition reg_of (p : Pending) : list Slot :=
  match p with
  | PendRegister _ slot _ _ _ _ _ | PendAnnounce _ slot _ _ _ _ | PendStore _ slot _ _ => [slot]
  | PendRefuse _ slot _ | PendDrop _ slot _ => slot_list slot
  | _ => []
  end.

(** Open-connection guards, and per-IP slots of either kind. *)
Definition guards (ps : list Pending) : nat := length (filter (λ p, is_guard p = true) ps).
Definition ip_held (ps : list Pending) : list Slot := ps ≫= ip_of.
Definition reg_held (ps : list Pending) : list Slot := ps ≫= reg_of.

(** Where its connection is: not yet there, there and in its read loop, or taken down. *)
Inductive Place : Type := Fresh | Within | Gone.

Definition place (p : Pending) : Place :=
  match p with
  | PendCheck _ _ _ _ | PendAdmit _ _ _ _ | PendSlot _ _ _ _ => Fresh
  | PendAcceptStrike _ _ _ | PendGuardDrop _ | PendDrop _ _ _ => Gone
  | _ => Within
  end.

Lemma guards_cons p ps : guards (p :: ps) = ((if is_guard p then 1 else 0) + guards ps)%nat.
Proof. unfold guards. rewrite filter_cons. by destruct (is_guard p). Qed.

Lemma admits_cons p ps : admits (p :: ps) = ((if is_admit p then 1 else 0) + admits ps)%nat.
Proof. unfold admits. rewrite filter_cons. by destruct (is_admit p). Qed.

Lemma guards_perm ps qs : ps ≡ₚ qs → guards ps = guards qs.
Proof. intros E. unfold guards. by rewrite E. Qed.

Lemma admits_perm ps qs : ps ≡ₚ qs → admits ps = admits qs.
Proof. intros E. unfold admits. by rewrite E. Qed.
End held.

Section invariant.
Context `{HO : HashOrder, DI : DigIp} `{DP : DigPex} `{ML : MpscLaws} {SD : Serde}.
Context (config : RelayServerConfig) (workers : nat).
Hypothesis Hgood : good_config config.

Definition in_place (w : World) (c : nat) (pl : Place) : Prop :=
  match pl with
  | Fresh => conns w !! c = None ∧ outs w !! c = None
  | Within => ∃ conn, conns w !! c = Some conn ∧ c_phase conn = Serving
  | Gone => conns w !! c = None
  end.

Record counted (s : RelayState) : Prop := {
  cn_wf : wf_registry (registry s);
  cn_connected : connected s = registry_len (registry s);
  cn_cap : registry_len (registry s) ≤ max_connections config }.

(** The counters and the slots. *)
Record accounts (w : World) (ps : list Pending) : Prop := {
  ac_open : open_connections (st w) = Z.of_nat (size (conns w) + guards ps);
  ac_cap : open_connections (st w) + Z.of_nat (admits ps) ≤ max_connections config - 1 + Z.of_nat workers;
  ac_ip : pool_ok (max_connections_per_ip config) (conns_per_ip (abuse (st w)))
            (ip_held ps ++ ip_slots (conns w));
  ac_reg : pool_ok (max_registrations_per_ip config) (regs_per_ip (abuse (st w)))
             (reg_held ps ++ reg_slots (conns w)) }.

(** The tasks: one thing at a time each, and where it says it is. *)
Record orderly_tasks (w : World) (ps : list Pending) : Prop := {
  ot_nodup : NoDup (omap owner ps);
  ot_place p c : p ∈ ps → owner p = Some c → in_place w c (place p) }.

(** The registry and the queues. *)
Record settled (w : World) : Prop := {
  se_counted : counted (st w);
  se_tx id q : registry (st w) !! id = Some q → peer_tx q ∈ dom (outs w);
  se_proved : proved (registry (st w)) (conns w);
  se_outs : chans_ok (outbound_queue_capacity config) (outs w);
  se_pexs : chans_ok (outbound_queue_capacity config) (pexs w);
  se_phase c conn : conns w !! c = Some conn → c ∈ dom (outs w) ↔ c_phase conn ≠ Handshaking }.

Record sound (w : World) (ps : list Pending) : Prop := {
  so_settled : settled w;
  so_accounts : accounts w ps;
  so_tasks : orderly_tasks w ps }.

(** *** The order of what is pending does not matter *)

Global Instance accounts_perm w : Proper ((≡ₚ) ==> impl) (accounts w).
Proof.
  intros ps qs E [H1 H2 H3 H4]. unfold ip_held, reg_held in *.
  split; [by rewrite <- (guards_perm _ _ E)|by rewrite <- (admits_perm _ _ E)|..].
  - eapply pool_ok_perm; [|exact H3]. unfold ip_held. by rewrite E.
  - eapply pool_ok_perm; [|exact H4]. unfold reg_held. by rewrite E.
Qed.

Global Instance orderly_tasks_perm w : Proper ((≡ₚ) ==> impl) (orderly_tasks w).
Proof.
  intros ps qs E [H1 H2]. split; [by rewrite <- E|]. intros p c Hp. apply H2. by rewrite E.
Qed.

Global Instance sound_perm w : Proper ((≡ₚ) ==> impl) (sound w).
Proof. intros ps qs E [H1 H2 H3]. split; [done|by rewrite <- E|by rewrite <- E]. Qed.

(** *** Steps that leave all that alone *)

(** Nothing moved but messages, clocks and what the invariant does not speak of. *)
Record still (w w' : World) : Prop := {
  sw_registry : registry (st w') = registry (st w);
  sw_connected : connected (st w') = connected (st w);
  sw_open : open_connections (st w') = open_connections (st w);
  sw_counts : same_counts (abuse (st w)) (abuse (st w'));
  sw_conns : conns w' = conns w;
  sw_dom : dom (outs w') = dom (outs w);
  sw_outs cap : chans_ok cap (outs w) → chans_ok cap (outs w');
  sw_pexs cap : chans_ok cap (pexs w) → chans_ok cap (pexs w') }.

Lemma still_refl w : still w w.
Proof. done. Qed.

Lemma still_sends w o px : sends (outs w) o → sends (pexs w) px → still w (set_pexs (set_outs w o) px).
Proof. intros [D1 _ O1] [D2 _ O2]. by split. Qed.

Lemma still_out_send w tx m : still w (out_send w tx m).
Proof. destruct (sends_try_send (outs w) tx m) as [D _ O]. by split. Qed.

Lemma still_pex_send w tx m : still w (set_pexs w (try_send (pexs w) tx m)).
Proof. destruct (sends_try_send (pexs w) tx m) as [D _ O]. by split. Qed.

Lemma still_abuse w a : same_counts (abuse (st w)) a → still w (upd_st (λ s, set_abuse s a) w).
Proof. intros Ha. by split. Qed.

Lemma still_strike w ip now : still w (abuse_strike config ip now w).
Proof. apply still_abuse, same_counts_record_strike. Qed.

Lemma still_pex w p : still w (upd_st (λ s, set_pex s p) w).
Proof. done. Qed.

Lemma still_relayed w msg : still w (upd_st (λ s, record_relayed s msg) w).
Proof. split; try done; destruct msg; try done; by destruct success. Qed.

Lemma still_settled w w' : settled w → still w w' → settled w'.
Proof.
  intros [[H1 H2 H3] H4 H5 H6 H7 H8] [Er Ec Eo Ea En Ed Ho Hp].
  split; rewrite ?Er, ?En, ?Ed; auto. split; by rewrite ?Er, ?Ec.
Qed.

Lemma still_accounts w w' ps : accounts w ps → still w w' → accounts w' ps.
Proof.
  intros [H1 H2 H3 H4] [Er Ec Eo [Ea1 Ea2] En Ed Ho Hp].
  split; rewrite ?Eo, ?En, ?Ea1, ?Ea2; done.
Qed.

Lemma dom_None {A} (m m' : gmap nat A) c : dom m' = dom m → m !! c = None ↔ m' !! c = None.
Proof. intros E. by rewrite <- !not_elem_of_dom, E. Qed.

Lemma still_tasks w w' ps : orderly_tasks w ps → still w w' → orderly_tasks w' ps.
Proof.
  intros [H1 H2] [Er Ec Eo Ea En Ed Ho Hp]. split; [done|].
  intros p c Hin Hc. specialize (H2 p c Hin Hc).
  destruct (place p); simpl in *; rewrite En; [|done|done].
  by rewrite <- (dom_None _ _ _ Ed).
Qed.

Lemma still_sound w w' ps : sound w ps → still w w' → sound w' ps.
Proof.
  intros [H1 H2 H3] Hs. split; [by eapply still_settled|by eapply still_accounts|by eapply still_tasks].
Qed.

(** *** Going on, ending and beginning without taking or giving anything *)

Lemma owner_nodup (ps : list Pending) p c :
  NoDup (omap owner (p :: ps)) → owner p = Some c → ∀ q, q ∈ ps → owner q ≠ Some c.
Proof.
  intros Hn Hp q Hq E. simpl in Hn. rewrite Hp in Hn. apply NoDup_cons in Hn as [Hn _].
  apply Hn. apply list_elem_of_omap. by exists q.
Qed.

(** The same task goes on with the same holdings in the same place. *)
Definition alike (p p' : Pending) : Prop :=
  owner p' = owner p ∧ place p' = place p ∧ is_admit p' = is_admit p ∧ is_guard p' = is_guard p ∧
  ip_of p' = ip_of p ∧ reg_of p' = reg_of p.

Lemma sound_alike w p p' ps : sound w (p :: ps) → alike p p' → sound w (p' :: ps).
Proof.
  intros [H1 [A1 A2 A3 A4] [T1 T2]] (Eo & Epl & Ea & Eg & Ei & Er). split; [done|..].
  - rewrite guards_cons in A1. rewrite admits_cons in A2. unfold ip_held, reg_held in *. simpl in *.
    split; rewrite ?guards_cons, ?admits_cons, ?Ea, ?Eg; unfold ip_held, reg_held; simpl;
      rewrite ?Ei, ?Er; done.
  - split; [simpl in *; by rewrite Eo|].
    intros q c [->|Hq]%elem_of_cons Hc; [|apply T2; [by right|done]].
    rewrite Eo in Hc. rewrite Epl. apply T2; [by left|done].
Qed.

(** It holds nothing. *)
Definition empty_handed (p : Pending) : Prop :=
  is_admit p = false ∧ is_guard p = false ∧ ip_of p = [] ∧ reg_of p = [].

Lemma accounts_end w p ps : accounts w (p :: ps) → empty_handed p → accounts w ps.
Proof.
  intros [A1 A2 A3 A4] (Ea & Eg & Ei & Er). rewrite guards_cons, Eg in A1.
  rewrite admits_cons, Ea in A2. unfold ip_held, reg_held in *. simpl in *.
  rewrite Ei in A3. rewrite Er in A4. done.
Qed.

Lemma tasks_end w p ps : orderly_tasks w (p :: ps) → orderly_tasks w ps.
Proof.
  intros [T1 T2]. split; [|intros q c Hq; apply T2; by right].
  simpl in T1. destruct (owner p); [by apply NoDup_cons in T1 as [_ ?]|done].
Qed.

Lemma sound_end w p ps : sound w (p :: ps) → empty_handed p → sound w ps.
Proof.
  intros [H1 H2 H3] He. split; [done|by eapply accounts_end|by eapply tasks_end].
Qed.

Lemma accounts_begin w p ps : accounts w ps → empty_handed p → accounts w (p :: ps).
Proof.
  intros [A1 A2 A3 A4] (Ea & Eg & Ei & Er). unfold ip_held, reg_held in *.
  split; rewrite ?guards_cons, ?admits_cons, ?Ea, ?Eg; unfold ip_held, reg_held; simpl;
    rewrite ?Ei, ?Er; done.
Qed.

Lemma tasks_begin w p ps :
  orderly_tasks w ps → (∀ c, owner p = Some c → (Some c ∉ (owner <$> ps)) ∧ in_place w c (place p)) →
  orderly_tasks w (p :: ps).
Proof.
  intros [T1 T2] Hp. split.
  - simpl. destruct (owner p) as [c|]; [|done]. apply NoDup_cons. split; [|done].
    destruct (Hp c eq_refl) as [Hn _]. rewrite list_elem_of_omap. intros (q & Hq & E).
    apply Hn. apply list_elem_of_fmap. by exists q.
  - intros q c [->|Hq]%elem_of_cons Hc; [by apply Hp|by apply T2].
Qed.

Lemma sound_begin w p ps :
  sound w ps → empty_handed p →
  (∀ c, owner p = Some c → (Some c ∉ (owner <$> ps)) ∧ in_place w c (place p)) → sound w (p :: ps).
Proof.
  intros [H1 H2 H3] He Hp. split; [done|by apply accounts_begin|by apply tasks_begin].
Qed.
(** *** The registry *)

Lemma counted_remove_locked s id net : counted s → counted (remove_locked s id net).2.
Proof.
  intros [Hwf Hn Hc]. rewrite remove_locked_cases. destruct (registry s !! id) as [q|] eqn:Hq; [|done].
  pose proof (registry_len_delete _ _ _ Hq). pose proof (registry_len_nonneg (delete id (registry s))).
  pose proof (good_max config Hgood). unfold is_u64 in *.
  split; simpl; [by apply wf_registry_delete| |lia].
  rewrite Hn, wrap64_small by (unfold is_u64; lia). lia.
Qed.

(** The state after some removals. *)
Record shrunk (s s' : RelayState) : Prop := {
  sh_sub id q : registry s' !! id = Some q → registry s !! id = Some q;
  sh_counted : counted s → counted s';
  sh_open : open_connections s' = open_connections s;
  sh_abuse : abuse s' = abuse s;
  sh_pex : pex s' = pex s }.

Lemma shrunk_refl s : shrunk s s.
Proof. by split. Qed.

Lemma shrunk_remove_locked s id net : shrunk s (remove_locked s id net).2.
Proof.
  split; [|by apply counted_remove_locked|..]; rewrite remove_locked_cases; destruct (registry s !! id);
    try done. simpl. by intros id' q [_ ?]%lookup_delete_Some.
Qed.

Lemma shrunk_remove_victims s vs : shrunk s (remove_victims s vs).2.
Proof.
  revert s. induction vs as [|[id net] vs IH]; intros s; simpl; [apply shrunk_refl|].
  pose proof (shrunk_remove_locked s id net) as [A1 A2 A3 A4 A5].
  destruct (remove_locked s id net) as [ts s1]. simpl in *. specialize (IH s1).
  destruct (remove_victims s1 vs) as [pr s2]. destruct IH as [B1 B2 B3 B4 B5]. simpl in *.
  split; [eauto|eauto|congruence..].
Qed.

Lemma sound_shrunk w s ps : sound w ps → shrunk (st w) s → sound (upd_st (λ _, s) w) ps.
Proof.
  intros [[H1 H2 H3 H4 H5 H6] [A1 A2 A3 A4] HT] [S1 S2 S3 S4 S5]. split.
  - split; simpl; eauto. intros id q conn v Hq. eapply H3. eauto.
  - split; simpl; rewrite ?S3, ?S4; done.
  - by destruct HT.
Qed.

Lemma shrunk_deregister w session :
  ∃ s, (deregister_section w session).1 = upd_st (λ _, s) w ∧ shrunk (st w) s.
Proof.
  assert (∃ s, w = upd_st (λ _, s) w ∧ shrunk (st w) s) as Hid.
  { exists (st w). split; [by destruct w|apply shrunk_refl]. }
  unfold deregister_section. destruct (s_peer_id session) as [id|]; [|exact Hid].
  destruct (s_network_id session) as [n|]; [|exact Hid].
  pose proof (shrunk_remove_locked (st w) id n) as Hs.
  destruct (remove_locked (st w) id n) as [[ts|] s]; [|exact Hid]. by exists s.
Qed.

(** What a registration's section does. *)
Lemma register_section_cases w c conn slot id net pv addrs now w' p :
  register_section config w c conn slot id net pv addrs now = (w', Some p) →
  (w' = w ∧ ∃ sends, p = PendRefuse c (Some slot) sends) ∨
  ∃ info s sends, p = PendAnnounce c slot id net now sends ∧ w' = upd_st (λ _, s) w ∧
    registry s = <[id := MkPeer net info c c]> (registry (st w)) ∧
    pex s = pex (st w) ∧ open_connections s = open_connections (st w) ∧ abuse s = abuse (st w) ∧
    (∀ v, c_verified conn = Some v → id = v) ∧ (counted (st w) → counted s).
Proof.
  unfold register_section.
  destruct (register_locked _ _ _ _ _ _ _ _ _ _) as [res r] eqn:Hl.
  apply register_locked_cases in Hl as
    [(_ & code & msg & n & ->)|(o & info & cp & ts & -> & Hv & Hlt & Hid & Hnet & Hreg & Ho)].
  { intros [= <- <-]. left. by eauto. }
  intros E. right. set (s := set_connected (set_registry (st w) r)
    match o with Registered => wrap64 (connected (st w) + 1) | _ => connected (st w) end).
  assert (w' = upd_st (λ _, s) w ∧ p = PendAnnounce c slot id net now
    ((c, RegisterAck true "registered" cp) :: map (λ t, (t.2, PeerConnected info)) ts)) as [-> ->].
  { by destruct o; simplify_eq. }
  exists info, s. eexists. split; [done|]. split; [done|].
  assert (r = <[id := MkPeer net info c c]> (registry (st w)) ∧
    registry_len r = match o with Registered => registry_len (registry (st w)) + 1
                                | _ => registry_len (registry (st w)) end) as [Er El].
  { unfold register in Hreg. unfold registry_len. destruct (registry (st w) !! id) as [e|] eqn:Ee.
    - destruct (negb (tx_closed w (peer_tx e))); [by simplify_eq|]. injection Hreg as <- <-.
      split; [done|]. by rewrite map_size_insert, Ee.
    - injection Hreg as <- <-. split; [done|]. rewrite map_size_insert, Ee. simpl. lia. }
  split_and!; try done. intros [Hwf Hn Hc].
  pose proof (good_max config Hgood). pose proof (registry_len_nonneg (registry (st w))).
  unfold is_u64 in *. split; simpl.
  - rewrite Er. by apply wf_registry_insert.
  - rewrite El, Hn. destruct o; try done. rewrite wrap64_small; [done|]. unfold is_u64. lia.
  - rewrite El. destruct o; try done; lia.
Qed.

(** *** A connection's local state *)

Lemma settled_set_conn w c conn conn' :
  settled w → conns w !! c = Some conn → c_verified conn' = c_verified conn →
  (c_phase conn' = Handshaking ↔ c_phase conn = Handshaking) → settled (set_conn w c conn').
Proof.
  intros [H1 H2 H3 H4 H5 H6] Hc Hv Hp. split; simpl; try done; [by eapply proved_update|].
  intros c' cn [[<- <-]|[_ Hl]]%lookup_insert_Some; [|by apply H6].
  rewrite (H6 c conn Hc). tauto.
Qed.

Lemma tasks_set_conn w c conn conn' ps :
  orderly_tasks w ps → conns w !! c = Some conn → c_phase conn' = c_phase conn →
  orderly_tasks (set_conn w c conn') ps.
Proof.
  intros [T1 T2] Hc Hp. split; [done|]. intros p d Hin Hd. specialize (T2 p d Hin Hd).
  destruct (decide (c = d)) as [<-|Hne]; destruct (place p); simpl in *;
    rewrite ?lookup_insert_eq, ?lookup_insert_ne by done; try done.
  - destruct T2 as [? _]. congruence.
  - exists conn'. split; [done|]. destruct T2 as (cn & ? & ?). congruence.
  - congruence.
Qed.

Lemma sound_set_conn w c conn conn' ps :
  sound w ps → conns w !! c = Some conn → keeps conn conn' → c_reg_slot conn' = c_reg_slot conn →
  sound (set_conn w c conn') ps.
Proof.
  intros [HS [A1 A2 A3 A4] HT] Hc (Eph & Ev & Ei & Ead) Er. split.
  - by eapply settled_set_conn; [| |done|rewrite Eph].
  - split; simpl; [by rewrite map_size_insert, Hc|done|..].
    + eapply pool_ok_perm; [|exact A3]. f_equiv. symmetry. by eapply ip_slots_update.
    + eapply pool_ok_perm; [|exact A4]. f_equiv. symmetry. by eapply reg_slots_same.
  - by eapply tasks_set_conn.
Qed.
(** *** Guards *)

Section wide.
Hypothesis Hwide : max_connections config + Z.of_nat workers ≤ u64_max.

Lemma sound_check w c addr v now ps :
  sound w (PendCheck c addr v now :: ps) → open_connections (st w) < max_connections config →
  (admits (PendCheck c addr v now :: ps) < workers)%nat → sound w (PendAdmit c addr v now :: ps).
Proof.
  intros [HS [A1 A2 A3 A4] [T1 T2]] Hlt Hw. rewrite admits_cons in Hw. simpl in Hw. split; [done|..].
  - split; [done| |done|done]. rewrite admits_cons. simpl. lia.
  - split; [done|]. intros p d [->|Hp]%elem_of_cons Hd; [|apply T2; [by right|done]].
    by apply (T2 (PendCheck c addr v now)); [left|].
Qed.

Lemma sound_admit w c addr v now ps :
  sound w (PendAdmit c addr v now :: ps) →
  sound (upd_st open_guard_acquire w) (PendSlot c addr v now :: ps).
Proof.
  intros [HS [A1 A2 A3 A4] [T1 T2]]. pose proof (good_max config Hgood) as Hm. unfold is_u64 in Hm.
  rewrite guards_cons in A1. rewrite admits_cons in A2. simpl in A1, A2.
  assert (wrap64 (open_connections (st w) + 1) = open_connections (st w) + 1) as Hw
    by (apply wrap64_small; unfold is_u64; lia).
  split; [by destruct HS as [[]]|..].
  - split; simpl; rewrite ?guards_cons, ?admits_cons; simpl; rewrite ?Hw; [lia|lia|done|done].
  - split; [done|]. intros p d [->|Hp]%elem_of_cons Hd; [|apply (T2 p d); [by right|done]].
    by apply (T2 (PendAdmit c addr v now)); [left|].
Qed.

Lemma sound_guard w c ps :
  sound w (PendGuardDrop c :: ps) → sound (upd_st open_guard_drop w) ps.
Proof.
  intros [HS [A1 A2 A3 A4] HT]. pose proof (good_max config Hgood) as Hm. unfold is_u64 in Hm.
  rewrite guards_cons in A1. rewrite admits_cons in A2. simpl in A1, A2.
  assert (wrap64 (open_connections (st w) - 1) = open_connections (st w) - 1) as Hw
    by (apply wrap64_small; unfold is_u64; lia).
  split; [by destruct HS as [[]]| |].
  - split; simpl; rewrite ?Hw; [lia|lia|done|done].
  - by apply tasks_end in HT as [].
Qed.
End wide.

(** *** Slots *)

Lemma caps_unsigned :
  0 ≤ max_connections_per_ip config ∧ 0 ≤ max_registrations_per_ip config.
Proof. destruct Hgood as [Hu _]. unfold unsigned_config, is_u32 in Hu. lia. Qed.

Lemma tasks_regard w w' ps :
  orderly_tasks w ps → conns w' = conns w → outs w' = outs w → orderly_tasks w' ps.
Proof.
  intros [T1 T2] Ec Eo. split; [done|]. intros p c Hp Hc. specialize (T2 p c Hp Hc).
  destruct (place p); simpl in *; by rewrite ?Ec, ?Eo.
Qed.

(** A step of one task, for the others. *)
Lemma tasks_swap w p p' ps c :
  orderly_tasks w (p :: ps) → owner p = Some c → owner p' = Some c → in_place w c (place p') →
  orderly_tasks w (p' :: ps).
Proof.
  intros [T1 T2] Hp Hp' Hpl. split; [simpl in *; by rewrite Hp'; rewrite Hp in T1|].
  intros q d [->|Hq]%elem_of_cons Hd; [|apply T2; [by right|done]]. rewrite Hp' in Hd.
  by injection Hd as <-.
Qed.

Lemma sound_slot w c addr v now ps w' p' :
  sound w (PendSlot c addr v now :: ps) → resume config w (PendSlot c addr v now) = (w', p') →
  sound w' (option_list p' ++ ps).
Proof.
  intros [HS [A1 A2 A3 A4] HT] Hr. simpl in Hr.
  pose proof (try_acquire_conn_counts (policy config) (abuse (st w)) (sa_ip addr) _
    (proj1 caps_unsigned) A3) as Ha.
  destruct (ot_place _ _ HT (PendSlot c addr v now) c) as [Hc Ho]; [by left|done|].
  destruct (try_acquire_conn _ _ _) as [slot a]. destruct Ha as (Hm & Hrr & Hsl).
  rewrite guards_cons in A1. rewrite admits_cons in A2. simpl in A1, A2.
  destruct slot as [slot|]; injection Hr as <- <-; simpl.
  - split.
    + destruct HS as [[] H2 H3 H4 H5 H6]. split; simpl; try done.
      * intros id q conn w0 Hq [[E <-]|[_ Hl]]%lookup_insert_Some Hv; [|by eapply H3].
        apply H2 in Hq. rewrite <- E, elem_of_dom, Ho in Hq. by destruct Hq.
      * intros d conn [[<- <-]|[_ Hl]]%lookup_insert_Some; [|by apply H6].
        simpl. rewrite elem_of_dom, Ho. split; [by intros [? ?]|done].
    + split; simpl.
      * rewrite map_size_insert, Hc. simpl. lia.
      * lia.
      * eapply pool_ok_perm; [|exact Hm]. rewrite (ip_slots_insert _ _ _ Hc). simpl.
        unfold ip_held. simpl. by rewrite Permutation_middle.
      * rewrite Hrr. eapply pool_ok_perm; [|exact A4]. by rewrite (reg_slots_insert _ _ _ Hc).
    + pose proof (owner_nodup ps _ c (ot_nodup _ _ HT) eq_refl) as Hother.
      apply tasks_end in HT as [T1 T2]. split; [done|]. intros q d Hq Hd.
      assert (c ≠ d) as Hne by (intros <-; by apply (Hother q Hq)).
      specialize (T2 q d Hq Hd). destruct (place q); simpl in *; by rewrite lookup_insert_ne.
  - split; [by destruct HS as [[]]| |].
    + split; simpl; rewrite ?guards_cons, ?admits_cons; simpl; [done|lia|exact Hm|by rewrite Hrr].
    + apply (tasks_regard w); [|done..]. by eapply (tasks_swap _ (PendSlot c addr v now)).
Qed.

Lemma sound_acquire w c conn id n v l now cn ps :
  sound w (PendAcquire c id n v l now cn :: ps) → conns w !! c = Some conn →
  let r := resume_conn config w c conn (PendAcquire c id n v l now cn) in
  sound r.1 (option_list r.2 ++ ps).
Proof.
  intros [HS [A1 A2 A3 A4] HT] Hc. simpl.
  pose proof (try_acquire_registration_counts (policy config) (abuse (st w)) (sa_ip (c_addr conn)) _
    (proj2 caps_unsigned) A4) as Ha.
  assert (in_place w c Within) as Hin by (apply (ot_place _ _ HT (PendAcquire c id n v l now cn)); [by left|done]).
  destruct (try_acquire_registration _ _ _) as [slot a]. destruct Ha as (Hm & Hrr & Hsl).
  rewrite guards_cons in A1. rewrite admits_cons in A2. simpl in A1, A2. simpl.
  split; [by destruct HS as [[]]| |].
  - destruct slot as [slot|]; (split; simpl; rewrite ?guards_cons, ?admits_cons; simpl;
      [done|done|by rewrite Hrr|exact Hm]).
  - apply (tasks_regard w); [|done..].
    destruct slot; by eapply (tasks_swap _ (PendAcquire c id n v l now cn)).
Qed.

Lemma sound_release w p p' slot ps :
  sound w (p :: ps) → reg_of p ≡ₚ slot :: reg_of p' → owner p' = owner p → place p' = place p →
  is_admit p' = is_admit p → is_guard p' = is_guard p → ip_of p' = ip_of p →
  sound (release_reg_slot slot w) (p' :: ps).
Proof.
  intros [HS [A1 A2 A3 A4] HT] Er Eo Epl Ea Eg Ei.
  rewrite guards_cons in A1. rewrite admits_cons in A2. unfold ip_held, reg_held in *. simpl in *.
  assert (pool_ok (max_registrations_per_ip config) (regs_per_ip (abuse (st w)))
    (slot :: (reg_of p' ++ (ps ≫= reg_of)) ++ reg_slots (conns w))) as A4'.
  { eapply pool_ok_perm; [|exact A4]. by rewrite Er. }
  destruct (drop_reg_slot_counts _ _ _ _ A4') as (a & Hd & Hm & Hcc).
  unfold release_reg_slot. split; [by destruct HS as [[]]| |].
  - split; simpl; rewrite ?guards_cons, ?admits_cons, ?Eg, ?Ea, ?Hd; simpl; try done.
    unfold ip_held. simpl. by rewrite Hcc, Ei.
  - apply (tasks_regard w); [|done..]. destruct HT as [T1 T2].
    split; [simpl in *; by rewrite Eo|].
    intros q d [->|Hq]%elem_of_cons Hdd; [|apply T2; [by right|done]].
    rewrite Epl. rewrite Eo in Hdd. apply T2; [by left|done].
Qed.

Lemma sound_release_ip w c ip ps :
  sound w (PendDrop c None ip :: ps) → sound (release_conn_slot ip w) (PendGuardDrop c :: ps).
Proof.
  intros [HS [A1 A2 A3 A4] HT].
  rewrite guards_cons in A1. rewrite admits_cons in A2. unfold ip_held, reg_held in *. simpl in *.
  destruct (drop_conn_slot_counts _ _ _ _ A3) as (a & Hd & Hm & Hcc).
  unfold release_conn_slot. split; [by destruct HS as [[]]| |].
  - split; simpl; rewrite ?guards_cons, ?admits_cons, ?Hd; simpl; try done. by rewrite Hcc.
  - apply (tasks_regard w); [|done..]. apply (tasks_swap w (PendDrop c None ip) _ _ c); try done.
    by apply (ot_place _ _ HT (PendDrop c None ip)); [left|].
Qed.
(** *** The steps of a connection task *)

(** The slot moves from the handler to the connection, the one it replaces is given back. *)
Lemma sound_store w c conn slot id n ps :
  sound w (PendStore c slot id n :: ps) → conns w !! c = Some conn →
  sound (resume_conn config w c conn (PendStore c slot id n)).1 ps.
Proof.
  intros HS Hc. simpl.
  set (conn' := set_session _ _).
  assert (∀ w', conns w' = conns w → settled w' → orderly_tasks w' ps →
    open_connections (st w') = open_connections (st w) →
    conns_per_ip (abuse (st w')) = conns_per_ip (abuse (st w)) →
    pool_ok (max_registrations_per_ip config) (regs_per_ip (abuse (st w')))
      (slot :: reg_held ps ++ reg_slots (delete c (conns w))) →
    sound (set_conn w' c conn') ps) as Hset.
  { intros w' Ec Hs' Ht' Eo Eip Hreg. destruct HS as [_ [A1 A2 A3 A4] _].
    change (ip_held (PendStore c slot id n :: ps)) with (ip_held ps) in A3.
    rewrite <- Ec in Hc. split.
    - by eapply settled_set_conn.
    - rewrite guards_cons in A1. rewrite admits_cons in A2. simpl in A1, A2.
      split; simpl; rewrite ?Eo, ?Eip, ?Ec.
      + rewrite map_size_insert. rewrite <- Ec, Hc. simpl. by rewrite Ec.
      + done.
      + eapply pool_ok_perm; [|exact A3]. f_equiv. symmetry. rewrite <- Ec. by eapply ip_slots_update.
      + eapply pool_ok_perm; [|exact Hreg]. rewrite <- Ec, (reg_slots_update _ _ _ conn' Hc). simpl.
        by rewrite Permutation_middle.
    - by eapply tasks_set_conn. }
  destruct HS as [HS [A1 A2 A3 A4] HT]. pose proof (tasks_end _ _ _ HT) as HT'.
  unfold reg_held in A4. simpl in A4. fold (reg_held ps) in A4.
  pose proof (reg_slots_delete _ _ _ Hc) as Hdel.
  destruct (c_reg_slot conn) as [old|]; simpl in Hdel.
  - assert (pool_ok (max_registrations_per_ip config) (regs_per_ip (abuse (st w)))
      (old :: slot :: reg_held ps ++ reg_slots (delete c (conns w)))) as A4'.
    { eapply pool_ok_perm; [|exact A4]. rewrite Hdel. by rewrite <- Permutation_middle, Permutation_swap. }
    destruct (drop_reg_slot_counts _ _ _ _ A4') as (a & Hd & Hm & Hcc).
    unfold release_reg_slot. apply Hset; simpl; rewrite ?Hd; simpl; try done.
    + by destruct HS as [[]].
    + by apply (tasks_regard w).
  - apply Hset; try done. eapply pool_ok_perm; [|exact A4]. by rewrite Hdel.
Qed.

Lemma sound_register w c conn slot id n v l now ps :
  sound w (PendRegister c slot id n v l now :: ps) → conns w !! c = Some conn →
  let r := register_section config w c conn slot id n v l now in
  sound r.1 (option_list r.2 ++ ps).
Proof.
  intros HS Hc. cbv zeta.
  destruct (register_section config w c conn slot id n v l now) as [w' p] eqn:Hr.
  assert (∃ q, p = Some q) as [q ->].
  { unfold register_section in Hr. destruct (register_locked _ _ _ _ _ _ _ _ _ _) as [[] ?];
      simplify_eq; by eauto. }
  simpl. destruct (register_section_cases _ _ _ _ _ _ _ _ _ _ _ Hr)
    as [[-> [sends ->]]|(info & s & sends & -> & -> & Er & _ & Eo & Ea & Hv & Hcnt)].
  { by eapply sound_alike. }
  apply (sound_alike _ (PendRegister c slot id n v l now)); [|done].
  destruct HS as [[H1 H2 H3 H4 H5 H6] [A1 A2 A3 A4] HT].
  split; [|split; cbn [st upd_st conns]; rewrite ?Eo, ?Ea; assumption|by apply (tasks_regard w)].
  split; simpl; auto; rewrite Er.
  - intros id' q [[_ <-]|[_ Hq]]%lookup_insert_Some; [|by eapply H2].
    simpl. apply (H6 _ _ Hc). destruct (ot_place _ _ HT (PendRegister c slot id n v l now) c)
      as (cn & ? & Hp); [by left|done|]. simplify_eq. by rewrite Hp.
  - intros id' q cn v' [[<- <-]|[_ Hq]]%lookup_insert_Some; [|by eapply H3].
    simpl. rewrite Hc. intros [= <-]. apply Hv.
Qed.

Lemma sound_close w c conn ps :
  sound w (PendDepart (Some c) [] :: ps) → conns w !! c = Some conn →
  sound (set_conn w c (set_phase conn Closing)) ps.
Proof.
  intros [HS [A1 A2 A3 A4] HT] Hc.
  destruct (ot_place _ _ HT (PendDepart (Some c) []) c) as (cn & Hc' & Hp); [by left|done|].
  assert (cn = conn) as -> by congruence.
  change (ip_held (PendDepart (Some c) [] :: ps)) with (ip_held ps) in A3.
  change (reg_held (PendDepart (Some c) [] :: ps)) with (reg_held ps) in A4. split.
  - eapply settled_set_conn; [done..|]. simpl. by rewrite Hp.
  - split; simpl; [by rewrite map_size_insert, Hc|done|..].
    + eapply pool_ok_perm; [|exact A3]. f_equiv. symmetry. by eapply ip_slots_update.
    + eapply pool_ok_perm; [|exact A4]. f_equiv. symmetry. by eapply reg_slots_same.
  - pose proof (owner_nodup ps _ c (ot_nodup _ _ HT) eq_refl) as Hother.
    apply tasks_end in HT as [T1 T2]. split; [done|]. intros q d Hq Hd.
    assert (c ≠ d) as Hne by (intros <-; by apply (Hother q Hq)).
    specialize (T2 q d Hq Hd). destruct (place q); simpl in *; by rewrite lookup_insert_ne.
Qed.

Lemma sound_leave w c conn ps :
  sound w (PendLeave c :: ps) →
  let r := resume_conn config w c conn (PendLeave c) in sound r.1 (option_list r.2 ++ ps).
Proof.
  intros HS. simpl. destruct (shrunk_deregister w (c_session conn)) as (s & Es & Hs).
  destruct (deregister_section w (c_session conn)) as [w' l]. simpl in *. subst w'.
  apply sound_shrunk; [|done]. by eapply sound_alike.
Qed.

Lemma sound_pex w c conn frame now ps :
  sound w (PendPex c frame now :: ps) → conns w !! c = Some conn →
  let r := resume_conn config w c conn (PendPex c frame now) in sound r.1 (option_list r.2 ++ ps).
Proof.
  intros HS Hc. simpl.
  assert (∀ replies, sound w (PendPexSends c replies :: ps)) as HS'
    by (intros; by eapply sound_alike).
  unfold pex_section. destruct (pex_dispatch _ _) as [|msg|msg| |]; simpl; try done.
  - eapply still_sound; [done|apply still_out_send].
  - destruct (on_node_handshake _ _ _ _ _) as [replies p]. simpl.
    apply (sound_set_conn _ _ conn); try done. eapply still_sound; [done|apply still_pex].
  - destruct (on_node_message _ _ _ _ _) as [replies p]. simpl.
    eapply still_sound; [done|apply still_pex].
  - destruct (on_node_bad_frame _ _ _ _) as [replies p]. simpl.
    eapply still_sound; [done|apply still_pex].
Qed.

(** Where the dispatcher leads. *)
Lemma dispatch_section_alike w c conn msg now p ps :
  sound w (p :: ps) → owner p = Some c → place p = Within → empty_handed p →
  sound w (option_list (dispatch_section w c conn msg now) ++ ps).
Proof.
  intros HS Ho Hpl He.
  assert (sound w ps) as Hend by (by eapply sound_end).
  assert (∀ q, owner q = Some c → place q = Within → empty_handed q → sound w (q :: ps)) as Hq.
  { intros q Hqo Hqp (E1 & E2 & E3 & E4). destruct He as (F1 & F2 & F3 & F4).
    eapply sound_alike; [exact HS|]. unfold alike. by rewrite Ho, Hpl, F1, F2, F3, F4. }
  unfold dispatch_section.
  destruct (dispatch _ _) as [ms|id n v l|to m|from ex m| | |code m]; simpl; try done; try (by apply Hq).
  - destruct (s_network_id _) as [n|]; simpl; [|done].
    destruct (sender_in_network _ _ _); by apply Hq.
  - destruct (s_network_id _) as [n|]; simpl; [|done]. by apply Hq.
Qed.

Lemma sound_handle w c conn msg now ps :
  sound w (PendHandle c msg now :: ps) →
  let r := handle_section w c conn msg now in sound r.1 (option_list r.2 ++ ps).
Proof.
  intros HS. simpl. unfold handle_section.
  destruct msg; simpl; try (by eapply dispatch_section_alike); try (by eapply sound_alike).
  apply (sound_alike _ (PendHandle c (DhtRecords records total_keys truncated) now)); [|done].
  destruct (is_some _); [|done]. by eapply still_sound.
Qed.
(** *** Every step *)

Section steps.
Hypothesis Hwide : max_connections config + Z.of_nat workers ≤ u64_max.

Lemma task_within w p c ps :
  sound w (p :: ps) → owner p = Some c → place p = Within →
  ∃ conn, conns w !! c = Some conn ∧ c_phase conn = Serving.
Proof.
  intros [_ _ HT] Ho Hpl. pose proof (ot_place _ _ HT p c ltac:(by left) Ho) as Hin.
  by rewrite Hpl in Hin.
Qed.

(** The steps that need the connection's local state. *)
Lemma sound_task w p c conn ps :
  sound w (p :: ps) → owner p = Some c → conns w !! c = Some conn →
  let r := resume_conn config w c conn p in
  sound r.1 (option_list r.2 ++ ps).
Proof.
  intros HS Ho Hc.
  destruct p as [| | | | | | | | | | |co sl| | | | | |c' sl id n t [|[tx m] l]| | |[co|] [|[[id n] ts] l]| |];
    try (simpl in Ho; injection Ho as ->); try done.
  - by apply sound_pex.
  - by apply sound_handle.
  - simpl. by eapply dispatch_section_alike.
  - simpl. pose proof (same_counts_allow_registration (policy config) (abuse (st w)) (sa_ip (c_addr conn)) now_ms).
    destruct (allow_registration _ _ _ _) as [ok a]. simpl.
    apply (still_sound w); [destruct ok; by eapply sound_alike|by apply still_abuse].
  - by apply sound_acquire.
  - simpl. apply (still_sound w); [by eapply sound_alike|apply still_strike].
  - by apply sound_register.
  - simpl. apply (still_sound w); [by eapply sound_alike|apply still_pex].
  - by eapply (sound_store w).
  - by apply sound_leave.
  - simpl. by eapply (sound_close w).
Qed.

Lemma resume_sound w p ps w' p' :
  sound w (p :: ps) → (is_check p = true → (admits (p :: ps) < workers)%nat) →
  resume config w p = (w', p') → sound w' (option_list p' ++ ps).
Proof.
  intros HS Hw Hr.
  assert (∀ c, owner p = Some c → place p = Within →
    match conns w !! c with Some conn => resume_conn config w c conn p | None => (w, Some p) end = (w', p') →
    sound w' (option_list p' ++ ps)) as Htask.
  { intros c Ho Hpl. destruct (task_within _ _ _ _ HS Ho Hpl) as (conn & Hc & _). rewrite Hc. intros E.
    pose proof (sound_task w p c conn ps HS Ho Hc) as Ht. by rewrite E in Ht. }
  destruct p as [| | | | | | | |c msg now| | |co [|[tx m] sl]| | | | |c [sl|] [|[tx m] l]|c sl id n t [|[tx m] l]| | |co [|[[id n] [|[i tx] ts]] l]|c [reg|] ip|];
    try (by eapply Htask); simpl in Hr; simplify_eq/=.
  - destruct (Z.leb_spec (max_connections config) (open_connections (st w'))).
    + by eapply sound_end.
    + apply sound_check; [done..|]. by apply Hw.
  - by apply sound_admit.
  - by eapply sound_slot.
  - apply (still_sound w); [|apply still_strike]. by eapply sound_alike.
  - by apply (sound_guard Hwide w c).
  - apply (still_sound w); [|apply still_strike]. by eapply sound_alike.
  - destruct replies as [|m ms]; simplify_eq/=; [by eapply sound_end|].
    apply (still_sound w); [|apply still_pex_send]. by eapply sound_alike.
  - apply (still_sound w); [|apply still_relayed]. by eapply sound_alike.
  - by eapply sound_end.
  - apply (still_sound w); [|apply still_out_send]. by eapply sound_alike.
  - by eapply sound_release.
  - apply (still_sound w); [|apply still_out_send]. by eapply sound_alike.
  - by eapply sound_alike.
  - apply (still_sound w); [|apply still_out_send]. by eapply sound_alike.
  - apply (still_sound w); [|apply still_out_send]. by eapply sound_alike.
  - destruct co; [|simplify_eq/=; by eapply sound_end]. by eapply Htask.
  - assert (w' = upd_st (λ s, set_pex s (on_unregister (pex s) id n)) w ∧ p' = Some (PendDepart co l))
      as [-> ->] by (destruct co; by simplify_eq).
    apply (still_sound w); [|apply still_pex]. by eapply sound_alike.
  - assert (w' = out_send w tx (PeerDisconnected id) ∧ p' = Some (PendDepart co ((id, n, ts) :: l)))
      as [-> ->] by (destruct co; by simplify_eq).
    apply (still_sound w); [|apply still_out_send]. by eapply sound_alike.
  - by eapply sound_release.
  - by apply sound_release_ip.
  - apply (still_sound w); [|done]. by eapply sound_end.
Qed.
Lemma sound_drops w c conn ps :
  sound w ps → conns w !! c = Some conn → Some c ∉ (owner <$> ps) →
  sound (without_conn w c) (PendDrop c (c_reg_slot conn) (c_ip_slot conn) :: ps).
Proof.
  intros [HS [A1 A2 A3 A4] [T1 T2]] Hc Hno.
  assert (∀ q, q ∈ ps → owner q ≠ Some c) as Hother.
  { intros q Hq E. apply Hno, list_elem_of_fmap. by exists q. }
  split.
  - destruct HS as [H1 H2 H3 H4 H5 H6]. split; simpl; try done.
    + intros id q cn v Hq [_ Hl]%lookup_delete_Some. by eapply H3.
    + intros d cn [_ Hl]%lookup_delete_Some. by apply H6.
  - unfold ip_held, reg_held in *.
    split; simpl; rewrite ?guards_cons, ?admits_cons; simpl.
    + rewrite A1, map_size_delete, Hc. simpl.
      assert (size (conns w) ≠ 0%nat); [|lia]. apply map_size_ne_0_lookup. eauto.
    + lia.
    + eapply pool_ok_perm; [|exact A3]. rewrite (ip_slots_delete _ _ _ Hc).
      by rewrite Permutation_middle.
    + eapply pool_ok_perm; [|exact A4]. rewrite (reg_slots_delete _ _ _ Hc).
      by rewrite !app_assoc, (Permutation_app_comm (ps ≫= reg_of)).
  - split.
    + simpl. apply NoDup_cons. split; [|done]. rewrite list_elem_of_omap.
      intros (q & Hq & E). by eapply Hother.
    + intros q d [->|Hq]%elem_of_cons Hd; simpl.
      * injection Hd as <-. simpl. apply lookup_delete_eq.
      * assert (c ≠ d) as Hne by (intros <-; by eapply Hother).
        specialize (T2 q d Hq Hd). destruct (place q); simpl in *; by rewrite lookup_delete_ne.
Qed.

Lemma sound_upgrade w c conn now mono ps :
  sound w ps → conns w !! c = Some conn → c_phase conn = Handshaking → Some c ∉ (owner <$> ps) →
  sound (upgrade_connection config w c conn now mono) ps.
Proof.
  intros [[H1 H2 H3 H4 H5 H6] [A1 A2 A3 A4] [T1 T2]] Hc Hph Hno.
  destruct Hgood as (_ & _ & Hq). split.
  - split; simpl; try done.
    + intros id q Hr. rewrite dom_insert_L. apply elem_of_union. right. by eapply H2.
    + by eapply proved_update.
    + apply map_Forall_insert_2; [by apply chan_new_ok|done].
    + apply map_Forall_insert_2; [by apply chan_new_ok|done].
    + intros d cn Hl. rewrite dom_insert_L, elem_of_union, elem_of_singleton.
      apply lookup_insert_Some in Hl as [[<- <-]|[Hne Hl]]; simpl.
      * split; [done|]. by left.
      * rewrite (H6 _ _ Hl). split; [intros [?|?]; [congruence|done]|by right].
  - split; simpl; [by rewrite map_size_insert, Hc|done|..].
    + eapply pool_ok_perm; [|exact A3]. f_equiv. symmetry. by eapply ip_slots_update.
    + eapply pool_ok_perm; [|exact A4]. f_equiv. symmetry. by eapply reg_slots_same.
  - split; [done|]. intros q d Hin Hd.
    assert (c ≠ d) as Hne.
    { intros <-. apply Hno, list_elem_of_fmap. by exists q. }
    specialize (T2 q d Hin Hd). destruct (place q); simpl in *; by rewrite ?lookup_insert_ne.
Qed.

Lemma sound_frame w c conn frame now mono ps :
  sound w ps → conns w !! c = Some conn → c_phase conn = Serving → Some c ∉ (owner <$> ps) →
  let r := frame_section w c conn frame now mono in sound r.1 (option_list r.2 ++ ps).
Proof.
  intros HS Hc Hph Hno. unfold frame_section.
  destruct (admit_frame _ _ _) as [verdict lim]. simpl.
  set (p := match verdict with AdmitOk => _ | Disconnect => PendFlood c (c_addr conn) now end).
  assert (owner p = Some c ∧ place p = Within ∧ empty_handed p) as (Ho & Hpl & He).
  { unfold p. destruct verdict; [|done]. destruct (is_pex_frame _); [done|].
    by destruct (relay_from_slice _). }
  apply sound_begin; [|done|].
  - apply (sound_set_conn (set_activity w (<[c := mono]> (activity w))) _ conn); try done.
    by apply (still_sound w).
  - intros d Hd. rewrite Ho in Hd. injection Hd as <-. split; [done|]. rewrite Hpl. simpl.
    rewrite lookup_insert_eq. eauto.
Qed.

(** The other tasks' steps. *)
Lemma sound_plain w ev w' ps :
  (∃ c, ev = WriterSends c ∨ ev = WriterSendsPex c ∨ ev = WriterExits c) ∨ (∃ now, ev = PexTick now) →
  sound w ps → event_step config w ev = Some w' → sound w' ps.
Proof.
  intros Hev HS Hs. assert (still w w'); [|by eapply still_sound].
  assert (∀ A (cs : Chans A) c ch ch', cs !! c = Some ch → dom (<[c := ch']> cs) = dom cs) as Hdom.
  { intros A cs c ch ch' Hc%elem_of_dom_2. rewrite dom_insert_L. set_solver. }
  assert (∀ A (cs : Chans A) cap c ch ch', cs !! c = Some ch →
    (chan_ok ch → ch_cap ch' = ch_cap ch ∧ chan_ok ch') → chans_ok cap cs →
    chans_ok cap (<[c := ch']> cs)) as Hok.
  { intros A cs cap c ch ch' Hc Hch Hcs. destruct (Hcs _ _ Hc) as [E1 E2].
    apply map_Forall_insert_2; [|done]. destruct (Hch E2). split; [congruence|done]. }
  destruct Hev as [[c [->|[->| ->]]]|[now ->]]; simpl in Hs.
  - destruct (outs w !! c) as [ch|] eqn:Hc; simpl in Hs; [|done].
    destruct (chan_recv ch) as [[m ch']|] eqn:Hr; simplify_eq/=. split; try done; simpl.
    + by eapply Hdom.
    + intros cap. eapply Hok; [done|]. intros. by eapply chan_recv_ok.
  - destruct (pexs w !! c) as [ch|] eqn:Hc; simpl in Hs; [|done].
    destruct (chan_recv ch) as [[m ch']|] eqn:Hr; simplify_eq/=. split; try done; simpl.
    intros cap. eapply Hok; [done|]. intros. by eapply chan_recv_ok.
  - destruct (outs w !! c) as [ch|] eqn:Hc; simpl in Hs; [|done].
    destruct (pexs w !! c) as [px|] eqn:Hp; simplify_eq/=. split; try done; simpl.
    + by eapply Hdom.
    + intros cap. eapply Hok; [done|]. apply chan_close_ok.
    + intros cap. eapply Hok; [done|]. apply chan_close_ok.
  - pose proof (tick_sends (pex (st w)) (pexs w) now) as Ht.
    destruct (tick (pex (st w)) (pexs w) now) as [cs p] eqn:E. simpl in Ht.
    unfold tick in E. injection Hs as <-. injection E as <- <-. split; try done. simpl. apply Ht.
Qed.
Lemma start_sound w ev ps w' p :
  sound w ps → (∀ c, task_of ev = Some c → Some c ∉ (owner <$> ps)) →
  start config w ev = Some (w', p) → sound w' (option_list p ++ ps).
Proof.
  intros HS Hno Hs.
  destruct ev as [c addr v now|c|c now mono|c frame now mono|c|c|c|c|c|mono|now| |now];
    unfold start in Hs.
  - destruct (conns w !! c) eqn:Hc; [done|]. destruct (outs w !! c) eqn:Ho; [done|]. simpl in Hs.
    pose proof (same_counts_is_banned (policy config) (abuse (st w)) (sa_ip addr) now) as Hb.
    destruct (is_banned _ _ _ _) as [banned a]. injection Hs as <- <-.
    apply (still_sound w); [|by apply still_abuse].
    destruct banned; [done|]. apply sound_begin; [done..|].
    intros d [= <-]. split; [by apply Hno|done].
  - destruct (conn_in w c Handshaking) as [conn|] eqn:Hc; [|done]. injection Hs as <- <-.
    apply conn_in_Some in Hc as [Hc _]. apply sound_drops; [done..|]. by apply Hno.
  - unfold event_step in Hs. destruct (conn_in w c Handshaking) as [conn|] eqn:Hc; [|done].
    injection Hs as <- <-. apply conn_in_Some in Hc as [Hc Hp].
    apply sound_upgrade; [done..|]. by apply Hno.
  - destruct (conn_in w c Serving) as [conn|] eqn:Hc; [|done]. cbn [mbind option_bind] in Hs.
    apply conn_in_Some in Hc as [Hc Hp].
    pose proof (sound_frame w c conn frame now mono ps HS Hc Hp (Hno _ eq_refl)) as Hf.
    destruct (frame_section _ _ _ _ _ _) as [w1 p1]. by injection Hs as <- <-.
  - destruct (conn_in w c Serving) as [conn|] eqn:Hc; [|done]. injection Hs as <- <-.
    apply conn_in_Some in Hc as [Hc Hp]. apply sound_begin; [done..|].
    intros d [= <-]. split; [by apply Hno|]. simpl. eauto.
  - destruct (event_step config w (WriterSends c)) eqn:E; [|done]. injection Hs as <- <-.
    eapply sound_plain; [|done..]. eauto.
  - destruct (event_step config w (WriterSendsPex c)) eqn:E; [|done]. injection Hs as <- <-.
    eapply sound_plain; [|done..]. eauto.
  - destruct (event_step config w (WriterExits c)) eqn:E; [|done]. injection Hs as <- <-.
    eapply sound_plain; [|done..]. eauto 6.
  - destruct (conn_in w c Closing) as [conn|] eqn:Hc; [|done]. cbn [mbind option_bind] in Hs.
    destruct (is_closed (outs w) c); [|done]. injection Hs as <- <-.
    apply conn_in_Some in Hc as [Hc _]. apply sound_drops; [done..|]. by apply Hno.
  - set (vs := dead_or_stale _ _ _ _ _) in Hs. pose proof (shrunk_remove_victims (st w) vs) as Hsh.
    destruct (remove_victims (st w) vs) as [pruned s]. injection Hs as <- <-.
    apply sound_shrunk; [|done]. by apply sound_begin.
  - destruct (event_step config w (PexTick now)) eqn:E; [|done]. injection Hs as <- <-.
    eapply sound_plain; [|done..]. eauto.
  - injection Hs as <- <-. by apply sound_begin.
  - injection Hs as <- <-. apply (still_sound w); [|done]. by apply sound_begin.
Qed.

Lemma sound_restamp w now p ps : sound w (p :: ps) → sound w (restamp now p :: ps).
Proof. intros HS. destruct p; first [exact HS|by eapply sound_alike]. Qed.

Lemma sound_new : sound world_new [].
Proof.
  pose proof caps_unsigned. destruct Hgood as (_ & Hm & _).
  split; [split|split|split]; simpl; try done.
  - split; simpl; [apply wf_registry_empty|done|]. change (registry_len registry_new) with 0. lia.
  - change (admits []) with 0%nat. lia.
  - apply pool_ok_empty; lia.
  - apply pool_ok_empty; lia.
  - constructor.
  - intros p c Hp. by apply not_elem_of_nil in Hp.
Qed.

Lemma micro_sound m x m' :
  sound (mw m) (pending m) → micro_step config workers m x = Some m' → sound (mw m') (pending m').
Proof.
  intros HS Hs. destruct x as [ev|i now]; simpl in Hs.
  - destruct (decide (busy m (task_of ev))) as [|Hb]; [done|].
    destruct (start config (mw m) ev) as [[w p]|] eqn:E; [|done]. injection Hs as <-. simpl.
    rewrite (Permutation_app_comm (pending m)). eapply start_sound; [done| |done].
    intros c Hc Hin. apply Hb. rewrite Hc. split; [by eexists|done].
  - destruct (pending m !! i) as [p|] eqn:Hi; [|done]. simpl in Hs.
    destruct (is_check p && (workers <=? admits (pending m))%nat) eqn:Ew; [done|].
    destruct (resume config (mw m) (restamp now p)) as [w p'] eqn:E. injection Hs as <-. simpl.
    assert (pending m ≡ₚ p :: (take i (pending m) ++ drop (S i) (pending m))) as Hp.
    { rewrite <- (take_drop_middle _ _ _ Hi) at 1. by rewrite Permutation_middle. }
    assert (sound w (option_list p' ++ (take i (pending m) ++ drop (S i) (pending m)))) as HS'.
    { eapply resume_sound; [apply sound_restamp; by rewrite <- Hp| |exact E]. intros Hck.
      assert (restamp now p = p) as -> by (by destruct p). assert (is_check p = true) as Hck'.
      { by destruct p. }
      rewrite Hck' in Ew. simpl in Ew. rewrite <- (admits_perm _ _ Hp). by apply Nat.leb_gt in Ew. }
    eapply sound_perm; [|exact HS']. rewrite !app_assoc. f_equiv. apply Permutation_app_comm.
Qed.

Lemma interleaved_sound m : interleaved config workers m → sound (mw m) (pending m).
Proof. induction 1; [apply sound_new|by eapply micro_sound]. Qed.
End steps.
End invariant.

(** ** Properties *)

Section properties.
Context `{HO : HashOrder, DI : DigIp} `{DP : DigPex} `{ML : MpscLaws} {SD : Serde}.
Context (config : RelayServerConfig) (workers : nat).

(** C13: the bounds hold between any two sections of any handlers, however they mix. The published
    peer count is the number of registrations and within the cap; the open-connection counter is
    the number of connections and of guards held by handlers in progress, so it neither leaks nor
    underflows, and exceeds the cap by less than the number of the runtime's threads; no source
    holds more connection or registration slots, stored or in a handler's hands, than its caps;
    and no outbound queue exceeds its capacity. *)
Theorem interleaved_bounds m :
  good_config config → max_connections config + Z.of_nat workers ≤ u64_max →
  interleaved config workers m →
  connected (st (mw m)) = registry_len (registry (st (mw m))) ∧
  registry_len (registry (st (mw m))) ≤ max_connections config ∧
  open_connections (st (mw m)) = Z.of_nat (size (conns (mw m)) + guards (pending m)) ∧
  open_connections (st (mw m)) < max_connections config + Z.of_nat workers ∧
  (max_connections_per_ip config ≠ 0 → ∀ k,
     live_count k (ip_held (pending m) ++ ip_slots (conns (mw m))) ≤ max_connections_per_ip config) ∧
  (max_registrations_per_ip config ≠ 0 → ∀ k,
     live_count k (reg_held (pending m) ++ reg_slots (conns (mw m))) ≤ max_registrations_per_ip config) ∧
  ∀ c, Z.of_nat (length (queue (outs (mw m)) c)) ≤ outbound_queue_capacity config ∧
       Z.of_nat (length (queue (pexs (mw m)) c)) ≤ outbound_queue_capacity config.
Proof.
  intros Hg Hw Hm.
  destruct (interleaved_sound config workers Hg Hw m Hm) as [[[_ H1 H2] _ _ Ho Hp _] [A1 A2 [_ A3] [_ A4]] _].
  split_and!; try done; [lia|]. destruct Hg as (_ & _ & Hq).
  assert (∀ A (cs : Chans A) c, chans_ok (outbound_queue_capacity config) cs →
    Z.of_nat (length (queue cs c)) ≤ outbound_queue_capacity config) as Hb.
  { intros A cs c Hcs. unfold queue. destruct (cs !! c) as [ch|] eqn:Hc; simpl; [|lia].
    destruct (Hcs _ _ Hc) as [<- Hok]. exact Hok. }
  intros c. split; by apply Hb.
Qed.

(** C14: an id is whose certificate says, between any two sections. Whatever handlers are in progress, a
    record of the registry that leads to the queue of a live connection with a client certificate
    is filed under the identity that certificate proves, and no task does two things at once. *)
Theorem interleaved_identity m :
  good_config config → max_connections config + Z.of_nat workers ≤ u64_max →
  interleaved config workers m →
  (∀ id q conn v, registry (st (mw m)) !! id = Some q → conns (mw m) !! peer_tx q = Some conn →
     c_verified conn = Some v → id = v) ∧
  NoDup (omap owner (pending m)).
Proof.
  intros Hg Hw Hm. destruct (interleaved_sound config workers Hg Hw m Hm) as [[_ _ Hp _ _ _] _ [Hn _]].
  done.
Qed.
End properties.
