(* ===== verification/InterleavingPex.v ===== *)
(** * PEX and the registry, between any two sections

    The registry and PEX have locks of their own, and a registration or a departure changes the one
    and then the other (src/src/server.rs). They agree about an id while the handlers that register
    or remove it take turns. *)

From S2P Require Import Prelude Net Wire ProxyProtocol Config Limits Dial Channel Registry Pex.
From S2P Require Import DhtView Server ServerInv ServerProps Interleaving InterleavingInv.

Section mentions.
Context `{DigPex}.

(** The registration it is to mirror into PEX, and the removals. *)
Definition announces (p : Pending) : option (string * string) :=
  match p with PendAnnounce _ _ id n _ _ => Some (id, n) | _ => None end.
Definition departs (p : Pending) : list string :=
  match p with PendDepart _ l => l.*1.*1 | _ => [] end.

Definition mentions (id : string) (p : Pending) : Prop :=
  fst <$> announces p = Some id ∨ id ∈ departs p.

(** No handler has anything left to tell PEX about the id. *)
Definition quiet (ps : list Pending) (id : string) : Prop := Forall (λ p, ¬ mentions id p) ps.

Global Instance mentions_dec id p : Decision (mentions id p).
Proof. unfold mentions. apply _. Defined.
Global Instance quiet_dec ps id : Decision (quiet ps id).
Proof. unfold quiet. apply _. Defined.

Global Instance quiet_perm : Proper ((≡ₚ) ==> (=) ==> iff) quiet.
Proof. intros ps qs E id ? <-. unfold quiet. by rewrite E. Qed.

Definition silent (p : Pending) : Prop := announces p = None ∧ departs p = [].

Lemma quiet_cons p ps id : quiet (p :: ps) id ↔ ¬ mentions id p ∧ quiet ps id.
Proof. unfold quiet. by rewrite Forall_cons. Qed.

Lemma silent_mentions p id : silent p → ¬ mentions id p.
Proof. intros [E1 E2] [Hm|Hm]; [by rewrite E1 in Hm|]. rewrite E2 in Hm. by apply not_elem_of_nil in Hm. Qed.

Lemma quiet_announces ps id n p : quiet ps id → p ∈ ps → announces p ≠ Some (id, n).
Proof.
  intros Hq Hp E. unfold quiet in Hq. rewrite Forall_forall in Hq. apply (Hq p Hp). left. by rewrite E.
Qed.

Lemma quiet_departs ps id p : quiet ps id → p ∈ ps → id ∉ departs p.
Proof.
  intros Hq Hp E. unfold quiet in Hq. rewrite Forall_forall in Hq. apply (Hq p Hp). by right.
Qed.
End mentions.

Section orderly.
Context `{HashOrder, DigIp, DigPex, Mpsc} {SD : Serde} (config : RelayServerConfig).
Context (workers : nat).

Definition victims (w : World) (now : Z) : list (string * string) :=
  dead_or_stale (tx_closed w) (activity_load w) (registry (st w)) now
    (as_secs (liveness_deadline config)).

(** The id a connection is registered under. *)
Definition session_id (w : World) (c : nat) : option string :=
  conn ← conns w !! c; s_peer_id (c_session conn).

(** The handlers of one id take turns: a section that registers or removes an id starts when nothing
    is pending about it. *)
Definition takes_turns (m : Micro) (x : MicroStep) : Prop :=
  match x with
  | Resumes i _ =>
      match pending m !! i with
      | Some (PendRegister _ _ id _ _ _ _) => quiet (pending m) id
      | Some (PendLeave c) =>
          match session_id (mw m) c with Some id => quiet (pending m) id | None => True end
      | _ => True
      end
  | Starts (Sweep now) => Forall (quiet (pending m)) (victims (mw m) now).*1
  | _ => True
  end.

Global Instance takes_turns_dec m x : Decision (takes_turns m x).
Proof.
  destruct x as [[]|i now]; simpl; try apply _. destruct (pending m !! i) as [[]|]; try apply _.
  destruct (session_id (mw m) c); apply _.
Defined.

Fixpoint orderly_run (m : Micro) (xs : list MicroStep) : option Micro :=
  match xs with
  | [] => Some m
  | x :: xs =>
      if decide (takes_turns m x) then m' ← micro_step config workers m x; orderly_run m' xs else None
  end.

Inductive orderly_interleaved : Micro → Prop :=
| orderly_init : orderly_interleaved micro_new
| orderly_step m x m' :
    orderly_interleaved m → takes_turns m x → micro_step config workers m x = Some m' →
    orderly_interleaved m'.

Lemma orderly_run_interleaved m xs m' :
  orderly_interleaved m → orderly_run m xs = Some m' → orderly_interleaved m'.
Proof.
  revert m. induction xs as [|x xs IH]; simpl; intros m Hm Hr; [by simplify_eq|].
  destruct (decide (takes_turns m x)); [|done].
  destruct (micro_step config workers m x) as [m1|] eqn:E; [|done]. eapply IH; [|exact Hr].
  by eapply orderly_step.
Qed.
End orderly.

Section coherent.
Context `{HO : HashOrder, DI : DigIp} `{DP : DigPex} `{ML : MpscLaws} {SD : Serde}.
Context (config : RelayServerConfig) (workers : nat).
Hypothesis Hgood : good_config config.

Definition reachable_by_pex (w : World) (id n : string) : Prop :=
  id ∈ mirrored (pex (st w)) n ∧ is_Some (pex_conns (pex (st w)) !! id).

Record coherent (w : World) (ps : list Pending) : Prop := {
  co_replays : replays (pex (st w));
  co_quiet id q :
    registry (st w) !! id = Some q → quiet ps id → reachable_by_pex w id (peer_network_id q);
  co_announces p id n :
    p ∈ ps → announces p = Some (id, n) →
    ∃ q, registry (st w) !! id = Some q ∧ peer_network_id q = n;
  co_departs p id : p ∈ ps → id ∈ departs p → registry (st w) !! id = None }.

Global Instance coherent_perm w : Proper ((≡ₚ) ==> impl) (coherent w).
Proof.
  intros ps qs E [H0 H1 H2 H3]. split; [done|..].
  - intros id q. rewrite <- E. apply H1.
  - intros p id n. rewrite <- E. apply H2.
  - intros p id. rewrite <- E. apply H3.
Qed.

(** A step that leaves the registry alone and takes nothing out of PEX. *)
Definition mild (w w' : World) : Prop :=
  registry (st w') = registry (st w) ∧ (replays (pex (st w)) → replays (pex (st w'))) ∧
  ∀ id n, reachable_by_pex w id n → reachable_by_pex w' id n.

Lemma mild_pex w w' :
  registry (st w') = registry (st w) → pex (st w') = pex (st w) → mild w w'.
Proof. intros Er Ep. split; [done|]. rewrite Ep. split; [done|]. intros id n. unfold reachable_by_pex. by rewrite Ep. Qed.

Lemma coherent_mild w w' ps : coherent w ps → mild w w' → coherent w' ps.
Proof. intros [H0 H1 H2 H3] (Er & Hr & Hp). split; rewrite ?Er; auto. Qed.

(** The task goes on with the same things to tell PEX. *)
Lemma coherent_alike w p p' ps :
  coherent w (p :: ps) → announces p' = announces p → departs p' = departs p → coherent w (p' :: ps).
Proof.
  intros [H0 H1 H2 H3] Ea Ed. split; [done|..].
  - intros id q Hq Hqu. apply H1; [done|]. rewrite quiet_cons in *. unfold mentions in *.
    by rewrite <- Ea, <- Ed.
  - intros x id n [->|Hx]%elem_of_cons; [rewrite Ea; apply H2; by left|apply H2; by right].
  - intros x id [->|Hx]%elem_of_cons; [rewrite Ed; apply H3; by left|apply H3; by right].
Qed.

Lemma coherent_silent w p ps : silent p → coherent w (p :: ps) ↔ coherent w ps.
Proof.
  intros Hs. pose proof Hs as [E1 E2]. split; intros [H0 H1 H2 H3]; (split; [done|..]).
  - intros id q Hq Hqu. apply H1; [done|]. apply quiet_cons. split; [by apply silent_mentions|done].
  - intros x id n Hx. apply H2. by right.
  - intros x id Hx. apply H3. by right.
  - intros id q Hq [_ Hqu]%quiet_cons. by apply H1.
  - intros x id n [->|Hx]%elem_of_cons; [by rewrite E1|by apply H2].
  - intros x id [->|Hx]%elem_of_cons; [rewrite E2; by intros ?%not_elem_of_nil|by apply H3].
Qed.

Lemma coherent_go_on w w' p p' ps :
  coherent w (p :: ps) → silent p → Forall silent (option_list p') → mild w w' →
  coherent w' (option_list p' ++ ps).
Proof.
  intros HC Hs Hs' Hm. apply (coherent_mild w); [|done].
  rewrite coherent_silent in HC by done. destruct p' as [p'|]; simpl in *; [|done].
  rewrite Forall_singleton in Hs'. by rewrite coherent_silent.
Qed.

(** A section that records a registration. *)
Lemma coherent_register w w' p p' id n q0 ps :
  coherent w (p :: ps) → silent p → quiet ps id → announces p' = Some (id, n) → departs p' = [] →
  registry (st w') = <[id := q0]> (registry (st w)) → peer_network_id q0 = n →
  pex (st w') = pex (st w) → coherent w' (p' :: ps).
Proof.
  intros HC Hs Hq Ea Ed Er Hn Ex. rewrite coherent_silent in HC by done.
  destruct HC as [H0 H1 H2 H3]. split; rewrite ?Er; [by rewrite Ex|..].
  - intros id' q Hreg [Hm Hq']%quiet_cons.
    assert (id ≠ id') as Hne by (intros <-; apply Hm; left; by rewrite Ea).
    rewrite lookup_insert_ne in Hreg by done. unfold reachable_by_pex. rewrite Ex. by apply H1.
  - intros x id' n' [->|Hx]%elem_of_cons Hxa.
    + rewrite Ea in Hxa. injection Hxa as <- <-. rewrite lookup_insert_eq. by exists q0.
    + destruct (decide (id = id')) as [<-|Hne]; [by eapply quiet_announces in Hxa|].
      rewrite lookup_insert_ne by done. by eapply H2.
  - intros x id' [->|Hx]%elem_of_cons Hxd; [rewrite Ed in Hxd; by apply not_elem_of_nil in Hxd|].
    rewrite lookup_insert_ne; [by eapply H3|]. intros <-. by eapply quiet_departs.
Qed.

(** A section that removes the ids [gone], with departures to announce. *)
Lemma coherent_remove w s p' ps (gone : string → Prop) :
  coherent w ps → (∀ id, gone id → quiet ps id) → announces p' = None →
  (∀ id, id ∈ departs p' → gone id) →
  (∀ id q, registry s !! id = Some q → registry (st w) !! id = Some q) →
  (∀ id, gone id → registry s !! id = None) →
  (∀ id q, ¬ gone id → registry (st w) !! id = Some q → registry s !! id = Some q) →
  pex s = pex (st w) → coherent (upd_st (λ _, s) w) (p' :: ps).
Proof.
  intros [H0 H1 H2 H3] Hq Ea Hd Hsub Hgone Hkeep Ex. split; simpl; [by rewrite Ex|..].
  - intros id q Hreg [_ Hqu]%quiet_cons. unfold reachable_by_pex. simpl. rewrite Ex. apply H1; eauto.
  - intros x id n [->|Hx]%elem_of_cons Hxa; [by rewrite Ea in Hxa|].
    destruct (H2 x id n Hx Hxa) as (q & Hr & Hn). exists q. split; [|done].
    apply Hkeep; [|done]. intros Hg%Hq. by eapply quiet_announces in Hxa.
  - intros x id [->|Hx]%elem_of_cons Hxd; [by apply Hgone, Hd|].
    destruct (registry s !! id) eqn:E; [|done]. apply Hsub in E. by rewrite (H3 x id) in E.
Qed.
(** *** The steps of a connection task *)

Lemma mild_pex_section w c conn frame now : mild w (pex_section w c conn frame now).1.
Proof.
  unfold pex_section.
  set (id := unwrap_or_default (s_peer_id _)). set (net := unwrap_or_default (s_network_id _)).
  destruct (pex_dispatch _ _) as [|msg|msg| |]; simpl; try by apply mild_pex.
  - destruct (on_register_superset (pex (st w)) id net (c_addr conn) c now) as [Ha Hp].
    set (p1 := on_register _ _ _ _ _ _) in *.
    pose proof (mirrored_on_node_handshake p1 id net msg now) as Ha2.
    pose proof (pex_conns_on_node_handshake p1 id net msg now) as Hp2.
    pose proof (λ Hr, replays_on_node_handshake p1 id net msg now (replays_on_register _ id net (c_addr conn) c now Hr)) as Hr2.
    destruct (on_node_handshake p1 id net msg now) as [replies p2]. simpl in *.
    split; [done|]. split; [exact Hr2|]. intros i n [Hi Hs]. unfold reachable_by_pex. simpl. rewrite Ha2, Hp2.
    split; [by apply Ha|by apply Hp].
  - pose proof (mirrored_on_node_message (pex (st w)) id net msg now) as Ha2.
    pose proof (pex_conns_on_node_message (pex (st w)) id net msg now) as Hp2.
    pose proof (replays_on_node_message (pex (st w)) id net msg now) as Hr2.
    destruct (on_node_message _ _ _ _ _) as [replies p2]. simpl in *.
    split; [done|]. split; [done|]. intros i n. unfold reachable_by_pex. simpl. by rewrite Ha2, Hp2.
  - pose proof (mirrored_on_node_bad_frame (pex (st w)) id net now) as Ha2.
    pose proof (pex_conns_on_node_bad_frame (pex (st w)) id net now) as Hp2.
    pose proof (replays_on_node_bad_frame (pex (st w)) id net now) as Hr2.
    destruct (on_node_bad_frame _ _ _ _) as [replies p2]. simpl in *.
    split; [done|]. split; [done|]. intros i n. unfold reachable_by_pex. simpl. by rewrite Ha2, Hp2.
Qed.

Lemma dispatch_section_silent w c conn msg now :
  Forall silent (option_list (dispatch_section w c conn msg now)).
Proof.
  unfold dispatch_section.
  destruct (dispatch _ _) as [ms|id n v l|to m|from ex m| | |code m]; try by repeat constructor.
  - destruct (s_network_id _) as [n|]; simpl; [|constructor].
    destruct (sender_in_network _ _ _); by repeat constructor.
  - destruct (s_network_id _) as [n|]; simpl; [|constructor]. by repeat constructor.
Qed.

Lemma handle_section_silent w c conn msg now :
  mild w (handle_section w c conn msg now).1 ∧
  Forall silent (option_list (handle_section w c conn msg now).2).
Proof.
  unfold handle_section.
  destruct msg; simpl;
    try (split; [by apply mild_pex|]; first [by apply dispatch_section_silent|by repeat constructor]).
  split; [|by repeat constructor]. destruct (is_some _); by apply mild_pex.
Qed.

(** The mirror of a registration. *)
Lemma coherent_mirror w c slot id n addr now ps :
  coherent w (PendAnnounce c slot id n now [] :: ps) →
  coherent (upd_st (λ s, set_pex s (on_register (pex s) id n addr c now)) w) (PendStore c slot id n :: ps).
Proof.
  intros [H0 H1 H2 H3]. apply coherent_silent; [done|]. split; simpl; [by apply replays_on_register|..].
  - intros id' q Hr Hqu. destruct (decide (id = id')) as [<-|Hne].
    + destruct (H2 (PendAnnounce c slot id n now []) id n) as (q' & Hr' & Hn); [by left|done|].
      simplify_eq. unfold reachable_by_pex. simpl. split.
      * rewrite mirrored_on_register, bool_decide_eq_true_2 by done. set_solver.
      * rewrite lookup_insert_eq. by eexists.
    + destruct (H1 id' q Hr) as [Ha Hp].
      { apply quiet_cons. split; [|done]. intros [[= E]|E%not_elem_of_nil]; done. }
      unfold reachable_by_pex. simpl. rewrite mirrored_on_register, lookup_insert_ne by done.
      split; [|done]. case_bool_decide; set_solver.
  - intros p id' n' Hp. apply H2. by right.
  - intros p id' Hp. apply H3. by right.
Qed.

(** The withdrawal of one id. *)
Lemma coherent_withdraw w o id n l ps :
  coherent w (PendDepart o ((id, n, []) :: l) :: ps) →
  coherent (upd_st (λ s, set_pex s (on_unregister (pex s) id n)) w) (PendDepart o l :: ps).
Proof.
  intros [H0 H1 H2 H3].
  assert (registry (st w) !! id = None) as Hgone
    by (apply (H3 (PendDepart o ((id, n, []) :: l))); [by left|by left]).
  split; simpl; [by apply replays_on_unregister|..].
  - intros id' q Hr Hqu. assert (id' ≠ id) as Hne by congruence.
    destruct (H1 id' q Hr) as [Ha Hp].
    { apply quiet_cons in Hqu as [Hm Hqu]. apply quiet_cons. split; [|done].
      intros [[=]|[?|Hin]%elem_of_cons]; [done|]. apply Hm. by right. }
    unfold reachable_by_pex. cbn [st upd_st pex set_pex].
    rewrite mirrored_on_unregister, pex_conns_on_unregister, lookup_delete_ne by done.
    split; [|done]. case_bool_decide; set_solver.
  - intros p id' n' [->|Hp]%elem_of_cons; [done|]. apply H2. by right.
  - intros p id' [->|Hp]%elem_of_cons Hd; [|eapply H3; [by right|done]].
    apply (H3 (PendDepart o ((id, n, []) :: l))); [by left|]. simpl. by right.
Qed.

Lemma coherent_deregister w c conn ps :
  coherent w (PendLeave c :: ps) → (∀ id, s_peer_id (c_session conn) = Some id → quiet ps id) →
  let r := deregister_section w (c_session conn) in
  coherent r.1 (PendDepart (Some c) r.2 :: ps).
Proof.
  intros HC Hq. apply coherent_silent in HC; [|done]. cbv zeta. unfold deregister_section.
  assert (coherent w (PendDepart (Some c) [] :: ps)) as Hnil by (by apply coherent_silent).
  destruct (s_peer_id (c_session conn)) as [id|]; [|done].
  destruct (s_network_id (c_session conn)) as [n|]; [|done].
  rewrite remove_locked_cases. destruct (registry (st w) !! id) as [q|] eqn:E; [|done].
  apply (coherent_remove w _ _ _ (λ x, x = id)); simpl; try done.
  - intros ? ->. by apply Hq.
  - intros x. by rewrite list_elem_of_singleton.
  - by intros x q' [_ ?]%lookup_delete_Some.
  - intros ? ->. apply lookup_delete_eq.
  - intros x q' Hne ?. by rewrite lookup_delete_ne.
Qed.

Lemma coherent_sweep w now ps :
  coherent w ps → Forall (quiet ps) (victims config w now).*1 →
  let r := remove_victims (st w) (victims config w now) in
  coherent (upd_st (λ _, r.2) w) (PendDepart None r.1 :: ps).
Proof.
  intros HC Hq. rewrite Forall_forall in Hq. cbv zeta.
  pose proof (remove_victims_registry (st w) (victims config w now)) as Hr.
  destruct (shrunk_remove_victims config Hgood (st w) (victims config w now)) as [_ _ _ _ Ex].
  assert ((remove_victims (st w) (victims config w now)).1.*1 = victims config w now) as Hp.
  { apply remove_victims_pruned; [apply NoDup_fst_select|].
    intros id n (q & ? & _)%elem_of_dead_or_stale. by eexists. }
  destruct (remove_victims _ _) as [pruned s]. simpl in *.
  apply (coherent_remove w s _ _ (λ id, id ∈ (victims config w now).*1)); try done.
  - simpl. by rewrite Hp.
  - intros id q. rewrite Hr. by case_bool_decide.
  - intros id Hid. rewrite Hr. by rewrite bool_decide_eq_true_2.
  - intros id q Hid ?. rewrite Hr. by rewrite bool_decide_eq_false_2.
Qed.
Lemma mild_same w s : registry s = registry (st w) → pex s = pex (st w) → mild w (upd_st (λ _, s) w).
Proof. intros. by apply mild_pex. Qed.

Lemma coherent_task w p c conn ps :
  coherent w (p :: ps) → owner p = Some c → conns w !! c = Some conn →
  match p with
  | PendRegister _ _ id _ _ _ _ => quiet ps id
  | PendLeave _ => ∀ id, s_peer_id (c_session conn) = Some id → quiet ps id
  | _ => True
  end →
  let r := resume_conn config w c conn p in coherent r.1 (option_list r.2 ++ ps).
Proof.
  intros HC Ho Hc Hq.
  destruct p as [| | | | | | | | | | |co sl| | | |c' slot id n v l now| |c' sl id n t [|[tx m] l]| | |[co|] [|[[id n] ts] l]| |];
    try (simpl in Ho; injection Ho as ->); try done.
  - simpl. pose proof (mild_pex_section w c conn frame now_ms) as Hm.
    destruct (pex_section w c conn frame now_ms) as [w1 replies].
    by apply (coherent_go_on _ _ _ (Some (PendPexSends c replies)) _ HC); [|repeat constructor|].
  - destruct (handle_section_silent w c conn msg now_ms). by eapply coherent_go_on.
  - simpl. eapply coherent_go_on; [done..|apply dispatch_section_silent|done].
  - simpl. destruct (allow_registration _ _ _ _) as [ok a]. simpl.
    apply (coherent_go_on _ _ _ (Some _) _ HC); [done| |by apply mild_pex].
    destruct ok; by repeat constructor.
  - simpl. destruct (try_acquire_registration _ _ _) as [slot a]. simpl.
    apply (coherent_go_on _ _ _ (Some _) _ HC); [done| |by apply mild_pex].
    destruct slot; by repeat constructor.
  - simpl. by apply (coherent_go_on _ _ _ (Some _) _ HC); [|repeat constructor|apply mild_pex].
  - simpl. destruct (register_section config w c conn slot id n v l now) as [w' p] eqn:Hr.
    assert (∃ q, p = Some q) as [q ->].
    { unfold register_section in Hr. destruct (register_locked _ _ _ _ _ _ _ _ _ _) as [[] ?];
        simplify_eq; by eauto. }
    destruct (register_section_cases config Hgood _ _ _ _ _ _ _ _ _ _ _ Hr)
      as [[-> [sends ->]]|(info & s & sends & -> & -> & Er & Ep & _)]; simpl.
    + by apply (coherent_alike w _ _ _ HC).
    + by apply (coherent_register w _ _ _ id n (MkPeer n info c c) _ HC).
  - simpl. by apply coherent_mirror.
  - simpl. apply (coherent_go_on _ _ _ None _ HC); [done|constructor|].
    destruct (c_reg_slot conn); by apply mild_pex.
  - simpl. pose proof (coherent_deregister w c conn ps HC Hq) as Hd.
    by destruct (deregister_section w (c_session conn)).
  - simpl. apply (coherent_go_on _ _ _ None _ HC); [done|constructor|by apply mild_pex].
Qed.

Lemma resume_coherent w p ps w' p' :
  coherent w (p :: ps) →
  match p with
  | PendRegister _ _ id _ _ _ _ => quiet ps id
  | PendLeave c => ∀ id, session_id w c = Some id → quiet ps id
  | _ => True
  end → resume config w p = (w', p') → coherent w' (option_list p' ++ ps).
Proof.
  intros HC Hq Hr.
  assert (match owner p with
    | Some c => match conns w !! c with Some conn => resume_conn config w c conn p | None => (w, Some p) end
    | None => (w, Some p) end = (w', p') → coherent w' (option_list p' ++ ps)) as Htask.
  { destruct (owner p) as [c|] eqn:Ho; [|by intros [= <- <-]].
    destruct (conns w !! c) as [conn|] eqn:Hc; [|by intros [= <- <-]]. intros E.
    pose proof (coherent_task w p c conn ps HC Ho Hc) as Ht. rewrite E in Ht. apply Ht.
    destruct p; try done. simpl in Ho. injection Ho as ->.
    intros id Hid. apply Hq. unfold session_id. by rewrite Hc. }
  destruct p as [| | | | | | | |c msg now| | |co [|[tx m] sl]| | | | |c [sl|] [|[tx m] l]|c sl id n t [|[tx m] l]| | |co [|[[id n] [|[i tx] ts]] l]|c [reg|] ip|];
    try (by apply Htask); simpl in Hr; simplify_eq/=;
    try (by apply (coherent_go_on _ _ _ (Some _) _ HC); [|repeat constructor|apply mild_pex]);
    try (by apply (coherent_go_on _ _ _ None _ HC); [|constructor|apply mild_pex]).
  - apply (coherent_go_on _ _ _ _ _ HC); [done| |by apply mild_pex].
    destruct (_ <=? _); by repeat constructor.
  - destruct (try_acquire_conn _ _ _) as [[slot|] a]; simplify_eq/=.
    + by apply (coherent_go_on _ _ _ None _ HC); [|constructor|apply mild_pex].
    + by apply (coherent_go_on _ _ _ (Some _) _ HC); [|repeat constructor|apply mild_pex].
  - destruct replies as [|m ms]; simplify_eq/=.
    + by apply (coherent_go_on _ _ _ None _ HC); [|constructor|].
    + by apply (coherent_go_on _ _ _ (Some _) _ HC); [|repeat constructor|apply mild_pex].
  - apply (coherent_go_on _ _ _ (Some _) _ HC); [done|by repeat constructor|].
    apply mild_pex; destruct msg; try done; by destruct success.
  - apply (coherent_mild w); [|by apply mild_pex]. by eapply coherent_alike.
  - destruct co; [by apply Htask|]. simplify_eq/=.
    by apply (coherent_go_on _ _ _ None _ HC); [|constructor|].
  - assert (w' = upd_st (λ s, set_pex s (on_unregister (pex s) id n)) w ∧ p' = Some (PendDepart co l))
      as [-> ->] by (destruct co; by simplify_eq). by apply coherent_withdraw.
  - assert (w' = out_send w tx (PeerDisconnected id) ∧ p' = Some (PendDepart co ((id, n, ts) :: l)))
      as [-> ->] by (destruct co; by simplify_eq).
    apply (coherent_mild w); [|by apply mild_pex]. by eapply coherent_alike.
Qed.

Lemma mild_tick w now :
  let '(cs, p) := tick (pex (st w)) (pexs w) now in
  mild w (upd_st (λ s, set_pex s p) (set_pexs w cs)).
Proof.
  pose proof (mirrored_tick (pex (st w)) (pexs w) now) as Ha.
  pose proof (pex_conns_tick (pex (st w)) (pexs w) now) as Hp.
  pose proof (replays_tick (pex (st w)) (pexs w) now) as Hr.
  destruct (tick _ _ _) as [cs p]. simpl in *. split; [done|]. split; [exact Hr|]. intros id n.
  unfold reachable_by_pex. simpl. by rewrite Ha, Hp.
Qed.

Lemma start_coherent w ev ps w' p :
  coherent w ps →
  match ev with Sweep now => Forall (quiet ps) (victims config w now).*1 | _ => True end →
  start config w ev = Some (w', p) → coherent w' (option_list p ++ ps).
Proof.
  intros HC Hq Hs.
  assert (∀ w1 p1, mild w w1 → Forall silent (option_list p1) → Some (w1, p1) = Some (w', p) →
    coherent w' (option_list p ++ ps)) as Hgo.
  { intros w1 p1 Hm Hp [= <- <-]. apply (coherent_mild w); [|done].
    destruct p1 as [p1|]; simpl in *; [|done]. rewrite Forall_singleton in Hp.
    by apply coherent_silent. }
  destruct ev as [c addr v now|c|c now mono|c frame now mono|c|c|c|c|c|mono|now| |now];
    unfold start in Hs.
  - destruct (is_some _ || is_some _); [done|]. destruct (is_banned _ _ _ _) as [banned a].
    eapply Hgo; [| |exact Hs]; [by apply mild_pex|]. destruct banned; by repeat constructor.
  - destruct (conn_in w c Handshaking) as [conn|]; [|done].
    eapply Hgo; [| |exact Hs]; [by apply mild_pex|by repeat constructor].
  - unfold event_step in Hs. destruct (conn_in w c Handshaking) as [conn|]; [|done].
    eapply Hgo; [| |exact Hs]; [by apply mild_pex|by constructor].
  - destruct (conn_in w c Serving) as [conn|]; [|done]. cbn [mbind option_bind] in Hs.
    unfold frame_section in Hs. destruct (admit_frame _ _ _) as [verdict lim].
    eapply Hgo; [| |exact Hs]; [by apply mild_pex|].
    destruct verdict; [|by repeat constructor]. destruct (is_pex_frame _); [by repeat constructor|].
    destruct (relay_from_slice _); by repeat constructor.
  - destruct (conn_in w c Serving) as [conn|]; [|done].
    eapply Hgo; [| |exact Hs]; [by apply mild_pex|by repeat constructor].
  - unfold event_step in Hs. destruct (outs w !! c) as [ch|]; [|done]. cbn [mbind option_bind] in Hs.
    destruct (chan_recv ch); [|done]. eapply Hgo; [| |exact Hs]; [by apply mild_pex|by constructor].
  - unfold event_step in Hs. destruct (pexs w !! c) as [ch|]; [|done]. cbn [mbind option_bind] in Hs.
    destruct (chan_recv ch); [|done]. eapply Hgo; [| |exact Hs]; [by apply mild_pex|by constructor].
  - unfold event_step in Hs. destruct (outs w !! c) as [ch|]; [|done]. cbn [mbind option_bind] in Hs.
    destruct (pexs w !! c); [|done]. eapply Hgo; [| |exact Hs]; [by apply mild_pex|by constructor].
  - destruct (conn_in w c Closing) as [conn|]; [|done]. cbn [mbind option_bind] in Hs.
    destruct (is_closed (outs w) c); [|done].
    eapply Hgo; [| |exact Hs]; [by apply mild_pex|by repeat constructor].
  - fold (victims config w mono) in Hs. pose proof (coherent_sweep w mono ps HC Hq) as Hsw.
    destruct (remove_victims (st w) (victims config w mono)) as [pruned s]. by injection Hs as <- <-.
  - unfold event_step in Hs. pose proof (mild_tick w now) as Hm.
    destruct (tick (pex (st w)) (pexs w) now) as [cs px]. eapply Hgo; [| |exact Hs]; [done|by constructor].
  - eapply Hgo; [| |exact Hs]; [by apply mild_pex|by repeat constructor].
  - eapply Hgo; [| |exact Hs]; [by apply mild_pex|by repeat constructor].
Qed.

Lemma coherent_restamp w now p ps : coherent w (p :: ps) → coherent w (restamp now p :: ps).
Proof. intros HC. by eapply coherent_alike; [exact HC|destruct p..]. Qed.

Lemma micro_coherent m x m' :
  coherent (mw m) (pending m) → takes_turns config m x →
  micro_step config workers m x = Some m' → coherent (mw m') (pending m').
Proof.
  intros HC Ht Hs. destruct x as [ev|i now]; simpl in Hs.
  - destruct (decide (busy m (task_of ev))); [done|].
    destruct (start config (mw m) ev) as [[w p]|] eqn:E; [|done]. injection Hs as <-. simpl.
    rewrite (Permutation_app_comm (pending m)). eapply start_coherent; [done| |done].
    by destruct ev.
  - simpl in Ht. destruct (pending m !! i) as [p|] eqn:Hi; [|done]. simpl in Hs.
    destruct (is_check p && _); [done|].
    destruct (resume config (mw m) (restamp now p)) as [w p'] eqn:E. injection Hs as <-. simpl.
    assert (pending m ≡ₚ p :: (take i (pending m) ++ drop (S i) (pending m))) as Hp.
    { rewrite <- (take_drop_middle _ _ _ Hi) at 1. by rewrite Permutation_middle. }
    assert (∀ id, quiet (pending m) id → quiet (take i (pending m) ++ drop (S i) (pending m)) id) as Hq.
    { intros id Hq. apply (quiet_perm _ _ Hp id id eq_refl) in Hq. by apply quiet_cons in Hq as [_ ?]. }
    assert (coherent w (option_list p' ++ (take i (pending m) ++ drop (S i) (pending m)))) as HC'.
    { eapply resume_coherent; [apply coherent_restamp; by rewrite <- Hp| |exact E].
      destruct p; try done; [by apply Hq|]. intros id Hid. rewrite Hid in Ht. by apply Hq. }
    eapply coherent_perm; [|exact HC']. rewrite !app_assoc. f_equiv. apply Permutation_app_comm.
Qed.

Lemma orderly_coherent m : orderly_interleaved config workers m → coherent (mw m) (pending m).
Proof.
  induction 1; [|by eapply micro_coherent].
  split; simpl; [by intros ? ?|done|by intros ? ? ? ?%not_elem_of_nil|by intros ? ? ?%not_elem_of_nil].
Qed.
End coherent.

(** ** Properties *)

Section properties.
Context `{HO : HashOrder, DI : DigIp} `{DP : DigPex} `{ML : MpscLaws} {SD : Serde}.
Context (config : RelayServerConfig) (workers : nat).

(** C33: PEX follows the registry where the handlers of an id take turns. If a section that registers
    or removes an id never runs while something about that id is still to be told to PEX, then
    whatever else is interleaved, of an id with nothing pending that is registered the engine of its
    network was told and has not been told to forget it since, and a sender is on record; and the
    engines are in the states the calls made of them lead to. *)
Theorem orderly_pex_coherent m id q :
  good_config config → orderly_interleaved config workers m →
  registry (st (mw m)) !! id = Some q → quiet (pending m) id →
  id ∈ mirrored (pex (st (mw m))) (peer_network_id q) ∧
  is_Some (pex_conns (pex (st (mw m))) !! id) ∧
  replays (pex (st (mw m))).
Proof.
  intros Hg Hm Hq Hqu. destruct (orderly_coherent config workers Hg m Hm) as [Hr Hc _ _].
  destruct (Hc id q Hq Hqu) as [H1 H2]. split_and!; [exact H1|exact H2|exact Hr].
Qed.
End properties.
