(* ===== verification/InterleavingSends.v ===== *)
(** * Who speaks to whom, between any two sections

    In Interleaving.v a message waits in a handler before it is put into a queue, while other
    handlers register, depart and are swept. Here is what every message that reaches a queue is,
    whatever happens in between. *)

From S2P Require Import Prelude Net Wire ProxyProtocol Config Limits Dial Channel Registry Pex.
From S2P Require Import DhtView Server ServerInv ServerProps Interleaving.

(** ** What may be sent, given who has been registered *)

Section sent.
Context `{HashOrder, DigPex, Mpsc}.
(** [Had c id n]: the registry has held a record of [id] on network [n] that leads to queue [c]. *)
Context (Had : nat → string → string → Prop).

(** A message the relay forwards for an id of connection [c]'s, to a peer of the same network. *)
Definition authorised (c d : nat) (m : RelayMessage) : Prop :=
  ∃ me n id, Had c me n ∧ Had d id n ∧ authored me m.

(** The announcement of a registration of connection [c]'s, to a peer of the same network. *)
Definition announced (c d : nat) (m : RelayMessage) : Prop :=
  ∃ info id, m = PeerConnected info ∧ Had c (pi_peer_id info) (pi_network_id info) ∧
    Had d id (pi_network_id info).

(** The departure of an id, told to a peer of its network; [o] is the task that tells it. *)
Definition departed (o : option nat) (d : nat) (m : RelayMessage) : Prop :=
  ∃ c gone n id, (o = Some c ∨ o = None) ∧ Had c gone n ∧ Had d id n ∧ m = PeerDisconnected gone.

(** What the handler [p] may put into queue [d]: anything if it is [d]'s own; otherwise a message of
    an id of its connection, its announcement or its departure; and a background loop's question. *)
Definition sent (p : Pending) (d : nat) (m : RelayMessage) : Prop :=
  match owner p with
  | Some c => c = d ∨ authorised c d m ∨ announced c d m ∨ departed (Some c) d m
  | None => departed None d m ∨ m = GetDhtRecords DHT_MAX_KEYS_PER_PEER
  end.

(** What a handler in progress has prepared. *)
Definition vouched (p : Pending) : Prop :=
  match p with
  | PendSends (Some c) l => ∀ tx m, (tx, m) ∈ l → tx = c ∨ authorised c tx m
  | PendSends None l => ∀ tx m, (tx, m) ∈ l → m = GetDhtRecords DHT_MAX_KEYS_PER_PEER
  | PendRefuse c _ l => ∀ tx m, (tx, m) ∈ l → tx = c
  | PendAnnounce c _ id n _ l => Had c id n ∧ ∀ tx m, (tx, m) ∈ l → tx = c ∨ announced c tx m
  | PendStore c _ id n => Had c id n
  | PendDepart o l =>
      ∀ gone n ts, (gone, n, ts) ∈ l →
        (∃ c, (o = Some c ∨ o = None) ∧ Had c gone n) ∧ ∀ i tx, (i, tx) ∈ ts → ∃ id, Had tx id n
  | _ => True
  end.

Definition session_known (c : nat) (s : Session) : Prop :=
  match s_peer_id s, s_network_id s with
  | Some id, Some n => Had c id n
  | None, None => True
  | _, _ => False
  end.

Definition sessions_known (cs : gmap nat Conn) : Prop :=
  map_Forall (λ c conn, session_known c (c_session conn)) cs.

Definition records_known (r : Registry) : Prop :=
  ∀ id q, r !! id = Some q → Had (peer_tx q) id (peer_network_id q).

Record honest (w : World) (ps : list Pending) : Prop := {
  hn_sessions : sessions_known (conns w);
  hn_pending : Forall vouched ps }.
End sent.

Lemma vouched_mono `{HashOrder, DigPex, Mpsc} (Had Had' : nat → string → string → Prop) p :
  (∀ c id n, Had c id n → Had' c id n) → vouched Had p → vouched Had' p.
Proof.
  intros HS. destruct p as [| | | | | | | | | | |[c|] l| | | | |c sl l|c sl id n now l|c sl id n| |o l| |];
    simpl; try done.
  - intros Hl tx m Hin. destruct (Hl tx m Hin) as [?|(me & n & id & ? & ? & ?)]; [by left|].
    right. exists me, n, id. auto.
  - intros [? Hl]. split; [auto|]. intros tx m Hin.
    destruct (Hl tx m Hin) as [?|(info & i & ? & ? & ?)]; [by left|]. right. exists info, i. auto.
  - auto.
  - intros Hl gone n ts Hin. destruct (Hl gone n ts Hin) as [(c & Ho & ?) Hts].
    split; [exists c; auto|]. intros i tx Hi. destruct (Hts i tx Hi) as [id ?]. exists id. auto.
Qed.

Lemma vouched_restamp `{HashOrder, DigPex, Mpsc} (Had : nat → string → string → Prop) now p :
  vouched Had p → vouched Had (restamp now p).
Proof. by destruct p. Qed.

Lemma honest_mono `{HashOrder, DigPex, Mpsc} (Had Had' : nat → string → string → Prop) w ps :
  (∀ c id n, Had c id n → Had' c id n) → honest Had w ps → honest Had' w ps.
Proof.
  intros HS [Hs Hp]. split.
  - intros c conn Hc. specialize (Hs c conn Hc). simpl in *. unfold session_known in *.
    repeat case_match; auto.
  - eapply Forall_impl; [exact Hp|]. intros p. by apply vouched_mono.
Qed.

(** ** The sections *)

Section sections.
Context `{HO : HashOrder, DI : DigIp} `{PX : DigPex} `{ML : MpscLaws} {SD : Serde}.
Context (config : RelayServerConfig) (Had : nat → string → string → Prop).

Lemma session_has c s n : session_known Had c s → s_network_id s = Some n →
  ∃ me, s_peer_id s = Some me ∧ Had c me n.
Proof.
  unfold session_known. destruct (s_peer_id s), (s_network_id s); intros; simplify_eq; try done.
  by eexists.
Qed.

Lemma dispatch_vouched w c conn msg now p :
  session_known Had c (c_session conn) → records_known Had (registry (st w)) →
  dispatch_section w c conn msg now = Some p → vouched Had p.
Proof.
  intros Hs Hr. unfold dispatch_section.
  destruct (dispatch (c_session conn) msg) as [ms|id n v l|to m|from ex m| | |code m] eqn:Hd;
    intros Hp; simplify_eq/=; try done.
  - intros tx m Hin. left. apply list_elem_of_fmap in Hin as (m' & [= -> ->] & _). done.
  - destruct (s_network_id (c_session conn)) as [n|] eqn:Hn; simpl in Hp; [|done].
    destruct (session_has _ _ _ Hs Hn) as (me & Hme & Hsrv).
    destruct (sender_in_network _ to n) as [d|] eqn:Hto; simplify_eq/=;
      intros tx m' [= -> ->]%list_elem_of_singleton; [right|by left].
    apply sender_in_network_Some in Hto as (q & Hq & Eq & Et).
    exists me, n, to. split_and!; [done| |by eapply dispatch_forward].
    rewrite <- Eq, <- Et. by apply Hr.
  - destruct (s_network_id (c_session conn)) as [n|] eqn:Hn; simplify_eq/=.
    destruct (session_has _ _ _ Hs Hn) as (me & Hme & Hsrv).
    destruct (dispatch_broadcast _ _ _ _ _ _ Hme Hd) as [-> Ha].
    intros tx m' Hin. right. apply list_elem_of_fmap in Hin as ([i d] & [= -> ->] & Hin).
    apply elem_of_broadcast_targets in Hin as (q & Hq & <- & <- & _).
    exists me, (peer_network_id q), i. split_and!; [done|by apply Hr|done].
  - intros tx m' [= -> ->]%list_elem_of_singleton. by left.
Qed.

Lemma handle_vouched w c conn msg now p :
  session_known Had c (c_session conn) → records_known Had (registry (st w)) →
  (handle_section w c conn msg now).2 = Some p → vouched Had p.
Proof.
  intros Hs Hr. unfold handle_section.
  destruct msg; simpl; intros Hp; try (by eapply dispatch_vouched); simplify_eq/=; [|done].
  intros tx m' [= -> ->]%list_elem_of_singleton. by left.
Qed.

(** A record made leads to the queue it was made for. *)
Lemma register_record closed r id n info c o r' :
  register closed r id n info c c = (o, r') → o ≠ Occupied →
  ∃ q, r' !! id = Some q ∧ peer_tx q = c ∧ peer_network_id q = n.
Proof.
  unfold register. destruct (r !! id) as [e|]; [destruct (negb _)|]; intros [= <- <-] Ho;
    try done; rewrite lookup_insert_eq; eauto.
Qed.

Lemma register_targets w c id n pv addrs addr v clock o info cp ts r :
  register_locked config w c id n pv addrs addr v clock = (Accepted o info cp ts, r) →
  ts = broadcast_targets r id n [].
Proof.
  unfold register_locked. destruct (match v with Some _ => _ | None => _ end); [done|].
  destruct (_ <=? _); [done|]. destruct (register _ _ _ _ _ _ _) as [[] r']; congruence.
Qed.

Lemma register_vouched w c conn slot id n v l now w' p :
  register_section config w c conn slot id n v l now = (w', Some p) →
  records_known Had (registry (st w')) → vouched Had p ∧ outs w' = outs w ∧ conns w' = conns w.
Proof.
  unfold register_section.
  destruct (register_locked config w c id n v l (c_addr conn) (c_verified conn) (now / 1000))
    as [res r] eqn:Hl.
  pose proof (register_locked_cases config _ _ _ _ _ _ _ _ _ _ _ Hl)
    as [(-> & code & msg & k & ->)|(o & info & cp & ts & -> & _ & _ & Ei & En & Hreg & Ho)].
  - intros [= <- <-] _. split_and!; [|done..]. simpl.
    intros tx m [[= -> ->]|[[= -> ->]|[]%not_elem_of_nil]%elem_of_cons]%elem_of_cons; done.
  - intros [= <- <-] Hr. pose proof (register_targets _ _ _ _ _ _ _ _ _ _ _ _ _ _ Hl) as ->.
    assert (records_known Had r) as Hr' by (destruct o; exact Hr).
    destruct (register_record _ _ _ _ _ _ _ _ Hreg Ho) as (q & Hq & Et & Eq).
    assert (Had c id n) as Hc by (rewrite <- Et, <- Eq; by apply Hr').
    split_and!; [|by destruct o..]. simpl. split; [done|].
    intros tx m [[= -> ->]|Hin]%elem_of_cons; [by left|right].
    apply list_elem_of_fmap in Hin as ([i d] & [= -> ->] & Hin).
    apply elem_of_broadcast_targets in Hin as (q' & Hq' & <- & En' & _).
    exists info, i. rewrite Ei, En. split_and!; [done|done|]. rewrite <- En'. by apply Hr'.
Qed.

(** Those who are told of a departure are registered on its network. *)
Lemma targets_known r from n i tx :
  records_known Had r → (i, tx) ∈ broadcast_targets r from n [] → ∃ id, Had tx id n.
Proof.
  intros Hr Hin. apply elem_of_broadcast_targets in Hin as (q & Hq & <- & <- & _).
  exists i. by apply Hr.
Qed.

Lemma records_delete r id : records_known Had r → records_known Had (delete id r).
Proof. intros Hr i q [_ Hq]%lookup_delete_Some. by apply Hr. Qed.

Lemma deregister_vouched w c s :
  session_known Had c s → records_known Had (registry (st w)) →
  vouched Had (PendDepart (Some c) (deregister_section w s).2).
Proof.
  intros Hs Hr. unfold deregister_section, session_known in *. simpl.
  destruct (s_peer_id s) as [id|], (s_network_id s) as [n|]; try done;
    try (intros ? ? ? Hin; by apply not_elem_of_nil in Hin).
  rewrite remove_locked_cases. destruct (registry (st w) !! id); simpl; intros ? ? ? Hin;
    [|by apply not_elem_of_nil in Hin].
  apply list_elem_of_singleton in Hin as [= -> -> ->]. split; [exists c; auto|].
  intros i tx. apply targets_known. by apply records_delete.
Qed.

Lemma sweep_vouched s vs :
  records_known Had (registry s) →
  (∀ id n, (id, n) ∈ vs → ∃ c, Had c id n) →
  vouched Had (PendDepart None (remove_victims s vs).1).
Proof.
  intros Hr Hvs. simpl. revert s Hr Hvs. induction vs as [|[v n] vs IH]; intros s Hr Hvs; simpl.
  { intros ? ? ? Hin. by apply not_elem_of_nil in Hin. }
  rewrite remove_locked_cases.
  assert (∃ s', (match registry s !! v with Some _ => _ | None => (None, s) end) =
    ((λ _, broadcast_targets (delete v (registry s)) v n []) <$> registry s !! v, s') ∧
    records_known Had (registry s')) as (s' & -> & Hr').
  { destruct (registry s !! v); eexists; (split; [done|]); [by apply records_delete|done]. }
  specialize (IH s' Hr' (λ id n Hin, Hvs id n (list_elem_of_further _ _ _ Hin))).
  destruct (remove_victims s' vs) as [pruned s2]. cbn [fst] in *.
  destruct (registry s !! v); [|done]. intros gone n' ts [[= -> -> ->]|Hin]%elem_of_cons; [|by apply IH].
  destruct (Hvs v n) as [c ?]; [by left|]. split; [exists c; auto|].
  intros i tx. apply targets_known. by apply records_delete.
Qed.

(** ** The steps *)

Lemma sessions_update cs c conn conn' :
  sessions_known Had cs → cs !! c = Some conn →
  s_peer_id (c_session conn') = s_peer_id (c_session conn) →
  s_network_id (c_session conn') = s_network_id (c_session conn) →
  sessions_known Had (<[c := conn']> cs).
Proof.
  intros Hs Hc E1 E2. apply map_Forall_insert_2; [|done].
  unfold session_known. rewrite E1, E2. apply (Hs c conn Hc).
Qed.

(** What a step has to show. *)
Definition keeps_faith (w : World) (p : Pending) (r : World * option Pending) : Prop :=
  sessions_known Had (conns r.1) ∧ Forall (vouched Had) (option_list r.2) ∧
  ∀ d, appended (outs w) (outs r.1) d (sent Had p d).

(** A step that sends nothing and leaves the sessions alone. *)
Lemma faith_quiet w p w' p' :
  sessions_known Had (conns w) → conns w' = conns w → outs w' = outs w →
  Forall (vouched Had) (option_list p') → keeps_faith w p (w', p').
Proof.
  intros Hs Ec Eo Hp. split_and!; simpl; [by rewrite Ec|done|]. rewrite Eo. intros d. apply appended_refl.
Qed.

(** A step that puts one message into a queue. *)
Lemma faith_send w p tx m p' :
  sessions_known Had (conns w) → sent Had p tx m → Forall (vouched Had) (option_list p') →
  keeps_faith w p (out_send w tx m, p').
Proof.
  intros Hs Hm Hp. split_and!; simpl; [done|done|]. intros d. apply appended_try_send. by intros <-.
Qed.

Lemma sent_own p c m : owner p = Some c → sent Had p c m.
Proof. intros E. unfold sent. rewrite E. by left. Qed.

Lemma pex_faith w c conn frame now :
  sessions_known Had (conns w) → conns w !! c = Some conn →
  keeps_faith w (PendPex c frame now) (resume_conn config w c conn (PendPex c frame now)).
Proof.
  intros Hs Hc. simpl. unfold pex_section.
  destruct (pex_dispatch _ _) as [|msg|msg| |]; simpl.
  - apply faith_send; [done|by apply sent_own|by repeat constructor].
  - destruct (on_node_handshake _ _ _ _ _) as [replies q]. split_and!; simpl.
    + by eapply sessions_update.
    + by repeat constructor.
    + intros d. apply appended_refl.
  - destruct (on_node_message _ _ _ _ _) as [replies q]. apply faith_quiet; by repeat constructor.
  - destruct (on_node_bad_frame _ _ _ _) as [replies q]. apply faith_quiet; by repeat constructor.
  - apply faith_quiet; by repeat constructor.
Qed.

(** The steps that need the connection's local state. *)
Lemma task_faith w c conn p :
  sessions_known Had (conns w) → records_known Had (registry (st w)) →
  records_known Had (registry (st (resume_conn config w c conn p).1)) →
  vouched Had p → owner p = Some c → conns w !! c = Some conn →
  keeps_faith w p (resume_conn config w c conn p).
Proof.
  intros Hs Hr Hr' Hp Ho Hc. pose proof (Hs c conn Hc : session_known Had c (c_session conn)) as Hses.
  destruct p as [| | | | | | | | | | |co sl| | | | | |c' sl id n t [|[tx m] l]|c' sl id n| |[co|] [|[[id n] ts] l]| |];
    try (simpl in Ho; injection Ho as ->); try discriminate Ho; try (apply faith_quiet; [done..|]; constructor; [exact Hp|by constructor]).
  - by apply pex_faith.
  - destruct (handle_section w c conn msg now_ms) as [w1 p1] eqn:E. simpl. rewrite E.
    assert (conns w1 = conns w ∧ outs w1 = outs w) as [E1 E2].
    { change w1 with ((w1, p1).1). rewrite <- E. unfold handle_section.
      destruct msg; try done. simpl. by destruct (is_some _). }
    apply faith_quiet; [done..|]. destruct p1 as [p1|]; repeat constructor.
    apply (handle_vouched w c conn msg now_ms); [done..|]. by rewrite E.
  - simpl. apply faith_quiet; [done..|].
    destruct (dispatch_section w c conn msg now_ms) eqn:E; repeat constructor.
    by eapply dispatch_vouched.
  - simpl. destruct (allow_registration _ _ _ _) as [ok a].
    apply faith_quiet; [done..|]. by destruct ok; repeat constructor.
  - simpl. destruct (try_acquire_registration _ _ _) as [[slot|] a]; apply faith_quiet; by repeat constructor.
  - simpl. apply faith_quiet; try done. repeat constructor.
    simpl. intros tx m [[= -> ->]|[[= -> ->]|[]%not_elem_of_nil]%elem_of_cons]%elem_of_cons; done.
  - simpl in *. destruct (register_section _ _ _ _ _ _ _ _ _ _) as [w1 p1] eqn:E.
    destruct p1 as [p1|].
    + destruct (register_vouched _ _ _ _ _ _ _ _ _ _ _ E Hr') as (Hv & Eo & Ec).
      apply faith_quiet; [done..|]. by repeat constructor.
    + unfold register_section in E. destruct (register_locked _ _ _ _ _ _ _ _ _ _) as [[] ?]; done.
  - simpl in *. apply faith_quiet; try done. repeat constructor. apply Hp.
  - simpl in *. split_and!; simpl; [|by constructor|].
    + destruct (c_reg_slot conn); apply map_Forall_insert_2; done.
    + intros d. destruct (c_reg_slot conn); apply appended_refl.
  - simpl in *. pose proof (deregister_vouched w c (c_session conn) Hses Hr) as Hv.
    destruct (deregister_section w (c_session conn)) as [w1 l] eqn:E.
    assert (conns w1 = conns w ∧ outs w1 = outs w) as [E1 E2].
    { change w1 with ((w1, l).1). rewrite <- E. unfold deregister_section.
      destruct (s_peer_id (c_session conn)), (s_network_id (c_session conn)); try done.
      by destruct (remove_locked _ _ _) as [[?|] ?]. }
    apply faith_quiet; [done..|]. constructor; [exact Hv|by constructor].
  - simpl. split_and!; simpl; [by eapply sessions_update|by constructor|].
    intros d. apply appended_refl.
Qed.

(** The steps of telling a departure: its withdrawal from PEX once everybody is told, and a notice. *)
Lemma depart_next w o id n l :
  sessions_known Had (conns w) → vouched Had (PendDepart o ((id, n, []) :: l)) →
  keeps_faith w (PendDepart o ((id, n, []) :: l))
    (upd_st (λ s, set_pex s (on_unregister (pex s) id n)) w, Some (PendDepart o l)).
Proof.
  intros Hs Hp. apply faith_quiet; [done..|]. constructor; [|by constructor].
  intros gone n' ts Hin. apply Hp. by right.
Qed.

Lemma depart_send w o id n i tx ts l :
  sessions_known Had (conns w) → vouched Had (PendDepart o ((id, n, (i, tx) :: ts) :: l)) →
  keeps_faith w (PendDepart o ((id, n, (i, tx) :: ts) :: l))
    (out_send w tx (PeerDisconnected id), Some (PendDepart o ((id, n, ts) :: l))).
Proof.
  intros Hs Hp. destruct (Hp id n ((i, tx) :: ts)) as [(c & Ho & Hc) Hts]; [by left|].
  apply faith_send; [done| |].
  - destruct (Hts i tx) as [j Hj]; [by left|].
    assert (departed Had o tx (PeerDisconnected id)) as Hd by (exists c, id, n, j; auto).
    unfold sent. destruct o; simpl; auto.
  - constructor; [|by constructor]. intros gone n' ts' [[= -> -> ->]|Hin]%elem_of_cons.
    + split; [by exists c|]. intros i' tx' Hin. apply (Hts i'). by right.
    + apply Hp. by right.
Qed.

Lemma resume_faith w p :
  sessions_known Had (conns w) → records_known Had (registry (st w)) →
  records_known Had (registry (st (resume config w p).1)) → vouched Had p →
  keeps_faith w p (resume config w p).
Proof.
  intros Hs Hr Hr' Hp.
  assert (∀ c, owner p = Some c →
    resume config w p = match conns w !! c with
                        | Some conn => resume_conn config w c conn p | None => (w, Some p) end →
    keeps_faith w p (resume config w p)) as Htask.
  { intros c Ho E. rewrite E in *. destruct (conns w !! c) eqn:Hc; [by apply task_faith|].
    apply faith_quiet; [done..|]. constructor; [exact Hp|by constructor]. }
  destruct p as [| |c addr v now| | | | |c [|m ms]|c msg now| | |[c|] [|[tx m] sl]| | | | |c [sl|] [|[tx m] l]|c sl id n t [|[tx m] l]| | |[co|] [|[[id n] [|[i tx] ts]] l]|c [reg|] ip|];
    try (by eapply Htask); try (by apply faith_quiet; repeat constructor); simpl in *.
  - apply faith_quiet; [done..|]. destruct (_ <=? _); by repeat constructor.
  - destruct (try_acquire_conn _ _ _) as [[slot|] a]; [|by apply faith_quiet; repeat constructor].
    split_and!; simpl; [|by constructor|intros d; apply appended_refl].
    by apply map_Forall_insert_2.
  - apply faith_send; [done| |].
    + unfold sent. simpl. destruct (Hp tx m) as [->|?]; [by left|by left|auto].
    + constructor; [|by constructor]. intros tx' m' Hin. apply Hp. by right.
  - apply faith_send; [done| |].
    + unfold sent. simpl. right. apply (Hp tx m). by left.
    + constructor; [|by constructor]. intros tx' m' Hin. apply (Hp tx'). by right.
  - apply faith_send; [done| |].
    + apply sent_own. simpl. by rewrite (Hp tx m) by by left.
    + constructor; [|by constructor]. intros tx' m' Hin. apply (Hp tx' m'). by right.
  - apply faith_send; [done| |].
    + apply sent_own. simpl. by rewrite (Hp tx m) by by left.
    + constructor; [|by constructor]. intros tx' m' Hin. apply (Hp tx' m'). by right.
  - destruct Hp as [Hc Hp]. apply faith_send; [done| |].
    + unfold sent. simpl. destruct (Hp tx m) as [->|?]; [by left|by left|auto].
    + constructor; [|by constructor]. split; [done|]. intros tx' m' Hin. apply Hp. by right.
  - by apply depart_next.
  - by apply (depart_send _ (Some co)).
  - by apply depart_next.
  - by apply (depart_send _ None).
Qed.

(** A beginning puts nothing into a queue. *)
Definition starts_faithfully (w w' : World) (p : option Pending) : Prop :=
  sessions_known Had (conns w') ∧ Forall (vouched Had) (option_list p) ∧
  ∀ d, queue (outs w') d `suffix_of` queue (outs w) d.

Lemma starts_quiet w w' p :
  sessions_known Had (conns w') → outs w' = outs w → Forall (vouched Had) (option_list p) →
  starts_faithfully w w' p.
Proof. intros Hs Eo Hp. split_and!; [done..|]. intros d. by rewrite Eo. Qed.

Lemma suffix_insert (cs : Chans RelayMessage) c ch d :
  ch_queue ch `suffix_of` queue cs c → queue (<[c := ch]> cs) d `suffix_of` queue cs d.
Proof.
  intros Hq. destruct (decide (c = d)) as [<-|Hne].
  - unfold queue at 1. by rewrite lookup_insert_eq.
  - unfold queue. by rewrite lookup_insert_ne.
Qed.

Lemma start_faith w ev w' p :
  good_config config → sessions_known Had (conns w) → records_known Had (registry (st w)) →
  start config w ev = Some (w', p) → starts_faithfully w w' p.
Proof.
  intros (_ & _ & Hcap) Hs Hr E.
  assert (∀ c, sessions_known Had (delete c (conns w))) as Hdel.
  { intros c d conn [_ Hd]%lookup_delete_Some. by apply Hs. }
  destruct ev as [c addr v now|c|c now mono|c frame now mono|c|c|c|c|c|mono|now| |now];
    unfold start in E.
  - destruct (_ || _); [done|]. destruct (is_banned _ _ _ _) as [[] a]; simplify_eq/=;
      apply starts_quiet; by repeat constructor.
  - destruct (conn_in _ _ _); simplify_eq/=. unfold drops in E. simplify_eq/=. apply starts_quiet; [apply Hdel|done|by constructor].
  - simpl in E. destruct (conn_in w c Handshaking) as [conn|] eqn:Hc; simplify_eq/=.
    apply conn_in_Some in Hc as [Hc _].
    split_and!; [by eapply sessions_update|by constructor|]. intros d. apply suffix_insert.
    destruct (chan_new_law RelayMessage (outbound_queue_capacity config) ltac:(lia))
      as [-> _].
    apply suffix_nil.
  - destruct (conn_in w c Serving) as [conn|] eqn:Hc; simplify_eq/=.
    apply conn_in_Some in Hc as [Hc _]. unfold frame_section in E.
    destruct (admit_frame _ _ _) as [verdict lim]. simplify_eq/=.
    apply starts_quiet; [by eapply sessions_update|done|].
    destruct verdict; [|by repeat constructor]. destruct (is_pex_frame _); [by repeat constructor|].
    destruct (relay_from_slice _); [by repeat constructor|]. constructor; [|by constructor].
    intros tx m [= -> ->]%list_elem_of_singleton. by left.
  - destruct (conn_in _ _ _); simplify_eq/=. apply starts_quiet; by repeat constructor.
  - simpl in E. destruct (outs w !! c) as [ch|] eqn:Hc; simpl in E; [|done].
    destruct (chan_recv ch) as [[m ch']|] eqn:Hch; simplify_eq/=.
    split_and!; [done|by constructor|]. intros d. apply suffix_insert. unfold queue. rewrite Hc.
    apply chan_recv_law in Hch as [-> _]. by exists [m].
  - simpl in E. destruct (pexs w !! c) as [ch|]; simpl in E; [|done].
    destruct (chan_recv ch) as [[m ch']|]; simplify_eq/=. apply starts_quiet; by repeat constructor.
  - simpl in E. destruct (outs w !! c) as [ch|] eqn:Hc; simpl in E; [|done].
    destruct (pexs w !! c) as [px|]; simplify_eq/=.
    split_and!; [done|by constructor|]. intros d. apply suffix_insert.
    destruct (chan_close_law _ ch) as [-> _]. apply suffix_nil.
  - destruct (conn_in _ _ _); simplify_eq/=. destruct (is_closed _ _); simplify_eq/=. unfold drops in E.
    simplify_eq/=. apply starts_quiet; [apply Hdel|done|by constructor].
  - set (vs := dead_or_stale _ _ _ _ _) in E.
    pose proof (sweep_vouched (st w) vs Hr) as Hv.
    destruct (remove_victims (st w) vs) as [pruned s]. simplify_eq/=.
    apply starts_quiet; [done|done|]. constructor; [|by constructor]. refine (Hv _).
    intros id n (q & Hq & <- & _)%elem_of_dead_or_stale. exists (peer_tx q). by apply Hr.
  - unfold event_step in E. simplify_eq/=. apply starts_quiet; by repeat constructor.
  - simplify_eq/=. apply starts_quiet; [done|done|]. constructor; [|by constructor].
    intros tx m Hin. by apply list_elem_of_fmap in Hin as (t & [= -> ->] & _).
  - simplify_eq/=. apply starts_quiet; by repeat constructor.
Qed.
End sections.

(** ** Properties *)

Section properties.
Context `{HO : HashOrder, DI : DigIp} `{PX : DigPex} `{ML : MpscLaws} {SD : Serde}.
Context (config : RelayServerConfig) (workers : nat).

(** On the way to [m] the registry has held a record of [id] on network [n] that leads to queue [c]. *)
Definition served (m : Micro) (c : nat) (id n : string) : Prop :=
  ∃ m0 xs q, interleaved config workers m0 ∧ micro_run config workers m0 xs = Some m ∧
    registry (st (mw m0)) !! id = Some q ∧ peer_tx q = c ∧ peer_network_id q = n.

Lemma served_step m x m' c id n :
  micro_step config workers m x = Some m' → served m c id n → served m' c id n.
Proof.
  intros Hs (m0 & xs & q & Hm & Hr & Hq). exists m0, (xs ++ [x]), q. split_and!; [done| |apply Hq..].
  rewrite micro_run_app, Hr. simpl. by rewrite Hs.
Qed.

Lemma served_now m : interleaved config workers m → records_known (served m) (registry (st (mw m))).
Proof. intros Hm id q Hq. by exists m, [], q. Qed.

(** What a step of the model does, told apart. *)
Lemma micro_step_cases m x m' :
  micro_step config workers m x = Some m' →
  match x with
  | Starts ev => ∃ p, start config (mw m) ev = Some (mw m', p) ∧ pending m' = pending m ++ option_list p
  | Resumes i now =>
      ∃ p p' before after, pending m !! i = Some p ∧ pending m = before ++ p :: after ∧
        resume config (mw m) (restamp now p) = (mw m', p') ∧ pending m' = before ++ option_list p' ++ after
  end.
Proof.
  destruct x as [ev|i now]; simpl; intros Hs.
  - destruct (decide (busy m (task_of ev))); [done|].
    destruct (start config (mw m) ev) as [[w p]|]; simplify_eq/=. by exists p.
  - destruct (pending m !! i) as [p|] eqn:Hi; simpl in Hs; [|done].
    destruct (is_check p && (workers <=? admits (pending m))%nat); [done|].
    destruct (resume config (mw m) (restamp now p)) as [w p'] eqn:E. simplify_eq/=.
    exists p, p', (take i (pending m)), (drop (S i) (pending m)).
    split_and!; [done|by rewrite take_drop_middle|done..].
Qed.

Lemma micro_honest m x m' :
  good_config config → interleaved config workers m → micro_step config workers m x = Some m' →
  honest (served m) (mw m) (pending m) → honest (served m') (mw m') (pending m').
Proof.
  intros Hg Hm Hs Hh. assert (interleaved config workers m') as Hm' by (by eapply interleaved_step).
  apply (honest_mono _ (served m')) in Hh as [Hse Hpe]; [|by intros; eapply served_step].
  assert (records_known (served m') (registry (st (mw m)))) as Hr.
  { intros id q Hq. eapply served_step; [done|]. by apply served_now. }
  apply micro_step_cases in Hs. destruct x as [ev|i now].
  - destruct Hs as (p & Hst & ->).
    destruct (start_faith config (served m') (mw m) ev (mw m') p) as (H1 & H2 & _); [done..|].
    split; [done|]. by apply Forall_app.
  - destruct Hs as (p & p' & before & after & _ & E & Hre & ->). rewrite E in Hpe.
    apply Forall_app in Hpe as [Hb [Hp Ha]%Forall_cons].
    destruct (resume_faith config (served m') (mw m) (restamp now p)) as (H1 & H2 & _); try done;
      rewrite ?Hre in *; [by apply served_now|by apply vouched_restamp|].
    split; [done|]. by rewrite !Forall_app.
Qed.

Lemma interleaved_honest m :
  good_config config → interleaved config workers m → honest (served m) (mw m) (pending m).
Proof.
  intros Hg. induction 1 as [|m x m' Hm IH Hs]; [|by eapply micro_honest].
  split; [by intros c conn Hc|by constructor].
Qed.

(** What a handler that goes on puts into a queue. *)
Lemma resumes_sent m i now m' d :
  good_config config → interleaved config workers m →
  micro_step config workers m (Resumes i now) = Some m' →
  ∃ p, pending m !! i = Some p ∧ appended (outs (mw m)) (outs (mw m')) d (sent (served m') p d).
Proof.
  intros Hg Hm Hs. pose proof (interleaved_honest m Hg Hm) as Hh.
  assert (interleaved config workers m') as Hm' by (by eapply interleaved_step).
  apply (honest_mono _ (served m')) in Hh as [Hse Hpe]; [|by intros; eapply served_step].
  assert (records_known (served m') (registry (st (mw m)))) as Hr.
  { intros id q Hq. eapply served_step; [done|]. by apply served_now. }
  apply micro_step_cases in Hs. destruct Hs as (p & p' & before & after & Hi & E & Hre & _).
  exists p. split; [done|]. rewrite E in Hpe. apply Forall_app in Hpe as [_ [Hp _]%Forall_cons].
  pose proof (resume_faith config (served m') (mw m) (restamp now p) Hse Hr) as Hf. rewrite Hre in Hf.
  eapply appended_weaken; [|by apply Hf; [apply served_now|apply vouched_restamp]].
  intros msg. unfold sent. by destruct p.
Qed.

(** C24: nobody speaks for another, whatever handlers are in progress. A handler that begins puts nothing
    into a relay queue. A step of one adds to the queue of another connection only what names, as
    its author, an id its own connection has been registered as, with the recipient registered on
    the same network; the announcement or the departure of such an id, to the same network; and a
    background loop adds only the departure of a registered id, or its question. *)
Theorem interleaved_no_spoofing m x m' d :
  good_config config → interleaved config workers m → micro_step config workers m x = Some m' →
  match x with
  | Starts _ => queue (outs (mw m')) d `suffix_of` queue (outs (mw m)) d
  | Resumes i _ => ∃ p, pending m !! i = Some p ∧
      appended (outs (mw m)) (outs (mw m')) d (sent (served m') p d)
  end.
Proof.
  intros Hg Hm Hs. destruct x as [ev|i now]; [|by eapply resumes_sent].
  destruct (interleaved_honest m Hg Hm) as [Hse _]. apply micro_step_cases in Hs as (p & Hst & _).
  by eapply (start_faith config (served m)); [..|by apply served_now|].
Qed.
End properties.
