(* ===== verification/InterleavingDelivery.v ===== *)
(** * What becomes of a message, between any two sections

    Delivery.v follows a message through whole events. Here its handler may be interrupted before it
    finds the recipient, before it puts the message into the queue, and ever after. *)

From S2P Require Import Prelude Net Wire ProxyProtocol Config Limits Dial Channel Registry Pex.
From S2P Require Import DhtView Server ServerInv ServerProps Mailbox Refinement Delivery.
From S2P Require Import Interleaving InterleavingInv InterleavingSends.

(** The events begun, in order. *)
Definition started (xs : list MicroStep) : list Event :=
  omap (λ x, match x with Starts ev => Some ev | Resumes _ _ => None end) xs.

Section delivery.
Context `{HO : HashOrder, DI : DigIp} `{DP : DigPex} `{ML : MpscLaws} {SD : Serde}.
Context (config : RelayServerConfig) (workers : nat).
Hypothesis Hgood : good_config config.

(** A beginning leaves the messages of a queue where they are, unless the queue's writer acts. *)
Lemma start_queue w ev w' p d :
  settled config w → d ∈ dom (outs w) → ev ≠ WriterSends d → ev ≠ WriterExits d →
  start config w ev = Some (w', p) → queue (outs w') d = queue (outs w) d.
Proof.
  intros HS Hd H1 H2 Hs.
  destruct ev as [c addr v now|c|c now mono|c frame now mono|c|c|c|c|c|mono|now| |now];
    unfold start in Hs.
  - destruct (_ || _); [done|]. by destruct (is_banned _ _ _ _) as [[] a]; simplify_eq/=.
  - destruct (conn_in _ _ _); simplify_eq/=. unfold drops in Hs. by simplify_eq/=.
  - simpl in Hs. destruct (conn_in w c Handshaking) as [conn|] eqn:Hc; simplify_eq/=.
    apply conn_in_Some in Hc as [Hc Hph].
    assert (c ≠ d) as Hne by (intros ->; by apply (se_phase _ _ HS _ _ Hc) in Hd).
    unfold queue. by rewrite lookup_insert_ne.
  - destruct (conn_in w c Serving) as [conn|]; simplify_eq/=. unfold frame_section in Hs.
    destruct (admit_frame _ _ _). by simplify_eq/=.
  - destruct (conn_in _ _ _); by simplify_eq/=.
  - simpl in Hs. destruct (outs w !! c) as [ch|]; simpl in Hs; [|done].
    destruct (chan_recv ch) as [[m ch']|]; simplify_eq/=.
    unfold queue. by rewrite lookup_insert_ne by congruence.
  - simpl in Hs. destruct (pexs w !! c) as [ch|]; simpl in Hs; [|done].
    by destruct (chan_recv ch) as [[m ch']|]; simplify_eq/=.
  - simpl in Hs. destruct (outs w !! c) as [ch|]; simpl in Hs; [|done].
    destruct (pexs w !! c) as [px|]; simplify_eq/=.
    unfold queue. by rewrite lookup_insert_ne by congruence.
  - destruct (conn_in _ _ _); simplify_eq/=. destruct (is_closed _ _); simplify_eq/=.
    unfold drops in Hs. by simplify_eq/=.
  - destruct (remove_victims _ _) as [pruned s]. by simplify_eq/=.
  - unfold event_step in Hs. by simplify_eq/=.
  - by simplify_eq/=.
  - by simplify_eq/=.
Qed.

Section runs.
Hypothesis Hwide : max_connections config + Z.of_nat workers ≤ u64_max.

(** Every step but those of [d]'s writer leaves [d]'s queued messages in place. *)
Lemma grows_step m x m' d :
  interleaved config workers m → d ∈ dom (outs (mw m)) →
  x ≠ Starts (WriterSends d) → x ≠ Starts (WriterExits d) →
  micro_step config workers m x = Some m' →
  appended (outs (mw m)) (outs (mw m')) d (λ _, True).
Proof.
  intros Hm Hd H1 H2 Hs. destruct x as [ev|i now].
  - apply micro_step_cases in Hs as (p & Hst & _). exists []. rewrite app_nil_r. split; [|done].
    apply (start_queue (mw m) ev (mw m') p); [|done|congruence|congruence|done].
    by apply (interleaved_sound config workers).
  - destruct (resumes_sent config workers m i now m' d) as (p & _ & Ha); [done..|].
    by eapply appended_weaken; [|exact Ha].
Qed.

(** [d]'s writer takes the message at the head. *)
Lemma writer_step m m' d msg q :
  queue (outs (mw m)) d = msg :: q →
  micro_step config workers m (Starts (WriterSends d)) = Some m' → queue (outs (mw m')) d = q.
Proof.
  intros Hq Hs. apply micro_step_cases in Hs as (p & Hst & _). unfold start in Hst.
  destruct (event_step config (mw m) (WriterSends d)) as [w|] eqn:E; [|done].
  injection Hst as -> _. by eapply (queue_take config).
Qed.

(** A queued message stays behind those before it, and comes forward as they are taken. *)
Lemma queued_micro_run m xs m' d pre msg rest :
  interleaved config workers m → micro_run config workers m xs = Some m' →
  WriterExits d ∉ started xs → (takes d (started xs) ≤ length pre)%nat →
  queue (outs (mw m)) d = pre ++ msg :: rest →
  ∃ rest', queue (outs (mw m')) d = drop (takes d (started xs)) pre ++ msg :: rest'.
Proof.
  revert m pre rest. induction xs as [|x xs IH]; intros m pre rest Hm Hrun Hex Hn Hq.
  { injection Hrun as <-. by exists rest. }
  simpl in Hrun. destruct (micro_step config workers m x) as [m1|] eqn:Hs; simpl in Hrun; [|done].
  assert (interleaved config workers m1) as Hm1 by (by eapply interleaved_step).
  assert (x = Starts (WriterSends d) ∨ x ≠ Starts (WriterSends d)) as [->|Hx].
  { destruct x as [ev|]; [|by right].
    destruct (is_take d ev) eqn:E; [left; f_equal; by apply is_take_true|right; intros [= ->]].
    by rewrite (proj2 (is_take_true d _) eq_refl) in E. }
  - change (started (Starts (WriterSends d) :: xs)) with (WriterSends d :: started xs) in *.
    rewrite takes_cons in Hn |- *.
    apply not_elem_of_cons in Hex as [_ Hex]. rewrite (proj2 (is_take_true d _) eq_refl) in Hn |- *.
    destruct pre as [|y pre]; simpl in Hn; [lia|].
    apply (IH m1 pre rest); try done; [lia|]. by eapply writer_step.
  - assert (takes d (started (x :: xs)) = takes d (started xs)) as Et.
    { destruct x as [ev|]; [|done]. change (started (Starts ev :: xs)) with (ev :: started xs).
      rewrite takes_cons.
      destruct (is_take d ev) eqn:E; [|done]. apply is_take_true in E as ->. done. }
    rewrite Et in *.
    assert (d ∈ dom (outs (mw m))) as Hd.
    { apply elem_of_dom. unfold queue in Hq. destruct (outs (mw m) !! d); [by eexists|]. by destruct pre. }
    destruct (grows_step m x m1 d) as (new & E & _); try done.
    { intros ->. apply Hex. by left. }
    apply (IH m1 pre (rest ++ new)); try done; [|by rewrite E, Hq, <- app_assoc].
    intros Hin. apply Hex. destruct x; [by right|done].
Qed.
End runs.
End delivery.

(** ** Properties *)

Section properties.
Context `{HO : HashOrder, DI : DigIp} `{DP : DigPex} `{ML : MpscLaws} {SD : Serde}.
Context (config : RelayServerConfig) (workers : nat).

(** C23: a message finds its way through any interleaving. When the relay looks up the recipient of a
    registered connection's message and finds it on the connection's network, it sets about sending
    it under the connection's registered id to the recipient's queue. Whenever it gets to that, if
    the queue is open and has room, the message is queued; and whatever is done by whom afterwards,
    as long as the recipient's writer lives, it is the next message that writer takes once it has
    taken those that were queued before. *)
Theorem interleaved_delivery m i now m1 c conn me n to q claimed payload seq t ys m2 j now2 m3 xs m4 :
  good_config config → max_connections config + Z.of_nat workers ≤ u64_max →
  interleaved config workers m →
  pending m !! i = Some (PendHandle c (RelayGossipMessage claimed to payload seq) t) →
  conns (mw m) !! c = Some conn →
  s_peer_id (c_session conn) = Some me → s_network_id (c_session conn) = Some n →
  registry (st (mw m)) !! to = Some q → peer_network_id q = n →
  micro_step config workers m (Resumes i now) = Some m1 →
  let send := PendSends (Some c) [(peer_tx q, RelayGossipMessage me to payload seq)] in
  pending m1 !! i = Some send ∧
  (micro_run config workers m1 ys = Some m2 → pending m2 !! j = Some send →
   is_closed (outs (mw m2)) (peer_tx q) = false →
   Z.of_nat (length (queue (outs (mw m2)) (peer_tx q))) < outbound_queue_capacity config →
   micro_step config workers m2 (Resumes j now2) = Some m3 →
   micro_run config workers m3 xs = Some m4 → WriterExits (peer_tx q) ∉ started xs →
   takes (peer_tx q) (started xs) = length (queue (outs (mw m2)) (peer_tx q)) →
   ∃ ch ch', outs (mw m4) !! peer_tx q = Some ch ∧
     chan_recv ch = Some (RelayGossipMessage me to payload seq, ch')).
Proof.
  intros Hg Hw Hm Hi Hc Hme Hn Hq Hqn Hs send. set (d := peer_tx q) in *. split.
  - simpl in Hs. rewrite Hi in Hs. simpl in Hs. rewrite Hc in Hs. unfold dispatch_section, dispatch in Hs.
    rewrite Hme, Hn in Hs. simpl in Hs.
    assert (sender_in_network (registry (st (mw m))) to n = Some d) as E
      by (apply sender_in_network_Some; by exists q).
    rewrite E in Hs. injection Hs as <-. simpl. rewrite lookup_app_r;
      apply lookup_lt_Some in Hi; rewrite length_take_le by lia; [|lia]. by rewrite Nat.sub_diag.
  - intros Hys Hj Hop Hroom Hs2 Hxs Hex Htk.
    assert (interleaved config workers m2) as Hm2.
    { eapply interleaved_run; [|exact Hys]. by eapply interleaved_step. }
    assert (queue (outs (mw m3)) d = queue (outs (mw m2)) d ++ [RelayGossipMessage me to payload seq]) as Hq3.
    { simpl in Hs2. rewrite Hj in Hs2. simpl in Hs2. injection Hs2 as <-. simpl.
      apply (queue_sent (outbound_queue_capacity config)); [|done..].
      apply (interleaved_sound config workers Hg Hw m2 Hm2). }
    destruct (queued_micro_run config workers Hg Hw m3 xs m4 d (queue (outs (mw m2)) d)
      (RelayGossipMessage me to payload seq) []) as [rest' E]; try done.
    { by eapply interleaved_step. } { by rewrite Htk. }
    rewrite Htk, drop_all in E. by apply queue_Some in E.
Qed.
End properties.
