(* ===== verification/Progress.v ===== *)
(** * What is in progress comes to its end

    In Interleaving.v a handler takes one step at a time, when it is chosen. Here: as long as no new
    handler begins, some handler can always go on, and only finitely many steps are left, whichever
    are chosen. So there is no deadlock and no endless loop among the handlers. *)

From Stdlib Require Import Relation_Operators Lexicographic_Product.
From S2P Require Import Prelude Net Wire ProxyProtocol Config Limits Dial Channel Registry Pex.
From S2P Require Import DhtView Server ServerInv ServerProps Interleaving InterleavingInv.

(** ** Replacing an element by a smaller one *)

Section replaces.
Context {A : Type} (R : A → A → Prop).

(** One element of the list is removed, or becomes a smaller one. *)
Inductive replaces : list A → list A → Prop :=
| replaces_here x o l : (∀ y, o = Some y → R y x) → replaces (x :: l) (option_list o ++ l)
| replaces_later x l l' : replaces l l' → replaces (x :: l) (x :: l').

Lemma replaces_middle before x o after :
  (∀ y, o = Some y → R y x) → replaces (before ++ x :: after) (before ++ option_list o ++ after).
Proof. intros Ho. induction before; simpl; by constructor. Qed.

Lemma sn_cons x l : Acc R x → sn replaces l → sn replaces (x :: l).
Proof.
  intros Hx. revert l. induction Hx as [x _ IHx]. intros l Hl. induction Hl as [l Hl IHl].
  constructor. intros l' Hr. unfold flip in Hr. inversion Hr as [? o ? Ho|? ? l2 Hr2]; simplify_eq.
  - destruct o as [y|]; simpl; [|by constructor]. apply IHx; [by apply Ho|]. by constructor.
  - by apply IHl.
Qed.

(** No list can be made smaller for ever. *)
Lemma sn_replaces l : well_founded R → sn replaces l.
Proof.
  intros HR. induction l as [|x l IH]; [constructor; intros l' Hr; inversion Hr|].
  apply sn_cons; [apply HR|done].
Qed.
End replaces.

(** ** How much a handler has left *)

Section left.
Context `{DigPex}.

(** The stages of a handler; a step leads to a later one, which has a smaller number, or stays. *)
Definition stage (p : Pending) : nat :=
  match p with
  | PendCheck _ _ _ _ => 5 | PendAdmit _ _ _ _ => 4 | PendSlot _ _ _ _ => 3
  | PendAcceptStrike _ _ _ | PendDrop _ _ _ => 2 | PendGuardDrop _ => 1
  | PendCount _ _ _ => 13 | PendHandle _ _ _ => 12 | PendDispatch _ _ _ => 11
  | PendRate _ _ _ _ _ _ _ => 10 | PendAcquire _ _ _ _ _ _ _ => 9
  | PendStrike _ _ _ _ | PendRegister _ _ _ _ _ _ _ => 8
  | PendRefuse _ _ _ | PendAnnounce _ _ _ _ _ _ => 7
  | PendFlood _ _ _ | PendStore _ _ _ _ => 6
  | PendLeave _ => 5 | PendDepart _ _ => 4
  | PendPex _ _ _ => 3 | PendPexSends _ _ => 2
  | PendSends _ _ | PendPublish _ _ => 1
  end%nat.

(** What is left within the stage: messages to send, ids to withdraw, slots to give back. *)
Definition remaining (p : Pending) : nat :=
  match p with
  | PendPexSends _ replies => length replies
  | PendSends _ l | PendRefuse _ _ l | PendAnnounce _ _ _ _ _ l => length l
  | PendDepart _ l => sum_list_with (λ d, S (length d.2)) l
  | PendDrop _ reg _ => match reg with Some _ => 1 | None => 0 end
  | _ => 0
  end%nat.

Definition less (p' p : Pending) : Prop :=
  slexprod _ _ lt lt (stage p', remaining p') (stage p, remaining p).

Lemma less_wf : well_founded less.
Proof.
  apply (Inverse_Image.wf_inverse_image _ _ _ (λ p, (stage p, remaining p))).
  apply wf_slexprod; apply lt_wf.
Qed.

Lemma less_stage p' p : (stage p' < stage p)%nat → less p' p.
Proof. by left. Qed.

Lemma less_remaining p' p : stage p' = stage p → (remaining p' < remaining p)%nat → less p' p.
Proof. unfold less. intros ->. by right. Qed.

Lemma less_restamp now p' p : less p' (restamp now p) → less p' p.
Proof. by destruct p. Qed.
End left.

(** ** Every step leads on *)

Section steps.
Context `{HO : HashOrder, DI : DigIp} `{DP : DigPex} `{ML : MpscLaws} {SD : Serde}.
Context (config : RelayServerConfig) (workers : nat).

Ltac later := first [apply less_stage; simpl; lia | apply less_remaining; simpl; lia].

Lemma dispatch_less w c conn msg now p' :
  dispatch_section w c conn msg now = Some p' → (stage p' < 11)%nat.
Proof.
  unfold dispatch_section.
  destruct (dispatch _ _) as [ms|id n v l|to m|from ex m| | |code m]; try (intros [= <-]; simpl; lia).
  - destruct (s_network_id _) as [n|]; simpl; [|done].
    destruct (sender_in_network _ _ _); intros [= <-]; simpl; lia.
  - destruct (s_network_id _) as [n|]; simpl; [|done]. intros [= <-]. simpl. lia.
Qed.

Lemma handle_less w c conn msg now p' :
  (handle_section w c conn msg now).2 = Some p' → (stage p' < 12)%nat.
Proof.
  unfold handle_section.
  destruct msg; simpl; intros E; try (apply dispatch_less in E; lia); injection E as <-; simpl; lia.
Qed.

Lemma register_less w c conn slot id n v l now p' :
  (register_section config w c conn slot id n v l now).2 = Some p' → stage p' = 7%nat.
Proof.
  unfold register_section. destruct (register_locked _ _ _ _ _ _ _ _ _ _) as [[] r]; by intros [= <-].
Qed.

(** The steps that need the connection's local state. *)
Lemma task_less w c conn p p' :
  owner p = Some c → place p = Within →
  match p with
  | PendFlood _ _ _ | PendPexSends _ _ | PendCount _ _ _ | PendSends _ _ | PendRefuse _ _ _
  | PendAnnounce _ _ _ _ _ (_ :: _) | PendDepart _ (_ :: _) => False
  | _ => True
  end →
  (resume_conn config w c conn p).2 = Some p' → less p' p.
Proof.
  intros Ho Hpl Hp.
  destruct p as [| | | | | | | | | | |co sl| | | | | |c' sl id n t [|[tx m] l]| | |[co|] [|[[id n] ts] l]| |];
    try done; simpl.
  - destruct (pex_section _ _ _ _ _). intros [= <-]. later.
  - intros E%handle_less. apply less_stage. simpl. lia.
  - intros E%dispatch_less. apply less_stage. simpl. lia.
  - destruct (allow_registration _ _ _ _) as [[] ?]; intros [= <-]; later.
  - destruct (try_acquire_registration _ _ _) as [[] ?]; intros [= <-]; later.
  - intros [= <-]. later.
  - intros E%register_less. apply less_stage. simpl. lia.
  - intros [= <-]. later.
  - destruct (deregister_section _ _). intros [= <-]. later.
Qed.

Lemma resume_less w p p' ps w' :
  sound config workers w (p :: ps) → resume config w p = (w', Some p') → less p' p.
Proof.
  intros HS Hr.
  assert (∀ c conn, owner p = Some c → place p = Within → conns w !! c = Some conn →
    match p with
    | PendFlood _ _ _ | PendPexSends _ _ | PendCount _ _ _ | PendSends _ _ | PendRefuse _ _ _
    | PendAnnounce _ _ _ _ _ (_ :: _) | PendDepart _ (_ :: _) => False
    | _ => True
    end → resume_conn config w c conn p = (w', Some p') → less p' p) as Htask.
  { intros c conn Ho Hpl _ Hp E. apply (task_less w c conn); [done..|]. by rewrite E. }
  destruct p as [| |c addr v now| | | | |c [|m ms]|c msg now| | |[c|] [|[tx m] sl]| | | | |c [sl|] [|[tx m] l]|c sl id n t [|[tx m] l]| | |[co|] [|[[id n] [|[i tx] ts]] l]|c [reg|] ip|];
    simpl in Hr;
    try (destruct (task_within _ _ _ _ _ _ HS eq_refl eq_refl) as (conn & Hc & _);
         rewrite Hc in Hr; by eapply Htask);
    simplify_eq/=; try later.
  - destruct (_ <=? _); simplify_eq/=. later.
  - destruct (try_acquire_conn _ _ _) as [[slot|] a]; simplify_eq/=. later.
Qed.

(** A handler in progress takes a step, at some reading of the clock. *)
Definition resumes (m m' : Micro) : Prop :=
  ∃ i now, micro_step config workers m (Resumes i now) = Some m'.

Lemma resumes_interleaved m m' :
  interleaved config workers m → rtc resumes m m' → interleaved config workers m'.
Proof.
  intros Hm Hr. induction Hr as [|m m1 m2 (i & now & Hs) _ IH]; [done|]. apply IH.
  by eapply interleaved_step.
Qed.

Lemma resumes_replaces m m' :
  sound config workers (mw m) (pending m) → resumes m m' → replaces less (pending m) (pending m').
Proof.
  intros HS (i & now & Hs). simpl in Hs. destruct (pending m !! i) as [p|] eqn:Hi; simpl in Hs; [|done].
  destruct (is_check p && _); [done|].
  destruct (resume config (mw m) (restamp now p)) as [w o] eqn:E. injection Hs as <-. simpl.
  rewrite <- (take_drop_middle _ _ _ Hi) at 1. apply replaces_middle. intros p' ->.
  apply (less_restamp now). eapply resume_less; [|exact E]. apply sound_restamp.
  eapply sound_perm; [|exact HS]. rewrite <- (take_drop_middle _ _ _ Hi) at 1.
  symmetry. apply Permutation_middle.
Qed.

(** Nobody waits for ever at the cap: either an accept is past its check, and goes on, or the next one
    may check. *)
Lemma resumes_enabled m now :
  (0 < workers)%nat → pending m ≠ [] →
  ∃ i m', micro_step config workers m (Resumes i now) = Some m'.
Proof.
  intros Hw Hne.
  assert (∀ i p, pending m !! i = Some p → is_check p = false ∨ (admits (pending m) < workers)%nat →
    ∃ i m', micro_step config workers m (Resumes i now) = Some m') as Hgo.
  { intros i p Hi Hp. exists i. simpl. rewrite Hi. simpl.
    assert (is_check p && (workers <=? admits (pending m))%nat = false) as ->.
    { destruct Hp as [->|Hp]; [done|]. apply andb_false_iff. right. by apply Nat.leb_gt. }
    destruct (resume _ _ _) as [w o]. by eexists. }
  destruct (decide (admits (pending m) = 0%nat)) as [E|E].
  - destruct (pending m) as [|p ps] eqn:Hp; [done|]. apply (Hgo O p); [done|]. right. lia.
  - assert (∃ p, p ∈ filter (λ p, is_admit p = true) (pending m)) as [p Hin].
    { unfold admits in E. destruct (filter _ _) as [|p l]; [done|]. exists p. by left. }
    apply list_elem_of_filter in Hin as [Ha Hin]. apply list_elem_of_lookup in Hin as [i Hi].
    apply (Hgo i p Hi). left. by destruct p.
Qed.
End steps.

(** ** Properties *)

Section properties.
Context `{HO : HashOrder, DI : DigIp} `{DP : DigPex} `{ML : MpscLaws} {SD : Serde}.
Context (config : RelayServerConfig) (workers : nat).

(** C22: whatever is in progress is brought to an end. From any state of any interleaving, the handlers in
    progress take only finitely many steps, whichever of them are chosen and whatever the clock reads;
    they stop only when all of them are done; and so there is a run in which all of them are. *)
Theorem handlers_finish m :
  good_config config → max_connections config + Z.of_nat workers ≤ u64_max → (0 < workers)%nat →
  interleaved config workers m →
  sn (resumes config workers) m ∧
  (∀ m', rtc (resumes config workers) m m' → nf (resumes config workers) m' ↔ pending m' = []) ∧
  ∃ m', rtc (resumes config workers) m m' ∧ pending m' = [].
Proof.
  intros Hg Hwide Hw Hm.
  assert (sn (resumes config workers) m) as Hsn.
  { remember (pending m) as ps eqn:E. pose proof (sn_replaces less ps less_wf) as Hps.
    revert m Hm E. induction Hps as [ps _ IH]. intros m Hm ->. constructor. intros m' Hr.
    apply (IH (pending m')); [|by eapply resumes_interleaved, rtc_once|done].
    by apply (resumes_replaces config workers m m'); [apply interleaved_sound|]. }
  assert (∀ m', pending m' ≠ [] → red (resumes config workers) m') as Hgo.
  { intros m' Hne. destruct (resumes_enabled config workers m' 0 Hw Hne) as (i & m2 & Hs).
    by exists m2, i, 0. }
  assert (∀ m', nf (resumes config workers) m' ↔ pending m' = []) as Hnf.
  { intros m'. split; [intros Hn; destruct (decide (pending m' = [])) as [|Hne]; [done|by destruct Hn; apply Hgo]|].
    intros E (m2 & i & now & Hs). simpl in Hs. by rewrite E, lookup_nil in Hs. }
  split_and!; [done|by intros m' _|]. clear Hm.
  induction Hsn as [m _ IH]. destruct (decide (pending m = [])) as [E|Hne]; [by exists m|].
  destruct (Hgo m Hne) as [m1 H1]. destruct (IH m1 H1) as (m' & Hr & E). exists m'. split; [|done].
  by eapply rtc_l.
Qed.
End properties.
