(* ===== verification/Schedules.v ===== *)
(** * The events of Server.v as schedules

    An event of Server.v is what its sections (Interleaving.v) do when nothing else runs in
    between. *)

From S2P Require Import Prelude Net Wire ProxyProtocol Config Limits Dial Channel Registry Pex.
From S2P Require Import DhtView Server ServerInv ServerProps Interleaving.

Create HintDb sched.

Section schedules.
Context `{HO : HashOrder, DI : DigIp} `{DP : DigPex} `{ML : MpscLaws} {SD : Serde}.
Context (config : RelayServerConfig).
(** The reading of the wall clock throughout. *)
Context (clk : Z).

(** A handler that goes on, and goes on until it is done. *)
Definition goes_on (a b : World * option Pending) : Prop :=
  ∃ p, a.2 = Some p ∧ resume config a.1 (restamp clk p) = b.

Abbreviation gets w p w' p' := (rtc goes_on (w, p) (w', p')).
Abbreviation completes w p w' := (gets w p w' None).

Lemma goes_on_l w p w1 p1 b : resume config w (restamp clk p) = (w1, p1) → rtc goes_on (w1, p1) b →
  rtc goes_on (w, Some p) b.
Proof. intros Hr Hb. eapply rtc_l; [|exact Hb]. by exists p. Qed.

(** The next step of a task whose connection is known. *)
Lemma resume_task w c conn p :
  conns w !! c = Some conn →
  match p with
  | PendPex c' _ _ | PendHandle c' _ _ | PendDispatch c' _ _ | PendRate c' _ _ _ _ _ _
  | PendAcquire c' _ _ _ _ _ _ | PendStrike c' _ _ _ | PendRegister c' _ _ _ _ _ _
  | PendAnnounce c' _ _ _ _ [] | PendStore c' _ _ _ | PendLeave c' | PendDepart (Some c') [] => c' = c
  | _ => False
  end → restamp clk p = p → resume config w (restamp clk p) = resume_conn config w c conn p.
Proof.
  intros Hc Hp ->. destruct p as [| | | | | | | | | | |co [|s sl]| | | | | |c' s id n t [|[tx m] sl]| | |[co|] [|[[id n] [|[i tx] ts]] l]|c' [reg|] ip|];
    try done; simpl in Hp |- *; subst; by rewrite Hc.
Qed.

Lemma task_goes_on w c conn p b :
  conns w !! c = Some conn → resume config w (restamp clk p) = resume_conn config w c conn p →
  rtc goes_on (resume_conn config w c conn p) b → rtc goes_on (w, Some p) b.
Proof. intros Hc Hr Hb. eapply rtc_l; [|exact Hb]. by exists p. Qed.

(** ** Sends *)

Definition send_list (w : World) (l : list Send) : World :=
  foldl (λ w s, out_send w s.1 s.2) w l.

Lemma set_outs_id w : set_outs w (outs w) = w.
Proof. by destruct w. Qed.

Lemma send_list_fan_out w ts m :
  send_list w (map (λ t : string * nat, (t.2, m)) ts) = set_outs w (fan_out (outs w) ts m).
Proof.
  revert w. induction ts as [|[id tx] ts IH]; intros w; simpl; [by rewrite set_outs_id|].
  by rewrite IH.
Qed.

Lemma send_list_all w c ms : send_list w (map (pair c) ms) = set_outs w (send_all (outs w) c ms).
Proof.
  revert w. induction ms as [|m ms IH]; intros w; simpl; [by rewrite set_outs_id|]. by rewrite IH.
Qed.

Lemma send_list_conns w l : conns (send_list w l) = conns w.
Proof. revert w. induction l as [|s l IH]; intros w; simpl; [done|]. by rewrite IH. Qed.

Lemma sends_complete w c l : completes w (Some (PendSends c l)) (send_list w l).
Proof.
  revert w. induction l as [|[tx m] l IH]; intros w; (eapply goes_on_l; [done|]); [done|apply IH].
Qed.

Lemma send_completes w c tx m : completes w (Some (PendSends c [(tx, m)])) (out_send w tx m).
Proof. exact (sends_complete w c [(tx, m)]). Qed.

Lemma pex_sends_complete w c ms : completes w (Some (PendPexSends c ms)) (pex_send_all w c ms).
Proof.
  revert w. induction ms as [|m ms IH]; intros w; (eapply goes_on_l; [done|]).
  - unfold pex_send_all. simpl. by destruct w.
  - apply IH.
Qed.

Lemma announce_gets w c slot id n l :
  gets w (Some (PendAnnounce c slot id n clk l)) (send_list w l) (Some (PendAnnounce c slot id n clk [])).
Proof.
  revert w. induction l as [|[tx m] l IH]; intros w; [done|]. eapply goes_on_l; [done|]. apply IH.
Qed.

Lemma refuse_gets w c slot l :
  gets w (Some (PendRefuse c slot l))
    (match slot with Some slot => release_reg_slot slot (send_list w l) | None => send_list w l end)
    (Some (PendLeave c)).
Proof.
  revert w. induction l as [|[tx m] l IH]; intros w; (eapply goes_on_l; [done|]); [done|apply IH].
Qed.

(** ** Departures *)

Lemma depart_one w c id n ts l :
  gets w (Some (PendDepart c ((id, n, ts) :: l)))
    (announce_departure w id n ts) (Some (PendDepart c l)).
Proof.
  unfold announce_departure. revert w. induction ts as [|[i tx] ts IH]; intros w.
  - eapply goes_on_l; [by destruct c|]. simpl. by rewrite set_outs_id.
  - eapply goes_on_l; [by destruct c|]. apply IH.
Qed.

Lemma depart_gets w c l :
  gets w (Some (PendDepart c l))
    (foldl (λ w p, announce_departure w p.1.1 p.1.2 p.2) w l) (Some (PendDepart c [])).
Proof.
  revert w. induction l as [|[[id n] ts] l IH]; intros w; [done|].
  etrans; [apply depart_one|]. apply IH.
Qed.

Lemma leave_completes w c conn :
  conns w !! c = Some conn → completes w (Some (PendLeave c)) (end_of_loop w c conn).
Proof.
  intros Hc. apply (task_goes_on w c conn); [done|by apply resume_task|]. simpl.
  unfold deregister_section.
  assert (∀ w' l,
    conns w' = conns w → end_of_loop w c conn =
      set_conn (foldl (λ w p, announce_departure w p.1.1 p.1.2 p.2) w' l) c (set_phase conn Closing) →
    completes w' (Some (PendDepart (Some c) l)) (end_of_loop w c conn)) as Hl.
  { intros w' l Ec ->. etrans; [apply depart_gets|].
    set (w1 := foldl _ w' l). assert (conns w1 = conns w') as E1.
    { unfold w1. clear. revert w'. induction l as [|p l IH]; intros w'; simpl; [done|]. by rewrite IH. }
    eapply goes_on_l; [|done]. rewrite (resume_task w1 c conn) by (done || by rewrite E1, Ec). done. }
  unfold end_of_loop, deregister in Hl |- *.
  destruct (s_peer_id (c_session conn)) as [id|]; [|by apply Hl].
  destruct (s_network_id (c_session conn)) as [n|]; [|by apply Hl].
  destruct (remove_locked (st w) id n) as [[ts|] s]; by apply Hl.
Qed.
(** ** Frames *)

(** What a handler that may break the read loop leaves to do. *)
Definition then_leave (c : nat) (goes : bool) : option Pending :=
  if goes then None else Some (PendLeave c).

Lemma refuse_send_list w c code message n : send_list w (refusal_sends c code message n) = refuse w c code message n.
Proof. done. Qed.

Lemma register_gets w c conn id n v l :
  conns w !! c = Some conn →
  let r := register_peer config w c conn id n v l clk in
  gets w (Some (PendRate c id n v l clk (connected (st w)))) r.2 (then_leave c r.1).
Proof.
  intros Hc. cbv zeta. unfold register_peer.
  apply (task_goes_on w c conn); [done|by apply resume_task|]. cbn [resume_conn].
  destruct (allow_registration _ _ _ _) as [[] a]; cbn [negb].
  2: { apply (task_goes_on _ c conn); [done|by apply resume_task|].
       etrans; [apply refuse_gets|]. by rewrite refuse_send_list. }
  set (w1 := upd_st (λ s, set_abuse s a) w).
  apply (task_goes_on w1 c conn); [done|by apply resume_task|]. cbn [resume_conn].
  destruct (try_acquire_registration _ _ _) as [[slot|] a2].
  2: { apply (task_goes_on _ c conn); [done|by apply resume_task|].
       etrans; [apply refuse_gets|]. by rewrite refuse_send_list. }
  set (w2 := upd_st (λ s, set_abuse s a2) w1).
  apply (task_goes_on w2 c conn); [done|by apply resume_task|]. cbn [resume_conn].
  unfold register_section.
  destruct (register_locked _ _ _ _ _ _ _ _ _ _) as [[code m k|o info k ts] r].
  { etrans; [apply refuse_gets|]. by rewrite refuse_send_list. }
  set (w3 := match o with Registered => _ | _ => _ end).
  assert (conns w3 = conns w) as E3 by (by destruct o).
  etrans; [apply announce_gets|]. cbn [send_list foldl fst snd].
  change (foldl _ (out_send w3 c ?m) ?l) with (send_list (out_send w3 c m) l).
  rewrite send_list_fan_out. set (w4 := set_outs _ _).
  assert (conns w4 !! c = Some conn) as H4 by (change (conns w4) with (conns w3); by rewrite E3).
  clearbody w3 w4. apply (task_goes_on w4 c conn); [done|by apply resume_task|]. cbn [resume_conn].
  set (w5 := upd_st _ w4).
  apply (task_goes_on w5 c conn); [done|by apply resume_task|]. cbn [resume_conn].
  by destruct (c_reg_slot conn).
Qed.

Lemma dispatch_gets w c conn msg :
  conns w !! c = Some conn →
  let r :=
    match dispatch (c_session conn) msg with
    | ActRegister id n v l => register_peer config w c conn id n v l clk
    | ForwardTo to msg => (true, forward_to w (c_session conn) c to msg)
    | ActBroadcast from exclude msg => (true, broadcast w (c_session conn) from exclude msg)
    | ReplyToSelf msgs => (true, set_outs w (send_all (outs w) c msgs))
    | ActError code message => (true, out_send w c (Error code message))
    | Close => (false, w)
    | Nothing => (true, w)
    end in
  gets w (dispatch_section w c conn msg clk) r.2 (then_leave c r.1).
Proof.
  intros Hc. cbv zeta. unfold dispatch_section.
  destruct (dispatch _ _) as [ms|id n v l|to m|from ex m| | |code m]; cbn [fst snd then_leave]; try done.
  - rewrite <- send_list_all. apply sends_complete.
  - by apply register_gets.
  - unfold forward_to. destruct (s_network_id _) as [n|]; [|done]. cbn [mbind option_bind].
    destruct (sender_in_network _ _ _) as [tx|]; apply send_completes.
  - unfold broadcast. destruct (s_network_id _) as [n|]; [|done]. cbn [mbind option_bind].
    rewrite <- send_list_fan_out. apply sends_complete.
  - apply send_completes.
Qed.

Lemma message_gets w c conn msg :
  conns w !! c = Some conn →
  let r := handle_message config w c conn msg clk in
  gets w (Some (PendCount c msg clk)) r.2 (then_leave c r.1).
Proof.
  intros Hc. cbv zeta. eapply goes_on_l; [done|]. set (w1 := upd_st _ w).
  apply (task_goes_on w1 c conn); [done|by apply resume_task|]. cbn [resume_conn].
  unfold handle_message, handle_section. fold w1.
  destruct msg as [| | | | | | | |pl| | | | | | | |records tk tr]; try (by apply dispatch_gets).
  - apply send_completes.
  - set (w2 := if is_some (s_peer_id (c_session conn)) then _ else w1).
    assert (conns w2 !! c = Some conn) as H2 by (unfold w2; by destruct (is_some _)).
    apply (task_goes_on w2 c conn); [done|by apply resume_task|]. cbn [resume_conn].
    by apply dispatch_gets.
Qed.

Lemma pex_section_sends w c conn frame now :
  handle_pex_frame w c conn frame now =
    pex_send_all (pex_section w c conn frame now).1 c (pex_section w c conn frame now).2.
Proof.
  unfold handle_pex_frame, pex_section, pex_send_all.
  destruct (pex_dispatch _ _) as [|msg|msg| |]; [by destruct w| | | |by destruct w].
  - by destruct (on_node_handshake _ _ _ _ _).
  - by destruct (on_node_message _ _ _ _ _).
  - by destruct (on_node_bad_frame _ _ _ _).
Qed.

Lemma frame_gets w c conn frame mono :
  conns w !! c = Some conn →
  let r := handle_frame config w c conn frame clk mono in
  let s := frame_section w c conn frame clk mono in
  gets s.1 s.2 r.2 (then_leave c r.1).
Proof.
  intros Hc. cbv zeta. unfold handle_frame, frame_section.
  destruct (admit_frame _ _ _) as [verdict lim]. set (w1 := set_conn _ _ _).
  assert (conns w1 !! c = Some (set_limiter conn lim)) as Hc1 by apply lookup_insert_eq.
  destruct verdict; cbn [fst snd]; [|by eapply goes_on_l].
  destruct (is_pex_frame frame); cbn [fst snd].
  - apply (task_goes_on w1 c (set_limiter conn lim)); [done|by apply resume_task|].
    cbn [resume_conn]. rewrite pex_section_sends. destruct (pex_section _ _ _ _ _) as [w2 replies].
    apply pex_sends_complete.
  - destruct (relay_from_slice frame); cbn [fst snd]; [by apply message_gets|].
    apply send_completes.
Qed.

(** ** The ends *)

Lemma drops_complete w c conn :
  conns w !! c = Some conn →
  completes (drops w c conn).1 (drops w c conn).2 (finish_connection w c conn).
Proof.
  intros Hc. unfold drops, finish_connection. cbn [fst snd].
  destruct (c_reg_slot conn) as [r|];
    repeat (eapply goes_on_l; [done|]); done.
Qed.

Lemma accept_completes w c addr v :
  conns w !! c = None → outs w !! c = None →
  ∃ w1 p, start config w (Accept c addr v clk) = Some (w1, p) ∧
    completes w1 p (accept_connection config w c addr v clk).
Proof.
  intros Hc Ho. unfold start. rewrite Hc, Ho. cbn [is_some orb]. unfold accept_connection.
  destruct (is_banned _ _ _ _) as [[] a]; (eexists _, _; split; [reflexivity|]); [done|].
  set (w1 := upd_st _ w). eapply goes_on_l; [done|].
  destruct (max_connections config <=? open_connections (st w1)); [done|].
  eapply goes_on_l; [done|]. set (w2 := upd_st open_guard_acquire w1).
  destruct (try_acquire_conn (policy config) (abuse (st w2)) (sa_ip addr)) as [[slot|] a2] eqn:Et.
  - eapply goes_on_l; [cbn [restamp resume]; rewrite Et; reflexivity|]. done.
  - eapply goes_on_l; [cbn [restamp resume]; rewrite Et; reflexivity|]. do 2 (eapply goes_on_l; [done|]). done.
Qed.
(** ** Every event *)

Lemma leave_after w c goes w' :
  is_Some (conns w !! c) →
  (if goes : bool then Some w else conn ← conns w !! c; Some (end_of_loop w c conn)) = Some w' →
  completes w (then_leave c goes) w'.
Proof.
  intros [conn Hc]. destruct goes; [by intros [= ->]|]. rewrite Hc. cbn [mbind option_bind].
  intros [= <-]. by apply leave_completes.
Qed.

(** The wall clock an event reads, if it does, in milliseconds. *)
Definition reads_clock (ev : Event) : option Z :=
  match ev with Accept _ _ _ now | Frame _ _ now _ => Some now | _ => None end.

Lemma event_completes w ev w' :
  (∀ now, reads_clock ev = Some now → now = clk) → event_step config w ev = Some w' → ∃ w1 p, start config w ev = Some (w1, p) ∧ completes w1 p w'.
Proof.
  intros Hclk Hs.
  destruct ev as [c addr v now|c|c now mono|c frame now mono|c|c|c|c|c|mono|now| |now];
    unfold start; try (rewrite Hs; cbn [mbind option_bind]; by eexists _, None).
  - rewrite (Hclk now eq_refl) in *. unfold event_step in Hs. destruct (conns w !! c) eqn:Hc; [done|].
    destruct (outs w !! c) eqn:Ho; [done|]. injection Hs as <-.
    destruct (accept_completes w c addr v Hc Ho) as (w1 & p & E & Hp).
    unfold start in E. rewrite Hc, Ho in E. eauto.
  - unfold event_step in Hs. destruct (conn_in w c Handshaking) as [conn|] eqn:Hc; [|done].
    apply conn_in_Some in Hc as [Hc _]. injection Hs as <-. eexists _, _.
    split; [reflexivity|]. by apply drops_complete.
  - rewrite (Hclk now eq_refl) in *. unfold event_step in Hs.
    destruct (conn_in w c Serving) as [conn|] eqn:Hc; [|done].
    apply conn_in_Some in Hc as [Hc _]. cbn [mbind option_bind] in Hs |- *.
    pose proof (frame_gets w c conn frame mono Hc) as Hf.
    destruct (conns_handle_frame config w c conn frame clk mono Hc) as (conn1 & E1 & _).
    destruct (handle_frame config w c conn frame clk mono) as [b w2]. cbn [fst snd] in *.
    destruct (frame_section w c conn frame clk mono) as [w1 p]. exists w1, p. split; [done|].
    etrans; [exact Hf|]. apply leave_after; [rewrite E1, lookup_insert_eq; eauto|].
    destruct b; [exact Hs|]. rewrite E1, lookup_insert_eq in Hs |- *. exact Hs.
  - unfold event_step in Hs. destruct (conn_in w c Serving) as [conn|] eqn:Hc; [|done].
    apply conn_in_Some in Hc as [Hc _]. injection Hs as <-. eexists _, _.
    split; [reflexivity|]. by apply leave_completes.
  - unfold event_step in Hs. destruct (conn_in w c Closing) as [conn|] eqn:Hc; [|done].
    apply conn_in_Some in Hc as [Hc _]. cbn [mbind option_bind] in Hs |- *.
    destruct (is_closed (outs w) c); [|done]. injection Hs as <-. eexists _, _.
    split; [reflexivity|]. by apply drops_complete.
  - injection Hs as <-. unfold sweep_once. destruct (remove_victims _ _) as [pruned s].
    eexists _, _. split; [reflexivity|]. etrans; [apply depart_gets|]. by eapply goes_on_l.
  - injection Hs as <-. eexists _, _. split; [reflexivity|]. unfold dht_ask.
    rewrite <- send_list_fan_out. apply sends_complete.
  - injection Hs as <-. eexists _, _. split; [reflexivity|]. by eapply goes_on_l.
Qed.

Lemma start_enabled w ev : is_Some (start config w ev) → is_Some (event_step config w ev).
Proof.
  destruct ev as [c addr v now|c|c now mono|c frame now mono|c|c|c|c|c|mono|now| |now];
    unfold start;
    try (destruct (event_step config w _); cbn [mbind option_bind]; [by eauto|by intros [? ?]]).
  - unfold event_step. destruct (_ || _); [by intros [? ?]|by eauto].
  - unfold event_step. destruct (conn_in w c Handshaking); [by eauto|by intros [? ?]].
  - unfold event_step. destruct (conn_in w c Serving) as [conn|] eqn:Hc; [|by intros [? ?]].
    apply conn_in_Some in Hc as [Hc _]. cbn [mbind option_bind]. intros _.
    destruct (conns_handle_frame config w c conn frame now mono Hc) as (conn1 & E1 & _).
    destruct (handle_frame config w c conn frame now mono) as [[] w2]; cbn [snd] in E1; [by eauto|].
    rewrite E1, lookup_insert_eq. by eauto.
  - unfold event_step. destruct (conn_in w c Serving); [by eauto|by intros [? ?]].
  - unfold event_step. destruct (conn_in w c Closing); cbn [mbind option_bind]; [|by intros [? ?]].
    destruct (is_closed (outs w) c); [by eauto|by intros [? ?]].
  - unfold event_step. by eauto.
  - unfold event_step. by eauto.
  - unfold event_step. by eauto.
Qed.

(** ** In the middle of other tasks *)

Lemma admits_app ps qs : admits (ps ++ qs) = (admits ps + admits qs)%nat.
Proof. unfold admits. by rewrite filter_app, length_app. Qed.

Lemma run_to_end workers ps (a b : World * option Pending) :
  rtc goes_on a b → (admits ps < workers)%nat →
  ∃ n, micro_run config workers (MkMicro a.1 (ps ++ option_list a.2))
         (replicate n (Resumes (length ps) clk)) = Some (MkMicro b.1 (ps ++ option_list b.2)).
Proof.
  intros Hst Hw. induction Hst as [a|[w p] [w1 p1] b (p' & Hp & Hr) _ [n IH]]; [by exists O|].
  exists (S n). cbn [fst snd] in *. subst p. cbn [replicate micro_run micro_step option_list option_rect].
  cbn [mw pending]. rewrite list_lookup_middle by done. cbn [mbind option_bind].
  rewrite admits_app.
  assert (is_check p' && (workers <=? admits ps + admits [p'])%nat = false) as ->.
  { destruct p'; try done. simpl. apply Nat.leb_gt. unfold admits in *. simpl. lia. }
  rewrite Hr, take_app_length, drop_app_ge, Nat.sub_succ_l, Nat.sub_diag by lia. cbn [drop].
  rewrite app_nil_r. exact IH.
Qed.

Lemma event_schedule workers m ev w' :
  ¬ busy m (task_of ev) → (admits (pending m) < workers)%nat →
  event_step config (mw m) ev = Some w' →
  (∀ now, reads_clock ev = Some now → now = clk) →
  ∃ n, micro_run config workers m (Starts ev :: replicate n (Resumes (length (pending m)) clk)) =
         Some (MkMicro w' (pending m)).
Proof.
  intros Hb Hw Hs Hclk. destruct (event_completes _ _ _ Hclk Hs) as (w1 & p & Hst & Hc).
  destruct (run_to_end workers (pending m) _ _ Hc Hw) as [n Hn]. exists n.
  cbn [micro_run micro_step]. rewrite decide_False by done. rewrite Hst. cbn [mbind option_bind].
  cbn [fst snd option_list option_rect] in Hn. rewrite app_nil_r in Hn. exact Hn.
Qed.
End schedules.

(** ** Properties *)

Section properties.
Context `{HO : HashOrder, DI : DigIp} `{DP : DigPex} `{ML : MpscLaws} {SD : Serde}.
Context (config : RelayServerConfig).

(** C11: the handlers of Server.v are the handlers of the code run without interruption. Whatever
    other tasks are in the middle of, an event of a task that is not can start exactly when Server.v
    lets it happen, and if its sections then run one after another the result is the one Server.v
    gives, with everything else where it was, provided the clock stands still. So every state Server.v reaches is reached by sections. *)
Theorem events_are_schedules workers :
  (∀ m ev, ¬ busy m (task_of ev) → (admits (pending m) < workers)%nat →
     (is_Some (micro_step config workers m (Starts ev)) ↔ is_Some (event_step config (mw m) ev)) ∧
     ∀ w', event_step config (mw m) ev = Some w' →
       ∃ n, micro_run config workers m
              (Starts ev :: replicate n (Resumes (length (pending m)) (default 0 (reads_clock ev)))) =
            Some (MkMicro w' (pending m))) ∧
  ((0 < workers)%nat → ∀ w, reachable config w → interleaved config workers (MkMicro w [])).
Proof.
  split.
  - intros m ev Hb Hw.
    split; [|intros w' Hs; apply event_schedule; [done..|by intros now ->]].
    cbn [micro_step]. rewrite decide_False by done. split.
    + intros [m' Hm]. apply start_enabled. destruct (start config (mw m) ev); [by eauto|done].
    + intros [w' Hs].
      destruct (event_completes config (default 0 (reads_clock ev)) _ _ _ ltac:(by intros now ->) Hs)
        as (w1 & p & -> & _). by eauto.
  - intros Hw w Hr. induction Hr as [|w ev w' Hr IH Hs]; [constructor|].
    destruct (event_schedule config (default 0 (reads_clock ev)) workers (MkMicro w []) ev w')
      as [n Hn]; try done; [|by intros now ->|].
    { intros [_ Hin]. by apply not_elem_of_nil in Hin. }
    by eapply interleaved_run.
Qed.
End properties.
