(* ===== verification/Pages.v ===== *)
(** * The scripts of the pages

    The scripts of the stats page, the DHT page and the map page embedded in src/src/dashboard.rs:
    what they put into the page from the JSON they fetch. A text is the list of its bytes; the
    characters [esc] looks for are ASCII, so replacing them commutes with the encoding. A number is the
    integer the script computes with, which is exact up to 2^53. The globe itself is not modelled. *)

From S2P Require Import Prelude Net Text SockText Wire Http Config Limits Dial Channel Registry Pex.
From S2P Require Import DhtView F64 Map Server Dashboard.

Definition esc_char (c : Z) : str :=
  if c =? 38 then chars "&amp;"
  else if c =? 60 then chars "&lt;"
  else if c =? 62 then chars "&gt;"
  else if c =? 34 then chars "&quot;"
  else [c].

Definition esc (s : str) : str := s ≫= esc_char.

(** An element with a class, and one without. *)
Definition element_class (tag class content : str) : str :=
  chars "<" ++ tag ++ chars " class=" ++ [34] ++ class ++ [34] ++ chars ">" ++ content ++
  chars "</" ++ tag ++ chars ">".
Definition element (tag content : str) : str :=
  chars "<" ++ tag ++ chars ">" ++ content ++ chars "</" ++ tag ++ chars ">".

(** The row of a peer; [protocol] and [connected] are the printed version and duration. *)
Definition peer_table_row (p : PeerRow) (protocol connected : str) : str :=
  let via := esc (chars (pr_via p)) in
  let td := element (chars "td") in
  element (chars "tr")
    (td (element (chars "code") (esc (chars (pr_peer_id p)))) ++
     td (esc (chars (pr_network_id p))) ++
     td (element_class (chars "span") (chars "pill " ++ via) via) ++
     td (esc (chars (pr_address_family p))) ++
     td (esc protocol) ++
     td (esc connected)).

(** The row of a content key. *)
Definition dht_table_row (k : DhtViewEntry) (providers reported_by : str) : str :=
  let td c := element_class (chars "td") c in
  element (chars "tr")
    (td (chars "k") (chars (dv_content_key k)) ++
     td (chars "n") providers ++
     td (chars "n") reported_by).

(** ** The stats page *)

Definition number (n : Z) : str := chars (dec20 n).

Definition fmtDuration (secs : Z) : str :=
  let d := secs / 86400 in
  let h := secs mod 86400 / 3600 in
  let m := secs mod 3600 / 60 in
  let s := secs mod 60 in
  if negb (d =? 0) then number d ++ chars "d " ++ number h ++ chars "h"
  else if negb (h =? 0) then number h ++ chars "h " ++ number m ++ chars "m"
  else if negb (m =? 0) then number m ++ chars "m " ++ number s ++ chars "s"
  else number s ++ chars "s".

(** [fmtBytes]'s loop: how often [n] is divided by 1024, over so many further units. The quotient of
    a binary float by 1024 is exact, so it is kept as [n] over [scale]. *)
Fixpoint scaled (units : nat) (n scale : Z) : nat * Z :=
  match units with
  | O => (O, scale)
  | S units =>
      if 1024 * scale <=? n then let '(i, scale) := scaled units n (1024 * scale) in (S i, scale)
      else (O, scale)
  end.

(** The tenths [toFixed(1)] shows of [n] over [scale]: the nearest, the larger of two. *)
Definition tenths (n scale : Z) : Z := (20 * n + scale) / (2 * scale).

Definition toFixed1 (n scale : Z) : str :=
  number (tenths n scale / 10) ++ chars "." ++ number (tenths n scale mod 10).

Definition units : list string := ["B"; "KiB"; "MiB"; "GiB"; "TiB"]%string.

Definition fmtBytes (n : Z) : str :=
  let '(i, scale) := scaled (length units - 1) n 1 in
  (if (i =? 0)%nat then number n else toFixed1 n scale) ++ chars " " ++
  chars (default EmptyString (units !! i)).

Definition div_class (class content : str) : str := element_class (chars "div") class content.

Definition card (n label : str) : str :=
  div_class (chars "card") (div_class (chars "n") (esc n) ++ div_class (chars "l") (esc label)).

(** The middle dot, the check mark and the cross, in UTF-8. *)
Definition hole_punches (d : StatsSnapshot) : str :=
  number (ss_hole_punch_requests d) ++ chars " req " ++ [0xC2; 0xB7] ++ chars " " ++
  number (ss_hole_punch_successes d) ++ [0xE2; 0x9C; 0x93] ++ chars " / " ++
  number (ss_hole_punch_failures d) ++ [0xE2; 0x9C; 0x97].

Definition cards (d : StatsSnapshot) : str :=
  div_class (chars "cards")
    (card (number (ss_active_reservations d)) (chars "Active reservations") ++
     card (number (ss_open_connections d)) (chars "Open connections") ++
     card (number (Z.of_nat (length (ss_networks d)))) (chars "Networks") ++
     card (fmtDuration (ss_uptime_secs d)) (chars "Uptime") ++
     card (number (ss_stun_requests d)) (chars "STUN requests") ++
     card (hole_punches d) (chars "Hole punches") ++
     card (fmtBytes (ss_bytes_relayed d)) (chars "Relayed")).

Definition header_cells (labels : list string) : str :=
  element (chars "thead")
    (element (chars "tr") (concat (map (λ l, element (chars "th") (chars l)) labels))).

(** What the script writes into the page's content. *)
Definition render (d : StatsSnapshot) : str :=
  cards d ++ element (chars "h2") (chars "Connected peers") ++
  if bool_decide (ss_peers d = []) then div_class (chars "state") (chars "No peers connected yet.")
  else
    element (chars "table")
      (header_cells ["Peer"; "Network"; "Via"; "Family"; "Proto"; "Connected"]%string ++
       element (chars "tbody")
         (concat (map (λ p, peer_table_row p (number (pr_protocol_version p))
                              (fmtDuration (pr_connected_secs p))) (ss_peers d)))).

(** What it writes when the statistics cannot be fetched. *)
Definition render_error (message : str) : str :=
  div_class (chars "state error") (chars "Could not load relay stats: " ++ esc message).

(** ** The DHT page *)

Definition dht_summary (v : DhtView) : str :=
  number (total_keys v) ++ chars " content key(s) from " ++ number (reporting_peers v) ++
  chars " reporting peer(s)" ++
  if truncated v
  then chars " " ++ [0xE2; 0x80; 0x94] ++ chars " showing " ++ number (Z.of_nat (length (keys v))) ++
       chars ", view truncated"
  else [].

Definition dht_rows (v : DhtView) : str :=
  concat (map (λ k, dht_table_row k (number (dv_providers k)) (number (dv_reported_by k))) (keys v)).

Definition dht_out (v : DhtView) : str :=
  if bool_decide (keys v = []) then
    element_class (chars "p") (chars "empty")
      (chars "No records reported yet. Peers answer on the relay" ++ [0xE2; 0x80; 0x99] ++
       chars "s sweep interval, and only nodes new enough to speak RLY-009 answer at all.")
  else
    element (chars "table")
      (element (chars "thead")
         (element (chars "tr")
            (element (chars "th") (chars "content key") ++
             element_class (chars "th") (chars "n") (chars "providers") ++
             element_class (chars "th") (chars "n") (chars "reported by"))) ++
       element (chars "tbody") (dht_rows v)).

(** ** The map page *)

(** The greatest number of peers in a cell, at least 1. *)
Definition maxCount (d : MapSnapshot) : Z := fold_left (λ m c, m `max` mc_count c) (ms_cells d) 1.

Definition summaryText (d : MapSnapshot) : str :=
  let cells := Z.of_nat (length (ms_cells d)) in
  let regionWord := if cells =? 1 then chars "region" else chars "regions" in
  let unlocated := number (ms_unknown_peers d) ++ chars " unlocated)" in
  if 0 <? ms_located_peers d then
    number (ms_total_peers d) ++ chars " peer" ++ (if ms_total_peers d =? 1 then [] else chars "s") ++
    chars " across " ++ number cells ++ chars " " ++ regionWord ++ chars " worldwide" ++
    (if ms_unknown_peers d =? 0 then [] else chars " (+" ++ unlocated)
  else
    chars "No peers located yet" ++
    (if ms_unknown_peers d =? 0 then [] else chars " (" ++ unlocated).

(** The text over the globe; the overlay is hidden when there is none. *)
Definition overlay (d : MapSnapshot) : str :=
  if 0 <? ms_located_peers d then [] else div_class (chars "state") (summaryText d).

Definition overlay_error (message : str) : str :=
  div_class (chars "state error") (chars "Could not load the peer map: " ++ esc message).

(** ** What a browser makes of a text *)

(** The character references [esc] writes, read back. *)
Fixpoint html_text (s : str) : str :=
  match s with
  | 38 :: 97 :: 109 :: 112 :: 59 :: s => 38 :: html_text s
  | 38 :: 108 :: 116 :: 59 :: s => 60 :: html_text s
  | 38 :: 103 :: 116 :: 59 :: s => 62 :: html_text s
  | 38 :: 113 :: 117 :: 111 :: 116 :: 59 :: s => 34 :: html_text s
  | c :: s => c :: html_text s
  | [] => []
  end.

(** The characters that open or close a tag or end a quoted attribute. *)
Definition is_markup (c : Z) : bool := (c =? 60) || (c =? 62) || (c =? 34).
Definition markup (s : str) : str := filter (λ c, is_markup c = true) s.

Lemma esc_cons c s : esc (c :: s) = esc_char c ++ esc s.
Proof. done. Qed.

Lemma markup_app s t : markup (s ++ t) = markup s ++ markup t.
Proof. apply filter_app. Qed.

Lemma markup_esc s : markup (esc s) = [].
Proof.
  induction s as [|c s IH]; [done|]. rewrite esc_cons, markup_app, IH, app_nil_r.
  unfold esc_char. destruct (Z.eqb_spec c 38), (Z.eqb_spec c 60), (Z.eqb_spec c 62), (Z.eqb_spec c 34);
    try reflexivity.
  unfold markup, filter; cbn. case_decide as E; [|done]. unfold is_markup in E. lia.
Qed.

Lemma html_text_plain c s : c ≠ 38 → html_text (c :: s) = c :: html_text s.
Proof.
  intros Hc. destruct c as [|p|p]; try done. do 6 (destruct p as [p|p|]; try done).
Qed.

(** ** Properties *)

(** What is escaped is shown as it was, whatever it was. *)
Theorem esc_shown s : html_text (esc s) = s.
Proof.
  induction s as [|c s IH]; [done|]. rewrite esc_cons. unfold esc_char.
  repeat (case_match; [match goal with H : (_ =? _) = true |- _ => apply Z.eqb_eq in H end; subst;
    simpl; by rewrite IH|]).
  cbn [app]. rewrite html_text_plain; [by rewrite IH|]. by apply Z.eqb_neq.
Qed.

(** The tags of a peer's row do not depend on anything the peer sent. *)
Theorem peer_row_inert p protocol connected p' protocol' connected' :
  markup (peer_table_row p protocol connected) = markup (peer_table_row p' protocol' connected').
Proof.
  unfold peer_table_row, element, element_class.
  rewrite !markup_app, !markup_esc. reflexivity.
Qed.

Lemma markup_card n n' label : markup (card n label) = markup (card n' label).
Proof. unfold card, div_class, element_class. rewrite !markup_app, !markup_esc. reflexivity. Qed.

Lemma markup_element tag s s' : markup s = markup s' → markup (element tag s) = markup (element tag s').
Proof. intros E. unfold element. by rewrite !markup_app, E. Qed.

Lemma markup_element_class tag class s s' :
  markup s = markup s' → markup (element_class tag class s) = markup (element_class tag class s').
Proof. intros E. unfold element_class. by rewrite !markup_app, E. Qed.

Lemma markup_rows {A} (f : A → str) (l l' : list A) :
  (∀ x y, markup (f x) = markup (f y)) → length l = length l' →
  markup (concat (map f l)) = markup (concat (map f l')).
Proof.
  intros Hf. revert l'. induction l as [|x l IH]; intros [|y l'] Hl; simpl in *; try done.
  rewrite !markup_app, (Hf x y). f_equal. apply IH. lia.
Qed.

(** Nothing a peer sent, and no number, decides what tags the stats page has: only how many peers there
    are. The same holds of the page an error shows. *)
Theorem page_inert d d' :
  length (ss_peers d) = length (ss_peers d') →
  markup (render d) = markup (render d') ∧ ∀ e e', markup (render_error e) = markup (render_error e').
Proof.
  intros Hl. split.
  - unfold render. rewrite !markup_app. f_equal; [|f_equal].
    + unfold cards. apply markup_element_class. rewrite !markup_app. repeat (f_equal; [apply markup_card|]).
      apply markup_card.
    + destruct (ss_peers d) as [|p ps], (ss_peers d') as [|p' ps']; try done.
      rewrite !bool_decide_eq_false_2 by done.
      apply markup_element. rewrite !markup_app. f_equal. apply markup_element.
      apply markup_rows; [|done]. intros. apply peer_row_inert.
  - intros e e'. apply markup_element_class. by rewrite !markup_app, !markup_esc.
Qed.

Lemma markup_number n : markup (number n) = [].
Proof.
  unfold number, dec20.
  assert (Forall is_digit_char (chars (digits 20 10 n EmptyString))) as H.
  { apply chars_digits; [lia|constructor]. }
  induction H as [|c l Hc _ IH]; [done|].
  change (c :: l) with ([c] ++ l). rewrite markup_app, IH, app_nil_r.
  unfold markup, filter; cbn. case_decide as E; [|done]. unfold is_markup, is_digit_char in *. lia.
Qed.

Lemma markup_summary d : markup (summaryText d) = [].
Proof.
  unfold summaryText. repeat case_match; rewrite ?markup_app, ?markup_number; done.
Qed.

(** The map page shows a text over the globe exactly while no peer is located, and nothing in the
    answer of [/map.json], and no error, decides what tags that text has. *)
Theorem map_page_inert d d' e e' :
  (overlay d = [] ↔ 0 < ms_located_peers d) ∧
  ((0 < ms_located_peers d ↔ 0 < ms_located_peers d') → markup (overlay d) = markup (overlay d')) ∧
  markup (overlay_error e) = markup (overlay_error e').
Proof.
  unfold overlay. split_and!.
  - destruct (Z.ltb_spec 0 (ms_located_peers d)); split; intros; try done; lia.
  - intros Hl. destruct (Z.ltb_spec 0 (ms_located_peers d)), (Z.ltb_spec 0 (ms_located_peers d'));
      try tauto; try lia.
    apply markup_element_class. by rewrite !markup_summary.
  - apply markup_element_class. by rewrite !markup_app, !markup_esc.
Qed.

(** Content keys are the only thing peers send that the DHT page does not escape: as long as they
    contain no markup, the tags of the page depend on how many there are and on nothing else. *)
Theorem dht_page_inert v v' :
  (∀ k, k ∈ keys v ∨ k ∈ keys v' → markup (chars (dv_content_key k)) = []) →
  length (keys v) = length (keys v') → markup (dht_out v) = markup (dht_out v').
Proof.
  intros Hk Hl. unfold dht_out.
  assert (markup (dht_rows v) = markup (dht_rows v')) as E.
  { unfold dht_rows. revert Hk Hl. generalize (keys v) (keys v'). intros l.
    induction l as [|x l IH]; intros [|y l'] Hk Hl; try done. cbn [map concat].
    rewrite !markup_app, (IH l'); [f_equal| |by injection Hl].
    - unfold dht_table_row, element, element_class. rewrite !markup_app, !markup_number.
      by rewrite !Hk by set_solver.
    - intros k Hin. apply Hk. set_solver. }
  destruct (keys v) as [|k ks], (keys v') as [|k' ks']; try done.
  rewrite !bool_decide_eq_false_2 by done.
  apply markup_element. rewrite !markup_app. f_equal. by apply markup_element.
Qed.

(** The colour of a cell is a share of the greatest count: no cell exceeds it, and it is a cell's count
    unless every count is below one. *)
Theorem maxCount_spec d :
  1 ≤ maxCount d ∧ (∀ c, c ∈ ms_cells d → mc_count c ≤ maxCount d) ∧
  (maxCount d = 1 ∨ ∃ c, c ∈ ms_cells d ∧ mc_count c = maxCount d).
Proof.
  unfold maxCount.
  assert (∀ l m, m ≤ fold_left (λ m c, m `max` mc_count c) l m ∧
    (∀ c, c ∈ l → mc_count c ≤ fold_left (λ m c, m `max` mc_count c) l m) ∧
    (fold_left (λ m c, m `max` mc_count c) l m = m ∨
     ∃ c, c ∈ l ∧ mc_count c = fold_left (λ m c, m `max` mc_count c) l m)) as H; [|exact (H _ 1)].
  induction l as [|x l IH]; intros m; cbn [fold_left].
  { split_and!; [lia| |by left]. intros c Hc. set_solver. }
  destruct (IH (m `max` mc_count x)) as (H1 & H2 & H3). split_and!.
  - lia.
  - intros c [->|Hc]%elem_of_cons; [lia|by apply H2].
  - destruct H3 as [H3|(c & Hc & E)]; [|right; exists c; set_solver].
    destruct (Z.max_spec m (mc_count x)) as [[Hlt Em]|[Hle Em]]; rewrite H3, Em; [|by left].
    right. exists x. set_solver.
Qed.

(** The summary counts the peers that are not located among those it says are across the regions, and
    then again as further ones: of three peers two are located, in one region. *)
Theorem map_summary_counts_twice :
  let d := build_map_snapshot ex_map_peers ex_map_resolver MAP_CELL_DEG 0 in
  ms_located_peers d = 2 ∧
  summaryText d = chars "3 peers across 1 region worldwide (+1 unlocated)".
Proof. split; vm_compute; reflexivity. Qed.

(** A duration is shown in its two greatest units, or in seconds alone, and is what is shown to within
    one of the smaller of them. *)
Theorem duration_shown secs :
  0 ≤ secs →
  (fmtDuration secs = number secs ++ chars "s" ∧ secs < 60) ∨
  ∃ a b big small u v,
    ((big, u, small, v) = (86400, "d "%string, 3600, "h"%string) ∨
     (big, u, small, v) = (3600, "h "%string, 60, "m"%string) ∨
     (big, u, small, v) = (60, "m "%string, 1, "s"%string)) ∧
    fmtDuration secs = number a ++ chars u ++ number b ++ chars v ∧
    1 ≤ a ∧ 0 ≤ b ∧ b * small < big ∧ a * big + b * small ≤ secs < a * big + (b + 1) * small.
Proof.
  intros Hs. unfold fmtDuration.
  destruct (Z.eqb_spec (secs / 86400) 0) as [Ed|Ed]; simpl.
  2: { right. exists (secs / 86400), (secs mod 86400 / 3600), 86400, 3600, "d "%string, "h"%string.
       split_and!; [by left|done|Z.to_euclidean_division_equations; lia..]. }
  destruct (Z.eqb_spec (secs mod 86400 / 3600) 0) as [Eh|Eh]; simpl.
  2: { right. exists (secs mod 86400 / 3600), (secs mod 3600 / 60), 3600, 60, "h "%string, "m"%string.
       split_and!; [by right; left|done|Z.to_euclidean_division_equations; lia..]. }
  destruct (Z.eqb_spec (secs mod 3600 / 60) 0) as [Em|Em]; simpl.
  2: { right. exists (secs mod 3600 / 60), (secs mod 60), 60, 1, "m "%string, "s"%string.
       split_and!; [by right; right|done|Z.to_euclidean_division_equations; lia..]. }
  left. assert (secs < 60) as Hlt by (Z.to_euclidean_division_equations; lia).
  by rewrite Z.mod_small by lia.
Qed.

Lemma scaled_spec us n scale i s :
  0 < scale → scaled us n scale = (i, s) →
  (i ≤ us)%nat ∧ s = scale * 1024 ^ Z.of_nat i ∧ (i = 0%nat ∨ s ≤ n) ∧ (i = us ∨ n < 1024 * s).
Proof.
  revert scale i s. induction us as [|us IH]; intros scale i s Hsc; simpl.
  { intros [= <- <-]. split_and!; [lia|simpl; lia|by left|by left]. }
  destruct (Z.leb_spec (1024 * scale) n) as [Hle|Hlt].
  - destruct (scaled us n (1024 * scale)) as [j s'] eqn:E. intros [= <- <-].
    destruct (IH (1024 * scale) j s') as (H1 & H2 & H3 & H4); [lia|done|].
    split_and!; [lia| | |].
    + rewrite H2, Nat2Z.inj_succ, Z.pow_succ_r by lia. lia.
    + right. destruct H3 as [->|?]; [|done]. simpl in H2. lia.
    + destruct H4 as [->|?]; [by left|by right].
  - intros [= <- <-]. split_and!; [lia|simpl; lia|by left|right; lia].
Qed.

(** A number of bytes is shown as it is below a KiB; otherwise in the greatest unit, up to TiB, it is
    at least one of, rounded to the nearest tenth. *)
Theorem bytes_shown n :
  0 ≤ n →
  (n < 1024 ∧ fmtBytes n = number n ++ chars " B") ∨
  ∃ i u tenths, (1 ≤ i ≤ 4)%nat ∧ units !! i = Some u ∧
    fmtBytes n = number (tenths / 10) ++ chars "." ++ number (tenths mod 10) ++ chars " " ++ chars u ∧
    let unit := 1024 ^ Z.of_nat i in
    unit ≤ n ∧ (i = 4%nat ∨ n < 1024 * unit) ∧ - unit < 2 * (tenths * unit - 10 * n) ≤ unit.
Proof.
  intros Hn. unfold fmtBytes. destruct (scaled (length units - 1) n 1) as [i s] eqn:E.
  destruct (scaled_spec (length units - 1) n 1 i s ltac:(lia) E) as (Hi & Hs & Hlo & Hhi). simpl in Hi, Hhi.
  destruct i as [|i].
  - left. simpl in Hs |- *. split; [|done]. destruct Hhi as [|]; [done|lia].
  - right. destruct Hlo as [|Hlo]; [done|]. rewrite Z.mul_1_l in Hs.
    assert (is_Some (units !! S i)) as [u Hu] by (apply lookup_lt_is_Some; simpl; lia).
    exists (S i), u, (tenths n s).
    assert (0 < s) by (rewrite Hs; apply Z.pow_pos_nonneg; lia).
    assert (E' := Z.div_mod (20 * n + s) (2 * s) ltac:(lia)).
    assert (B := Z.mod_pos_bound (20 * n + s) (2 * s) ltac:(lia)).
    split_and!; rewrite <- ?Hs; unfold tenths; try lia; try done.
    rewrite Hu. cbn [Nat.eqb default]. unfold toFixed1. by rewrite <- !app_assoc.
Qed.
