(* ===== verification/ServerRuns.v ===== *)
(** * Concrete runs of the relay server

    Instances of the parameters (an engine that is the set of peers it knows, a frame table, the documented
    address ranking) and runs of Server.v evaluated on them: the witnesses of the properties of
    ServerProps.v and the runs behind the recorded divergences. *)

From S2P Require Import Prelude Net Wire ProxyProtocol Config Limits Dial Channel Registry Pex.
From S2P Require Import Text Http F64 Map DhtView Server ServerInv Dashboard ServerProps.
From S2P Require Import Mailbox Refinement Delivery Teardown Pages.
From S2P Require Import Interleaving InterleavingInv InterleavingPex InterleavingSends.
From S2P Require Import InterleavingDelivery Progress Schedules.

(** ** Instances *)

(** An engine is the set of peers it knows; a message is a number, 0 the handshake. *)
Definition pex_example : DigPex := {|
  PexEngine := gset string;
  PexMessage := nat;
  PeerEntry := string;
  is_handshake := λ m, (m =? 0)%nat;
  pex_engine_new := λ _ _ _, ∅;
  peer_entry_new := λ id _ _ _, id;
  with_address := λ e _, e;
  with_flag := λ e _, e;
  upsert_known := λ e x, {[x]} ∪ e;
  remove_known := λ e id, e ∖ {[id]};
  link_down := λ e _, e;
  link_up := λ e _ _, ([0%nat], e);
  on_message := λ e _ _ _, ([], e);
  record_violation := λ e _ _ _, ([], e);
  is_muted := λ _ _, false;
  engine_tick := λ e _, ([], e);
  engine_known_count := λ e, Z.of_nat (size e);
  engine_link_count := λ _, 0
|}.

(** Eleven ASCII characters followed by a two-byte one, and another character. *)
Definition ex_wide_id : string :=
  String.append "wide-peer-i" (String.string_of_list_ascii
    (map (λ b, Ascii.ascii_of_N b) [0xC3; 0xA9; 0x31]%N)).

(** A content key that is an element with a script. *)
Definition ex_key : string := "<img src=x onerror=alert(1)>".

(** One-byte frames: the registrations and messages of the runs, and a PEX handshake. *)
Definition serde_example : @Serde pex_example := @Build_Serde pex_example
  (λ f, match f with
        | [0] => Some (Register "A" "net1" 1 [])
        | [1] => Some (Register "B" "net1" 1 [])
        | [2] => Some (Register "A" "net2" 1 [])
        | [3] => Some (RelayGossipMessage "spoofed" "B" [104; 105] 7)
        | [4] => Some (GetPeers None)
        | [5] => Some (Register "C" "net1" 1 [])
        | [6] => Some (Register ex_wide_id "net1" 1 [])
        | [7] => Some (DhtRecords [MkDhtRecord ex_key 1] 1 false)
        | [8] => Some (Register INTRODUCER_LOCAL_ID "net1" 1 [])
        | _ => None
        end)
  (λ f, match f with [9] => Some "pex_handshake"%string | _ => None end)
  (λ f, match f with [9] => Some 0%nat | _ => None end).

#[local] Existing Instances gmap_order dig_ip_rank pex_example mpsc_list
  mpsc_list_laws serde_example.

Definition ip1 : IpAddr := IpV4 (MkV4 203 0 113 1).
Definition addr1 : SocketAddr := SaV4 (MkV4 203 0 113 1) 40001.
Definition addr2 : SocketAddr := SaV4 (MkV4 203 0 113 2) 40002.

Definition ex_run (config : RelayServerConfig) (evs : list Event) : option World :=
  run config world_new evs.

Definition ex_world (config : RelayServerConfig) (evs : list Event) : World :=
  default world_new (ex_run config evs).

Definition ex_reachable (config : RelayServerConfig) : World → Prop :=
  reachable config.

Lemma ex_world_reachable config evs :
  is_some (ex_run config evs) = true → ex_reachable config (ex_world config evs).
Proof.
  unfold ex_world. destruct (ex_run config evs) as [w|] eqn:E; [|done]. intros _.
  eapply reachable_run; [apply reachable_init|exact E].
Qed.

(** Connection [c] from [addr] is accepted, upgraded and sends [frame]. *)
Definition joins (c : nat) (addr : SocketAddr) (frame : list Z) (t : Z) : list Event :=
  [Accept c addr None (t * 1000); Upgraded c (t * 1000) t; Frame c frame (t * 1000) t].

Lemma good_default : good_config config_default.
Proof.
  split; [apply (bool_decide_unpack _); vm_compute; exact I|]. vm_compute. repeat split; discriminate.
Qed.

(** ** Witnesses *)

(** Two peers, [A] and [B], registered on one network. *)
Definition ex_two_peers : list Event := joins 1 addr1 [0] 10 ++ joins 2 addr2 [1] 11.

Definition ex_two_world : World := ex_world config_default ex_two_peers.

Lemma ex_two_reachable : ex_reachable config_default ex_two_world.
Proof. apply ex_world_reachable. vm_compute. reflexivity. Qed.

Lemma reachable_counts_witness :
  connected (st ex_two_world) = registry_len (registry (st ex_two_world)) ∧
  connected (st ex_two_world) = 2.
Proof.
  split; [|vm_compute; reflexivity].
  apply (reachable_counts     config_default ex_two_world good_default ex_two_reachable).
Defined.

Lemma registered_peers_coherent_witness :
  ∃ q, registry (st ex_two_world) !! "A" = Some q ∧
    "A" ∈ mirrored (pex (st ex_two_world)) (peer_network_id q).
Proof.
  eexists. split; [vm_compute; reflexivity|].
  apply (registered_peers_coherent config_default ex_two_world "A" _ good_default ex_two_reachable).
  vm_compute. reflexivity.
Defined.

(** A connection that proved the identity [A] by certificate. *)
Definition ex_mtls : list Event :=
  [Accept 1 addr1 (Some "A"%string) 10000; Upgraded 1 10000 10; Frame 1 [1] 10000 10;
   Accept 2 addr2 (Some "A"%string) 11000; Upgraded 2 11000 11; Frame 2 [0] 11000 11].

Definition ex_mtls_world : World := ex_world config_default ex_mtls.

Lemma certificate_binds_identity_witness :
  ∃ conn, conns ex_mtls_world !! 2%nat = Some conn ∧ c_verified conn = Some "A"%string ∧
    registry (st ex_mtls_world) !! "B" = None ∧
    (∀ id, s_peer_id (c_session conn) = Some id → id = "A"%string).
Proof.
  assert (ex_reachable config_default ex_mtls_world) as Hr
    by (apply ex_world_reachable; vm_compute; reflexivity).
  eexists. split; [vm_compute; reflexivity|]. split; [reflexivity|].
  split; [vm_compute; reflexivity|].
  apply (certificate_binds_identity config_default ex_mtls_world 2 _ "A" good_default Hr).
  - vm_compute. reflexivity.
  - reflexivity.
Defined.

Lemma queues_bounded_witness :
  Z.of_nat (length (queue (outs ex_two_world) 1)) ≤ outbound_queue_capacity config_default ∧
  Z.of_nat (length (queue (outs ex_two_world) 1)) = 2.
Proof.
  split; [|vm_compute; reflexivity].
  destruct (queues_bounded config_default ex_two_world 1 good_default ex_two_reachable) as [H _].
  exact H.
Defined.

(** [A] asks to send a message from [spoofed]; [B] receives it from [A]. *)
Lemma frames_cannot_spoof_witness :
  ∃ conn conn', conns ex_two_world !! 1%nat = Some conn ∧
    let w' := (handle_frame config_default
                 ex_two_world 1 conn [3] 12000 12).2 in
    queue (outs w') 2 = queue (outs ex_two_world) 2 ++ [RelayGossipMessage "A" "B" [104; 105] 7] ∧
    appended (outs ex_two_world) (outs w') 2
      (legit (registry (st ex_two_world)) (c_session conn) (c_session conn') 2).
Proof.
  eexists. eexists. split; [vm_compute; reflexivity|]. split; [vm_compute; reflexivity|].
  eapply (frames_cannot_spoof     config_default ex_two_world 1 _ [3] 12000 12 _ 2 good_default ex_two_reachable).
  - vm_compute. reflexivity.
  - discriminate.
  - vm_compute. reflexivity.
Defined.

(** The world after [A] sent it. *)
Definition ex_sent_world : World :=
  default world_new (event_step config_default ex_two_world (Frame 1 [3] 12000 12)).

(** The world after a sweep, a message sent by [B]'s writer, and [A]'s departure. *)
Definition ex_later : list Event := [Sweep 13; WriterSends 2; ReadEnded 1].

Definition ex_later_world : World := default world_new (run config_default ex_sent_world ex_later).

Lemma default_Some {A} (d : A) o : is_some o = true → o = Some (default d o).
Proof. by destruct o. Qed.

Lemma ex_sent : event_step config_default ex_two_world (Frame 1 [3] 12000 12) = Some ex_sent_world.
Proof. apply default_Some. vm_compute. reflexivity. Qed.

Lemma ex_later_run : run config_default ex_sent_world ex_later = Some ex_later_world.
Proof. apply default_Some. vm_compute. reflexivity. Qed.

(** The frame as actions of [A]'s connection in the mailbox service. *)
Lemma server_refines_mailboxes_witness :
  rtc (action 1024 4096 90 (Client 1)) (view ex_two_world) (view ex_sent_world) ∧
  queue (outs ex_sent_world) 2 =
    queue (outs ex_two_world) 2 ++ [RelayGossipMessage "A" "B" [104; 105] 7].
Proof.
  split; [|vm_compute; reflexivity].
  exact (proj2 (server_refines_mailboxes config_default) ex_two_world _ ex_sent_world good_default
           ex_two_reachable ex_sent).
Defined.

(** It goes out after the message that was queued for [B] before, in spite of what comes between. *)
Lemma message_delivered_witness :
  length (queue (outs ex_two_world) 2) = 1%nat ∧
  ∃ ch ch', outs ex_later_world !! 2%nat = Some ch ∧
    chan_recv ch = Some (RelayGossipMessage "A" "B" [104; 105] 7, ch').
Proof.
  split; [vm_compute; reflexivity|].
  eapply (message_delivered config_default ex_two_world 1 _ [3] 12000 12 _ "A" "net1" "B"
    (MkPeer "net1" (MkPeerInfo "B" "net1" 1 11 11 []) 2 2) "spoofed" [104; 105] 7 ex_sent_world ex_later ex_later_world good_default ex_two_reachable).
  - vm_compute. reflexivity.
  - vm_compute. reflexivity.
  - vm_compute. reflexivity.
  - vm_compute. reflexivity.
  - vm_compute. reflexivity.
  - vm_compute. reflexivity.
  - vm_compute. reflexivity.
  - vm_compute. reflexivity.
  - vm_compute. reflexivity.
  - vm_compute. reflexivity.
  - vm_compute. reflexivity.
  - exact ex_sent.
  - exact ex_later_run.
  - unfold ex_later. rewrite !not_elem_of_cons. repeat split; try discriminate. apply not_elem_of_nil.
  - vm_compute. reflexivity.
Defined.

(** ** The end of a connection *)

(** A connection that registered twice, [A] and then [B], and is gone: the record of [A] stays. *)
Definition ex_ending : list Event :=
  joins 1 addr1 [0] 10 ++ [Frame 1 [1] 10001 10; ReadEnded 1].

Definition ex_ending_world : World := ex_world config_default ex_ending.
Definition ex_ending_conn : Conn :=
  default (MkConn Handshaking addr1 None (MkSlot false (ip_key ip1)) session_default
             (limiter_new config_default 0) None) (conns ex_ending_world !! 1%nat).

Definition ex_swept_world : World := sweep_once config_default ex_ending_world 200.
Definition ex_drained_world : World :=
  default world_new (run config_default ex_swept_world [WriterSends 1; PexTick 201000]).

(** The record of [A] keeps the writer waiting; the sweep lets it end. *)
Lemma teardown_completes_witness :
  (let w := default world_new (run config_default ex_ending_world (replicate 4 (WriterSends 1))) in
   queue (outs w) 1 = [] ∧ relay_turn w 1 = Waits) ∧
  ∃ w3 w4, writer_drain config_default 4 ex_drained_world 1 = Some w3 ∧
    event_step config_default w3 (Finished 1) = Some w4 ∧ conns w4 !! 1%nat = None ∧
    open_connections (st w4) = open_connections (st ex_drained_world) - 1.
Proof.
  split; [vm_compute; tauto|].
  destruct (teardown_completes config_default ex_ending_world 1 ex_ending_conn 200 ex_swept_world
              [WriterSends 1; PexTick 201000] ex_drained_world good_default) as [_ H].
  - apply ex_world_reachable. vm_compute. reflexivity.
  - split; vm_compute; reflexivity.
  - vm_compute. reflexivity.
  - reflexivity.
  - apply default_Some. vm_compute. reflexivity.
  - rewrite !not_elem_of_cons. split_and!; [done..|apply not_elem_of_nil].
  - assert (S (length (queue (outs ex_swept_world) 1) - takes 1 [WriterSends 1; PexTick 201000]) =
      4%nat) as E by (vm_compute; reflexivity).
    rewrite E in H. exact H.
Defined.

(** ** Interleaved sections *)

(** [n] steps of the handler at position [i] of those in progress, at [t] seconds. *)
Definition goes (n i : nat) (t : Z) : list MicroStep := replicate n (Resumes i (t * 1000)).

(** One connection at most, on two threads. *)
Definition config_one : RelayServerConfig :=
  let '(MkConfig a1 a2 a3 a4 a5 a6 a7 a8 a9 a10 a11 a12 a13 a14 a15 a16 a17 a18 a19 a20 a21 a22 a23 a24 a25) :=
    config_default in
  MkConfig a1 a2 a3 a4 1 a6 a7 a8 a9 a10 a11 a12 a13 a14 a15 0 a17 a18 a19 a20 a21 a22 a23 a24 a25.

(** Two accepts check the cap before either counts itself. *)
Definition overrun : list MicroStep :=
  [Starts (Accept 1 addr1 None 1000); Starts (Accept 2 addr2 None 1000); Resumes 0 1000; Resumes 1 1000] ++
  [Resumes 0 1001; Resumes 1 1001].

Definition overrun_micro : Micro := default micro_new (micro_run config_one 2 micro_new overrun).
Lemma interleaved_bounds_witness :
  max_connections config_one = 1 ∧ open_connections (st (mw overrun_micro)) < 1 + 2.
Proof.
  split; [reflexivity|].
  apply (interleaved_bounds config_one 2 overrun_micro).
  - split; [apply (bool_decide_unpack _); vm_compute; exact I|].
    vm_compute. repeat split; discriminate.
  - vm_compute. discriminate.
  - apply (interleaved_run _ _ micro_new overrun); [constructor|].
    apply default_Some. vm_compute. reflexivity.
Defined.

(** Connection [c] is accepted, upgraded, and its registration of [A] begins, as handler [i] of those
    in progress; [verified] is the identity its certificate proves. *)
Definition micro_join (c : nat) (addr : SocketAddr) (verified : option string) (t : Z) (i : nat)
    : list MicroStep :=
  Starts (Accept c addr verified (t * 1000)) :: goes 3 i t ++
  [Starts (Upgraded c (t * 1000) t); Starts (Frame c [0] (t * 1000) t)].

(** The registration of [A] with a certificate, stopped before its acknowledgement. *)
Definition ex_verified : list MicroStep := micro_join 1 addr1 (Some "A"%string) 10 0 ++ goes 5 0 10.

Definition ex_verified_micro : Micro :=
  default micro_new (micro_run config_default 2 micro_new ex_verified).

Lemma interleaved_identity_witness :
  is_some (registry (st (mw ex_verified_micro)) !! "A"%string) = true ∧
  ∀ id q conn v, registry (st (mw ex_verified_micro)) !! id = Some q →
    conns (mw ex_verified_micro) !! peer_tx q = Some conn → c_verified conn = Some v → id = v.
Proof.
  split; [vm_compute; reflexivity|].
  apply (interleaved_identity config_default 2 ex_verified_micro good_default).
  - vm_compute. discriminate.
  - apply (interleaved_run _ _ micro_new ex_verified); [constructor|].
    apply default_Some. vm_compute. reflexivity.
Defined.

(** A registration to its end, and the accept of another connection begun. *)
Definition ex_orderly : list MicroStep :=
  micro_join 1 addr1 None 10 0 ++ goes 8 0 10 ++ [Starts (Accept 2 addr2 None 11000); Resumes 0 11000].

Definition ex_orderly_micro : Micro :=
  default micro_new (orderly_run config_default 2 micro_new ex_orderly).

Lemma orderly_pex_coherent_witness :
  ∃ q, registry (st (mw ex_orderly_micro)) !! "A"%string = Some q ∧
    "A"%string ∈ mirrored (pex (st (mw ex_orderly_micro))) (peer_network_id q).
Proof.
  eexists. split; [vm_compute; reflexivity|].
  apply (orderly_pex_coherent config_default 2 ex_orderly_micro "A" _ good_default).
  - apply (orderly_run_interleaved _ _ micro_new ex_orderly); [constructor|].
    apply default_Some. vm_compute. reflexivity.
  - vm_compute. reflexivity.
  - apply (bool_decide_unpack _). vm_compute. exact I.
Defined.

(** [A] and [B] are registered, and [A] asks to send a message as [spoofed]. *)
Definition ex_asked : list MicroStep :=
  micro_join 1 addr1 None 10 0 ++ goes 8 0 10 ++
  [Starts (Accept 2 addr2 None 11000)] ++ goes 3 0 11 ++
  [Starts (Upgraded 2 11000 11); Starts (Frame 2 [1] 11000 11)] ++ goes 9 0 11 ++
  [Starts (Frame 1 [3] 12000 12)] ++ goes 1 0 12.

(** [B]'s registration is removed after the relay looked it up. *)
Definition ex_gone : list MicroStep := Starts (ReadEnded 2) :: goes 1 1 13.

Definition ex_asked_micro : Micro := default micro_new (micro_run config_default 2 micro_new ex_asked).

(** The relay finds [B]. *)
Definition ex_found_micro : Micro :=
  default micro_new (micro_step config_default 2 ex_asked_micro (Resumes 0 12000)).

Definition ex_addressed_micro : Micro :=
  default micro_new (micro_run config_default 2 ex_found_micro ex_gone).

Lemma ex_asked_interleaved : interleaved config_default 2 ex_asked_micro.
Proof.
  apply (interleaved_run _ _ micro_new ex_asked); [constructor|].
  apply default_Some. vm_compute. reflexivity.
Qed.

Lemma ex_found : micro_step config_default 2 ex_asked_micro (Resumes 0 12000) = Some ex_found_micro.
Proof. apply default_Some. vm_compute. reflexivity. Qed.

Lemma ex_addressed : micro_run config_default 2 ex_found_micro ex_gone = Some ex_addressed_micro.
Proof. apply default_Some. vm_compute. reflexivity. Qed.

Lemma ex_addressed_interleaved : interleaved config_default 2 ex_addressed_micro.
Proof.
  apply (interleaved_run _ _ ex_found_micro ex_gone); [|exact ex_addressed].
  eapply interleaved_step; [exact ex_asked_interleaved|exact ex_found].
Qed.

Definition ex_posted_micro : Micro :=
  default micro_new (micro_step config_default 2 ex_addressed_micro (Resumes 0 13000)).

Lemma interleaved_no_spoofing_witness :
  registry (st (mw ex_addressed_micro)) !! "B"%string = None ∧
  queue (outs (mw ex_posted_micro)) 2 = queue (outs (mw ex_addressed_micro)) 2 ++
    [RelayGossipMessage "A" "B" [104; 105] 7] ∧
  ∃ p, pending ex_addressed_micro !! 0%nat = Some p ∧
    appended (outs (mw ex_addressed_micro)) (outs (mw ex_posted_micro)) 2
      (sent (served config_default 2 ex_posted_micro) p 2).
Proof.
  split; [vm_compute; reflexivity|]. split; [vm_compute; reflexivity|].
  apply (interleaved_no_spoofing config_default 2 ex_addressed_micro (Resumes 0 13000) ex_posted_micro 2
           good_default).
  - exact ex_addressed_interleaved.
  - apply default_Some. vm_compute. reflexivity.
Defined.

(** [B]'s writer takes the acknowledgement of its registration. *)
Definition ex_taken_micro : Micro :=
  default micro_new (micro_run config_default 2 ex_posted_micro [Starts (WriterSends 2)]).

Lemma interleaved_delivery_witness :
  pending ex_found_micro !! 0%nat =
    Some (PendSends (Some 1%nat) [(2%nat, RelayGossipMessage "A" "B" [104; 105] 7)]) ∧
  ∃ ch ch', outs (mw ex_taken_micro) !! 2%nat = Some ch ∧
    chan_recv ch = Some (RelayGossipMessage "A" "B" [104; 105] 7, ch').
Proof.
  assert (∃ conn q, conns (mw ex_asked_micro) !! 1%nat = Some conn ∧
    s_peer_id (c_session conn) = Some "A"%string ∧ s_network_id (c_session conn) = Some "net1"%string ∧
    registry (st (mw ex_asked_micro)) !! "B"%string = Some q ∧ peer_network_id q = "net1"%string ∧
    peer_tx q = 2%nat) as (conn & q & Hc & Hme & Hn & Hq & Hqn & Htx)
    by (eexists _, _; vm_compute; split_and!; reflexivity).
  destruct (interleaved_delivery config_default 2 ex_asked_micro 0 12000 ex_found_micro 1 conn "A" "net1"
    "B" q "spoofed" [104; 105] 7 12000 ex_gone ex_addressed_micro 0 13000 ex_posted_micro
    [Starts (WriterSends 2)] ex_taken_micro good_default) as [H1 H2].
  - vm_compute. discriminate.
  - exact ex_asked_interleaved.
  - vm_compute. reflexivity.
  - exact Hc.
  - exact Hme.
  - exact Hn.
  - exact Hq.
  - exact Hqn.
  - exact ex_found.
  - rewrite Htx in H1, H2. split; [exact H1|]. apply H2; clear H1 H2.
    + exact ex_addressed.
    + vm_compute. reflexivity.
    + vm_compute. reflexivity.
    + vm_compute. reflexivity.
    + apply default_Some. vm_compute. reflexivity.
    + apply default_Some. vm_compute. reflexivity.
    + apply not_elem_of_cons. split; [discriminate|apply not_elem_of_nil].
    + vm_compute. reflexivity.
Defined.

(** A message about to be sent and a departure about to be told are both brought to their end. *)
Lemma handlers_finish_witness :
  length (pending ex_addressed_micro) = 2%nat ∧
  ∃ m, rtc (resumes config_default 2) ex_addressed_micro m ∧ pending m = [].
Proof.
  split; [vm_compute; reflexivity|].
  apply (handlers_finish config_default 2 ex_addressed_micro good_default).
  - vm_compute. discriminate.
  - lia.
  - exact ex_addressed_interleaved.
Defined.

(** A sweep while a connection is on its way out. *)
Lemma events_are_schedules_witness :
  ∃ n, micro_run config_default 2 (MkMicro ex_two_world [PendGuardDrop 9])
         (Starts (Sweep 500) :: replicate n (Resumes 1 0)) =
       Some (MkMicro (sweep_once config_default ex_two_world 500) [PendGuardDrop 9]).
Proof.
  apply (proj1 (events_are_schedules config_default 2) (MkMicro ex_two_world [PendGuardDrop 9])
           (Sweep 500)).
  - intros [[? [=]] _].
  - apply (bool_decide_unpack _). vm_compute. exact I.
  - reflexivity.
Defined.

Definition ex_silent_world : World :=
  ex_world config_default (ex_two_peers ++ [Accept 3 addr2 None 12000; Upgraded 3 12000 12]).

Lemma unregistered_frames_inert_witness :
  ∃ conn, conns ex_silent_world !! 3%nat = Some conn ∧
    let w' := (handle_frame config_default
                 ex_silent_world 3 conn [3] 12000 12).2 in
    queue (outs w') 3 = [Error 1 "register before sending other messages (RLY-001)"] ∧
    registry (st w') = registry (st ex_silent_world).
Proof.
  eexists. split; [vm_compute; reflexivity|]. split; [vm_compute; reflexivity|].
  apply (unregistered_frames_inert     config_default ex_silent_world 3).
  - reflexivity.
  - vm_compute. reflexivity.
  - intros id n v l. discriminate.
Defined.

(** One connection that registers: refused under a held id, accepted under a free one. *)
Lemma register_peer_exact_witness :
  ∃ conn w' w'', conns ex_silent_world !! 3%nat = Some conn ∧
    (register_peer config_default ex_silent_world 3 conn "A" "net1" 1 [] 12000 = (false, w') ∧
     refused config_default ex_silent_world w' 3 conn 12000 ID_IN_USE) ∧
    (register_peer config_default ex_silent_world 3 conn "C" "net1" 1 [] 12000 = (true, w'') ∧
     accepted config_default ex_silent_world w'' 3 conn "C" "net1"
       (registered_info conn "C" "net1" 1 [] 12000) 12000).
Proof.
  assert (∃ conn, conns ex_silent_world !! 3%nat = Some conn) as [conn Hc]
    by (eexists; vm_compute; reflexivity).
  pose proof (register_peer_exact config_default ex_silent_world 3 conn "A" "net1" 1 [] 12000 Hc) as Hx.
  pose proof (register_peer_exact config_default ex_silent_world 3 conn "C" "net1" 1 [] 12000 Hc) as Hy.
  assert (refusal config_default ex_silent_world conn "A" 12000 = Some ID_IN_USE ∧
          refusal config_default ex_silent_world conn "C" 12000 = None) as [Ea Ec].
  { vm_compute in Hc. injection Hc as <-. split; vm_compute; reflexivity. }
  destruct (register_peer config_default ex_silent_world 3 conn "A" "net1" 1 [] 12000) as [[] w'] eqn:E1.
  { exfalso. rewrite Ea in Hx. destruct Hx as [[=] _]. }
  destruct (register_peer config_default ex_silent_world 3 conn "C" "net1" 1 [] 12000) as [[] w''] eqn:E2.
  2: { exfalso. rewrite Ec in Hy. destruct Hy as (? & [=] & _). }
  exists conn, w', w''. split; [exact Hc|]. split; split.
  - exact E1.
  - destruct Hx as (code & E & Hr). rewrite Ea in E. injection E as <-. exact Hr.
  - exact E2.
  - exact (proj2 Hy).
Defined.

(** The proxy at 10.0.0.1 declares a client; another source is not believed. *)
Definition config_proxied : RelayServerConfig :=
  let 'MkConfig a1 a2 a3 a4 a5 a6 a7 a8 a9 a10 a11 a12 a13 a14 a15 a16 a17 a18 a19 a20 a21 a22 a23 a24
    _ := config_default in
  MkConfig a1 a2 a3 a4 a5 a6 a7 a8 a9 a10 a11 a12 a13 a14 a15 a16 a17 a18 a19 a20 a21 a22 a23 a24
    [MkCidr (IpV4 (MkV4 10 0 0 0)) 8].

Definition addr_proxy : SocketAddr := SaV4 (MkV4 10 0 0 1) 50000.

Lemma resolve_source_exact_witness :
  resolve_source config_proxied [1; 2; 3] false addr1 = Some (prefixed_new [] [1; 2; 3], addr1) ∧
  resolve_source config_proxied (encode_v2 ip1 40001 ip1 443 [] ++ [1; 2; 3]) false addr_proxy =
    Some (prefixed_new [] [1; 2; 3], addr1).
Proof.
  assert (Forall wf_cidr (trusted_proxies config_proxied)) as Hwf
    by (apply (bool_decide_unpack _); vm_compute; exact I).
  split.
  - apply (resolve_source_exact config_proxied [1; 2; 3] false addr1 ip1 1 ip1 2 [] []).
    + exact Hwf.
    + apply (bool_decide_unpack _). vm_compute. exact I.
    + reflexivity.
    + simpl. lia.
    + intros Hx. apply (bool_decide_pack _) in Hx. vm_compute in Hx. exact Hx.
  - apply (resolve_source_exact config_proxied [] false addr_proxy ip1 40001 ip1 443 [] [1; 2; 3]).
    + exact Hwf.
    + apply (bool_decide_unpack _). vm_compute. exact I.
    + reflexivity.
    + simpl. lia.
    + apply (bool_decide_unpack _). vm_compute. exact I.
Defined.

(** ** The dashboard *)

(** A location database that knows two neighbouring places. *)
Definition ex_resolver : GeoResolver := λ ip,
  match ip with
  | IpV4 a => if v4_a a =? 203 then Some (f64_of 41 0, f64_of (-73) 0)
              else Some (f64_of 345 (-3), f64_of (-1123) (-4))
  | IpV6 _ => None
  end.

Definition ex_head (target_ : string) : RequestHead :=
  MkHead (chars "GET") (chars target_) (Some (chars "relay.dig.net")) false.

(** A server whose one registration is [p]. *)
Definition ex_holding (p : RelayPeerInfo) : RelayState :=
  set_registry state_new {[pi_peer_id p := MkPeer (pi_network_id p) p 1 1]}.

Definition ex_public_p : RelayPeerInfo :=
  MkPeerInfo "0123456789abcdef" "net1" 1 5 6 [SaV4 (MkV4 203 0 113 1) 9444].
Definition ex_public_q : RelayPeerInfo :=
  MkPeerInfo "0123456789abXXXX" "net1" 1 5 9 [SaV4 (MkV4 198 51 100 7) 80].

Lemma stats_private_witness :
  serve_http "1" config_default ex_resolver (ex_holding ex_public_p) 7 8 9 (ex_head "/map.json") =
  serve_http "1" config_default ex_resolver (ex_holding ex_public_q) 7 8 9 (ex_head "/map.json").
Proof.
  apply (stats_private "1" config_default ex_resolver).
  - assert (peers (registry (ex_holding ex_public_p)) None = [ex_public_p]) as -> by reflexivity.
    assert (peers (registry (ex_holding ex_public_q)) None = [ex_public_q]) as -> by reflexivity.
    constructor; [|constructor]. constructor; vm_compute; reflexivity.
  - reflexivity.
  - reflexivity.
  - reflexivity.
Defined.

Lemma live_stats_exact_witness :
  ∃ s, live_snapshot "1" (st ex_two_world) 7 8 false = Some s ∧
    ss_active_reservations s = 2 ∧ ss_connected_peers s = 2 ∧
    (∀ n k, MkNetworkRow n k ∈ ss_networks s ↔
       k = Z.of_nat (length (peers (registry (st ex_two_world)) (Some n))) ∧ 0 < k).
Proof.
  destruct (live_stats_exact config_default ex_two_world "1" ex_resolver 7 8 9
    (ex_head "/stats.json") good_default ex_two_reachable eq_refl) as (_ & _ & Hs).
  eexists. split; [vm_compute; reflexivity|]. split; [vm_compute; reflexivity|].
  split; [vm_compute; reflexivity|].
  eapply Hs. vm_compute. reflexivity.
Defined.

(** ** Runs behind the recorded divergences *)

(** Which connection holds the registration of [id]. *)
Definition holder (w : World) (id : string) : option nat :=
  peer_tx <$> registry (st w) !! id.

Definition ex_mirrored (w : World) (network : string) : gset string :=
  mirrored (pex (st w)) network.

(** The registration of [A] is swept, [A] registers again over a second connection, and the late
    teardown of the first connection then removes the second connection's live registration:
    [deregister] removes by peer id without asking which connection owns the record. *)
Definition stale_prefix : list Event :=
  joins 1 addr1 [0] 10 ++ [Sweep 200] ++ joins 2 addr2 [0] 200.

Definition stale_run : list Event := stale_prefix ++ [ReadEnded 1].

(** The phase and the session's peer id of connection [c]. *)
Definition serving_as (w : World) (c : nat) : option (Phase * option string) :=
  (λ conn, (c_phase conn, s_peer_id (c_session conn))) <$> conns w !! c.

Theorem stale_teardown_evicts :
  holder (ex_world config_default stale_prefix) "A" = Some 2%nat ∧
  is_some (ex_run config_default stale_run) = true ∧
  let w := ex_world config_default stale_run in
  holder w "A" = None ∧ serving_as w 2 = Some (Serving, Some "A"%string) ∧
  is_closed (outs w) 2 = false.
Proof. vm_compute. tauto. Qed.

(** One connection registers under three ids while an IP may hold two registrations: every further
    [Register] replaces the connection's slot, which gives the previous one back, while the records
    stay. *)
Definition config_two_regs : RelayServerConfig :=
  let 'MkConfig a1 a2 a3 a4 a5 a6 a7 a8 a9 a10 a11 a12 a13 a14 a15 a16 a17 _ a19 a20 a21 a22 a23 a24
    a25 := config_default in
  MkConfig a1 a2 a3 a4 a5 a6 a7 a8 a9 a10 a11 a12 a13 a14 a15 a16 a17 2 a19 a20 a21 a22 a23 a24 a25.

Definition second_register_run : list Event := 
  joins 1 addr1 [0] 10 ++ [Frame 1 [1] 10001 10; Frame 1 [5] 10002 10].

Theorem second_register_outgrows_cap :
  max_registrations_per_ip config_two_regs = 2 ∧
  is_some (ex_run config_two_regs second_register_run) = true ∧
  let w := ex_world config_two_regs second_register_run in
  holder w "A" = Some 1%nat ∧ holder w "B" = Some 1%nat ∧ holder w "C" = Some 1%nat ∧
  regs_per_ip (abuse (st w)) !! ip_key ip1 = Some 1.
Proof. vm_compute. tauto. Qed.

(** A PEX handshake sent after the sweep puts an unregistered peer back into its network's engine,
    and the teardown of the connection leaves it there. *)
Definition swept_run : list Event :=
  joins 1 addr1 [0] 10 ++
  [Sweep 200; Frame 1 [9] 200000 200; ReadEnded 1; WriterExits 1; Finished 1].

Theorem swept_peer_stays_in_pex :
  is_some (ex_run config_default swept_run) = true ∧
  let w := ex_world config_default swept_run in
  holder w "A" = None ∧ serving_as w 1 = None ∧ elements (ex_mirrored w "net1") = ["A"%string].
Proof. vm_compute. tauto. Qed.

(** A peer that reclaims its id on another network stays known to PEX on the network it left. *)
Definition network_change_run : list Event :=
  joins 1 addr1 [0] 10 ++ [WriterExits 1] ++ joins 2 addr2 [2] 20.

Theorem network_change_stays_in_pex :
  is_some (ex_run config_default network_change_run) = true ∧
  let w := ex_world config_default network_change_run in
  peer_network_id <$> registry (st w) !! "A"%string = Some "net2"%string ∧
  elements (ex_mirrored w "net1") = ["A"%string].
Proof. vm_compute. tauto. Qed.

(** A peer registers under the id the engines of PEX have for the relay itself. *)
Definition introducer_id_run : list Event := joins 1 addr1 [8] 10.

Theorem introducer_id_registered :
  is_some (ex_run config_default introducer_id_run) = true ∧
  let w := ex_world config_default introducer_id_run in
  holder w INTRODUCER_LOCAL_ID = Some 1%nat ∧
  elements (ex_mirrored w "net1") = [INTRODUCER_LOCAL_ID].
Proof. vm_compute. tauto. Qed.

(** [GetPeers] is answered before the connection has registered. *)
Definition early_peers_run : list Event := joins 1 addr1 [0] 10 ++ joins 2 addr2 [4] 20.

Theorem get_peers_before_registration :
  is_some (ex_run config_default early_peers_run) = true ∧
  let w := ex_world config_default early_peers_run in
  serving_as w 2 = Some (Serving, None) ∧
  (λ m, match m with Peers l => pi_peer_id <$> l | _ => [] end) <$> queue (outs w) 2 = [["A"%string]].
Proof. vm_compute. tauto. Qed.

(** A peer registers under an id with a two-byte character across its twelfth byte: from then on no
    request on the ordinary host is answered unless it asks for full ids, the health check of the
    traffic port included. *)
Definition wide_id_run : list Event := joins 1 addr1 [6] 10.

Theorem wide_id_stops_dashboard :
  is_some (ex_run config_default wide_id_run) = true ∧
  let s := st (ex_world config_default wide_id_run) in
  serve_http "1" config_default ex_resolver s 7 8 9 (ex_head "/health") = None ∧
  serve_http "1" config_default ex_resolver s 7 8 9 (ex_head "/") = None ∧
  is_some (serve_http "1" config_default ex_resolver s 7 8 9 (ex_head "/health?full=1")) = true.
Proof. vm_compute. tauto. Qed.

(** A registered peer reports a content key that is markup: the public view carries it as it is, and
    so does the row the DHT page makes of it, where the peers' page would show it escaped. *)
Definition markup_key_run : list Event :=
  joins 1 addr1 [0] 10 ++ [Frame 1 [7] 10001 10; DhtCollect 11].

Theorem dht_page_carries_markup :
  is_some (ex_run config_default markup_key_run) = true ∧
  let s := st (ex_world config_default markup_key_run) in
  let v := dht_view s in
  dr_body <$> serve_http "1" config_default ex_resolver s 7 8 9 (ex_head "/dht.json") =
    Some (DhtJson v) ∧
  keys v = [MkDhtViewEntry ex_key 1 1] ∧
  Forall (λ k, (chars "<tr>" ++ element_class (chars "td") (chars "k") (chars ex_key)) `prefix_of`
    dht_table_row k [49] [49]) (keys v) ∧
  markup (esc (chars ex_key)) = [].
Proof. split; [vm_compute; reflexivity|]. split_and!; [vm_compute; reflexivity..| |vm_compute; reflexivity].
  apply (bool_decide_unpack _). vm_compute. exact I.
Qed.

(** Two accepts that check the open-connection cap before either counts itself exceed it. *)
Theorem open_cap_overrun :
  max_connections config_one = 1 ∧ open_connections (st (mw overrun_micro)) = 2.
Proof. vm_compute. tauto. Qed.

(** A departure that reaches PEX after the same peer's next registration did leaves that peer
    registered, with nothing pending, and neither known to PEX nor reachable through it. *)
Definition late_departure : list MicroStep :=
  micro_join 1 addr1 None 10 0 ++ goes 8 0 10 ++ [Starts (ReadEnded 1)] ++ goes 1 0 19 ++
  micro_join 2 addr2 None 20 1 ++ goes 8 1 20 ++ goes 2 0 21.

Theorem late_departure_hides_peer :
  is_some (micro_run config_default 2 micro_new late_departure) = true ∧
  let m := default micro_new (micro_run config_default 2 micro_new late_departure) in
  pending m = [] ∧ holder (mw m) "A" = Some 2%nat ∧ is_closed (outs (mw m)) 2 = false ∧
  elements (ex_mirrored (mw m) "net1") = [] ∧ pex_conns (pex (st (mw m))) !! "A"%string = None.
Proof. vm_compute. split_and!; reflexivity. Qed.

(** An announcement that reaches PEX after the sweep's removal of the same registration did leaves
    an unregistered peer known to PEX. *)
Definition late_announcement : list MicroStep :=
  micro_join 1 addr1 None 10 0 ++ goes 5 0 10 ++ [Starts (WriterExits 1); Starts (Sweep 20)] ++
  goes 2 1 20 ++ goes 3 0 21.

Theorem late_announcement_leaves_ghost :
  is_some (micro_run config_default 2 micro_new late_announcement) = true ∧
  let m := default micro_new (micro_run config_default 2 micro_new late_announcement) in
  pending m = [] ∧ holder (mw m) "A" = None ∧ elements (ex_mirrored (mw m) "net1") = ["A"%string].
Proof. vm_compute. split_and!; reflexivity. Qed.
