(* ===== verification/Service.v ===== *)
(** * Operating-system service registration (src/src/service.rs)

    Scopes and privileges, the three-valued probe of a registration, the removal and migration
    policies over a service backend, and the [install], [uninstall], [start] and [stop] operations.
    The machine is a parameter: the native service manager (the service-manager crate), the tools
    the probes run, and the executable's path; its state is threaded through every call that may
    change it. Messages are texts. *)

From S2P Require Import Prelude Net Text ProxyProtocol NetText SockText Config Environment.

(** A text literal, decoded. *)
Definition txt (s : string) : str := default [] (utf8_decode (chars s)).

Definition SERVICE_LABEL : str := txt "net.dignetwork.dig-relay".

Inductive Platform : Type := Windows | MacOs | OtherUnix.

Definition is_windows (p : Platform) : bool := match p with Windows => true | _ => false end.
Definition PREFERS_USER_LEVEL (p : Platform) : bool := negb (is_windows p).

(** ** Errors and results *)

Inductive IoKind : Type := PermissionDenied | NotFound | Unsupported | InvalidInput
| InvalidDataKind | OtherKind.

Record IoError := MkIoError { io_kind : IoKind; io_text : str }.

(** The JSON values the operations report. *)
Inductive Json : Type :=
| JNull
| JBool (b : bool)
| JStr (s : str)
| JArr (l : list Json)
| JObj (fields : list (string * Json)).

Record Outcome := MkOutcome { summary : str; result_ : Json }.

(** ** Scopes *)

Inductive ServiceScope : Type := SystemScope | UserScope.

Global Instance ServiceScope_eq_dec : EqDecision ServiceScope.
Proof. solve_decision. Defined.

Definition resolve_scope (choice : ScopeChoice) (os_supports_user is_root : bool) : ServiceScope :=
  if negb os_supports_user then SystemScope
  else
    match choice with
    | System => SystemScope
    | User => UserScope
    | Auto => if is_root then SystemScope else UserScope
    end.

Definition ensure_privilege_for_scope (scope : ServiceScope) (os_supports_user is_root : bool)
    : result unit IoError :=
  if negb os_supports_user || bool_decide (scope = UserScope) || is_root then Ok tt
  else Err (MkIoError PermissionDenied (txt "dig-relay: registering a system-level (machine-wide, boot-started) service requires root. Re-run with `sudo dig-relay install --scope system`, or install at user scope (`--scope user`) — noting that a user-scope service only starts with your login session and so may not come back after a reboot on a headless host.")).

Definition other_scope (scope : ServiceScope) : ServiceScope :=
  match scope with SystemScope => UserScope | UserScope => SystemScope end.

Definition uninstall_scopes (choice : ScopeChoice) (os_supports_user is_root : bool)
    : list ServiceScope :=
  let requested := resolve_scope choice os_supports_user is_root in
  if negb os_supports_user || negb (bool_decide (choice = Auto)) then [requested]
  else [requested; other_scope requested].

Definition scope_label (scope : ServiceScope) : str :=
  match scope with SystemScope => txt "system" | UserScope => txt "user" end.

(** ** Registrations as the probes see them *)

Inductive Registration : Type :=
| Present
| Absent
| Unknown (reason : str).

Definition is_present (r : Registration) : bool := match r with Present => true | _ => false end.
Definition unknown_reason (r : Registration) : option str :=
  match r with Unknown reason => Some reason | _ => None end.

Definition contains_any (haystack : str) (needles : list string) : bool :=
  existsb (λ n, str_contains (to_ascii_lowercase haystack) (chars n)) needles.

(** An [i32] in decimal. *)
Definition dec_int (n : Z) : str :=
  if n <? 0 then 45 :: chars (dec20 (- n)) else chars (dec20 n).

Definition describe_exit (code : option Z) : str :=
  match code with
  | Some c => txt "code " ++ dec_int c
  | None => txt "no exit code (terminated by signal)"
  end.

(** [str::lines]. *)
Definition strip_cr (l : str) : str := if decide (last l = Some 13) then removelast l else l.
Definition lines (s : str) : list str :=
  let pieces := split 10 s in
  map strip_cr (if decide (last pieces = Some []) then removelast pieces else pieces).

Definition summarize_stderr (stderr : str) : str :=
  let line := default (txt "(no output)") (head (filter (λ l, l ≠ []) (map trim (lines stderr)))) in
  take 200 line.

Definition classify_sc_probe (succeeded : bool) (code : option Z) : Registration :=
  if succeeded then Present
  else if bool_decide (code = Some 1060) then Absent
  else Unknown (txt "`sc query` exited with " ++ describe_exit code ++
    txt " (1060 would mean the service does not exist)").

Definition classify_launchctl_probe (succeeded : bool) (code : option Z) (stderr : str)
    : Registration :=
  if succeeded then Present
  else
    let says_no_such_service :=
      contains_any stderr ["could not find service"; "no such process"; "no such file"]%string in
    if bool_decide (code = Some 113) || says_no_such_service then Absent
    else Unknown (txt "`launchctl print` exited with " ++ describe_exit code ++
      txt " without reporting the service absent: " ++ summarize_stderr stderr).

Definition classify_systemctl_probe (succeeded : bool) (stderr : str) : Registration :=
  if succeeded then Present
  else if contains_any stderr ["no files found for"; "could not be found"]%string then Absent
  else Unknown (txt "`systemctl cat` failed without reporting the unit absent: " ++
    summarize_stderr stderr).

Definition probe_tool_unavailable (tool : str) (error : str) : Registration :=
  Unknown (txt "could not run `" ++ tool ++ txt "`: " ++ error).

(** ** The removal policy over a backend *)

Record InstallPlan := MkPlan {
  program : str;
  args : list str;
  environment : list (string * string);
  autostart : bool }.

(** The trait's operations at one scope, on a machine state of type [W]. *)
Record ServiceBackend (W : Type) := MkBackend {
  registration : W → Registration;
  stop_ : W → result unit IoError * W;
  delete_ : W → result unit IoError * W;
  create_ : InstallPlan → W → result unit IoError * W }.
Arguments registration {W}.
Arguments stop_ {W}.
Arguments delete_ {W}.
Arguments create_ {W}.

Record ScopeRemoval := MkRemoval {
  rm_scope : ServiceScope;
  found : bool;
  removed : bool;
  indeterminate : bool;
  rm_error : option str }.

Inductive RemovalMode : Type := Requested | Swept.

Global Instance RemovalMode_eq_dec : EqDecision RemovalMode.
Proof. solve_decision. Defined.

Definition unreachable (scope : ServiceScope) (mode : RemovalMode) (error : str) : ScopeRemoval :=
  MkRemoval scope false false (bool_decide (mode = Requested)) (Some error).

Definition removal_to_json (r : ScopeRemoval) : Json :=
  JObj [("scope"%string, JStr (scope_label (rm_scope r))); ("found"%string, JBool (found r));
    ("removed"%string, JBool (removed r)); ("indeterminate"%string, JBool (indeterminate r));
    ("error"%string, match rm_error r with Some e => JStr e | None => JNull end)].

Definition remove_registration {W} (backend : ServiceBackend W) (scope : ServiceScope)
    (mode : RemovalMode) (w : W) : ScopeRemoval * W :=
  let probe := registration backend w in
  let unknown := is_some (unknown_reason probe) in
  let error :=
    match unknown_reason probe with
    | Some reason => Some (txt "could not determine whether it is registered: " ++ reason)
    | None => None
    end in
  if bool_decide (mode = Swept) && negb (is_present probe) then
    (MkRemoval scope (is_present probe) false unknown error, w)
  else
    let w := (stop_ backend w).2 in
    match delete_ backend w with
    | (Ok _, w) => (MkRemoval scope (is_present probe) true false error, w)
    | (Err e, w) =>
        (MkRemoval scope (is_present probe) false (unknown || is_present probe) (Some (io_text e)), w)
    end.

Definition install_at_scope {W} (target : ServiceBackend W)
    (other : option (ServiceBackend W * ServiceScope)) (plan : InstallPlan) (w : W)
    : result (option ScopeRemoval) IoError * W :=
  let '(migration, w) :=
    match other with
    | Some (backend, scope) =>
        let '(r, w) := remove_registration backend scope Swept w in (Some r, w)
    | None => (None, w)
    end in
  match create_ target plan w with
  | (Ok _, w) => (Ok migration, w)
  | (Err e, w) => (Err e, w)
  end.

(** ** Reporting a removal *)

Definition quoted (s : str) : str := 34 :: s ++ [34].

Fixpoint str_join (sep : str) (l : list str) : str :=
  match l with
  | [] => []
  | [x] => x
  | x :: l => x ++ sep ++ str_join sep l
  end.

Definition unresolved (r : ScopeRemoval) : bool := indeterminate r || (found r && negb (removed r)).

Definition uninstall_outcome (removals : list ScopeRemoval) : result Outcome IoError :=
  let removed_scopes := map (λ r, scope_label (rm_scope r)) (filter (λ r, removed r = true) removals) in
  let problems :=
    map (λ r, scope_label (rm_scope r) ++ txt " scope: " ++
           default (txt "removal did not take effect") (rm_error r))
      (filter (λ r, unresolved r = true) removals) in
  match problems with
  | _ :: _ =>
      let removed_note :=
        match removed_scopes with
        | [] => txt "nothing was removed"
        | _ => txt "removed at: " ++ str_join (txt ", ") removed_scopes
        end in
      Err (MkIoError PermissionDenied
        (txt "dig-relay: could not fully uninstall service " ++ quoted SERVICE_LABEL ++ txt " (" ++
         removed_note ++ txt "). Unresolved: " ++ str_join (txt "; ") problems ++
         txt ". Re-run elevated (e.g. `sudo dig-relay uninstall --scope system`) — a registration left behind will keep starting the relay."))
  | [] =>
      match removed_scopes with
      | [] =>
          let scopes := str_join (txt " or ") (map (λ r, scope_label (rm_scope r)) removals) in
          let reasons :=
            omap (λ r, e ← rm_error r; Some (scope_label (rm_scope r) ++ txt " scope: " ++ e))
              removals in
          let msg :=
            txt "dig-relay: no service registration for " ++ quoted SERVICE_LABEL ++
            txt " was found at " ++ scopes ++ txt " scope — nothing to uninstall." in
          let msg :=
            match reasons with
            | [] => msg
            | _ => msg ++ txt " (" ++ str_join (txt "; ") reasons ++ txt ")"
            end in
          Err (MkIoError NotFound msg)
      | _ =>
          Ok (MkOutcome
            (txt "dig-relay: uninstalled service " ++ quoted SERVICE_LABEL ++ txt " at " ++
             str_join (txt " + ") removed_scopes ++ txt " scope")
            (JObj [("installed"%string, JBool false); ("registered"%string, JBool false);
              ("label"%string, JStr SERVICE_LABEL);
              ("removed_scopes"%string, JArr (map JStr removed_scopes));
              ("scopes"%string, JArr (map removal_to_json removals))]))
      end
  end.

(** ** The machine *)

Record ToolOutput := MkToolOutput {
  succeeded : bool;
  code : option Z;
  stdout : list Z;
  stderr : str }.

(** What the operations use of the operating system, of the service-manager crate and of the
    process. A tool's standard error is its lossy decoding. [set_user_level] is the error of a
    platform without a user-level manager. *)
Class Machine := {
  OS : Type;
  platform : Platform;
  geteuid : Z;
  current_exe : result str IoError;
  run_tool : str → list str → OS → result ToolOutput str;
  Label : Type;
  parse_label : str → result Label str;
  to_script_name : Label → str;
  to_qualified_name : Label → str;
  native : result unit IoError;
  set_user_level : result unit str;
  manager_start : ServiceScope → Label → OS → result unit IoError * OS;
  manager_stop : ServiceScope → Label → OS → result unit IoError * OS;
  manager_uninstall : ServiceScope → Label → OS → result unit IoError * OS;
  manager_install : ServiceScope → Label → InstallPlan → OS → result unit IoError * OS }.

Section operations.
Context `{Machine}.

Definition label : result Label IoError :=
  match parse_label SERVICE_LABEL with
  | Ok l => Ok l
  | Err e => Err (MkIoError InvalidInput e)
  end.

(** On Windows elevation is what [net session] says; elsewhere every process counts as elevated. *)
Definition is_elevated (w : OS) : bool :=
  match platform with
  | Windows =>
      match run_tool (txt "net") [txt "session"] w with Ok out => succeeded out | Err _ => false end
  | _ => true
  end.

Definition is_root (w : OS) : bool :=
  match platform with Windows => is_elevated w | _ => geteuid =? 0 end.

Definition manager_at (scope : ServiceScope) : result unit IoError :=
  _ <-? native;
  match scope with
  | UserScope =>
      match set_user_level with
      | Ok _ => Ok tt
      | Err e => Err (MkIoError Unsupported
          (txt "dig-relay: this platform has no user-level service manager: " ++ e))
      end
  | SystemScope => Ok tt
  end.

Definition os_native_service_name (l : Label) : str :=
  match platform with OtherUnix => to_script_name l | _ => to_qualified_name l end.

(** The effective uid as the [id] tool prints it. *)
Definition unix_uid (w : OS) : option Z :=
  match run_tool (txt "id") [txt "-u"] w with
  | Ok out => s ← utf8_decode (stdout out); parse_uint u32_max (trim s)
  | Err _ => None
  end.

Definition query_installed (service_name : str) (scope : ServiceScope) (w : OS) : Registration :=
  match platform with
  | Windows =>
      match run_tool (txt "sc.exe") [txt "query"; service_name] w with
      | Ok out => classify_sc_probe (succeeded out) (code out)
      | Err e => probe_tool_unavailable (txt "sc.exe") e
      end
  | MacOs =>
      let domain :=
        match scope with
        | UserScope =>
            txt "gui/" ++ chars (dec20 (default 0 (unix_uid w))) ++ txt "/" ++ service_name
        | SystemScope => txt "system/" ++ service_name
        end in
      match run_tool (txt "launchctl") [txt "print"; domain] w with
      | Ok out => classify_launchctl_probe (succeeded out) (code out) (stderr out)
      | Err e => probe_tool_unavailable (txt "launchctl") e
      end
  | OtherUnix =>
      let unit_ := service_name ++ txt ".service" in
      let user := match scope with UserScope => [txt "--user"] | SystemScope => [] end in
      match run_tool (txt "systemctl") (user ++ [txt "cat"; unit_]) w with
      | Ok out => classify_systemctl_probe (succeeded out) (stderr out)
      | Err e => probe_tool_unavailable (txt "systemctl") e
      end
  end.

(** An operation of the manager under the service's label. *)
Definition with_label (op : Label → OS → result unit IoError * OS) (w : OS)
    : result unit IoError * OS :=
  match label with Ok l => op l w | Err e => (Err e, w) end.

(** [RelayServiceBackend]. *)
Definition relay_backend (scope : ServiceScope) : ServiceBackend OS := {|
  registration := λ w,
    match label with
    | Ok l => query_installed (os_native_service_name l) scope w
    | Err e => Unknown (txt "could not build the service label: " ++ io_text e)
    end;
  stop_ := with_label (manager_stop scope);
  delete_ := with_label (manager_uninstall scope);
  create_ := λ plan, with_label (λ l, manager_install scope l plan)
|}.

Definition relay_backend_new (scope : ServiceScope) : result (ServiceBackend OS) IoError :=
  _ <-? manager_at scope; Ok (relay_backend scope).

(** ** The operations *)

Definition install_plan (config : RelayServerConfig) (program_ : str) : InstallPlan := {|
  program := program_;
  args := [if is_windows platform then txt "run-service" else txt "serve"];
  environment := install_environment config;
  autostart := true
|}.

(** What [install] says about the migration. *)
Definition migration_note (m : ScopeRemoval) : str :=
  if removed m then
    10 :: txt "  migrated: removed the previous " ++ scope_label (rm_scope m) ++
    txt "-level registration"
  else if found m || indeterminate m then
    10 :: txt "  WARNING: a " ++ scope_label (rm_scope m) ++
    txt "-level registration may still exist and could also bind these ports (" ++
    default (txt "removal did not take effect") (rm_error m) ++
    txt "). Remove it with: dig-relay uninstall --scope " ++ scope_label (rm_scope m)
  else [].

Definition install_outcome (config : RelayServerConfig) (resolved : ServiceScope) (program_ : str)
    (migration : option ScopeRemoval) : Outcome :=
  let scope_str := scope_label resolved in
  MkOutcome
    (txt "dig-relay: installed as a " ++ scope_str ++ txt "-level service " ++
     quoted SERVICE_LABEL ++ 10 :: txt "  program: " ++ program_ ++
     10 :: txt "  relay:   ws://" ++ chars (sa_to_string (listen config)) ++
     10 :: txt "  health:  http://" ++ chars (sa_to_string (health_listen config)) ++
     10 :: txt "  Start it now with: dig-relay start" ++
     match migration with Some m => migration_note m | None => [] end)
    (JObj [("installed"%string, JBool true); ("registered"%string, JBool true);
      ("started"%string, JBool false); ("label"%string, JStr SERVICE_LABEL);
      ("scope"%string, JStr scope_str); ("program"%string, JStr program_);
      ("listen"%string, JStr (chars (sa_to_string (listen config))));
      ("health_listen"%string, JStr (chars (sa_to_string (health_listen config))));
      ("migration"%string,
        match migration with Some m => removal_to_json m | None => JNull end)]).

(** The scope to migrate from, where the platform has one and its manager is there. *)
Definition other_backend (resolved : ServiceScope) : option (ServiceBackend OS * ServiceScope) :=
  if PREFERS_USER_LEVEL platform then
    match relay_backend_new (other_scope resolved) with
    | Ok b => Some (b, other_scope resolved)
    | Err _ => None
    end
  else None.

Definition install (config : RelayServerConfig) (scope : ScopeChoice) (w : OS)
    : result Outcome IoError * OS :=
  if is_windows platform && negb (is_elevated w) then
    (Err (MkIoError PermissionDenied (txt "dig-relay: installing a Windows service requires an elevated (Administrator) console. Re-run this in a terminal opened with " ++ quoted (txt "Run as administrator") ++ txt ".")), w)
  else
    let user := PREFERS_USER_LEVEL platform in
    let resolved := resolve_scope scope user (is_root w) in
    let ready :=
      _ <-? ensure_privilege_for_scope resolved user (is_root w);
      target <-? relay_backend_new resolved;
      program_ <-? current_exe;
      Ok (target, program_) in
    match ready with
    | Err e => (Err e, w)
    | Ok (target, program_) =>
        let plan := install_plan config program_ in
        match install_at_scope target (other_backend resolved) plan w with
        | (Ok migration, w) => (Ok (install_outcome config resolved program_ migration), w)
        | (Err e, w) => (Err e, w)
        end
    end.

(** The removals of [uninstall], the first scope as requested and the others swept. *)
Fixpoint remove_scopes (mode : RemovalMode) (scopes : list ServiceScope) (w : OS)
    : list ScopeRemoval * OS :=
  match scopes with
  | [] => ([], w)
  | s :: rest =>
      let '(r, w) :=
        match relay_backend_new s with
        | Ok backend => remove_registration backend s mode w
        | Err e => (unreachable s mode (io_text e), w)
        end in
      let '(rs, w) := remove_scopes Swept rest w in (r :: rs, w)
  end.

Definition uninstall (scope : ScopeChoice) (w : OS) : result Outcome IoError * OS :=
  if is_windows platform && negb (is_elevated w) then
    (Err (MkIoError PermissionDenied (txt "dig-relay: uninstalling a Windows service requires an elevated (Administrator) console.")), w)
  else
    let scopes := uninstall_scopes scope (PREFERS_USER_LEVEL platform) (is_root w) in
    let '(removals, w) := remove_scopes Requested scopes w in
    (uninstall_outcome removals, w).

(** [start] and [stop] differ in the manager's operation and in what they report. *)
Definition control (op : ServiceScope → Label → OS → result unit IoError * OS) (verb field : string)
    (scope : ScopeChoice) (w : OS) : result Outcome IoError * OS :=
  let resolved := resolve_scope scope (PREFERS_USER_LEVEL platform) (is_root w) in
  match manager_at resolved with
  | Err e => (Err e, w)
  | Ok _ =>
      match with_label (op resolved) w with
      | (Err e, w) => (Err e, w)
      | (Ok _, w) =>
          (Ok (MkOutcome
             (txt "dig-relay: " ++ chars verb ++ txt " requested for " ++ quoted SERVICE_LABEL)
             (JObj [(field, JBool true); ("label"%string, JStr SERVICE_LABEL);
               ("scope"%string, JStr (scope_label resolved))])), w)
      end
  end.

Definition start : ScopeChoice → OS → result Outcome IoError * OS :=
  control manager_start "start" "started".
Definition stop : ScopeChoice → OS → result Outcome IoError * OS :=
  control manager_stop "stop" "stopped".
End operations.

(** ** Status *)

Definition loopback_probe_addr (addr : SocketAddr) : SocketAddr :=
  if negb (ip_is_unspecified (sa_ip addr)) then addr
  else
    let loopback :=
      if sa_is_ipv6 addr then IpV6 (MkV6 0 0 0 0 0 0 0 1) else IpV4 (MkV4 127 0 0 1) in
    sa_new loopback (sa_port addr).

(** [str::split_whitespace]: the pieces between runs of white space; [word] is the one in progress,
    reversed. *)
Fixpoint split_whitespace_from (word s : str) : list str :=
  let done := match word with [] => [] | _ => [rev word] end in
  match s with
  | [] => done
  | c :: s =>
      if is_whitespace c then done ++ split_whitespace_from [] s
      else split_whitespace_from (c :: word) s
  end.
Definition split_whitespace : str → list str := split_whitespace_from [].

Definition is_2xx_status_line (response_head : str) : bool :=
  let first := default [] (head (lines response_head)) in
  if negb (starts_with (chars "HTTP/") first) then false
  else
    match split_whitespace first !! 1%nat with
    | Some c =>
        match parse_uint u16_max c with
        | Some n => (200 <=? n) && (n <? 300)
        | None => false
        end
    | None => false
    end.

(** The connection of the probe: the text, lossily decoded, of the first bytes the server at an
    address answers a request with (at most 256; none when reading fails), [None] when it refuses
    the connection, an error when the request cannot be sent. *)
Class Network := exchange : SocketAddr → list Z → result (option str) IoError.

Definition probe_health `{Network} (addr : SocketAddr) : result bool IoError :=
  let connect_addr := loopback_probe_addr addr in
  let crlf := [13; 10] in
  let req := txt "GET /health HTTP/1.0" ++ crlf ++ txt "Host: " ++ chars (sa_to_string connect_addr) ++
    crlf ++ txt "Connection: close" ++ crlf ++ crlf in
  answer <-? exchange connect_addr (utf8_encode req);
  Ok match answer with Some head => is_2xx_status_line head | None => false end.

Definition status `{Network} (config : RelayServerConfig) : result Outcome IoError :=
  let addr := health_listen config in
  let url := txt "http://" ++ chars (sa_to_string addr) ++ txt "/health" in
  let serving := match probe_health addr with Ok b => b | Err _ => false end in
  Ok (MkOutcome
    (if serving then txt "dig-relay: SERVING (health " ++ url ++ txt ")"
     else txt "dig-relay: NOT responding at " ++ url ++
          txt " (the service may be stopped or not installed)")
    (JObj [("serving"%string, JBool serving); ("health_url"%string, JStr url)])).
