(* ===== verification/ServiceProps.v ===== *)
(** * Properties of the service operations

    What [install] and [uninstall] (Service.v) do to the registrations of a machine whose service
    manager and probe tools behave as documented ([MachineLaws]), and an instance of such a machine.

    The specification is the table of registrations by scope: [uninstall] must not report success
    while one is left in its scopes, and [install] must end with the requested one in place and say
    so when the other may remain. *)

From S2P Require Import Prelude Net Text ProxyProtocol NetText SockText Config Environment Service.

(** ** A truthful machine *)

(** The documented absence signals of the probe tools. *)
Definition says_absent (p : Platform) (out : ToolOutput) : Prop :=
  match p with
  | Windows => code out = Some 1060
  | MacOs => code out = Some 113 ∨
      contains_any (stderr out) ["could not find service"; "no such process"; "no such file"]%string
        = true
  | OtherUnix =>
      contains_any (stderr out) ["no files found for"; "could not be found"]%string = true
  end.

(** The tool and arguments that query a registration. *)
Definition probe_command `{Machine} (l : Label) (scope : ServiceScope) (w : OS) : str * list str :=
  match platform with
  | Windows => (txt "sc.exe", [txt "query"; to_qualified_name l])
  | MacOs => (txt "launchctl", [txt "print";
      match scope with
      | UserScope =>
          txt "gui/" ++ chars (dec20 (default 0 (unix_uid w))) ++ txt "/" ++ to_qualified_name l
      | SystemScope => txt "system/" ++ to_qualified_name l
      end])
  | OtherUnix => (txt "systemctl",
      match scope with UserScope => [txt "--user"] | SystemScope => [] end ++
      [txt "cat"; to_script_name l ++ txt ".service"])
  end.

(** The registrations of a machine, and what its manager's operations and its tools' answers mean
    for them. Nothing is assumed of a tool that cannot be run or that fails in another way, nor
    that a registration that exists is seen. *)
Class MachineLaws `{Machine} := {
  registered : OS → ServiceScope → option InstallPlan;
  stop_keeps s l w s' : registered (manager_stop s l w).2 s' = registered w s';
  uninstall_other s l w s' :
    s' ≠ s → registered (manager_uninstall s l w).2 s' = registered w s';
  uninstall_ok s l w :
    (manager_uninstall s l w).1 = Ok tt → registered (manager_uninstall s l w).2 s = None;
  uninstall_err s l w :
    registered w s = None → registered (manager_uninstall s l w).2 s = None;
  install_other s l plan w s' :
    s' ≠ s → registered (manager_install s l plan w).2 s' = registered w s';
  install_ok s l plan w :
    (manager_install s l plan w).1 = Ok tt →
    registered (manager_install s l plan w).2 s = Some plan;
  no_user_scope w :
    platform = Windows ∨ is_ok set_user_level = false → registered w UserScope = None;
  probe_absent l scope w out :
    parse_label SERVICE_LABEL = Ok l →
    run_tool (probe_command l scope w).1 (probe_command l scope w).2 w = Ok out →
    succeeded out = false → says_absent platform out → registered w scope = None }.

Section laws.
Context `{ML : MachineLaws}.

(** The probe reports absence only where nothing is registered. *)
Lemma registration_absent scope w :
  registration (relay_backend scope) w = Absent → registered w scope = None.
Proof.
  simpl. unfold label. destruct (parse_label SERVICE_LABEL) as [l|] eqn:El; [|done].
  pose proof (probe_absent l scope w) as Hp. unfold probe_command, says_absent in Hp.
  unfold query_installed, os_native_service_name. destruct platform.
  - destruct (run_tool _ _ w) as [out|]; [|done]. unfold classify_sc_probe.
    destruct (succeeded out) eqn:Es; [done|]. case_bool_decide; [|done]. by eauto.
  - destruct (run_tool _ _ w) as [out|] eqn:Er; [|done]. unfold classify_launchctl_probe.
    destruct (succeeded out) eqn:Es; [done|].
    destruct (bool_decide _ || _) eqn:E; [|done]. intros _. apply (Hp out); [done..|].
    apply orb_true_iff in E as [E%bool_decide_eq_true|E]; tauto.
  - destruct (run_tool _ _ w) as [out|] eqn:Er; [|done]. unfold classify_systemctl_probe.
    destruct (succeeded out) eqn:Es; [done|]. destruct (contains_any _ _) eqn:E; [|done].
    intros _. by apply (Hp out).
Qed.

Lemma stop_registered scope w s : registered (stop_ (relay_backend scope) w).2 s = registered w s.
Proof. simpl. unfold with_label. destruct label; [apply stop_keeps|done]. Qed.

Lemma delete_other scope w s :
  s ≠ scope → registered (delete_ (relay_backend scope) w).2 s = registered w s.
Proof. simpl. unfold with_label. intros ?. destruct label; [by apply uninstall_other|done]. Qed.

Lemma delete_ok scope w :
  (delete_ (relay_backend scope) w).1 = Ok tt →
  registered (delete_ (relay_backend scope) w).2 scope = None.
Proof. simpl. unfold with_label. destruct label; [apply uninstall_ok|done]. Qed.

Lemma delete_adds_nothing scope w s :
  registered w s = None → registered (delete_ (relay_backend scope) w).2 s = None.
Proof.
  intros E. destruct (decide (s = scope)) as [->|Hne]; [|by rewrite delete_other].
  simpl. unfold with_label. destruct label; [by apply uninstall_err|done].
Qed.

(** ** One removal *)

(** What an attempt at a scope may leave: it touches no other scope and adds nothing, and a
    registration left at its scope is reported as unresolved. *)
Definition honest (scope : ServiceScope) (w : OS) (r : ScopeRemoval) (w' : OS) : Prop :=
  rm_scope r = scope ∧
  (∀ s, s ≠ scope → registered w' s = registered w s) ∧
  (registered w scope = None → registered w' scope = None) ∧
  (is_Some (registered w' scope) → unresolved r = true ∧ removed r = false).

Lemma remove_registration_honest scope mode w :
  honest scope w (remove_registration (relay_backend scope) scope mode w).1
    (remove_registration (relay_backend scope) scope mode w).2.
Proof.
  pose proof (registration_absent scope w) as Habs. unfold remove_registration.
  set (probe := registration (relay_backend scope) w) in *.
  destruct (bool_decide (mode = Swept) && negb (is_present probe)) eqn:E.
  - apply andb_true_iff in E as [_ E]. unfold honest. simpl. split_and!; [done|done|done|].
    intros [p Hp]. unfold unresolved. simpl. destruct probe; [done| |done].
    by rewrite Habs in Hp.
  - clear E. set (w1 := (stop_ (relay_backend scope) w).2).
    assert (∀ s, registered w1 s = registered w s) as Hst by (intros; apply stop_registered).
    pose proof (delete_other scope w1) as Ho. pose proof (delete_ok scope w1) as Hok.
    pose proof (delete_adds_nothing scope w1 scope) as Hadd.
    destruct (delete_ (relay_backend scope) w1) as [[[]|e] w2]; simpl in Ho, Hok, Hadd;
      unfold honest; simpl; (split_and!; [done| | |]).
    + intros s Hs. by rewrite Ho, Hst.
    + rewrite <- Hst. exact Hadd.
    + rewrite Hok by done. by intros [? ?].
    + intros s Hs. by rewrite Ho, Hst.
    + rewrite <- Hst. exact Hadd.
    + intros [p Hp]. split; [|done]. unfold unresolved. simpl.
      destruct probe; simpl; [done| |by rewrite orb_true_l || done].
      rewrite Hadd in Hp; [done|]. rewrite Hst. by apply Habs.
Qed.

(** ** A sequence of removals *)

Lemma honest_chain scope w r w1 : honest scope w r w1 →
  ∀ s, registered w s = None → registered w1 s = None.
Proof.
  intros (_ & Ho & Ha & _) s E. destruct (decide (s = scope)) as [->|Hne]; [auto|by rewrite Ho].
Qed.

(** One round of the loop, on a machine with a service manager. *)
Definition attempt (s : ServiceScope) (mode : RemovalMode) (w : OS) : ScopeRemoval * OS :=
  match relay_backend_new s with
  | Ok backend => remove_registration backend s mode w
  | Err e => (unreachable s mode (io_text e), w)
  end.

Lemma relay_backend_new_Ok s b : relay_backend_new s = Ok b → b = relay_backend s.
Proof. unfold relay_backend_new. destruct (manager_at s); simpl; [by intros [= <-]|done]. Qed.

Lemma attempt_honest s mode w :
  native = Ok tt → honest s w (attempt s mode w).1 (attempt s mode w).2.
Proof.
  intros Hn. unfold attempt. destruct (relay_backend_new s) as [b|e] eqn:E.
  - apply relay_backend_new_Ok in E as ->. apply remove_registration_honest.
  - unfold honest. simpl. split_and!; [done|done|done|].
    unfold relay_backend_new, manager_at in E. rewrite Hn in E. simpl in E.
    destruct s; [done|]. destruct set_user_level eqn:Eu; [done|].
    rewrite no_user_scope by (right; by rewrite Eu). by intros [? ?].
Qed.

Lemma remove_scopes_cons mode s rest w :
  remove_scopes mode (s :: rest) w =
  let '(r, w) := attempt s mode w in
  let '(rs, w) := remove_scopes Swept rest w in (r :: rs, w).
Proof. reflexivity. Qed.

Lemma remove_scopes_honest mode scopes w :
  native = Ok tt → NoDup scopes →
  let '(rs, w') := remove_scopes mode scopes w in
  (∀ s, registered w s = None → registered w' s = None) ∧
  (∀ s, s ∉ scopes → registered w' s = registered w s) ∧
  (∀ s, s ∈ scopes → is_Some (registered w' s) → ∃ r, r ∈ rs ∧ unresolved r = true).
Proof.
  intros Hn. revert mode w. induction scopes as [|s scopes IH]; intros mode w.
  { intros _. split_and!; [done|done|]. by intros s ?%not_elem_of_nil. }
  intros [Hs Hnd]%NoDup_cons. rewrite remove_scopes_cons.
  pose proof (attempt_honest s mode w Hn) as Hh. destruct (attempt s mode w) as [r w1].
  specialize (IH Swept w1 Hnd). destruct (remove_scopes Swept scopes w1) as [rs w2].
  pose proof (honest_chain _ _ _ _ Hh) as Hadd.
  destruct Hh as (_ & Ho & _ & Hleft), IH as (I1 & I2 & I3). split_and!.
  - auto.
  - intros s' [Hne Hin]%not_elem_of_cons. rewrite I2 by done. by apply Ho.
  - intros s' [->|Hin]%elem_of_cons Hr.
    + exists r. split; [left|]. rewrite I2 in Hr by done. by apply Hleft.
    + destruct (I3 s' Hin Hr) as (r' & ? & ?). exists r'. by split; [right|].
Qed.

Lemma no_manager_removals mode scopes w e :
  native = Err e →
  (remove_scopes mode scopes w).2 = w ∧
  (scopes ≠ [] → mode = Requested →
   ∃ r, r ∈ (remove_scopes mode scopes w).1 ∧ unresolved r = true).
Proof.
  intros Hn. revert mode. induction scopes as [|s scopes IH]; intros mode; [done|].
  rewrite remove_scopes_cons.
  assert (attempt s mode w = (unreachable s mode (io_text e), w)) as ->.
  { unfold attempt, relay_backend_new, manager_at. by rewrite Hn. }
  destruct (IH Swept) as [E _]. destruct (remove_scopes Swept scopes w) as [rs w']. simpl in *.
  split; [done|]. intros _ ->. eexists. split; [left|done].
Qed.

Lemma uninstall_outcome_unresolved rs r :
  r ∈ rs → unresolved r = true →
  ∃ e, uninstall_outcome rs = Err e ∧ io_kind e = PermissionDenied.
Proof.
  intros Hr Hu. unfold uninstall_outcome.
  assert (r ∈ filter (λ r, unresolved r = true) rs) as Hin by (by apply list_elem_of_filter).
  destruct (filter (λ r, unresolved r = true) rs) as [|x l]; [by apply not_elem_of_nil in Hin|].
  simpl. eexists. split; [reflexivity|done].
Qed.

Lemma NoDup_uninstall_scopes choice user root : NoDup (uninstall_scopes choice user root).
Proof.
  unfold uninstall_scopes. destruct (negb user || _); [apply NoDup_singleton|].
  set (s := resolve_scope _ _ _). apply NoDup_cons. split; [|apply NoDup_singleton].
  rewrite list_elem_of_singleton. by destruct s.
Qed.

Lemma uninstall_scopes_nonempty choice user root : uninstall_scopes choice user root ≠ [].
Proof. unfold uninstall_scopes. by destruct (negb user || _). Qed.

(** ** Installation *)

Lemma create_other scope plan w s :
  s ≠ scope → registered (create_ (relay_backend scope) plan w).2 s = registered w s.
Proof. simpl. unfold with_label. intros ?. destruct label; [by apply install_other|done]. Qed.

Lemma create_ok scope plan w :
  (create_ (relay_backend scope) plan w).1 = Ok tt →
  registered (create_ (relay_backend scope) plan w).2 scope = Some plan.
Proof. simpl. unfold with_label. destruct label; [apply install_ok|done]. Qed.

(** The migration on the way to an installed service. *)
Definition migrated (w : OS) (scope : ServiceScope) (m : option ScopeRemoval) (w' : OS) : Prop :=
  is_Some (registered w' scope) →
  ∃ r, m = Some r ∧ rm_scope r = scope ∧ unresolved r = true ∧ removed r = false.

Lemma other_backend_Some scope b s :
  other_backend scope = Some (b, s) → b = relay_backend s ∧ s = other_scope scope.
Proof.
  unfold other_backend. destruct (PREFERS_USER_LEVEL platform); [|done].
  destruct (relay_backend_new (other_scope scope)) as [b'|] eqn:E; [|done].
  intros [= <- <-]. by apply relay_backend_new_Ok in E.
Qed.

Lemma other_backend_None scope w :
  native = Ok tt → (PREFERS_USER_LEVEL platform = false → scope = SystemScope) →
  other_backend scope = None → registered w (other_scope scope) = None.
Proof.
  intros Hn Hp. unfold other_backend. destruct (PREFERS_USER_LEVEL platform) eqn:Ep.
  - destruct (relay_backend_new (other_scope scope)) as [b'|] eqn:E; [done|]. intros _.
    unfold relay_backend_new, manager_at in E. rewrite Hn in E. simpl in E.
    destruct (other_scope scope); [done|]. destruct set_user_level eqn:Eu; [done|].
    apply no_user_scope. right. by rewrite Eu.
  - rewrite Hp by done. intros _. apply no_user_scope. left.
    unfold PREFERS_USER_LEVEL, is_windows in Ep. by destruct platform.
Qed.

Lemma install_at_scope_spec scope plan w :
  native = Ok tt → (PREFERS_USER_LEVEL platform = false → scope = SystemScope) →
  match install_at_scope (relay_backend scope) (other_backend scope) plan w with
  | (Ok m, w') => registered w' scope = Some plan ∧ migrated w (other_scope scope) m w'
  | (Err e, _) => ∃ w1, (create_ (relay_backend scope) plan w1).1 = Err e
  end.
Proof.
  intros Hn Hp. unfold install_at_scope.
  assert (∃ m w1, (match other_backend scope with
    | Some (backend, s) => let '(r, w) := remove_registration backend s Swept w in (Some r, w)
    | None => (None, w) end) = (m, w1) ∧ migrated w (other_scope scope) m w1)
    as (m & w1 & -> & Hm).
  { destruct (other_backend scope) as [[b s]|] eqn:E.
    - apply other_backend_Some in E as [-> ->].
      pose proof (remove_registration_honest (other_scope scope) Swept w) as Hh.
      destruct (remove_registration _ _ _ w) as [r w1]. eexists _, _. split; [done|].
      intros Hr. destruct Hh as (H1 & _ & _ & H4). destruct (H4 Hr). by exists r.
    - eexists _, _. split; [done|]. intros [? Hr]. by rewrite other_backend_None in Hr. }
  pose proof (create_other scope plan w1) as Ho. pose proof (create_ok scope plan w1) as Hok.
  destruct (create_ (relay_backend scope) plan w1) as [[[]|e] w2] eqn:Ec; simpl in Ho, Hok.
  - split; [by apply Hok|]. unfold migrated in *. by rewrite Ho by (by destruct scope).
  - exists w1. by rewrite Ec.
Qed.

Lemma migration_warns m :
  unresolved m = true → removed m = false →
  ∃ post, migration_note m = 10 :: txt "  WARNING: a " ++ scope_label (rm_scope m) ++ post.
Proof.
  unfold unresolved, migration_note. intros Hu Hr. rewrite Hr in *.
  rewrite andb_true_r, orb_comm in Hu. rewrite Hu. by eexists.
Qed.

Lemma install_outcome_warns config scope prog m :
  unresolved m = true → removed m = false →
  ∃ pre post, summary (install_outcome config scope prog (Some m)) =
    pre ++ (10 :: txt "  WARNING: a " ++ scope_label (rm_scope m) ++ post).
Proof.
  intros Hu Hr. destruct (migration_warns m Hu Hr) as [post E].
  unfold install_outcome. cbn [summary]. rewrite E.
  set (note := 10 :: txt "  WARNING: a " ++ scope_label (rm_scope m) ++ post).
  eexists _, post. fold note. rewrite ?app_comm_cons, ?app_assoc. reflexivity.
Qed.
End laws.

(** ** The operations *)

Lemma uninstall_spec `{ML : MachineLaws} choice w :
  let '(r, w') := uninstall choice w in
  let scopes := uninstall_scopes choice (PREFERS_USER_LEVEL platform) (is_root w) in
  (∀ s, registered w s = None → registered w' s = None) ∧
  (∀ s, s ∉ scopes → registered w' s = registered w s) ∧
  (∀ s, s ∈ scopes → is_Some (registered w' s) →
     ∃ e, r = Err e ∧ io_kind e = PermissionDenied).
Proof.
  unfold uninstall. destruct (is_windows platform && negb (is_elevated w)).
  { split_and!; [done|done|]. intros. by eexists. }
  set (scopes := uninstall_scopes _ _ _). destruct native as [[]|e] eqn:Hn.
  - pose proof (remove_scopes_honest Requested scopes w Hn (NoDup_uninstall_scopes _ _ _)) as Hr.
    destruct (remove_scopes Requested scopes w) as [rs w']. destruct Hr as (H1 & H2 & H3).
    split_and!; [done|done|]. intros s Hs Hreg. destruct (H3 s Hs Hreg) as (r & Hr & Hu).
    by eapply uninstall_outcome_unresolved.
  - destruct (no_manager_removals Requested scopes w e Hn) as [Hw Hr].
    destruct (remove_scopes Requested scopes w) as [rs w']. simpl in *. subst w'.
    split_and!; [done|done|]. intros _ _ _.
    destruct Hr as (r & Hr & Hu); [apply uninstall_scopes_nonempty|done|].
    by eapply uninstall_outcome_unresolved.
Qed.

Lemma install_spec `{ML : MachineLaws} config choice w :
  let resolved := resolve_scope choice (PREFERS_USER_LEVEL platform) (is_root w) in
  match install config choice w with
  | (Ok o, w') => ∃ prog, current_exe = Ok prog ∧
      registered w' resolved = Some (install_plan config prog) ∧
      (is_Some (registered w' (other_scope resolved)) →
       ∃ pre post, summary o =
         pre ++ (10 :: txt "  WARNING: a " ++ scope_label (other_scope resolved) ++ post))
  | (Err e, w') => w' = w ∨
      ∃ prog w1, current_exe = Ok prog ∧
        (create_ (relay_backend resolved) (install_plan config prog) w1).1 = Err e
  end.
Proof.
  intros resolved. unfold install. fold resolved.
  destruct (is_windows platform && negb (is_elevated w)); [by left|].
  destruct (ensure_privilege_for_scope _ _ _); simpl; [|by left].
  destruct (relay_backend_new resolved) as [target|] eqn:Et; simpl; [|by left].
  destruct current_exe as [prog|] eqn:Ex; simpl; [|by left].
  assert (native = Ok tt) as Hn.
  { unfold relay_backend_new, manager_at in Et. by destruct native as [[]|]. }
  apply relay_backend_new_Ok in Et as ->. set (plan := install_plan config prog).
  assert (PREFERS_USER_LEVEL platform = false → resolved = SystemScope) as Hp
    by (unfold resolved, resolve_scope; by intros ->).
  pose proof (install_at_scope_spec resolved plan w Hn Hp) as Hs.
  destruct (install_at_scope _ _ _ w) as [[m|e] w'].
  - destruct Hs as [Hreg Hm]. exists prog. split_and!; [done|done|]. intros Hleft.
    destruct (Hm Hleft) as (r & -> & <- & Hu & Hr). by apply install_outcome_warns.
  - right. destruct Hs as [w1 Hw1]. by exists prog, w1.
Qed.

(** ** Properties *)

(** C17: an uninstall never claims more than it did. It adds no registration and touches no scope but
    those it is to remove; and if a registration is left in one of those, for whatever reason (a
    probe that cannot read the scope, a manager that refuses), it ends in the error that says so:
    it reports neither success nor that there was nothing to uninstall. *)
Theorem uninstall_honest `{ML : MachineLaws} choice w :
  let '(r, w') := uninstall choice w in
  let scopes := uninstall_scopes choice (PREFERS_USER_LEVEL platform) (is_root w) in
  (∀ s, registered w s = None → registered w' s = None) ∧
  (∀ s, s ∉ scopes → registered w' s = registered w s) ∧
  (∀ s, s ∈ scopes → is_Some (registered w' s) →
     ∃ e, r = Err e ∧ io_kind e = PermissionDenied).
Proof. apply uninstall_spec. Qed.

(** C18: what an install ends with. When it succeeds, the service is registered at the resolved scope
    with the plan made from the configuration, and if a registration is left at the other scope the
    message warns of it, naming the scope. When it fails, either nothing was changed, as for every
    missing privilege or manager, or the service manager refused the new registration. *)
Theorem install_exact `{ML : MachineLaws} config choice w :
  let resolved := resolve_scope choice (PREFERS_USER_LEVEL platform) (is_root w) in
  match install config choice w with
  | (Ok o, w') => ∃ prog, current_exe = Ok prog ∧
      registered w' resolved = Some (install_plan config prog) ∧
      (is_Some (registered w' (other_scope resolved)) →
       ∃ pre post, summary o =
         pre ++ (10 :: txt "  WARNING: a " ++ scope_label (other_scope resolved) ++ post))
  | (Err e, w') => w' = w ∨
      ∃ prog w1, current_exe = Ok prog ∧
        (create_ (relay_backend resolved) (install_plan config prog) w1).1 = Err e
  end.
Proof. apply install_spec. Qed.

(** ** A machine *)

(** A systemd host seen by root, whose user scope cannot be read: [systemctl --user] has no bus to
    talk to. The state is the registration at the system scope and at the user scope. *)
Definition ex_os : Type := option InstallPlan * option InstallPlan.

Definition ex_get (w : ex_os) (s : ServiceScope) : option InstallPlan :=
  match s with SystemScope => w.1 | UserScope => w.2 end.
Definition ex_set (w : ex_os) (s : ServiceScope) (p : option InstallPlan) : ex_os :=
  match s with SystemScope => (p, w.2) | UserScope => (w.1, p) end.

Definition ex_systemctl (args : list str) (w : ex_os) : ToolOutput :=
  if bool_decide (head args = Some (txt "--user")) then
    MkToolOutput false (Some 1) [] (txt "Failed to connect to bus: No medium found")
  else if is_some w.1 then MkToolOutput true (Some 0) [] []
  else MkToolOutput false (Some 1) [] (txt "No files found for dignetwork-dig-relay.service.").

Definition machine_example : Machine := {|
  OS := ex_os;
  platform := OtherUnix;
  geteuid := 0;
  current_exe := Ok (txt "/usr/bin/dig-relay");
  run_tool := λ tool args w,
    if bool_decide (tool = txt "systemctl") then Ok (ex_systemctl args w)
    else Err (txt "No such file or directory");
  Label := unit;
  parse_label := λ _, Ok tt;
  to_script_name := λ _, txt "dignetwork-dig-relay";
  to_qualified_name := λ _, SERVICE_LABEL;
  native := Ok tt;
  set_user_level := Ok tt;
  manager_start := λ _ _ w, (Ok tt, w);
  manager_stop := λ _ _ w, (Ok tt, w);
  manager_uninstall := λ s _ w,
    match s with
    | SystemScope => (Ok tt, ex_set w s None)
    | UserScope => (Err (MkIoError OtherKind (txt "Failed to connect to bus")), w)
    end;
  manager_install := λ s _ plan w, (Ok tt, ex_set w s (Some plan))
|}.

Definition machine_example_laws : @MachineLaws machine_example.
Proof.
  refine (@Build_MachineLaws machine_example ex_get _ _ _ _ _ _ _ _).
  - done.
  - intros [] [] w []; done.
  - intros [] [] w; done.
  - intros [] [] w; done.
  - intros [] [] plan w []; done.
  - intros [] [] plan w; done.
  - intros w [|]; done.
  - intros [] [] w out _ Hr Hs Ha.
    + change (@Ok ToolOutput str (ex_systemctl [txt "cat"; txt "dignetwork-dig-relay.service"] w)
        = Ok out) in Hr.
      injection Hr as <-. unfold ex_systemctl in Hs. rewrite bool_decide_false in Hs
        by (vm_compute; discriminate). by destruct w as [[p|] u].
    + change (@Ok ToolOutput str (ex_systemctl
        [txt "--user"; txt "cat"; txt "dignetwork-dig-relay.service"] w) = Ok out) in Hr.
      injection Hr as <-. exfalso. revert Ha. unfold ex_systemctl.
      rewrite bool_decide_true by reflexivity. vm_compute. discriminate.
Defined.

#[local] Existing Instances machine_example machine_example_laws.

Definition ex_plan : InstallPlan := install_plan config_default (txt "/usr/bin/dig-relay").

(** Root uninstalls at both scopes: the system registration goes, the user's cannot be read nor
    removed, and the uninstall says so. *)
Lemma uninstall_honest_witness :
  let w : OS := (Some ex_plan, Some ex_plan) in
  (uninstall Auto w).2 = (None, Some ex_plan) ∧
  ∃ e, (uninstall Auto w).1 = Err e ∧ io_kind e = PermissionDenied.
Proof.
  intros w. split; [vm_compute; reflexivity|].
  pose proof (uninstall_honest Auto w) as Hu.
  destruct (uninstall Auto w) as [r w'] eqn:E. destruct Hu as (_ & _ & Hu). apply (Hu UserScope).
  - right. left.
  - assert (w' = (None, Some ex_plan)) as ->.
    { change w' with ((r, w').2). rewrite <- E. vm_compute. reflexivity. }
    eexists. reflexivity.
Defined.

(** Root installs beside a user registration nobody can read: the install succeeds with a warning. *)
Lemma install_exact_witness :
  let w : OS := (None, Some ex_plan) in
  (install config_default Auto w).2 = (Some ex_plan, Some ex_plan) ∧
  ∃ o pre post, (install config_default Auto w).1 = Ok o ∧
    summary o = pre ++ (10 :: txt "  WARNING: a " ++ txt "user" ++ post).
Proof.
  intros w. pose proof (install_exact config_default Auto w) as Hi. cbv zeta in Hi.
  assert (install config_default Auto w =
    (Ok (install_outcome config_default SystemScope (txt "/usr/bin/dig-relay")
      (Some (MkRemoval UserScope false false true (Some (txt "could not determine whether it is registered: `systemctl cat` failed without reporting the unit absent: Failed to connect to bus: No medium found"))))),
     (Some ex_plan, Some ex_plan))) as E by (vm_compute; reflexivity).
  rewrite E in *. split; [reflexivity|]. destruct Hi as (prog & _ & _ & Hw).
  destruct Hw as (pre & post & Hs); [eexists; reflexivity|]. eexists _, pre, post.
  split; [reflexivity|]. exact Hs.
Defined.
