(* ===== verification/Main.v ===== *)
(** * Starting the relay and the command line (src/src/lib.rs, src/src/main.rs, src/src/win_service.rs)

    Startup ([load_tls], [startup], [serve_with_shutdown]), the Windows service body
    ([run_service]) and the commands of the binary ([main]) with their output and exit codes. The
    file system, the runtime, the three listeners, the text of JSON values and of paths, and the
    Windows service control manager are parameters ([Process]). *)

From S2P Require Import Prelude Net Text ProxyProtocol NetText SockText Config Environment Service.
From S2P Require Import ServiceProps Tls.

(** ** The process *)

(** The branch of the [select!] that finishes first. *)
Inductive Ended : Type :=
| RelayEnded (r : result unit IoError)
| HealthEnded (r : result unit IoError)
| StunEnded (r : result unit IoError)
| ShutdownFired.

(** Whether the shutdown future can resolve: [serve] passes [pending], the service body the stop
    control. *)
Inductive Shutdown : Type := Pending | OnStop.

Inductive ServiceState : Type := Running | Stopped.

(** A report to the service control manager: the state, whether it accepts a stop, and the exit
    code. *)
Record ServiceStatus := MkStatus { current_state : ServiceState; accepts_stop : bool; win32_exit : Z }.

(** [first_to_end] is what ends the listeners started with a configuration and a TLS server;
    [register_handler] and [set_service_status] are the control manager's, [dispatcher] what
    becomes of the dispatcher's own call. *)
Class Process `{Machine} `{TlsLib} := {
  read : string → result (list Z) IoError;
  debug_path : string → str;
  json_to_string : Json → option str;
  new_multi_thread : result unit IoError;
  first_to_end : RelayServerConfig → option ServerConfig → Shutdown → Ended;
  register_handler : result unit str;
  set_service_status : ServiceStatus → result unit str;
  dispatcher : result unit IoError }.

Definition map_err {A E F} (f : E → F) (r : result A E) : result A F :=
  match r with Ok a => Ok a | Err e => Err (f e) end.

Section process.
Context `{Process}.

(** ** Startup *)

Definition read_identity_file (setting : string) (path : string) : result (list Z) IoError :=
  map_err (λ e, MkIoError (io_kind e)
    (txt "dig-relay: could not read " ++ txt setting ++ txt " " ++ debug_path path ++ txt ": " ++
     io_text e)) (read path).

Definition load_tls (config : RelayServerConfig) : result (option ServerConfig) IoError :=
  match tls_cert_path config, tls_key_path config with
  | Some cert_path, Some key_path =>
      cert_pem <-? read_identity_file "tls_cert_path" cert_path;
      key_pem <-? read_identity_file "tls_key_path" key_path;
      identity <-? map_err (MkIoError InvalidDataKind) (load_pem_identity cert_pem key_pem);
      server_config <-?
        map_err (MkIoError InvalidDataKind) (build_server_config identity.1 identity.2);
      Ok (Some server_config)
  | _, _ => Ok None
  end.

(** What [serve_with_shutdown] does before it starts anything. *)
Definition startup (config : RelayServerConfig) : result (option ServerConfig) IoError :=
  _ <-? map_err (λ e, MkIoError InvalidInput (txt e)) (validate config);
  load_tls config.

Definition select (e : Ended) : result unit IoError :=
  match e with
  | RelayEnded r | HealthEnded r | StunEnded r => r
  | ShutdownFired => Ok tt
  end.

Definition serve_with_shutdown (config : RelayServerConfig) (shutdown : Shutdown)
    : result unit IoError :=
  tls <-? startup config; select (first_to_end config tls shutdown).

Definition serve (config : RelayServerConfig) : result unit IoError :=
  serve_with_shutdown config Pending.

(** ** The Windows service body *)

(** Its result, and the reports made to the control manager, in order. An error of the outer
    [result] is a panic. *)
Definition run_service (env : Env) : result (result unit IoError * list ServiceStatus) str :=
  config <-? config_from_env env;
  let other e := MkIoError OtherKind e in
  match register_handler with
  | Err e => Ok (Err (other e), [])
  | Ok _ =>
      let running := MkStatus Running true 0 in
      match set_service_status running with
      | Err e => Ok (Err (other e), [])
      | Ok _ =>
          match new_multi_thread with
          | Err e => Ok (Err e, [running])
          | Ok _ =>
              let result_of := serve_with_shutdown config OnStop in
              let exit := if is_ok result_of then 0 else 1 in
              Ok (result_of, [running; MkStatus Stopped false exit])
          end
      end
  end.

(** ** The commands *)

Definition SUCCESS : Z := 0.
Definition FAILURE : Z := 1.

(** A line on standard output or on standard error. *)
Inductive Line : Type := Out (s : str) | ErrLine (s : str).

Record Exited := MkExited { printed : list Line; exit_code : Z }.

(** Indexing a JSON value by a key: [Null] where it is missing. *)
Fixpoint json_field (key : string) (fields : list (string * Json)) : Json :=
  match fields with
  | [] => JNull
  | (k, v) :: fields => if decide (k = key) then v else json_field key fields
  end.
Definition json_index (j : Json) (key : string) : Json :=
  match j with JObj fields => json_field key fields | _ => JNull end.

Definition is_serving (o : Outcome) : bool :=
  match json_index (result_ o) "serving" with JBool b => b | _ => false end.

Definition outcome_line (o : Outcome) : str :=
  default [] (json_to_string (JObj [("ok"%string, JBool true); ("result"%string, result_ o)])).

Definition error_line (message : str) : str :=
  default [] (json_to_string (JObj [("ok"%string, JBool false);
    ("error"%string, JObj [("message"%string, JStr message)])])).

Definition print_outcome (json : bool) (o : Outcome) : Line :=
  if json then Out (outcome_line o) else Out (summary o).

Definition fail (json : bool) (e : IoError) : Exited :=
  MkExited [if json then Out (error_line (io_text e))
            else ErrLine (txt "dig-relay: error: " ++ io_text e)] FAILURE.

Definition emit (json : bool) (r : result Outcome IoError) : Exited :=
  match r with
  | Ok o => MkExited [print_outcome json o] SUCCESS
  | Err e => fail json e
  end.

Definition run_serve (config : RelayServerConfig) : Exited :=
  match validate config with
  | Err e => MkExited [ErrLine (txt "dig-relay: invalid config: " ++ txt e)] 2
  | Ok _ =>
      match new_multi_thread with
      | Err e => MkExited [ErrLine (txt "dig-relay: cannot start runtime: " ++ io_text e)] FAILURE
      | Ok _ =>
          match serve config with
          | Ok _ => MkExited [] SUCCESS
          | Err e => MkExited [ErrLine (txt "dig-relay: fatal: " ++ io_text e)] FAILURE
          end
      end
  end.

Definition run_service_entry (config : RelayServerConfig) : Exited :=
  match platform with
  | Windows =>
      match dispatcher with
      | Ok _ => MkExited [] SUCCESS
      | Err e =>
          MkExited [ErrLine (txt "dig-relay: service dispatcher error: " ++ io_text e)] FAILURE
      end
  | _ => run_serve config
  end.

Definition status_exit `{Network} (json : bool) (config : RelayServerConfig) : Exited :=
  match status config with
  | Ok o => MkExited [print_outcome json o] (if is_serving o then SUCCESS else 1)
  | Err e => fail json e
  end.

(** The binary on a parsed command line; an error is the panic of a malformed proxy list. *)
Definition main `{Network} (env : Env) (cli : Cli) (w : OS) : result Exited str * OS :=
  match config_from env cli with
  | Err msg => (Err msg, w)
  | Ok config =>
      let emits (ro : result Outcome IoError * OS) : result Exited str * OS :=
        (Ok (emit (json_output cli) ro.1), ro.2) in
      match default CServe (command cli) with
      | CServe => (Ok (run_serve config), w)
      | CRunService => (Ok (run_service_entry config), w)
      | CInstall => emits (install config (scope cli) w)
      | CUninstall => emits (uninstall (scope cli) w)
      | CStart => emits (start (scope cli) w)
      | CStop => emits (stop (scope cli) w)
      | CStatus => (Ok (status_exit (json_output cli) config), w)
      end
  end.
End process.

(** ** Lemmas *)

Section lemmas.
Context `{P : Process}.

Lemma map_err_Ok {A E F} (f : E → F) (r : result A E) a : map_err f r = Ok a ↔ r = Ok a.
Proof. destruct r; simpl; split; congruence. Qed.

Lemma map_err_Err {A E F} (f : E → F) (r : result A E) e :
  map_err f r = Err e → ∃ e', r = Err e' ∧ e = f e'.
Proof. destruct r as [|e']; simpl; [done|]. intros [= <-]. by exists e'. Qed.

(** Where a chain of fallible steps stops. *)
Lemma bind_Err {A B E} (r : result A E) (k : A → result B E) e :
  result_bind r k = Err e → r = Err e ∨ ∃ a, r = Ok a ∧ k a = Err e.
Proof. destruct r as [a|e']; simpl; [right; by exists a|left; congruence]. Qed.

Lemma bind_Ok {A B E} (r : result A E) (k : A → result B E) b :
  result_bind r k = Ok b → ∃ a, r = Ok a ∧ k a = Ok b.
Proof. destruct r as [a|]; simpl; [by exists a|done]. Qed.

Lemma validate_error config :
  unsigned_config config → (∃ e, validate config = Err e) ↔ ¬ coherent config.
Proof.
  intros Hu. rewrite <- validate_spec by done. destruct (validate config) as [[]|e].
  - split; [by intros [? ?]|done].
  - split; [done|by exists e].
Qed.

(** A TLS identity on disk: both files are read, the one holds certificates and the other a key, and
    the library makes a server of them that demands a client certificate. *)
Definition identity_loads (config : RelayServerConfig) (server : ServerConfig) : Prop :=
  ∃ cert_path key_path cert_pem key_pem chain key,
    tls_cert_path config = Some cert_path ∧ tls_key_path config = Some key_path ∧
    read cert_path = Ok cert_pem ∧ read key_path = Ok key_pem ∧
    pem_certificates cert_pem = Ok chain ∧ chain ≠ [] ∧ pem_private_key key_pem = Ok key ∧
    with_single_cert true verify_client_cert chain key = Ok server.

(** Why an identity does not load, and the kind of error that is. *)
Inductive tls_fault (config : RelayServerConfig) : IoKind → Prop :=
| fault_cert_unread cert_path key_path e :
    tls_cert_path config = Some cert_path → tls_key_path config = Some key_path →
    read cert_path = Err e → tls_fault config (io_kind e)
| fault_key_unread cert_path key_path cert_pem e :
    tls_cert_path config = Some cert_path → tls_key_path config = Some key_path →
    read cert_path = Ok cert_pem → read key_path = Err e → tls_fault config (io_kind e)
| fault_identity cert_path key_path cert_pem key_pem :
    tls_cert_path config = Some cert_path → tls_key_path config = Some key_path →
    read cert_path = Ok cert_pem → read key_path = Ok key_pem →
    (pem_certificates cert_pem = Ok [] ∨
     (∃ e, pem_certificates cert_pem = Err e) ∨
     (∃ e, pem_private_key key_pem = Err e) ∨
     ∃ chain key e, pem_certificates cert_pem = Ok chain ∧ pem_private_key key_pem = Ok key ∧
       with_single_cert true verify_client_cert chain key = Err e) →
    tls_fault config InvalidDataKind.

Lemma build_server_config_Ok chain key server :
  build_server_config chain key = Ok server ↔
  with_single_cert true verify_client_cert chain key = Ok server.
Proof.
  unfold build_server_config, client_auth_mandatory.
  by destruct (with_single_cert true verify_client_cert chain key).
Qed.

Lemma build_server_config_Err chain key e :
  build_server_config chain key = Err e →
  ∃ e', with_single_cert true verify_client_cert chain key = Err e'.
Proof.
  unfold build_server_config, client_auth_mandatory.
  destruct (with_single_cert true verify_client_cert chain key); [done|]. eauto.
Qed.

Lemma load_pem_identity_Ok cert_pem key_pem chain key :
  load_pem_identity cert_pem key_pem = Ok (chain, key) ↔
  pem_certificates cert_pem = Ok chain ∧ chain ≠ [] ∧ pem_private_key key_pem = Ok key.
Proof.
  unfold load_pem_identity. destruct (pem_certificates cert_pem) as [[|c certs]|].
  - split; [done|]. by intros ([= <-] & ? & _).
  - destruct (pem_private_key key_pem); [|split; [done|by intros (_ & _ & ?)]].
    split; [by intros [= <- <-]|by intros ([= <-] & _ & [= <-])].
  - split; [done|by intros (? & _)].
Qed.

Lemma load_pem_identity_Err cert_pem key_pem e :
  load_pem_identity cert_pem key_pem = Err e →
  pem_certificates cert_pem = Ok [] ∨ (∃ e, pem_certificates cert_pem = Err e) ∨
  ∃ e, pem_private_key key_pem = Err e.
Proof.
  unfold load_pem_identity. destruct (pem_certificates cert_pem) as [[|c certs]|]; eauto.
  destruct (pem_private_key key_pem); [done|eauto].
Qed.

Lemma load_tls_Ok config tls :
  load_tls config = Ok tls ↔
  match tls with
  | Some server => identity_loads config server
  | None => tls_cert_path config = None ∨ tls_key_path config = None
  end.
Proof.
  unfold load_tls, identity_loads. destruct (tls_cert_path config) as [cp|] eqn:Ec.
  2: { split; [intros [= <-]; by left|]. destruct tls; [|done]. by intros (? & ? & ? & ? & ? & ? & ? & _). }
  destruct (tls_key_path config) as [kp|] eqn:Ek.
  2: { split; [intros [= <-]; by right|]. destruct tls; [|done].
       by intros (? & ? & ? & ? & ? & ? & _ & ? & _). }
  split.
  - intros (cert & Hc%map_err_Ok & (key & Hk%map_err_Ok & ([chain k] & Hi%map_err_Ok &
      (server & Hb%map_err_Ok & [= <-])%bind_Ok)%bind_Ok)%bind_Ok)%bind_Ok.
    apply load_pem_identity_Ok in Hi as (H1 & H2 & H3). apply build_server_config_Ok in Hb.
    by exists cp, kp, cert, key, chain, k.
  - destruct tls as [server|]; [|by intros [?|?]].
    intros (cp' & kp' & cert & key & chain & k & [= <-] & [= <-] & Hc & Hk & H1 & H2 & H3 & Hb).
    unfold read_identity_file. rewrite Hc, Hk. simpl.
    rewrite (proj2 (load_pem_identity_Ok cert key chain k)) by done. simpl.
    by rewrite (proj2 (build_server_config_Ok chain k server)).
Qed.

Lemma load_tls_Err config e : load_tls config = Err e → tls_fault config (io_kind e).
Proof.
  unfold load_tls. destruct (tls_cert_path config) as [cp|] eqn:Ec; [|done].
  destruct (tls_key_path config) as [kp|] eqn:Ek; [|done]. intros He.
  apply bind_Err in He as [(e' & Hr & ->)%map_err_Err|(cert & Hc%map_err_Ok & He)].
  { by apply (fault_cert_unread config cp kp e'). }
  apply bind_Err in He as [(e' & Hr & ->)%map_err_Err|(key & Hk%map_err_Ok & He)].
  { by apply (fault_key_unread config cp kp cert e'). }
  apply bind_Err in He as [(e' & Hi%load_pem_identity_Err & ->)%map_err_Err|([chain k] & Hi & He)].
  { apply (fault_identity config cp kp cert key); try done. tauto. }
  apply map_err_Ok, load_pem_identity_Ok in Hi as (H1 & _ & H3).
  apply bind_Err in He as [(e' & Hb & ->)%map_err_Err|(s & _ & He)]; [|done].
  apply build_server_config_Err in Hb as [e2 Hb].
  apply (fault_identity config cp kp cert key); try done. do 3 right. by exists chain, k, e2.
Qed.

Lemma startup_Ok config tls :
  startup config = Ok tls ↔ validate config = Ok tt ∧ load_tls config = Ok tls.
Proof. unfold startup. destruct (validate config) as [[]|e]; simpl; naive_solver. Qed.

(** The exit codes of an emitted result, and its JSON envelope. *)
Lemma emit_exit json r : exit_code (emit json r) = if is_ok r then SUCCESS else FAILURE.
Proof. by destruct r. Qed.

Lemma emit_json r : ∃ j, printed (emit true r) = [Out (default [] (json_to_string j))] ∧
  json_index j "ok" = JBool (is_ok r).
Proof. destruct r as [o|e]; simpl; eexists; split; reflexivity. Qed.

Lemma run_serve_exit config :
  unsigned_config config →
  exit_code (run_serve config) ∈ [0; 1; 2] ∧
  (exit_code (run_serve config) = 2 ↔ ¬ coherent config) ∧
  (exit_code (run_serve config) = 0 →
   ∃ tls, startup config = Ok tls ∧ select (first_to_end config tls Pending) = Ok tt).
Proof.
  intros Hu. rewrite <- validate_error by done. unfold run_serve.
  destruct (validate config) as [[]|e] eqn:Ev; simpl.
  - destruct new_multi_thread; simpl.
    + destruct (serve config) as [[]|e] eqn:Es; simpl.
      * split_and!; [set_solver|split; [done|by intros [? ?]]|]. intros _.
        unfold serve, serve_with_shutdown in Es. by apply bind_Ok.
      * split_and!; [set_solver|split; [done|by intros [? ?]]|done].
    + split_and!; [set_solver|split; [done|by intros [? ?]]|done].
  - split_and!; [set_solver|split; [by exists e|done]|done].
Qed.
End lemmas.

(** ** Properties *)

(** C16: what a start needs. The relay starts its listeners exactly when the configuration is coherent
    and, if a TLS identity is configured, both its files are read, they hold certificates and a key,
    and a server that demands client certificates can be made of them; the listeners then get that
    server, or none if no identity is configured. Otherwise nothing is started and the error has the
    kind of its cause: an invalid input for an incoherent configuration; the file system's kind for
    the file that could not be read, the certificate's before the key's; and invalid data only when
    both files were read and what they hold is no chain, no key, or refused by the TLS library. *)
Theorem startup_exact `{Process} config :
  unsigned_config config →
  (∀ tls, startup config = Ok tls ↔
     coherent config ∧
     match tls with
     | Some server => identity_loads config server
     | None => tls_cert_path config = None ∧ tls_key_path config = None
     end) ∧
  (∀ tls shutdown, startup config = Ok tls →
     serve_with_shutdown config shutdown = select (first_to_end config tls shutdown)) ∧
  (∀ e, startup config = Err e →
     (∀ shutdown, serve_with_shutdown config shutdown = Err e) ∧
     ((¬ coherent config ∧ io_kind e = InvalidInput) ∨
      (coherent config ∧ tls_fault config (io_kind e)))).
Proof.
  intros Hu. pose proof (validate_spec config Hu) as Hv. pose proof (validate_error config Hu) as He.
  split_and!.
  - intros tls. rewrite startup_Ok, load_tls_Ok, Hv. split; intros [Hc Hl]; (split; [done|]);
      destruct tls; try done; destruct Hc as (_ & _ & _ & Htls & _);
      destruct (tls_cert_path config), (tls_key_path config); naive_solver.
  - intros tls shutdown Es. unfold serve_with_shutdown. by rewrite Es.
  - intros e Es. split; [intros shutdown; unfold serve_with_shutdown; by rewrite Es|].
    unfold startup in Es. apply bind_Err in Es as [(e' & Hval & ->)%map_err_Err|([] & Hval%map_err_Ok & Hl)].
    + left. split; [|done]. apply He. by exists e'.
    + right. split; [by apply Hv|]. by apply load_tls_Err.
Qed.

(** C15: a relay that was told to use TLS never serves without. If either path of a TLS identity is
    configured, a start that succeeds serves with a TLS server, under which every connection that is
    handled carries an identity of 64 hexadecimal digits that its handshake proved. *)
Theorem tls_never_silently_off `{Process, !TlsLibLaws} config tls presented verified :
  unsigned_config config → is_Some (tls_cert_path config) ∨ is_Some (tls_key_path config) →
  startup config = Ok tls → connection_identity tls presented = Some verified →
  ∃ leaf rest spki id, presented = Some (leaf :: rest) ∧ x509_spki leaf = Some spki ∧
    verified = Some id ∧ id = hex_lower (sha256 spki) ∧ String.length id = 64%nat.
Proof.
  intros Hu Hset [Hval Hl]%startup_Ok Hc. apply validate_spec in Hval; [|done].
  apply load_tls_Ok in Hl. destruct tls as [server|].
  - destruct Hl as (? & ? & ? & ? & chain & key & _ & _ & _ & _ & _ & _ & _ & Hb%build_server_config_Ok).
    destruct (identified_leaf chain key server Hb presented verified Hc)
      as (leaf & rest & spki & -> & Hk & ->).
    destruct (peer_id_spec leaf spki Hk) as (_ & Hlen & _).
    by exists leaf, rest, spki, (hex_lower (sha256 spki)).
  - exfalso. destruct Hval as (_ & _ & _ & Htls & _).
    destruct (tls_cert_path config), (tls_key_path config); destruct Hset as [[??]|[??]]; naive_solver.
Qed.

(** The exit status of the binary by command: what 0 promises, and what else it can be. *)
Definition exit_promise `{MachineLaws} `{!TlsLib, !Process, !Network} (env : Env) (cli : Cli)
    (config : RelayServerConfig) (w w' : OS) (n : Z) : Prop :=
  let resolved := resolve_scope (scope cli) (PREFERS_USER_LEVEL platform) (is_root w) in
  match default CServe (command cli) with
  | CServe =>
      w' = w ∧ (n = 2 ↔ ¬ coherent config) ∧
      (n = 0 → ∃ tls, startup config = Ok tls ∧ select (first_to_end config tls Pending) = Ok tt)
  | CInstall =>
      n = 0 → ∃ plan, registered w' resolved = Some plan ∧
        (opt_all text (tls_cert_path config) → opt_all text (tls_key_path config) →
         config_from_env (env_of (environment plan)) = Ok (installed config))
  | CUninstall =>
      n = 0 → ∀ s, s ∈ uninstall_scopes (scope cli) (PREFERS_USER_LEVEL platform) (is_root w) →
        registered w' s = None
  | CStatus => w' = w ∧ (n = 0 ↔ probe_health (health_listen config) = Ok true)
  | CStart | CStop | CRunService => True
  end.

(** C21: the exit status can be relied on. From a well-typed command line the binary either panics on
    a malformed proxy list having changed nothing, or exits with 0, 1 or 2, and: a foreground run
    exits with 2 exactly when the configuration is incoherent, and with 0 only after serving; an
    install that exits with 0 has left a registration that will run with the stored settings of the
    configuration; after an uninstall that exits with 0 no registration is left at its scopes; a
    status exits with 0 exactly when the health endpoint answered with a 2xx. *)
Theorem exit_code_honest `{MachineLaws} `{!TlsLib, !Process, !Network} env cli w :
  typed_cli cli →
  match main env cli w with
  | (Err _, w') => w' = w ∧ ∀ c, config_from env cli ≠ Ok c
  | (Ok x, w') => ∃ config, config_from env cli = Ok config ∧
      exit_code x ∈ [0; 1; 2] ∧ exit_promise env cli config w w' (exit_code x)
  end.
Proof.
  intros Hcli. unfold main, exit_promise.
  destruct (config_from env cli) as [config|msg] eqn:Ec; [|done].
  pose proof (typed_config_from env cli config Hcli Ec) as Hty.
  pose proof (typed_unsigned _ Hty) as Hu.
  destruct (run_serve_exit config Hu) as (Hin & Hbad & Hgood).
  destruct (default CServe (command cli)); cbn [fst snd]; exists config; (split; [done|]).
  - done.
  - rewrite emit_exit. split; [by destruct (is_ok _); set_solver|].
    pose proof (install_spec config (scope cli) w) as Hi. cbv zeta in Hi.
    destruct (install config (scope cli) w) as [[o|e] w']; cbn; [|done]. intros _.
    destruct Hi as (prog & _ & Hr & _). eexists. split; [exact Hr|]. intros Hp1 Hp2.
    by apply config_from_installed.
  - rewrite emit_exit. split; [by destruct (is_ok _); set_solver|].
    pose proof (uninstall_spec (scope cli) w) as Hx.
    destruct (uninstall (scope cli) w) as [[o|e] w']; cbn; [|done]. intros _ s Hs.
    destruct Hx as (_ & _ & Hx). apply eq_None_not_Some. intros Hr.
    by destruct (Hx s Hs Hr) as (e & ? & _).
  - rewrite emit_exit. split; [by destruct (is_ok _); set_solver|done].
  - rewrite emit_exit. split; [by destruct (is_ok _); set_solver|done].
  - unfold status_exit, status, is_serving. cbn.
    destruct (probe_health (health_listen config)) as [[]|e]; cbn; (split; [set_solver|done]).
  - split; [|done]. unfold run_service_entry. destruct platform; [|done..].
    destruct dispatcher; simpl; set_solver.
Qed.

(** The JSON contract of the service commands that change something: one line on standard output, an
    object whose [ok] is true exactly when the exit status is 0. *)
Lemma json_contract `{Process, !Network} env cli w :
  json_output cli = true →
  match default CServe (command cli) with
  | CInstall | CUninstall | CStart | CStop => True
  | _ => False
  end →
  match (main env cli w).1 with
  | Ok x => ∃ j ok, printed x = [Out (default [] (json_to_string j))] ∧
      json_index j "ok" = JBool ok ∧ (ok = true ↔ exit_code x = 0)
  | Err _ => True
  end.
Proof.
  intros Hj Hc. unfold main. destruct (config_from env cli) as [config|]; [|done].
  rewrite Hj. destruct (default CServe (command cli)); try done; simpl.
  all: match goal with |- context [emit true ?r] =>
    destruct (emit_json r) as (j & Hp & Ho); exists j, (is_ok r); rewrite Hp, Ho, emit_exit;
    destruct (is_ok r); done end.
Qed.

(** The reports of the Windows service: once it was reported running, it is reported stopped, with a
    zero exit code exactly when serving succeeded; unless the runtime cannot be built. *)
Lemma service_reports `{Process} env :
  match run_service env with
  | Ok (r, reports) =>
      (reports = [] ∧ is_ok r = false) ∨
      (reports = [MkStatus Running true 0] ∧ is_ok new_multi_thread = false ∧ is_ok r = false) ∨
      ∃ exit, reports = [MkStatus Running true 0; MkStatus Stopped false exit] ∧
        (exit = 0 ↔ r = Ok tt)
  | Err _ => True
  end.
Proof.
  unfold run_service. destruct (config_from_env env) as [c|]; simpl; [|done].
  destruct register_handler; [|by left]. destruct (set_service_status _); [|by left].
  destruct new_multi_thread; simpl; right; [|by left]. right.
  destruct (serve_with_shutdown c OnStop) as [[]|]; simpl; eexists; (split; [reflexivity|]); done.
Qed.

(** ** An instance *)

#[local] Existing Instances machine_example machine_example_laws tls_example tls_example_laws.

(** The files of a TLS identity, a health endpoint that answers, and listeners that end when one
    cannot bind. *)
Definition process_example : Process := {|
  read := λ p,
    if decide (p = "/etc/dig-relay/cert.pem"%string) then Ok [48; 1]
    else if decide (p = "/etc/dig-relay/key.pem"%string) then Ok [2]
    else Err (MkIoError NotFound (txt "No such file or directory"));
  debug_path := λ p, quoted (txt p);
  json_to_string := λ j, match json_index j "ok" with JBool true => Some (txt "ok") | _ => None end;
  new_multi_thread := Ok tt;
  first_to_end := λ _ _ shutdown,
    match shutdown with
    | Pending => RelayEnded (Err (MkIoError PermissionDenied (txt "Address already in use")))
    | OnStop => ShutdownFired
    end;
  register_handler := Ok tt;
  set_service_status := λ _, Ok tt;
  dispatcher := Ok tt
|}.

#[local] Instance network_example : Network :=
  λ a req, Ok (Some (txt "HTTP/1.1 200 OK")).

#[local] Existing Instance process_example.

(** [--tls-cert /etc/dig-relay/cert.pem --tls-key K]. *)
Definition tls_cli (key : string) : Cli :=
  MkCli None false Auto None None None None None None None None None None None None None None None
    None None None None None None None (Some "/etc/dig-relay/cert.pem"%string) (Some key).

Definition tls_config (key : string) : RelayServerConfig := apply_overrides config_default (tls_cli key).

(** A key file that is there, and one that is missing, which stops the start with the file system's
    error. *)
Lemma startup_exact_witness :
  let server : @ServerConfig tls_example := (true, verify_client_cert) in
  identity_loads (tls_config "/etc/dig-relay/key.pem") server ∧
  ∃ e, startup (tls_config "/nowhere") = Err e ∧ io_kind e = NotFound ∧
    serve_with_shutdown (tls_config "/nowhere") OnStop = Err e ∧ tls_fault (tls_config "/nowhere") NotFound.
Proof.
  intros server. assert (unsigned_config (tls_config "/nowhere")) as Hu
    by (apply (bool_decide_unpack _); vm_compute; exact I).
  assert (unsigned_config (tls_config "/etc/dig-relay/key.pem")) as Hu'
    by (apply (bool_decide_unpack _); vm_compute; exact I).
  split.
  { apply (proj1 (startup_exact (tls_config "/etc/dig-relay/key.pem") Hu')
             (Some server)). reflexivity. }
  destruct (startup (tls_config "/nowhere")) as [tls|e] eqn:E; [vm_compute in E; discriminate|].
  destruct (proj2 (proj2 (startup_exact (tls_config "/nowhere") Hu)) e E) as [Hs Hf].
  assert (io_kind e = NotFound) as Ek by (vm_compute in E; injection E as <-; reflexivity).
  exists e. split; [reflexivity|]. split; [exact Ek|]. split; [apply Hs|].
  rewrite <- Ek. destruct Hf as [[_ Hf]|[_ Hf]]; [rewrite Ek in Hf; discriminate|exact Hf].
Defined.

Lemma tls_never_silently_off_witness :
  let server : @ServerConfig tls_example := (true, verify_client_cert) in
  ∃ verified, startup (tls_config "/etc/dig-relay/key.pem") = Ok (Some server) ∧
    connection_identity (Some server) (Some [[48; 7]]) = Some verified ∧ is_Some verified.
Proof.
  intros server. assert (unsigned_config (tls_config "/etc/dig-relay/key.pem")) as Hu
    by (apply (bool_decide_unpack _); vm_compute; exact I).
  assert (startup (tls_config "/etc/dig-relay/key.pem") = Ok (Some server)) as Hs by reflexivity.
  assert (connection_identity (Some server) (Some [[48; 7]]) =
    Some (Some (hex_lower (sha256 [7])))) as Hc by reflexivity.
  exists (Some (hex_lower (sha256 [7]))). split; [exact Hs|]. split; [exact Hc|].
  destruct (tls_never_silently_off (tls_config "/etc/dig-relay/key.pem") _ _ _ Hu
    (or_introl (ex_intro _ _ eq_refl)) Hs Hc) as (leaf & rest & spki & id & _ & _ & -> & _).
  by exists id.
Defined.

(** Uninstalling at the system scope as root: an exit of 0, and nothing registered there. *)
Lemma exit_code_honest_witness :
  let cli := MkCli (Some CUninstall) false System None None None None None None None None None None
    None None None None None None None None None None None None None None in
  let w : OS := (Some ex_plan, None) in
  typed_cli cli ∧
  ∃ x w', main (env_of []) cli w = (Ok x, w') ∧ exit_code x = 0 ∧ registered w' SystemScope = None.
Proof.
  intros cli w. assert (typed_cli cli) as Hcli by (split; simpl; repeat apply Forall_cons_2; try apply Forall_nil_2; intros x [=]).
  split; [exact Hcli|]. pose proof (exit_code_honest (env_of []) cli w Hcli) as Hx.
  destruct (main (env_of []) cli w) as [[x|msg] w'] eqn:E.
  - assert (exit_code x = 0) as H0.
    { change x with (match (@Ok Exited str x) with Ok x => x | Err _ => x end).
      change (@Ok Exited str x) with ((@Ok Exited str x, w').1). rewrite <- E. vm_compute. reflexivity. }
    exists x, w'. split; [reflexivity|]. split; [exact H0|].
    destruct Hx as (config & _ & _ & Hp). apply Hp; [exact H0|]. vm_compute. left.
  - exfalso. assert (is_ok (main (env_of []) cli w).1 = true) as Ho by (vm_compute; reflexivity).
    rewrite E in Ho. discriminate.
Defined.
